(* ===== verification/_CoqProject ===== *)
-Q . S2P
Prelude.v
Versions.v
Buffers.v
Streams.v
Base64.v
Addresses.v
Binary.v
Protocol.v
Channels.v
IntRanges.v
Async.v
Cache.v
Silos.v
SiloFilesystem.v
SiloAdapters.v
PaxosServer.v
PaxosClient.v
PaxosSafety.v
PaxosRuns.v
PaxosLiveness.v
PaxosNetworks.v
Nodes.v
LocalPeer.v
PeerRefinement.v
PeerProperties.v
Replication.v
ReplicationProperties.v
Signatures.v
Blocks.v
BlockProperties.v
BlockTheorems.v
ContentBlocks.v
ContentTheorems.v
LocalStore.v
StoreTheorems.v
Passports.v
PassportTheorems.v
KeyHashes.v
Picks.v
Kouncil.v
KouncilProperties.v
KouncilTheorems.v
KouncilGossip.v
Groups.v
GroupProperties.v
GroupTheorems.v
Rpc.v
RpcTheorems.v
Coroutines.v
CoroutineProperties.v
CoroutineTheorems.v
Mailboxes.v
MailboxTheorems.v
Docks.v
DockProperties.v
DockTheorems.v
