(* ===== verification/Prelude.v ===== *)
(** * Verification of memo and of the parts of elle it rests on

    memo is a distributed key-value store: blocks of data, mutable or not, are
    kept by the nodes of a network, each under an address, several nodes (the
    quorum of the block) keeping a copy. The replicas of a mutable block agree
    on its successive versions with Paxos; its immutable blocks are only copied.
    A node stores what it keeps in a silo (memory, files, or silos made of
    silos), and talks to the others over connections that carry packets,
    multiplexed into channels. elle is the library the program is made with.

    Paths below are under src/elle/src/elle (elle) and src/src/memo (memo).

    ** Parts, files, and how they rest on each other

    From the bottom up; each file only requires files above it.

    - Prelude.v (this file): results and exceptions as values, the monads of
      methods ([method]: a state, and an exception that leaves the state as it
      is; [partial]: the same with loops that may not end), tactics, machine
      integers, [Identifier].
    - Versions.v: elle/Version.cc. [Version.t] are versions of formats and of
      protocols; order, printing, parsing.
    - Buffers.v, Streams.v, Base64.v: elle/Buffer.cc, IOStream.cc and format/.
      [Buffer.t] is the memory a buffer owns, [Writer] the stream over any
      [Sink]; base64 is over the class [Codec] of what boost converts.
    - Addresses.v: memo/model/Address.cc. 32 bytes, of which one bit tells
      mutable from immutable blocks.
    - Binary.v: elle/serialization/binary. [format] is the contract of a type
      that serializes; [ty] are the types the serializers accept.
    - Protocol.v: elle/protocol/Serializer.cc and Stream.cc. [Protocol.t] is
      Serializer::Impl with the bytes of both directions; packets, chunks,
      control bytes, checksums, pings.
    - Channels.v: elle/protocol/ChanneledStream.cc and Channel.cc, over the
      packets of Protocol.v; [world] puts two ends together.
    - Rpc.v: memo/RPC.hh, calls over the channels of Channels.v in the format of
      Binary.v. [server] is RPCServer, [procedure] a ConcreteRPCHandler, whose
      function is given, [request] and [answer] the two halves of RPCCall::_call;
      [net] puts callers and a server at the ends of a connection.
      RpcTheorems.v.
    - IntRanges.v: elle/IntRange.cc.
    - Async.v: memo/model/doughnut/Async.cc, the queue of deferred writes.
      [Async.t] has its operations, journal and coroutines; [fifo] is the queue
      it promises to be; blocks and conflict resolvers are the class
      [Async.Blocks].
    - Cache.v: memo/model/doughnut/Cache.cc. [Cache.t] has the blocks in memory
      and the files; the consensus below is the class [Backend], whose methods
      may change the cache, as what runs while one waits does.
    - Silos.v, SiloFilesystem.v, SiloAdapters.v: memo/silo. [SiloImpl] is the
      virtual part of Silo, [Silo] its public methods, [SiloSpec] the map a silo
      promises to be; Memory, Filesystem, and Strip, Mirror, Crypt, Latency,
      which are silos over any silo that keeps the promise.
    - PaxosServer.v: elle/athena/paxos/Server.hxx, the acceptor. [Server.t]
      is the class, [propose], [accept], [confirm], [get] its handlers.
    - PaxosClient.v: elle/athena/paxos/Client.hxx, the proposer, against the
      class [Network], which stands for the calls to its peers.
    - PaxosSafety.v, PaxosRuns.v: the steps of any number of proposers and
      acceptors, and executions of them.
    - PaxosLiveness.v, PaxosNetworks.v: the proposer on the acceptors
      themselves, and its independence from how the network is made.
    - Nodes.v: addresses as the identifiers of nodes, and what is asked of
      blocks.
    - LocalPeer.v: memo/model/doughnut/consensus/Paxos.cc, Paxos::LocalPeer.
      [Local.peer] holds the acceptors of the blocks of a node, on its silo
      (as the map Silos.v proves a silo to be) and in a cache.
    - PeerRefinement.v, PeerProperties.v: what this peer is, and what it does
      on its own.
    - Replication.v: the rest of consensus/Paxos.cc and the removals of
      Consensus.cc: a node that stores, reads, removes and rebalances blocks,
      over its own peer (LocalPeer.v), the proposer (PaxosClient.v) and the
      class [Remotes] of the other peers.
    - ReplicationProperties.v: what it achieves.
    - Signatures.v: keys, signatures and what is signed. Cryptography is the
      class [Crypto]; [payload] is what each OwnerSignature, DataSignature and
      so on serializes.
    - Blocks.v: memo/model/doughnut/OKB.hh and ACB.cc, and blocks/Block.cc.
      [okb] is BaseOKB, [acb] is BaseACB: permissions, sealing, validation,
      reading, removal. BlockProperties.v has their invariants and
      BlockTheorems.v what they promise.
    - ContentBlocks.v: CHB.cc, NB.cc and UB.cc, and [block], any of the blocks,
      with Block::validate and Block::validate_remove. ContentTheorems.v.
    - LocalStore.v: memo/model/doughnut/Local.cc, the node that keeps the blocks
      it is given in a silo (Silos.v) after it validated them (ContentBlocks.v).
      StoreTheorems.v.
    - Passports.v: Passport.cc, Doughnut::verify, the authentication of the
      connections a node serves (Local.cc) and its client (Dock.cc).
      PassportTheorems.v.
    - KeyHashes.v: KeyCache.hh, Doughnut::ensure_key and the others, which send
      keys as numbers.
    - Picks.v: elle/random.hh, the random choices, over what the generator
      gives.
    - Kouncil.v: memo/overlay/kouncil/Kouncil.cc, the overlay by default, in
      which each node knows all the others and the blocks they have; with the
      ages of elle/athena/LamportAge.hh and Endpoints.cc. [Kouncil.t] is the
      class, what it sends and asks of Dock the actions its methods emit.
      KouncilProperties.v has what happens to a node, its invariant, and what is
      around it ([world]): its connections, its storage, what it was told;
      KouncilTheorems.v and KouncilGossip.v what it promises, alone and with
      other nodes.
    - Groups.v: GB.cc and the part of Group.cc that edits the block of a group.
      [gb] is an [acb] of Blocks.v, whose [part] has the public keys, the
      administrators and the description, with the keys that were decrypted;
      [perform] is GroupConflictResolver, [info] what an ACB that is shared with
      the group is given. GroupProperties.v has the invariant of a group,
      [held], and GroupTheorems.v what groups promise.
    - Coroutines.v: elle/reactor, what coroutines wait for and how they are
      woken. [Coroutines.t] is Scheduler with the threads and the waitables
      (Waitable.cc); a waitable is named, its class being the constructor
      ([Lockable (Mutex i)], [Barrier i]...), and [objects] has the members of
      Barrier, Semaphore, Mutex and so on. A method that waits is cut where it
      freezes ([wait] and [resume] are the halves of Thread::wait, [lock_turn] a
      turn of Lock::Lock); [happen] lets coroutines call, wait, be woken, time
      out, be interrupted and terminated in any order. CoroutineProperties.v has
      who waits for what ([graph], [still]) and who has which lock
      ([accounts]); CoroutineTheorems.v what locks and waits promise.
    - Mailboxes.v: elle/reactor/Channel.hxx, the queue between coroutines, over
      two barriers of Coroutines.v. MailboxTheorems.v.
    - Docks.v: memo/model/doughnut/Dock.cc, Remote.cc and Remote.hxx, the
      connections of a node and the peers it reaches over them. [Dock.t] is the
      dock, with its connections and remotes, which are shared by pointer and
      numbered; the coroutine of a connection is cut where it waits, and what
      happens to it are the events of [handle]; [perform_turn] is a turn of
      Remote::safe_perform. DockProperties.v has the invariant of a dock, [inv],
      and what each operation does; DockTheorems.v what docks promise.

    ** What the theorems show

    Consensus. [agreement] (PaxosSafety.v): over any interleaving, with messages
    lost, repeated and reordered, two clients that are told the outcome of a
    version are told the same, provided servers label what they report with the
    number it was accepted at; [mislabelled_agreement_fails] is a run in which
    the code does not, and agreement is lost. [choose_terminates]: with a
    majority of the servers up and no rival, choosing ends after two turns.
    PaxosServer.v has the contract of the acceptor: it only moves forward,
    keeps its promises and its confirmed values, enforces the quorums that are
    elected, and survives saving and loading, up to what old formats lose.

    Replication. [peer_is_its_disk]: with its cache, its evictions and its
    restarts a peer is one acceptor for each block, kept on disk, but for the
    propagation of a block it knows ([propagation_sees_the_cache]). [store_then_fetch]
    composes the proposer, the acceptors and the code of the node: a block
    stored while a majority of its owners is up is read back. The other
    theorems of PeerProperties.v and ReplicationProperties.v are invariants of
    the index of quorums, bounds on the cache and on quorums, and what happens
    when peers fail; several show that the code does what it does not mean to.

    Blocks. Every operation keeps what relates the marks of a block to its
    signatures ([operations_keep_coherence]); what an owner seals is accepted
    ([owner_seal_is_accepted]), what is accepted was signed by someone the
    owner's list allows ([valid_is_authorised]), and who may read does
    ([readers_read]). [failed_seal_is_forgotten], [granted_right_cannot_read],
    [nb_removal_needs_same_memory] are runs in which the code does not do what
    it means to. Local store: versions only grow ([versions_never_go_back]); but
    lists of rights may go back ([revoked_writer_overwrites]), and a block that
    cannot be written can be removed by anybody ([anybody_removes_a_chb]).

    Groups. [group_became] is any history of a group: edited and sealed by who
    has the key of its owner, copied, sent to any node. Whoever its block lists
    finds all its keys in it, and nobody else ([members_hold_the_keys]); a member
    who leaves makes a key it does not get ([removal_makes_a_key]); what is
    shared with a group is read by its members, also when the group changed
    meanwhile ([shared_with_a_group_is_read]); but an administrator who was
    removed comes back ([removed_admin_returns]).

    Overlay. A node of Kouncil keeps what it knows of the others in step with its
    connections, its storage and what it is told ([kouncil_keeps_track]), but stops
    when a peer tells too soon whether it stores ([configured_too_soon]); what it
    believes of a peer
    follows what the peer has ([book_follows_owner]); gossip stops
    ([gossip_ends]); lookups find a node that has the block, if one is known
    ([lookup_finds]), allocation chooses distinct nodes among those that said
    they store ([allocate_chooses]) and statistics count what they say ([reachable_blocks_are_counted]).
    [removed_block_is_announced], [gossip_livelock], [stopped_node_is_chosen] and
    [newest_location_is_lost] show where this ends.

    Connections. When calls are encrypted only who has a passport, and the key it is
    for, may write ([writers_are_authenticated]); passports are verified up to the owner of the
    network ([verified_is_certified]), unless one certifies itself
    ([self_certified_never_ends]); both ends agree on a key
    ([handshake_agrees]); the challenge of a server may be more than a challenge
    ([challenge_signs_a_removal]). Keys sent as numbers are read back
    ([written_key_is_read]).

    A dock has one connection at most to a node and one remote at most for it,
    and a remote is open when its connection serves ([dock_keeps_track]); a peer
    that was lost comes back ([reconnection_restores]).
    [revived_remote_refuses], [interrupted_connection_is_never_over],
    [impatient_call_asserts] and [dropped_connection_stays] show where this ends.

    Coroutines. In any execution a coroutine only waits for what has not happened,
    and for a lock that someone has ([nobody_waits_in_vain]): no wake-up is lost
    and no assertion fails, as long as locks are released in the reverse order
    and one waits for several things only when none throws. Locks exclude each
    other ([locks_exclude]) and are handed over ([released_mutex_is_taken]). A
    channel is a bounded queue ([channel_is_a_bounded_queue]). The conditions are
    needed: [write_lock_released_first], [waiting_for_two_breaks]; and
    [upgrade_waits_for_itself], [room_is_not_announced], [late_reader_crashes]
    are where coroutines wait for ever or fail.

    Deferred writes. [deferred_in_order]: with a journal, the queue is a FIFO
    queue that outlives the node, whatever fails below; [deferred_reads]: a read
    sees the writes that are pending. [merging_leaves_a_hole] is a run in which
    merging operations stops the queue.

    Cache. [cache_is_transparent]: a node that is alone gets through its cache
    what it would without it; [cleanup_bounds_staleness]: one that is not sees
    blocks of bounded age; [files_are_bounded] accounts for the files. Two
    theorems show where this ends: [refresh_undoes_a_store] and
    [known_block_is_counted_twice].

    Storage. Silos behave as maps and account for what they hold, within
    their capacity; a directory of blocks can be closed and opened again; strips
    and mirrors refine the silo they stand for.

    Wire. Every type reads back from its binary form, whatever follows
    ([binary_round_trip]); numbers cut short are refused but for the longest.
    Packets arrive complete and in order, whatever their size, the chunks, the
    pings and the packets given up ([packets_arrive]); a reader always returns, and
    a failure within a packet breaks the stream ([reading_terminates]); the version two peers agree on is not the one
    they use ([negotiation_is_ignored]). Channels are queues
    ([channels_are_queues]) whose names do not clash ([names_do_not_clash]). A
    call over them does what the procedure does ([remote_call_is_local],
    [unknown_call_throws]); each is served at most once, and gets its own answer,
    however many there are at a time ([answers_match_calls]).

    Data. Buffers refine lists of bytes; base64 is computed by the chunk as it
    is all at once, and decodes; sets of ranges are sets.

    ** Fuel and bounds

    Loops that need not end take fuel and answer [None] without it; theorems
    that they return say how much is enough. [choose] needs two turns when
    no other client runs; [rebalance_livelock] shows a loop for which no fuel
    is enough. Reading a packet takes one more than the bytes left to read,
    each turn taking one at least; writing one takes one more than the bytes
    of the packet, as long as the size of chunks is not zero. Other loops are
    on the data they consume. Integers have their width where the code relies
    on it (versions, numbers of the binary format, names of channels, sizes read
    into an int); counters of locks and of readers are unbounded; sizes of objects
    in memory are natural numbers.

    ** What is a parameter

    Code that is not in the repository, or that is a wrapper of it: the ciphers
    and hashes of OpenSSL, the iterators of boost, the file system, the clock,
    random numbers, the order in which parallel calls complete and what the
    network loses. Hypotheses about them are stated where they are used, and
    concrete instances satisfy them in the witnesses: [Crypto] with its laws
    [LawfulCrypto] and, where forging matters, [Unforgeable]. The overlay is an
    interface ([Remotes]), and so are blocks for the code that only moves them
    ([MutableBlocks], [Blocks]).

    ** Not modelled

    - Outside Coroutines.v and Mailboxes.v, coroutines do not interleave within a
      call, except where the model says what the others did meanwhile (the pauses
      of Protocol.v, the decisions held by others in LocalPeer.v).
    - Of the scheduler: the machine contexts it switches and the events of asio;
      waiting for either of two things (OrWaitable), scopes, the termination of
      everything, the code injected into a coroutine, background threads.
    - Objects shared by pointer between a caller and the peer of its own node:
      a block is a value, so that sealing a block after it was handed over does
      not change what was accepted; nor do pointers to evicted decisions dangle.
    - The order of hashed containers is that of the lists that stand for them;
      a coroutine of Kouncil is the pieces between which it waits, and
      Dock::connect an action whose answer is an event.
    - Creating and destroying a group, which insert and remove its blocks.
    - A group whose block lists the group itself: blocks ask their node for the
      keys of a group, and the answer does not depend on the block that asks.
      What is serialized before 0.4.0.
    - Kelips and the other overlays. Of connections: sockets, and the endpoints
      of one, which are tried in parallel; nodes before 0.7.0, which do not say
      their address; Dock::cleanup and the rendezvous. A remote is there until an
      event destroys it, whoever holds it.
    - Calls that are served by several coroutines at once (one is the default),
      and the channels that calls close when they ended; procedures that the
      nodes add to their servers are the methods of the files above, which are
      not called through Rpc.v.
    - JSON (a vendored parser), dates and doubles of the binary format, and the
      version numbers of serialized types.
    - Silos over remote services, FUSE, the command line, HTTP, logging:
      input and output.

    ** Plan

    Docks.v against what Kouncil.v asks of it, and the methods of Remote as calls
    of Rpc.v; the creation of groups over
    Replication.v; OrWaitable and Scope over Coroutines.v. *)

From stdpp Require Import base tactics functions option list gmap sorting strings.
From Stdlib Require Import ZArith Lia.

Declare Scope memo_scope.
Delimit Scope memo_scope with memo.

(** ** Results and the state-and-exception monad *)

(** A C++ call either returns a value or leaves by an exception. *)
Inductive result (E A : Type) : Type :=
  | Ok (a : A)
  | Throw (e : E).
Arguments Ok {E A} a.
Arguments Throw {E A} e.

#[export] Instance result_ret E : MRet (result E) := fun A a => Ok a.
#[export] Instance result_bind E : MBind (result E) :=
  fun A B k m => match m with Ok a => k a | Throw e => Throw e end.
#[export] Instance result_fmap E : FMap (result E) :=
  fun A B f m => match m with Ok a => Ok (f a) | Throw e => Throw e end.

(** A method of an object whose state is an [S]: the state is kept when the
    method throws, as the C++ object outlives the exception. *)
Definition method (S E A : Type) : Type := S -> result E A * S.

#[export] Instance method_ret S E : MRet (method S E) :=
  fun A a s => (Ok a, s).
#[export] Instance method_bind S E : MBind (method S E) :=
  fun A B k m s =>
    match m s with
    | (Ok a, s') => k a s'
    | (Throw e, s') => (Throw e, s')
    end.
#[export] Instance method_fmap S E : FMap (method S E) :=
  fun A B f m s =>
    match m s with
    | (Ok a, s') => (Ok (f a), s')
    | (Throw e, s') => (Throw e, s')
    end.

Section Method.
Context {S E : Type}.

Definition throw {A} (e : E) : method S E A := fun s => (Throw e, s).
Definition read : method S E S := fun s => (Ok s, s).
Definition reads {A} (f : S -> A) : method S E A := fun s => (Ok (f s), s).
Definition write (s : S) : method S E unit := fun _ => (Ok tt, s).
Definition modify (f : S -> S) : method S E unit := fun s => (Ok tt, f s).
Definition lift {A} (r : result E A) : method S E A := fun s => (r, s).
Definition when (b : bool) (m : method S E unit) : method S E unit :=
  if b then m else mret tt.

(** [try { m } catch (e) { h(e) }]: [h] answers [None] for the exceptions
    its clauses do not match, which go on unwinding. *)
Definition try_catch {A} (m : method S E A) (h : E -> option (method S E A)) :
  method S E A :=
  fun s =>
    match m s with
    | (Ok a, s') => (Ok a, s')
    | (Throw e, s') =>
        match h e with
        | Some k => k s'
        | None => (Throw e, s')
        end
    end.

Lemma bind_Ok_inv {A B} (m : method S E A) (k : A -> method S E B) s b s' :
  (m ≫= k) s = (Ok b, s') ->
  exists a s1, m s = (Ok a, s1) /\ k a s1 = (Ok b, s').
Proof.
  unfold mbind, method_bind. destruct (m s) as [[a|e] s1] eqn:Hm; intros H.
  - eauto.
  - congruence.
Qed.

Lemma bind_Throw_inv {A B} (m : method S E A) (k : A -> method S E B) s e s' :
  (m ≫= k) s = (Throw e, s') ->
  m s = (Throw e, s') \/
  exists a s1, m s = (Ok a, s1) /\ k a s1 = (Throw e, s').
Proof.
  unfold mbind, method_bind. destruct (m s) as [[a|e'] s1] eqn:Hm; intros H.
  - eauto.
  - left. congruence.
Qed.

Lemma bind_Ok {A B} (m : method S E A) (k : A -> method S E B) s a s1 :
  m s = (Ok a, s1) -> (m ≫= k) s = k a s1.
Proof. unfold mbind, method_bind. by intros ->. Qed.

Lemma bind_Throw {A B} (m : method S E A) (k : A -> method S E B) s e s1 :
  m s = (Throw e, s1) -> (m ≫= k) s = (Throw e, s1).
Proof. unfold mbind, method_bind. by intros ->. Qed.

Lemma bind_assoc {A B C} (m : method S E A) (k : A -> method S E B)
    (l : B -> method S E C) s :
  ((m ≫= k) ≫= l) s = (m ≫= (fun a => k a ≫= l)) s.
Proof. unfold mbind, method_bind. by destruct (m s) as [[a|e] s1]. Qed.

Lemma bind_ret_l {A B} (a : A) (k : A -> method S E B) s :
  (mret a ≫= k) s = k a s.
Proof. done. Qed.

Lemma bind_read {A} (k : S -> method S E A) s : (read ≫= k) s = k s s.
Proof. done. Qed.
Lemma bind_reads {A B} (f : S -> A) (k : A -> method S E B) s :
  (reads f ≫= k) s = k (f s) s.
Proof. done. Qed.

Lemma bind_modify {A} (f : S -> S) (k : unit -> method S E A) s : (modify f ≫= k) s = k tt (f s).
Proof. done. Qed.
Lemma bind_write {A} (s' : S) (k : unit -> method S E A) s : (write s' ≫= k) s = k tt s'.
Proof. done. Qed.

Lemma bind_ret_r {A} (m : method S E A) s : (m ≫= mret) s = m s.
Proof. unfold mbind, method_bind, mret, method_ret.
       by destruct (m s) as [[a|e] s1]. Qed.
End Method.

(** A method with loops that may not end: [None] when the fuel ran out. *)
Definition partial (S E A : Type) : Type := S -> option (result E A * S).

#[export] Instance partial_ret S E : MRet (partial S E) :=
  fun A a s => Some (Ok a, s).
#[export] Instance partial_bind S E : MBind (partial S E) :=
  fun A B k m s =>
    match m s with
    | Some (Ok a, s') => k a s'
    | Some (Throw e, s') => Some (Throw e, s')
    | None => None
    end.

Section Partial.
Context {S E : Type}.

Definition run_once {A} (m : method S E A) : partial S E A := fun s => Some (m s).
Definition no_fuel {A} : partial S E A := fun _ => None.
Definition partial_catch {A} (m : partial S E A)
    (h : E -> option (partial S E A)) : partial S E A :=
  fun s =>
    match m s with
    | Some (Throw e, s') =>
        match h e with Some k => k s' | None => Some (Throw e, s') end
    | r => r
    end.

Lemma run_bind {A B} (m : method S E A) (k : A -> partial S E B) s a s1 :
  m s = (Ok a, s1) -> (run_once m ≫= k) s = k a s1.
Proof. unfold mbind, partial_bind, run_once. by intros ->. Qed.

Lemma part_bind {A B} (m : partial S E A) (k : A -> partial S E B) s a s1 :
  m s = Some (Ok a, s1) -> (m ≫= k) s = k a s1.
Proof. unfold mbind, partial_bind. by intros ->. Qed.

Lemma part_throw {A B} (m : partial S E A) (k : A -> partial S E B) s e s1 :
  m s = Some (Throw e, s1) -> (m ≫= k) s = Some (Throw e, s1).
Proof. unfold mbind, partial_bind. by intros ->. Qed.

Lemma run_throw {A B} (m : method S E A) (k : A -> partial S E B) s e s1 :
  m s = (Throw e, s1) -> (run_once m ≫= k) s = Some (Throw e, s1).
Proof. unfold mbind, partial_bind, run_once. by intros ->. Qed.
End Partial.

(** Whether a call returned. *)
Definition is_ok {E A} (r : result E A) : bool :=
  match r with Ok _ => true | Throw _ => false end.

(** ** Tactics *)

Create HintDb memo discriminated.

(** Open every monadic operation of the goal and the hypotheses. *)
Ltac monad_unfold :=
  unfold when, try_catch, throw, read, reads, write, modify, lift, mbind, mret,
    fmap, method_bind, method_ret, method_fmap, result_bind, result_ret,
    result_fmap in *.

(** Split every [match] of the goal, then of the hypotheses, and drop the
    branches whose equations clash. *)
Ltac split_goal := repeat (case_match; simplify_eq/=).
Ltac split_in H :=
  repeat (match type of H with
          | context [match ?x with _ => _ end] =>
              destruct x eqn:?; simplify_eq/=
          end).
Ltac split_all := repeat (case_match; simplify_eq/=); try done.

(** Invert the binds of a hypothesis [m s = (r, s')]. *)
Ltac bind_inv H :=
  lazymatch type of H with
  | mbind _ _ _ = (Ok _, _) =>
      let a := fresh "a" in let s := fresh "s" in
      let H1 := fresh "H" in let H2 := fresh "H" in
      apply bind_Ok_inv in H; destruct H as (a & s & H1 & H2)
  | mbind _ _ _ = (Throw _, _) =>
      let a := fresh "a" in let s := fresh "s" in
      let H1 := fresh "H" in let H2 := fresh "H" in
      apply bind_Throw_inv in H;
      destruct H as [H1 | (a & s & H1 & H2)]
  end.

(** Turn boolean tests into propositions. *)
Ltac to_prop :=
  repeat match goal with
  | H : bool_decide _ = true |- _ => apply bool_decide_eq_true in H
  | H : bool_decide _ = false |- _ => apply bool_decide_eq_false in H
  | H : (_ && _)%bool = true |- _ => apply andb_true_iff in H; destruct H
  | H : (_ && _)%bool = false |- _ => apply andb_false_iff in H
  | H : (_ || _)%bool = false |- _ => apply orb_false_iff in H; destruct H
  | H : (_ || _)%bool = true |- _ => apply orb_true_iff in H
  | H : negb _ = true |- _ => apply negb_true_iff in H
  | H : negb _ = false |- _ => apply negb_false_iff in H
  | H : Z.ltb _ _ = true |- _ => apply Z.ltb_lt in H
  | H : Z.ltb _ _ = false |- _ => apply Z.ltb_ge in H
  | H : Z.leb _ _ = true |- _ => apply Z.leb_le in H
  | H : Z.leb _ _ = false |- _ => apply Z.leb_gt in H
  | H : Z.eqb _ _ = true |- _ => apply Z.eqb_eq in H
  | H : Z.eqb _ _ = false |- _ => apply Z.eqb_neq in H
  end.

(** ** Machine integers *)

Section Words.
Open Scope Z_scope.

(** The value of an unsigned, resp. two's complement signed, integer of
    [w] bits that receives [z]. *)
Definition wrap_u (w z : Z) : Z := z mod 2 ^ w.
Definition wrap_s (w z : Z) : Z := (z + 2 ^ (w - 1)) mod 2 ^ w - 2 ^ (w - 1).

Definition is_byte (b : Z) : Prop := 0 <= b < 256.
Definition int64_range (z : Z) : Prop := - 2 ^ 63 <= z < 2 ^ 63.
Definition int32_range (z : Z) : Prop := - 2 ^ 31 <= z < 2 ^ 31.

Lemma wrap_u_range w z : 0 <= w -> 0 <= wrap_u w z < 2 ^ w.
Proof. intros. apply Z.mod_pos_bound. lia. Qed.

Lemma wrap_u_id w z : 0 <= z < 2 ^ w -> wrap_u w z = z.
Proof. apply Z.mod_small. Qed.

Lemma wrap_s_range w z : 0 < w -> - 2 ^ (w - 1) <= wrap_s w z < 2 ^ (w - 1).
Proof.
  intros Hw. unfold wrap_s.
  assert (2 ^ w = 2 * 2 ^ (w - 1)) as Hp.
  { rewrite <- Z.pow_succ_r by lia. f_equal. lia. }
  pose proof (Z.mod_pos_bound (z + 2 ^ (w - 1)) (2 ^ w)). lia.
Qed.

Lemma wrap_s_id w z :
  0 < w -> - 2 ^ (w - 1) <= z < 2 ^ (w - 1) -> wrap_s w z = z.
Proof.
  intros Hw Hz. unfold wrap_s.
  assert (2 ^ w = 2 * 2 ^ (w - 1)) as Hp.
  { rewrite <- Z.pow_succ_r by lia. f_equal. lia. }
  rewrite Z.mod_small; lia.
Qed.
End Words.

(** ** Identifiers: totally ordered, with a default *)

Class Identifier (I : Type) `{Countable I} := {
  id_ltb : I -> I -> bool;
  id_default : I;
  id_ltb_irrefl : forall a, id_ltb a a = false;
  id_ltb_trans : forall a b c,
    id_ltb a b = true -> id_ltb b c = true -> id_ltb a c = true;
  id_ltb_total : forall a b, id_ltb a b = false -> id_ltb b a = false -> a = b;
}.

#[export] Program Instance Z_identifier : Identifier Z := {|
  id_ltb := Z.ltb;
  id_default := 0%Z;
|}.
Next Obligation. intros. apply Z.ltb_irrefl. Qed.
Next Obligation. intros. rewrite !Z.ltb_lt in *. lia. Qed.
Next Obligation. intros. rewrite !Z.ltb_ge in *. lia. Qed.

(** ** Lists *)

Section Lists.
Context {A : Type}.

(** [std::max_element] with the comparison [lt]: the first of the elements
    no other one is greater than. *)
Definition max_element (lt : A -> A -> bool) (l : list A) : option A :=
  match l with
  | [] => None
  | x :: l' => Some (fold_left (fun m y => if lt m y then y else m) l' x)
  end.

Lemma fold_max_in (lt : A -> A -> bool) l x :
  fold_left (fun m y => if lt m y then y else m) l x ∈ x :: l.
Proof.
  revert x. induction l as [|y l IH]; intros x; simpl.
  - set_solver.
  - specialize (IH (if lt x y then y else x)). destruct (lt x y); set_solver.
Qed.

Lemma max_element_in (lt : A -> A -> bool) l m :
  max_element lt l = Some m -> m ∈ l.
Proof.
  destruct l; simpl; intros; simplify_eq. apply fold_max_in.
Qed.

Lemma max_element_None (lt : A -> A -> bool) l :
  max_element lt l = None -> l = [].
Proof. by destruct l. Qed.

(** For a strict weak order, nothing is above the maximum. *)
Lemma fold_max_ub (lt : A -> A -> bool) l x :
  (forall a, lt a a = false) ->
  (forall a b c, lt a b = false -> lt b c = false -> lt a c = false) ->
  (forall a b, lt a b = true -> lt b a = false) ->
  forall y, y ∈ x :: l ->
  lt (fold_left (fun m y => if lt m y then y else m) l x) y = false.
Proof.
  intros Hirr Htr Has. revert x.
  induction l as [|z l IH]; intros x y Hy; simpl.
  { assert (y = x) as -> by set_solver. apply Hirr. }
  set (m := if lt x z then z else x).
  assert (lt m x = false /\ lt m z = false) as [Hx Hz].
  { unfold m. destruct (lt x z) eqn:E; auto. }
  pose proof (IH m m ltac:(set_solver)) as Hm.
  rewrite !elem_of_cons in Hy. destruct Hy as [->|[->|Hy]]; eauto.
  apply IH. set_solver.
Qed.
End Lists.

(** A list without an element, and a function that is changed at a point. *)
Definition without {A} `{EqDecision A} (a : A) (l : list A) : list A := filter (fun b => b <> a) l.

Section Without.
Context {A : Type} `{EqDecision A}.
Implicit Types (a b : A) (l : list A).

Lemma elem_of_without a b l : b ∈ without a l <-> b <> a /\ b ∈ l.
Proof. unfold without. by rewrite list_elem_of_filter. Qed.
Lemma NoDup_without a l : NoDup l -> NoDup (without a l).
Proof. apply NoDup_filter. Qed.
Lemma without_app a l l' : without a (l ++ l') = without a l ++ without a l'.
Proof. apply filter_app. Qed.
Lemma without_not_in a l : a ∉ l -> without a l = l.
Proof.
  intros N. unfold without. induction l as [|b l IH]; [done|].
  apply not_elem_of_cons in N as [N1 N2]. rewrite filter_cons_True by congruence.
  by rewrite IH.
Qed.
End Without.

Lemma fn_insert_eq {A} `{EqDecision A} {T} (f : A -> T) (a b : A) (x : T) :
  <[a := x]> f b = if decide (a = b) then x else f b.
Proof. done. Qed.
