(* ===== verification/Versions.v ===== *)
(** [elle::Version] (elle/src/elle/Version.cc, Version.hh): the (major, minor,
    subminor) triples of 8-bit numbers that select wire formats and protocol
    behaviours, their order, their text form and its parser. *)

From stdpp Require Import base tactics option list sets strings.
From Stdlib Require Import ZArith Lia Ascii String.
From S2P Require Import Prelude.
Open Scope Z_scope.

Module Version.

Record t := mkVersion { major : Z; minor : Z; subminor : Z }.

(** The constructor takes [uint8_t]s: a wider argument is truncated. *)
Definition make (ma mi su : Z) : t :=
  mkVersion (wrap_u 8 ma) (wrap_u 8 mi) (wrap_u 8 su).

Definition eqb (a b : t) : bool :=
  (major a =? major b) && (minor a =? minor b) && (subminor a =? subminor b).

(** [std::tie] compares lexicographically. *)
Definition ltb (a b : t) : bool :=
  (major a <? major b) ||
  ((major a =? major b) &&
   ((minor a <? minor b) ||
    ((minor a =? minor b) && (subminor a <? subminor b)))).

Definition gtb (a b : t) : bool := negb (eqb a b || ltb a b).
(** [ELLE_OPERATOR_LTE] and [ELLE_OPERATOR_GTE]. *)
Definition leb (a b : t) : bool := negb (ltb b a).
Definition geb (a b : t) : bool := negb (ltb a b).

Definition wf (v : t) : Prop :=
  is_byte (major v) /\ is_byte (minor v) /\ is_byte (subminor v).

#[export] Instance eq_dec : EqDecision t.
Proof. solve_decision. Defined.

(** *** Order *)

Lemma version_eqb_eq a b : eqb a b = true <-> a = b.
Proof.
  unfold eqb. destruct a, b; simpl.
  rewrite !andb_true_iff, !Z.eqb_eq. split; [intros [[-> ->] ->]; done|].
  intros [= -> -> ->]. done.
Qed.

Ltac solve_cmp := unfold geb, leb, gtb, ltb, eqb in *; simpl in *; lia.

Lemma ltb_irrefl a : ltb a a = false.
Proof. solve_cmp. Qed.

Lemma ltb_trans a b c : ltb a b = true -> ltb b c = true -> ltb a c = true.
Proof. solve_cmp. Qed.

Lemma gtb_ltb a b : gtb a b = ltb b a.
Proof. solve_cmp. Qed.

Lemma leb_ltb_eqb a b : leb a b = ltb a b || eqb a b.
Proof. solve_cmp. Qed.

Lemma geb_trans a b c : geb a b = true -> geb b c = true -> geb a c = true.
Proof. solve_cmp. Qed.

(** *** Text form *)

Definition digit (n : Z) : ascii := ascii_of_nat (48 + Z.to_nat n).

(** The decimal digits of an 8-bit number, as [operator <<] prints it. *)
Definition print_u8 (n : Z) : string :=
  if n <? 10 then String (digit n) EmptyString
  else if n <? 100 then
    String (digit (n / 10)) (String (digit (n mod 10)) EmptyString)
  else
    String (digit (n / 100))
      (String (digit (n / 10 mod 10)) (String (digit (n mod 10)) EmptyString)).

Definition to_string (v : t) : string :=
  (print_u8 (major v) ++ "." ++ print_u8 (minor v) ++ "." ++
   print_u8 (subminor v))%string.

(** [boost::split(strs, repr, is_any_of("."))]: the (possibly empty) words
    between the dots. *)
Fixpoint split_dots (s : string) : list string :=
  match s with
  | EmptyString => [EmptyString]
  | String c s' =>
      if Ascii.eqb c "." then EmptyString :: split_dots s'
      else
        match split_dots s' with
        | w :: ws => String c w :: ws
        | [] => [String c EmptyString]
        end
  end.

Inductive error := format_error | out_of_range.

Definition is_digit (c : ascii) : bool :=
  (48 <=? nat_of_ascii c)%nat && (nat_of_ascii c <=? 57)%nat.
Definition is_space (c : ascii) : bool :=
  (nat_of_ascii c =? 32)%nat ||
  ((9 <=? nat_of_ascii c)%nat && (nat_of_ascii c <=? 13)%nat).
Definition digit_value (c : ascii) : Z := Z.of_nat (nat_of_ascii c) - 48.

(** The digits at the start of a word, and whether there is one. *)
Fixpoint leading_digits (s : string) (acc : Z) (any : bool) : option Z :=
  match s with
  | String c s' =>
      if is_digit c then leading_digits s' (acc * 10 + digit_value c) true
      else if any then Some acc else None
  | EmptyString => if any then Some acc else None
  end.

Fixpoint skip_spaces (s : string) : string :=
  match s with
  | String c s' => if is_space c then skip_spaces s' else s
  | EmptyString => EmptyString
  end.

(** [std::stoi]: blanks, a sign, digits; what follows them is ignored, no
    digit is [std::invalid_argument] and a value that is not an [int] is
    [std::out_of_range]. *)
Definition stoi (s : string) : result error Z :=
  let '(neg, s') :=
    match skip_spaces s with
    | String c r =>
        if Ascii.eqb c "-" then (true, r)
        else if Ascii.eqb c "+" then (false, r) else (false, String c r)
    | EmptyString => (false, EmptyString)
    end in
  match leading_digits s' 0 false with
  | None => Throw format_error
  | Some n =>
      let v := if neg : bool then - n else n in
      if (v <? - 2 ^ 31) || (2 ^ 31 <=? v) then Throw out_of_range else Ok v
  end.

(** [Version::from_string]. The handler catches [std::invalid_argument] only:
    [std::out_of_range] escapes; the numbers are truncated to 8 bits. *)
Definition from_string (repr : string) : result error t :=
  match repr with
  | EmptyString => Throw format_error
  | _ =>
      let strs := split_dots repr in
      let major := default "0"%string (strs !! 0%nat) in
      let minor := default "0"%string (strs !! 1%nat) in
      let subminor := default "0"%string (strs !! 2%nat) in
      ma ← stoi major; mi ← stoi minor; su ← stoi subminor;
      Ok (make ma mi su)
  end.

(** The [std::hash] of a version packs the three bytes. *)
Definition hash (v : t) : Z :=
  Z.lor (Z.lor (Z.shiftl (major v) 16) (Z.shiftl (minor v) 8)) (subminor v).

(** *** Printing and parsing *)

Lemma split_dots_no_dot w rest :
  (forall c, c ∈ list_ascii_of_string w -> c <> "."%char) ->
  split_dots (w ++ "." ++ rest) = w :: split_dots rest.
Proof.
  induction w as [|c w IH]; intros Hw; [done|].
  change ((String c w ++ "." ++ rest)%string) with (String c (w ++ "." ++ rest)).
  simpl. assert (Ascii.eqb c "." = false) as ->.
  { apply Ascii.eqb_neq, Hw. simpl. set_solver. }
  rewrite IH; [done|]. intros d Hd. apply Hw. simpl. set_solver.
Qed.

Lemma split_dots_last w :
  (forall c, c ∈ list_ascii_of_string w -> c <> "."%char) ->
  split_dots w = [w].
Proof.
  induction w as [|c w IH]; intros Hw; [done|].
  simpl. assert (Ascii.eqb c "." = false) as ->.
  { apply Ascii.eqb_neq, Hw. simpl. set_solver. }
  rewrite IH; [done|]. intros d Hd. apply Hw. simpl. set_solver.
Qed.

(** Facts on the 256 printed forms, by computation. *)
Definition bytes : list Z := map Z.of_nat (seq 0 256).

Lemma bytes_spec n : is_byte n -> n ∈ bytes.
Proof.
  intros Hn. unfold bytes, is_byte in *. apply list_elem_of_In, in_map_iff.
  exists (Z.to_nat n). split; [lia|]. apply in_seq. lia.
Qed.

Lemma print_u8_facts n :
  is_byte n ->
  stoi (print_u8 n) = Ok n /\
  forallb (fun c => negb (Ascii.eqb c ".")) (list_ascii_of_string (print_u8 n))
  = true.
Proof.
  intros Hn. apply bytes_spec in Hn.
  assert (forallb (fun n =>
    match stoi (print_u8 n) with Ok m => m =? n | Throw _ => false end &&
    forallb (fun c => negb (Ascii.eqb c "."))
      (list_ascii_of_string (print_u8 n))) bytes = true) as H
    by (vm_compute; reflexivity).
  rewrite forallb_forall in H. apply list_elem_of_In, H in Hn.
  apply andb_true_iff in Hn as [H1 H2]. split; [|done].
  destruct (stoi (print_u8 n)); [|done]. f_equal. lia.
Qed.

Lemma print_u8_no_dot n c :
  is_byte n -> c ∈ list_ascii_of_string (print_u8 n) -> c <> "."%char.
Proof.
  intros Hn Hc ->. destruct (print_u8_facts n Hn) as [_ Hf].
  rewrite forallb_forall in Hf. apply list_elem_of_In, Hf in Hc. done.
Qed.

Lemma print_u8_app_nonempty n s :
  is_byte n -> exists c r, (print_u8 n ++ s)%string = String c r.
Proof. unfold print_u8. intros _. repeat case_match; simpl; eauto. Qed.

Lemma from_string_split repr :
  repr <> EmptyString ->
  from_string repr =
    (ma ← stoi (default "0"%string (split_dots repr !! 0%nat));
     mi ← stoi (default "0"%string (split_dots repr !! 1%nat));
     su ← stoi (default "0"%string (split_dots repr !! 2%nat));
     Ok (make ma mi su)).
Proof. by destruct repr. Qed.

Lemma make_id v : wf v -> make (major v) (minor v) (subminor v) = v.
Proof.
  destruct v as [a b c]. intros (Ha & Hb & Hc). unfold make, is_byte in *.
  simpl in *. by rewrite !wrap_u_id by lia.
Qed.

(** A printed version reads back as itself. *)
Theorem from_string_to_string v :
  wf v -> from_string (to_string v) = Ok v.
Proof.
  intros Hv. pose proof Hv as (Ha & Hb & Hc).
  destruct v as [a b c]; simpl in *.
  pose proof (print_u8_facts a Ha) as [Sa _].
  pose proof (print_u8_facts b Hb) as [Sb _].
  pose proof (print_u8_facts c Hc) as [Sc _].
  rewrite from_string_split.
  - unfold to_string; cbn [major minor subminor].
    rewrite split_dots_no_dot by eauto using print_u8_no_dot.
    rewrite split_dots_no_dot by eauto using print_u8_no_dot.
    rewrite split_dots_last by eauto using print_u8_no_dot. simpl.
    rewrite Sa, Sb, Sc. simpl. f_equal. by apply (make_id (mkVersion a b c)).
  - unfold to_string; simpl.
    destruct (print_u8_app_nonempty a ("." ++ print_u8 b ++ "." ++ print_u8 c)
                Ha) as (x & r & ->). done.
Qed.

Lemma from_string_to_string_witness :
  wf (mkVersion 0 9 255) /\
  from_string (to_string (mkVersion 0 9 255)) = Ok (mkVersion 0 9 255).
Proof.
  assert (wf (mkVersion 0 9 255)) as H
    by (repeat split; simpl; lia).
  split; [exact H | exact (from_string_to_string _ H)].
Defined.

(** Short forms default the missing numbers; trailing garbage is ignored; an
    8-bit overflow wraps; a number that is not an [int] is not caught. *)
Example from_string_short :
  from_string "1.2" = Ok (mkVersion 1 2 0) /\
  from_string "7" = Ok (mkVersion 7 0 0) /\
  from_string "1.2.3-dev" = Ok (mkVersion 1 2 3) /\
  from_string "300.0.0" = Ok (mkVersion 44 0 0) /\
  from_string "99999999999" = Throw out_of_range /\
  from_string "a.b" = Throw format_error /\
  from_string "" = Throw format_error.
Proof. repeat split; vm_compute; reflexivity. Qed.

End Version.
