(* ===== verification/Buffers.v ===== *)
(** Byte buffers: elle/src/elle/Buffer.cc and elle/src/elle/format/hexadecimal.cc.

    A [Buffer.t] is the block of memory the C++ object owns, cell by cell (a
    cell nobody wrote yet holds no value), and the number of bytes in use.
    [malloc] and [realloc] are taken to succeed. Views ([WeakBuffer],
    [ConstWeakBuffer]) are read as the list of bytes they cover. Bytes and
    characters are integers in [0, 256). *)

From stdpp Require Import base tactics option list numbers.
From Stdlib Require Import ZArith Lia.
From S2P Require Import Prelude.

Abbreviation bytes := (list Z).

(** What the assertions and exceptions of these files come to. *)
Inductive buffer_error :=
  | BufferAssert
  | InvalidHexadecimal
  | BufferFull
  | WrongMode.

(** [memcmp], negative when the first bytes come first. *)
Fixpoint memcmp (a b : bytes) : Z :=
  match a, b with
  | x :: a', y :: b' => if Z.eqb x y then memcmp a' b' else (x - y)%Z
  | _, _ => 0%Z
  end.

Lemma memcmp_refl a : memcmp a a = 0%Z.
Proof. induction a as [|x a IH]; simpl; [done|]. by rewrite Z.eqb_refl. Qed.

Lemma memcmp_eq a b : length a = length b -> memcmp a b = 0%Z -> a = b.
Proof.
  revert b. induction a as [|x a IH]; intros [|y b]; simpl; try done.
  intros [= L]. destruct (Z.eqb_spec x y) as [->|N]; [|lia].
  intros E. f_equal. by apply IH.
Qed.

Lemma memcmp_antisym a b : memcmp b a = (- memcmp a b)%Z.
Proof.
  revert b. induction a as [|x a IH]; intros [|y b]; simpl; try done.
  rewrite Z.eqb_sym. destruct (Z.eqb_spec x y); [apply IH|lia].
Qed.

Lemma memcmp_trans a b c :
  length a = length b -> length b = length c ->
  (memcmp a b < 0)%Z -> (memcmp b c < 0)%Z -> (memcmp a c < 0)%Z.
Proof.
  revert b c. induction a as [|x a IH]; intros [|y b] [|z c]; simpl; try lia.
  intros [= L1] [= L2].
  destruct (Z.eqb_spec x y), (Z.eqb_spec y z), (Z.eqb_spec x z); try lia.
  eauto.
Qed.

Module Buffer.

(** [cells] is [None] when the object owns no memory: after [release], or once
    moved from. *)
Record t := mkBuffer {
  cells : option (list (option Z));
  size : nat;
}.

Definition capacity_of (b : t) : nat :=
  match cells b with Some c => length c | None => 0 end.

(** [elle_buffer_initial_size]: the size of a pointer. *)
Definition initial_size : nat := 8.

Definition malloc (n : nat) : list (option Z) := replicate n None.
Definition realloc (c : option (list (option Z))) (n : nat) :
    list (option Z) :=
  take n (default [] c) ++ malloc (n - length (default [] c)).

(** [memmove] of [data] at offset [at] of the block. *)
Definition memmove (c : list (option Z)) (off : nat) (data : list (option Z)) :
    list (option Z) :=
  take off c ++ data ++ drop (off + length data) c.

Definition empty_buffer : t := mkBuffer (Some (malloc initial_size)) 0.

(** [Buffer::capacity]. *)
Definition set_capacity (n : nat) (b : t) : t :=
  let c := Nat.max n initial_size in
  mkBuffer (Some (realloc (cells b) c)) (Nat.min (size b) c).

(** [Buffer::_next_size]. *)
Definition next_size (n : nat) : nat :=
  if n <? 32 then 32 else if n <? 4096 then n * 2 else n + n / 2.

(** [Buffer::size], the setter. *)
Definition resize (n : nat) (b : t) : t :=
  let b := if capacity_of b <? n then set_capacity (next_size n) b else b in
  mkBuffer (cells b) n.

Definition append (data : bytes) (b : t) : t :=
  let old_size := size b in
  let b := resize (size b + length data) b in
  mkBuffer ((fun c => memmove c old_size (Some <$> data)) <$> cells b) (size b).

(** [Buffer::Buffer(void const*, Size)]. *)
Definition of_data (data : bytes) : t :=
  match data with
  | [] => empty_buffer
  | _ => append data (mkBuffer None 0)
  end.

(** The copy constructor: the new block is as large as the contents. *)
Definition copy (b : t) : t :=
  mkBuffer (Some (take (size b) (default [] (cells b)))) (size b).

(** Move assignment: what the target and the source become. *)
Definition move (b : t) : t * t := (b, mkBuffer None 0).

Definition pop_front (n : nat) (b : t) : result buffer_error t :=
  if n <=? size b then
    let moved := take (size b - n) (drop n (default [] (cells b))) in
    Ok (mkBuffer ((fun c => memmove c 0 moved) <$> cells b) (size b - n))
  else Throw BufferAssert.

Definition reset (b : t) : t := resize 0 b.

(** [Buffer::release]: the block and size handed over, and what is left. *)
Definition release (b : t) : (option (list (option Z)) * nat) * t :=
  ((cells b, size b), mkBuffer None 0).

Definition shrink_to_fit (b : t) : t :=
  let c := Nat.max initial_size (size b) in
  if c <? capacity_of b then mkBuffer (Some (realloc (cells b) c)) (size b)
  else b.

(** [Buffer::operator []]: the outer option is the cell's own value. *)
Definition at_index (i : nat) (b : t) : result buffer_error (option Z) :=
  if i <? size b then Ok (mjoin (default [] (cells b) !! i))
  else Throw BufferAssert.

Definition is_empty (b : t) : bool := size b =? 0.

(** The bytes in use, when all were written: what a view on the buffer reads. *)
Definition contents (b : t) : option bytes :=
  mapM id (take (size b) (default [] (cells b))).

(** *** The buffer as a list of bytes *)

Definition wf (b : t) : Prop := size b <= capacity_of b.

(** [b] holds [l]. *)
Definition holds (b : t) (l : bytes) : Prop :=
  size b = length l /\ take (size b) (default [] (cells b)) = Some <$> l.

Lemma holds_wf b l : holds b l -> wf b.
Proof.
  intros [E T]. unfold wf, capacity_of.
  assert (length (take (size b) (default [] (cells b))) = size b) as L
    by (by rewrite T, length_fmap, E).
  rewrite length_take in L. destruct (cells b); simpl in *; lia.
Qed.

Lemma holds_contents b l : holds b l -> contents b = Some l.
Proof.
  intros [_ T]. unfold contents. rewrite T. clear.
  apply mapM_Some. induction l; simpl; constructor; done.
Qed.

Lemma holds_inj b l l' : holds b l -> holds b l' -> l = l'.
Proof.
  intros [_ T] [_ T']. rewrite T in T'. by apply (inj (fmap Some)) in T'.
Qed.

Lemma empty_holds : holds empty_buffer [].
Proof. done. Qed.

Lemma length_realloc c n : length (realloc c n) = n.
Proof.
  unfold realloc, malloc. rewrite length_app, length_take, length_replicate.
  lia.
Qed.

Lemma take_realloc c n m :
  m <= n -> m <= length (default [] c) ->
  take m (realloc c n) = take m (default [] c).
Proof.
  intros L1 L2. unfold realloc.
  rewrite take_app_le by (rewrite length_take; lia).
  rewrite take_take. f_equal. lia.
Qed.

Lemma take_holds b l n :
  holds b l -> n <= size b ->
  take n (default [] (cells b)) = Some <$> take n l.
Proof.
  intros [_ T] L. rewrite fmap_take, <- T, take_take. f_equal. lia.
Qed.

(** Changing the capacity keeps what still fits. *)
Lemma set_capacity_holds n b l :
  holds b l -> holds (set_capacity n b) (take (Nat.max n initial_size) l).
Proof.
  intros Hb. pose proof (holds_wf _ _ Hb) as W. pose proof Hb as [E T].
  unfold holds, set_capacity. cbn [cells size from_option id].
  set (c := Nat.max n initial_size). rewrite length_take.
  split; [unfold c; lia|]. unfold wf, capacity_of in W.
  rewrite take_realloc; [|lia|destruct (cells b); simpl in *; lia].
  rewrite (take_holds _ _ _ Hb) by lia. f_equal. rewrite E.
  destruct (decide (length l <= c)).
  - rewrite Nat.min_l, !take_ge by lia. done.
  - by rewrite Nat.min_r by lia.
Qed.

Lemma capacity_set n b : capacity_of (set_capacity n b) = Nat.max n initial_size.
Proof. unfold capacity_of, set_capacity. simpl. apply length_realloc. Qed.

Lemma next_size_ge n : n <= next_size n.
Proof.
  unfold next_size. destruct (Nat.ltb_spec n 32), (Nat.ltb_spec n 4096); lia.
Qed.

(** Growing the size keeps the contents and finds room for the rest. *)
Lemma resize_grow n b l :
  holds b l -> size b <= n ->
  let b' := resize n b in
  size b' = n /\ n <= capacity_of b' /\
  take (length l) (default [] (cells b')) = Some <$> l.
Proof.
  intros Hb L. unfold resize. pose proof Hb as [E T].
  destruct (Nat.ltb_spec (capacity_of b) n) as [Lc|Lc]; simpl.
  - split; [done|]. split.
    + change (n <= capacity_of (set_capacity (next_size n) b)).
      rewrite capacity_set. pose proof (next_size_ge n). lia.
    + pose proof (set_capacity_holds (next_size n) _ _ Hb) as [E' T'].
      pose proof (next_size_ge n).
      rewrite take_ge in E', T' by lia. by rewrite E' in T'.
  - split; [done|]. split; [done|]. by rewrite <- E.
Qed.

Lemma length_cells (b : t) : length (default [] (cells b)) = capacity_of b.
Proof. unfold capacity_of. by destruct (cells b). Qed.

Lemma append_holds data b l :
  holds b l -> holds (append data b) (l ++ data).
Proof.
  intros Hb. pose proof Hb as [E _].
  destruct (resize_grow (size b + length data) b l Hb ltac:(lia))
    as (E' & C & T). unfold append.
  destruct (cells (resize (size b + length data) b)) as [c|] eqn:Ec.
  - unfold holds. cbn [cells size fmap option_fmap option_map from_option id].
    rewrite E', length_app. split; [lia|]. unfold memmove.
    cbn [from_option id] in T.
    rewrite E, app_assoc, T, <- fmap_app, take_app_length'; [done|].
    rewrite length_fmap, length_app. lia.
  - unfold capacity_of in C. rewrite Ec in C.
    assert (size b = 0 /\ length data = 0) as [Hz Hd] by lia.
    apply nil_length_inv in Hd as ->. rewrite Hz in E. symmetry in E.
    apply nil_length_inv in E as ->. unfold holds. cbn [cells size].
    split; [simpl in *; lia|]. cbn. by rewrite ?Ec, take_nil.
Qed.

Lemma of_data_holds data : holds (of_data data) data.
Proof.
  destruct data as [|x data]; [apply empty_holds|].
  by apply (append_holds (x :: data) (mkBuffer None 0) []).
Qed.

Lemma copy_holds b l : holds b l -> holds (copy b) l.
Proof.
  intros [E T]. split; [done|]. simpl. rewrite take_take, Nat.min_id. done.
Qed.

Lemma pop_front_holds n b l :
  holds b l -> n <= length l ->
  exists b', pop_front n b = Ok b' /\ holds b' (drop n l).
Proof.
  intros Hb L. pose proof (holds_wf _ _ Hb) as W. pose proof Hb as [E T].
  unfold pop_front. destruct (Nat.leb_spec n (size b)); [|lia].
  eexists. split; [done|].
  assert (take (size b - n) (drop n (default [] (cells b))) =
          Some <$> drop n l) as M.
  { rewrite fmap_drop, <- T, <- skipn_firstn_comm. f_equal. }
  split; cbn [cells size]; [rewrite length_drop; lia|]. rewrite M.
  destruct (cells b) as [c|]; cbn [fmap option_fmap option_map from_option id].
  - unfold memmove. rewrite take_0, app_nil_l. rewrite take_app_length'; [done|].
    rewrite length_fmap, length_drop. lia.
  - simpl in M. rewrite drop_nil, take_nil in M. by rewrite <- M, take_nil.
Qed.

Lemma shrink_holds b l : holds b l -> holds (shrink_to_fit b) l.
Proof.
  intros Hb. pose proof (holds_wf _ _ Hb) as W. pose proof Hb as [E T].
  unfold shrink_to_fit. case_match; [|done]. split; cbn [cells size from_option id];
    [done|]. rewrite take_realloc; [done|lia|].
  rewrite length_cells. apply W.
Qed.

(** *** Any sequence of operations *)

Inductive op :=
  | Append (data : bytes)
  | PopFront (n : nat)
  | SetCapacity (n : nat)
  | Reset
  | ShrinkToFit
  | Copy.

(** What they do to the block ... *)
Definition run (o : op) (b : t) : result buffer_error t :=
  match o with
  | Append d => Ok (append d b)
  | PopFront n => pop_front n b
  | SetCapacity n => Ok (set_capacity n b)
  | Reset => Ok (reset b)
  | ShrinkToFit => Ok (shrink_to_fit b)
  | Copy => Ok (copy b)
  end.

(** ... and to the bytes. *)
Definition run_spec (o : op) (l : bytes) : result buffer_error bytes :=
  match o with
  | Append d => Ok (l ++ d)
  | PopFront n => if n <=? length l then Ok (drop n l) else Throw BufferAssert
  | SetCapacity n => Ok (take (Nat.max n initial_size) l)
  | Reset => Ok []
  | ShrinkToFit | Copy => Ok l
  end.

Fixpoint run_all (os : list op) (b : t) : result buffer_error t :=
  match os with
  | [] => Ok b
  | o :: os => b ← run o b; run_all os b
  end.

Fixpoint run_all_spec (os : list op) (l : bytes) : result buffer_error bytes :=
  match os with
  | [] => Ok l
  | o :: os => l ← run_spec o l; run_all_spec os l
  end.

Lemma run_refines o b l :
  holds b l ->
  match run_spec o l with
  | Ok l' => exists b', run o b = Ok b' /\ holds b' l'
  | Throw e => run o b = Throw e
  end.
Proof.
  intros Hb. pose proof Hb as [E _]. destruct o; cbn [run run_spec].
  - eauto using append_holds.
  - destruct (Nat.leb_spec n (length l)).
    + by apply pop_front_holds.
    + unfold pop_front. by destruct (Nat.leb_spec n (size b)); [lia|].
  - eexists. split; [done|]. by apply set_capacity_holds.
  - eexists. split; [done|]. done.
  - eauto using shrink_holds.
  - eauto using copy_holds.
Qed.

(** C40. A buffer behaves as the list of its bytes: through any sequence of appends,
    removals, reallocations and copies it holds the bytes it should, all of
    them written and within the memory it owns, and it refuses the same
    removals. *)
Theorem buffer_refines_bytes os b l :
  holds b l ->
  match run_all_spec os l with
  | Ok l' => exists b', run_all os b = Ok b' /\ holds b' l' /\ wf b' /\
      contents b' = Some l'
  | Throw e => run_all os b = Throw e
  end.
Proof.
  revert b l. induction os as [|o os IH]; intros b l Hb; simpl.
  - eauto 10 using holds_wf, holds_contents.
  - pose proof (run_refines o b l Hb) as R.
    destruct (run_spec o l) as [l'|e]; simpl.
    + destruct R as (b' & -> & Hb'). by apply IH.
    + by rewrite R.
Qed.

Lemma buffer_refines_bytes_witness :
  let os := [Append [1; 2; 3]%Z; SetCapacity 2; PopFront 1; Append [9]%Z] in
  holds empty_buffer [] /\
  exists b', run_all os empty_buffer = Ok b' /\
    holds b' [2; 3; 9]%Z /\ wf b' /\ contents b' = Some [2; 3; 9]%Z.
Proof.
  intros os. split; [apply empty_holds|].
  exact (buffer_refines_bytes os empty_buffer [] empty_holds).
Defined.

End Buffer.
