(* ===== verification/Streams.v ===== *)
(** Views on bytes, their printing, and the stream buffers built on them:
    elle/src/elle/Buffer.cc (WeakBuffer, ConstWeakBuffer, the two stream
    buffers), elle/src/elle/format/hexadecimal.cc and the [StreamBuffer] of
    elle/src/elle/IOStream.cc.

    [Sink] is what the virtual methods [write_buffer] and [flush] of a
    StreamBuffer promise; the loop of the stream is proved correct against it
    once, and instantiated with the growing buffer, the fixed one, and the
    base64 encoder of Base64.v. *)

From stdpp Require Import base tactics option list numbers.
From Stdlib Require Import ZArith Lia.
From S2P Require Import Prelude Buffers.
Open Scope Z_scope.

(** *** Hexadecimal *)

Module Hexadecimal.

(** The digits of "0123456789abcdef". *)
Definition char_of (d : Z) : Z := if d <? 10 then 48 + d else 87 + d.

Definition encode_byte (c : Z) : bytes :=
  [char_of (Z.land (Z.shiftr c 4) 15); char_of (Z.land c 15)].

Definition encode (b : bytes) : bytes := mjoin (encode_byte <$> b).

(** [ELLE_FORMAT_HEXADECIMAL_TO_VALUE]. *)
Definition to_value (c : Z) : Z :=
  if (48 <=? c) && (c <=? 57) then c - 48
  else if (97 <=? c) && (c <=? 102) then c - 97 + 10
  else -1.

(** The loop of [decode]: pairs of characters. *)
Fixpoint decode_pairs (s : bytes) : result buffer_error bytes :=
  match s with
  | c1 :: c2 :: s' =>
      let v1 := to_value c1 in
      let v2 := to_value c2 in
      if (v1 =? -1) || (v2 =? -1) then Throw InvalidHexadecimal
      else
        r ← decode_pairs s';
        Ok (Z.land (Z.shiftl v1 4) 240 + Z.land v2 15 :: r)
  | _ => Ok []
  end.

Definition decode (s : bytes) : result buffer_error bytes :=
  if Nat.even (length s) then decode_pairs s else Throw BufferAssert.

(** All bytes, to prove facts of one byte by computation. *)
Definition all_bytes : bytes := Z.of_nat <$> seq 0 256.

Lemma all_bytes_spec c : is_byte c -> c ∈ all_bytes.
Proof.
  intros [L U]. apply list_elem_of_fmap. exists (Z.to_nat c).
  rewrite elem_of_seq. lia.
Qed.

Definition byte_round_trips (c : Z) : bool :=
  let v1 := to_value (char_of (Z.land (Z.shiftr c 4) 15)) in
  let v2 := to_value (char_of (Z.land c 15)) in
  negb (v1 =? -1) && negb (v2 =? -1) &&
  (Z.land (Z.shiftl v1 4) 240 + Z.land v2 15 =? c).

Lemma all_round_trip : forallb byte_round_trips all_bytes = true.
Proof. by vm_compute. Qed.

Lemma byte_round_trip c : is_byte c -> byte_round_trips c = true.
Proof.
  intros B. pose proof all_round_trip as A. rewrite forallb_forall in A.
  by apply A, list_elem_of_In, all_bytes_spec.
Qed.

Lemma length_encode b : length (encode b) = (2 * length b)%nat.
Proof.
  induction b as [|c b IH]; [done|].
  change (encode (c :: b)) with (encode_byte c ++ encode b).
  rewrite length_app, IH. simpl. lia.
Qed.

Lemma decode_pairs_encode b :
  Forall is_byte b -> decode_pairs (encode b) = Ok b.
Proof.
  induction 1 as [|c b B _ IH]; [done|].
  pose proof (byte_round_trip c B) as R. unfold byte_round_trips in R.
  to_prop. change (encode (c :: b)) with (encode_byte c ++ encode b).
  cbn [encode_byte app decode_pairs]. rewrite IH.
  rewrite (proj2 (Z.eqb_neq _ _)) by done. rewrite (proj2 (Z.eqb_neq _ _)) by done.
  simpl. unfold mbind, result_bind. by f_equal; f_equal.
Qed.

(** Decoding what was encoded gives the bytes back. *)
Theorem hexadecimal_round_trip b :
  Forall is_byte b -> decode (encode b) = Ok b.
Proof.
  intros B. unfold decode. rewrite length_encode, Nat.even_mul. simpl.
  by apply decode_pairs_encode.
Qed.

Lemma hexadecimal_round_trip_witness :
  Forall is_byte [0; 171; 255] /\
  decode (encode [0; 171; 255]) = Ok [0; 171; 255].
Proof.
  assert (Forall is_byte [0; 171; 255]) as B
    by (repeat constructor; unfold is_byte; lia).
  split; [exact B|]. exact (hexadecimal_round_trip _ B).
Defined.

(** The encoding reads the same as the bytes: equal texts, equal bytes. *)
Lemma encode_inj a b :
  Forall is_byte a -> Forall is_byte b -> encode a = encode b -> a = b.
Proof.
  intros A B E. pose proof (decode_pairs_encode _ A) as Da.
  rewrite E, decode_pairs_encode in Da by done. by injection Da.
Qed.
End Hexadecimal.

(** *** Views *)

Module View.

(** [ConstWeakBuffer::operator ==] and [operator <]: shorter first. *)
Definition eqb (a b : bytes) : bool :=
  Nat.eqb (length a) (length b) && (memcmp a b =? 0).
Definition ltb (a b : bytes) : bool :=
  if Nat.eqb (length a) (length b) then memcmp a b <? 0
  else Nat.ltb (length a) (length b).

(** [_range]: what is left of the view, or what lies out of it: the assertions
    leave a negative offset through, which then reads before the view. *)
Inductive range_outcome :=
  | InView (b : bytes)
  | BeforeView (offset size : Z)
  | AssertFails.

Definition range (b : bytes) (start fin : Z) : range_outcome :=
  let n := Z.of_nat (length b) in
  let start := if start <? 0 then n + start else start in
  let fin := if fin <? 0 then n + fin else fin in
  if fin <? start then AssertFails
  else if n <? fin then AssertFails
  else if start <? 0 then BeforeView start (fin - start)
  else InView (take (Z.to_nat (fin - start)) (drop (Z.to_nat start) b)).

Definition range_from (b : bytes) (start : Z) : range_outcome :=
  range b start (Z.of_nat (length b)).

(** [operator <<]: the flags of the stream are parameters. [isprint] is the one
    of the C locale; the quotient is taken in single precision, where 9/10 is
    below the constant 0.9. *)
Definition printable (c : Z) : bool := ((32 <=? c) && (c <? 127)) || (c =? 10).

Definition put (b : bytes) (hex : bool) : bytes :=
  if hex then [48; 120] ++ Hexadecimal.encode b else b.

Definition prints_hex (hex : bool) (b : bytes) : bool :=
  hex || match b with [] => true | _ => false end ||
  (10 * Z.of_nat (length (filter (fun c => printable c = true) b))
     <=? 9 * Z.of_nat (length b)).

Definition in_view (r : range_outcome) : bytes :=
  match r with InView b => b | _ => [] end.

Definition print (hexflag fixed : bool) (b : bytes) : bytes :=
  let max_length := 20 in
  let hex := prints_hex hexflag b in
  if fixed && (max_length <? Z.of_nat (length b)) then
    put (in_view (range b 0 (max_length / 2))) hex ++ [46; 46; 46] ++
    put (in_view (range_from b (- max_length / 2))) hex
  else put b hex.

Lemma view_eqb_eq a b : eqb a b = true <-> a = b.
Proof.
  unfold eqb. rewrite andb_true_iff, Nat.eqb_eq, Z.eqb_eq. split.
  - intros [L E]. by apply memcmp_eq.
  - intros ->. by rewrite memcmp_refl.
Qed.

(** The order on views is a strict total order, for which [==] is equality. *)
Theorem view_order a b c :
  ltb a a = false /\
  (ltb a b = true -> ltb b c = true -> ltb a c = true) /\
  (ltb a b = false -> ltb b a = false -> eqb a b = true).
Proof.
  unfold ltb, eqb. split_and!.
  - rewrite Nat.eqb_refl, memcmp_refl. done.
  - destruct (Nat.eqb_spec (length a) (length b)) as [L1|L1],
      (Nat.eqb_spec (length b) (length c)) as [L2|L2],
      (Nat.eqb_spec (length a) (length c)) as [L3|L3]; try lia;
      rewrite ?Z.ltb_lt, ?Nat.ltb_lt; try lia. by apply memcmp_trans.
  - rewrite (Nat.eqb_sym (length b)).
    destruct (Nat.eqb_spec (length a) (length b)) as [L|L];
      rewrite ?Z.ltb_ge, ?Nat.ltb_ge; [|lia].
    rewrite (memcmp_antisym a b). intros. simpl. lia.
Qed.

(** A range with bounds within the view, counted from its end when negative,
    is the bytes between them; a lower bound further than the beginning passes
    the assertions and reads memory before the view. *)
Theorem range_spec b start fin :
  let n := Z.of_nat (length b) in
  (0 <= start <= fin /\ fin <= n ->
   range b start fin =
     InView (take (Z.to_nat (fin - start)) (drop (Z.to_nat start) b))) /\
  (0 < start <= n -> range_from b (- start) =
     InView (drop (Z.to_nat (n - start)) b)) /\
  (n < start -> range_from b (- start) = BeforeView (n - start) start).
Proof.
  intros n. unfold range_from, range. fold n. split_and!; intros.
  - destruct (Z.ltb_spec start 0); [lia|]. destruct (Z.ltb_spec fin 0); [lia|].
    destruct (Z.ltb_spec fin start); [lia|].
    destruct (Z.ltb_spec n fin); [lia|].
    by destruct (Z.ltb_spec start 0); [lia|].
  - destruct (Z.ltb_spec (- start) 0); [|lia].
    destruct (Z.ltb_spec n 0); [lia|].
    destruct (Z.ltb_spec n (n + - start)); [lia|]. rewrite Z.ltb_irrefl.
    destruct (Z.ltb_spec (n + - start) 0); [lia|].
    rewrite take_ge by (rewrite length_drop; lia). do 2 f_equal; lia.
  - destruct (Z.ltb_spec (- start) 0); [|lia].
    destruct (Z.ltb_spec n 0); [lia|].
    destruct (Z.ltb_spec n (n + - start)); [lia|]. rewrite Z.ltb_irrefl.
    destruct (Z.ltb_spec (n + - start) 0); [f_equal; lia|lia].
Qed.

Lemma range_spec_witness :
  range [1; 2; 3; 4] 1 3 = InView [2; 3] /\
  range_from [1; 2; 3; 4] (-3) = InView [2; 3; 4] /\
  range_from [1; 2; 3; 4] (-6) = BeforeView (-2) 6.
Proof.
  destruct (range_spec [1; 2; 3; 4] 1 3) as (A & _ & _).
  destruct (range_spec [1; 2; 3; 4] 3 0) as (_ & B & _).
  destruct (range_spec [1; 2; 3; 4] 6 0) as (_ & _ & C).
  split; [apply A; simpl; lia|].
  split; [apply B; simpl; lia|apply C; simpl; lia].
Defined.
End View.

(** *** Writing through a stream buffer *)

(** The virtual methods of the writing side: [write_buffer] opens a region of
    memory and says how long it is, [flush] is told of the bytes the stream put
    at its beginning. *)
Class Sink (S : Type) := {
  sink_open : S -> result buffer_error (nat * S);
  sink_flush : bytes -> S -> S;
}.

(** [sunk s l n]: [s] has received [l], and a region of [n] bytes is open. *)
Class SinkSpec (S : Type) `{Sink S} := {
  sunk : S -> bytes -> nat -> Prop;
  open_spec : forall s l n s', sunk s l 0 -> sink_open s = Ok (n, s') ->
    (0 < n)%nat /\ sunk s' l n;
  flush_spec : forall s l n d, sunk s l n -> (length d <= n)%nat ->
    sunk (sink_flush d s) (l ++ d) 0;
  flush_nothing : forall s l n, sunk s l n -> sunk s l 0;
}.

Module Writer.
Section Writer.
Context {S : Type} `{SinkSpec S}.

(** The put area is [room] bytes long and [pending] were put in it. *)
Record t := mkWriter {
  pending : bytes;
  room : nat;
  sink : S;
}.

Definition create (s : S) : t := mkWriter [] 0 s.

(** [StreamBuffer::sync]. *)
Definition sync (w : t) : t :=
  match pending w with
  | [] => mkWriter [] 0 (sink w)
  | d => mkWriter [] 0 (sink_flush d (sink w))
  end.

(** [StreamBuffer::overflow]. *)
Definition overflow (c : Z) (w : t) : result buffer_error t :=
  let w := sync w in
  '(n, s) ← sink_open (sink w);
  Ok (mkWriter [c] n s).

(** [std::streambuf::sputc], and [sputn] which is as many of them. *)
Definition sputc (c : Z) (w : t) : result buffer_error t :=
  if Nat.ltb (length (pending w)) (room w) then
    Ok (mkWriter (pending w ++ [c]) (room w) (sink w))
  else overflow c w.

Fixpoint sputn (d : bytes) (w : t) : result buffer_error t :=
  match d with
  | [] => Ok w
  | c :: d => w ← sputc c w; sputn d w
  end.

(** What the stream was given: what the sink received, and what is pending. *)
Definition written (w : t) (l : bytes) : Prop :=
  exists l', l = l' ++ pending w /\ sunk (sink w) l' (room w) /\
    (length (pending w) <= room w)%nat.

Lemma create_written s l : sunk s l 0 -> written (create s) l.
Proof. intros Hs. exists l. by rewrite app_nil_r. Qed.

Lemma sync_written w l :
  written w l -> sunk (sink (sync w)) l 0 /\ written (sync w) l.
Proof.
  intros (l' & -> & Hs & L).
  assert (sunk (sink (sync w)) (l' ++ pending w) 0) as Hs'.
  { unfold sync. destruct (pending w) as [|c d] eqn:E; cbn [sink].
    - rewrite app_nil_r. by eapply flush_nothing.
    - rewrite <- E in *. by eapply flush_spec. }
  split; [done|]. exists (l' ++ pending w).
  assert (room (sync w) = 0%nat) as -> by (unfold sync; by destruct (pending w)).
  split_and!; [|exact Hs'|].
  - unfold sync. destruct (pending w); cbn [pending]; by rewrite !app_nil_r.
  - unfold sync. destruct (pending w); cbn; lia.
Qed.

Lemma sputc_written c w l :
  written w l ->
  match sputc c w with
  | Ok w' => written w' (l ++ [c])
  | Throw e => exists s l, sunk s l 0 /\ sink_open s = Throw e
  end.
Proof.
  intros W. unfold sputc.
  destruct (Nat.ltb_spec (length (pending w)) (room w)) as [L|L].
  - destruct W as (l' & -> & Hs & _). exists l'. cbn [pending room sink].
    rewrite length_app, app_assoc. split_and!; [done..|simpl; lia].
  - unfold overflow. destruct (sync_written _ _ W) as [Hs _].
    destruct (sink_open (sink (sync w))) as [[n s]|e] eqn:E; cbn; [|eauto].
    destruct (open_spec _ _ _ _ Hs E) as [Hn Hs'].
    exists l. cbn. split_and!; [done..|lia].
Qed.

(** Whatever the regions a sink opens, the stream hands over to it exactly the
    bytes it was given, in order; it fails only when the sink does. *)
Lemma sink_receives_everything d w l :
  written w l ->
  match sputn d w with
  | Ok w' => sunk (sink (sync w')) (l ++ d) 0
  | Throw e => exists s l, sunk s l 0 /\ sink_open s = Throw e
  end.
Proof.
  revert w l. induction d as [|c d IH]; intros w l W; cbn [sputn].
  - rewrite app_nil_r. by apply sync_written.
  - pose proof (sputc_written c w l W) as Hc.
    destruct (sputc c w) as [w'|e]; cbn; [|done].
    specialize (IH _ _ Hc). by rewrite <- app_assoc in IH.
Qed.
End Writer.
Arguments t S : clear implicits.
End Writer.

(** *** Sinks *)

(** [OutputStreamBuffer<Buffer>]: the region is past the contents of a buffer
    that grows by 512 bytes at a time. *)
Module OutputStream.
Record t := mkOutput {
  old_size : nat;
  buffer : Buffer.t;
}.

Definition create (b : Buffer.t) : t := mkOutput (Buffer.size b) b.

Definition write_buffer (o : t) : result buffer_error (nat * t) :=
  Ok (512%nat,
      mkOutput (old_size o) (Buffer.set_capacity (old_size o + 512) (buffer o))).

(** The stream wrote [d] in the region, then calls [flush]. *)
Definition flush (d : bytes) (o : t) : t :=
  let n := (old_size o + length d)%nat in
  let c := (fun c => Buffer.memmove c (old_size o) (Some <$> d)) <$>
             Buffer.cells (buffer o) in
  mkOutput n (Buffer.resize n (Buffer.mkBuffer c (Buffer.size (buffer o)))).

#[export] Instance output_sink : Sink t := {|
  sink_open := write_buffer;
  sink_flush := flush;
|}.

Definition receives (o : t) (l : bytes) (n : nat) : Prop :=
  Buffer.holds (buffer o) l /\ old_size o = length l /\
  (old_size o + n <= Buffer.capacity_of (buffer o))%nat.

Lemma flush_receives o l n d :
  receives o l n -> (length d <= n)%nat -> receives (flush d o) (l ++ d) 0.
Proof.
  intros (Hb & E & C) L. pose proof Hb as [Es T].
  destruct (Buffer.cells (buffer o)) as [c|] eqn:Ec.
  2:{ unfold Buffer.capacity_of in C. rewrite Ec in C.
      destruct d; [|simpl in L; lia]. destruct l; [|simpl in E; lia].
      unfold receives, flush, Buffer.holds. cbn. rewrite Ec. cbn.
      rewrite Nat.add_0_r, E. cbn. split_and!; lia || done. }
  unfold Buffer.capacity_of in C. rewrite Ec in C. cbn in T.
  assert (length (Buffer.memmove c (old_size o) (Some <$> d)) = length c) as Lm.
  { unfold Buffer.memmove.
    rewrite !length_app, length_take, length_drop, length_fmap. lia. }
  unfold receives, flush, Buffer.holds, Buffer.resize, Buffer.capacity_of.
  cbn [buffer Buffer.cells old_size]. rewrite Ec.
  cbn [fmap option_fmap option_map Buffer.cells Buffer.size]. rewrite Lm.
  destruct (Nat.ltb_spec (length c) (old_size o + length d)); [lia|].
  cbn [Buffer.cells Buffer.size from_option id]. rewrite Lm, length_app.
  split_and!; [lia| |lia..]. unfold Buffer.memmove.
  rewrite E, <- Es, T, app_assoc, <- fmap_app, take_app_length'; [done|].
  rewrite length_fmap, length_app. lia.
Qed.

#[export] Program Instance output_sink_spec : SinkSpec t := {|
  sunk := receives;
|}.
Next Obligation.
  intros o l n o' (Hb & E & C) [= <- <-]. split; [lia|].
  unfold receives. cbn [buffer old_size]. rewrite Buffer.capacity_set.
  pose proof (Buffer.set_capacity_holds (old_size o + 512) _ _ Hb) as Hb'.
  rewrite take_ge in Hb' by lia. split_and!; [done..|lia].
Qed.
Next Obligation. intros. by eapply flush_receives. Qed.
Next Obligation. intros o l n (Hb & E & C). split_and!; [done..|lia]. Qed.

(** A stream over a buffer never fails and appends what it is given to the
    buffer, whose contents stay within its memory. *)
Theorem output_stream_appends b l d :
  Buffer.holds b l ->
  exists w, Writer.sputn d (Writer.create (create b)) = Ok w /\
    Buffer.holds (buffer (Writer.sink (Writer.sync w))) (l ++ d) /\
    Buffer.wf (buffer (Writer.sink (Writer.sync w))).
Proof.
  intros Hb.
  assert (Writer.written (Writer.create (create b)) l) as W.
  { apply Writer.create_written. split_and!; [done|apply Hb|].
    cbn. rewrite Nat.add_0_r. by eapply Buffer.holds_wf. }
  revert W. generalize (Writer.create (create b)) as w. clear Hb.
  revert l. induction d as [|c d IH]; intros l w W; cbn [Writer.sputn].
  - exists w. rewrite app_nil_r. split; [done|].
    destruct (Writer.sync_written _ _ W) as [(Hs & _) _].
    split; [done|]. by eapply Buffer.holds_wf.
  - pose proof (Writer.sputc_written c w l W) as Hc.
    destruct (Writer.sputc c w) as [w'|e]; cbn.
    + destruct (IH _ _ Hc) as (w2 & E & Hh). rewrite <- app_assoc in Hh. eauto.
    + by destruct Hc as (s & l' & _ & Ho).
Qed.

Lemma output_stream_appends_witness :
  Buffer.holds Buffer.empty_buffer [] /\
  exists w, Writer.sputn [104; 105] (Writer.create (create Buffer.empty_buffer))
      = Ok w /\
    Buffer.holds (buffer (Writer.sink (Writer.sync w))) [104; 105] /\
    Buffer.wf (buffer (Writer.sink (Writer.sync w))).
Proof.
  split; [exact Buffer.empty_holds|].
  exact (output_stream_appends Buffer.empty_buffer [] [104; 105]
           Buffer.empty_holds).
Defined.
End OutputStream.

(** [OutputStreamBuffer<WeakBuffer>]: the region is the viewed memory, once. *)
Module FixedStream.
Record t := mkFixed {
  returned : bool;
  region : bytes;
}.

Definition write_buffer (o : t) : result buffer_error (nat * t) :=
  if returned o then Throw BufferFull
  else Ok (length (region o), mkFixed true (region o)).

(** The bytes are in place already. *)
Definition flush (d : bytes) (o : t) : t :=
  mkFixed (returned o) (d ++ drop (length d) (region o)).

#[export] Instance fixed_sink : Sink t := {|
  sink_open := write_buffer;
  sink_flush := flush;
|}.

Definition receives (o : t) (l : bytes) (n : nat) : Prop :=
  region o <> [] /\
  ((l = [] /\ (n = 0%nat \/ n = length (region o) /\ returned o = true)) \/
   (n = 0%nat /\ returned o = true /\ prefix l (region o))).

#[export] Program Instance fixed_sink_spec : SinkSpec t := {|
  sunk := receives;
|}.
Next Obligation.
  intros o l n o' (NE & D) Ho. unfold sink_open, fixed_sink, write_buffer in Ho.
  destruct (returned o) eqn:R; simplify_eq. destruct (region o) eqn:E; [done|].
  split; [simpl; lia|]. split; [done|]. left. cbn.
  destruct D as [[-> _]|(_ & ? & _)]; [auto|done].
Qed.
Next Obligation.
  intros o l n d (NE & D) L. unfold sink_flush, fixed_sink, flush.
  destruct D as [[-> [->|[-> R]]]|(-> & R & P)].
  - destruct d; [|simpl in L; lia]. split; [done|]. left. auto.
  - split; cbn.
    + destruct d; [done|]. done.
    + right. split_and!; [done..|]. by apply prefix_app_r.
  - destruct d; [|simpl in L; lia]. rewrite app_nil_r. split; [done|].
    right. done.
Qed.
Next Obligation.
  intros o l n (NE & [[-> D]|(-> & R & P)]); split; auto.
Qed.

(** A stream over a view stores what fits in it, at its beginning, and refuses
    what does not without writing past it. *)
Theorem fixed_stream_stores (r d : bytes) :
  r <> [] ->
  match Writer.sputn d (Writer.create (mkFixed false r)) with
  | Ok w => prefix d (region (Writer.sink (Writer.sync w)))
  | Throw e => e = BufferFull
  end.
Proof.
  intros NE.
  pose proof (Writer.sink_receives_everything d (Writer.create (mkFixed false r))
    []) as X.
  assert (Writer.written (Writer.create (mkFixed false r)) []) as W.
  { apply Writer.create_written. split; [done|]. left. auto. }
  specialize (X W). destruct (Writer.sputn _ _) as [w|e].
  - destruct X as (_ & [[Ed _]|(_ & _ & P)]); [|done].
    cbn in Ed. subst d. apply prefix_nil.
  - destruct X as (s & l & _ & E). unfold sink_open, fixed_sink, write_buffer in E.
    by case_match; simplify_eq.
Qed.

Lemma fixed_stream_stores_witness :
  [0; 0; 0] <> [] /\
  match Writer.sputn [7; 8] (Writer.create (mkFixed false [0; 0; 0])) with
  | Ok w => prefix [7; 8] (region (Writer.sink (Writer.sync w)))
  | Throw e => e = BufferFull
  end.
Proof.
  split; [discriminate|].
  exact (fixed_stream_stores [0; 0; 0] [7; 8] ltac:(discriminate)).
Defined.
End FixedStream.

(** *** Reading *)

(** [InputStreamBuffer]: one region per buffer. *)
Module InputStream.
Record t := mkInput {
  buffers : list bytes;
  pos : nat;
}.

Definition create (b : bytes) : t := mkInput [b] 0.
Definition add (b : bytes) (i : t) : t := mkInput (buffers i ++ [b]) (pos i).

Definition read_buffer (i : t) : bytes * t :=
  match buffers i !! pos i with
  | Some b => (b, mkInput (buffers i) (pos i + 1))
  | None => ([], i)
  end.

(** [StreamBuffer::underflow] until it answers EOF; [fuel] regions at most. *)
Fixpoint read_all (fuel : nat) (i : t) : option bytes :=
  match fuel with
  | O => None
  | S fuel =>
      match read_buffer i with
      | ([], _) => Some []
      | (b, i) => (app b) <$> read_all fuel i
      end
  end.

(** The regions up to the first empty one. *)
Fixpoint until_empty (l : list bytes) : list bytes :=
  match l with
  | [] | [] :: _ => []
  | b :: l => b :: until_empty l
  end.

Lemma read_all_from l i fuel :
  drop (pos i) (buffers i) = l -> (length l < fuel)%nat ->
  read_all fuel i = Some (mjoin (until_empty l)).
Proof.
  revert i fuel. induction l as [|b l IH]; intros i [|fuel] D L; try lia;
    cbn [read_all]; unfold read_buffer.
  - rewrite lookup_ge_None_2; [done|].
    apply (f_equal length) in D. rewrite length_drop in D. simpl in D. lia.
  - assert (buffers i !! pos i = Some b) as ->.
    { rewrite <- (Nat.add_0_r (pos i)), <- lookup_drop, D. done. }
    destruct b as [|c b]; [done|].
    rewrite IH; [done| |simpl in L; lia]. cbn [buffers pos].
    rewrite <- drop_drop, D. done.
Qed.

(** Reading through buffers combined in one stream gives their contents one
    after the other, as long as none is empty: an empty one ends the stream,
    and what follows is not read. *)
Theorem input_stream_reads l :
  read_all (S (length l)) (mkInput l 0) = Some (mjoin (until_empty l)) /\
  (Forall (fun b => b <> []) l -> mjoin (until_empty l) = mjoin l).
Proof.
  split.
  - apply read_all_from; [done|lia].
  - induction 1 as [|b l Hb _ IH]; [done|]. destruct b; [done|]. simpl in *.
    by rewrite IH.
Qed.
End InputStream.
