(* ===== verification/Base64.v ===== *)
(** Base64: elle/src/elle/format/base64.cc.

    The conversion of whole sequences is boost's ([base64_from_binary],
    [binary_from_base64], [transform_width]): it is here the class [Codec],
    which states what their documentation promises.  What the file does is
    modelled: the stream buffer that encodes what it is given chunk by chunk,
    carrying up to two bytes from one to the next, its padding, and the one
    that decodes what it reads. *)

From stdpp Require Import base tactics option list numbers.
From Stdlib Require Import ZArith Lia.
From S2P Require Import Prelude Buffers Streams.
Open Scope nat_scope.

(** [encoder] and [decoder], on a whole sequence. *)
Class Codec := {
  encoder : bytes -> bytes;
  decoder : bytes -> bytes;
  encoder_app : forall a b, length a mod 3 = 0 ->
    encoder (a ++ b) = encoder a ++ encoder b;
  encoder_length : forall b, length (encoder b) = (length b * 4 + 2) / 3;
  encoder_no_pad : forall b, Forall is_byte b -> (61%Z) ∉ encoder b;
  decoder_encoder : forall b, Forall is_byte b -> decoder (encoder b) = b;
}.

Module Base64.
Section Base64.
Context `{Codec}.

Abbreviation pad := 61%Z.

(** *** Encoding *)

(** [_buffer_write] up to [_remaining_write], and the underlying stream. *)
Record t := mkEncoder {
  remaining : bytes;
  output : bytes;
}.

Definition buffer_size : nat := 4096.

Definition write_buffer (s : t) : result buffer_error (nat * t) :=
  Ok (buffer_size - length (remaining s), s).

Definition flush (d : bytes) (s : t) : t :=
  let all := remaining s ++ d in
  let r := length all mod 3 in
  let size := length all - r in
  mkEncoder (drop size all)
    (if 0 <? size then output s ++ encoder (take size all) else output s).

Definition finalize (s : t) : t :=
  match remaining s with
  | [] => s
  | r =>
      mkEncoder r (output s ++ encoder r ++
        match length r with
        | 1 => [pad; pad]
        | 2 => [pad]
        | _ => []
        end)
  end.

#[export] Instance encoder_sink : Sink t := {|
  sink_open := write_buffer;
  sink_flush := flush;
|}.

(** [encode]: the destructor of the stream syncs and finalizes. *)
Definition encode (input : bytes) : result buffer_error bytes :=
  w ← Writer.sputn input (Writer.create (mkEncoder [] []));
  Ok (output (finalize (Writer.sink (Writer.sync w)))).

Definition encoded_size (input : bytes) : nat := (length input + 2) / 3 * 4.

(** What base64 is: the groups of three bytes, then the padded rest. *)
Definition padding (n : nat) : bytes :=
  match n mod 3 with
  | 1 => [pad; pad]
  | 2 => [pad]
  | _ => []
  end.
Definition base64 (b : bytes) : bytes := encoder b ++ padding (length b).

(** *** Decoding *)

Definition read_size : nat := buffer_size / 3 * 4.

(** [read_buffer], on the characters it read: up to three at the end of the
    stream are left out. *)
Definition decode_chunk (buffer : bytes) : bytes :=
  let read := length buffer - length buffer mod 4 in
  let is_end :=
    (0 <? read) && bool_decide (buffer !! (read - 1) = Some pad) in
  if is_end then
    let read := read - 4 in
    decoder (take read buffer) ++
    (if bool_decide (buffer !! (read + 2) = Some pad)
     then take 1 (decoder (take 2 (drop read buffer)))
     else take 2 (decoder (take 3 (drop read buffer))))
  else decoder (take read buffer).

(** Everything the stream gives: an empty region is its end. [fuel] regions at
    most. *)
Fixpoint read_all (fuel : nat) (input : bytes) : option bytes :=
  match fuel with
  | O => None
  | S fuel =>
      match decode_chunk (take read_size input) with
      | [] => Some []
      | d => (app d) <$> read_all fuel (drop read_size input)
      end
  end.

Definition decoded_size (encoded : bytes) : Z :=
  let size := length encoded in
  let pads :=
    (if (1 <=? size) && bool_decide (encoded !! (size - 1) = Some pad)
     then 1 else 0) +
    (if (2 <=? size) && bool_decide (encoded !! (size - 2) = Some pad)
     then 1 else 0) in
  (Z.of_nat (size / 4 * 3) - Z.of_nat pads)%Z.

(** [decode]: the stream must hold as many bytes as foreseen, and no more. *)
Definition decode (input : bytes) : result buffer_error bytes :=
  match read_all (S (length input)) input with
  | Some d =>
      if bool_decide (Z.of_nat (length d) = decoded_size input) then Ok d
      else Throw BufferAssert
  | None => Throw BufferAssert
  end.

(** *** The encoder, chunk by chunk *)

Definition receives (s : t) (l : bytes) (n : nat) : Prop :=
  remaining s = drop (length l - length l mod 3) l /\
  output s = encoder (take (length l - length l mod 3) l).

Lemma encoder_nil : encoder [] = [].
Proof. apply nil_length_inv. by rewrite encoder_length. Qed.

Lemma mod3_cases n : n mod 3 = 0 \/ n mod 3 = 1 \/ n mod 3 = 2.
Proof. pose proof (Nat.mod_upper_bound n 3). lia. Qed.

Lemma sub_mod n : (n - n mod 3) mod 3 = 0.
Proof.
  rewrite (Nat.div_mod_eq n 3) at 1.
  replace (3 * (n / 3) + n mod 3 - n mod 3) with (n / 3 * 3) by lia.
  apply Nat.Div0.mod_mul.
Qed.

Lemma mod_le n : n mod 3 <= n.
Proof. apply Nat.Div0.mod_le. Qed.

Lemma sub_mod_add n m :
  (n + m) - (n + m) mod 3 = (n - n mod 3) + (n mod 3 + m - (n mod 3 + m) mod 3).
Proof.
  assert ((n + m) mod 3 = (n mod 3 + m) mod 3) as ->
    by by rewrite Nat.Div0.add_mod_idemp_l.
  pose proof (mod_le n). pose proof (mod_le (n mod 3 + m)). lia.
Qed.

Lemma encoder_flush s l n d : receives s l n -> receives (flush d s) (l ++ d) 0.
Proof.
  intros [Hr Ho]. set (k := length l - length l mod 3) in *.
  assert (k <= length l) as Lk by (unfold k; pose proof (mod_le (length l)); lia).
  assert (length (remaining s ++ d) = length l mod 3 + length d) as La.
  { rewrite length_app, Hr, length_drop. pose proof (mod_le (length l)).
    unfold k. lia. }
  set (j := length l mod 3 + length d - (length l mod 3 + length d) mod 3).
  assert (length (l ++ d) - length (l ++ d) mod 3 = k + j) as Lkj.
  { rewrite length_app, sub_mod_add. done. }
  assert (take k l ++ remaining s ++ d = l ++ d) as Es.
  { by rewrite Hr, app_assoc, take_drop. }
  assert (length (take k l) = k) as Lt by (rewrite length_take; lia).
  unfold receives, flush. cbn [remaining output]. rewrite La. fold j.
  rewrite Lkj, <- Es. split.
  - by rewrite drop_app_add' by done.
  - rewrite take_app_add' by done. destruct (Nat.ltb_spec 0 j).
    + rewrite Ho, encoder_app; [done|]. rewrite Lt. apply sub_mod.
    + assert (j = 0) as -> by lia. by rewrite take_0, app_nil_r.
Qed.

#[export] Program Instance encoder_sink_spec : SinkSpec t := {|
  sunk := receives;
|}.
Next Obligation.
  intros s l n s' [Hr Ho] [= <- <-]. split; [|done].
  rewrite Hr, length_drop. pose proof (Nat.mod_upper_bound (length l) 3).
  unfold buffer_size. pose proof (mod_le (length l)). lia.
Qed.
Next Obligation. intros. by eapply encoder_flush. Qed.
Next Obligation. done. Qed.

Lemma finalize_output s l n : receives s l n -> output (finalize s) = base64 l.
Proof.
  intros [Hr Ho]. set (k := length l - length l mod 3) in *.
  assert (length (remaining s) = length l mod 3) as L.
  { rewrite Hr, length_drop. unfold k. pose proof (mod_le (length l)). lia. }
  assert (encoder l = encoder (take k l) ++ encoder (remaining s)) as El.
  { rewrite <- encoder_app, Hr, take_drop; [done|].
    rewrite length_take, Nat.min_l by (unfold k; lia). apply sub_mod. }
  unfold finalize, base64, padding. rewrite El, <- Ho, <- L.
  destruct (remaining s) as [|a [|b [|c r]]]; cbn [output length].
  - by rewrite encoder_nil, !app_nil_r.
  - by rewrite app_assoc.
  - by rewrite app_assoc.
  - pose proof (Nat.mod_upper_bound (length l) 3). simpl in L. lia.
Qed.

Lemma sputn_total d w l :
  Writer.written w l -> exists w', Writer.sputn d w = Ok w' /\
    receives (Writer.sink (Writer.sync w')) (l ++ d) 0.
Proof.
  intros W. pose proof (Writer.sink_receives_everything d w l W) as X.
  destruct (Writer.sputn d w) as [w'|e]; [eauto|].
  by destruct X as (s & l' & _ & E).
Qed.

Lemma encode_base64 b : encode b = Ok (base64 b).
Proof.
  destruct (sputn_total b (Writer.create (mkEncoder [] [])) []) as (w & E & R).
  - apply Writer.create_written. split; [done|]. cbn [output Writer.create Writer.sink]. by rewrite take_nil, encoder_nil.
  - unfold encode. rewrite E. cbn. f_equal. by apply (finalize_output _ _ 0).
Qed.

(** Encoding through the stream, however it is cut, gives the base64 of the
    bytes, of the size that was foreseen. *)
Theorem encode_is_base64 b :
  exists e, encode b = Ok e /\ e = base64 b /\ length e = encoded_size b.
Proof.
  exists (base64 b). split; [apply encode_base64|]. split; [done|].
  unfold base64, encoded_size, padding.
  rewrite length_app, encoder_length.
  pose proof (Nat.div_mod_eq (length b) 3) as D. set (k := length b / 3) in *.
  destruct (mod3_cases (length b)) as [M|[M|M]]; rewrite M in *; rewrite D.
  - replace ((3 * k + 0) * 4 + 2) with (2 + 4 * k * 3) by lia.
    replace (3 * k + 0 + 2) with (2 + k * 3) by lia.
    rewrite !Nat.div_add by lia. simpl. lia.
  - replace ((3 * k + 1) * 4 + 2) with (0 + (4 * k + 2) * 3) by lia.
    replace (3 * k + 1 + 2) with (0 + (k + 1) * 3) by lia.
    rewrite !Nat.div_add by lia. simpl. lia.
  - replace ((3 * k + 2) * 4 + 2) with (1 + (4 * k + 3) * 3) by lia.
    replace (3 * k + 2 + 2) with (1 + (k + 1) * 3) by lia.
    rewrite !Nat.div_add by lia. simpl. lia.
Qed.

(** *** Decoding what was encoded *)

Lemma length_encoder3 b k : length b = 3 * k -> length (encoder b) = 4 * k.
Proof.
  intros L. rewrite encoder_length, L.
  replace (3 * k * 4 + 2) with (2 + 4 * k * 3) by lia.
  rewrite Nat.div_add by lia. simpl. lia.
Qed.

Lemma lookup_app_add (a b : bytes) i : (a ++ b) !! (length a + i) = b !! i.
Proof. rewrite lookup_app_r by lia. f_equal. lia. Qed.

Lemma no_pad_at b i : Forall is_byte b -> encoder b !! i <> Some pad.
Proof.
  intros B E. eapply (encoder_no_pad b B). by apply list_elem_of_lookup_2 in E.
Qed.

Lemma mod4 k : (4 * k) mod 4 = 0.
Proof. rewrite Nat.mul_comm. apply Nat.Div0.mod_mul. Qed.

Lemma decode_plain b k :
  Forall is_byte b -> length b = 3 * k -> decode_chunk (encoder b) = b.
Proof.
  intros B L. pose proof (length_encoder3 _ _ L) as Le.
  unfold decode_chunk. rewrite Le, mod4, Nat.sub_0_r.
  rewrite (bool_decide_false _ (no_pad_at b _ B)), andb_false_r, take_ge by lia.
  by apply decoder_encoder.
Qed.

(** The last group of a text, padded. *)
Lemma decode_padded a t k pads :
  Forall is_byte (a ++ t) -> length a = 3 * k ->
  (length t = 1 /\ pads = [pad; pad]) \/ (length t = 2 /\ pads = [pad]) ->
  decode_chunk (encoder a ++ encoder t ++ pads) = a ++ t.
Proof.
  intros [Ba Bt]%Forall_app La D. pose proof (length_encoder3 _ _ La) as Le.
  assert (length (encoder t) = 1 + length t /\
          length (encoder t ++ pads) = 4) as [Lt Lr].
  { rewrite length_app, encoder_length.
    by destruct D as [[-> ->]|[-> ->]]. }
  set (r := encoder t ++ pads) in *.
  assert (r !! 3 = Some pad) as Ep.
  { unfold r. destruct D as [[L ->]|[L ->]];
      by rewrite lookup_app_r, Lt, L by lia. }
  unfold decode_chunk. rewrite length_app, Le, Lr.
  replace (4 * k + 4) with (4 * (k + 1)) by lia.
  rewrite mod4, Nat.sub_0_r.
  replace (4 * (k + 1) - 1) with (length (encoder a) + 3) by lia.
  rewrite lookup_app_add, Ep, bool_decide_true by done.
  destruct (Nat.ltb_spec 0 (4 * (k + 1))); [|lia]. cbn [andb].
  replace (4 * (k + 1) - 4) with (length (encoder a)) by lia.
  rewrite take_app_length, drop_app_length, lookup_app_add.
  rewrite decoder_encoder by done. f_equal. unfold r.
  destruct D as [[L ->]|[L ->]].
  - rewrite lookup_app_r, Lt, L, bool_decide_true by (lia || done).
    rewrite take_app_length' by lia. rewrite decoder_encoder by done.
    apply take_ge. lia.
  - rewrite lookup_app_l by lia.
    rewrite (bool_decide_false _ (no_pad_at t _ Bt)).
    rewrite take_app_length' by lia. rewrite decoder_encoder by done.
    apply take_ge. lia.
Qed.

(** The bytes before the last incomplete group, and it. *)
Lemma split_group (b : bytes) :
  exists a t k, b = a ++ t /\ length a = 3 * k /\ length t = length b mod 3.
Proof.
  exists (take (3 * (length b / 3)) b), (drop (3 * (length b / 3)) b),
    (length b / 3).
  pose proof (Nat.div_mod_eq (length b) 3).
  rewrite take_drop, length_take, length_drop. split_and!; lia || done.
Qed.

Lemma decode_base64 b : Forall is_byte b -> decode_chunk (base64 b) = b.
Proof.
  intros B. destruct (split_group b) as (a & t & k & -> & La & Lt).
  unfold base64, padding. rewrite encoder_app, <- app_assoc
    by (rewrite La, Nat.mul_comm; apply Nat.Div0.mod_mul).
  destruct (mod3_cases (length (a ++ t))) as [M|[M|M]]; rewrite M in *.
  - apply nil_length_inv in Lt as ->. rewrite encoder_nil, !app_nil_r in *.
    by apply (decode_plain a k).
  - apply (decode_padded a t k); auto.
  - apply (decode_padded a t k); auto.
Qed.

Definition groups : nat := buffer_size / 3.
Lemma groups_pos : 0 < groups.
Proof. apply Nat.div_str_pos. unfold buffer_size. lia. Qed.

Lemma base64_length b : exists m, length (base64 b) = 4 * m /\
  (length b <= 3 * groups -> m <= groups) /\ (b = [] <-> m = 0).
Proof.
  destruct (split_group b) as (a & t & k & -> & La & Lt).
  unfold base64, padding. rewrite encoder_app, !length_app
    by (rewrite La, Nat.mul_comm; apply Nat.Div0.mod_mul).
  rewrite (length_encoder3 _ _ La), encoder_length.
  rewrite length_app in Lt. destruct (mod3_cases (length a + length t))
    as [M|[M|M]]; rewrite M in *; rewrite Lt.
  - exists k. apply nil_length_inv in Lt as ->. rewrite app_nil_r, La.
    split; [simpl; lia|]. split; [cbn [length]; lia|].
    split; [intros ->; simpl in La; lia|]. intros ->. by apply nil_length_inv.
  - exists (k + 1). rewrite La. split; [simpl; lia|]. split; [cbn [length]; lia|].
    split; [intros E|lia]. apply (f_equal length) in E.
    rewrite length_app in E. simpl in E. lia.
  - exists (k + 1). rewrite La. split; [simpl; lia|]. split; [cbn [length]; lia|].
    split; [intros E|lia]. apply (f_equal length) in E.
    rewrite length_app in E. simpl in E. lia.
Qed.

Lemma read_base64 fuel b :
  Forall is_byte b -> length b < fuel -> read_all fuel (base64 b) = Some b.
Proof.
  revert b. induction fuel as [|fuel IH]; intros b B L; [lia|].
  pose proof groups_pos as G. cbn [read_all].
  assert (read_size = 4 * groups) as Rs by (unfold read_size, groups; lia).
  destruct (decide (length b <= 3 * groups)) as [S|S].
  - destruct (base64_length b) as (m & Lm & Hm & _). specialize (Hm S).
    rewrite take_ge by lia. rewrite decode_base64, drop_ge by (done || lia).
    destruct b as [|c b]; [done|]. destruct fuel; [simpl in L; lia|].
    cbn [read_all]. rewrite take_nil.
    assert (decode_chunk [] = []) as ->.
    { rewrite <- encoder_nil at 1. by apply (decode_plain [] 0). }
    cbn. by rewrite app_nil_r.
  - set (g := 3 * groups) in *.
    assert (length (take g b) = 3 * groups) as Lg by (rewrite length_take; lia).
    assert (base64 b = encoder (take g b) ++ base64 (drop g b)) as E.
    { unfold base64. rewrite app_assoc, <- encoder_app, take_drop.
      2:{ rewrite Lg, Nat.mul_comm. apply Nat.Div0.mod_mul. }
      f_equal. unfold padding. rewrite length_drop.
      replace (length b) with (length b - g + groups * 3) at 1 by (unfold g; lia).
      by rewrite Nat.Div0.mod_add. }
    pose proof (length_encoder3 _ _ Lg) as Le.
    rewrite E, take_app_length', drop_app_length' by lia.
    apply Forall_take with (n := g) in B as Bt.
    rewrite (decode_plain _ groups) by done.
    destruct (take g b) as [|c l] eqn:Et; [simpl in Lg; lia|].
    rewrite IH by (by apply Forall_drop || (rewrite length_drop; lia)).
    cbn. rewrite app_comm_cons, <- Et. by rewrite take_drop.
Qed.

Lemma decoded_size_base64 b :
  Forall is_byte b -> decoded_size (base64 b) = Z.of_nat (length b).
Proof.
  intros B. destruct (split_group b) as (a & t & k & -> & La & Lt).
  apply Forall_app in B as [Ba Bt].
  assert (length a mod 3 = 0) as Ma
    by (rewrite La, Nat.mul_comm; apply Nat.Div0.mod_mul).
  unfold base64, padding. rewrite encoder_app by done.
  pose proof (length_encoder3 _ _ La) as Le.
  assert (forall n, (4 * n) / 4 = n) as D4
    by (intros; rewrite Nat.mul_comm; by apply Nat.div_mul).
  destruct (mod3_cases (length (a ++ t))) as [M|[M|M]]; rewrite M in *.
  - apply nil_length_inv in Lt as ->. rewrite encoder_nil, !app_nil_r.
    unfold decoded_size. rewrite Le, !(bool_decide_false _ (no_pad_at a _ Ba)).
    rewrite !andb_false_r, D4. lia.
  - assert (length (encoder t) = 2) as Lt2 by by rewrite encoder_length, Lt.
    unfold decoded_size. rewrite !length_app, Le, Lt2. cbn [length].
    replace (4 * k + 2 + 2) with (4 * (k + 1)) by lia. rewrite D4.
    rewrite !lookup_app_r by (rewrite ?length_app; lia). rewrite length_app.
    rewrite Le, Lt2. replace (4 * (k + 1) - 1 - (4 * k + 2)) with 1 by lia.
    replace (4 * (k + 1) - 2 - (4 * k + 2)) with 0 by lia. cbn [lookup list_lookup].
    rewrite bool_decide_true by done. 
    destruct (Nat.leb_spec 1 (4 * (k + 1))), (Nat.leb_spec 2 (4 * (k + 1)));
      try lia. cbn [andb]. lia.
  - assert (length (encoder t) = 3) as Lt2 by by rewrite encoder_length, Lt.
    unfold decoded_size. rewrite !length_app, Le, Lt2. cbn [length].
    replace (4 * k + 3 + 1) with (4 * (k + 1)) by lia. rewrite D4.
    rewrite (lookup_app_r (_ ++ _)) by (rewrite length_app; lia).
    rewrite (lookup_app_l (_ ++ _)) by (rewrite length_app; lia).
    rewrite lookup_app_r by lia. rewrite length_app, Le, Lt2.
    rewrite (bool_decide_false _ (no_pad_at t _ Bt)), andb_false_r.
    replace (4 * (k + 1) - 1 - (4 * k + 3)) with 0 by lia. cbn [lookup list_lookup].
    rewrite bool_decide_true by done.
    destruct (Nat.leb_spec 1 (4 * (k + 1))); try lia. cbn [andb]. lia.
Qed.

(** Decoding what was encoded gives the bytes back, whatever their number:
    neither assertion of [decode] fails. *)
Theorem base64_round_trip b :
  Forall is_byte b ->
  exists e, encode b = Ok e /\ decode e = Ok b.
Proof.
  intros B. exists (base64 b). split; [apply encode_base64|].
  unfold decode. destruct (base64_length b) as (m & Lm & _).
  assert (length b < S (length (base64 b))).
  { unfold base64. rewrite length_app, encoder_length.
    assert (length b <= (length b * 4 + 2) / 3); [|lia].
    apply Nat.div_le_lower_bound; lia. }
  rewrite read_base64 by done. by rewrite decoded_size_base64, bool_decide_true.
Qed.
End Base64.
End Base64.

(** ** The usual alphabet *)

Module Standard.
Open Scope Z_scope.

Definition char_of (d : Z) : Z :=
  if d <? 26 then 65 + d else if d <? 52 then 71 + d
  else if d <? 62 then d - 4 else if d =? 62 then 43 else 47.

Definition value_of (c : Z) : Z :=
  if c =? 43 then 62 else if c =? 47 then 63
  else if c <? 58 then c + 4 else if c <? 91 then c - 65 else c - 71.

Fixpoint encoder (b : bytes) : bytes :=
  match b with
  | x :: y :: z :: b =>
      [char_of (x / 4); char_of (x mod 4 * 16 + y / 16);
       char_of (y mod 16 * 4 + z / 64); char_of (z mod 64)] ++ encoder b
  | [x; y] =>
      [char_of (x / 4); char_of (x mod 4 * 16 + y / 16);
       char_of (y mod 16 * 4)]
  | [x] => [char_of (x / 4); char_of (x mod 4 * 16)]
  | [] => []
  end.

Fixpoint decoder (s : bytes) : bytes :=
  match s with
  | a :: b :: c :: d :: s =>
      let '(a, b, c, d) := (value_of a, value_of b, value_of c, value_of d) in
      [a * 4 + b / 16; b mod 16 * 16 + c / 4; c mod 4 * 64 + d] ++ decoder s
  | [a; b; c] =>
      let '(a, b, c) := (value_of a, value_of b, value_of c) in
      [a * 4 + b / 16; b mod 16 * 16 + c / 4]
  | [a; b] => [value_of a * 4 + value_of b / 16]
  | _ => []
  end.

Lemma value_of_char_of d : 0 <= d < 64 -> value_of (char_of d) = d.
Proof.
  intros D. unfold value_of, char_of.
  repeat case_match; to_prop; lia.
Qed.

Lemma char_of_no_pad d : 0 <= d -> char_of d <> 61.
Proof.
  intros D. unfold char_of. repeat case_match; to_prop; lia.
Qed.

(** Induction three bytes at a time. *)
Lemma groups_ind (P : bytes -> Prop) :
  P [] -> (forall x, P [x]) -> (forall x y, P [x; y]) ->
  (forall x y z b, P b -> P (x :: y :: z :: b)) -> forall b, P b.
Proof.
  intros H0 H1 H2 H3.
  fix IH 1. intros [|x [|y [|z b]]]; [done|done|done|]. apply H3, IH.
Qed.

Lemma decoder_group a b c d s :
  decoder (a :: b :: c :: d :: s) =
    [value_of a * 4 + value_of b / 16;
     value_of b mod 16 * 16 + value_of c / 4;
     value_of c mod 4 * 64 + value_of d] ++ decoder s.
Proof. done. Qed.

Lemma decoder_encoder b : Forall is_byte b -> decoder (encoder b) = b.
Proof.
  unfold is_byte. induction b as [|x|x y|x y z b IH] using groups_ind; intros B.
  - done.
  - apply Forall_cons_1 in B as [Hx _]. cbn [encoder decoder].
    rewrite !value_of_char_of by (Z.to_euclidean_division_equations; lia).
    f_equal. Z.to_euclidean_division_equations; lia.
  - apply Forall_cons_1 in B as [Hx B]. apply Forall_cons_1 in B as [Hy _].
    cbn [encoder decoder].
    rewrite !value_of_char_of by (Z.to_euclidean_division_equations; lia).
    do 2 f_equal; Z.to_euclidean_division_equations; lia.
  - apply Forall_cons_1 in B as [Hx B]. apply Forall_cons_1 in B as [Hy B].
    apply Forall_cons_1 in B as [Hz B]. cbn [encoder app]. rewrite decoder_group.
    rewrite !value_of_char_of by (Z.to_euclidean_division_equations; lia).
    rewrite IH by done. cbn [app].
    repeat f_equal; Z.to_euclidean_division_equations; lia.
Qed.

Lemma encoder_app a b :
  (length a mod 3 = 0)%nat -> encoder (a ++ b) = encoder a ++ encoder b.
Proof.
  induction a as [|x|x y|x y z a IH] using groups_ind; intros L; try done.
  cbn [encoder app]. rewrite IH; [done|].
  cbn [length] in L. revert L.
  replace (S (S (S (length a)))) with (length a + 1 * 3)%nat by lia.
  by rewrite Nat.Div0.mod_add.
Qed.

Lemma encoder_length b : length (encoder b) = ((length b * 4 + 2) / 3)%nat.
Proof.
  induction b as [|x|x y|x y z b IH] using groups_ind; try done.
  cbn [encoder]. rewrite length_app, IH. cbn [length].
  replace (S (S (S (length b))) * 4 + 2)%nat with (length b * 4 + 2 + 4 * 3)%nat
    by lia.
  rewrite Nat.div_add by lia. lia.
Qed.

Lemma encoder_no_pad b : Forall is_byte b -> 61 ∉ encoder b.
Proof.
  unfold is_byte. induction b as [|x|x y|x y z b IH] using groups_ind; intros B;
    cbn [encoder app];
    rewrite ?not_elem_of_cons; decompose_Forall_hyps;
    repeat split; try apply not_elem_of_nil; auto;
    apply not_eq_sym, char_of_no_pad; Z.to_euclidean_division_equations; lia.
Qed.
End Standard.

#[export] Instance standard : Codec := {|
  encoder := Standard.encoder;
  decoder := Standard.decoder;
  encoder_app := Standard.encoder_app;
  encoder_length := Standard.encoder_length;
  encoder_no_pad := Standard.encoder_no_pad;
  decoder_encoder := Standard.decoder_encoder;
|}.

(** "TWE=" *)
Example base64_example : Base64.encode [77; 97]%Z = Ok [84; 87; 69; 61]%Z.
Proof. by vm_compute. Qed.

Lemma base64_round_trip_witness :
  Forall is_byte [77; 97; 110; 255]%Z /\
  exists e, Base64.encode [77; 97; 110; 255]%Z = Ok e /\
    Base64.decode e = Ok [77; 97; 110; 255]%Z.
Proof.
  assert (Forall is_byte [77; 97; 110; 255]%Z) as B
    by (repeat constructor; unfold is_byte; lia).
  split; [exact B|]. exact (Base64.base64_round_trip _ B).
Defined.
