(* ===== verification/Addresses.v ===== *)
(** Addresses of blocks and nodes: memo/src/memo/model/Address.cc.

    32 bytes, the last of which tells mutable blocks from immutable ones; the
    attribute [mutable_block] is computed by the constructors. [wf] is what
    the public constructors establish. *)

From stdpp Require Import base tactics option list numbers countable.
From Stdlib Require Import ZArith Lia.
From S2P Require Import Prelude Buffers Streams.
Open Scope Z_scope.

Module Address.

Record t := mkAddress {
  value : bytes;
  mutable_block : bool;
}.

#[export] Instance t_eq_dec : EqDecision t.
Proof. solve_decision. Defined.
#[export] Program Instance t_countable : Countable t :=
  inj_countable' (fun a => (value a, mutable_block a))
    (fun x => mkAddress x.1 x.2) _.
Next Obligation. by intros []. Qed.

Definition address_size : nat := 32.
Definition flag_byte : nat := 31.
(** [flags::block_kind], [flags::mutable_block], [flags::immutable_block]. *)
Definition block_kind : Z := 1.
Definition flag_mutable : Z := 0.
Definition flag_immutable : Z := 1.

Definition flag_of (v : bytes) : Z := default 0 (v !! flag_byte).
Definition is_mutable (flags : Z) : bool := Z.land flags block_kind =? flag_mutable.

(** [Address(Value, Flags, bool)] and [Address(Value)]. *)
Definition with_flags (v : bytes) (flags : Z) (combine : bool) : t :=
  mkAddress (if combine then <[flag_byte := flags]> v else v) (is_mutable flags).
Definition make (v : bytes) : t := with_flags v (flag_of v) false.

(** [Address()], which is [Address::null]. *)
Definition null : t := mkAddress (replicate address_size 0) true.

(** [Address::random]: [buf] is what the generator gave. *)
Definition random (buf : bytes) : result buffer_error t :=
  if Nat.ltb (length buf) address_size then Throw BufferAssert
  else Ok (make (take address_size buf)).
Definition random_with (buf : bytes) (flags : Z) : result buffer_error t :=
  a ← random buf; Ok (with_flags (value a) flags true).

(** *** Comparison *)

Definition cmp (a b : t) : Z := memcmp (value a) (value b).
Definition eqb (a b : t) : bool := cmp a b =? 0.
Definition ltb (a b : t) : bool := cmp a b <? 0.
Definition is_set (a : t) : bool := negb (eqb a null).
Definition equal_unflagged (a b : t) : bool :=
  memcmp (take flag_byte (value a)) (take flag_byte (value b)) =? 0.

(** *** Printing *)

(** The three lines of the fixed format that shorten the view. *)
Fixpoint strip_zeros (rev_b : bytes) : bytes :=
  match rev_b with
  | c :: (_ :: _) as rest => if c =? 0 then strip_zeros rest else rev_b
  | _ => rev_b
  end.

Definition print (hexflag fixed : bool) (a : t) : bytes :=
  if fixed then
    [48; 120] ++
    Hexadecimal.encode (rev (strip_zeros (rev (take 4 (value a))))) ++
    (if flag_of (value a) =? 0 then []
     else Hexadecimal.encode [flag_of (value a)])
  else View.print hexflag false (value a).

(** *** Parsing *)

Definition is_space (c : Z) : bool := ((9 <=? c) && (c <=? 13)) || (c =? 32).

Definition hex_digit (c : Z) : option Z :=
  if (48 <=? c) && (c <=? 57) then Some (c - 48)
  else if (97 <=? c) && (c <=? 102) then Some (c - 87)
  else if (65 <=? c) && (c <=? 70) then Some (c - 55)
  else None.

Fixpoint hex_number (s : bytes) (acc : Z) : Z :=
  match s with
  | c :: s =>
      match hex_digit c with
      | Some d => hex_number s (acc * 16 + d)
      | None => acc
      end
  | [] => acc
  end.

Fixpoint skip_spaces (s : bytes) : bytes :=
  match s with
  | c :: s' => if is_space c then skip_spaces s' else s
  | [] => []
  end.

(** A sign, and the prefix of hexadecimal numbers. *)
Definition read_sign (s : bytes) : Z * bytes :=
  match s with
  | c :: s' =>
      if c =? 45 then (-1, s') else if c =? 43 then (1, s') else (1, s)
  | [] => (1, [])
  end.
Definition skip_0x (s : bytes) : bytes :=
  match s with
  | c0 :: c1 :: s' => if (c0 =? 48) && (c1 =? 120) then s' else s
  | _ => s
  end.

(** [strtol(s, nullptr, 16)]: 0 when there is no number. *)
Definition strtol16 (s : bytes) : Z :=
  let '(sign, s) := read_sign (skip_spaces s) in
  sign * hex_number (skip_0x s) 0.

(** The loop: [n] bytes of two characters; the result is stored in a byte. *)
Fixpoint parse_bytes (n : nat) (s : bytes) : option (bytes * bytes) :=
  match n with
  | O => Some ([], s)
  | S n =>
      match s with
      | c0 :: c1 :: s =>
          '(v, rest) ← parse_bytes n s;
          Some (wrap_u 8 (strtol16 [c0; c1]) :: v, rest)
      | _ => None
      end
  end.

Inductive error := InvalidAddress (repr : bytes).

Definition from_string (repr : bytes) : result error t :=
  let s := skip_0x repr in
  match parse_bytes address_size s with
  | Some (v, []) => Ok (make v)
  | _ => Throw (InvalidAddress repr)
  end.

(** *** Serialization *)

Definition to_buffer (a : t) : bytes := value a.
Definition of_buffer (b : bytes) : result error t :=
  match b with
  | [] => Ok null
  | _ =>
      if Nat.eqb (length b) address_size then Ok (make b)
      else Throw (InvalidAddress b)
  end.

(** *** Properties *)

Definition wf (a : t) : Prop :=
  length (value a) = address_size /\ Forall is_byte (value a) /\
  mutable_block a = is_mutable (flag_of (value a)).

#[export] Instance is_byte_dec b : Decision (is_byte b).
Proof. unfold is_byte. apply _. Defined.
#[export] Instance wf_dec a : Decision (wf a).
Proof. unfold wf. apply _. Defined.

Lemma make_wf v : length v = address_size -> Forall is_byte v -> wf (make v).
Proof. done. Qed.

Lemma make_value a : wf a -> make (value a) = a.
Proof. intros (_ & _ & E). destruct a. unfold make, with_flags. simpl in *.
       by rewrite E. Qed.

(** Two addresses are the same when their bytes are, and they are totally
    ordered. *)
Lemma eqb_eq a b : wf a -> wf b -> eqb a b = true <-> a = b.
Proof.
  intros Wa Wb. unfold eqb, cmp. rewrite Z.eqb_eq. split.
  - intros E. rewrite <- (make_value a Wa), <- (make_value b Wb). f_equal.
    apply memcmp_eq; [|done]. destruct Wa as [-> _], Wb as [-> _]. done.
  - intros ->. apply memcmp_refl.
Qed.

(** The flag given to the constructor is the one of the address: the kind of
    block can be told from the bytes alone, and the other bytes are kept. *)
Theorem flags_are_combined v flags :
  length v = address_size -> Forall is_byte v -> is_byte flags ->
  let a := with_flags v flags true in
  wf a /\ flag_of (value a) = flags /\
  mutable_block a = Z.even flags /\ equal_unflagged a (make v) = true.
Proof.
  intros L B F a. unfold a, with_flags, flag_of, equal_unflagged. cbn [value].
  assert (flag_byte < length v)%nat as Lt by (rewrite L; unfold flag_byte; vm_compute; lia).
  rewrite list_lookup_insert_eq by done. cbn [default from_option id mutable_block].
  split_and!; [|done| |].
  - split_and!; cbn [value mutable_block].
    + by rewrite length_insert.
    + apply Forall_insert; done.
    + unfold flag_of. by rewrite list_lookup_insert_eq.
  - unfold is_mutable, block_kind, flag_mutable.
    change 1 with (Z.ones 1). rewrite Z.land_ones by lia.
    change (2 ^ 1) with 2. rewrite Zmod_even. by destruct (Z.even flags).
  - cbn [make value with_flags]. rewrite take_insert_ge by lia.
    by rewrite memcmp_refl.
Qed.

Lemma encode_head c :
  is_byte c -> exists c0 c1, Hexadecimal.encode_byte c = [c0; c1] /\
    wrap_u 8 (strtol16 [c0; c1]) = c.
Proof.
  intros B. eexists _, _. split; [done|].
  assert (forallb (fun c =>
    wrap_u 8 (strtol16 (Hexadecimal.encode_byte c)) =? c)
    Hexadecimal.all_bytes = true) as A by by vm_compute.
  rewrite forallb_forall in A. apply Z.eqb_eq, A.
  by apply list_elem_of_In, Hexadecimal.all_bytes_spec.
Qed.

Lemma parse_encode v :
  Forall is_byte v ->
  parse_bytes (length v) (Hexadecimal.encode v) = Some (v, []).
Proof.
  induction 1 as [|c v B _ IH]; [done|].
  change (Hexadecimal.encode (c :: v))
    with (Hexadecimal.encode_byte c ++ Hexadecimal.encode v).
  destruct (encode_head c B) as (c0 & c1 & -> & E).
  cbn [parse_bytes length app]. rewrite IH. cbn. by rewrite E.
Qed.

Lemma read_back a : wf a -> from_string (print true false a) = Ok a.
Proof.
  intros W. pose proof W as (L & B & _). unfold from_string, print, View.print.
  cbn [andb View.prints_hex orb View.put app].
  change (skip_0x (48 :: 120 :: Hexadecimal.encode (value a)))
    with (Hexadecimal.encode (value a)).
  rewrite <- L, parse_encode by done. by rewrite make_value.
Qed.

(** The hexadecimal form of an address reads back as the address; it is "0x"
    and 64 characters. *)
Theorem from_string_print a :
  wf a -> from_string (print true false a) = Ok a /\
  length (print true false a) = 66%nat.
Proof.
  intros W. split; [by apply read_back|].
  unfold print, View.print. cbn [andb View.prints_hex orb View.put].
  rewrite length_app, Hexadecimal.length_encode. by destruct W as [-> _].
Qed.

Lemma parse_total n s :
  parse_bytes n s = None <-> (length s < 2 * n)%nat.
Proof.
  revert s. induction n as [|n IH]; intros s; cbn [parse_bytes].
  - split; [done|lia].
  - destruct s as [|c0 [|c1 s]]; cbn [length]; try (split; [lia|done]).
    destruct (parse_bytes n s) as [[v r]|] eqn:E; cbn; split; intros X.
    + done.
    + assert (parse_bytes n s = None) by (apply IH; lia). congruence.
    + apply IH in E. lia.
    + done.
Qed.

Lemma parse_rest n s v r :
  parse_bytes n s = Some (v, r) -> length v = n /\ (length s = 2 * n + length r)%nat.
Proof.
  revert s v r. induction n as [|n IH]; intros s v r; cbn [parse_bytes].
  - by intros [= <- <-].
  - destruct s as [|c0 [|c1 s]]; try done.
    destruct (parse_bytes n s) as [[v' r']|] eqn:E; cbn; [|done].
    intros [= <- <-]. destruct (IH _ _ _ E). simpl. lia.
Qed.

(** Reading an address only checks the number of characters: 64, after an
    optional 0x. Whatever they are, an address comes out. *)
Theorem from_string_checks_length repr :
  let s := skip_0x repr in
  (length s = 64%nat -> exists a, from_string repr = Ok a /\
     length (value a) = address_size) /\
  (length s <> 64%nat -> from_string repr = Throw (InvalidAddress repr)).
Proof.
  intros s. unfold from_string. fold s. split; intros L.
  - destruct (parse_bytes address_size s) as [[v r]|] eqn:E.
    + destruct (parse_rest _ _ _ _ E) as [Lv Lr].
      assert (length r = 0)%nat as Er by (unfold address_size in Lr; lia).
      apply nil_length_inv in Er as ->. eauto.
    + apply parse_total in E. unfold address_size in E. lia.
  - destruct (parse_bytes address_size s) as [[v [|c r]]|] eqn:E; try done.
    destruct (parse_rest _ _ _ _ E) as [_ Lr].
    unfold address_size in Lr. simpl in Lr. lia.
Qed.

Lemma of_buffer_value a : wf a -> of_buffer (to_buffer a) = Ok a.
Proof.
  intros W. pose proof W as (L & _ & _). unfold of_buffer, to_buffer.
  rewrite L. destruct (value a) eqn:E; [done|]. rewrite <- E.
  cbn [Nat.eqb]. by rewrite Nat.eqb_refl, make_value.
Qed.

(** An address goes through its serialized form unchanged, and the empty buffer
    stands for the null one. *)
Theorem of_buffer_to_buffer a :
  wf a -> of_buffer (to_buffer a) = Ok a /\ of_buffer [] = Ok null /\ wf null.
Proof.
  intros W. split_and!; [by apply of_buffer_value|done|].
  by apply (bool_decide_unpack _); vm_compute.
Qed.

Definition sample : t := make (Z.of_nat <$> seq 100 32).

Lemma sample_wf : wf sample.
Proof.
  apply make_wf; [done|]. apply Forall_fmap, Forall_forall. intros i Hi.
  apply in_seq in Hi. unfold is_byte. simpl. lia.
Qed.

Lemma flags_are_combined_witness :
  let a := with_flags (value sample) 1 true in
  wf a /\ flag_of (value a) = 1 /\ mutable_block a = Z.even 1 /\
  equal_unflagged a (make (value sample)) = true.
Proof.
  destruct sample_wf as (L & B & _).
  apply (flags_are_combined (value sample) 1 L B). unfold is_byte. lia.
Defined.

Lemma from_string_print_witness :
  wf sample /\ from_string (print true false sample) = Ok sample /\
  length (print true false sample) = 66%nat.
Proof.
  split; [exact sample_wf|]. exact (from_string_print sample sample_wf).
Defined.

(** "zz" 32 times. *)
Lemma from_string_checks_length_witness :
  exists a, from_string (replicate 64 122) = Ok a /\
    length (value a) = address_size.
Proof.
  destruct (from_string_checks_length (replicate 64 122)) as [A _].
  apply A. reflexivity.
Defined.

Lemma of_buffer_to_buffer_witness :
  wf sample /\ of_buffer (to_buffer sample) = Ok sample /\
  of_buffer [] = Ok null /\ wf null.
Proof.
  split; [exact sample_wf|]. exact (of_buffer_to_buffer sample sample_wf).
Defined.
End Address.

#[export] Existing Instances Address.t_eq_dec Address.t_countable
  Address.wf_dec.
