(* ===== verification/Binary.v ===== *)
(** The binary serialization: elle/src/elle/serialization/binary/
    SerializerOut.cc and SerializerIn.cc, with the collections, pairs and
    options of elle/src/elle/serialization/Serializer.hxx as these two classes
    serialize them.

    A number is written on one, two, three or nine bytes; everything else is
    made of numbers and raw bytes. [format] is what the [serialize] of a type
    promises to the types built on it: what is written reads back, and no byte
    of what follows is consumed. *)

From stdpp Require Import base tactics option list gmap.
From Stdlib Require Import ZArith Lia String.
From S2P Require Import Prelude Versions Buffers Streams Addresses.
Open Scope Z_scope.

(** ** Little-endian words *)

Section LittleEndian.

Fixpoint le_split (n : nat) (z : Z) : bytes :=
  match n with
  | O => []
  | S n' => wrap_u 8 z :: le_split n' (Z.shiftr z 8)
  end.

Fixpoint le_combine (l : bytes) : Z :=
  match l with
  | [] => 0
  | c :: l' => c + 256 * le_combine l'
  end.

Lemma length_le_split n z : List.length (le_split n z) = n.
Proof. revert z. induction n; intros z; simpl; auto. Qed.

Lemma le_combine_split n z :
  le_combine (le_split n z) = z mod 2 ^ (8 * Z.of_nat n).
Proof.
  revert z. induction n as [|n IH]; intros z.
  { simpl. by rewrite Z.mod_1_r. }
  cbn [le_split le_combine]. rewrite IH, Z.shiftr_div_pow2 by lia.
  unfold wrap_u. change (2 ^ 8) with 256.
  replace (2 ^ (8 * Z.of_nat (S n))) with (256 * 2 ^ (8 * Z.of_nat n)).
  2: { change 256 with (2 ^ 8). rewrite <- Z.pow_add_r by lia. f_equal. lia. }
  rewrite Z.rem_mul_r by lia. done.
Qed.

Lemma le_combine_app l l' :
  le_combine (l ++ l') =
  le_combine l + 2 ^ (8 * Z.of_nat (List.length l)) * le_combine l'.
Proof.
  induction l as [|c l IH]; [simpl; lia|].
  cbn [app le_combine List.length]. rewrite IH.
  replace (2 ^ (8 * Z.of_nat (S (List.length l))))
    with (2 ^ 8 * 2 ^ (8 * Z.of_nat (List.length l))).
  2: { rewrite <- Z.pow_add_r by lia. f_equal. lia. }
  change (2 ^ 8) with 256. lia.
Qed.

Lemma wrap_s_add w z k : 0 <= w -> wrap_s w (z + k * 2 ^ w) = wrap_s w z.
Proof.
  intros W. unfold wrap_s.
  replace (z + k * 2 ^ w + 2 ^ (w - 1)) with (z + 2 ^ (w - 1) + k * 2 ^ w) by lia.
  rewrite Z.mod_add; [done|]. pose proof (Z.pow_pos_nonneg 2 w). lia.
Qed.

Lemma le_split_bytes n z : Forall is_byte (le_split n z).
Proof.
  revert z. induction n; intros z; simpl; constructor; auto.
  unfold is_byte. apply (wrap_u_range 8). lia.
Qed.
End LittleEndian.

(** ** The serializers *)

Module Binary.

Inductive error :=
  | UnreadableMagic
  | WrongMagic (magic : Z)
  | EndOfStream                              (* while reading a number *)
  | Overflow (bits : Z) (over : bool) (value : Z)
  | ShortRead (expected got : Z)
  | BadAllocation                            (* Buffer::size of a negative int *)
  | TooManyValues (i : Z)                    (* to unpack for a pair *)
  | TooFewValues (i : Z)
  | ConversionError (repr : bytes).          (* of Serialize<T>::convert *)

#[export] Instance error_eq_dec : EqDecision error.
Proof. solve_decision. Defined.

(** A method of SerializerIn: the state is what is left of the stream. *)
Abbreviation input := (method bytes error).

(** *** Numbers *)

(** [SerializerOut::serialize_number]. Negating the least [int64_t]
    overflows, which gives it back on the machines the code runs on. *)
Definition serialize_number (n_ : Z) : bytes :=
  let neg := n_ <? 0 in
  let n := if neg then wrap_s 64 (- n_) else n_ in
  if n <=? 63 then
    [wrap_u 8 ((if neg then 128 else 0) + n)]
  else if n <=? 8191 then
    [wrap_u 8 ((if neg then 192 else 64) + Z.shiftr n 8); wrap_u 8 n]
  else if n <=? 1048575 then
    [wrap_u 8 ((if neg then 224 else 96) + Z.shiftr n 16);
     wrap_u 8 (Z.shiftr n 8); wrap_u 8 n]
  else
    (if neg then 255 else 127) :: le_split 8 n.

(** The static [get] of SerializerIn.cc. *)
Definition get_char : input Z :=
  s ← read;
  match s with
  | [] => throw EndOfStream
  | c :: s' => write s';; mret c
  end.

(** [istream::read]: what there is, up to [n] bytes. *)
Definition read_up_to (n : nat) : input bytes :=
  s ← read; write (drop n s);; mret (take n s).

Section Numbers.
(** What the 8 bytes of the variable the number is read into held before:
    nothing writes those a short read does not. *)
Context (stack : bytes).

(** [SerializerIn::serialize_number] *)
Definition deserialize_number : input Z :=
  c ← get_char;
  let negative := negb (Z.land c 128 =? 0) in
  value ←
    (if Z.land c 64 =? 0 then mret (Z.land c 63)
     else if Z.land c 32 =? 0 then
       c2 ← get_char; mret (Z.shiftl (Z.land c 31) 8 + c2)
     else if Z.land c 16 =? 0 then
       c2 ← get_char; c3 ← get_char;
       mret (Z.shiftl (Z.land c 15) 16 + Z.shiftl c2 8 + c3)
     else
       l ← read_up_to 8;
       mret (wrap_s 64 (le_combine (l ++ drop (List.length l) stack))));
  mret (if negative then wrap_s 64 (- value) else value).

(** [_serialize_int<T>], with the limits of [T]. *)
Definition deserialize_int (bits min max : Z) : input Z :=
  value ← deserialize_number;
  if max <? value then throw (Overflow bits true value)
  else if value <? min then throw (Overflow bits false value)
  else mret value.

(** An [int] initialized with a number: no check. *)
Definition to_int (n : Z) : Z := wrap_s 32 n.
End Numbers.

(** *** The magic byte *)

Definition write_magic : bytes := [0].

Definition check_magic : input unit :=
  l ← read_up_to 1;
  match l with
  | [magic] => if magic =? 0 then mret tt else throw (WrongMagic magic)
  | _ => throw UnreadableMagic
  end.

(** *** Formats *)

(** What serializing a type promises to the types made of it: a value that
    [fits] reads back from what is written for it, whatever follows. *)
Record format (A : Type) := mkFormat {
  fits : A -> Prop;
  put : A -> bytes;
  get : bytes -> input A;
  get_put : forall stack a rest,
    fits a -> get stack (put a ++ rest) = (Ok a, rest)
}.
Arguments mkFormat {A}.
Arguments fits {A}.
Arguments put {A}.
Arguments get {A}.
Arguments get_put {A}.

Section Laws.
Implicit Types (c n m : Z) (l rest : bytes).

Lemma read_up_to_app (k : nat) l rest :
  List.length l = k -> read_up_to k (l ++ rest) = (Ok l, rest).
Proof.
  intros <-. unfold read_up_to. rewrite bind_read. monad_unfold.
  by rewrite take_app_length, drop_app_length.
Qed.

Lemma get_char_cons c rest : get_char (c :: rest) = (Ok c, rest).
Proof. done. Qed.

(** A property of the naturals below [k], by computation. *)
Lemma below (k : nat) (p : Z -> bool) n :
  forallb p (Z.of_nat <$> seq 0 k) = true -> 0 <= n < Z.of_nat k -> p n = true.
Proof.
  intros A B. rewrite forallb_forall in A. apply A, list_elem_of_In.
  apply list_elem_of_fmap. exists (Z.to_nat n). rewrite elem_of_seq. lia.
Qed.

(** The first byte tells the sign, the coding and the high bits. *)
Definition one_byte (neg : bool) (hi : Z) : bool :=
  let c := wrap_u 8 ((if neg then 128 else 0) + hi) in
  Bool.eqb (negb (Z.land c 128 =? 0)) neg && (Z.land c 64 =? 0) &&
  (Z.land c 63 =? hi).
Definition two_bytes (neg : bool) (hi : Z) : bool :=
  let c := wrap_u 8 ((if neg then 192 else 64) + hi) in
  Bool.eqb (negb (Z.land c 128 =? 0)) neg && negb (Z.land c 64 =? 0) &&
  (Z.land c 32 =? 0) && (Z.land c 31 =? hi).
Definition three_bytes (neg : bool) (hi : Z) : bool :=
  let c := wrap_u 8 ((if neg then 224 else 96) + hi) in
  Bool.eqb (negb (Z.land c 128 =? 0)) neg && negb (Z.land c 64 =? 0) &&
  negb (Z.land c 32 =? 0) && (Z.land c 16 =? 0) && (Z.land c 15 =? hi).

Lemma headers (neg : bool) :
  forallb (one_byte neg) (Z.of_nat <$> seq 0 64) &&
  forallb (two_bytes neg) (Z.of_nat <$> seq 0 32) &&
  forallb (three_bytes neg) (Z.of_nat <$> seq 0 16) = true.
Proof. by destruct neg; vm_compute. Qed.

(** The number the bytes of [m] stand for, of absolute value [m]. *)
Definition signed (neg : bool) m : Z := if neg then - m else m.

Lemma signed_wrap (neg : bool) m : 0 <= m < 2 ^ 63 ->
  (if neg then wrap_s 64 (- m) else m) = signed neg m.
Proof. intros B. destruct neg; [|done]. simpl. apply wrap_s_id; lia. Qed.

(** What is written for [m], once the sign is known. *)
Definition serialize_magnitude (neg : bool) m : bytes :=
  if m <=? 63 then [wrap_u 8 ((if neg then 128 else 0) + m)]
  else if m <=? 8191 then
    [wrap_u 8 ((if neg then 192 else 64) + Z.shiftr m 8); wrap_u 8 m]
  else if m <=? 1048575 then
    [wrap_u 8 ((if neg then 224 else 96) + Z.shiftr m 16);
     wrap_u 8 (Z.shiftr m 8); wrap_u 8 m]
  else (if neg then 255 else 127) :: le_split 8 m.

Lemma shiftr_bound m (k hi : Z) : 0 <= k -> 0 <= m < hi * 2 ^ k -> 0 <= Z.shiftr m k < hi.
Proof.
  intros K B. rewrite Z.shiftr_div_pow2 by lia.
  split; [apply Z.div_pos; lia|apply Z.div_lt_upper_bound; lia].
Qed.

Lemma join8 m : Z.shiftl (Z.shiftr m 8) 8 + wrap_u 8 m = m.
Proof.
  rewrite Z.shiftl_mul_pow2, Z.shiftr_div_pow2 by lia. unfold wrap_u.
  change (2 ^ 8) with 256. pose proof (Z.div_mod m 256). lia.
Qed.

Lemma join16 m :
  Z.shiftl (Z.shiftr m 16) 16 + Z.shiftl (wrap_u 8 (Z.shiftr m 8)) 8 +
  wrap_u 8 m = m.
Proof.
  replace (Z.shiftr m 16) with (Z.shiftr (Z.shiftr m 8) 8)
    by (by rewrite Z.shiftr_shiftr).
  pose proof (join8 m) as J. pose proof (join8 (Z.shiftr m 8)) as K.
  replace (Z.shiftl (Z.shiftr (Z.shiftr m 8) 8) 16)
    with (Z.shiftl (Z.shiftl (Z.shiftr (Z.shiftr m 8) 8) 8) 8)
    by (by rewrite Z.shiftl_shiftl).
  rewrite !Z.shiftl_mul_pow2 in * by lia. lia.
Qed.

Lemma and_split (a b : bool) : a && b = true -> a = true /\ b = true.
Proof. apply andb_true_iff. Qed.

(** The first byte of [m] in each coding. *)
Lemma header_one (neg : bool) m : 0 <= m < 64 -> one_byte neg m = true.
Proof.
  intros B. pose proof (headers neg) as H. to_prop.
  eapply (below 64); [eassumption|lia].
Qed.
Lemma header_two (neg : bool) m : 0 <= m < 32 -> two_bytes neg m = true.
Proof.
  intros B. pose proof (headers neg) as H. to_prop.
  eapply (below 32); [eassumption|lia].
Qed.
Lemma header_three (neg : bool) m : 0 <= m < 16 -> three_bytes neg m = true.
Proof.
  intros B. pose proof (headers neg) as H. to_prop.
  eapply (below 16); [eassumption|lia].
Qed.

(** The first byte of the longest coding. *)
Lemma header_nine (neg : bool) :
  negb (Z.land (if neg then 255 else 127) 128 =? 0) = neg /\
  (Z.land (if neg then 255 else 127) 64 =? 0) = false /\
  (Z.land (if neg then 255 else 127) 32 =? 0) = false /\
  (Z.land (if neg then 255 else 127) 16 =? 0) = false.
Proof. by destruct neg. Qed.

(** The sign bit and the tests of the coding, from a [header] fact. *)
Ltac decode_header H :=
  unfold one_byte, two_bytes, three_bytes in H; cbv zeta in H;
  repeat match type of H with
  | (_ && _)%bool = true =>
      let H' := fresh "T" in apply and_split in H; destruct H as [H H']
  end;
  unfold deserialize_number;
  rewrite (bind_Ok _ _ _ _ _ (get_char_cons _ _));
  repeat match goal with
  | T : negb (_ =? _) = true |- _ =>
      apply negb_true_iff in T; rewrite T; clear T
  | T : (Z.land _ ?k =? 0) = true |- _ => rewrite T; clear T
  end;
  apply Bool.eqb_prop in H; rewrite H; clear H.

Lemma magnitude_round_trip stack (neg : bool) m rest : 0 <= m < 2 ^ 63 ->
  deserialize_number stack (serialize_magnitude neg m ++ rest) =
  (Ok (signed neg m), rest).
Proof.
  intros B. unfold serialize_magnitude.
  destruct (Z.leb_spec m 63).
  { pose proof (header_one neg m ltac:(lia)) as H1.
    cbn [app]. decode_header H1.
    apply Z.eqb_eq in T. rewrite T, bind_ret_l, signed_wrap by lia. done. }
  destruct (Z.leb_spec m 8191).
  { pose proof (shiftr_bound m 8 32 ltac:(lia) ltac:(lia)).
    pose proof (header_two neg (Z.shiftr m 8) ltac:(lia)) as H2.
    cbn [app]. decode_header H2. apply Z.eqb_eq in T. rewrite T.
    rewrite bind_assoc, (bind_Ok _ _ _ _ _ (get_char_cons _ _)), bind_ret_l.
    rewrite join8, signed_wrap by lia. done. }
  destruct (Z.leb_spec m 1048575).
  { pose proof (shiftr_bound m 16 16 ltac:(lia) ltac:(lia)).
    pose proof (header_three neg (Z.shiftr m 16) ltac:(lia)) as H3.
    cbn [app]. decode_header H3. apply Z.eqb_eq in T. rewrite T.
    rewrite bind_assoc, (bind_Ok _ _ _ _ _ (get_char_cons _ _)).
    rewrite bind_assoc, (bind_Ok _ _ _ _ _ (get_char_cons _ _)), bind_ret_l.
    rewrite join16, signed_wrap by lia. done. }
  unfold deserialize_number. rewrite <- app_comm_cons.
  rewrite (bind_Ok _ _ _ _ _ (get_char_cons _ _)).
  destruct (header_nine neg) as (-> & -> & -> & ->).
  rewrite bind_assoc.
  rewrite (bind_Ok _ _ _ _ _ (read_up_to_app 8 _ _ (length_le_split 8 m))).
  rewrite bind_ret_l, length_le_split,
    le_combine_app, length_le_split, le_combine_split.
  change (8 * Z.of_nat 8) with 64.
  rewrite (Z.mul_comm (2 ^ 64)), wrap_s_add, Z.mod_small by lia.
  rewrite (wrap_s_id 64 m), signed_wrap by lia. done.
Qed.

(** The absolute value of the number that is written: the least [int64_t]
    is its own opposite, which is below 63. *)
Lemma serialize_number_magnitude n : int64_range n -> n <> - 2 ^ 63 ->
  serialize_number n = serialize_magnitude (n <? 0) (Z.abs n).
Proof.
  intros [L U] D. unfold serialize_number, serialize_magnitude.
  assert ((if n <? 0 then wrap_s 64 (- n) else n) = Z.abs n) as ->; [|done].
  destruct (Z.ltb_spec n 0).
  - rewrite wrap_s_id by lia. lia.
  - lia.
Qed.

Lemma get_char_nil : get_char [] = (Throw EndOfStream, []).
Proof. done. Qed.

(** A number cut after [k] bytes. *)
Lemma magnitude_truncated stack (neg : bool) m (k : nat) : 0 <= m < 2 ^ 63 ->
  (k < List.length (serialize_magnitude neg m))%nat ->
  deserialize_number stack (take k (serialize_magnitude neg m)) =
    ((if bool_decide (k = 0%nat) || (m <=? 1048575) then Throw EndOfStream
      else Ok (let v := wrap_s 64 (le_combine
                 (take (k - 1) (le_split 8 m) ++ drop (k - 1) stack)) in
               if neg then wrap_s 64 (- v) else v)), []).
Proof.
  intros B K. destruct k as [|k]; [done|].
  rewrite bool_decide_eq_false_2 by done. cbn [orb].
  unfold serialize_magnitude in *. destruct (Z.leb_spec m 63); [simpl in K; lia|].
  destruct (Z.leb_spec m 8191).
  { pose proof (shiftr_bound m 8 32 ltac:(lia) ltac:(lia)).
    pose proof (header_two neg (Z.shiftr m 8) ltac:(lia)) as H2.
    simpl in K. assert (k = 0)%nat as -> by lia. cbn [take].
    decode_header H2. rewrite bind_assoc, (bind_Throw _ _ _ _ _ get_char_nil).
    by destruct (Z.leb_spec m 1048575); [|lia]. }
  destruct (Z.leb_spec m 1048575).
  { pose proof (shiftr_bound m 16 16 ltac:(lia) ltac:(lia)).
    pose proof (header_three neg (Z.shiftr m 16) ltac:(lia)) as H3.
    simpl in K. assert (k = 0 \/ k = 1)%nat as [-> | ->] by lia; cbn [take];
      decode_header H3; rewrite bind_assoc.
    - by rewrite (bind_Throw _ _ _ _ _ get_char_nil).
    - by rewrite (bind_Ok _ _ _ _ _ (get_char_cons _ _)). }
  cbn [take Nat.sub]. rewrite Nat.sub_0_r. unfold deserialize_number.
  rewrite (bind_Ok _ _ _ _ _ (get_char_cons _ _)).
  destruct (header_nine neg) as (-> & -> & -> & ->).
  cbn [List.length] in K. rewrite length_le_split in K. rewrite bind_assoc.
  assert (forall l : bytes, (List.length l <= 8)%nat ->
    read_up_to 8 l = (Ok l, [])) as R.
  { intros l L. unfold read_up_to. rewrite bind_read. monad_unfold.
    by rewrite take_ge, drop_ge by done. }
  rewrite (bind_Ok _ _ _ _ _ (R (take k (le_split 8 m))
    ltac:(rewrite length_take, length_le_split; lia))), bind_ret_l.
  rewrite length_take, length_le_split, Nat.min_l by lia. done.
Qed.

(** What reads back from the number [n]. *)
Definition read_back n : Z := if n =? - 2 ^ 63 then 0 else n.

Lemma number_read_back stack n rest : int64_range n ->
  deserialize_number stack (serialize_number n ++ rest) = (Ok (read_back n), rest).
Proof.
  intros B. unfold read_back. destruct (Z.eqb_spec n (- 2 ^ 63)) as [->|D]; [done|].
  rewrite serialize_number_magnitude, magnitude_round_trip; [|unfold int64_range in B; lia|done..].
  unfold signed. destruct (Z.ltb_spec n 0); do 2 f_equal; lia.
Qed.

End Laws.
(** *** Integers *)

(** [_serialize_number] of a signed or unsigned integer: it becomes an
    [int64_t]. *)
Definition put_number (n : Z) : bytes := serialize_number (wrap_s 64 n).

Lemma get_put_number stack n rest : int64_range n -> n <> - 2 ^ 63 ->
  deserialize_number stack (put_number n ++ rest) = (Ok n, rest).
Proof.
  intros [L U] D. unfold put_number. rewrite wrap_s_id by lia.
  rewrite number_read_back by (unfold int64_range; lia).
  unfold read_back. by rewrite (proj2 (Z.eqb_neq _ _) D).
Qed.

Program Definition int64 : format Z := {|
  fits n := int64_range n /\ n <> - 2 ^ 63;
  put := put_number;
  get stack := deserialize_number stack
|}.
Next Obligation. intros stack n rest [B D]. by apply get_put_number. Qed.

Program Definition uint64 : format Z := {|
  fits n := 0 <= n < 2 ^ 64 /\ n <> 2 ^ 63;
  put := put_number;
  get stack := value ← deserialize_number stack; mret (wrap_u 64 value)
|}.
Next Obligation.
  intros stack n rest [B D]. unfold put_number.
  pose proof (wrap_s_range 64 n ltac:(lia)) as R.
  rewrite (bind_Ok _ _ _ _ _ (number_read_back stack _ rest R)).
  unfold read_back. monad_unfold. f_equal. f_equal.
  unfold wrap_s, wrap_u in *. destruct (Z.eqb_spec ((n + 2 ^ (64 - 1)) mod 2 ^ 64 - 2 ^ (64 - 1)) (- 2 ^ 63)) as [E|E].
  - exfalso. change (64 - 1) with 63 in *.
    assert ((n + 2 ^ 63) mod 2 ^ 64 = 0) as Z0 by lia.
    apply Z.mod_divide in Z0; [|lia]. destruct Z0 as [k Z0]. lia.
  - change (64 - 1) with 63 in *. clear E R.
    rewrite Zminus_mod_idemp_l. replace (n + 2 ^ 63 - 2 ^ 63) with n by lia.
    apply Z.mod_small. lia.
Qed.

(** The types [_serialize_int] is instantiated with: the width, and
    [std::numeric_limits]. *)
Inductive int_type := I8 | U8 | I16 | U16 | I32 | U32.
Definition width (t : int_type) : Z :=
  match t with I8 | U8 => 8 | I16 | U16 => 16 | I32 | U32 => 32 end.
Definition least (t : int_type) : Z :=
  match t with I8 | I16 | I32 => - 2 ^ (width t - 1) | _ => 0 end.
Definition greatest (t : int_type) : Z :=
  match t with
  | I8 | I16 | I32 => 2 ^ (width t - 1) - 1
  | _ => 2 ^ width t - 1
  end.

Lemma limits_range t n : least t <= n <= greatest t ->
  int64_range n /\ n <> - 2 ^ 63.
Proof. unfold int64_range. destruct t; simpl; lia. Qed.

Definition get_int (t : int_type) (stack : bytes) : input Z :=
  deserialize_int stack (width t) (least t) (greatest t).

Program Definition int (t : int_type) : format Z := {|
  fits n := least t <= n <= greatest t;
  put := put_number;
  get := get_int t
|}.
Next Obligation.
  intros t stack n rest B. destruct (limits_range t n B) as [R D].
  destruct B as [L U].
  unfold get_int, deserialize_int.
  rewrite (bind_Ok _ _ _ _ _ (get_put_number stack n rest R D)).
  destruct (Z.ltb_spec (greatest t) n); [lia|].
  destruct (Z.ltb_spec n (least t)); [lia|done].
Qed.

(** *** Booleans, strings and buffers *)

Definition get_bool (stack : bytes) : input bool :=
  val ← get_int I32 stack;
  if negb (val =? 0) && negb (val =? 1) then throw (Overflow 1 true val)
  else mret (negb (val =? 0)).

Program Definition boolean : format bool := {|
  fits _ := True;
  put v := put_number (if v then 1 else 0);
  get := get_bool
|}.
Next Obligation.
  intros stack v rest _. unfold get_bool.
  rewrite (bind_Ok _ _ _ _ _ (get_put (int I32) stack (if v then 1 else 0) rest
    ltac:(destruct v; simpl; lia))).
  by destruct v.
Qed.

(** A std::string goes through a Buffer; both are their bytes. *)
Definition put_buffer (b : bytes) : bytes :=
  put_number (Z.of_nat (List.length b)) ++ b.
Definition get_buffer (stack : bytes) : input bytes :=
  n ← deserialize_number stack;
  let sz := to_int n in
  if sz <? 0 then throw BadAllocation
  else
    l ← read_up_to (Z.to_nat sz);
    if negb (Z.of_nat (List.length l) =? sz) then
      throw (ShortRead sz (Z.of_nat (List.length l)))
    else mret l.

Definition small {A} (l : list A) : Prop := Z.of_nat (List.length l) < 2 ^ 31.

(** A size that an [int] holds reads back. *)
Lemma get_put_size {A} stack (l : list A) rest : small l ->
  deserialize_number stack (put_number (Z.of_nat (List.length l)) ++ rest) =
  (Ok (Z.of_nat (List.length l)), rest).
Proof. unfold small. intros S. apply get_put_number; unfold int64_range; lia. Qed.

Lemma to_int_size {A} (l : list A) : small l ->
  to_int (Z.of_nat (List.length l)) = Z.of_nat (List.length l).
Proof. unfold small. intros S. apply wrap_s_id; lia. Qed.

Program Definition buffer : format bytes := {|
  fits := small;
  put := put_buffer;
  get := get_buffer
|}.
Next Obligation.
  intros stack b rest S. unfold put_buffer, get_buffer. rewrite <- app_assoc.
  rewrite (bind_Ok _ _ _ _ _ (get_put_size stack b _ S)), to_int_size by done.
  cbv zeta.
  destruct (Z.ltb_spec (Z.of_nat (List.length b)) 0); [lia|]. rewrite Nat2Z.id.
  rewrite (bind_Ok _ _ _ _ _ (read_up_to_app _ b rest eq_refl)).
  by rewrite Z.eqb_refl.
Qed.

(** *** Options, collections, pairs and dictionaries *)

Section Composite.
Context {A B : Type} (F : format A) (G : format B).

(** [_serialize_option] *)
Definition put_option (o : option A) : bytes :=
  put boolean (bool_decide (is_Some o)) ++ from_option (put F) [] o.
Definition get_option (stack : bytes) : input (option A) :=
  filled ← get boolean stack;
  if (filled : bool) then a ← get F stack; mret (Some a) else mret None.

Program Definition optional : format (option A) := {|
  fits o := from_option (fits F) True o;
  put := put_option;
  get := get_option
|}.
Next Obligation.
  intros stack o rest W. unfold put_option, get_option. rewrite <- app_assoc.
  rewrite (bind_Ok _ _ _ _ _ (get_put boolean stack _ _ I)).
  destruct o as [a|]; [|done]. simpl in W. cbn [from_option].
  change (bool_decide (is_Some (Some a))) with true. cbv beta iota.
  by rewrite (bind_Ok _ _ _ _ _ (get_put F stack a rest W)).
Qed.

(** The loop of [_serialize_array]: [count] times the element. *)
Fixpoint times (count : nat) (element : input A) : input (list A) :=
  match count with
  | O => mret []
  | S n => a ← element; l ← times n element; mret (a :: l)
  end.

(** [_serialize_collection]: the size is given as an [int]. *)
Definition put_vector (l : list A) : bytes :=
  put_number (wrap_s 32 (Z.of_nat (List.length l))) ++ mjoin (put F <$> l).
Definition get_vector (stack : bytes) : input (list A) :=
  n ← deserialize_number stack;
  times (Z.to_nat (to_int n)) (get F stack).

Lemma get_put_elements stack (l : list A) rest : Forall (fits F) l ->
  times (List.length l) (get F stack) (mjoin (put F <$> l) ++ rest) = (Ok l, rest).
Proof.
  induction 1 as [|a l W _ IH]; [done|].
  cbn [times List.length fmap list_fmap mjoin list_join]. rewrite <- app_assoc.
  rewrite (bind_Ok _ _ _ _ _ (get_put F stack a _ W)).
  by rewrite (bind_Ok _ _ _ _ _ IH).
Qed.

Program Definition vector : format (list A) := {|
  fits l := small l /\ Forall (fits F) l;
  put := put_vector;
  get := get_vector
|}.
Next Obligation.
  intros stack l rest [S W]. unfold put_vector, get_vector. rewrite <- app_assoc.
  change (wrap_s 32 ?n) with (to_int n). rewrite to_int_size by done.
  rewrite (bind_Ok _ _ _ _ _ (get_put_size stack l _ S)), to_int_size, Nat2Z.id by done.
  by apply get_put_elements.
Qed.

(** A pair is an array of two elements; any other number of them is
    refused, after it was read. *)
Definition put_pair (p : A * B) : bytes :=
  put_number 2 ++ put F p.1 ++ put G p.2.

Fixpoint unpack (stack : bytes) (count : nat) (i : Z)
    (first : option A) (second : option B) : input (A * B) :=
  match count with
  | O =>
      match first, second with
      | Some a, Some b => mret (a, b)
      | _, _ => throw (TooFewValues i)
      end
  | S n =>
      if i =? 0 then a ← get F stack; unpack stack n (i + 1) (Some a) second
      else if i =? 1 then b ← get G stack; unpack stack n (i + 1) first (Some b)
      else throw (TooManyValues i)
  end.
Definition get_pair (stack : bytes) : input (A * B) :=
  n ← deserialize_number stack;
  unpack stack (Z.to_nat (to_int n)) 0 None None.

Program Definition couple : format (A * B) := {|
  fits p := fits F p.1 /\ fits G p.2;
  put := put_pair;
  get := get_pair
|}.
Next Obligation.
  intros stack [a b] rest [W V]. simpl in W, V.
  unfold put_pair, get_pair. rewrite <- !app_assoc.
  erewrite bind_Ok by (apply get_put_number; unfold int64_range; lia).
  change (Z.to_nat (to_int 2)) with 2%nat. cbn [unpack Z.eqb].
  rewrite (bind_Ok _ _ _ _ _ (get_put F stack a _ W)).
  change (0 + 1 =? 0) with false. change (0 + 1 =? 1) with true. cbv iota.
  by rewrite (bind_Ok _ _ _ _ _ (get_put G stack b _ V)).
Qed.

(** The members of a class, one [serialize] after the other: their names are
    not written. *)
Program Definition members : format (A * B) := {|
  fits p := fits F p.1 /\ fits G p.2;
  put p := put F p.1 ++ put G p.2;
  get stack := a ← get F stack; b ← get G stack; mret (a, b)
|}.
Next Obligation.
  intros stack [a b] rest [W V]. simpl in W, V. rewrite <- app_assoc.
  rewrite (bind_Ok _ _ _ _ _ (get_put F stack a _ W)).
  by rewrite (bind_Ok _ _ _ _ _ (get_put G stack b _ V)).
Qed.
End Composite.

(** *** Dictionaries *)

Section Dictionary.
(** The order a map is iterated in, of which nothing is assumed: it is
    sorted for a std::map, arbitrary for a std::unordered_map. *)
Context {A : Type} (order : gmap bytes A -> list (bytes * A)).
Hypothesis order_perm : forall m, order m ≡ₚ map_to_list m.
Context (F : format A).

(** [_serialize_dict_key] on every pair. *)
Definition put_entry (kv : bytes * A) : bytes := put buffer kv.1 ++ put F kv.2.
Definition put_dict (m : gmap bytes A) : bytes :=
  put_number (wrap_s 32 (Z.of_nat (size m))) ++ mjoin (put_entry <$> order m).

(** [map.insert], which keeps the value of a key that is there already. *)
Definition insert_new (k : bytes) (a : A) (m : gmap bytes A) : gmap bytes A :=
  if decide (is_Some (m !! k)) then m else <[k := a]> m.

(** [_deserialize_dict_key] *)
Fixpoint get_entries (stack : bytes) (count : nat) (m : gmap bytes A) :
    input (gmap bytes A) :=
  match count with
  | O => mret m
  | S n =>
      key ← get buffer stack;
      value ← get F stack;
      get_entries stack n (insert_new key value m)
  end.
Definition get_dict (stack : bytes) : input (gmap bytes A) :=
  n ← deserialize_number stack;
  get_entries stack (Z.to_nat (to_int n)) ∅.

Definition entry_fits (kv : bytes * A) : Prop := small kv.1 /\ fits F kv.2.

Lemma get_put_entries stack l m rest :
  Forall entry_fits l -> NoDup l.*1 -> (forall k, k ∈ l.*1 -> m !! k = None) ->
  get_entries stack (List.length l) m (mjoin (put_entry <$> l) ++ rest) =
  (Ok (list_to_map l ∪ m), rest).
Proof.
  intros W. revert m. induction W as [|[k a] l [S W] _ IH]; intros m D U.
  { cbn. by rewrite (left_id_L ∅ (∪)). }
  cbn [get_entries List.length fmap list_fmap mjoin list_join].
  unfold put_entry at 1. rewrite <- !app_assoc. cbn [fst snd].
  rewrite (bind_Ok _ _ _ _ _ (get_put buffer stack k _ S)).
  rewrite (bind_Ok _ _ _ _ _ (get_put F stack a _ W)).
  cbn [fmap list_fmap fst] in D, U. apply NoDup_cons in D as [N D].
  unfold insert_new. rewrite (U k) by set_solver.
  rewrite decide_False by (by intros [? ?]). rewrite IH; [|done|].
  - rewrite list_to_map_cons, <- insert_union_l, insert_union_r; [done|].
    by apply not_elem_of_list_to_map.
  - intros k' I. rewrite lookup_insert_ne by (intros ->; done). apply U. set_solver.
Qed.

Lemma order_keys m : NoDup (order m).*1.
Proof. rewrite order_perm. apply NoDup_fst_map_to_list. Qed.

Lemma order_length m : List.length (order m) = size m.
Proof. rewrite order_perm. apply length_map_to_list. Qed.

Lemma order_map m : list_to_map (order m) = m.
Proof.
  rewrite (list_to_map_proper _ (map_to_list m)).
  - apply list_to_map_to_list.
  - apply order_keys.
  - apply order_perm.
Qed.

Program Definition dictionary : format (gmap bytes A) := {|
  fits m := Z.of_nat (size m) < 2 ^ 31 /\ Forall entry_fits (order m);
  put := put_dict;
  get := get_dict
|}.
Next Obligation.
  intros stack m rest [S W]. unfold put_dict, get_dict. rewrite <- app_assoc.
  rewrite <- order_length in *. change (wrap_s 32 ?n) with (to_int n).
  assert (small (order m)) as S' by done. rewrite to_int_size by done.
  rewrite (bind_Ok _ _ _ _ _ (get_put_size stack (order m) _ S')).
  rewrite to_int_size, Nat2Z.id by done.
  rewrite get_put_entries, order_map, (right_id_L ∅ (∪));
    [done|done|apply order_keys|].
  intros k _. apply lookup_empty.
Qed.
End Dictionary.

(** *** Conversions *)

Section Converted.
Context {A B : Type} (F : format B).
Context (P : A -> Prop) (there : A -> B) (back : B -> result error A).
Hypothesis back_there : forall a, P a -> fits F (there a) /\ back (there a) = Ok a.

(** A type that is serialized as another one. *)
Program Definition converted : format A := {|
  fits := P;
  put a := put F (there a);
  get stack := b ← get F stack; lift (back b)
|}.
Next Obligation.
  intros stack a rest W. destruct (back_there a W) as [V E].
  rewrite (bind_Ok _ _ _ _ _ (get_put F stack (there a) rest V)). monad_unfold.
  by rewrite E.
Qed.
End Converted.

(** [Version::serialize], when the format is not text. *)
Definition version_members (v : Version.t) : Z * (Z * Z) :=
  (Version.major v, (Version.minor v, Version.subminor v)).
Definition version_of (m : Z * (Z * Z)) : result error Version.t :=
  Ok (Version.mkVersion m.1 m.2.1 m.2.2).

Program Definition version : format Version.t :=
  converted (members (int U8) (members (int U8) (int U8)))
    Version.wf version_members version_of _.
Next Obligation.
  intros [ma mi su] (H1 & H2 & H3). split; [|done].
  cbn in *. unfold is_byte in *. lia.
Qed.

(** [Serialize<Address>::convert] *)
Definition address_of (b : bytes) : result error Address.t :=
  match Address.of_buffer b with
  | Ok a => Ok a
  | Throw (Address.InvalidAddress repr) => Throw (ConversionError repr)
  end.

Program Definition address : format Address.t :=
  converted buffer Address.wf Address.to_buffer address_of _.
Next Obligation.
  intros a W. split.
  - destruct W as (L & _). simpl. unfold small, Address.to_buffer. rewrite L. reflexivity.
  - unfold address_of. by rewrite Address.of_buffer_value.
Qed.

(** *** Every type *)

Section Types.
Context (order : forall A, gmap bytes A -> list (bytes * A)).
Hypothesis order_perm : forall A (m : gmap bytes A), order A m ≡ₚ map_to_list m.

(** The types the serializers accept, with elle::Version and Address for the
    classes with a [serialize] method or a conversion. *)
Inductive ty :=
  | TInt64 | TUInt64 | TInt (t : int_type) | TBool | TBuffer
  | TOption (t : ty) | TVector (t : ty) | TPair (t u : ty) | TDict (t : ty)
  | TMembers (t u : ty) | TVersion | TAddress.

Fixpoint denote (t : ty) : Type :=
  match t with
  | TInt64 | TUInt64 | TInt _ => Z
  | TBool => bool
  | TBuffer => bytes
  | TOption t => option (denote t)
  | TVector t => list (denote t)
  | TPair t u | TMembers t u => denote t * denote u
  | TDict t => gmap bytes (denote t)
  | TVersion => Version.t
  | TAddress => Address.t
  end.

Fixpoint format_of (t : ty) : format (denote t) :=
  match t with
  | TInt64 => int64
  | TUInt64 => uint64
  | TInt i => int i
  | TBool => boolean
  | TBuffer => buffer
  | TOption t => optional (format_of t)
  | TVector t => vector (format_of t)
  | TPair t u => couple (format_of t) (format_of u)
  | TDict t => dictionary (order (denote t)) (order_perm (denote t)) (format_of t)
  | TMembers t u => members (format_of t) (format_of u)
  | TVersion => version
  | TAddress => address
  end.

(** A whole document: the magic byte and the object, without the versions of
    the types. *)
Definition serialize (t : ty) (v : denote t) : bytes :=
  write_magic ++ put (format_of t) v.
Definition deserialize (t : ty) (stack : bytes) : input (denote t) :=
  check_magic;; get (format_of t) stack.

(** The values of each type that read back: buffers, lists and dictionaries
    have a size that an [int] holds. *)
Fixpoint representable (t : ty) : denote t -> Prop :=
  match t with
  | TInt64 => fun n => - 2 ^ 63 < n < 2 ^ 63
  | TUInt64 => fun n => 0 <= n < 2 ^ 64 /\ n <> 2 ^ 63
  | TInt i => fun n => least i <= n <= greatest i
  | TBool => fun _ => True
  | TBuffer => fun b => Z.of_nat (List.length b) < 2 ^ 31
  | TOption t => fun o => forall x, o = Some x -> representable t x
  | TVector t => fun l =>
      Z.of_nat (List.length l) < 2 ^ 31 /\ forall x, x ∈ l -> representable t x
  | TPair t u | TMembers t u => fun p => representable t p.1 /\ representable u p.2
  | TDict t => fun m =>
      Z.of_nat (size m) < 2 ^ 31 /\
      forall k x, m !! k = Some x -> Z.of_nat (List.length k) < 2 ^ 31 /\ representable t x
  | TVersion => Version.wf
  | TAddress => Address.wf
  end.

Lemma representable_fits t (v : denote t) : representable t v -> fits (format_of t) v.
Proof.
  revert v. induction t as [| |i| | |t IH|t IH|t IHt u IHu|t IH|t IHt u IHu| |];
    intros v; cbn [representable format_of]; try done.
  - intros B. split; [unfold int64_range|]; lia.
  - intros R. destruct v as [x|]; [|done]. by apply IH, R.
  - intros [S R]. split; [done|]. apply Forall_forall. intros x X. by apply IH, R.
  - intros [R1 R2]. split; [by apply IHt|by apply IHu].
  - intros [S R]. split; [done|]. apply Forall_forall. intros [k x] X.
    assert ((v : gmap bytes (denote t)) !! k = Some x) as L.
    { apply elem_of_map_to_list. by rewrite <- (order_perm _ v). }
    destruct (R k x L) as [Sk Rx]. split; [done|]. by apply IH.
  - intros [R1 R2]. split; [by apply IHt|by apply IHu].
Qed.

(** C36. What is serialized reads back, whatever its type among those above and whatever
    follows it, which is left in the stream; so two values with a common encoding, or one
    that begins the other's, are the same. The values are those of their types: integers
    in their range, but for the least 64-bit integer and the unsigned 2^63, which both
    read back as 0, versions of three bytes and addresses of 32, and buffers, lists and
    dictionaries of less than 2^31 elements. *)
Theorem binary_round_trip (t : ty) (v : denote t) stack rest :
  representable t v ->
  deserialize t stack (serialize t v ++ rest) = (Ok v, rest) /\
  (forall v' rest', representable t v' ->
    serialize t v ++ rest = serialize t v' ++ rest' -> v = v' /\ rest = rest') /\
  deserialize TInt64 stack (serialize TInt64 (- 2 ^ 63) ++ rest) = (Ok 0, rest) /\
  deserialize TUInt64 stack (serialize TUInt64 (2 ^ 63) ++ rest) = (Ok 0, rest).
Proof.
  intros W.
  assert (forall u r, representable t u ->
    deserialize t stack (serialize t u ++ r) = (Ok u, r)) as R.
  { intros u r V%representable_fits. unfold deserialize, serialize.
    exact (get_put (format_of t) stack u r V). }
  split; [by apply R|]. split.
  - intros v' rest' V E. pose proof (R v rest W) as R1. rewrite E, (R v' rest' V) in R1.
    by simplify_eq.
  - pose proof (number_read_back stack (- 2 ^ 63) rest ltac:(by unfold int64_range)) as N.
    unfold deserialize, serialize. split.
    + exact N.
    + cbn [denote format_of get put uint64 int64]. unfold put_number.
      change (wrap_s 64 (2 ^ 63)) with (- 2 ^ 63).
      change ((value ← deserialize_number stack; mret (wrap_u 64 value))
        (serialize_number (- 2 ^ 63) ++ rest) = (Ok 0, rest)).
      by rewrite (bind_Ok _ _ _ _ _ N).
Qed.
End Types.

(** *** Numbers *)

(** Every number but the least one reads back, and is written on as few
    bytes as its size allows: one below 64, two below 8192, three below
    1048576, nine otherwise. The least [int64_t] reads back as zero. *)
Theorem number_round_trip stack n rest : int64_range n ->
  deserialize_number stack (serialize_number n ++ rest) =
    (Ok (if n =? - 2 ^ 63 then 0 else n), rest) /\
  Forall is_byte (serialize_number n) /\
  (n <> - 2 ^ 63 ->
   Z.of_nat (List.length (serialize_number n)) =
   if Z.abs n <=? 63 then 1 else if Z.abs n <=? 8191 then 2
   else if Z.abs n <=? 1048575 then 3 else 9).
Proof.
  intros B. split; [by apply number_read_back|].
  destruct (decide (n = - 2 ^ 63)) as [->|D].
  { split; [|done]. by apply (bool_decide_unpack _); vm_compute. }
  rewrite serialize_number_magnitude by done. unfold serialize_magnitude. split.
  - repeat case_match; repeat constructor; try (apply (wrap_u_range 8); lia);
      try (by unfold is_byte); apply (le_split_bytes 8).
  - intros _. repeat case_match; done.
Qed.

(** An integer that is read as another type than it was written keeps its
    value or is refused, with its value. Sizes are not: they lose their high
    bits, so that an array of 2^32 elements reads as an empty one and what
    follows reads as garbage. *)
Theorem narrowing_is_checked (t : int_type) stack n rest :
  int64_range n -> n <> - 2 ^ 63 ->
  get_int t stack (put_number n ++ rest) =
    ((if (least t <=? n) && (n <=? greatest t) then Ok n
      else Throw (Overflow (width t) (greatest t <? n) n)), rest) /\
  forall A (F : format A),
    get_vector F stack (put_number (2 ^ 32) ++ rest) = (Ok [], rest).
Proof.
  intros B D. split.
  - unfold get_int, deserialize_int.
    rewrite (bind_Ok _ _ _ _ _ (get_put_number stack n rest B D)).
    assert (least t <= greatest t) by (by destruct t).
    destruct (Z.ltb_spec (greatest t) n), (Z.leb_spec n (greatest t)),
      (Z.leb_spec (least t) n), (Z.ltb_spec n (least t)); try lia; done.
  - intros A F. unfold get_vector.
    erewrite bind_Ok by (apply get_put_number; unfold int64_range; lia). done.
Qed.

(** A number cut short is refused, unless it is written on nine bytes and
    one at least is there: the missing ones are then what the memory held, so
    that a value is made up of which the sender wrote only the low bytes. *)
Theorem truncated_number stack n (k : nat) :
  int64_range n -> n <> - 2 ^ 63 ->
  (k < List.length (serialize_number n))%nat ->
  deserialize_number stack (take k (serialize_number n)) =
    ((if bool_decide (k = 0%nat) || (Z.abs n <=? 1048575) then Throw EndOfStream
      else Ok (let v := wrap_s 64 (le_combine
                 (take (k - 1) (le_split 8 (Z.abs n)) ++ drop (k - 1) stack)) in
               if n <? 0 then wrap_s 64 (- v) else v)), []).
Proof.
  intros B D. rewrite serialize_number_magnitude by done.
  apply magnitude_truncated. unfold int64_range in B. lia.
Qed.

(** *** On concrete data *)

(** A sorted map, as std::map iterates it, is one order among others. *)
Definition any_order (A : Type) (m : gmap bytes A) : list (bytes * A) := map_to_list m.
Lemma any_order_perm A (m : gmap bytes A) : any_order A m ≡ₚ map_to_list m.
Proof. done. Qed.

Definition document : ty :=
  TMembers TVersion (TVector (TPair TBuffer (TOption (TInt I16)))).
Definition a_document : denote document :=
  (Version.mkVersion 0 3 0, [([104; 105], Some (-700)); ([], None)]).

Lemma binary_round_trip_witness :
  representable document a_document /\
  deserialize any_order any_order_perm document []
    (serialize any_order any_order_perm document a_document ++ [9; 9]) =
    (Ok a_document, [9; 9]).
Proof.
  assert (representable document a_document) as W.
  { split; [by apply (bool_decide_unpack _); vm_compute|]. split; [done|].
    intros x [->|[->|[]%not_elem_of_nil]%elem_of_cons]%elem_of_cons;
      (split; [done|]); intros y [= <-]; by cbn. }
  split; [exact W|].
  exact (proj1 (binary_round_trip any_order any_order_perm document a_document
    [] [9; 9] W)).
Defined.

Lemma number_round_trip_witness :
  int64_range (- 8192) /\
  deserialize_number [] (serialize_number (- 8192) ++ [7]) = (Ok (- 8192), [7]) /\
  serialize_number (- 8192) = [224; 32; 0].
Proof.
  assert (int64_range (- 8192)) as R by (unfold int64_range; lia).
  split; [exact R|]. split; [exact (proj1 (number_round_trip [] (- 8192) [7] R))|done].
Defined.

Lemma narrowing_is_checked_witness :
  get_int U8 [] (put_number 256 ++ [7]) = (Throw (Overflow 8 true 256), [7]).
Proof.
  exact (proj1 (narrowing_is_checked U8 [] 256 [7] ltac:(unfold int64_range; lia)
    ltac:(lia))).
Defined.

Lemma truncated_number_witness :
  deserialize_number [1; 1; 1; 1; 1; 1; 1; 1] (take 4 (serialize_number 1048576)) =
    (Ok 72340172839059456, []).
Proof.
  exact (truncated_number [1; 1; 1; 1; 1; 1; 1; 1] 1048576 4
    ltac:(unfold int64_range; lia) ltac:(lia) ltac:(vm_compute; lia)).
Defined.

End Binary.

#[export] Existing Instances Binary.error_eq_dec.
