(* ===== verification/Protocol.v ===== *)
(** The packets of a connection: elle/src/elle/protocol/Serializer.cc and the
    integers of elle/src/elle/protocol/Stream.cc.

    A connection is the bytes still to come from the peer and the bytes sent
    to it. Coroutines only interleave where the code yields: what other
    coroutines do while a packet is written is the list of what happened after
    each of its chunks, and whether a packet is being written is a field of
    the state the reader runs in. *)

From stdpp Require Import base tactics option list gmap.
From Stdlib Require Import ZArith Lia.
From S2P Require Import Prelude Versions Buffers Streams Addresses Binary.
Open Scope Z_scope.

Module Protocol.

Inductive error :=
  | EOS
  | NumberError (e : Binary.error)
  | UnexpectedUint32 (n : Z)
  | ChecksumError
  | InterruptionError
  | InvalidControl (c : Z)
  | StreamBroken.

#[export] Instance error_eq_dec : EqDecision error.
Proof. solve_decision. Defined.

Definition v030 : Version.t := Version.mkVersion 0 3 0.
Definition v020 : Version.t := Version.mkVersion 0 2 0.

(** *** Integers *)

Section Integers.
Context (stack : bytes).

(** [htonl], as the bytes it leaves in memory. *)
Definition network_order (i : Z) : bytes := rev (le_split 4 i).
Definition host_order (l : bytes) : Z := le_combine (rev l).

(** [Stream::uint32_put] on a stream and on a buffer write the same bytes. *)
Definition uint32_put (v : Version.t) (i : Z) : bytes :=
  if Version.geb v v030 then Binary.serialize_number (wrap_u 32 i)
  else network_order (wrap_u 32 i).

Abbreviation input := (method bytes error).

(** A number of the binary serialization, read from the connection. *)
Definition read_number : input Z := fun s =>
  match Binary.deserialize_number stack s with
  | (Ok n, s') => (Ok n, s')
  | (Throw e, s') => (Throw (NumberError e), s')
  end.

(** What the connection brings, [n] bytes of it: the loop of [read] gives up
    at the end of the stream. *)
Definition read_bytes (n : nat) : input bytes :=
  s ← read;
  if Nat.ltb (length s) n then write [];; throw EOS
  else write (drop n s);; mret (take n s).

(** [Stream::uint32_get] on a stream. *)
Definition uint32_get (v : Version.t) : input Z :=
  if Version.geb v v030 then
    res ← read_number;
    if (res <? 0) || (2 ^ 32 - 1 <? res) then throw (UnexpectedUint32 res)
    else mret res
  else
    l ← read_bytes 4;
    mret (host_order l).

(** The static [read] of Serializer.cc: a size and as many bytes. *)
Definition read_sized (v : Version.t) : input bytes :=
  size ← uint32_get v;
  read_bytes (Z.to_nat size).

(** The static [write], with its size. *)
Definition write_sized (v : Version.t) (content : bytes) : bytes :=
  uint32_put v (Z.of_nat (length content)) ++ content.
End Integers.

(** *** Control bytes *)

Inductive control := keep_going | interrupt | message | ping | pong.
Definition control_byte (c : control) : Z :=
  match c with
  | keep_going => 0 | interrupt => 1 | message => 2 | ping => 3 | pong => 4
  end.

(** Serializer::Impl, with the two directions of its stream. The timers of
    the pings that were not answered yet are counted. *)
Record t := mkImpl {
  version : Version.t;
  chunk_size : nat;
  checksum : bool;
  broken : bool;
  pings : nat;
  pongs : nat;
  ping_timers : nat;
  lock_write : bool;
  inp : bytes;
  out : bytes
}.

Definition set_broken (s : t) : t :=
  mkImpl (version s) (chunk_size s) (checksum s) true (pings s) (pongs s)
    (ping_timers s) (lock_write s) (inp s) (out s).
Definition set_debts (pi po : nat) (s : t) : t :=
  mkImpl (version s) (chunk_size s) (checksum s) (broken s) pi po
    (ping_timers s) (lock_write s) (inp s) (out s).
Definition set_timers (n : nat) (s : t) : t :=
  mkImpl (version s) (chunk_size s) (checksum s) (broken s) (pings s) (pongs s)
    n (lock_write s) (inp s) (out s).
Definition set_inp (l : bytes) (s : t) : t :=
  mkImpl (version s) (chunk_size s) (checksum s) (broken s) (pings s) (pongs s)
    (ping_timers s) (lock_write s) l (out s).
Definition send (l : bytes) (s : t) : t :=
  mkImpl (version s) (chunk_size s) (checksum s) (broken s) (pings s) (pongs s)
    (ping_timers s) (lock_write s) (inp s) (out s ++ l).

Abbreviation impl := (method t error).

Section Impl.
Context (stack : bytes).
(** elle::cryptography::hash with sha1. *)
Context (compute_checksum : bytes -> bytes).

Definition on_input {A} (m : method bytes error A) : impl A :=
  fun s => let (r, l) := m (inp s) in (r, set_inp l s).

(** [write_control] of a ping or a pong, which nothing precedes. *)
Definition write_byte (c : control) : impl unit := modify (send [control_byte c]).

(** [write_pings_pongs]: each loop writes a byte for each ping or pong that
    is owed; flushing sends nothing more. *)
Definition write_pings_pongs : impl unit :=
  s ← read;
  modify (send (replicate (pongs s) (control_byte pong) ++
                replicate (pings s) (control_byte ping)));;
  modify (set_debts 0 0).

Definition write_control (c : control) : impl unit :=
  match c with
  | ping | pong => write_byte c
  | _ => write_pings_pongs;; write_byte c
  end.

(** [ping], the handler of the timer. *)
Definition ping_peer : impl unit :=
  modify (fun s => set_debts (S (pings s)) (pongs s) s);;
  s ← read;
  when (negb (lock_write s)) write_pings_pongs;;
  modify (fun s => set_timers (S (ping_timers s)) s).

Definition pinged : impl unit :=
  modify (fun s => set_debts (pings s) (S (pongs s)) s);;
  s ← read;
  when (negb (lock_write s)) write_pings_pongs.

(** *** Writing *)

(** What happened while the writer was suspended after a chunk: the pings
    that became due, those that were received, and whether it was asked to
    terminate. *)
Record pause := mkPause { due : nat; received : nat; terminated : bool }.
Definition no_pause : pause := mkPause 0 0 false.

Definition suspended (p : pause) : impl unit :=
  modify (fun s => set_debts (pings s + due p) (pongs s + received p) s).

Definition take_pause (ps : list pause) : pause * list pause :=
  match ps with [] => (no_pause, []) | p :: ps' => (p, ps') end.

(** The loop that sends what is left of a packet after its first chunk, in
    chunks of [k] bytes, a control byte before each. The answer is whether
    the packet was sent completely: the writer that is terminated before that
    says so to the peer. *)
Fixpoint send_rest (fuel : nat) (k : nat) (left : bytes) (stop : bool)
    (ps : list pause) : partial t error bool :=
  match fuel with
  | O => no_fuel
  | S fuel' =>
      if stop then
        if Nat.ltb 0 (length left) then
          run_once (write_control interrupt;; write_pings_pongs);; mret false
        else mret true
      else if Nat.ltb 0 (length left) then
        let (p, ps') := take_pause ps in
        run_once (
          write_control keep_going;;
          modify (send (take k left));;
          suspended p;;
          when (negb (terminated p)) write_pings_pongs);;
        send_rest fuel' k (drop k left) (terminated p) ps'
      else mret true
  end.

(** [_write]. Termination is delivered once the section that must not be
    interrupted is left, before the flush; the exception then goes on. *)
Definition _write (fuel : nat) (packet : bytes) (ps : list pause) :
    partial t error bool :=
  s ← run_once read;
  let v := version s in
  run_once (when (Version.geb v v030) (write_control keep_going));;
  run_once (when (checksum s) (modify (send (write_sized v (compute_checksum packet)))));;
  if Version.geb v v020 then
    let (p, ps') := take_pause ps in
    run_once (
      modify (send (uint32_put v (Z.of_nat (length packet))));;
      modify (send (take (chunk_size s) packet));;
      suspended p);;
    send_rest fuel (chunk_size s) (drop (chunk_size s) packet) (terminated p) ps'
  else
    run_once (modify (send (write_sized v packet)));;
    mret true.

(** *** Reading *)

(** [read_control]: a control byte above the greatest one is refused, where
    a char is signed: 128 and above pass for negative, and are skipped by the
    switch, which has no case for them. *)
Fixpoint read_control (fuel : nat) : partial t error bool :=
  match fuel with
  | O => no_fuel
  | S fuel' =>
      s ← run_once read;
      match inp s with
      | [] => run_once (throw EOS)
      | c :: l =>
          run_once (modify (set_inp l));;
          if control_byte pong <? wrap_s 8 c then run_once (throw (InvalidControl c))
          else if c =? control_byte keep_going then mret true
          else if c =? control_byte interrupt then mret false
          else
            run_once (
              if c =? control_byte message then
                on_input (read_sized stack (version s));; mret tt
              else if c =? control_byte ping then pinged
              else if c =? control_byte pong then
                modify (fun s => set_timers (pred (ping_timers s)) s)
              else mret tt);;
            read_control fuel'
      end
  end.

(** The first loop of [_read]. *)
Fixpoint skip_interrupted (fuel : nat) : partial t error unit :=
  match fuel with
  | O => no_fuel
  | S fuel' =>
      going ← read_control fuel;
      if (going : bool) then mret tt else skip_interrupted fuel'
  end.

(** The chunks of a packet of which [left] bytes are missing. *)
Fixpoint read_chunks (fuel : nat) (left : nat) (packet : bytes) :
    partial t error bytes :=
  match fuel with
  | O => no_fuel
  | S fuel' =>
      s ← run_once read;
      let size := Nat.min left (chunk_size s) in
      l ← run_once (on_input (read_bytes size));
      if Nat.leb left size then mret (packet ++ l)
      else
        going ← read_control fuel;
        if (going : bool) then read_chunks fuel' (left - size) (packet ++ l)
        else run_once (throw InterruptionError)
  end.

Definition read_packet (fuel : nat) : partial t error bytes :=
  s ← run_once read;
  if Version.geb (version s) v020 then
    total ← run_once (on_input (uint32_get stack (version s)));
    read_chunks fuel (Z.to_nat total) []
  else run_once (on_input (read_sized stack (Version.mkVersion 0 0 0))).

Definition read_checked (fuel : nat) : partial t error bytes :=
  s ← run_once read;
  hash ← (if checksum s then
            h ← run_once (on_input (read_sized stack
                  (if Version.geb (version s) v020 then version s
                   else Version.mkVersion 0 0 0)));
            mret (Some h)
          else mret None);
  packet ← read_packet fuel;
  match hash with
  | Some h =>
      if bool_decide (compute_checksum packet = h) then mret packet
      else run_once (throw ChecksumError)
  | None => mret packet
  end.

(** [_read]: whatever interrupts it, the peer apart, breaks the stream. *)
Definition _read (fuel : nat) : partial t error bytes :=
  s ← run_once read;
  (if Version.geb (version s) v030 then skip_interrupted fuel else mret tt);;
  partial_catch (read_checked fuel) (fun e =>
    match e with
    | InterruptionError => None
    | _ => Some (run_once (modify set_broken;; throw e))
    end).

(** [read] *)
Fixpoint read_loop (fuel : nat) : partial t error bytes :=
  match fuel with
  | O => no_fuel
  | S fuel' =>
      s ← run_once read;
      if broken s then run_once (throw StreamBroken)
      else
        partial_catch (_read fuel) (fun e =>
          match e with
          | InterruptionError => Some (read_loop fuel')
          | _ => None
          end)
  end.

Definition read_one : partial t error bytes :=
  s ← run_once read; read_loop (S (length (inp s))).
End Impl.

(** *** Integers read back *)

Section IntegerLaws.
Context (stack : bytes).

Lemma network_round_trip i : 0 <= i < 2 ^ 32 -> host_order (network_order i) = i.
Proof.
  intros B. unfold host_order, network_order. rewrite rev_involutive, le_combine_split.
  by apply Z.mod_small.
Qed.

Lemma read_bytes_app l rest : read_bytes (length l) (l ++ rest) = (Ok l, rest).
Proof.
  unfold read_bytes. rewrite bind_read. rewrite length_app.
  destruct (Nat.ltb_spec (length l + length rest) (length l)); [lia|].
  monad_unfold. by rewrite take_app_length, drop_app_length.
Qed.

Lemma read_bytes_take k l rest : (k <= length l)%nat ->
  read_bytes k (l ++ rest) = (Ok (take k l), drop k l ++ rest).
Proof.
  intros K. rewrite <- (take_drop k l) at 1. rewrite <- app_assoc.
  replace k with (length (take k l)) at 1 by (rewrite length_take; lia).
  apply read_bytes_app.
Qed.

Lemma length_network_order i : length (network_order i) = 4%nat.
Proof. unfold network_order. by rewrite length_rev, length_le_split. Qed.

Lemma uint32_round_trip v i rest : 0 <= i < 2 ^ 32 ->
  uint32_get stack v (uint32_put v i ++ rest) = (Ok i, rest).
Proof.
  intros B. unfold uint32_get, uint32_put. rewrite wrap_u_id by done.
  destruct (Version.geb v v030).
  - assert (read_number stack (Binary.serialize_number i ++ rest) = (Ok i, rest)) as R.
    { unfold read_number. rewrite Binary.number_read_back by (unfold int64_range; lia).
      unfold Binary.read_back. by destruct (Z.eqb_spec i (- 2 ^ 63)); [lia|]. }
    rewrite (bind_Ok _ _ _ _ _ R).
    destruct (Z.ltb_spec i 0); [lia|]. by destruct (Z.ltb_spec (2 ^ 32 - 1) i); [lia|].
  - assert (read_bytes 4 (network_order i ++ rest) = (Ok (network_order i), rest)) as R.
    { rewrite <- (length_network_order i). apply read_bytes_app. }
    rewrite (bind_Ok _ _ _ _ _ R). by rewrite network_round_trip.
Qed.

(** A size that fits. *)
Definition sendable (l : bytes) : Prop := Z.of_nat (length l) < 2 ^ 32.

Lemma sized_round_trip v l rest : sendable l ->
  read_sized stack v (write_sized v l ++ rest) = (Ok l, rest).
Proof.
  unfold sendable, read_sized, write_sized. intros S. rewrite <- app_assoc.
  rewrite (bind_Ok _ _ _ _ _ (uint32_round_trip v (Z.of_nat (length l)) _ ltac:(lia))), Nat2Z.id.
  apply read_bytes_app.
Qed.

(** Before 0.3.0 the version does not matter. *)
Lemma old_write_sized v l : Version.geb v v030 = false ->
  write_sized v l = write_sized (Version.mkVersion 0 0 0) l.
Proof. intros O. unfold write_sized, uint32_put. by rewrite O. Qed.
End IntegerLaws.

(** *** What a writer writes *)

(** The pings and pongs that may precede any control byte, from 0.3.0 on. *)
Definition noise (v : Version.t) (c : Z) : Prop :=
  Version.geb v v030 = true /\ (c = control_byte ping \/ c = control_byte pong).

(** What follows the first chunk of a packet of which [left] is still to be
    sent: [true] when all of it was. *)
Inductive chunked (v : Version.t) (k : nat) : bytes -> bool -> bytes -> Prop :=
  | chunked_end N : Forall (noise v) N -> chunked v k [] true N
  | chunked_stop left N :
      left <> [] -> Forall (noise v) N ->
      chunked v k left false (N ++ [control_byte interrupt])
  | chunked_more left N b W :
      left <> [] -> Forall (noise v) N ->
      chunked v k (drop k left) b W ->
      chunked v k left b (N ++ control_byte keep_going :: take k left ++ W).

Section Frames.
Context (stack : bytes) (compute_checksum : bytes -> bytes).

Definition started (v : Version.t) (F : bytes) : Prop :=
  if Version.geb v v030 then
    exists N, Forall (noise v) N /\ F = N ++ [control_byte keep_going]
  else F = [].

(** A packet that was sent, completely or not. *)
Definition frame (v : Version.t) (k : nat) (check : bool) (packet : bytes)
    (b : bool) (F : bytes) : Prop :=
  exists S, started v S /\
  if Version.geb v v020 then
    exists W, chunked v k (drop k packet) b W /\
    F = S ++ (if check then write_sized v (compute_checksum packet) else []) ++
        uint32_put v (Z.of_nat (length packet)) ++ take k packet ++ W
  else b = true /\
    F = S ++ (if check then write_sized v (compute_checksum packet) else []) ++
        write_sized v packet.

Lemma chunked_noise v k left b W N :
  Forall (noise v) N -> chunked v k left b W -> chunked v k left b (N ++ W).
Proof.
  intros HN C. inversion C; subst; rewrite ?app_assoc; constructor; try done;
    by apply Forall_app.
Qed.

(** *** Reading it *)

(** The reader went on to [l]: it may have answered pings. *)
Definition onto (r : t) (l : bytes) (r' : t) : Prop :=
  version r' = version r /\ chunk_size r' = chunk_size r /\
  checksum r' = checksum r /\ broken r' = broken r /\ inp r' = l.

Lemma onto_trans r l r' l' r'' : onto r l r' -> onto r' l' r'' -> onto r l' r''.
Proof. unfold onto. intros (?&?&?&?&?) (?&?&?&?&?). split_and!; congruence. Qed.
Lemma onto_inp r l : onto r l (set_inp l r).
Proof. done. Qed.
Lemma onto_on_input {A} (m : method bytes error A) r a l :
  m (inp r) = (Ok a, l) -> on_input m r = (Ok a, set_inp l r).
Proof. unfold on_input. by intros ->. Qed.

Lemma pinged_onto r : exists r', pinged r = (Ok tt, r') /\ onto r (inp r) r'.
Proof.
  unfold pinged, write_pings_pongs. monad_unfold.
  destruct (negb (lock_write _)); eexists; done.
Qed.

(** A control byte is found behind the pings and pongs. *)
Lemma read_control_noise fuel r N c l :
  Forall (noise (version r)) N -> c = keep_going \/ c = interrupt ->
  inp r = N ++ control_byte c :: l -> (length N < fuel)%nat ->
  exists r', read_control stack fuel r =
    Some (Ok (control_byte c =? control_byte keep_going), r') /\ onto r l r'.
Proof.
  intros HN Hc. revert fuel r HN.
  induction N as [|n N IH]; intros [|fuel] r HN E L; try (simpl in L; lia).
  - cbn [read_control]. unfold mbind, partial_bind, run_once at 1.
    cbn [read]. change (inp r) with (inp r) in *. rewrite E. cbn [app].
    exists (set_inp l r). split; [|done]. destruct Hc as [-> | ->]; done.
  - cbn [read_control]. unfold mbind, partial_bind, run_once at 1.
    cbn [read]. rewrite E. cbn [app run_once modify].
    apply Forall_cons in HN as [[V Hn] HN].
    destruct Hn as [-> | ->].
    + cbn [control_byte]. change (4 <? wrap_s 8 3) with false.
      change (3 =? 0) with false. change (3 =? 1) with false.
      change (3 =? 2) with false. change (3 =? 3) with true. cbv iota.
      destruct (pinged_onto (set_inp (N ++ control_byte c :: l) r)) as (r1 & P & O1).
      unfold run_once. rewrite P.
      destruct (IH fuel r1) as (r' & R & O').
      * by rewrite (proj1 O1).
      * apply O1.
      * simpl in L; lia.
      * exists r'. split; [done|].
        eapply onto_trans; [|exact O']. exact O1.
    + cbn [control_byte]. change (4 <? wrap_s 8 4) with false.
      change (4 =? 0) with false. change (4 =? 1) with false.
      change (4 =? 2) with false. change (4 =? 3) with false.
      change (4 =? 4) with true. cbv iota. unfold run_once, modify.
      destruct (IH fuel (set_timers (pred (ping_timers r))
        (set_inp (N ++ control_byte c :: l) r))) as (r' & R & O'); [done|done|simpl in L; lia|].
      exists r'. split; [done|]. eapply onto_trans; [|exact O']. done.
Qed.

Lemma read_chunks_spec v k fuel r data acc b W tail :
  version r = v -> chunk_size r = k -> (0 < k)%nat ->
  chunked v k (drop k data) b W -> inp r = take k data ++ W ++ tail ->
  (length (inp r) < fuel)%nat ->
  if b then exists N r', Forall (noise v) N /\
    read_chunks stack fuel (length data) acc r = Some (Ok (acc ++ data), r') /\
    onto r (N ++ tail) r'
  else exists r',
    read_chunks stack fuel (length data) acc r = Some (Throw InterruptionError, r') /\
    onto r tail r'.
Proof.
  intros Hv Hk K C E L. revert r data acc W Hv Hk C E L.
  induction fuel as [|fuel IH]; intros r data acc W Hv Hk C E L; [lia|].
  assert (on_input (read_bytes (Nat.min (length data) k)) r =
    (Ok (take k data), set_inp (W ++ tail) r)) as R1.
  { apply onto_on_input. rewrite E.
    replace (Nat.min (length data) k) with (length (take k data))
      by (rewrite length_take; lia).
    apply read_bytes_app. }
  cbn [read_chunks].
  rewrite (run_bind _ _ _ r r) by done. cbv zeta. rewrite Hk.
  rewrite (run_bind _ _ _ _ _ R1).
  pose proof (take_drop k data) as TD.
  inversion C as [N HN D|left N NE HN D|left N b' W' NE HN C' D]; subst.
  - assert (length data <= chunk_size r)%nat as SD.
    { apply (f_equal length) in D. rewrite length_drop in D. simpl in D. lia. }
    rewrite Nat.min_l by lia. rewrite Nat.leb_refl.
    exists W, (set_inp (W ++ tail) r). split_and!; [done|by rewrite take_ge by lia|done].
  - assert (chunk_size r < length data)%nat as SD.
    { destruct (Nat.lt_ge_cases (chunk_size r) (length data)); [done|].
      by rewrite drop_ge in NE by lia. }
    rewrite Nat.min_r by lia. destruct (Nat.leb_spec (length data) (chunk_size r)); [lia|].
    rewrite <- app_assoc in E, R1.
    destruct (read_control_noise (S fuel)
      (set_inp (N ++ [control_byte interrupt] ++ tail) r) N interrupt tail)
      as (r' & R2 & O2); [done|by right|done| |].
    { rewrite E, !length_app in L. lia. }
    exists r'. split; [|exact O2].
    rewrite <- app_assoc. by rewrite (part_bind _ _ _ _ _ R2).
  - assert (chunk_size r < length data)%nat as SD.
    { destruct (Nat.lt_ge_cases (chunk_size r) (length data)); [done|].
      by rewrite drop_ge in NE by lia. }
    rewrite Nat.min_r by lia. destruct (Nat.leb_spec (length data) (chunk_size r)); [lia|].
    rewrite <- app_assoc in E |- *. cbn [app] in E |- *. rewrite <- app_assoc in E |- *.
    set (k := chunk_size r) in *. set (rest := take k (drop k data) ++ W' ++ tail) in *.
    destruct (read_control_noise (S fuel)
      (set_inp (N ++ control_byte keep_going :: rest) r) N keep_going rest)
      as (r1 & R2 & O2); [done|by left|done| |].
    { rewrite E, !length_app in L. lia. }
    rewrite (part_bind _ _ _ _ _ R2).
    change (control_byte keep_going =? control_byte keep_going) with true. cbv iota.
    assert (length data - k = length (drop k data))%nat as -> by (by rewrite length_drop).
    assert (length (inp r1) < fuel)%nat as L1.
    { rewrite (proj2 (proj2 (proj2 (proj2 O2)))).
      rewrite E, !length_app in L. cbn [length] in L. rewrite length_take in L. lia. }
    specialize (IH r1 (drop k data) (acc ++ take k data) W'
      ltac:(by rewrite (proj1 O2)) ltac:(by rewrite (proj1 (proj2 O2)))
      C' (proj2 (proj2 (proj2 (proj2 O2)))) L1).
    rewrite <- app_assoc, TD in IH. destruct b.
    + destruct IH as (N' & r' & HN' & R' & O'). exists N', r'. split_and!; [done|done|].
      eapply onto_trans; [exact O2|exact O'].
    + destruct IH as (r' & R' & O'). exists r'. split; [done|].
      eapply onto_trans; [exact O2|exact O'].
Qed.

(** *** Writing it *)

(** The writer added [l]. *)
Definition wrote (w : t) (l : bytes) (w' : t) : Prop :=
  version w' = version w /\ chunk_size w' = chunk_size w /\
  checksum w' = checksum w /\ out w' = out w ++ l.

(** No pings before 0.3.0. *)
Definition calm (w : t) : Prop :=
  Version.geb (version w) v030 = false -> pings w = 0%nat /\ pongs w = 0%nat.
Definition calm_pause (v : Version.t) (p : pause) : Prop :=
  Version.geb v v030 = false -> due p = 0%nat /\ received p = 0%nat.

Lemma wrote_trans w l w' l' w'' :
  wrote w l w' -> wrote w' l' w'' -> wrote w (l ++ l') w''.
Proof.
  unfold wrote. intros (?&?&?&E) (?&?&?&E'). rewrite E', E, app_assoc.
  split_and!; congruence.
Qed.

Lemma send_wrote l w : wrote w l (send l w).
Proof. done. Qed.

Lemma write_pings_pongs_spec w : calm w -> exists N w',
  write_pings_pongs w = (Ok tt, w') /\ Forall (noise (version w)) N /\
  wrote w N w' /\ pings w' = 0%nat /\ pongs w' = 0%nat.
Proof.
  intros C. eexists _, _. split; [done|]. split; [|done].
  destruct (Version.geb (version w) v030) eqn:V.
  - apply Forall_app. split; apply Forall_replicate; unfold noise; auto.
  - destruct (C V) as [-> ->]. constructor.
Qed.

Lemma write_control_spec w c : calm w -> c = keep_going \/ c = interrupt ->
  exists N w', write_control c w = (Ok tt, w') /\ Forall (noise (version w)) N /\
  wrote w (N ++ [control_byte c]) w' /\ pings w' = 0%nat /\ pongs w' = 0%nat.
Proof.
  intros C Hc. destruct (write_pings_pongs_spec w C) as (N & w' & E & HN & O & D).
  exists N, (send [control_byte c] w'). split; [|split; [done|split]].
  - destruct Hc as [-> | ->]; cbn [write_control]; by rewrite (bind_Ok _ _ _ _ _ E).
  - eapply wrote_trans; [exact O|apply send_wrote].
  - exact D.
Qed.

Lemma debts_calm w : pings w = 0%nat /\ pongs w = 0%nat -> calm w.
Proof. by intros D _. Qed.

Lemma suspended_spec p w : exists w', suspended p w = (Ok tt, w') /\
  wrote w [] w' /\ pings w' = (pings w + due p)%nat /\
  pongs w' = (pongs w + received p)%nat.
Proof.
  eexists. split; [done|]. split; [|done]. unfold wrote. by rewrite app_nil_r.
Qed.

(** One chunk after the first, with what is done on both sides of it. *)
Lemma send_chunk_spec k left p w :
  calm w -> calm_pause (version w) p -> exists N M w',
  (write_control keep_going;; modify (send (take k left));; suspended p;;
   when (negb (terminated p)) write_pings_pongs : impl unit) w = (Ok tt, w') /\
  Forall (noise (version w)) N /\ Forall (noise (version w)) M /\
  wrote w (N ++ control_byte keep_going :: take k left ++ M) w' /\ calm w'.
Proof.
  intros C P.
  destruct (write_control_spec w keep_going C (or_introl eq_refl))
    as (N & w1 & E1 & HN & O1 & D1).
  destruct (suspended_spec p (send (take k left) w1)) as (w2 & E2 & O2 & D2 & D2').
  assert (calm w2) as C2.
  { intros V. rewrite D2, D2'. cbn [send pings pongs]. destruct D1 as [-> ->].
    cbn. apply P. rewrite <- V, (proj1 O2). cbn [send version]. by rewrite (proj1 O1). }
  pose proof (wrote_trans _ _ _ _ _ O1
    (wrote_trans _ _ _ _ _ (send_wrote (take k left) w1) O2)) as O.
  rewrite (bind_Ok _ _ _ _ _ E1).
  assert (forall m : impl unit,
    (modify (send (take k left));; suspended p;; m : impl unit) w1 = m w2) as ->.
  { intros m. rewrite (bind_Ok _ _ _ tt (send (take k left) w1)) by done.
    by rewrite (bind_Ok _ _ _ _ _ E2). }
  destruct (terminated p); cbn [negb when].
  - exists N, [], w2. split_and!; [done|done|constructor| |done].
    rewrite app_nil_r. rewrite <- app_assoc, app_nil_r in O. exact O.
  - destruct (write_pings_pongs_spec w2 C2) as (M & w3 & E3 & HM & O3 & D3).
    exists N, M, w3. split_and!; [done|done| | |by apply debts_calm].
    + by rewrite <- (proj1 O).
    + pose proof (wrote_trans _ _ _ _ _ O O3) as O4.
      rewrite <- !app_assoc in O4. exact O4.
Qed.

Lemma take_pause_spec v ps p ps' : take_pause ps = (p, ps') ->
  Forall (calm_pause v) ps ->
  calm_pause v p /\ Forall (calm_pause v) ps' /\
  (Forall (fun p => terminated p = false) ps ->
   terminated p = false /\ Forall (fun p => terminated p = false) ps').
Proof.
  intros TP P. destruct ps as [|q ps]; cbn in TP; simplify_eq.
  - split_and!; [done|constructor|done].
  - apply Forall_cons in P as [? ?]. split_and!; [done..|].
    intros [? ?]%Forall_cons. done.
Qed.

Lemma send_rest_spec k fuel left stop ps w :
  (0 < k)%nat -> (length left < fuel)%nat ->
  calm w -> Forall (calm_pause (version w)) ps ->
  exists b W w', send_rest fuel k left stop ps w = Some (Ok b, w') /\
  chunked (version w) k left b W /\ wrote w W w' /\ calm w' /\
  (stop = false -> Forall (fun p => terminated p = false) ps -> b = true).
Proof.
  intros K. revert left stop ps w.
  induction fuel as [|fuel IH]; intros left stop ps w L C P; [lia|].
  cbn [send_rest]. destruct (Nat.ltb_spec 0 (length left)) as [L0|L0].
  2: { assert (left = []) as -> by (apply nil_length_inv; lia).
       exists true, [], w. assert (wrote w [] w) as O.
       { unfold wrote. by rewrite app_nil_r. }
       split; [by destruct stop|]. split; [by repeat constructor|].
       by destruct O as (? & ? & ? & ?). }
  assert (left <> []) as NE by (intros ->; simpl in L0; lia). destruct stop.
  - destruct (write_control_spec w interrupt C (or_intror eq_refl))
      as (N & w1 & E1 & HN & O1 & D1).
    destruct (write_pings_pongs_spec w1 (debts_calm _ D1)) as (M & w2 & E2 & _ & O2 & D2).
    assert (M = []) as ->.
    { unfold write_pings_pongs in E2. monad_unfold. destruct D1 as [Z1 Z2].
      rewrite Z1, Z2 in E2. cbn [replicate app] in E2. simplify_eq.
      destruct O2 as (_ & _ & _ & O2). cbn in O2.
      by apply app_inv_head in O2. }
    exists false, (N ++ [control_byte interrupt]), w2. split_and!.
    + assert ((write_control interrupt;; write_pings_pongs : impl unit) w = (Ok tt, w2))
        as E by (by rewrite (bind_Ok _ _ _ _ _ E1)).
      by rewrite (run_bind _ _ _ _ _ E).
    + by constructor.
    + pose proof (wrote_trans _ _ _ _ _ O1 O2) as O. by rewrite app_nil_r in O.
    + by apply debts_calm.
    + done.
  - destruct (take_pause ps) as [p ps'] eqn:TP.
    destruct (take_pause_spec _ _ _ _ TP P) as (P1 & P2 & P3).
    destruct (send_chunk_spec k left p w C P1) as (N & M & w1 & E1 & HN & HM & O1 & C1).
    rewrite (run_bind _ _ _ _ _ E1).
    destruct (IH (drop k left) (terminated p) ps' w1) as (b & W & w2 & E2 & HC & O2 & C2 & T2).
    { rewrite length_drop. lia. }
    { done. }
    { by rewrite (proj1 O1). }
    rewrite (proj1 O1) in HC.
    exists b, (N ++ control_byte keep_going :: take k left ++ M ++ W), w2.
    split_and!; [done| | |done|].
    + constructor; [done|done|]. by apply chunked_noise.
    + pose proof (wrote_trans _ _ _ _ _ O1 O2) as O.
      rewrite <- app_assoc in O. cbn [app] in O. by rewrite <- app_assoc in O.
    + intros _ [T T']%P3. by apply T2.
Qed.

(** The control byte a packet starts with, from 0.3.0 on. *)
Lemma start_spec w : calm w -> exists S w',
  (when (Version.geb (version w) v030) (write_control keep_going) : impl unit) w =
    (Ok tt, w') /\ started (version w) S /\ wrote w S w' /\ calm w'.
Proof.
  intros C. unfold started. destruct (Version.geb (version w) v030) eqn:V.
  - destruct (write_control_spec w keep_going C (or_introl eq_refl))
      as (N & w1 & E & HN & O & D).
    exists (N ++ [control_byte keep_going]), w1. split; [exact E|].
    split; [by exists N|]. split; [exact O|by apply debts_calm].
  - exists [], w. split; [done|]. split; [done|]. split; [|done].
    unfold wrote. by rewrite app_nil_r.
Qed.

Lemma modify_spec l w :
  (modify (send l) : impl unit) w = (Ok tt, send l w) /\ wrote w l (send l w) /\
  (calm w -> calm (send l w)).
Proof. split; [done|]. split; [apply send_wrote|done]. Qed.

Lemma _write_spec fuel packet ps w :
  (0 < chunk_size w)%nat -> (length packet < fuel)%nat ->
  calm w -> Forall (calm_pause (version w)) ps ->
  exists b F w', _write compute_checksum fuel packet ps w = Some (Ok b, w') /\
  frame (version w) (chunk_size w) (checksum w) packet b F /\ wrote w F w' /\
  calm w' /\ (Forall (fun p => terminated p = false) ps -> b = true).
Proof.
  intros K L C P. unfold _write.
  rewrite (run_bind _ _ w w w) by done. cbv zeta.
  destruct (start_spec w C) as (S & w1 & E1 & HS & O1 & C1).
  rewrite (run_bind _ _ _ _ _ E1).
  set (H := if checksum w then write_sized (version w) (compute_checksum packet) else []).
  assert (exists w2, (when (checksum w) (modify (send (write_sized (version w)
    (compute_checksum packet)))) : impl unit) w1 = (Ok tt, w2) /\
    wrote w1 H w2 /\ calm w2) as (w2 & E2 & O2 & C2).
  { unfold H. destruct (checksum w).
    - eexists. split; [done|]. by split.
    - exists w1. split; [done|]. split; [|done]. unfold wrote. by rewrite app_nil_r. }
  rewrite (run_bind _ _ _ _ _ E2).
  pose proof (wrote_trans _ _ _ _ _ O1 O2) as O12.
  destruct (Version.geb (version w) v020) eqn:V2.
  - destruct (take_pause ps) as [p ps'] eqn:TP.
    destruct (take_pause_spec _ _ _ _ TP P) as (P1 & P2 & P3).
    set (z := uint32_put (version w) (Z.of_nat (length packet))).
    destruct (suspended_spec p (send (take (chunk_size w) packet) (send z w2)))
      as (w3 & E3 & O3 & D3 & D3').
    assert ((modify (send z);; modify (send (take (chunk_size w) packet));;
      suspended p : impl unit) w2 = (Ok tt, w3)) as E3' by exact E3.
    rewrite (run_bind _ _ _ _ _ E3').
    pose proof (wrote_trans _ _ _ _ _ O12 (wrote_trans _ _ _ _ _ (send_wrote z w2)
      (wrote_trans _ _ _ _ _ (send_wrote _ _) O3))) as O.
    assert (calm w3) as C3.
    { intros V. rewrite (proj1 O) in V. rewrite D3, D3'. cbn [send pings pongs].
      rewrite <- (proj1 O12) in V. destruct (C2 V) as [-> ->].
      rewrite (proj1 O12) in V. cbn. by apply P1. }
    destruct (send_rest_spec (chunk_size w) fuel (drop (chunk_size w) packet)
      (terminated p) ps' w3 K) as (b & W & w4 & E4 & HC & O4 & C4 & T4).
    { rewrite length_drop. lia. }
    { done. }
    { by rewrite (proj1 O). }
    rewrite (proj1 O) in HC. eexists b, _, w4.
    split; [exact E4|]. split; [|split; [exact (wrote_trans _ _ _ _ _ O O4)|]].
    + exists S. split; [done|]. rewrite V2. exists W. split; [done|].
      by rewrite app_nil_r, <- !app_assoc.
    + split; [done|]. intros [T T']%P3. by apply T4.
  - rewrite (run_bind _ _ w2 tt (send (write_sized (version w) packet) w2)) by done.
    eexists true, _, _. split; [done|].
    split; [|split; [exact (wrote_trans _ _ _ _ _ O12 (send_wrote _ _))|done]].
    exists S. split; [done|]. rewrite V2. split; [done|]. by rewrite <- app_assoc.
Qed.

(** *** Reading a packet *)

Lemma part_catch_ok {A} (m : partial t error A) h r a r' :
  m r = Some (Ok a, r') -> partial_catch m h r = Some (Ok a, r').
Proof. unfold partial_catch. by intros ->. Qed.

Lemma part_catch_throw {A} (m : partial t error A) h r e r' :
  m r = Some (Throw e, r') -> partial_catch m h r =
  match h e with Some k => k r' | None => Some (Throw e, r') end.
Proof. unfold partial_catch. by intros ->. Qed.

(** The control byte a packet starts with is found. *)
Lemma started_read fuel r S l : started (version r) S -> inp r = S ++ l ->
  (length S <= fuel)%nat -> exists r',
  (if Version.geb (version r) v030 then skip_interrupted stack fuel
   else mret tt : partial t error unit) r = Some (Ok tt, r') /\ onto r l r'.
Proof.
  unfold started. destruct (Version.geb (version r) v030); intros HS E L.
  - destruct HS as (N & HN & ->). destruct fuel as [|fuel].
    { rewrite length_app in L. simpl in L. lia. }
    rewrite <- app_assoc in E. rewrite length_app in L. simpl in L.
    destruct (read_control_noise (Datatypes.S fuel) r N keep_going l) as (r' & R & O);
      [done|by left|done|lia|].
    exists r'. split; [|done]. cbn [skip_interrupted]. by rewrite (part_bind _ _ _ _ _ R).
  - subst S. exists r. split; [done|]. by split_and!.
Qed.

Definition big_enough (check : bool) (packet : bytes) : Prop :=
  sendable packet /\ (check = true -> sendable (compute_checksum packet)).

(** What follows the checksum. *)
Lemma read_packet_spec fuel r b packet B tail :
  (0 < chunk_size r)%nat -> sendable packet ->
  (if Version.geb (version r) v020 then
     exists W, chunked (version r) (chunk_size r) (drop (chunk_size r) packet) b W /\
     B = uint32_put (version r) (Z.of_nat (length packet)) ++
         take (chunk_size r) packet ++ W
   else b = true /\ B = write_sized (version r) packet) ->
  inp r = B ++ tail -> (length (inp r) < fuel)%nat ->
  if b then exists N r', Forall (noise (version r)) N /\
    read_packet stack fuel r = Some (Ok packet, r') /\ onto r (N ++ tail) r'
  else exists r',
    read_packet stack fuel r = Some (Throw InterruptionError, r') /\ onto r tail r'.
Proof.
  intros K S HB E L. unfold read_packet. rewrite (run_bind _ _ r r r) by done.
  destruct (Version.geb (version r) v020) eqn:V2.
  - destruct HB as (W & HC & ->). rewrite <- !app_assoc in E.
    assert (on_input (uint32_get stack (version r)) r =
      (Ok (Z.of_nat (length packet)), set_inp (take (chunk_size r) packet ++ W ++ tail) r))
      as R1.
    { apply onto_on_input. rewrite E. apply uint32_round_trip. unfold sendable in S. lia. }
    rewrite (run_bind _ _ _ _ _ R1), Nat2Z.id.
    pose proof (read_chunks_spec (version r) (chunk_size r) fuel
      (set_inp (take (chunk_size r) packet ++ W ++ tail) r) packet [] b W tail
      eq_refl eq_refl K HC eq_refl) as R2.
    assert (length (inp (set_inp (take (chunk_size r) packet ++ W ++ tail) r)) < fuel)%nat
      as L2 by (rewrite E, length_app in L; cbn [set_inp inp]; lia).
    exact (R2 L2).
  - destruct HB as (-> & ->). exists [], (set_inp tail r).
    split; [constructor|]. split; [|done]. unfold run_once. f_equal.
    apply onto_on_input. rewrite E.
    rewrite (old_write_sized (version r)). 2: {
      destruct (Version.geb (version r) v030) eqn:V3; [|done].
      by rewrite (Version.geb_trans _ _ v020 V3 eq_refl) in V2. }
    by apply sized_round_trip.
Qed.

Lemma frame_read fuel r b packet F tail :
  (0 < chunk_size r)%nat -> big_enough (checksum r) packet ->
  frame (version r) (chunk_size r) (checksum r) packet b F ->
  inp r = F ++ tail -> (length (inp r) < fuel)%nat ->
  if b then exists N r', Forall (noise (version r)) N /\
    _read stack compute_checksum fuel r = Some (Ok packet, r') /\ onto r (N ++ tail) r'
  else exists r',
    _read stack compute_checksum fuel r = Some (Throw InterruptionError, r') /\
    onto r tail r'.
Proof.
  intros K [S1 S2] (S & HS & HF) E L.
  set (H := if checksum r then write_sized (version r) (compute_checksum packet) else [])
    in HF.
  assert (exists B, F = S ++ H ++ B /\
    (if Version.geb (version r) v020 then
       exists W, chunked (version r) (chunk_size r) (drop (chunk_size r) packet) b W /\
       B = uint32_put (version r) (Z.of_nat (length packet)) ++
           take (chunk_size r) packet ++ W
     else b = true /\ B = write_sized (version r) packet)) as (B & -> & HB).
  { destruct (Version.geb (version r) v020).
    - destruct HF as (W & HC & ->). eexists. split; [done|]. by exists W.
    - destruct HF as (-> & ->). by eexists. }
  clear HF. rewrite <- !app_assoc in E.
  destruct (started_read fuel r S (H ++ B ++ tail) HS E) as (r1 & E1 & O1).
  { rewrite E, !length_app in L. lia. }
  unfold _read. rewrite (run_bind _ _ r r r) by done. rewrite (part_bind _ _ _ _ _ E1).
  destruct O1 as (V1 & K1 & C1 & B1 & I1).
  set (r2 := set_inp (B ++ tail) r1).
  assert (exists h, (if checksum r1 then
      h ← run_once (on_input (read_sized stack
            (if Version.geb (version r1) v020 then version r1
             else Version.mkVersion 0 0 0)));
      mret (Some h)
    else mret None : partial t error (option bytes)) r1 = Some (Ok h, r2) /\
    match h with Some h => compute_checksum packet = h | None => True end)
    as (h & E2 & Hh).
  { rewrite C1, V1. unfold H in I1. destruct (checksum r) eqn:Ck.
    - exists (Some (compute_checksum packet)). split; [|done].
      erewrite run_bind; [done|]. apply onto_on_input. rewrite I1.
      destruct (Version.geb (version r) v020) eqn:V2; [by apply sized_round_trip, S2|].
      rewrite (old_write_sized (version r)). 2: {
        destruct (Version.geb (version r) v030) eqn:V3; [|done].
        by rewrite (Version.geb_trans _ _ v020 V3 eq_refl) in V2. }
      by apply sized_round_trip, S2.
    - exists None. split; [|done]. cbn [app] in I1. unfold r2.
      rewrite <- I1. by destruct r1. }
  pose proof (read_packet_spec fuel r2 b packet B tail) as R.
  cbn [r2 set_inp version chunk_size inp] in R. rewrite V1, K1 in R.
  specialize (R K S1 HB eq_refl).
  assert (length (B ++ tail) < fuel)%nat as L2.
  { rewrite E, !length_app in L. rewrite length_app. lia. }
  specialize (R L2).
  assert (forall l r', onto r2 l r' -> onto r l r') as OO.
  { intros l r' O. eapply onto_trans; [|exact O]. by split_and!. }
  destruct b.
  - destruct R as (N & r' & HN & R & O). exists N, r'. split; [done|]. split; [|by apply OO].
    apply part_catch_ok. unfold read_checked. rewrite (run_bind _ _ r1 r1 r1) by done.
    rewrite (part_bind _ _ _ _ _ E2), (part_bind _ _ _ _ _ R).
    destruct h as [h|]; [|done]. by rewrite bool_decide_eq_true_2.
  - destruct R as (r' & R & O). exists r'. split; [|by apply OO].
    assert (read_checked stack compute_checksum fuel r1 = Some (Throw InterruptionError, r'))
      as RC.
    { unfold read_checked. rewrite (run_bind _ _ r1 r1 r1) by done.
      by rewrite (part_bind _ _ _ _ _ E2), (part_throw _ _ _ _ _ R). }
    by rewrite (part_catch_throw _ _ _ _ _ RC).
Qed.

(** *** Packets, one after the other *)

(** Each packet, and what happens while it is written. *)
Fixpoint write_all (msgs : list (bytes * list pause)) : partial t error (list bool) :=
  match msgs with
  | [] => mret []
  | (packet, ps) :: msgs' =>
      b ← _write compute_checksum (S (length packet)) packet ps;
      bs ← write_all msgs';
      mret (b :: bs)
  end.

Fixpoint read_many (n : nat) : partial t error (list bytes) :=
  match n with
  | O => mret []
  | S n' =>
      p ← read_one stack compute_checksum;
      l ← read_many n';
      mret (p :: l)
  end.

(** The packets that were sent completely. *)
Definition completed (l : list (bytes * bool)) : list bytes :=
  omap (fun m : bytes * bool => if m.2 then Some m.1 else None) l.

Inductive frames (v : Version.t) (k : nat) (check : bool) :
    list (bytes * bool) -> bytes -> Prop :=
  | frames_nil N : Forall (noise v) N -> frames v k check [] N
  | frames_cons p b ms F W :
      frame v k check p b F -> big_enough check p -> frames v k check ms W ->
      frames v k check ((p, b) :: ms) (F ++ W).

Lemma noise_old v N : Version.geb v v030 = false -> Forall (noise v) N -> N = [].
Proof.
  intros V HN. destruct HN as [|c N [V' _] _]; [done|]. by rewrite V in V'.
Qed.

Lemma frame_noise v k check p b F N :
  Forall (noise v) N -> frame v k check p b F -> frame v k check p b (N ++ F).
Proof.
  intros HN (S & HS & HF). exists (N ++ S). split.
  - unfold started in *. destruct (Version.geb v v030) eqn:V.
    + destruct HS as (M & HM & ->). exists (N ++ M). split; [by apply Forall_app|].
      by rewrite app_assoc.
    + by rewrite HS, (noise_old v N).
  - destruct (Version.geb v v020).
    + destruct HF as (W & HC & ->). exists W. split; [done|]. by rewrite <- !app_assoc.
    + destruct HF as (-> & ->). split; [done|]. by rewrite <- !app_assoc.
Qed.

Lemma frames_noise v k check ms W N :
  Forall (noise v) N -> frames v k check ms W -> frames v k check ms (N ++ W).
Proof.
  intros HN C. destruct C as [M HM|p b ms F W HF HB C].
  - constructor. by apply Forall_app.
  - rewrite app_assoc. constructor; [by apply frame_noise|done|done].
Qed.

(** The first packet that was sent completely is the one that is read. *)
Lemma read_loop_spec fuel ms W r p ps :
  (0 < chunk_size r)%nat -> broken r = false ->
  frames (version r) (chunk_size r) (checksum r) ms W -> inp r = W ->
  (length W < fuel)%nat -> completed ms = p :: ps ->
  exists ms' W' r', read_loop stack compute_checksum fuel r = Some (Ok p, r') /\
  onto r W' r' /\ frames (version r) (chunk_size r) (checksum r) ms' W' /\
  completed ms' = ps.
Proof.
  intros K B C. revert fuel r K B C.
  induction ms as [|[q b] ms IH] in W |- *; intros fuel r K B C E L HP; [done|].
  inversion C as [|q' b' ms' F W' HF HB C']; subst.
  destruct fuel as [|fuel]; [lia|].
  pose proof (frame_read (S fuel) r b q F W' K HB HF) as R.
  specialize (R ltac:(done) ltac:(lia)).
  cbn [read_loop]. rewrite (run_bind _ _ r r r) by done. rewrite B.
  destruct b.
  - destruct R as (N & r' & HN & R & O). cbn in HP. simplify_eq.
    exists ms, (N ++ W'), r'. split; [by apply part_catch_ok|].
    split; [done|]. split; [by apply frames_noise|done].
  - destruct R as (r1 & R & O). rewrite (part_catch_throw _ _ _ _ _ R).
    pose proof O as (V1 & K1 & C1 & B1 & I1).
    assert (0 < length F)%nat as LF.
    { destruct HF as (T & _ & HF). destruct (Version.geb (version r) v020).
      - destruct HF as (W0 & HC & ->). inversion HC; subst;
          rewrite !length_app; simpl; lia.
      - by destruct HF. }
    destruct (IH W' fuel r1) as (ms' & W2 & r' & R' & O' & C2 & HP2).
    { by rewrite K1. }
    { by rewrite B1. }
    { by rewrite V1, K1, C1. }
    { done. }
    { match goal with E : _ = _ ++ _ |- _ => apply (f_equal length) in E;
        rewrite length_app in E; lia
      | E : _ ++ _ = _ |- _ => apply (f_equal length) in E;
        rewrite length_app in E; lia end. }
    { done. }
    rewrite V1, K1, C1 in C2. exists ms', W2, r'. split; [done|].
    split; [by eapply onto_trans|done].
Qed.

Lemma read_many_spec ms W r :
  (0 < chunk_size r)%nat -> broken r = false ->
  frames (version r) (chunk_size r) (checksum r) ms W -> inp r = W ->
  exists r', read_many (length (completed ms)) r = Some (Ok (completed ms), r').
Proof.
  intros K B C E. remember (completed ms) as ps eqn:HP. symmetry in HP.
  revert ms W r K B C E HP.
  induction ps as [|p ps IH]; intros ms W r K B C E HP; [by exists r|].
  destruct (read_loop_spec (S (length (inp r))) ms W r p ps) as
    (ms' & W' & r1 & R & O & C' & HP'); [done..|by rewrite E; lia|done|].
  pose proof O as (V1 & K1 & C1 & B1 & I1).
  destruct (IH ms' W' r1) as (r' & R'); try congruence.
  exists r'. cbn [length read_many].
  assert (read_one stack compute_checksum r = Some (Ok p, r1)) as R1.
  { unfold read_one. by rewrite (run_bind _ _ r r r). }
  by rewrite (part_bind _ _ _ _ _ R1), (part_bind _ _ _ _ _ R').
Qed.

Lemma write_all_spec msgs w :
  (0 < chunk_size w)%nat -> calm w ->
  Forall (fun m => big_enough (checksum w) m.1 /\
                   Forall (calm_pause (version w)) m.2) msgs ->
  exists bs W w', write_all msgs w = Some (Ok bs, w') /\ wrote w W w' /\ calm w' /\
  frames (version w) (chunk_size w) (checksum w) (zip msgs.*1 bs) W /\
  Forall2 (fun m b => Forall (fun p => terminated p = false) m.2 -> b = true) msgs bs.
Proof.
  intros K. revert w K. induction msgs as [|[packet ps] msgs IH]; intros w K C P.
  { exists [], [], w. split; [done|]. split; [unfold wrote; by rewrite app_nil_r|].
    split; [done|]. split; [by repeat constructor|constructor]. }
  apply Forall_cons in P as [[P1 P2] P]. cbn [fst snd] in P1, P2.
  destruct (_write_spec (S (length packet)) packet ps w K ltac:(lia) C P2)
    as (b & F & w1 & E1 & HF & O1 & C1 & T1).
  pose proof O1 as (V1 & K1 & Ck1 & _).
  destruct (IH w1) as (bs & W & w2 & E2 & O2 & C2 & HF2 & T2).
  { by rewrite K1. }
  { done. }
  { by rewrite V1, Ck1. }
  exists (b :: bs), (F ++ W), w2. split.
  { cbn [write_all]. by rewrite (part_bind _ _ _ _ _ E1), (part_bind _ _ _ _ _ E2). }
  split; [by eapply wrote_trans|]. split; [done|]. split.
  - cbn. rewrite V1, K1, Ck1 in HF2. by constructor.
  - by constructor.
Qed.

(** C29. What is written arrives: whatever the packets, their number, the size
    of the chunks, the version, the pings that are exchanged meanwhile and the
    packets given up half-way, the peer reads the packets that were sent
    completely, in their order, and nothing else; a packet whose writing is not
    interrupted is one of them. *)
Theorem packets_arrive msgs w :
  (0 < chunk_size w)%nat -> calm w -> out w = [] ->
  Forall (fun m => big_enough (checksum w) m.1 /\
                   Forall (calm_pause (version w)) m.2) msgs ->
  exists bs w', write_all msgs w = Some (Ok bs, w') /\
  Forall2 (fun m b => Forall (fun p => terminated p = false) m.2 -> b = true)
    msgs bs /\
  forall r, version r = version w -> chunk_size r = chunk_size w ->
    checksum r = checksum w -> broken r = false -> inp r = out w' ->
    let sent := completed (zip msgs.*1 bs) in
    exists r', read_many (length sent) r = Some (Ok sent, r').
Proof.
  intros K C O P.
  destruct (write_all_spec msgs w K C P) as (bs & W & w' & E & (_ & _ & _ & O') & _ & HF & T).
  exists bs, w'. split; [done|]. split; [done|].
  intros r V1 K1 Ck1 B I1 sent. rewrite O, app_nil_l in O'.
  apply (read_many_spec _ W); [by rewrite K1|done|by rewrite V1, K1, Ck1|congruence].
Qed.

(** *** Whatever the peer sends *)

(** What is left to read. *)
Definition left_of (r : t) : nat := length (inp r).

(** A part of the reader returns; it reads on, by [k] bytes at least when it
    does not throw, by [j] when the peer interrupted it; and it does not mark
    the stream broken. *)
Definition returns {A} (k j : nat) (m : partial t error A) (r : t) : Prop :=
  exists res r', m r = Some (res, r') /\ (left_of r' <= left_of r)%nat /\
  broken r' = broken r /\ version r' = version r /\
  match res with
  | Ok _ => (left_of r' + k <= left_of r)%nat
  | Throw InterruptionError => (left_of r' + j <= left_of r)%nat
  | Throw _ => True
  end.

Lemma returns_ret {A} (a : A) j r : returns 0 j (mret a) r.
Proof. exists (Ok a), r. split; [done|]. repeat split; intros; lia. Qed.

Lemma returns_throw {A} k j e r : e <> InterruptionError \/ j = 0%nat ->
  returns k j (run_once (throw e) : partial t error A) r.
Proof.
  intros N. exists (Throw e), r. split; [done|]. repeat split; [lia|].
  destruct e; try done. destruct N as [N|N]; [done|lia].
Qed.

Lemma returns_bind {A B} k l j j' (m : partial t error A) (f : A -> partial t error B) r :
  (j <= k + j')%nat -> returns k j m r ->
  (forall a r', m r = Some (Ok a, r') -> (left_of r' + k <= left_of r)%nat ->
     version r' = version r -> returns l j' (f a) r') ->
  returns (k + l) j (m ≫= f) r.
Proof.
  intros J ([a|e] & r1 & E & L & Br & V & P) F.
  - destruct (F a r1 E P V) as (res & r2 & E2 & L2 & B2 & V2 & P2).
    exists res, r2. split; [by rewrite (part_bind _ _ _ _ _ E)|].
    split; [lia|]. split; [congruence|]. split; [congruence|].
    destruct res as [|[]]; lia || done.
  - exists (Throw e), r1. split; [by rewrite (part_throw _ _ _ _ _ E)|].
    split; [done|]. split; [done|]. split; [done|]. by destruct e.
Qed.

Lemma returns_weaken {A} k l j j' (m : partial t error A) r :
  (l <= k)%nat -> (j' <= j)%nat -> returns k j m r -> returns l j' m r.
Proof.
  intros L J (res & r' & E & L' & B & V & P). exists res, r'.
  split; [done|]. split; [done|]. split; [done|]. split; [done|].
  destruct res as [|[]]; lia || done.
Qed.

Lemma returns_modify (f : t -> t) r :
  inp (f r) = inp r -> broken (f r) = broken r -> version (f r) = version r ->
  returns 0 1 (run_once (modify f)) r.
Proof.
  intros I B V. exists (Ok tt), (f r). split; [done|]. unfold left_of. rewrite I.
  split; [lia|]. split; [done|]. split; [done|]. lia.
Qed.

Lemma returns_read {A} k j (f : t -> partial t error A) r :
  returns k j (f r) r -> returns k j (run_once read ≫= f) r.
Proof. done. Qed.

(** Reading numbers and bytes never lengthens what is left, and is not
    interrupted. *)
Definition shrinks {A} (m : method bytes error A) : Prop :=
  forall l, (length (m l).2 <= length l)%nat /\ (m l).1 <> Throw InterruptionError.

Lemma returns_on_input {A} (m : method bytes error A) r :
  shrinks m -> returns 0 1 (run_once (on_input m)) r.
Proof.
  intros S. destruct (S (inp r)) as [L N]. unfold returns, run_once, on_input, left_of.
  destruct (m (inp r)) as [res l] eqn:E. exists res, (set_inp l r). cbn in *.
  split; [done|]. split; [done|]. split; [done|]. split; [done|].
  destruct res as [|[]]; lia || done.
Qed.

Lemma shrinks_bind {A B} (m : method bytes error A) (f : A -> method bytes error B) :
  shrinks m -> (forall a, shrinks (f a)) -> shrinks (m ≫= f).
Proof.
  intros S F l. unfold mbind, method_bind. destruct (S l) as [L N].
  destruct (m l) as [[a|e] l1]; cbn in *.
  - destruct (F a l1) as [L' N']. split; [lia|done].
  - split; [done|]. congruence.
Qed.

Lemma shrinks_ret {A} (a : A) : shrinks (mret a).
Proof. by intros l. Qed.
Lemma shrinks_throw {A} e :
  e <> InterruptionError -> shrinks (throw e : method bytes error A).
Proof. intros N l. split; [done|]. cbn. congruence. Qed.

Lemma shrinks_read_bytes k : shrinks (read_bytes k).
Proof.
  intros l. unfold read_bytes. rewrite bind_read.
  destruct (Nat.ltb (length l) k); monad_unfold; cbn; (split; [|done]); [lia|].
  rewrite length_drop. lia.
Qed.

Lemma number_shrinks l :
  (length (Binary.deserialize_number stack l).2 <= length l)%nat.
Proof.
  destruct l as [|c l]; [done|]. unfold Binary.deserialize_number.
  rewrite (bind_Ok _ _ _ _ _ (Binary.get_char_cons _ _)).
  destruct (Z.land c 64 =? 0); [unfold Binary.get_char; monad_unfold; cbn; lia|].
  destruct (Z.land c 32 =? 0).
  { destruct l as [|c2 l]; unfold Binary.get_char; monad_unfold; cbn; lia. }
  destruct (Z.land c 16 =? 0).
  { destruct l as [|c2 [|c3 l]]; unfold Binary.get_char; monad_unfold; cbn; lia. }
  rewrite bind_assoc, (bind_Ok _ _ l (take 8 l) (drop 8 l)) by done.
  rewrite bind_ret_l. unfold mret, method_ret. cbn [snd length]. rewrite length_drop. lia.
Qed.

Lemma shrinks_uint32 v : shrinks (uint32_get stack v).
Proof.
  unfold uint32_get. destruct (Version.geb v v030).
  - apply shrinks_bind.
    + intros l. unfold read_number. pose proof (number_shrinks l) as S.
      split; by destruct (Binary.deserialize_number stack l) as [[n|e] l'].
    + intros res. destruct ((res <? 0) || (2 ^ 32 - 1 <? res));
        [by apply shrinks_throw|apply shrinks_ret].
  - apply shrinks_bind; [apply shrinks_read_bytes|intros; apply shrinks_ret].
Qed.

Lemma shrinks_sized v : shrinks (read_sized stack v).
Proof.
  apply shrinks_bind; [apply shrinks_uint32|intros; apply shrinks_read_bytes].
Qed.

Lemma returns_pinged r : returns 0 1 (run_once pinged) r.
Proof.
  destruct (pinged_onto r) as (r' & E & V & _ & _ & B & I).
  exists (Ok tt), r'. unfold run_once, left_of. rewrite E, I.
  split; [done|]. split; [lia|]. split; [done|]. split; [done|]. lia.
Qed.

Lemma read_control_returns fuel r :
  (left_of r < fuel)%nat -> returns 1 1 (read_control stack fuel) r.
Proof.
  revert r. induction fuel as [|fuel IH]; intros r L; [lia|].
  cbn [read_control]. apply returns_read. unfold left_of in L.
  destruct (inp r) as [|c l] eqn:E; [by apply returns_throw; left|].
  assert (returns 1 1 (run_once (modify (set_inp l) : impl unit)) r) as R0.
  { exists (Ok tt), (set_inp l r). split; [done|]. unfold left_of. rewrite E. cbn.
    split; [lia|]. split; [done|]. split; [done|]. lia. }
  change 1%nat with (1 + 0)%nat. eapply (returns_bind _ _ _ 1); [lia|exact R0|].
  intros a1 r1 E1 L1 V1. unfold left_of in L1. rewrite E in L1. cbn in L1.
  destruct (control_byte pong <? wrap_s 8 c); [by apply returns_throw; left|].
  destruct (c =? control_byte keep_going); [apply returns_ret|].
  destruct (c =? control_byte interrupt); [apply returns_ret|].
  change 0%nat with (0 + 0)%nat. eapply (returns_bind _ _ _ 1); [lia| |].
  - destruct (c =? control_byte message).
    { destruct (returns_on_input _ r1 (shrinks_sized (version r)))
        as ([a|e] & r2 & E2 & L2 & B2 & V2 & P2).
      - exists (Ok tt), r2. unfold run_once in *. injection E2 as E2.
        by rewrite (bind_Ok _ _ _ _ _ E2).
      - exists (Throw e), r2. unfold run_once in *. injection E2 as E2.
        by rewrite (bind_Throw _ _ _ _ _ E2). }
    destruct (c =? control_byte ping); [apply returns_pinged|].
    destruct (c =? control_byte pong); [by apply returns_modify|apply returns_ret].
  - intros a2 r2 E2 L2 V2. eapply (returns_weaken 1 _ 1); [lia|lia|]. apply IH.
    unfold left_of in *. cbn in L. lia.
Qed.

Lemma read_chunks_returns fuel missing packet r :
  (left_of r < fuel)%nat -> returns 0 1 (read_chunks stack fuel missing packet) r.
Proof.
  revert missing packet r. induction fuel as [|fuel IH]; intros missing packet r L; [lia|].
  cbn [read_chunks]. apply returns_read. cbv zeta.
  change 0%nat with (0 + 0)%nat. eapply (returns_bind _ _ _ 1); [lia| |].
  { apply returns_on_input, shrinks_read_bytes. }
  intros l r1 E1 L1 V1. destruct (Nat.leb missing _); [apply returns_ret|].
  eapply (returns_weaken (1 + 0) _ 1); [lia|lia|].
  eapply (returns_bind _ _ _ 0); [lia| |].
  { apply read_control_returns. lia. }
  intros [] r2 E2 L2 V2; [|apply returns_throw; by right].
  eapply (returns_weaken 0 _ 1); [lia|lia|]. apply IH. lia.
Qed.

Lemma skip_interrupted_returns fuel r :
  (left_of r < fuel)%nat -> returns 0 1 (skip_interrupted stack fuel) r.
Proof.
  revert r. induction fuel as [|fuel IH]; intros r L; [lia|].
  cbn [skip_interrupted]. eapply (returns_weaken (1 + 0) _ 1); [lia|lia|].
  eapply (returns_bind _ _ _ 1); [lia|by apply read_control_returns|].
  intros [] r2 E2 L2 V2; [apply returns_ret|apply IH; lia].
Qed.

Lemma read_checked_returns fuel r :
  (left_of r < fuel)%nat -> returns 0 1 (read_checked stack compute_checksum fuel) r.
Proof.
  intros L. unfold read_checked. apply returns_read. cbv zeta.
  change 0%nat with (0 + (0 + 0))%nat. eapply (returns_bind _ _ _ 1); [lia| |].
  { destruct (checksum r); [|apply returns_ret].
    change 0%nat with (0 + 0)%nat. eapply (returns_bind _ _ _ 1); [lia|
       apply returns_on_input, shrinks_sized|intros; apply returns_ret]. }
  intros h r1 E1 L1 V1. eapply (returns_bind _ _ _ 1); [lia| |].
  - unfold read_packet. apply returns_read.
    destruct (Version.geb (version r1) v020);
      [|apply returns_on_input, shrinks_sized].
    change 0%nat with (0 + 0)%nat. eapply (returns_bind _ _ _ 1);
      [lia|apply returns_on_input, shrinks_uint32|].
    intros total r2 E2 L2 V2. apply read_chunks_returns. lia.
  - intros packet r2 E2 L2 V2. destruct h; [|apply returns_ret].
    destruct (bool_decide _); [apply returns_ret|by apply returns_throw; left].
Qed.

(** A packet was begun, and given up by the peer. *)
Definition given_up (r r1 : t) : Prop :=
  exists fuel, _read stack compute_checksum fuel r = Some (Throw InterruptionError, r1).

(** The reader, after the packets that are given up, is between two packets, where
    it reads the control bytes that come before the next one, if the version has any;
    or where a packet begins. *)
Definition between (r r1 : t) : Prop := rtc given_up r r1.
Definition packet_begins (r r2 : t) : Prop :=
  exists fuel r1, between r r1 /\
    if Version.geb (version r1) v030
    then skip_interrupted stack fuel r1 = Some (Ok tt, r2) else r2 = r1.

(** A failure of the control bytes between two packets, and one within a packet. *)
Definition fails_between (r : t) (e : error) (r' : t) : Prop :=
  exists fuel r1, between r r1 /\ Version.geb (version r1) v030 = true /\
    skip_interrupted stack fuel r1 = Some (Throw e, r').
Definition fails_within (r : t) (e : error) : Prop :=
  exists fuel r2 r3, packet_begins r r2 /\
    read_checked stack compute_checksum fuel r2 = Some (Throw e, r3).

(** What [_read] leaves: interrupted by the peer it has read on; failing
    otherwise within a packet it has broken the stream. *)
Lemma _read_returns fuel r : broken r = false -> (left_of r < fuel)%nat ->
  exists res r', _read stack compute_checksum fuel r = Some (res, r') /\
  (left_of r' <= left_of r)%nat /\ version r' = version r /\
  match res with
  | Ok _ => broken r' = false
  | Throw InterruptionError => broken r' = false /\ (left_of r' + 1 <= left_of r)%nat
  | Throw e =>
      broken r' = false /\ fails_between r e r' \/ broken r' = true /\ fails_within r e
  end.
Proof.
  intros B L. unfold _read. rewrite (run_bind _ _ r r r) by done.
  assert (returns 0 1 (if Version.geb (version r) v030 then skip_interrupted stack fuel
    else mret tt) r) as ([[]|e] & r1 & E1 & L1 & B1 & V1 & P1).
  { destruct (Version.geb (version r) v030); [by apply skip_interrupted_returns|].
    apply returns_ret. }
  - rewrite (part_bind _ _ _ _ _ E1).
    assert (packet_begins r r1) as Pb.
    { exists fuel, r. split; [apply rtc_refl|].
      destruct (Version.geb (version r) v030); [done|]. by injection E1. }
    destruct (read_checked_returns fuel r1) as ([a|e] & r2 & E2 & L2 & B2 & V2 & P2);
      [lia| |].
    + exists (Ok a), r2. rewrite (part_catch_ok _ _ _ _ _ E2).
      split; [done|]. split; [lia|]. split; congruence.
    + rewrite (part_catch_throw _ _ _ _ _ E2). destruct (decide (e = InterruptionError)) as [->|N].
      * exists (Throw InterruptionError), r2. split; [done|]. split; [lia|].
        split; [congruence|]. split; [congruence|lia].
      * assert (fails_within r e) as W by by exists fuel, r1, r2.
        exists (Throw e), (set_broken r2). split; [by destruct e|].
        split; [unfold left_of in *; cbn; lia|]. split; [cbn; congruence|].
        destruct e; try done; by right.
  - exists (Throw e), r1. split; [by rewrite (part_throw _ _ _ _ _ E1)|].
    split; [done|]. split; [done|].
    destruct (Version.geb (version r) v030) eqn:V; [|done].
    assert (fails_between r e r1) as W by (exists fuel, r; split; [apply rtc_refl|done]).
    destruct e; try (left; split; [congruence|exact W]). split; [congruence|done].
Qed.

Lemma fails_given_up r r1 e r' : given_up r r1 ->
  broken r' = false /\ fails_between r1 e r' \/ broken r' = true /\ fails_within r1 e ->
  broken r' = false /\ fails_between r e r' \/ broken r' = true /\ fails_within r e.
Proof.
  intros G [[B (fuel & r2 & T & F)]|[B (fuel & r2 & r3 & (f2 & r0 & T & Pb) & F)]]; [left|right];
    (split; [done|]).
  - exists fuel, r2. split; [by eapply rtc_l|done].
  - exists fuel, r2, r3. split; [|done]. exists f2, r0. split; [by eapply rtc_l|done].
Qed.

Lemma read_loop_returns fuel r : broken r = false -> (left_of r < fuel)%nat ->
  exists res r', read_loop stack compute_checksum fuel r = Some (res, r') /\
  (left_of r' <= left_of r)%nat /\
  match res with
  | Ok _ => broken r' = false
  | Throw e => e <> InterruptionError /\
      (broken r' = false /\ fails_between r e r' \/ broken r' = true /\ fails_within r e)
  end.
Proof.
  revert r. induction fuel as [|fuel IH]; intros r B L; [lia|].
  cbn [read_loop]. rewrite (run_bind _ _ r r r) by done. rewrite B.
  destruct (_read_returns (S fuel) r B L) as ([a|e] & r1 & E1 & L1 & V1 & P1).
  - exists (Ok a), r1. by rewrite (part_catch_ok _ _ _ _ _ E1).
  - rewrite (part_catch_throw _ _ _ _ _ E1).
    destruct (decide (e = InterruptionError)) as [->|N].
    + destruct P1 as [B1 P1].
      destruct (IH r1 B1 ltac:(lia)) as (res & r2 & E2 & L2 & P2).
      exists res, r2. split; [done|]. split; [lia|].
      destruct res as [a|e]; [done|]. destruct P2 as [N P2]. split; [done|].
      eapply fails_given_up; [by eexists|exact P2].
    + exists (Throw e), r1. split; [by destruct e|]. split; [done|]. split; [done|].
      by destruct e.
Qed.

(** C37. Whatever the peer sends, reading a packet returns or throws, without
    more turns than there are bytes; it never hands the interruption of a
    packet to its caller. If it throws within a packet, that is once the control
    bytes that come before it, if the version has any, were read, the stream is
    broken, for good: the next read fails at once and takes nothing. If it throws
    between two packets, which only happens since 0.3.0, the stream is not broken. *)
Theorem reading_terminates r :
  broken r = false -> exists res r',
  read_one stack compute_checksum r = Some (res, r') /\
  (left_of r' <= left_of r)%nat /\
  match res with
  | Ok _ => broken r' = false
  | Throw e => e <> InterruptionError /\
      (broken r' = false /\ fails_between r e r' \/
       broken r' = true /\ fails_within r e /\
       read_one stack compute_checksum r' = Some (Throw StreamBroken, r'))
  end.
Proof.
  intros B. destruct (read_loop_returns (S (left_of r)) r B ltac:(lia))
    as (res & r' & E & L & P).
  exists res, r'. split; [exact E|]. split; [done|].
  destruct res as [a|e]; [done|]. destruct P as [N [P|[B' W]]]; (split; [done|]); [by left|right].
  split; [done|]. split; [done|]. unfold read_one. rewrite (run_bind _ _ r' r' r') by done.
  cbn [read_loop]. rewrite (run_bind _ _ r' r' r') by done. by rewrite B'.
Qed.

(** *** Agreeing on a version *)

(** The constructor of Serializer: the version it then answers, and its
    implementation, which is given the parameter of the constructor. *)
Definition create (local : Version.t) (chunk : nat) (check : bool) (l : bytes) :
    result error (Version.t * t) :=
  let impl l o := mkImpl local chunk check false 0 0 0 false l o in
  if Version.geb local v020 then
    match (Binary.check_magic;; Binary.get Binary.version stack : Binary.input _) l with
    | (Ok peer, l') =>
        Ok (if Version.ltb local peer then local else peer,
            impl l' (Binary.write_magic ++ Binary.put Binary.version local))
    | (Throw e, _) => Throw (NumberError e)
    end
  else Ok (local, impl l []).

Definition announce (v : Version.t) : bytes :=
  Binary.write_magic ++ Binary.put Binary.version v.

(** The first byte of a number is not zero, unless the number is. *)
Lemma first_byte n : 1 <= n < 2 ^ 32 -> exists c l,
  Binary.serialize_number (wrap_u 32 n) = c :: l /\ 1 <= c.
Proof.
  intros B. rewrite wrap_u_id by lia.
  rewrite Binary.serialize_number_magnitude by (unfold int64_range; lia).
  destruct (Z.ltb_spec n 0); [lia|]. rewrite Z.abs_eq by lia.
  unfold Binary.serialize_magnitude.
  destruct (Z.leb_spec n 63); [eexists _, _; split; [done|]; rewrite wrap_u_id; lia|].
  destruct (Z.leb_spec n 8191).
  { pose proof (Binary.shiftr_bound n 8 32 ltac:(lia) ltac:(lia)).
    eexists _, _. split; [done|]. rewrite wrap_u_id; lia. }
  destruct (Z.leb_spec n 1048575); [|by eexists _, _].
  pose proof (Binary.shiftr_bound n 16 16 ltac:(lia) ltac:(lia)).
  eexists _, _. split; [done|]. rewrite wrap_u_id; lia.
Qed.

Lemma number_bytes n : 0 <= n < 2 ^ 32 ->
  Forall is_byte (Binary.serialize_number (wrap_u 32 n)).
Proof.
  intros B. rewrite wrap_u_id by lia.
  rewrite Binary.serialize_number_magnitude by (unfold int64_range; lia).
  unfold Binary.serialize_magnitude. destruct (Z.ltb_spec n 0); [lia|].
  repeat case_match; repeat constructor; try (apply (wrap_u_range 8); lia);
    try (by unfold is_byte); apply (le_split_bytes 8).
Qed.

(** Four bytes that do not begin with two zeros make a large number. *)
Lemma large_size a b c d : is_byte a -> is_byte b -> is_byte c -> is_byte d ->
  1 <= a \/ 1 <= b -> 65536 <= host_order [a; b; c; d].
Proof. unfold is_byte, host_order. cbn. lia. Qed.

(** Read as of 0.2.0, a size that does not begin with two zeros runs over the
    end of a short stream. *)
Lemma oversized_eos a b l : is_byte a -> is_byte b -> Forall is_byte l ->
  1 <= a \/ 1 <= b -> Z.of_nat (length l) < 65536 ->
  read_sized stack v020 (a :: b :: l) = (Throw EOS, []).
Proof.
  intros A B L H S. unfold read_sized, uint32_get.
  change (Version.geb v020 v030) with false. cbv iota.
  destruct l as [|c [|d l]]; [done|done|].
  apply Forall_cons in L as [C L]. apply Forall_cons in L as [D L].
  assert (read_bytes 4 (a :: b :: c :: d :: l) = (Ok [a; b; c; d], l)) as R.
  { exact (read_bytes_app [a; b; c; d] l). }
  assert ((l0 ← read_bytes 4; mret (host_order l0) : method bytes error Z)
    (a :: b :: c :: d :: l) = (Ok (host_order [a; b; c; d]), l)) as R'.
  { by rewrite (bind_Ok _ _ _ _ _ R). }
  rewrite (bind_Ok _ _ _ _ _ R'). pose proof (large_size a b c d A B C D H) as G.
  unfold read_bytes. rewrite bind_read.
  destruct (Nat.ltb_spec (length l) (Z.to_nat (host_order [a; b; c; d]))); [done|].
  cbn [length] in S. lia.
Qed.

Lemma noise_bytes v N : Forall (noise v) N -> Forall is_byte N.
Proof.
  intros HN. eapply Forall_impl; [exact HN|]. intros c [_ [-> | ->]]; by unfold is_byte.
Qed.

Lemma chunked_bytes v k left b W :
  Forall is_byte left -> chunked v k left b W -> Forall is_byte W.
Proof.
  intros B C. induction C as [N HN|left N NE HN|left N b W NE HN C IH].
  - by eapply noise_bytes.
  - apply Forall_app. split; [by eapply noise_bytes|]. by repeat constructor.
  - apply Forall_app. split; [by eapply noise_bytes|]. constructor; [done|].
    apply Forall_app. split; [by apply Forall_take|]. by apply IH, Forall_drop.
Qed.

(** Two peers of different versions agree on the oldest one, and then each
    speaks its own: the implementation is given the version of the
    constructor's argument instead of the one that was agreed upon. A 0.2.0
    reader takes the control byte a 0.3.0 writer begins with for the high bits
    of a size, waits for bytes that do not come, and its stream is broken. *)
Theorem negotiation_is_ignored chunk packet :
  (0 < chunk)%nat -> sendable packet -> Forall is_byte packet ->
  sendable (compute_checksum packet) -> Forall is_byte (compute_checksum packet) ->
  compute_checksum packet <> [] ->
  exists w r w' F,
  create v030 chunk true (announce v020) = Ok (v020, w) /\
  create v020 chunk true (announce v030) = Ok (v020, r) /\
  _write compute_checksum (S (length packet)) packet [] w = Some (Ok true, w') /\
  out w' = out w ++ F /\
  (Z.of_nat (length F) < 65536 -> exists r',
   read_one stack compute_checksum (set_inp F r) = Some (Throw EOS, r') /\
   broken r' = true).
Proof.
  intros K S B SC BC NC.
  set (w := mkImpl v030 chunk true false 0 0 0 false [] (announce v030)).
  set (r := mkImpl v020 chunk true false 0 0 0 false [] (announce v020)).
  destruct (_write_spec (Datatypes.S (length packet)) packet [] w)
    as (b & F & w' & E & HF & (V & K' & C & O) & _ & T); [done|cbn; lia|done|constructor|].
  rewrite (T ltac:(constructor)) in E. exists w, r, w', F.
  split; [done|]. split; [done|]. split; [done|]. split; [done|]. intros LF.
  destruct HF as (T0 & HS & HF). unfold started in HS. cbn in HS.
  destruct HS as (N & HN & ->). cbn [w version checksum chunk_size] in HF.
  change (Version.geb v030 v020) with true in HF. cbv iota in HF.
  destruct HF as (W & HC & EF).
  assert (1 <= Z.of_nat (length (compute_checksum packet)) < 2 ^ 32) as LH.
  { unfold sendable in SC. destruct (compute_checksum packet); [done|]. cbn in *. lia. }
  destruct (first_byte _ LH) as (h & hs & Eh & Hh).
  assert (Forall is_byte F) as BF.
  { rewrite EF. unfold write_sized, uint32_put. cbn [Version.geb].
    change (Version.geb v030 v030) with true. cbv iota.
    unfold sendable in S. rewrite !Forall_app. split_and!; try done.
    - by eapply noise_bytes.
    - by repeat constructor.
    - apply number_bytes. lia.
    - apply number_bytes. lia.
    - by apply Forall_take.
    - eapply chunked_bytes; [|exact HC]. by apply Forall_drop. }
  assert (exists x y l, F = x :: y :: l /\ (1 <= x \/ 1 <= y)) as (x & y & l & -> & XY).
  { rewrite EF. unfold write_sized, uint32_put.
    change (Version.geb v030 v030) with true. cbv iota. rewrite Eh.
    destruct HN as [|n N [_ Hn] HN]; [by eexists 0, h, _; split; [done|right]|].
    assert (1 <= n) by (destruct Hn as [-> | ->]; done).
    destruct N as [|n' N]; eexists n, _, _; split; try done; by left. }
  apply Forall_cons in BF as [X BF]. apply Forall_cons in BF as [Y BF].
  pose proof (oversized_eos x y l X Y BF XY) as R. cbn [length] in LF.
  specialize (R ltac:(lia)).
  exists (set_broken (set_inp [] r)). split; [|done].
  unfold read_one. rewrite (run_bind _ _ _ (set_inp (x :: y :: l) r) (set_inp (x :: y :: l) r)) by done.
  cbn [read_loop]. rewrite (run_bind _ _ _ (set_inp (x :: y :: l) r) (set_inp (x :: y :: l) r)) by done.
  change (broken (set_inp (x :: y :: l) r)) with false. cbv iota.
  assert (on_input (read_sized stack v020) (set_inp (x :: y :: l) r) =
    (Throw EOS, set_inp [] r)) as R1 by (unfold on_input; cbn [set_inp inp]; by rewrite R).
  assert (forall fuel, _read stack compute_checksum fuel (set_inp (x :: y :: l) r) =
    Some (Throw EOS, set_broken (set_inp [] r))) as R2.
  { intros fuel. unfold _read.
    rewrite (run_bind _ _ _ (set_inp (x :: y :: l) r) (set_inp (x :: y :: l) r)) by done.
    rewrite (part_bind _ _ _ tt (set_inp (x :: y :: l) r)) by done.
    assert (read_checked stack compute_checksum fuel (set_inp (x :: y :: l) r) =
      Some (Throw EOS, set_inp [] r)) as R2;
      [|by rewrite (part_catch_throw _ _ _ _ _ R2)].
    unfold read_checked.
    rewrite (run_bind _ _ _ (set_inp (x :: y :: l) r) (set_inp (x :: y :: l) r)) by done.
      apply part_throw. cbn [checksum set_inp r]. by apply run_throw. }
  by rewrite (part_catch_throw _ _ _ _ _ (R2 _)).
Qed.
End Frames.

(** *** On concrete packets *)

Definition toy_checksum (p : bytes) : bytes := [wrap_u 8 (foldr Z.add 0 p); 7].
Definition fresh (v : Version.t) (l : bytes) : t :=
  mkImpl v 2 true false 0 0 0 false l [].

(** Three packets; a ping is answered during the first, the second is given
    up after its second chunk. *)
Definition three_packets : list (bytes * list pause) :=
  [([1; 2; 3; 4; 5], [no_pause; mkPause 1 1 false]);
   ([6; 7; 8; 9; 10; 11], [no_pause; mkPause 0 0 true]);
   ([12], [])].

Lemma packets_arrive_witness : exists bs w',
  write_all toy_checksum three_packets (fresh v030 []) = Some (Ok bs, w') /\
  forall r, version r = v030 -> chunk_size r = 2%nat -> checksum r = true ->
    broken r = false -> inp r = out w' ->
    exists r', read_many [] toy_checksum
      (length (completed (zip three_packets.*1 bs))) r =
      Some (Ok (completed (zip three_packets.*1 bs)), r').
Proof.
  destruct (packets_arrive [] toy_checksum three_packets (fresh v030 []))
    as (bs & w' & E & _ & R).
  - cbn. lia.
  - done.
  - done.
  - repeat constructor; done.
  - exists bs, w'. split; [exact E|]. exact R.
Defined.

Lemma three_packets_sent :
  (fun x => match x with Some (Ok bs, w') => (bs, out w') | _ => ([], []) end)
    (write_all toy_checksum three_packets (fresh v030 [])) =
  ([true; false; true],
   [0; 2; 15; 7; 5; 1; 2; 0; 3; 4; 4; 3; 0; 5;
    0; 2; 51; 7; 6; 6; 7; 0; 8; 9; 1;
    0; 2; 12; 7; 1; 12]).
Proof. reflexivity. Qed.

(** A packet that is cut short. *)
Lemma reading_terminates_witness :
  broken (fresh v030 [3; 200; 4; 0; 2; 9]) = false /\ exists r',
  read_one [] toy_checksum (fresh v030 [3; 200; 4; 0; 2; 9]) = Some (Throw EOS, r') /\
  broken r' = true /\ read_one [] toy_checksum r' = Some (Throw StreamBroken, r').
Proof.
  split; [done|].
  destruct (reading_terminates [] toy_checksum (fresh v030 [3; 200; 4; 0; 2; 9]) eq_refl)
    as (res & r' & E & _ & H).
  assert (match read_one [] toy_checksum (fresh v030 [3; 200; 4; 0; 2; 9]) with
          | Some (Throw EOS, r') => broken r' | _ => false end = true) as X
    by (vm_compute; reflexivity).
  rewrite E in X. destruct res as [a|[]]; try discriminate X.
  exists r'. split; [exact E|]. split; [exact X|].
  destruct H as [_ [[B _]|(_ & _ & H)]]; [rewrite B in X; discriminate X|exact H].
Defined.

Lemma negotiation_is_ignored_witness : exists w r w' F,
  create [] v030 2 true (announce v020) = Ok (v020, w) /\
  create [] v020 2 true (announce v030) = Ok (v020, r) /\
  _write toy_checksum 4 [5; 6; 7] [] w = Some (Ok true, w') /\
  out w' = out w ++ F /\
  (Z.of_nat (length F) < 65536 -> exists r',
   read_one [] toy_checksum (set_inp F r) = Some (Throw EOS, r') /\ broken r' = true).
Proof.
  apply (negotiation_is_ignored [] toy_checksum 2 [5; 6; 7]).
  - lia.
  - done.
  - repeat constructor; done.
  - done.
  - repeat constructor; done.
  - done.
Defined.
End Protocol.
