(* ===== verification/Channels.v ===== *)
(** The channels multiplexed over a connection: elle/src/elle/protocol/
    ChanneledStream.cc and Channel.cc, over the packets of Protocol.v.

    A stream hands each packet it receives to the channel it names, opening a
    channel for a name it does not know. The two ends draw the names of the
    channels they open from disjoint sets, so that both sides of a name are
    always the same conversation; the last sections put two ends together and
    prove that each channel then is a pair of queues. *)

From stdpp Require Import base tactics option list gmap.
From Stdlib Require Import ZArith Lia.
From S2P Require Import Prelude Versions Buffers Streams Addresses Binary Protocol.
Open Scope Z_scope.

Module Channels.

Inductive error :=
  | AssertError
  | BackendFailed                 (* the exception of the reading thread *)
  | Blocked                       (* the coroutine waits *)
  | BadPacket (e : Protocol.error).

(** The packets each channel has not handed over yet, by name, and the
    channels that nobody accepted yet, which are in the map as well. *)
Record t := mkStream {
  master : bool;
  id_current : Z;
  channels : gmap Z (list bytes);
  channels_new : list Z;
  failed : bool
}.

Abbreviation stream := (method t error).

Definition set_id (i : Z) (s : t) : t :=
  mkStream (master s) i (channels s) (channels_new s) (failed s).
Definition set_channels (m : gmap Z (list bytes)) (s : t) : t :=
  mkStream (master s) (id_current s) m (channels_new s) (failed s).
Definition set_new (l : list Z) (s : t) : t :=
  mkStream (master s) (id_current s) (channels s) l (failed s).

(** *** Who is the master *)

(** [_handshake], given the characters both ends draw in turn; [None] while
    they keep drawing the same. *)
Fixpoint handshake (rolls : list (Z * Z)) : option bool :=
  match rolls with
  | [] => None
  | (mine, his) :: rolls' =>
      let mine := wrap_s 8 mine in
      let his := wrap_s 8 his in
      if mine =? his then handshake rolls' else Some (his <? mine)
  end.

Lemma handshake_swap rolls : handshake (prod_swap <$> rolls) = negb <$> handshake rolls.
Proof.
  induction rolls as [|[mine his] rolls IH]; [done|]. cbn.
  rewrite (Z.eqb_sym (wrap_s 8 his)).
  destruct (Z.eqb_spec (wrap_s 8 mine) (wrap_s 8 his)); [exact IH|]. cbn. f_equal.
  destruct (Z.ltb_spec (wrap_s 8 mine) (wrap_s 8 his)),
    (Z.ltb_spec (wrap_s 8 his) (wrap_s 8 mine)); try done; lia.
Qed.

(** *** Names *)

(** [_id_generate], where incrementing the greatest int gives the least. *)
Definition next_id (m : bool) (i : Z) : Z :=
  if m then let i' := wrap_s 32 (i + 1) in if i' <? 0 then 1 else i'
  else let i' := wrap_s 32 (i - 1) in if 0 <? i' then - 1 else i'.

Definition id_generate : stream Z :=
  res ← reads id_current;
  modify (fun s => set_id (next_id (master s) (id_current s)) s);;
  mret res.

(** *** Channels *)

(** The constructor of Channel, with a name. *)
Definition register (id : Z) (packets : list bytes) : stream unit :=
  s ← read;
  when (bool_decide (is_Some (channels s !! id))) (throw AssertError);;
  when (failed s) (throw BackendFailed);;
  write (set_channels (<[id := packets]> (channels s)) s).

(** Opening a channel. *)
Definition open : stream Z :=
  id ← id_generate; register id [];; mret id.

(** The constructor of ChanneledStream: the default channel is the first
    one. *)
Definition create (m : bool) : result error Z * t :=
  open (mkStream m 0 ∅ [] false).

(** The destructor of Channel, but for one that was moved. *)
Definition close (id : Z) : stream unit :=
  if id =? 0 then mret tt
  else
    s ← read;
    when (negb (bool_decide (is_Some (channels s !! id)))) (throw AssertError);;
    write (set_channels (delete id (channels s)) s).

(** [Channel::_read]: a queue is emptied before it raises. *)
Definition get (id : Z) : stream bytes :=
  s ← read;
  match channels s !! id with
  | Some (p :: ps) => write (set_channels (<[id := ps]> (channels s)) s);; mret p
  | _ => if failed s then throw BackendFailed else throw Blocked
  end.

(** [accept]: moving a channel out of the queue rethrows the exception of the
    reading thread, if any. *)
Definition accept : stream Z :=
  s ← read;
  if failed s then throw BackendFailed
  else
    match channels_new s with
    | id :: l => write (set_new l s);; mret id
    | [] => throw Blocked
    end.

(** *** Packets *)

(** [_write(packet, id)]: the packet the backend is given. *)
Definition encode (v : Version.t) (id : Z) (packet : bytes) : bytes :=
  Protocol.uint32_put v id ++ packet.

(** [Stream::uint32_get] on a buffer, which, unlike the one on a stream, does
    not check the number it reads. *)
Definition uint32_get (stack : bytes) (v : Version.t) : method bytes error Z :=
  if Version.geb v Protocol.v030 then fun l =>
    match Protocol.read_number stack l with
    | (Ok res, l') => (Ok (wrap_u 32 res), l')
    | (Throw e, l') => (Throw (BadPacket e), l')
    end
  else
    l ← read;
    if Nat.ltb (length l) 4 then throw AssertError
    else write (drop 4 l);; mret (Protocol.host_order (take 4 l)).

(** One turn of [_read_thread], on a packet of the backend. *)
Definition receive (stack : bytes) (v : Version.t) (packet : bytes) : stream unit :=
  match uint32_get stack v packet with
  | (Throw e, _) => throw e
  | (Ok n, p) =>
      let id := wrap_s 32 n in
      s ← read;
      match channels s !! id with
      | Some ps => write (set_channels (<[id := ps ++ [p]]> (channels s)) s)
      | None =>
          if (master s && (0 <? id)) || (negb (master s) && (id <? 0)) then mret tt
          else
            register id [p];;
            modify (fun s => set_new (channels_new s ++ [id]) s)
      end
  end.

(** The end of [_read_thread], by an exception it catches. *)
Definition fail : stream unit :=
  modify (fun s => mkStream (master s) (id_current s) (channels s) (channels_new s) true).

(** *** Names are drawn from disjoint sets *)

(** The names an end opens channels under, after the default one. *)
Definition own (m : bool) (id : Z) : Prop :=
  if m then 0 < id < 2 ^ 31 else - 2 ^ 31 <= id < 0.

Lemma next_id_own m i : own m i \/ i = 0 -> own m (next_id m i).
Proof.
  unfold own, next_id. intros H. destruct m; cbv zeta.
  - destruct (decide (i = 2 ^ 31 - 1)) as [->|N].
    { by vm_compute. }
    rewrite wrap_s_id by lia. destruct (Z.ltb_spec (i + 1) 0); lia.
  - destruct (decide (i = - 2 ^ 31)) as [->|N].
    { by vm_compute. }
    rewrite wrap_s_id by lia. destruct (Z.ltb_spec 0 (i - 1)); lia.
Qed.

Lemma own_int32 m id : own m id -> int32_range id.
Proof. unfold own, int32_range. destruct m; lia. Qed.

Lemma own_other m id : own m id -> own (negb m) id -> False.
Proof. unfold own. destruct m; simpl; lia. Qed.

(** *** A packet names its channel *)

Lemma wrap_name id : int32_range id -> wrap_s 32 (wrap_u 32 id) = id.
Proof.
  intros [L U]. unfold wrap_u, wrap_s.
  rewrite Zplus_mod_idemp_l. change (wrap_s 32 id = id). apply wrap_s_id; lia.
Qed.

Lemma decode_encode stack v id packet : int32_range id ->
  uint32_get stack v (encode v id packet) = (Ok (wrap_u 32 id), packet).
Proof.
  intros R. pose proof (wrap_u_range 32 id ltac:(lia)) as B.
  unfold uint32_get, encode, Protocol.uint32_put.
  destruct (Version.geb v Protocol.v030).
  - unfold Protocol.read_number.
    rewrite Binary.number_read_back by (unfold int64_range; lia).
    unfold Binary.read_back. destruct (Z.eqb_spec (wrap_u 32 id) (- 2 ^ 63)); [lia|].
    by rewrite (wrap_u_id 32 (wrap_u 32 id)).
  - rewrite bind_read, length_app, Protocol.length_network_order.
    destruct (Nat.ltb_spec (4 + length packet) 4); [lia|]. monad_unfold.
    assert (4%nat = length (Protocol.network_order (wrap_u 32 (wrap_u 32 id)))) as L
      by (by rewrite Protocol.length_network_order).
    rewrite (wrap_u_id 32 (wrap_u 32 id)) in * by lia.
    rewrite (take_app_length' _ _ _ L), (drop_app_length' _ _ _ L).
    by rewrite Protocol.network_round_trip.
Qed.

(** *** Two ends *)

Section World.
Context (stack : bytes) (v : Version.t).

(** The ends, the master being [true]; the packets each sent that did not
    arrive yet; and, for the record, what each wrote to a channel and what it
    got from it. *)
Record world := mkWorld {
  ends : bool -> t;
  wire : bool -> list bytes;
  sent : bool -> Z -> list bytes;
  got : bool -> Z -> list bytes
}.

Definition upd {A} (f : bool -> A) (b : bool) (a : A) : bool -> A :=
  fun b' => if Bool.eqb b' b then a else f b'.
Definition log (f : bool -> Z -> list bytes) (b : bool) (id : Z) (p : bytes) :
    bool -> Z -> list bytes :=
  upd f b (fun i => if i =? id then f b i ++ [p] else f b i).

Definition set_end (b : bool) (s : t) (w : world) : world :=
  mkWorld (upd (ends w) b s) (wire w) (sent w) (got w).

(** What the two programs, and the network, do. A coroutine can only write to
    a channel it holds; a call that throws leaves what it changed. *)
Inductive event :=
  | Open (b : bool)
  | Accept (b : bool)
  | Write (b : bool) (id : Z) (packet : bytes)
  | Arrive (b : bool)                          (* at [b] *)
  | Get (b : bool) (id : Z).

Definition happen (e : event) (w : world) : world :=
  match e with
  | Open b => set_end b (open (ends w b)).2 w
  | Accept b => set_end b (accept (ends w b)).2 w
  | Write b id p =>
      if decide (is_Some (channels (ends w b) !! id)) then
        mkWorld (ends w) (upd (wire w) b (wire w b ++ [encode v id p]))
          (log (sent w) b id p) (got w)
      else w
  | Arrive b =>
      match wire w (negb b) with
      | [] => w
      | p :: ps =>
          mkWorld (upd (ends w) b (receive stack v p (ends w b)).2)
            (upd (wire w) (negb b) ps) (sent w) (got w)
      end
  | Get b id =>
      match get id (ends w b) with
      | (Ok p, s) => mkWorld (upd (ends w) b s) (wire w) (sent w) (log (got w) b id p)
      | (Throw _, s) => set_end b s w
      end
  end.

Definition run (es : list event) (w : world) : world := fold_left (fun w e => happen e w) es w.

(** Two ends that shook hands. *)
Definition connected : world :=
  mkWorld (fun b => (create b).2) (fun _ => []) (fun _ _ => []) (fun _ _ => []).

(** The packets that are queued at [b], or on their way to it, for a
    channel. *)
Definition queued (w : world) (b : bool) (id : Z) : list bytes :=
  default [] (channels (ends w b) !! id).
Definition travelling (w : world) (b : bool) (id : Z) : list bytes :=
  omap (fun p => match uint32_get stack v p with
    | (Ok n, p') => if wrap_s 32 n =? id then Some p' else None
    | _ => None
    end) (wire w (negb b)).

(** Both ends are open under the names one of them drew, or only the one that
    drew it. *)
Record linked (w : world) : Prop := {
  l_master b : master (ends w b) = b;
  l_sound b : failed (ends w b) = false;
  l_current b : own b (id_current (ends w b));
  l_default b : is_Some (channels (ends w b) !! 0);
  l_channels b id : is_Some (channels (ends w b) !! id) ->
    id = 0 \/ own b id \/
    (own (negb b) id /\ is_Some (channels (ends w (negb b)) !! id));
  l_wire b p : p ∈ wire w b -> exists id q,
    p = encode v id q /\ is_Some (channels (ends w b) !! id);
  l_exact b id : sent w (negb b) id = got w b id ++ queued w b id ++ travelling w b id
}.

Lemma upd_same {A} (f : bool -> A) b a : upd f b a b = a.
Proof. unfold upd. by rewrite Bool.eqb_reflx. Qed.
Lemma upd_other {A} (f : bool -> A) b a : upd f b a (negb b) = f (negb b).
Proof. by destruct b. Qed.
Lemma upd_other' {A} (f : bool -> A) b a : upd f (negb b) a b = f b.
Proof. by destruct b. Qed.

(** Of two ends, one is [b] and the other is not. *)
Ltac each_end b :=
  let b' := fresh "b'" in let N := fresh "N" in
  intros b'; destruct (Bool.bool_dec b' b) as [->|N];
  [|assert (b' = negb b) as -> by (by destruct b', b); clear N];
  rewrite ?upd_same, ?upd_other, ?upd_other'.

(** What opening a channel does to an end. *)
Lemma open_spec s : failed s = false ->
  let s' := (open s).2 in
  master s' = master s /\ failed s' = false /\
  id_current s' = next_id (master s) (id_current s) /\
  (channels s' = channels s \/
   channels s !! id_current s = None /\
   channels s' = <[id_current s := []]> (channels s)).
Proof.
  intros F. unfold open, id_generate, register. monad_unfold. cbn.
  destruct (bool_decide (is_Some (channels s !! id_current s))) eqn:D.
  - cbn. by split_and!; try left.
  - rewrite F. cbn. split_and!; try done. right. split; [|done].
    apply bool_decide_eq_false in D. by apply eq_None_not_Some.
Qed.

(** An end took an event of its own: its other channels are as they were. *)
Lemma linked_end w b s :
  linked w -> master s = b -> failed s = false -> own b (id_current s) ->
  (forall id, is_Some (channels (ends w b) !! id) -> is_Some (channels s !! id)) ->
  (forall id, is_Some (channels s !! id) -> id = 0 \/ own b id \/
     (own (negb b) id /\ is_Some (channels (ends w (negb b)) !! id))) ->
  (forall id, default [] (channels s !! id) = queued w b id) ->
  linked (set_end b s w).
Proof.
  intros L M F C G H Q.
  assert (forall b' id, is_Some (channels (ends w b') !! id) ->
    is_Some (channels (upd (ends w) b s b') !! id)) as G'.
  { each_end b; auto. }
  constructor; cbn [set_end ends wire sent got].
  - each_end b; [done|apply L].
  - each_end b; [done|apply L].
  - each_end b; [done|apply L].
  - intros b'. apply G', L.
  - each_end b; intros id.
    + apply H.
    + intros I. rewrite negb_involutive, upd_same. destruct (l_channels _ L _ _ I) as [?|[?|[O I']]]; auto.
      rewrite negb_involutive in O, I'. auto.
  - intros b' p I. destruct (l_wire _ L b' p I) as (id & q & -> & I'). eauto.
  - intros b' id. rewrite (l_exact _ L). do 2 f_equal. unfold queued.
    cbn [set_end ends].
    revert b'. each_end b; [by rewrite Q|done].
Qed.

Lemma linked_open w b : linked w -> linked (happen (Open b) w).
Proof.
  intros L. destruct (open_spec (ends w b) (l_sound _ L b)) as (M & F & C & D).
  rewrite (l_master _ L) in M, C. cbn [happen].
  pose proof (l_current _ L b) as O.
  apply linked_end; try done.
  - rewrite C. apply next_id_own. by left.
  - intros id I. destruct D as [-> |[_ ->]]; [done|].
    rewrite lookup_insert_is_Some. destruct (decide (id_current (ends w b) = id)); auto.
  - intros id. destruct D as [-> |[_ ->]]; [apply L|].
    rewrite lookup_insert_is_Some. intros [<- |[_ I]]; [by right; left|by apply L].
  - intros id. unfold queued. destruct D as [-> |[N ->]]; [done|].
    destruct (decide (id_current (ends w b) = id)) as [<-|].
    + by rewrite lookup_insert_eq, N.
    + by rewrite lookup_insert_ne.
Qed.

Lemma linked_accept w b : linked w -> linked (happen (Accept b) w).
Proof.
  intros L. cbn [happen]. unfold accept. rewrite bind_read, (l_sound _ L).
  destruct (channels_new (ends w b)) as [|id l]; cbn; apply linked_end; try apply L; done.
Qed.

Lemma linked_name w b id : linked w -> is_Some (channels (ends w b) !! id) ->
  int32_range id.
Proof.
  intros L I. destruct (l_channels _ L _ _ I) as [->|[O|[O _]]];
    [done|by eapply own_int32..].
Qed.

Lemma travelling_cons w b id q ps id' : int32_range id ->
  wire w (negb b) = encode v id q :: ps ->
  travelling w b id' =
    (if id =? id' then [q] else []) ++
    omap (fun p => match uint32_get stack v p with
      | (Ok n, p') => if wrap_s 32 n =? id' then Some p' else None
      | _ => None
      end) ps.
Proof.
  intros R E. unfold travelling. rewrite E. cbn [omap list_omap].
  rewrite decode_encode, wrap_name by done. by destruct (id =? id').
Qed.

(** The payload of a packet that is for channel [id]. *)
Definition payload (id : Z) (p : bytes) : option bytes :=
  match uint32_get stack v p with
  | (Ok n, p') => if wrap_s 32 n =? id then Some p' else None
  | _ => None
  end.

Lemma payload_encode id id' q : int32_range id ->
  payload id' (encode v id q) = if id =? id' then Some q else None.
Proof. intros R. unfold payload. by rewrite decode_encode, wrap_name. Qed.

Lemma log_eq f b id p b' id' :
  log f b id p b' id' =
  if Bool.eqb b' b && (id' =? id) then f b id' ++ [p] else f b' id'.
Proof.
  unfold log, upd. destruct (Bool.eqb b' b) eqn:E; cbn; [|done].
  apply Bool.eqb_prop in E as ->. by destruct (Z.eqb_spec id' id) as [->|].
Qed.

Lemma linked_write w b id p : linked w -> linked (happen (Write b id p) w).
Proof.
  intros L. cbn [happen]. destruct (decide _) as [I|]; [|done].
  pose proof (linked_name w b id L I) as R.
  constructor; cbn [ends wire sent got]; try apply L.
  - each_end b; [|by apply L]. intros q [J|J]%elem_of_app.
    + by apply (l_wire _ L).
    + apply list_elem_of_singleton in J as ->. by eexists id, _.
  - intros b' id'. pose proof (l_exact _ L b' id') as X. revert X.
    unfold queued, travelling. cbn [ends wire]. rewrite log_eq. fold (payload id').
    revert b'. each_end b.
    + replace (Bool.eqb (negb b) b) with false by (by destruct b). done.
    + rewrite negb_involutive, Bool.eqb_reflx, upd_same. cbn [andb].
      rewrite omap_app. cbn [omap list_omap]. rewrite payload_encode by done.
      rewrite (Z.eqb_sym id' id). intros ->.
      destruct (Z.eqb_spec id id') as [->|]; by rewrite ?app_nil_r, <- ?app_assoc.
Qed.

(** What a packet of a channel the other end holds does where it arrives: it
    is queued, in a channel that is opened if need be; it is not discarded. *)
Lemma receive_spec w b id q : linked w ->
  is_Some (channels (ends w (negb b)) !! id) ->
  let s' := (receive stack v (encode v id q) (ends w b)).2 in
  master s' = b /\ failed s' = false /\ id_current s' = id_current (ends w b) /\
  channels s' = <[id := queued w b id ++ [q]]> (channels (ends w b)).
Proof.
  intros L I. pose proof (linked_name w (negb b) id L I) as R.
  pose proof (l_master _ L b) as M. pose proof (l_sound _ L b) as F.
  unfold receive, queued. rewrite decode_encode, wrap_name by done. rewrite bind_read.
  destruct (channels (ends w b) !! id) as [ps|] eqn:C; [by cbn|].
  assert ((master (ends w b) && (0 <? id)) || (negb (master (ends w b)) && (id <? 0)) = false)
    as ->.
  { rewrite M. destruct (l_channels _ L _ _ I) as [->|[O|[_ J]]].
    - destruct (l_default _ L b) as [? J]. congruence.
    - unfold own in O. destruct b; cbn in *; lia.
    - rewrite negb_involutive in J. destruct J as [? J]. congruence. }
  unfold register. rewrite bind_assoc, bind_read, C, F.
  rewrite bool_decide_eq_false_2 by (by intros [? ?]). by cbn.
Qed.

Lemma linked_arrive w b : linked w -> linked (happen (Arrive b) w).
Proof.
  intros L. cbn [happen]. destruct (wire w (negb b)) as [|p ps] eqn:E; [done|].
  destruct (l_wire _ L (negb b) p) as (id & q & -> & I); [rewrite E; by left|].
  pose proof (linked_name w (negb b) id L I) as R.
  destruct (receive_spec w b id q L I) as (M & F & C & D).
  set (s := (receive stack v (encode v id q) (ends w b)).2) in *.
  assert (forall id', is_Some (channels (ends w b) !! id') -> is_Some (channels s !! id'))
    as G.
  { intros id' J. rewrite D, lookup_insert_is_Some.
    destruct (decide (id = id')); auto. }
  assert (forall b' id', is_Some (channels (ends w b') !! id') ->
    is_Some (channels (upd (ends w) b s b') !! id')) as G' by (each_end b; auto).
  constructor; cbn [ends wire sent got].
  - each_end b; [done|apply L].
  - each_end b; [done|apply L].
  - each_end b; [rewrite C|]; apply L.
  - intros b'. apply G', L.
  - each_end b; intros id'.
    + rewrite D, lookup_insert_is_Some. intros [<- |[_ J]]; [|by apply L].
      destruct (l_channels _ L _ _ I) as [->|[O|[O J]]]; auto.
      rewrite negb_involutive in O. auto.
    + intros J. rewrite negb_involutive, upd_same.
      destruct (l_channels _ L _ _ J) as [?|[?|[O J']]]; auto.
      rewrite negb_involutive in O, J'. auto.
  - intros b' p J. assert (p ∈ wire w b') as J'.
    { revert J. revert b'. each_end (negb b); [|done]. intros J. rewrite E. by right. }
    destruct (l_wire _ L b' p J') as (id' & q' & -> & K). eauto.
  - intros b' id'. pose proof (l_exact _ L b' id') as X. revert X.
    unfold queued, travelling. cbn [ends wire]. fold (payload id'). revert b'. each_end b.
    + rewrite E. cbn [omap list_omap]. rewrite payload_encode, D by done.
      intros ->. unfold queued. destruct (Z.eqb_spec id id') as [->|N].
      * rewrite lookup_insert_eq. change (default [] (Some ?l)) with l.
        by rewrite <- !app_assoc.
      * by rewrite lookup_insert_ne.
    + rewrite ?negb_involutive, ?upd_other'. done.
Qed.

Lemma get_spec id s :
  (exists p ps, channels s !! id = Some (p :: ps) /\
     get id s = (Ok p, set_channels (<[id := ps]> (channels s)) s)) \/
  default [] (channels s !! id) = [] /\ exists e, get id s = (Throw e, s).
Proof.
  unfold get. rewrite bind_read. destruct (channels s !! id) as [[|p ps]|]; cbn.
  - right. split; [done|]. destruct (failed s); eauto.
  - left. eauto.
  - right. split; [done|]. destruct (failed s); eauto.
Qed.

Lemma linked_get w b id : linked w -> linked (happen (Get b id) w).
Proof.
  intros L. cbn [happen].
  destruct (get_spec id (ends w b)) as [(p & ps & C & ->)|(_ & e & ->)].
  2: { apply linked_end; try done; apply L. }
  set (s := set_channels _ _).
  assert (forall id', is_Some (channels s !! id') <-> is_Some (channels (ends w b) !! id'))
    as G.
  { intros id'. cbn. rewrite lookup_insert_is_Some. destruct (decide (id = id')) as [<-|];
      [|naive_solver]. rewrite C. split; eauto. }
  assert (forall b' id', is_Some (channels (upd (ends w) b s b') !! id') <->
    is_Some (channels (ends w b') !! id')) as G' by (each_end b; [apply G|done]).
  constructor; cbn [ends wire sent got].
  - each_end b; apply L.
  - each_end b; apply L.
  - each_end b; apply L.
  - intros b'. apply G', L.
  - intros b' id' I%G'. destruct (l_channels _ L _ _ I) as [?|[?|[O J]]]; auto.
    right; right. split; [done|]. by apply G'.
  - intros b' q J. destruct (l_wire _ L b' q J) as (id' & q' & -> & K).
    eexists _, _. split; [done|]. by apply G'.
  - intros b' id'. rewrite (l_exact _ L b' id'). unfold queued, travelling.
    cbn [ends wire]. rewrite log_eq. revert b'. each_end b.
    + rewrite Bool.eqb_reflx. cbn [andb s set_channels channels].
      destruct (Z.eqb_spec id' id) as [->|N].
      * rewrite C, lookup_insert_eq. change (default [] (Some ?l)) with l.
        by rewrite <- !app_assoc.
      * by rewrite lookup_insert_ne.
    + by replace (Bool.eqb (negb b) b) with false by (by destruct b).
Qed.

Lemma linked_happen w e : linked w -> linked (happen e w).
Proof.
  destruct e; [apply linked_open|apply linked_accept|apply linked_write
    |apply linked_arrive|apply linked_get].
Qed.

Lemma linked_run es w : linked w -> linked (run es w).
Proof.
  revert w. induction es as [|e es IH]; intros w L; [done|]. by apply IH, linked_happen.
Qed.

Lemma created b : channels (create b).2 = <[0 := []]> ∅.
Proof. by destruct b. Qed.

Lemma linked_connected : linked connected.
Proof.
  constructor; cbn.
  - by intros [].
  - by intros [].
  - by intros []; vm_compute.
  - intros b. rewrite created. by eexists.
  - intros b id. rewrite created, lookup_insert_is_Some.
    intros [<- |[_ [? I]]]; [by left|]. by rewrite lookup_empty in I.
  - intros b p I. by apply not_elem_of_nil in I.
  - intros b id. unfold queued, travelling. cbn. rewrite created, app_nil_r.
    destruct (decide (0 = id)) as [<-|];
      by rewrite ?lookup_insert_eq, ?lookup_insert_ne.
Qed.

(** C30. Channels are queues: whatever the two ends do, short of closing a
    channel, and however their calls and the arrival of packets interleave,
    what an end has got from a channel, followed by what is queued for it and
    what is on its way, is what the other end wrote to it, in that order:
    nothing is lost, discarded, or handed to another channel. *)
Theorem channels_are_queues es b id :
  let w := run es connected in
  sent w (negb b) id = got w b id ++ queued w b id ++ travelling w b id.
Proof. apply l_exact, linked_run, linked_connected. Qed.

(** One end is the master, since both compare the same characters, and the
    names the two ends draw never clash: after any number of openings,
    even when the counter wrapped around, a name that is drawn is positive at
    the master and negative at the other end, so that opening a channel only
    fails when the end that opens it holds a channel of this name still, the
    counter having gone round. *)
Theorem names_do_not_clash rolls es b :
  let w := run es connected in
  let id := id_current (ends w b) in
  handshake (prod_swap <$> rolls) = negb <$> handshake rolls /\
  own b id /\
  (is_Some (channels (ends w b) !! id) ->
   (open (ends w b)).1 = Throw AssertError) /\
  (channels (ends w b) !! id = None ->
   (open (ends w b)).1 = Ok id /\ channels (ends w (negb b)) !! id = None).
Proof.
  cbv zeta. pose proof (linked_run es connected linked_connected) as L.
  set (w := run es connected) in *.
  pose proof (l_current _ L b) as O. pose proof (l_sound _ L b) as F.
  split; [apply handshake_swap|]. split; [done|].
  unfold open, id_generate, register. monad_unfold. cbn. split; intros I.
  - by rewrite bool_decide_eq_true_2.
  - rewrite I, F, bool_decide_eq_false_2 by (by intros [? ?]). cbn. split; [done|].
    apply eq_None_not_Some. intros J.
    destruct (l_channels _ L _ _ J) as [E|[O'|[_ K]]].
    + rewrite E in O. unfold own in O. destruct b; lia.
    + exact (own_other b _ O O').
    + rewrite negb_involutive, I in K. by destruct K.
Qed.
End World.


(** *** On concrete events *)

(** The master opens a channel and writes to it; the other end answers on it
    once it got the packet. *)
Definition a_conversation : list (event) :=
  [Open true; Write true 1 [10]; Write true 1 [11]; Write true 0 [12];
   Arrive false; Accept false; Get false 1; Write false 1 [20]; Arrive true].

Lemma a_conversation_runs :
  let w := run [] Protocol.v030 a_conversation connected in
  got w false 1 = [[10]] /\ queued w true 1 = [[20]] /\
  travelling [] Protocol.v030 w false 1 = [[11]] /\
  travelling [] Protocol.v030 w false 0 = [[12]].
Proof. vm_compute. done. Qed.

Lemma names_do_not_clash_witness :
  let w := run [] Protocol.v030 a_conversation connected in
  id_current (ends w true) = 2 /\ (open (ends w true)).1 = Ok 2 /\
  channels (ends w false) !! 2 = None.
Proof.
  split; [reflexivity|].
  destruct (names_do_not_clash [] Protocol.v030 [(3, 3); (5, 4)] a_conversation true)
    as (_ & _ & _ & H).
  exact (H eq_refl).
Defined.
End Channels.
