(* ===== verification/IntRanges.v ===== *)
(** Sets of integers as ranges: elle/src/elle/IntRange.cc.

    Bounds are unbounded integers here; in the code they are ints, whose
    overflow is undefined. A std::set is the list of its elements in the order
    of [operator <]. *)

From stdpp Require Import base tactics option list sets.
From Stdlib Require Import ZArith Lia Sorted.
From S2P Require Import Prelude.
Open Scope Z_scope.

Module IntRange.

Record t := mkRange { start : Z; end_ : Z }.

#[export] Instance t_eq_dec : EqDecision t.
Proof. solve_decision. Defined.

(** The constructor takes a size. *)
Definition make (s size : Z) : t := mkRange s (s + size).

Definition ltb (a b : t) : bool :=
  (start a <? start b) || ((start a =? start b) && (end_ a <? end_ b)).
Definition gtb (a b : t) : bool :=
  (end_ b <? end_ a) || ((end_ a =? end_ b) && (start b <? start a)).
Definition eqb (a b : t) : bool := (start a =? start b) && (end_ a =? end_ b).

Definition size (r : t) : Z := end_ r - start r.
Definition set_size (n : Z) (r : t) : t := mkRange (start r) (start r + n).
Definition set_start (s : Z) (r : t) : t := mkRange s (end_ r).
Definition empty (r : t) : bool := end_ r <=? start r.

Definition contains_range (r other : t) : bool :=
  (start r <=? start other) && (end_ other <=? end_ r).
Definition contains (r : t) (pos : Z) : bool := (start r <=? pos) && (pos <? end_ r).
Definition overlaps (r other : t) : bool :=
  contains r (start other) || contains r (end_ other).

(** *** IntRanges *)

(** [std::set::emplace] and [erase]. *)
Fixpoint emplace (r : t) (l : list t) : list t :=
  match l with
  | [] => [r]
  | x :: l' =>
      if ltb r x then r :: l else if ltb x r then x :: emplace r l' else l
  end.
Definition erase (r : t) (l : list t) : list t :=
  filter (fun x => eqb x r = false) l.

Definition of_vector (rs : list t) : list t := fold_left (fun l r => emplace r l) rs [].

(** [operator -] *)
Definition minus (a rhs : t) : list t :=
  if negb (overlaps rhs a) && negb (contains_range a rhs) then [a]
  else if contains_range rhs a then []
  else if start rhs <=? start a then [make (end_ rhs) (end_ a - end_ rhs)]
  else if end_ a <=? end_ rhs then [make (start a) (start rhs - start a)]
  else of_vector [make (start a) (start rhs - start a);
                  make (end_ rhs) (end_ a - end_ rhs)].

Fixpoint next_free (l : list t) (position : Z) : Z :=
  match l with
  | [] => position
  | chunk :: l' =>
      if position <=? end_ chunk then
        if position <? start chunk then position else end_ chunk
      else next_free l' position
  end.

Definition ranges_contain (l : list t) (r : t) : bool :=
  existsb (fun chunk => contains_range chunk r) l.
Definition covers (l : list t) (pos : Z) : bool :=
  existsb (fun chunk => contains chunk pos) l.

(** The end of [complete], once no range is left to consider. *)
Definition merge_previous (previous : option t) (r : t) (l : list t) : t * list t :=
  match previous with
  | Some p =>
      if end_ p =? start r then (set_start (start p) r, erase p l) else (r, l)
  | None => (r, l)
  end.

Definition finish (previous : option t) (range : t) (res l : list t) :
    list t * list t :=
  let (range', l') := merge_previous previous range l in
  (emplace range res, emplace range' l').

(** The loop of [complete], over what is left of the set [l]; what it answers
    is the first component. What is added to the answer for the part before a
    range is built from its two bounds, where the constructor wants a size. *)
Fixpoint complete_loop (todo : list t) (previous : option t) (range : t)
    (res l : list t) : list t * list t :=
  match todo with
  | [] => finish previous range res l
  | current :: todo' =>
      if end_ range <? start current then finish previous range res l
      else if overlaps current range then
        if start range <? start current then
          let res' := emplace (make (start range) (start current)) res in
          let (current', l') :=
            merge_previous previous (set_start (start range) current)
              (erase current l) in
          let l'' := emplace current' l' in
          let range' := set_start (end_ current') range in
          if empty range' then (res', l'')
          else complete_loop todo' (Some current') range' res' l''
        else
          let range' := set_start (end_ current) range in
          if empty range' then (res, l)
          else complete_loop todo' (Some current) range' res l
      else complete_loop todo' (Some current) range res l
  end.

Definition complete (range : t) (l : list t) : list t * list t :=
  complete_loop l None range [] l.

(** [operator +=] *)
Definition add (l : list t) (range : t) : list t := (complete range l).2.

(** *** What is covered *)

Definition wf (r : t) : Prop := start r < end_ r.

Lemma covers_emplace r l x : covers (emplace r l) x = contains r x || covers l x.
Proof.
  induction l as [|y l IH]; [done|]. cbn [emplace].
  destruct (ltb r y) eqn:L; [done|]. destruct (ltb y r) eqn:L'.
  - cbn [covers existsb]. fold (covers (emplace r l) x). rewrite IH.
    fold (covers l x). by destruct (contains r x), (contains y x).
  - assert (y = r) as ->.
    { destruct y, r. unfold ltb in *. cbn in *. f_equal; lia. }
    cbn. by destruct (contains r x).
Qed.

Lemma covers_erase r l x : r ∈ l ->
  contains r x || covers (erase r l) x = covers l x.
Proof.
  intros I. assert (forall l, covers (erase r l) x || contains r x =
    covers l x || contains r x) as H.
  { clear I. intros k. induction k as [|y k IH]; [done|].
    unfold erase in *. rewrite filter_cons. cbn [covers existsb]. fold (covers k x).
    destruct (decide (eqb y r = false)) as [N|N].
    - cbn [covers existsb]. fold (covers (filter (fun x => eqb x r = false) k) x).
      rewrite <- !orb_assoc. by rewrite IH.
    - rewrite IH. apply not_false_iff_true in N. unfold eqb in N.
      assert (y = r) as -> by (destruct y, r; cbn in *; f_equal; lia).
      by destruct (contains r x), (covers k x). }
  rewrite orb_comm, H. unfold covers.
  destruct (existsb _ l) eqn:E; [done|]. cbn.
  destruct (contains r x) eqn:C; [|done]. exfalso. apply not_true_iff_false in E.
  apply E, existsb_exists. exists r. split; [by apply list_elem_of_In|done].
Qed.

Lemma contains_spec r x : contains r x = true <-> start r <= x < end_ r.
Proof. unfold contains. lia. Qed.

Lemma range_eqb_eq a b : eqb a b = true <-> a = b.
Proof.
  unfold eqb. destruct a, b. cbn. split; [intros; f_equal; lia|intros [= -> ->]; lia].
Qed.

Lemma elem_erase p r l : p ∈ l -> p <> r -> p ∈ erase r l.
Proof.
  intros I N. unfold erase. apply list_elem_of_filter. split; [|done].
  destruct (eqb p r) eqn:E; [|done]. by apply range_eqb_eq in E.
Qed.

Lemma merge_covers previous r l x : wf r ->
  (forall p, previous = Some p -> end_ p = start r -> p ∈ l /\ wf p) ->
  let (r', l') := merge_previous previous r l in
  contains r' x || covers l' x = contains r x || covers l x.
Proof.
  intros W P. unfold merge_previous. destruct previous as [p|]; [|done].
  destruct (Z.eqb_spec (end_ p) (start r)) as [E|]; [|done].
  destruct (P p eq_refl E) as [I Wp]. rewrite <- (covers_erase p l x I), orb_assoc.
  f_equal. unfold wf, contains, set_start in *. destruct p, r. cbn in *. lia.
Qed.

Lemma finish_covers previous range res l x : wf range ->
  (forall p, previous = Some p -> end_ p = start range -> p ∈ l /\ wf p) ->
  covers (finish previous range res l).2 x = contains range x || covers l x.
Proof.
  intros W P. unfold finish. pose proof (merge_covers previous range l x W P) as M.
  destruct (merge_previous previous range l) as [r' l']. cbn [snd].
  by rewrite covers_emplace.
Qed.

(** Once the set is modified within the loop, nothing is left of the range
    and the loop ends: no iterator is used after its element is erased. *)
Lemma prefix_ends range current :
  overlaps current range = true -> start range < start current ->
  end_ range < end_ current.
Proof. unfold overlaps, contains. lia. Qed.

Lemma complete_loop_covers todo previous range res l x :
  Forall wf l -> wf range -> todo ⊆ l -> (forall p, previous = Some p -> p ∈ l) ->
  covers (complete_loop todo previous range res l).2 x =
  contains range x || covers l x.
Proof.
  intros F. revert previous range res.
  induction todo as [|current todo IH]; intros previous range res W T P;
    cbn [complete_loop].
  { apply finish_covers; [done|]. intros p -> _.
    split; [by apply P|]. rewrite Forall_forall in F. by apply F, P. }
  assert (current ∈ l /\ todo ⊆ l) as [IC T'] by set_solver.
  pose proof F as F'. rewrite Forall_forall in F'. pose proof (F' _ IC) as Wc.
  destruct (Z.ltb_spec (end_ range) (start current)).
  { apply finish_covers; [done|]. intros p -> _. split; [|apply F']; by apply P. }
  destruct (overlaps current range) eqn:O; [|apply IH; try done; congruence].
  destruct (Z.ltb_spec (start range) (start current)) as [S|S].
  - pose proof (prefix_ends range current O S) as E.
    pose proof (merge_covers previous (set_start (start range) current)
      (erase current l) x) as M.
    assert (end_ (merge_previous previous (set_start (start range) current)
      (erase current l)).1 = end_ current) as EE.
    { unfold merge_previous. by destruct previous as [p|]; [destruct (_ =? _)|]. }
    destruct (merge_previous _ _ _) as [current' l'] eqn:EM.
    cbn [fst] in EE. unfold empty. cbn [set_start start end_]. rewrite EE.
    destruct (Z.leb_spec (end_ range) (end_ current)); [|lia]. cbn [snd].
    rewrite covers_emplace, M.
    + rewrite <- (covers_erase current l x IC), orb_assoc. f_equal.
      unfold wf, contains, set_start in *. destruct range, current. cbn in *. lia.
    + unfold wf in *. cbn. lia.
    + intros p -> Ep. cbn in Ep. split; [|by apply F', P].
      apply elem_erase; [by apply P|]. intros ->. unfold wf in Wc. lia.
  - assert (contains range x || covers l x =
      contains (set_start (end_ current) range) x || covers l x) as ->.
    { rewrite <- (covers_erase current l x IC), !orb_assoc. f_equal.
      unfold wf, overlaps, contains, set_start in *. destruct range, current.
      cbn in *. lia. }
    unfold empty. cbn [set_start start end_].
    destruct (Z.leb_spec (end_ range) (end_ current)).
    + cbn [snd]. assert (contains (set_start (end_ current) range) x = false) as ->; [|done].
      unfold contains. cbn. lia.
    + apply IH; [unfold wf; cbn; lia|done|congruence].
Qed.

(** *** Ranges apart from each other *)

Definition before (a b : t) : Prop := ltb a b = true.
Definition gap (a b : t) : Prop := end_ a < start b \/ end_ b < start a.

(** A set whose ranges are not empty and leave a gap between them. *)
Record apart (l : list t) : Prop := {
  a_sorted : StronglySorted before l;
  a_wf r : r ∈ l -> wf r;
  a_gap a b : a ∈ l -> b ∈ l -> a <> b -> gap a b
}.

Lemma elem_emplace x r l : x ∈ emplace r l <-> x = r \/ x ∈ l.
Proof.
  induction l as [|y l IH]; [set_solver|]. cbn [emplace].
  destruct (ltb r y) eqn:L; [set_solver|]. destruct (ltb y r) eqn:L'; [set_solver|].
  assert (y = r) as -> by (destruct y, r; unfold ltb in *; cbn in *; f_equal; lia).
  set_solver.
Qed.

Lemma elem_erase_iff x r l : x ∈ erase r l <-> x ∈ l /\ x <> r.
Proof.
  split; [|intros [? ?]; by apply elem_erase].
  unfold erase. rewrite list_elem_of_filter. intros [E I]. split; [done|].
  intros ->. rewrite (proj2 (range_eqb_eq r r)) in E; done.
Qed.

Lemma before_trans a b c : before a b -> before b c -> before a c.
Proof. unfold before, ltb. lia. Qed.

Lemma sorted_emplace r l : StronglySorted before l -> StronglySorted before (emplace r l).
Proof.
  induction 1 as [|y l S IH F]; [by repeat constructor|]. cbn [emplace].
  destruct (ltb r y) eqn:L.
  { constructor; [by constructor|]. constructor; [done|].
    eapply Forall_impl; [exact F|]. intros z B. by eapply before_trans. }
  destruct (ltb y r) eqn:L'; [|by constructor]. constructor; [done|].
  apply Forall_forall. intros z [->|I]%elem_emplace; [done|].
  rewrite Forall_forall in F. by apply F.
Qed.

Lemma sorted_erase r l : StronglySorted before l -> StronglySorted before (erase r l).
Proof.
  induction 1 as [|y l S IH F]; [constructor|]. unfold erase in *.
  rewrite filter_cons. destruct (decide _); [|done]. constructor; [done|].
  apply Forall_forall. intros z [_ I]%list_elem_of_filter.
  rewrite Forall_forall in F. by apply F.
Qed.

Lemma apart_erase r l : apart l -> apart (erase r l).
Proof.
  intros [S W G]. constructor; [by apply sorted_erase| |].
  - intros x [I _]%elem_erase_iff. by apply W.
  - intros a b [I _]%elem_erase_iff [J _]%elem_erase_iff. by apply G.
Qed.

Lemma apart_emplace r l : apart l -> wf r -> (forall x, x ∈ l -> x <> r -> gap x r) ->
  apart (emplace r l).
Proof.
  intros [S W G] Wr H. constructor; [by apply sorted_emplace| |].
  - intros x [->|I]%elem_emplace; auto.
  - intros a b [->|I]%elem_emplace [->|J]%elem_emplace N; auto; [done|].
    destruct (H b J); unfold gap; [congruence|lia..].
Qed.

(** The ranges of [l] that were considered end where [range] starts at the
    latest, the last one being the only one that may touch it. *)
Definition considered (l todo : list t) (previous : option t) (range : t) : Prop :=
  (forall p, previous = Some p -> p ∈ l) /\
  forall r, r ∈ l -> r ∈ todo \/ ((forall c, c ∈ todo -> start r < start c) /\
    (end_ r < start range \/ (end_ r = start range /\ previous = Some r))).

(** Merging with the range before, then adding what results. *)
Lemma apart_merge previous r l :
  apart l -> wf r -> (forall p, previous = Some p -> end_ p = start r -> p ∈ l) ->
  (forall x, x ∈ l -> end_ r < start x \/ end_ x < start r \/
     (end_ x = start r /\ previous = Some x)) ->
  let (r', l') := merge_previous previous r l in apart (emplace r' l').
Proof.
  intros A Wr P H. unfold merge_previous.
  assert (forall x, x ∈ l -> previous <> Some x \/ end_ x <> start r -> gap x r) as Hn.
  { intros x I N. unfold gap. destruct (H x I) as [?|[?|[? ?]]]; [lia|lia|].
    by destruct N. }
  destruct previous as [p|]; [destruct (Z.eqb_spec (end_ p) (start r)) as [E|N]|].
  - pose proof (P p eq_refl E) as Ip. pose proof (a_wf _ A _ Ip) as Wp.
    apply apart_emplace; [by apply apart_erase| |].
    + unfold wf in *. cbn. lia.
    + intros x [I Nx]%elem_erase_iff _. pose proof (a_wf _ A _ I) as Wx.
      pose proof (a_gap _ A x p I Ip Nx) as G. pose proof (Hn x I) as G'.
      unfold gap, wf in *. cbn. destruct G' as [G'|G']; [left; congruence|lia|lia].
  - apply apart_emplace; [done|done|]. intros x I _. apply Hn; [done|].
    destruct (decide (p = x)) as [->|]; [by right|left; congruence].
  - apply apart_emplace; [done|done|]. intros x I _. apply Hn; [done|]. by left.
Qed.

Lemma finish_apart todo previous range res l :
  apart l -> wf range -> considered l todo previous range ->
  (forall c, c ∈ todo -> end_ range < start c) ->
  apart (finish previous range res l).2.
Proof.
  intros A W [P V] B. unfold finish.
  pose proof (apart_merge previous range l A W) as M.
  destruct (merge_previous previous range l) as [r' l']. cbn [snd]. apply M.
  - intros p E _. by apply P.
  - intros x I. destruct (V x I) as [J|[_ J]]; [left; by apply B|by right].
Qed.

(** No range of [l] lies within [range], except where it starts. *)
Definition not_enclosing (range : t) (l : list t) : Prop :=
  forall r, r ∈ l -> ~ (start range < start r /\ end_ r <= end_ range).

Lemma complete_loop_apart todo previous range res l :
  apart l -> wf range -> StronglySorted before todo -> todo ⊆ l ->
  considered l todo previous range -> not_enclosing range l ->
  apart (complete_loop todo previous range res l).2.
Proof.
  intros A. revert previous range res.
  induction todo as [|current todo IH]; intros previous range res W S T V N;
    cbn [complete_loop].
  { eapply finish_apart; [done..|]. intros c I. by apply not_elem_of_nil in I. }
  inversion S as [|? ? S' F]; subst. rewrite Forall_forall in F.
  assert (current ∈ l /\ todo ⊆ l) as [IC T'] by set_solver.
  pose proof (a_wf _ A _ IC) as Wc. unfold wf in Wc.
  assert (forall c, c ∈ todo -> end_ current < start c) as After.
  { intros c I. pose proof (F c I) as B. pose proof (a_wf _ A _ (T' c I)) as Wx.
    assert (c <> current) as D by (intros ->; unfold before, ltb in B; lia).
    destruct (a_gap _ A c current (T' c I) IC D); [|lia].
    unfold before, ltb, wf in *. lia. }
  assert (forall range', start range <= start range' -> end_ range' = end_ range ->
    not_enclosing range' l) as N'.
  { intros range' L E r I [H1 H2]. apply (N r I). lia. }
  assert (forall range', start range <= start range' -> end_ current <= start range' ->
    considered l todo (Some current) range') as V'.
  { intros range' L E. destruct V as [P V]. split; [congruence|]. intros r I.
    destruct (V r I) as [[->|J]%elem_of_cons|[Q J]].
    - right. split; [intros c Ic; pose proof (After c Ic); lia|].
      destruct (decide (end_ current = start range')); [by right|left; lia].
    - by left.
    - right. split; [intros c Ic; apply Q; by right|].
      pose proof (Q current ltac:(by left)) as Q1.
      assert (r <> current) as D by (intros ->; lia).
      destruct (a_gap _ A r current I IC D); [left; lia|].
      pose proof (a_wf _ A _ I) as Wx. unfold wf in Wx. lia. }
  destruct (Z.ltb_spec (end_ range) (start current)) as [B|B].
  { eapply finish_apart; [done..|]. intros c [->|I]%elem_of_cons; [done|].
    pose proof (After c I). lia. }
  destruct (overlaps current range) eqn:O.
  - destruct (Z.ltb_spec (start range) (start current)) as [L|L].
    + pose proof (prefix_ends range current O L) as E.
      pose proof (apart_merge previous (set_start (start range) current)
        (erase current l) (apart_erase current l A)) as M.
      assert (end_ (merge_previous previous (set_start (start range) current)
        (erase current l)).1 = end_ current) as EE.
      { unfold merge_previous. by destruct previous as [p|]; [destruct (_ =? _)|]. }
      destruct (merge_previous _ _ _) as [current' l'] eqn:EM.
      cbn [fst] in EE. unfold empty. cbn [set_start start end_]. rewrite EE.
      destruct (Z.leb_spec (end_ range) (end_ current)); [|lia]. cbn [snd].
      apply M; cbn [set_start start end_].
      * unfold wf in *. cbn. lia.
      * intros p -> Ep. apply elem_erase; [by apply V|]. intros ->. lia.
      * intros x [I D]%elem_erase_iff. destruct V as [P V].
        destruct (V x I) as [[->|J]%elem_of_cons|[_ J]]; [done| |by right].
        left. by apply After.
    + unfold empty. cbn [set_start start end_].
      destruct (Z.leb_spec (end_ range) (end_ current)); [done|].
      apply IH; [unfold wf; cbn; lia|done|done|apply V'|apply N']; cbn;
        unfold overlaps, contains in O; lia.
  - apply IH; try done. apply V'; [lia|].
    pose proof (N current IC). unfold overlaps, contains, wf in *. lia.
Qed.

Lemma apart_add l range : apart l -> wf range -> not_enclosing range l ->
  apart (add l range).
Proof.
  intros A W N. unfold add, complete.
  apply complete_loop_apart; try done; [apply A|].
  split; [done|]. intros r I. by left.
Qed.

Lemma apart_gap_after r l : apart (r :: l) ->
  apart l /\ forall x, x ∈ l -> end_ r < start x.
Proof.
  intros [S W G]. inversion S as [|? ? S' F]; subst. split.
  - constructor; [done| |]; intros; [apply W|apply G]; set_solver.
  - intros x I. rewrite Forall_forall in F. pose proof (F x I) as B.
    pose proof (W x ltac:(by right)) as Wx. pose proof (W r ltac:(by left)) as Wr.
    destruct (G r x ltac:(by left) ltac:(by right)) as [?|?]; [|done|].
    + intros ->. unfold before, ltb in B. lia.
    + unfold before, ltb, wf in *. lia.
Qed.

Lemma covers_false l x : (forall r, r ∈ l -> contains r x = false) -> covers l x = false.
Proof.
  intros H. apply not_true_iff_false. intros [r [I C]]%existsb_exists.
  rewrite H in C; [done|]. by apply list_elem_of_In.
Qed.

Lemma next_free_least l pos : apart l ->
  pos <= next_free l pos /\ covers l (next_free l pos) = false /\
  forall x, pos <= x < next_free l pos -> covers l x = true.
Proof.
  intros A. induction l as [|r l IH]; [split; [done|]; split; [done|]; cbn; lia|].
  destruct (apart_gap_after r l A) as [A' G]. cbn [next_free].
  pose proof (a_wf _ A r ltac:(by left)) as Wr. unfold wf in Wr.
  assert (forall x, x <= end_ r -> contains r x = false -> covers (r :: l) x = false) as Free.
  { intros x L C. apply covers_false. intros y [->|I]%elem_of_cons; [done|].
    pose proof (G y I). unfold contains. lia. }
  destruct (Z.leb_spec pos (end_ r)) as [L|L].
  - destruct (Z.ltb_spec pos (start r)) as [S|S].
    + split; [lia|]. split; [|lia]. apply Free; [lia|]. unfold contains. lia.
    + split; [lia|]. split; [apply Free; [lia|]; unfold contains; lia|].
      intros x B. cbn. assert (contains r x = true) as -> by (unfold contains; lia). done.
  - destruct (IH A') as (I1 & I2 & I3). split; [done|]. split.
    + change (contains r (next_free l pos) || covers l (next_free l pos) = false).
      rewrite I2. assert (contains r (next_free l pos) = false) as ->; [|done].
      unfold contains. lia.
    + intros x B. change (contains r x || covers l x = true). rewrite (I3 x B). by destruct (contains r x).
Qed.

(** *** Properties *)

(** Subtracting a range from another, and adding a range to a set, do so
    to the integers they cover, as long as ranges are not empty. *)
Theorem ranges_are_sets a b l x :
  wf a -> wf b -> Forall wf l ->
  covers (minus a b) x = contains a x && negb (contains b x) /\
  covers (add l a) x = covers l x || contains a x.
Proof.
  intros Wa Wb F. split.
  - unfold minus. unfold wf in *.
    destruct (negb (overlaps b a) && negb (contains_range a b)) eqn:E1;
      [|destruct (contains_range b a) eqn:E2;
        [|destruct (Z.leb_spec (start b) (start a));
          [|destruct (Z.leb_spec (end_ a) (end_ b))]]].
    5: { unfold of_vector. cbn [fold_left]. rewrite !covers_emplace. cbn [covers existsb].
         unfold overlaps, contains_range, contains, make in *. cbn in *. lia. }
    all: cbn [covers existsb];
      unfold overlaps, contains_range, contains, make in *; cbn in *; lia.
  - unfold add, complete. rewrite complete_loop_covers; try done.
    by rewrite orb_comm.
Qed.

(** A set built by adding ranges none of which encloses one that is
    there keeps its ranges apart, and then [next_free] finds the least integer
    from its argument on that is not covered. *)
Theorem next_free_is_least rs pos :
  Forall wf rs ->
  (forall k r, rs !! k = Some r -> not_enclosing r (fold_left add (take k rs) [])) ->
  let l := fold_left add rs [] in
  apart l /\ pos <= next_free l pos /\ covers l (next_free l pos) = false /\
  forall x, pos <= x < next_free l pos -> covers l x = true.
Proof.
  intros F N l. assert (apart l) as A; [|split; [done|by apply next_free_least]].
  unfold l. clear l. induction rs as [|r rs IH] using rev_ind.
  { constructor; [constructor| |]; intros; set_solver. }
  rewrite fold_left_app. cbn [fold_left].
  apply Forall_app in F as [F [Wr _]%Forall_cons].
  apply apart_add; [|done|].
  - apply IH; [done|]. intros k r' E. pose proof (lookup_lt_Some _ _ _ E).
    pose proof (N k r') as H'. rewrite take_app_le in H' by lia. apply H'.
    by apply lookup_app_l_Some.
  - pose proof (N (length rs) r) as H'. rewrite take_app_length in H'. apply H'.
    by rewrite list_lookup_middle.
Qed.

(** Adding a range that encloses one of the set keeps both: [overlaps]
    only looks at the bounds of its argument. The answer then claims integers
    that were there, adding a range nearby leaves it split, and [next_free]
    answers an integer that is taken. *)
Theorem enclosing_range_is_missed :
  let l := [make 2 2] in
  overlaps (make 2 2) (make 0 10) = false /\
  complete (make 0 10) l = ([make 0 10], [make 0 10; make 2 2]) /\
  let l' := add (add l (make 0 10)) (make 5 7) in
  next_free l' 0 = 10 /\ covers l' 10 = true.
Proof. vm_compute. done. Qed.

Lemma ranges_are_sets_witness :
  wf (make 0 10) /\ wf (make 3 2) /\
  covers (minus (make 0 10) (make 3 2)) 4 = false /\
  covers (add [make 0 2] (make 0 10)) 7 = true.
Proof.
  assert (wf (make 0 10) /\ wf (make 3 2) /\ wf (make 0 2)) as (A & B & C)
    by (unfold wf; cbn; lia).
  split; [done|]. split; [done|].
  destruct (ranges_are_sets (make 0 10) (make 3 2) [make 0 2] 4 A B
    (Forall_cons_2 _ _ _ C (Forall_nil_2 _))) as [M _].
  destruct (ranges_are_sets (make 0 10) (make 3 2) [make 0 2] 7 A B
    (Forall_cons_2 _ _ _ C (Forall_nil_2 _))) as [_ D].
  split; [rewrite M|rewrite D]; reflexivity.
Defined.

Lemma next_free_is_least_witness :
  let l := fold_left add [make 0 2; make 4 2; make 6 2] [] in
  apart l /\ covers l (next_free l 4) = false /\ next_free l 4 = 8.
Proof.
  destruct (next_free_is_least [make 0 2; make 4 2; make 6 2] 4) as (A & _ & B & _).
  - repeat constructor; unfold wf; cbn; lia.
  - intros [|[|[|k]]] r E; cbn in E; try done; injection E as <-; intros x I [H1 H2];
      apply list_elem_of_In in I; vm_compute in I; cbn in H1, H2;
      repeat (destruct I as [<- |I]; [cbn in *; lia|]); done.
  - split; [exact A|]. split; [exact B|reflexivity].
Defined.
End IntRange.
