(* ===== verification/Async.v ===== *)
(** Deferred writes: memo/src/memo/model/doughnut/Async.cc.

    A node may answer a write at once and hand it to the consensus later. The
    operations are kept in order, on disk too when there is a journal, and
    processed one at a time by a loop; a read finds the last one that is
    pending for its address; an operation may be merged with one that is
    pending (squashed).

    The coroutines that are suspended are in the state: the one that processes
    the first operation ([processing]), and those that wait to push one because
    the queue is full ([waiting]). What the consensus below answers is given to
    the step that receives it, and what it was made to do is recorded. *)

From stdpp Require Import base tactics option list gmap sorting.
From Stdlib Require Import ZArith Lia.
From S2P Require Import Prelude.
Open Scope Z_scope.

Module Async.

(** ConflictResolver::squashable: whether to merge with an operation, where to
    put the result, and whether to look for an older one. *)
Inductive Squash :=
  | stop
  | skip
  | at_first_position_stop
  | at_last_position_stop
  | at_first_position_continue
  | at_last_position_continue.

(** What the queue asks of blocks ([B]), of conflict resolvers ([R]) and of
    the signatures of removals ([S]). *)
Class Blocks (B R S D O : Type) := {
  mutable_version : B -> option Z;          (* of a MutableBlock *)
  is_acb : B -> bool;
  seal_at : Z -> B -> B;                    (* ACB::seal(version) *)
  seal : B -> B;
  data : B -> D;
  signature_block : S -> option B;
  with_signature_block : B -> S -> S;
  no_signature : S;
  squashable : R -> R -> Squash * O;        (* this, the previous one *)
  merge : R -> R -> O -> R                  (* make_merge_conflict_resolver *)
}.

Section Async.
Context {A B R S D O M : Type} `{EqDecision A} `{EqDecision D} `{Blocks B R S D O}.
(** What a variable holds that nothing gave a value. *)
Context (indeterminate : Z).

(** Async::Op; a removal has no mode. Nothing gives [version] a value when
    the operation is about an immutable block. *)
Record Op := mkOp {
  address : A;
  block : option B;
  mode : option M;
  resolver : option R;
  remove_signature : S;
  index : Z;
  version : option Z
}.

Definition set_block (b : option B) (o : Op) : Op :=
  mkOp (address o) b (mode o) (resolver o) (remove_signature o) (index o) (version o).
Definition set_resolver (r : option R) (o : Op) : Op :=
  mkOp (address o) (block o) (mode o) r (remove_signature o) (index o) (version o).
Definition set_index (i : Z) (o : Op) : Op :=
  mkOp (address o) (block o) (mode o) (resolver o) (remove_signature o) i (version o).

(** The version of the block of an operation, or of its signature. *)
Definition version_of (b : option B) (s : S) : option Z :=
  match b ≫= mutable_version with
  | Some v => Some v
  | None => signature_block s ≫= mutable_version
  end.
Definition make_op (a : A) (b : option B) (m : option M) (r : option R) (s : S) : Op :=
  mkOp a b m r s (-1) (version_of b s).

(** Moving an operation computes its version again, or leaves it without a
    value. *)
Definition moved (o : Op) : Op :=
  mkOp (address o) (block o) (mode o) (resolver o) (remove_signature o) (index o)
    (version_of (block o) (remove_signature o)).

(** A file of the journal: what [Op::serialize] writes. *)
Record saved := mkSaved {
  s_address : A;
  s_block : option B;
  s_mode : option M;
  s_resolver : option R;
  s_signature : S
}.
Definition save (o : Op) : saved :=
  mkSaved (address o) (block o) (mode o) (resolver o) (remove_signature o).

Inductive error :=
  | MissingBlock (a : A)
  | LoadError              (* the file of an operation cannot be read *)
  | AssertError
  | Blocked.               (* the coroutine waits *)

(** The operation that is processed, with what the consensus was given of it,
    and what is left of it in memory. *)
Record t := mkAsync {
  operations : list Op;                  (* by index *)
  queue : list Z;
  max_size : Z;
  next_index : Z;
  last_processed_index : Z;
  journal : option (gmap Z saved);
  first_disk_index : option Z;
  waiting : list Op;
  processing : option Op
}.

Definition set_operations (l : list Op) (s : t) : t :=
  mkAsync l (queue s) (max_size s) (next_index s) (last_processed_index s) (journal s)
    (first_disk_index s) (waiting s) (processing s).
Definition set_queue (q : list Z) (s : t) : t :=
  mkAsync (operations s) q (max_size s) (next_index s) (last_processed_index s)
    (journal s) (first_disk_index s) (waiting s) (processing s).
Definition set_next (i : Z) (s : t) : t :=
  mkAsync (operations s) (queue s) (max_size s) i (last_processed_index s) (journal s)
    (first_disk_index s) (waiting s) (processing s).
Definition set_last (i : Z) (s : t) : t :=
  mkAsync (operations s) (queue s) (max_size s) (next_index s) i (journal s)
    (first_disk_index s) (waiting s) (processing s).
Definition set_journal (j : option (gmap Z saved)) (s : t) : t :=
  mkAsync (operations s) (queue s) (max_size s) (next_index s) (last_processed_index s) j
    (first_disk_index s) (waiting s) (processing s).
Definition set_first (f : option Z) (s : t) : t :=
  mkAsync (operations s) (queue s) (max_size s) (next_index s) (last_processed_index s)
    (journal s) f (waiting s) (processing s).
Definition set_waiting (l : list Op) (s : t) : t :=
  mkAsync (operations s) (queue s) (max_size s) (next_index s) (last_processed_index s)
    (journal s) (first_disk_index s) l (processing s).
Definition set_processing (o : option Op) (s : t) : t :=
  mkAsync (operations s) (queue s) (max_size s) (next_index s) (last_processed_index s)
    (journal s) (first_disk_index s) (waiting s) o.

Abbreviation async := (method t error).

(** *** The index *)

(** [_operations], ordered by index, which is unique. *)
Fixpoint emplace (o : Op) (l : list Op) : list Op :=
  match l with
  | [] => [o]
  | x :: l' =>
      if index o <? index x then o :: l
      else if index x <? index o then x :: emplace o l' else l
  end.
Definition erase (i : Z) (l : list Op) : list Op := filter (fun o => index o <> i) l.
Definition update (i : Z) (f : Op -> Op) (l : list Op) : list Op :=
  (fun o => if index o =? i then f o else o) <$> l.
Definition find (i : Z) (l : list Op) : option Op :=
  head (filter (fun o => index o = i) l).

(** *** The journal *)

Definition write_journal (o : Op) : async unit :=
  s ← read;
  match journal s with
  | Some j => write (set_journal (Some (<[index o := save o]> j)) s)
  | None => mret tt
  end.
Definition remove_journal (i : Z) : async unit :=
  s ← read;
  match journal s with
  | Some j => write (set_journal (Some (delete i j)) s)
  | None => mret tt
  end.

(** [_load_op]: [all] is whether more than the address is read. What is
    sealed again is what [seal] makes of it. *)
Definition load_op (i : Z) (all : bool) : async Op :=
  s ← read;
  match (journal s ≫= lookup i : option saved) with
  | None => throw LoadError
  | Some f =>
      if all then
        mret (mkOp (s_address f) (seal <$> s_block f) (s_mode f) (s_resolver f)
          (match signature_block (s_signature f) with
           | Some b => with_signature_block (seal b) (s_signature f)
           | None => s_signature f
           end) i (version_of (s_block f) (s_signature f)))
      else mret (mkOp (s_address f) None None None no_signature i None)
  end.

(** An exception the caller catches, and goes on. *)
Definition attempt {X} (m : async X) : async (option X) :=
  try_catch (Some <$> m) (fun e =>
    match e with LoadError => Some (mret None) | _ => None end).

Definition full (s : t) : bool := max_size s <=? Z.of_nat (length (queue s)).

(** *** Pushing *)

(** The search for an operation to merge with, from the last one. *)
Fixpoint search (r : R) (candidates : list Op) (best : option (Op * (Squash * O))) :
    option (Op * (Squash * O)) :=
  match candidates with
  | [] => best
  | c :: l =>
      match resolver c with
      | None => search r l best
      | Some rc =>
          let sq := squashable r rc in
          match sq.1 with
          | stop => best
          | skip => search r l best
          | at_first_position_stop | at_last_position_stop => Some (c, sq)
          | at_first_position_continue | at_last_position_continue =>
              search r l (Some (c, sq))
          end
      end
  end.

(** The operations for the same address but the first of all, which is being
    processed. *)
Definition candidates (o : Op) (l : list Op) : list Op :=
  match l with
  | [] => []
  | first :: _ => rev (filter (fun x => address x = address o /\ index x <> index first) l)
  end.

(** The block of a merged operation takes the version of the first one. *)
Definition reseal (v : option Z) (o : Op) : Op :=
  let v := default indeterminate v in
  match block o with
  | Some b =>
      if is_acb b then set_block (Some (seal_at v b)) o
      else
        match signature_block (remove_signature o) with
        | Some sb =>
            if is_acb sb then
              mkOp (address o) (block o) (mode o) (resolver o)
                (with_signature_block (seal_at v sb) (remove_signature o))
                (index o) (version o)
            else o
        | None => o
        end
  | None =>
      match signature_block (remove_signature o) with
      | Some sb =>
          if is_acb sb then
            mkOp (address o) (block o) (mode o) (resolver o)
              (with_signature_block (seal_at v sb) (remove_signature o))
              (index o) (version o)
          else o
      | None => o
      end
  end.

Definition at_first (q : Squash) : bool :=
  match q with at_first_position_stop | at_first_position_continue => true | _ => false end.

(** The squash check of [_push_op]: what is still to be pushed, if any. *)
Definition squash (o : Op) : async (option Op) :=
  s ← read;
  match resolver o with
  | None => mret (Some o)
  | Some r =>
      match search r (candidates o (operations s)) None with
      | None => mret (Some o)
      | Some (c, (q, opts)) =>
          let cr := match resolver c with Some rc => Some (merge rc r opts) | None => None end in
          let o' := reseal (version c) o in
          if at_first q then
            let f x := mkOp (address x) (block o') (mode o') cr (remove_signature o')
                         (index x) (version x) in
            modify (set_operations (update (index c) f (operations s)));;
            write_journal (f c);;
            mret None
          else
            let last_index := from_option index 0 (last (operations s)) in
            modify (set_operations (erase (index c) (operations s)));;
            remove_journal (index c);;
            match first_disk_index s with
            | Some d =>
                when (d =? index c)
                  (modify (set_first (if last_index <? d + 1 then None else Some (d + 1))))
            | None => mret tt
            end;;
            mret (Some (set_resolver cr o'))
      end
  end.

(** The closure [queue] of [_push_op], when it does not wait. *)
Definition enqueue (o : Op) : async unit :=
  s ← read;
  match first_disk_index s with
  | Some _ => modify (set_operations (emplace (moved (set_block None o)) (operations s)))
  | None =>
      if bool_decide (is_Some (journal s)) && full s then
        write (set_first (Some (index o))
          (set_operations (emplace (moved (set_block None o)) (operations s)) s))
      else
        write (set_queue (queue s ++ [index o])
          (set_operations (emplace (moved o) (operations s)) s))
  end.

(** [_queue.put] waits as long as the queue is full. *)
Definition waits (s : t) : bool :=
  bool_decide (first_disk_index s = None) && negb (bool_decide (is_Some (journal s))) &&
  full s.

(** [_push_op], with ASYNC_SQUASH. An operation pushed while another one waits
    is left for it to push. *)
Definition push_op (squash_enabled : bool) (o : Op) : async unit :=
  o ← (if squash_enabled then squash o else mret (Some o));
  match o with
  | None => mret tt
  | Some o =>
      modify (fun s => set_next (next_index s + 1) s);;
      s ← read;
      let o := set_index (next_index s) o in
      write_journal o;;
      s ← read;
      if negb (bool_decide (waiting s = [])) || waits s then
        modify (set_waiting (waiting s ++ [o]))
      else enqueue o
  end.

(** The coroutine that waited resumes, and pushes those it was left. *)
Fixpoint resume (l : list Op) : async unit :=
  s ← read;
  match l with
  | [] => modify (set_waiting [])
  | o :: l' =>
      if waits s then modify (set_waiting l) else enqueue o;; resume l'
  end.

Definition store (sq : bool) (a : A) (b : B) (m : M) (r : option R) : async unit :=
  push_op sq (make_op a (Some b) (Some m) r no_signature).
Definition remove (sq : bool) (a : A) (rs : S) : async unit :=
  push_op sq (make_op a None None None rs).

(** *** Reading *)

(** [_fetch_cache]: the last operation for the address, if any. *)
Definition last_op (a : A) (l : list Op) : option Op :=
  last (filter (fun o => address o = a) l).

Definition fetch_cache (a : A) (local_version : option Z) : async (option (option B)) :=
  s ← read;
  match last_op a (operations s) with
  | None => mret None
  | Some o =>
      match block o with
      | Some b =>
          if bool_decide (local_version <> None /\ mutable_version b = local_version)
          then mret (Some None)
          else mret (Some (Some b))
      | None =>
          f ← load_op (index o) true;
          match block f with
          | Some b => mret (Some (Some b))
          | None => throw (MissingBlock a)
          end
      end
  end.

(** [_fetch]: [backend] is what the consensus below answers. *)
Definition fetch (backend : A -> option Z -> async (option B)) (a : A)
    (local_version : option Z) : async (option B) :=
  hit ← fetch_cache a local_version;
  match hit with
  | Some b => mret b
  | None => backend a local_version
  end.

(** *** Restoring and loading *)

Definition entries (j : gmap Z saved) : list Z := merge_sort Z.le (elements (dom j)).

(** The loop of [_init]. *)
Fixpoint restore (ids : list Z) : async unit :=
  match ids with
  | [] => mret tt
  | id :: ids' =>
      s ← read;
      o ← attempt (load_op id (negb (full s)));
      match o with
      | None => mret tt
      | Some o =>
          modify (fun s => set_next (Z.max id (next_index s)) s);;
          if full s then
            modify (fun s => set_operations (emplace (moved (set_block None o)) (operations s))
              (set_first (Some (default (index o) (first_disk_index s))) s))
          else
            modify (fun s => set_operations (emplace (moved o) (operations s))
              (set_queue (queue s ++ [index o]) s))
      end;;
      restore ids'
  end.
Definition init : async unit :=
  s ← read;
  match journal s with Some j => restore (entries j) | None => mret tt end.

(** A queue that was just created. *)
Definition fresh (size : Z) (j : option (gmap Z saved)) : t :=
  mkAsync [] [] size 1 0 j None [] None.

(** The loop of [_load_operations], over the operations from the first that is
    only on disk. *)
Fixpoint load_from (l : list Op) : async unit :=
  match l with
  | [] => modify (set_first None)
  | o :: l' =>
      s ← read;
      if full s then modify (set_first (Some (index o)))
      else
        f ← attempt (load_op (index o) true);
        match f with
        | None => mret tt
        | Some f =>
            modify (fun s => set_queue (queue s ++ [index o])
              (set_operations (update (index o) (fun x =>
                mkOp (address x) (block f) (mode f) (resolver f) (remove_signature f)
                  (index x) (version x)) (operations s)) s))
        end;;
        load_from l'
  end.

Definition from_index (i : Z) (l : list Op) : list Op :=
  match find i l with
  | Some _ => filter (fun o => i <= index o) l
  | None => []
  end.

Definition load_operations : async unit :=
  s ← read;
  match journal s, first_disk_index s with
  | Some _, Some d => load_from (from_index d (operations s))
  | _, _ => mret tt
  end.

(** *** Processing *)

(** The indexes of the queue that name no operation any more are dropped. *)
Fixpoint skip_squashed (q : list Z) (l : list Op) : option (Z * list Z) :=
  match q with
  | [] => None
  | i :: q' =>
      match l with
      | o :: _ => if i <? index o then skip_squashed q' l else Some (i, q')
      | [] => skip_squashed q' l
      end
  end.

(** The first part of a turn of [_process_loop], up to the call of the
    consensus, which the block and the resolver are moved to. *)
Definition begin_processing : async unit :=
  s ← read;
  when (Z.of_nat (length (queue s)) <=? max_size s / 2) load_operations;;
  s ← read;
  match skip_squashed (queue s) (operations s) with
  | None => modify (set_queue []);; throw Blocked
  | Some (i, q) =>
      modify (set_queue q);;
      match operations s with
      | o :: l =>
          if negb (index o =? i) then throw AssertError
          else
            modify (set_processing (Some o));;
            match mode o with
            | Some _ => modify (set_operations (set_resolver None (set_block None o) :: l))
            | None => mret tt
            end
      | [] => throw AssertError
      end
  end.

(** The end of a turn: the operation was processed, or given up. *)
Definition finish_processing (i : Z) : async unit :=
  s ← read;
  remove_journal i;;
  when (bool_decide (is_Some (journal s))) (modify (set_last i));;
  modify (fun s => set_processing None (set_operations (erase i (operations s)) s)).

(** What the consensus answers; [Collided] comes with the block that fetching
    the address then gives, if any. *)
Inductive answer := Done | NotThere | Collided (found : option B) | Failed.

(** Whether the block that collided is the one of the operation. *)
Definition idempotent (i : Z) (found : option B) : async bool :=
  match found with
  | None => mret false
  | Some b =>
      o ← attempt (load_op i true);
      match o ≫= block with
      | Some b' => mret (bool_decide (data b = data b'))
      | None => mret false
      end
  end.

(** A turn of [_process_operation]: after a failure, the operation is loaded
    again, as the consensus was given its block; one that cannot be is given
    up. *)
Definition answered (r : answer) : async unit :=
  s ← read;
  match processing s with
  | None => throw Blocked
  | Some o =>
      ok ← (match r, mode o with
            | Done, _ => mret true
            | NotThere, None => mret true
            | Collided found, _ => idempotent (index o) found
            | _, _ => mret false
            end);
      if (ok : bool) then finish_processing (index o)
      else
        f ← attempt (load_op (index o) true);
        match f with
        | Some f => modify (set_processing (Some f))
        | None => finish_processing (index o)
        end
  end.

(** [sync]: whether it returns, now. *)
Definition sync_returns (s : t) : bool := next_index s - 1 <=? last_processed_index s.

(** *** Runs *)

(** What can happen to a queue: its two operations, the loop that starts a
    turn, the consensus below that answers it, and the node that stops, to be
    started again on the same journal. *)
Inductive event :=
  | Store (a : A) (b : B) (m : M) (r : option R)
  | Remove (a : A) (rs : S)
  | Turn
  | Answer (r : answer)
  | Restart.

(** The loop is one coroutine: it starts no turn before the end of the last. *)
Definition step (sq : bool) (e : event) : async unit :=
  s ← read;
  match e with
  | Store a b m r => store sq a b m r
  | Remove a rs => remove sq a rs
  | Turn => match processing s with None => begin_processing | Some _ => throw Blocked end
  | Answer r => answered r
  | Restart => write (fresh (max_size s) (journal s));; init
  end.

(** What the steps answer, and after each the operation that the consensus has
    to do, if any. *)
Fixpoint run (sq : bool) (es : list event) (s : t) :
    list (result error unit * option saved) * t :=
  match es with
  | [] => ([], s)
  | e :: es' =>
      let '(r, s1) := step sq e s in
      let '(l, s2) := run sq es' s1 in
      ((r, save <$> processing s1) :: l, s2)
  end.

(** Whether what the consensus answers ends an operation. *)
Definition settles (f : saved) (r : answer) : bool :=
  match r, s_mode f, s_block f with
  | Done, _, _ => true
  | NotThere, None, _ => true
  | Collided (Some b), _, Some b' => bool_decide (data b = data b')
  | _, _, _ => false
  end.

(** The specification: a queue of operations, and whether its head is being
    done. *)
Definition fifo : Type := list saved * bool.
Definition fifo_step (e : event) (q : fifo) : result error unit * fifo :=
  match e, q with
  | Store a b m r, (l, busy) => (Ok tt, (l ++ [mkSaved a (Some b) (Some m) r no_signature], busy))
  | Remove a rs, (l, busy) => (Ok tt, (l ++ [mkSaved a None None None rs], busy))
  | Turn, ((_ :: _) as l, false) => (Ok tt, (l, true))
  | Answer r, (f :: l, true) => (Ok tt, if settles f r then (l, false) else (f :: l, true))
  | Turn, _ | Answer _, _ => (Throw Blocked, q)
  | Restart, (l, _) => (Ok tt, (l, false))
  end.
Definition doing (q : fifo) : option saved := if q.2 then head q.1 else None.
Fixpoint fifo_run (es : list event) (q : fifo) :
    list (result error unit * option saved) * fifo :=
  match es with
  | [] => ([], q)
  | e :: es' =>
      let '(r, q1) := fifo_step e q in
      let '(l, q2) := fifo_run es' q1 in
      ((r, doing q1) :: l, q2)
  end.

(** The last operation that is pending for an address. *)
Definition last_pending (a : A) (l : list saved) : option saved :=
  last (filter (fun f => s_address f = a) l).

(** *** Lists ordered by index *)

Implicit Types (o x : Op) (l : list Op) (f : saved) (pend : list (Z * saved)).

Lemma emplace_end o l : Forall (fun x => index x < index o) l -> emplace o l = l ++ [o].
Proof.
  induction 1 as [|x l L _ IH]; [done|]. cbn [emplace].
  destruct (Z.ltb_spec (index o) (index x)); [lia|].
  destruct (Z.ltb_spec (index x) (index o)); [|lia]. by rewrite IH.
Qed.

Lemma erase_head i o l : index o = i -> Forall (fun x => i < index x) l ->
  erase i (o :: l) = l.
Proof.
  intros E F. unfold erase. rewrite filter_cons_False by (intros N; by apply N).
  induction F as [|x l L F IH]; [done|]. rewrite filter_cons_True by lia. by rewrite IH.
Qed.

(** What is kept of the operations that are pending, oldest first. *)
Definition ordered pend : Prop := StronglySorted (fun a b => a.1 < b.1) pend.

Definition in_memory (o : Op) (p : Z * saved) : Prop := index o = p.1 /\ save o = p.2.
Definition on_disk (o : Op) (p : Z * saved) : Prop :=
  index o = p.1 /\ address o = s_address p.2 /\ block o = None.

(** What a caller pushes: sealed blocks, and removals without a block. *)
Definition sealed (f : saved) : Prop :=
  seal <$> s_block f = s_block f /\
  (forall b, signature_block (s_signature f) = Some b ->
     with_signature_block (seal b) (s_signature f) = s_signature f) /\
  (s_mode f = None -> s_block f = None).

(** A queue whose pending operations are [pend]: the one that is processed,
    those whose index is queued, and those that are only on disk. *)
Record holds (s : t) (pend : list (Z * saved)) (P Q K : list Op)
    (pP pQ pK : list (Z * saved)) : Prop := {
  h_ops : operations s = P ++ Q ++ K;
  h_pend : pend = pP ++ pQ ++ pK;
  h_memory : Forall2 in_memory Q pQ;
  h_disk : Forall2 on_disk K pK;
  h_queue : queue s = pQ.*1;
  h_first : first_disk_index s = fst <$> head pK;
  h_waiting : waiting s = [];
  h_journal : journal s = Some (list_to_map pend);
  h_ordered : ordered pend;
  h_next : Forall (fun p => p.1 <= next_index s) pend;
  h_sealed : Forall (fun p => sealed p.2) pend;
  h_processing :
    match processing s with
    | None => P = [] /\ pP = []
    | Some o => exists o' p, P = [o'] /\ pP = [p] /\ on_disk o' p /\ in_memory o p
    end
}.

Definition queueing (s : t) pend : Prop :=
  exists P Q K pP pQ pK, holds s pend P Q K pP pQ pK.

Lemma index_of_save o p : in_memory o p \/ on_disk o p -> index o = p.1.
Proof. by intros [[? _]|[? _]]. Qed.

Lemma ordered_keys pend : ordered pend -> NoDup pend.*1.
Proof.
  induction 1 as [|p l St IH F]; cbn; constructor; [|done].
  intros I. apply list_elem_of_fmap in I as (q & E & I).
  rewrite Forall_forall in F. specialize (F q I). lia.
Qed.

Lemma ordered_lookup pend p : ordered pend -> p ∈ pend ->
  (list_to_map pend : gmap Z saved) !! p.1 = Some p.2.
Proof.
  intros Or I. apply elem_of_list_to_map_1; [by apply ordered_keys|]. by destruct p.
Qed.

(** The file of a pending operation reads as the operation. *)
Lemma load_pending s pend p : journal s = Some (list_to_map pend) -> ordered pend ->
  p ∈ pend -> sealed p.2 ->
  exists o, load_op p.1 true s = (Ok o, s) /\ in_memory o p.
Proof.
  intros J Or I (S1 & S2 & _). unfold load_op. rewrite bind_read, J. cbn [mbind option_bind].
  rewrite (ordered_lookup pend p Or I).
  eexists. split; [done|]. split; [done|]. unfold save. destruct p as [i f]. cbn in *.
  rewrite S1. destruct f as [a b m r sg]. cbn in *. f_equal.
  destruct (signature_block sg) as [b'|] eqn:E; [by apply S2|done].
Qed.

Lemma load_address s pend p : journal s = Some (list_to_map pend) -> ordered pend ->
  p ∈ pend ->
  exists o, load_op p.1 false s = (Ok o, s) /\ on_disk o p.
Proof.
  intros J Or I. unfold load_op. rewrite bind_read, J. cbn [mbind option_bind].
  rewrite (ordered_lookup pend p Or I). by eexists.
Qed.

Lemma attempt_ok {X} (m : async X) s (v : X) s' : m s = (Ok v, s') ->
  attempt m s = (Ok (Some v), s').
Proof.
  intros E. unfold attempt, try_catch, fmap, method_fmap. by rewrite E.
Qed.

(** *** Pushing keeps the order *)

Lemma ordered_app pend p : ordered pend -> Forall (fun q => q.1 < p.1) pend ->
  ordered (pend ++ [p]).
Proof.
  intros Or F. induction Or as [|q l St IH F']; [repeat constructor|].
  apply Forall_cons in F as [F0 F]. cbn. constructor; [by apply IH|].
  apply Forall_app. split; [done|]. by repeat constructor.
Qed.

Lemma list_to_map_end pend i f : ~ i ∈ pend.*1 ->
  (list_to_map (pend ++ [(i, f)]) : gmap Z saved) = <[i := f]> (list_to_map pend).
Proof.
  intros N. induction pend as [|[j g] pend IH]; [done|]. cbn in *.
  rewrite IH by set_solver. apply insert_insert_ne. set_solver.
Qed.

Lemma ops_index s pend P Q K pP pQ pK : holds s pend P Q K pP pQ pK ->
  Forall (fun o => index o <= next_index s) (operations s).
Proof.
  intros [Eo Ep HM HD _ _ _ _ _ HN _ HP]. rewrite Eo, Ep in *.
  apply Forall_app in HN as [N1 [N2 N3]%Forall_app].
  apply Forall_app. split; [|apply Forall_app; split].
  - destruct (processing s) as [o|].
    + destruct HP as (o' & p & -> & -> & [E _] & _). apply Forall_cons in N1 as [N1 _].
      apply Forall_singleton. rewrite E. exact N1.
    + by destruct HP as [-> _].
  - clear -HM N2. induction HM as [|o p Q pQ [E _] HM IH]; [done|].
    apply Forall_cons in N2 as [? ?]. constructor; [lia|auto].
  - clear -HD N3. induction HD as [|o p Q pQ [E _] HM IH]; [done|].
    apply Forall_cons in N3 as [? ?]. constructor; [lia|auto].
Qed.

(** [enqueue], of an operation whose file is written. *)
Lemma enqueue_holds s pend P Q K pP pQ pK o :
  holds s pend P Q K pP pQ pK -> sealed (save o) ->
  let s1 := set_journal (Some (<[next_index s + 1 := save o]> (list_to_map pend)))
              (set_next (next_index s + 1) s) in
  exists s', enqueue (set_index (next_index s + 1) o) s1 = (Ok tt, s') /\
  queueing s' (pend ++ [(next_index s + 1, save o)]) /\
  processing s' = processing s /\ max_size s' = max_size s.
Proof.
  intros Hs Se s1. pose proof (ops_index _ _ _ _ _ _ _ _ Hs) as IX.
  destruct Hs as [Eo Ep HM HD HQ HF HW HJ HO HN HS HP].
  set (i := next_index s + 1) in *. set (o1 := set_index i o).
  assert (forall b, emplace (moved (set_block b o1)) (operations s) =
    operations s ++ [moved (set_block b o1)]) as EB.
  { intros b. apply emplace_end. eapply Forall_impl; [exact IX|]. cbn. lia. }
  assert (emplace (moved o1) (operations s) = operations s ++ [moved o1]) as EM.
  { apply emplace_end. eapply Forall_impl; [exact IX|]. cbn. lia. }
  assert (Forall (fun q => q.1 < i) pend) as LT.
  { eapply Forall_impl; [exact HN|]. cbn. lia. }
  assert (ordered (pend ++ [(i, save o)])) as HO' by (by apply ordered_app).
  assert (~ i ∈ pend.*1) as NI.
  { intros I. apply list_elem_of_fmap in I as (q & -> & I).
    rewrite Forall_forall in LT. specialize (LT q I). lia. }
  assert (Forall (fun p => p.1 <= i) (pend ++ [(i, save o)])) as HN'.
  { apply Forall_app. split; [|by repeat constructor].
    eapply Forall_impl; [exact LT|]. cbn. lia. }
  assert (Forall (fun p => sealed p.2) (pend ++ [(i, save o)])) as HS'.
  { apply Forall_app. split; [done|]. constructor; [exact Se|constructor]. }
  pose proof (list_to_map_end pend i (save o) NI) as HJ'.
  unfold enqueue. rewrite bind_read. cbn [s1 set_journal set_next first_disk_index].
  destruct (first_disk_index s) as [d|] eqn:FD.
  - eexists. split; [done|]. split; [|done].
    exists P, Q, (K ++ [moved (set_block None o1)]), pP, pQ, (pK ++ [(i, save o)]).
    constructor; cbn; try done.
    + by rewrite EB, Eo, <- !app_assoc.
    + by rewrite Ep, <- !app_assoc.
    + apply Forall2_app; [done|]. by repeat constructor.
    + destruct pK; [done|]. by rewrite FD.
    + by rewrite HJ'.
  - assert (pK = []) as -> by (by destruct pK).
    assert (K = []) as -> by (by inversion HD).
    rewrite !app_nil_r in *. cbn [journal]. rewrite bool_decide_eq_true_2 by done.
    destruct (full _) eqn:Fu; cbn [andb].
    + eexists. split; [done|]. split; [|done].
      exists P, Q, [moved (set_block None o1)], pP, pQ, [(i, save o)].
      constructor; cbn; try done.
      * by rewrite EB, Eo, <- !app_assoc.
      * by rewrite Ep, <- !app_assoc.
      * by repeat constructor.
      * by rewrite HJ'.
    + eexists. split; [done|]. split; [|done].
      exists P, (Q ++ [moved o1]), [], pP, (pQ ++ [(i, save o)]), [].
      constructor; cbn; try done.
      * by rewrite EM, Eo, app_nil_r, <- !app_assoc.
      * by rewrite Ep, app_nil_r, <- !app_assoc.
      * apply Forall2_app; [done|]. by repeat constructor.
      * by rewrite HQ, fmap_app.
      * by rewrite HJ'.
Qed.

(** A resolver that merges with none. *)
Definition unmerged (sq : bool) (r : option R) : Prop :=
  sq = false \/
  forall r0 rc, r = Some r0 -> (squashable r0 rc).1 = stop \/ (squashable r0 rc).1 = skip.

Lemma unmerged_search r l :
  (forall rc, (squashable r rc).1 = stop \/ (squashable r rc).1 = skip) ->
  search r l None = None.
Proof.
  intros U. induction l as [|c l IH]; [done|]. cbn [search].
  destruct (resolver c) as [rc|]; [|done]. by destruct (U rc) as [-> | ->].
Qed.

Lemma push_holds sq s pend o :
  queueing s pend -> sealed (save o) -> unmerged sq (resolver o) ->
  exists i s', push_op sq o s = (Ok tt, s') /\ queueing s' (pend ++ [(i, save o)]) /\
  processing s' = processing s /\ max_size s' = max_size s.
Proof.
  intros (P & Q & K & pP & pQ & pK & Hs) Se Sq.
  destruct (enqueue_holds _ _ _ _ _ _ _ _ o Hs Se) as (s' & E & Hq).
  exists (next_index s + 1), s'. split; [|done].
  assert ((if sq then squash o else mret (Some o)) s = (Ok (Some o), s)) as E0.
  { destruct sq; [|done]. destruct Sq as [?|N]; [done|].
    unfold squash. rewrite bind_read. destruct (resolver o) as [r|]; [|done].
    rewrite unmerged_search; [done|]. intros rc. by apply N. }
  unfold push_op. rewrite (bind_Ok _ _ _ _ _ E0).
  rewrite (bind_Ok _ _ s tt (set_next (next_index s + 1) s)) by done. rewrite bind_read.
  cbn [set_next next_index].
  set (s1 := set_journal (Some (<[next_index s + 1 := save o]> (list_to_map pend)))
              (set_next (next_index s + 1) s)) in *.
  assert (write_journal (set_index (next_index s + 1) o) (set_next (next_index s + 1) s) =
    (Ok tt, s1)) as E1.
  { unfold write_journal. rewrite bind_read. cbn [set_next journal].
    by rewrite (h_journal _ _ _ _ _ _ _ _ Hs). }
  rewrite (bind_Ok _ _ _ _ _ E1).
  rewrite bind_read. unfold waits. cbn [s1 set_journal set_next waiting journal first_disk_index].
  rewrite (h_waiting _ _ _ _ _ _ _ _ Hs).
  rewrite bool_decide_eq_true_2 by done. cbn [negb orb].
  rewrite (bool_decide_eq_true_2 (is_Some (Some _))) by done. cbn [negb andb].
  rewrite andb_false_r. exact E.
Qed.

(** *** Loading from the journal *)

Definition by_index (l : list Op) : Prop :=
  StronglySorted (fun a b => index a < index b) l.

Lemma same_index l pend : Forall2 (fun o p => index o = p.1) l pend -> ordered pend ->
  by_index l.
Proof.
  intros F Or. revert pend F Or.
  induction l as [|o l IH]; intros pend F Or; [constructor|].
  inversion F as [|? p ? pend' E F']; subst. inversion Or as [|? ? Or' L]; subst.
  constructor; [by eapply IH|].
  clear -E F' L. induction F' as [|x q l' pend'' E' F' IH']; [constructor|].
  apply Forall_cons in L as [L0 L]. constructor; [lia|auto].
Qed.

Lemma holds_indexes s pend P Q K pP pQ pK : holds s pend P Q K pP pQ pK ->
  Forall2 (fun o p => index o = p.1) (operations s) pend.
Proof.
  intros [Eo Ep HM HD _ _ _ _ _ _ _ HP]. rewrite Eo, Ep.
  apply Forall2_app; [|apply Forall2_app].
  - destruct (processing s); [|by destruct HP as [-> ->]].
    destruct HP as (o' & p & -> & -> & [E _] & _). by repeat constructor.
  - eapply Forall2_impl; [exact HM|]. by intros ? ? [? _].
  - eapply Forall2_impl; [exact HD|]. by intros ? ? [? _].
Qed.

Lemma by_index_split l1 o l2 : by_index (l1 ++ o :: l2) ->
  Forall (fun x => index x < index o) l1 /\ Forall (fun x => index o < index x) l2.
Proof.
  intros (H1 & _ & H2)%StronglySorted_app. split.
  - apply Forall_forall. intros x I. apply H1; [done|by left].
  - by inversion H2.
Qed.

Lemma update_middle (g : Op -> Op) l1 o l2 : by_index (l1 ++ o :: l2) ->
  update (index o) g (l1 ++ o :: l2) = l1 ++ g o :: l2.
Proof.
  intros [F1 F2]%by_index_split. unfold update. rewrite fmap_app, fmap_cons, Z.eqb_refl.
  f_equal; [|f_equal].
  - induction F1 as [|x l L F IH]; [done|]. cbn. rewrite IH.
    by destruct (Z.eqb_spec (index x) (index o)); [lia|].
  - induction F2 as [|x l L F IH]; [done|]. cbn. rewrite IH.
    by destruct (Z.eqb_spec (index x) (index o)); [lia|].
Qed.

Lemma from_index_middle l1 o l2 : by_index (l1 ++ o :: l2) ->
  from_index (index o) (l1 ++ o :: l2) = o :: l2.
Proof.
  intros [F1 F2]%by_index_split. unfold from_index, find.
  assert (forall l, Forall (fun x => index x < index o) l ->
    filter (fun x => index x = index o) l = [] /\
    filter (fun x => index o <= index x) l = []) as N.
  { induction 1 as [|x l L F [IH1 IH2]]; [done|].
    rewrite !filter_cons_False by lia. done. }
  assert (forall l, Forall (fun x => index o < index x) l ->
    filter (fun x => index o <= index x) l = l) as Y.
  { induction 1 as [|x l L F IH]; [done|]. rewrite filter_cons_True by lia. by rewrite IH. }
  destruct (N l1 F1) as [N1 N2]. rewrite !filter_app, N1, N2.
  rewrite filter_cons_True by done. rewrite filter_cons_True by lia. cbn. by rewrite Y.
Qed.

Definition with_first (pK : list (Z * saved)) (s : t) : t := set_first (fst <$> head pK) s.

Lemma load_from_holds K pK : forall s pend P Q pP pQ,
  holds (with_first pK s) pend P Q K pP pQ pK ->
  exists s' Q' K' pQ' pK', load_from K s = (Ok tt, s') /\
  holds s' pend P Q' K' pP pQ' pK' /\ processing s' = processing s /\
  max_size s' = max_size s /\ (0 < max_size s -> pQ' = [] -> pQ = [] /\ pK = []).
Proof.
  revert pK. induction K as [|o K IH]; intros pK s pend P Q pP pQ Hs.
  - assert (pK = []) as -> by (by pose proof (h_disk _ _ _ _ _ _ _ _ Hs) as HD; inversion HD).
    exists (set_first None s), Q, [], pQ, []. do 4 (split; [done|]). done.
  - pose proof (h_disk _ _ _ _ _ _ _ _ Hs) as HD.
    inversion HD as [|? p ? pK' [E [Ea Eb]] HD']; subst.
    cbn [load_from]. rewrite bind_read. destruct (full s) eqn:Fu.
    { exists (set_first (Some (index o)) s), Q, (o :: K), pQ, (p :: pK'). split; [done|].
      rewrite E. split; [done|]. do 2 (split; [done|]). intros Po ->.
      pose proof (h_queue _ _ _ _ _ _ _ _ Hs) as HQ. cbn in HQ.
      unfold full in Fu. apply Z.leb_le in Fu. rewrite HQ in Fu. simpl in Fu. lia. }
    pose proof (holds_indexes _ _ _ _ _ _ _ _ Hs) as HI.
    pose proof (same_index _ _ HI (h_ordered _ _ _ _ _ _ _ _ Hs)) as BI.
    destruct Hs as [Eo Ep HM _ HQ HF HW HJ HO HN HS HP]. cbn in *.
    assert (p ∈ pend) as Ip by (rewrite Ep; set_solver).
    assert (sealed p.2) as Sp by (rewrite Forall_forall in HS; by apply (HS p)).
    destruct (load_pending s pend p HJ HO Ip Sp) as (f & EL & EM).
    rewrite <- E in EL. rewrite (bind_Ok _ _ _ _ _ (attempt_ok _ _ _ _ EL)).
    set (g x := mkOp (address x) (block f) (mode f) (resolver f) (remove_signature f)
                  (index x) (version x)).
    set (s1 := set_queue (queue s ++ [index o]) (set_operations (update (index o) g
                 (operations s)) s)).
    rewrite (bind_Ok _ _ s tt s1) by done.
    rewrite Eo, app_assoc in BI.
    assert (update (index o) g (operations s) = P ++ (Q ++ [g o]) ++ K) as EU.
    { rewrite Eo, app_assoc, update_middle by done. by rewrite <- !app_assoc. }
    destruct (IH pK' s1 pend P (Q ++ [g o]) pP (pQ ++ [p])) as
      (s' & Q' & K' & pQ' & pK'' & EL' & Hs' & PS & MS & NE).
    { constructor; cbn; try done.
      - by rewrite Ep, <- !app_assoc.
      - apply Forall2_app; [done|]. constructor; [|constructor]. split; [done|].
        destruct EM as [_ EM]. rewrite <- EM. unfold save, g. cbn. f_equal.
        rewrite Ea, <- EM. done.
      - by rewrite HQ, fmap_app, E. }
    exists s', Q', K', pQ', pK''. do 4 (split; [done|]). intros Po Em.
    destruct (NE Po Em) as [NE' _]. by destruct pQ.
Qed.

Lemma load_operations_holds s pend P Q K pP pQ pK : holds s pend P Q K pP pQ pK ->
  exists s' Q' K' pQ' pK', load_operations s = (Ok tt, s') /\
  holds s' pend P Q' K' pP pQ' pK' /\ processing s' = processing s /\
  max_size s' = max_size s /\ (0 < max_size s -> pQ' = [] -> pQ = [] /\ pK = []).
Proof.
  intros Hs. unfold load_operations. rewrite bind_read.
  rewrite (h_journal _ _ _ _ _ _ _ _ Hs).
  pose proof (h_first _ _ _ _ _ _ _ _ Hs) as HF.
  destruct (first_disk_index s) as [d|] eqn:FD; [|exists s, Q, K, pQ, pK; do 4 (split; [done|]); by destruct pK].
  destruct pK as [|p pK]; [done|]. injection HF as ->.
  pose proof (h_disk _ _ _ _ _ _ _ _ Hs) as HD.
  inversion HD as [|o ? K' ? [E _] _]; subst.
  pose proof (holds_indexes _ _ _ _ _ _ _ _ Hs) as HI.
  pose proof (same_index _ _ HI (h_ordered _ _ _ _ _ _ _ _ Hs)) as BI.
  rewrite (h_ops _ _ _ _ _ _ _ _ Hs), app_assoc in BI |- *.
  rewrite <- E, from_index_middle by done.
  apply (load_from_holds _ (p :: pK) s pend P Q pP pQ).
  assert (with_first (p :: pK) s = s) as ->; [|done].
  unfold with_first. cbn. rewrite <- FD. by destruct s.
Qed.

(** *** Processing the first operation *)

Lemma begin_empty s : 0 < max_size s -> queueing s [] -> processing s = None ->
  begin_processing s = (Throw Blocked, s).
Proof.
  intros Po (P & Q & K & pP & pQ & pK & Hs) PN.
  destruct Hs as [Eo Ep HM HD HQ HF HW HJ HO HN HS HP].
  symmetry in Ep. apply app_nil in Ep as [-> [-> ->]%app_nil]. cbn in HQ, HF.
  assert (operations s = []) as EO.
  { rewrite PN in HP. destruct HP as [-> _]. inversion HM; subst. inversion HD; subst. done. }
  unfold begin_processing. rewrite bind_read, HQ. cbn [length].
  assert (load_operations s = (Ok tt, s)) as EL.
  { unfold load_operations. rewrite bind_read, HJ. by rewrite HF. }
  rewrite (bind_Ok _ _ s tt s) by (unfold when; by destruct (_ <=? _)).
  rewrite bind_read, HQ. cbn. f_equal. destruct s; cbn in *. by subst.
Qed.

Lemma begin_holds s p pend : 0 < max_size s -> queueing s (p :: pend) ->
  processing s = None ->
  exists o s', begin_processing s = (Ok tt, s') /\ queueing s' (p :: pend) /\
  processing s' = Some o /\ in_memory o p /\ max_size s' = max_size s.
Proof.
  intros Po (P & Q & K & pP & pQ & pK & Hs) PN.
  assert (exists s1 Q1 K1 pQ1 pK1,
    when (Z.of_nat (length (queue s)) <=? max_size s / 2) load_operations s = (Ok tt, s1) /\
    holds s1 (p :: pend) P Q1 K1 pP pQ1 pK1 /\ processing s1 = None /\
    max_size s1 = max_size s /\ pQ1 <> []) as (s1 & Q1 & K1 & pQ1 & pK1 & E1 & H1 & PN1 & M1 & NE).
  { pose proof (h_pend _ _ _ _ _ _ _ _ Hs) as Ep.
    pose proof (h_processing _ _ _ _ _ _ _ _ Hs) as HP. rewrite PN in HP.
    destruct HP as [_ ->].
    destruct (Z.leb_spec (Z.of_nat (length (queue s))) (max_size s / 2)) as [L|L].
    - destruct (load_operations_holds _ _ _ _ _ _ _ _ Hs) as
        (s1 & Q1 & K1 & pQ1 & pK1 & E & H1 & P1 & M1 & NE).
      exists s1, Q1, K1, pQ1, pK1. split; [done|]. split; [done|]. rewrite P1.
      split; [done|]. split; [done|]. intros N. destruct (NE Po N) as [-> ->]. done.
    - exists s, Q, K, pQ, pK. do 4 (split; [done|]). intros ->.
      rewrite (h_queue _ _ _ _ _ _ _ _ Hs) in L. cbn in L.
      assert (0 <= max_size s / 2) by (apply Z.div_pos; lia). lia. }
  unfold begin_processing. rewrite bind_read, (bind_Ok _ _ _ _ _ E1), bind_read.
  destruct H1 as [Eo Ep HM HD HQ HF HW HJ HO HN HS HP].
  rewrite PN1 in HP. destruct HP as [-> ->].
  destruct pQ1 as [|p' pQ1]; [done|]. cbn in Ep. injection Ep as <- Ep.
  inversion HM as [|o ? Q' ? [Ei Es] HM']; subst Q1. subst.
  cbn in Eo, HQ. rewrite HQ, Eo. cbn [skip_squashed].
  rewrite Ei, Z.ltb_irrefl.
  rewrite (bind_Ok _ _ s1 tt (set_queue pQ1.*1 s1)) by done. rewrite Z.eqb_refl. cbn [negb].
  rewrite (bind_Ok _ _ _ tt (set_processing (Some o) (set_queue pQ1.*1 s1))) by done.
  pose proof HS as [(S1 & S2 & S3) _]%Forall_cons.
  exists o, (set_operations ((if mode o is Some _ then set_resolver None (set_block None o) else o) :: Q' ++ K1)
    (set_processing (Some o) (set_queue pQ1.*1 s1))).
  split.
  { destruct (mode o); [done|]. unfold mret, method_ret. f_equal.
    rewrite <- Eo. by destruct s1. }
  split; [|done].
  exists [if mode o is Some _ then set_resolver None (set_block None o) else o], Q', K1, [p], pQ1, pK1.
  constructor; cbn; try done.
  eexists _, p. split; [done|]. split; [done|]. split; [|done].
  unfold on_disk. rewrite <- Es in S3 |- *. cbn in S3. destruct (mode o); cbn; [done|].
  by rewrite S3.
Qed.

Lemma delete_head p pend : ordered (p :: pend) ->
  delete p.1 (list_to_map (p :: pend) : gmap Z saved) = list_to_map pend.
Proof.
  intros Or%ordered_keys. cbn in Or. apply NoDup_cons in Or as [N _].
  destruct p as [i f]. cbn in *. apply delete_insert_id. by apply not_elem_of_list_to_map_1.
Qed.

Lemma finish_holds s p pend o : queueing s (p :: pend) -> processing s = Some o ->
  exists s', finish_processing (index o) s = (Ok tt, s') /\ queueing s' pend /\
  processing s' = None /\ max_size s' = max_size s.
Proof.
  intros (P & Q & K & pP & pQ & pK & Hs) PS.
  pose proof (holds_indexes _ _ _ _ _ _ _ _ Hs) as HI.
  pose proof (same_index _ _ HI (h_ordered _ _ _ _ _ _ _ _ Hs)) as BI.
  destruct Hs as [Eo Ep HM HD HQ HF HW HJ HO HN HS HP].
  rewrite PS in HP. destruct HP as (o' & p' & -> & -> & [Ei _] & [Ei' _]).
  cbn in Ep. injection Ep as <- Ep. cbn in Eo. rewrite Eo in BI.
  inversion BI as [|? ? _ F]; subst.
  unfold finish_processing. rewrite bind_read. unfold remove_journal.
  rewrite (bind_Ok _ _ s tt (set_journal (Some (list_to_map (pQ ++ pK))) s)).
  2: { rewrite bind_read, HJ, Ei'. by rewrite delete_head. }
  rewrite HJ, bool_decide_eq_true_2 by done. cbn [when].
  eexists. split; [done|]. split; [|done].
  exists [], Q, K, [], pQ, pK. cbn. constructor; cbn; try done.
  - rewrite Eo. apply erase_head; [by rewrite Ei, Ei'|]. by rewrite Ei', <- Ei.
  - by inversion HO.
  - by apply Forall_cons in HN as [_ ?].
  - by apply Forall_cons in HS as [_ ?].
Qed.

Lemma answered_idle r s : processing s = None -> answered r s = (Throw Blocked, s).
Proof. intros E. unfold answered. by rewrite bind_read, E. Qed.

Lemma answered_holds r s p pend o : queueing s (p :: pend) -> processing s = Some o ->
  in_memory o p ->
  exists s', answered r s = (Ok tt, s') /\ max_size s' = max_size s /\
  if settles p.2 r then queueing s' pend /\ processing s' = None
  else queueing s' (p :: pend) /\ exists o', processing s' = Some o' /\ in_memory o' p.
Proof.
  intros Hq PS [Ei Es]. pose proof Hq as (P & Q & K & pP & pQ & pK & Hs).
  pose proof (h_sealed _ _ _ _ _ _ _ _ Hs) as [Sp _]%Forall_cons.
  destruct (load_pending s (p :: pend) p (h_journal _ _ _ _ _ _ _ _ Hs)
    (h_ordered _ _ _ _ _ _ _ _ Hs) ltac:(by left) Sp) as (f & EL & EM).
  unfold answered. rewrite bind_read, PS.
  rewrite (bind_Ok _ _ s (settles p.2 r) s).
  2: { unfold settles. rewrite <- Es. cbn. destruct r as [| |found|]; [done|by destruct (mode o)| |].
       - assert (idempotent (index o) found s =
           (Ok (match found, block o with
                | Some b, Some b' => bool_decide (data b = data b')
                | _, _ => false end), s)) as ->; [|by destruct found, (mode o)].
         unfold idempotent. destruct found as [b|]; [|done].
         rewrite Ei, (bind_Ok _ _ _ _ _ (attempt_ok _ _ _ _ EL)). cbn.
         destruct EM as [_ EM]. rewrite <- Es in EM. injection EM as _ -> _ _ _.
         by destruct (block o).
       - by destruct (mode o). }
  destruct (settles p.2 r).
  - destruct (finish_holds s p pend o Hq PS) as (s' & E & ? & ? & ?). by exists s'.
  - rewrite Ei, (bind_Ok _ _ _ _ _ (attempt_ok _ _ _ _ EL)).
    exists (set_processing (Some f) s). split; [done|]. split; [done|].
    split; [|by exists f]. exists P, Q, K, pP, pQ, pK.
    destruct Hs as [Eo Ep HM HD HQ HF HW HJ HO HN HS HP]. constructor; try done. cbn.
    rewrite PS in HP. destruct HP as (o' & p' & -> & -> & D' & _). exists o', p'.
    cbn in Ep. by injection Ep as -> _.
Qed.

(** *** Restarting *)

Lemma entries_pending pend : ordered pend -> entries (list_to_map pend) = pend.*1.
Proof.
  intros Or. unfold entries. apply (Sorted_unique Z.le).
  - apply Sorted_merge_sort, _.
  - apply StronglySorted_Sorted. induction Or as [|p l St IH F]; [constructor|].
    cbn. constructor; [done|]. apply Forall_fmap. eapply Forall_impl; [exact F|]. cbn. lia.
  - rewrite merge_sort_Permutation.
    rewrite dom_list_to_map_L. by apply elements_list_to_set, ordered_keys.
Qed.

(** Part of a journal was restored. *)
Definition restored (s : t) (all pre : list (Z * saved)) : Prop :=
  journal s = Some (list_to_map all) /\ processing s = None /\
  exists Q K pQ pK,
    holds (set_journal (Some (list_to_map pre)) s) pre [] Q K [] pQ pK /\
    (K <> [] -> full s = true).

Lemma holds_unprocessed s pend Q K pQ pK : processing s = None ->
  operations s = Q ++ K -> pend = pQ ++ pK -> Forall2 in_memory Q pQ ->
  Forall2 on_disk K pK -> queue s = pQ.*1 -> first_disk_index s = fst <$> head pK ->
  waiting s = [] -> journal s = Some (list_to_map pend) -> ordered pend ->
  Forall (fun p => p.1 <= next_index s) pend -> Forall (fun p => sealed p.2) pend ->
  holds s pend [] Q K [] pQ pK.
Proof. intros. constructor; try done. by case_match. Qed.

Lemma restored_index s all pre o p : restored s all pre -> ordered (pre ++ [p]) ->
  index o = p.1 -> emplace o (operations s) = operations s ++ [o].
Proof.
  intros (_ & _ & Q & K & pQ & pK & Hs & _) Or E.
  pose proof (holds_indexes _ _ _ _ _ _ _ _ Hs) as HI. cbn in HI.
  apply emplace_end. rewrite E.
  apply StronglySorted_app in Or as (Or & _ & _).
  clear Hs E. induction HI as [|x q l pre' E HI IH]; [done|]. constructor.
  - rewrite E. apply Or; by left.
  - apply IH. intros y z Iy Iz. apply Or; [by right|done].
Qed.

Lemma restore_one s all pre p : 0 < max_size s -> ordered (pre ++ [p]) -> p ∈ all ->
  ordered all -> sealed p.2 -> restored s all pre ->
  exists s', restore [p.1] s = (Ok tt, s') /\ restored s' all (pre ++ [p]) /\
  max_size s' = max_size s.
Proof.
  intros Po Or I Oa Sp Rs.
  assert (forall o, index o = p.1 -> emplace o (operations s) = operations s ++ [o]) as EM
    by (intros o; by eapply restored_index).
  destruct Rs as (J & PN & Q & K & pQ & pK & Hs & FK).
  destruct Hs as [Eo Ep HM HD HQ HF HW HJ HO HN HS _]. cbn in *.
  assert (Forall (fun q => q.1 <= p.1 `max` next_index s) (pre ++ [p])) as HN'.
  { apply Forall_app. split; [|constructor; [lia|constructor]].
    eapply Forall_impl; [exact HN|]. cbn. lia. }
  assert (Forall (fun q => sealed q.2) (pre ++ [p])) as HS'.
  { apply Forall_app. split; [done|]. constructor; [done|constructor]. }
  cbn [restore]. rewrite bind_read. destruct (full s) eqn:Fu; cbn [negb].
  - destruct (load_address s all p J Oa I) as (o & EL & OD).
    rewrite (bind_Ok _ _ _ _ _ (attempt_ok _ _ _ _ EL)).
    eexists. split; [reflexivity|]. split; [|done].
    destruct OD as (Ei & Ea & Eb). split; [done|]. split; [done|].
    exists Q, (K ++ [moved (set_block None o)]), pQ, (pK ++ [p]). split; [|done].
    apply holds_unprocessed; cbn; try done.
    + rewrite EM by done. by rewrite Eo, app_assoc.
    + by rewrite Ep, app_assoc.
    + apply Forall2_app; [done|]. by repeat constructor.
    + rewrite HF. destruct pK; cbn; [by rewrite Ei|done].
  - assert (K = []) as -> by (destruct K; [done|by discriminate FK]).
    assert (pK = []) as -> by (by inversion HD).
    rewrite app_nil_r in Eo, Ep.
    destruct (load_pending s all p J Oa I Sp) as (o & EL & [Ei Es]).
    rewrite (bind_Ok _ _ _ _ _ (attempt_ok _ _ _ _ EL)).
    eexists. split; [reflexivity|]. split; [|done]. split; [done|]. split; [done|].
    exists (Q ++ [moved o]), [], (pQ ++ [p]), []. split; [|done].
    apply holds_unprocessed; cbn; rewrite ?app_nil_r; try done.
    + rewrite EM by done. by rewrite Eo.
    + by rewrite Ep.
    + apply Forall2_app; [done|]. by repeat constructor.
    + by rewrite HQ, Ei, fmap_app.
Qed.

Lemma restore_cons id ids s s' : restore [id] s = (Ok tt, s') ->
  restore (id :: ids) s = restore ids s'.
Proof.
  cbn [restore]. rewrite !bind_read. unfold mbind, method_bind.
  destruct (attempt _ s) as [[o|e] s1]; [|done].
  destruct o as [o|]; [|by intros [= ->]].
  cbn. destruct (full s); cbn; by intros [= <-].
Qed.

Lemma restore_all all : ordered all -> Forall (fun p => sealed p.2) all ->
  forall post pre s, 0 < max_size s -> all = pre ++ post -> restored s all pre ->
  exists s', restore post.*1 s = (Ok tt, s') /\ restored s' all all /\
  max_size s' = max_size s.
Proof.
  intros Oa Sa. induction post as [|p post IH]; intros pre s Po E Rs.
  - rewrite app_nil_r in E. subst. by exists s.
  - assert (p ∈ all) as I by (rewrite E; set_solver).
    assert (sealed p.2) as Sp by (rewrite Forall_forall in Sa; by apply Sa).
    assert (ordered (pre ++ [p])) as Or.
    { rewrite E in Oa. replace (pre ++ p :: post) with ((pre ++ [p]) ++ post) in Oa
        by (by rewrite <- app_assoc). by apply StronglySorted_app in Oa as (_ & ? & _). }
    destruct (restore_one s all pre p Po Or I Oa Sp Rs) as (s1 & E1 & R1 & M1).
    rewrite fmap_cons, (restore_cons _ _ _ _ E1).
    destruct (IH (pre ++ [p]) s1) as (s' & E' & R' & M').
    + by rewrite M1.
    + by rewrite E, <- app_assoc.
    + done.
    + exists s'. split; [done|]. split; [done|]. congruence.
Qed.

Lemma restart_holds n pend : 0 < n -> ordered pend ->
  Forall (fun p => sealed p.2) pend ->
  exists s', init (fresh n (Some (list_to_map pend))) = (Ok tt, s') /\ queueing s' pend /\
  processing s' = None /\ max_size s' = n.
Proof.
  intros Po Or Se. unfold init. rewrite bind_read. cbn [fresh journal].
  rewrite entries_pending by done.
  destruct (restore_all pend Or Se pend [] (fresh n (Some (list_to_map pend)))) as
    (s' & E & (J & PN & Q & K & pQ & pK & Hs & _) & M'); [done|done| |].
  - split; [done|]. split; [done|]. exists [], [], [], []. split; [|done].
    apply holds_unprocessed; try done; constructor.
  - exists s'. split; [done|]. split; [|done]. exists [], Q, K, [], pQ, pK.
    rewrite <- J in Hs. by destruct s'.
Qed.

(** *** The refinement *)

(** What a caller may push: sealed blocks, and nothing to merge. *)
Definition clean (sq : bool) (e : event) : Prop :=
  match e with
  | Store a b m r =>
      sealed (mkSaved a (Some b) (Some m) r no_signature) /\ unmerged sq r
  | Remove a rs => sealed (mkSaved a None None None rs)
  | _ => True
  end.

Definition refines (n : Z) (s : t) (q : fifo) : Prop :=
  exists pend, queueing s pend /\ max_size s = n /\ pend.*2 = q.1 /\
  match processing s with
  | Some o => q.2 = true /\ exists p, head pend = Some p /\ in_memory o p
  | None => q.2 = false
  end.

Lemma refines_doing n s q : refines n s q -> save <$> processing s = doing q.
Proof.
  intros (pend & _ & _ & Eq & HP). unfold doing. rewrite <- Eq.
  destruct (processing s) as [o|].
  - destruct HP as (-> & p & Hp & [_ E]). destruct pend; [done|].
    injection Hp as ->. cbn. by rewrite <- E.
  - by rewrite HP.
Qed.

Lemma push_refines n sq o s q : refines n s q -> sealed (save o) ->
  unmerged sq (resolver o) ->
  exists s', push_op sq o s = (Ok tt, s') /\ refines n s' (q.1 ++ [save o], q.2).
Proof.
  intros (pend & Hq & HM & E & HP) Se Sq.
  destruct (push_holds sq s pend o Hq Se Sq) as (i & s' & E' & Hq' & PS & MS).
  exists s'. split; [done|]. exists (pend ++ [(i, save o)]). split; [done|].
  split; [congruence|]. split; [by rewrite fmap_app, E|]. rewrite PS.
  destruct (processing s); [|done]. destruct HP as (-> & p & Hp & I). split; [done|].
  exists p. split; [|done]. by destruct pend.
Qed.

Lemma turn_refines n sq s q : 0 < n -> refines n s q ->
  exists s', step sq Turn s = ((fifo_step Turn q).1, s') /\
  refines n s' (fifo_step Turn q).2.
Proof.
  intros Po (pend & Hq & HM & E & HP). unfold step. rewrite bind_read.
  destruct q as [l busy]. cbn in E. subst l. cbn in HP.
  destruct (processing s) as [o|] eqn:PS.
  - destruct HP as (-> & HP).
    assert (fifo_step Turn (pend.*2, true) = (Throw Blocked, (pend.*2, true))) as ->
      by (by destruct pend).
    exists s. split; [done|]. exists pend. cbn. rewrite PS. by split_and!.
  - subst busy. destruct pend as [|p pend].
    + rewrite begin_empty by (congruence || done). exists s. split; [done|].
      exists []. by rewrite PS.
    + destruct (begin_holds s p pend) as (o & s' & E' & Hq' & PS' & I & MS);
        [congruence|done|done|].
      rewrite E'. exists s'. split; [done|]. exists (p :: pend). rewrite PS'.
      split; [done|]. split; [congruence|]. split; [done|]. split; [done|]. by exists p.
Qed.

Lemma answer_refines n r s q : refines n s q ->
  exists s', answered r s = ((fifo_step (Answer r) q).1, s') /\
  refines n s' (fifo_step (Answer r) q).2.
Proof.
  intros (pend & Hq & HM & E & HP).
  destruct q as [l busy]. cbn in E. subst l. cbn in HP.
  destruct (processing s) as [o|] eqn:PS.
  - destruct HP as (-> & p & Hp & I). destruct pend as [|p' pend]; [done|].
    injection Hp as ->.
    destruct (answered_holds r s p pend o Hq PS I) as (s' & E' & MS & C).
    rewrite E'. exists s'. split; [done|]. cbn. destruct (settles p.2 r).
    + destruct C as [Hq' PS']. exists pend. rewrite PS'. split; [done|]. by split; [congruence|].
    + destruct C as [Hq' (o' & PS' & I')]. exists (p :: pend). rewrite PS'. split; [done|].
      split; [congruence|]. split; [done|]. split; [done|]. by exists p.
  - subst busy. rewrite answered_idle by done.
    assert (fifo_step (Answer r) (pend.*2, false) = (Throw Blocked, (pend.*2, false))) as ->
      by (by destruct pend).
    exists s. split; [done|]. exists pend. cbn. rewrite PS. by split_and!.
Qed.

Lemma restart_refines n sq s q : 0 < n -> refines n s q ->
  exists s', step sq Restart s = (Ok tt, s') /\ refines n s' (q.1, false).
Proof.
  intros Po (pend & (P & Q & K & pP & pQ & pK & Hs) & HM & E & _).
  destruct (restart_holds n pend Po (h_ordered _ _ _ _ _ _ _ _ Hs)
    (h_sealed _ _ _ _ _ _ _ _ Hs)) as (s' & E' & Hq' & PS & MS).
  exists s'. split.
  - unfold step. rewrite bind_read, HM, (h_journal _ _ _ _ _ _ _ _ Hs).
    by rewrite (bind_Ok _ _ s tt (fresh n (Some (list_to_map pend)))) by done.
  - exists pend. by rewrite PS.
Qed.

Lemma step_refines n sq e s q : 0 < n -> clean sq e -> refines n s q ->
  exists s', step sq e s = ((fifo_step e q).1, s') /\ refines n s' (fifo_step e q).2.
Proof.
  intros Po Cl Rf. destruct e as [a b m r|a rs| |r|].
  - destruct Cl as [Se Sq]. destruct q as [l busy].
    exact (push_refines n sq (make_op a (Some b) (Some m) r no_signature) s (l, busy) Rf Se Sq).
  - destruct q as [l busy].
    refine (push_refines n sq (make_op a None None None rs) s (l, busy) Rf Cl _).
    right. by intros ? ? [=].
  - by apply turn_refines.
  - by apply answer_refines.
  - destruct q as [l busy]. exact (restart_refines n sq s (l, busy) Po Rf).
Qed.

Lemma runs_refine n sq es : 0 < n -> Forall (clean sq) es -> forall s q, refines n s q ->
  (run sq es s).1 = (fifo_run es q).1 /\ refines n (run sq es s).2 (fifo_run es q).2.
Proof.
  intros Po Cl. induction Cl as [|e es C Cl IH]; intros s q Rf; [done|].
  destruct (step_refines n sq e s q Po C Rf) as (s' & E & Rf').
  cbn [run fifo_run]. rewrite E. destruct (fifo_step e q) as [r q']. cbn in *.
  specialize (IH s' q' Rf'). rewrite (refines_doing n s' q' Rf').
  destruct (run sq es s'), (fifo_run es q'). cbn in *. destruct IH as [-> ?]. done.
Qed.

Lemma fresh_refines n : refines n (fresh n (Some ∅)) ([], false).
Proof.
  exists []. split; [|done]. exists [], [], [], [], [], [].
  apply holds_unprocessed; try done; constructor.
Qed.

(** *** Reading *)

Definition pends (o : Op) (p : Z * saved) : Prop :=
  index o = p.1 /\ address o = s_address p.2 /\ (save o = p.2 \/ block o = None).

Lemma holds_pends s pend P Q K pP pQ pK : holds s pend P Q K pP pQ pK ->
  Forall2 pends (operations s) pend.
Proof.
  intros [Eo Ep HM HD _ _ _ _ _ _ _ HP]. rewrite Eo, Ep.
  apply Forall2_app; [|apply Forall2_app].
  - destruct (processing s); [|by destruct HP as [-> ->]].
    destruct HP as (o' & p & -> & -> & (? & ? & ?) & _). constructor; [|constructor].
    split; [done|]. split; [done|]. by right.
  - eapply Forall2_impl; [exact HM|]. intros o p [? Es]. split; [done|].
    split; [by rewrite <- Es|]. by left.
  - eapply Forall2_impl; [exact HD|]. intros o p (? & ? & ?). split; [done|].
    split; [done|]. by right.
Qed.

Lemma last_op_pends a l pend : Forall2 pends l pend ->
  match last_op a l, last (filter (fun p => s_address p.2 = a) pend) with
  | Some o, Some p => pends o p /\ p ∈ pend
  | None, None => True
  | _, _ => False
  end.
Proof.
  revert l. induction pend as [|p pend IH] using rev_ind; intros l F.
  - by inversion F.
  - apply Forall2_app_inv_r in F as (l1 & l2 & F1 & F2 & ->).
    inversion F2 as [|o ? l2' ? Hp F2']; subst. inversion F2'; subst.
    specialize (IH l1 F1). unfold last_op in *. rewrite !filter_app.
    destruct Hp as (Ei & Ea & Ep).
    destruct (decide (address o = a)) as [Y|N].
    + rewrite (filter_cons_True _ o) by done. rewrite (filter_cons_True _ p) by congruence.
      rewrite !filter_nil, !last_snoc. split; [done|]. set_solver.
    + rewrite (filter_cons_False _ o) by done. rewrite (filter_cons_False _ p) by congruence.
      rewrite !filter_nil, !app_nil_r. do 2 case_match; try done. destruct IH. split; [done|]. set_solver.
Qed.

Lemma last_pending_snd a pend :
  last_pending a pend.*2 = snd <$> last (filter (fun p => s_address p.2 = a) pend).
Proof.
  unfold last_pending. rewrite <- fmap_last. f_equal. induction pend as [|p pend IH]; [done|].
  rewrite fmap_cons. destruct (decide (s_address p.2 = a)) as [Y|N].
  - by rewrite !filter_cons_True, IH by done.
  - by rewrite !filter_cons_False, IH by done.
Qed.

Lemma fetch_pending backend a s pend : queueing s pend ->
  fetch backend a None s =
  match last_pending a pend.*2 with
  | Some f =>
      match s_block f with
      | Some b => (Ok (Some b), s)
      | None => (Throw (MissingBlock a), s)
      end
  | None => backend a None s
  end.
Proof.
  intros (P & Q & K & pP & pQ & pK & Hs).
  pose proof (last_op_pends a _ _ (holds_pends _ _ _ _ _ _ _ _ Hs)) as L.
  rewrite last_pending_snd. unfold fetch, fetch_cache. rewrite bind_assoc, bind_read.
  destruct (last_op a (operations s)) as [o|], (last _) as [p|]; try done.
  destruct L as [(Ei & Ea & Eb) I]. cbn [fmap option_fmap option_map].
  pose proof (h_sealed _ _ _ _ _ _ _ _ Hs) as HS. rewrite Forall_forall in HS.
  destruct (load_pending s pend p (h_journal _ _ _ _ _ _ _ _ Hs)
    (h_ordered _ _ _ _ _ _ _ _ Hs) I (HS p I)) as (f & EL & [_ Ef]).
  destruct (block o) as [b|] eqn:Bo.
  - destruct Eb as [Eb|?]; [|done]. rewrite <- Eb. cbn. by rewrite Bo.
  - rewrite Ei, bind_assoc, (bind_Ok _ _ _ _ _ EL), <- Ef. cbn. by destruct (block f).
Qed.

(** *** What the queue promises *)

(** C27. With a journal, as long as no operation can be merged with another (merging is off,
    or the resolvers are not squashable with any) and what is given was sealed, the queue
    is a FIFO queue of the operations it was given,
    that outlives the node: whatever the interleaving of stores, removals,
    turns of the loop, answers of the consensus and restarts, the consensus is
    made to do the operations one at a time, in the order they were given, each
    as it was given, the same one again after a failure, a conflict or a
    restart, until it is done; the loop never stops on an assertion, whether
    the operations fit in memory or not. Merging, which is on by default, can stop it
    ([merging_leaves_a_hole]). *)
Theorem deferred_in_order sq n es : 0 < n -> Forall (clean sq) es ->
  (run sq es (fresh n (Some ∅))).1 = (fifo_run es ([], false)).1.
Proof. intros Po Cl. by apply (runs_refine n sq es Po Cl), fresh_refines. Qed.

(** A read sees the writes that are pending: at any time of such a run,
    fetching an address gives the block of the last operation that is pending
    for it, wherever it is kept, and MissingBlock when that is a removal; only
    an address that no operation is pending for is asked to the consensus. *)
Theorem deferred_reads sq n es backend a : 0 < n -> Forall (clean sq) es ->
  let s := (run sq es (fresh n (Some ∅))).2 in
  fetch backend a None s =
  match last_pending a (fifo_run es ([], false)).2.1 with
  | Some f =>
      match s_block f with
      | Some b => (Ok (Some b), s)
      | None => (Throw (MissingBlock a), s)
      end
  | None => backend a None s
  end.
Proof.
  intros Po Cl s.
  destruct (runs_refine n sq es Po Cl _ _ (fresh_refines n)) as [_ (pend & Hq & _ & E & _)].
  rewrite <- E. by apply fetch_pending.
Qed.

(** Without a journal, an operation that fails is lost, and a removal that is
    pending cannot be read. *)
Lemma unjournaled_loss s o : journal s = None -> processing s = Some o ->
  answered Failed s =
  (Ok tt, set_processing None (set_operations (erase (index o) (operations s)) s)).
Proof.
  intros J PS. unfold answered. rewrite bind_read, PS.
  rewrite (bind_Ok _ _ s false s) by (by destruct (mode o)).
  assert (load_op (index o) true s = (Throw LoadError, s)) as EL.
  { unfold load_op. by rewrite bind_read, J. }
  assert (attempt (load_op (index o) true) s = (Ok None, s)) as EA.
  { unfold attempt, try_catch, fmap, method_fmap. by rewrite EL. }
  rewrite (bind_Ok _ _ _ _ _ EA). unfold finish_processing, remove_journal.
  rewrite bind_read, (bind_Ok _ _ s tt s) by (by rewrite bind_read, J).
  by rewrite J.
Qed.
End Async.

(** *** An example *)

(** Blocks are their data; resolvers are numbers, equal ones are merged at the
    last position. *)
Definition example : Blocks Z nat unit Z unit := {|
  mutable_version := fun _ => None;
  is_acb := fun _ => false;
  seal_at := fun _ b => b;
  seal := fun b => b;
  data := fun b => b;
  signature_block := fun _ => None;
  with_signature_block := fun _ rs => rs;
  no_signature := tt;
  squashable := fun r r' =>
    (if Nat.eqb r r' then at_last_position_stop else skip, tt);
  merge := fun r _ _ => r
|}.
#[local] Existing Instance example.

Lemma clean_store a b (m : bool) : clean true (Store (A := Z) (R := nat) a b m None).
Proof. split; [|right; discriminate]. split; [done|]. split; [intros ? [=]|done]. Qed.
Lemma clean_remove a : clean true (Remove (A := Z) (B := Z) (R := nat) (M := bool) a tt).
Proof. split; [done|]. split; [intros ? [=]|done]. Qed.
Ltac clean_events :=
  repeat (apply Forall_cons; split;
    [first [apply clean_store | apply clean_remove | exact I]|]); apply Forall_nil_2.

Lemma deferred_in_order_witness :
  let es : list event :=
    [Store 1 10 true None; Store 2 20 true None; Turn; Answer Failed; Restart;
     Remove 1 tt; Turn; Answer Done; Turn; Answer (Collided (Some 20)); Turn;
     Answer NotThere; Turn] in
  (run 0 true es (fresh 1 (Some (∅ : gmap Z saved)))).1 =
  (fifo_run es ([], false)).1 /\
  (fifo_run es ([], false)).1.*2 =
  let first := mkSaved (R := nat) 1 (Some 10) (Some true) None tt in
  let second := mkSaved 2 (Some 20) (Some true) None tt in
  [None; None; Some first; Some first; None; None; Some first; None; Some second; None;
   Some (mkSaved 1 None None None tt); None; None].
Proof.
  split; [|vm_compute; reflexivity].
  apply deferred_in_order; [lia|]. clean_events.
Defined.

Lemma deferred_reads_witness :
  let es : list event :=
    [Store 1 10 true None; Store 2 20 true None; Store 1 11 true None; Turn; Restart;
     Remove 2 tt] in
  let s := (run 0 true es (fresh 1 (Some (∅ : gmap Z saved)))).2 in
  let backend : Z -> option Z -> method t error (option Z) := fun _ _ => mret (Some 5) in
  (fetch backend 1 None s = (Ok (Some 11), s) /\
   fetch backend 2 None s = (Throw (MissingBlock 2), s)) /\
  fetch backend 3 None s = (Ok (Some 5), s).
Proof.
  cbv zeta. split; [split|];
    (rewrite deferred_reads; [vm_compute; reflexivity|lia|clean_events]).
Defined.

(** Merging can leave a hole where the operations that are only on disk
    start: there is a run with a journal, a queue of one operation and no
    failure, after which three operations are pending and the loop waits for
    ever; the next operation that is stored stops it on an assertion. *)
Theorem merging_leaves_a_hole :
  exists es : list event,
  let s := (run 0 true es (fresh 1 (Some (∅ : gmap Z saved)))).2 in
  Forall (fun r => r.1 = Ok tt) (run 0 true es (fresh 1 (Some (∅ : gmap Z saved)))).1 /\
  index <$> operations s = [5; 6; 7] /\ processing s = None /\
  (step 0 true Turn s).1 = Throw Blocked /\
  ((run 0 true [Turn; Store 4 40 true None; Turn] s).1).*1 =
    [Throw Blocked; Ok tt; Throw AssertError].
Proof.
  exists [Store 0 0 true None; Store 1 10 true (Some 1%nat); Store 2 20 true (Some 2%nat);
     Store 3 30 true None; Store 2 21 true (Some 2%nat); Store 1 11 true (Some 1%nat);
     Turn; Answer Done].
  vm_compute. split; [repeat (constructor; [reflexivity|]); constructor|]. done.
Qed.
End Async.
