(* ===== verification/Cache.v ===== *)
(** The cache of a node: memo/model/doughnut/Cache.cc.

    Mutable blocks are cached in memory, immutable ones in files; what is
    in memory is dropped when it was not used for a while, and fetched again when
    it was not for some time. The consensus below is the class [Backend], whose
    methods act on the cache and the rest of the world: what other coroutines do
    to the cache while one waits for the consensus is part of what the
    consensus does. *)

From stdpp Require Import base tactics option list gmap sorting.
From Stdlib Require Import ZArith Lia.
From S2P Require Import Prelude.
Open Scope Z_scope.

Module Cache.

(** What the cache asks of blocks: [mutable_version] is the version of a
    MutableBlock, [file_size] the size of the file a block is written to. *)
Class Blocks (A B : Type) := {
  address : B -> A;
  mutable_version : B -> option Z;
  immutable : B -> bool;
  validate : B -> bool;
  file_size : B -> Z
}.

Inductive error {A : Type} :=
  | MissingBlock (a : A)
  | InvalidBlock
  | LoadError              (* the file of a block cannot be read *)
  | Unreachable            (* an error of the consensus *)
  | AssertError
  | Blocked.               (* the coroutine waits *)
Arguments error A : clear implicits.

(** Cache::CachedBlock. *)
Record cached {B : Type} := mkCached {
  block : B;
  last_used : Z;
  last_fetched : Z
}.
Arguments cached B : clear implicits.

(** Cache::CachedCHB. *)
Record entry {A : Type} := mkEntry {
  e_address : A;
  e_size : Z;
  e_last_used : Z
}.
Arguments entry A : clear implicits.

Record settings := mkSettings {
  cache_invalidation : Z;
  cache_ttl : Z;
  cache_size : Z;
  disk_cache_path : bool;      (* whether there is one *)
  disk_cache_size : Z
}.

(** [disk_cache] is in the order of its second index; [files] is the
    directory. *)
Record t {A B : Type} `{Countable A} := mkCache {
  cache : gmap A (cached B);
  disk_cache : list (entry A);
  disk_cache_used : Z;
  files : gmap A B;
  pending : gset A
}.
Arguments t A B {_ _}.

(** The consensus below; [store] answers the block that resolving a conflict
    led to store instead, if any. *)
Class Backend (A B W M R G : Type) `{Countable A} := {
  now : W -> Z;
  backend_fetch : A -> option Z -> method (t A B * W) (error A) (option B);
  backend_fetch_all : list (A * option Z) ->
    (A -> result (error A) (option B) -> method (t A B * W) (error A) unit) ->
    method (t A B * W) (error A) unit;
  backend_store : B -> M -> option R -> method (t A B * W) (error A) (option B);
  backend_remove : A -> G -> method (t A B * W) (error A) unit
}.

Section Cache.
Context {A B W M R G : Type} `{Countable A} `{!Blocks A B} `{!Backend A B W M R G}.
Context (cfg : settings).

Abbreviation cached_method := (method (t A B * W) (error A)).

Definition set_cache (c : gmap A (cached B)) (s : t A B) : t A B :=
  mkCache _ _ _ _ c (disk_cache s) (disk_cache_used s) (files s) (pending s).
Definition set_disk (l : list (entry A)) (s : t A B) : t A B :=
  mkCache _ _ _ _ (cache s) l (disk_cache_used s) (files s) (pending s).
Definition set_used (u : Z) (s : t A B) : t A B :=
  mkCache _ _ _ _ (cache s) (disk_cache s) u (files s) (pending s).
Definition set_files (f : gmap A B) (s : t A B) : t A B :=
  mkCache _ _ _ _ (cache s) (disk_cache s) (disk_cache_used s) f (pending s).
Definition set_pending (p : gset A) (s : t A B) : t A B :=
  mkCache _ _ _ _ (cache s) (disk_cache s) (disk_cache_used s) (files s) p.

(** Methods of the cache itself. *)
Definition self : cached_method (t A B) := reads fst.
Definition upd (f : t A B -> t A B) : cached_method unit := modify (fun s => (f s.1, s.2)).
Definition time : cached_method Z := reads (fun s => now s.2).

(** *** The index of the files *)

(** An ordered index puts an element after those that are equal. *)
Fixpoint place (e : entry A) (l : list (entry A)) : list (entry A) :=
  match l with
  | [] => [e]
  | x :: l' => if e_last_used e <? e_last_used x then e :: l else x :: place e l'
  end.
(** An address is in the index once. *)
Definition emplace (e : entry A) (l : list (entry A)) : list (entry A) :=
  if existsb (fun x => bool_decide (e_address x = e_address e)) l then l else place e l.
(** An element that is modified stays where it is if the order allows. *)
Fixpoint touch (a : A) (when_ : Z) (before l : list (entry A)) : list (entry A) :=
  match l with
  | [] => before
  | x :: l' =>
      if bool_decide (e_address x = a) then
        let x' := mkEntry _ (e_address x) (e_size x) when_ in
        let after_last := match last before with
                          | Some y => negb (when_ <? e_last_used y) | None => true end in
        let before_next := match l' with
                           | y :: _ => negb (e_last_used y <? when_) | [] => true end in
        if after_last && before_next then before ++ x' :: l' else place x' (before ++ l')
      else touch a when_ (before ++ [x]) l'
  end.
Definition on_disk (a : A) (l : list (entry A)) : option (entry A) :=
  head (filter (fun e => e_address e = a) l).

(** The loop of [_disk_cache_push]; [_disk_cache_used] is a uint64_t. *)
Fixpoint prune (l : list (entry A)) : cached_method unit :=
  s ← self;
  if disk_cache_used s <=? disk_cache_size cfg then mret tt
  else
    match l with
    | [] => throw AssertError
    | e :: l' =>
        upd (fun s => set_disk l' (set_files (delete (e_address e) (files s))
          (set_used (wrap_u 64 (disk_cache_used s - e_size e)) s)));;
        prune l'
    end.

Definition disk_cache_push (b : B) : cached_method unit :=
  if negb (disk_cache_path cfg) then mret tt
  else
    upd (fun s => set_files (<[address b := b]> (files s)) s);;
    n ← time;
    upd (fun s => set_disk (emplace (mkEntry _ (address b) (file_size b) n) (disk_cache s))
      (set_used (wrap_u 64 (disk_cache_used s + file_size b)) s));;
    s ← self;
    prune (disk_cache s).

(** [_load_disk_cache]; the order of the directory is not specified, and
    [elle::Time()] is older than any other. *)
Fixpoint load_files (epoch : Z) (l : list (A * B)) : cached_method unit :=
  match l with
  | [] => mret tt
  | (a, b) :: l' =>
      upd (fun s => set_disk (emplace (mkEntry _ a (file_size b) epoch) (disk_cache s))
        (set_used (wrap_u 64 (disk_cache_used s + file_size b)) s));;
      load_files epoch l'
  end.
Definition load_disk_cache (epoch : Z) : cached_method unit :=
  s ← self;
  if disk_cache_path cfg then load_files epoch (map_to_list (files s)) else mret tt.
Definition create (epoch : Z) : cached_method unit :=
  if disk_cache_path cfg && negb (disk_cache_size cfg =? 0)
  then load_disk_cache epoch else mret tt.

(** *** Blocks *)

(** [_insert_cache]. Decoding the block ahead has no effect the cache sees. *)
Definition insert_cache (b : B) : cached_method unit :=
  if negb (validate b) then throw InvalidBlock
  else if negb (disk_cache_size cfg =? 0) && immutable b then disk_cache_push b
  else if bool_decide (is_Some (mutable_version b)) && negb (cache_size cfg =? 0) then
    n ← time;
    upd (fun s =>
      match cache s !! address b with
      | Some _ => s
      | None => set_cache (<[address b := mkCached _ b n n]> (cache s)) s
      end)
  else mret tt.

(** [try { m } finally { f }]. *)
Definition finally {X} (m : cached_method X) (f : t A B -> t A B) : cached_method X :=
  fun s => let '(r, s') := m s in (r, (f s'.1, s'.2)).

Lemma finally_returns {X} (m : cached_method X) f s r s' : m s = (r, s') ->
  finally m f s = (r, (f s'.1, s'.2)).
Proof. unfold finally. by intros ->. Qed.

(** [_fetch_cache]: whether it is a hit, and the block. The cached version may
    be the one the caller has. *)
Definition unless_version (local_version : option Z) (b : B) : option B :=
  if bool_decide (is_Some local_version /\ mutable_version b = local_version)
  then None else Some b.

Definition fetch_cache (a : A) (local_version : option Z) (cache_only : bool) :
    cached_method (bool * option B) :=
  s ← self;
  match cache s !! a with
  | Some c =>
      n ← time;
      upd (fun s => set_cache (<[a := mkCached _ (block c) n (last_fetched c)]> (cache s)) s);;
      mret (true, unless_version local_version (block c))
  | None =>
      match on_disk a (disk_cache s) with
      | Some _ =>
          match files s !! a with
          | None => throw LoadError
          | Some b =>
              n ← time;
              upd (fun s => set_disk (touch a n [] (disk_cache s)) s);;
              mret (true, Some b)
          end
      | None =>
          if cache_only then mret (false, None)
          else if bool_decide (a ∈ pending s) then throw Blocked
          else
            upd (fun s => set_pending ({[a]} ∪ pending s) s);;
            finally (
              res ← backend_fetch a None;
              match res with
              | Some b =>
                  insert_cache b;;
                  mret (false, unless_version local_version b)
              | None => mret (false, None)
              end) (fun s => set_pending (pending s ∖ {[a]}) s)
      end
  end.

(** [_fetch] of one address; one that is being fetched already is waited for. *)
Definition fetch (a : A) (local_version : option Z) : cached_method (option B) :=
  r ← fetch_cache a local_version false; mret r.2.

(** [_fetch] of several; [receive] is what the caller does of each. *)
Fixpoint lookup_all (l : list (A * option Z))
    (receive : A -> result (error A) (option B) -> cached_method unit) :
    cached_method (list (A * option Z)) :=
  match l with
  | [] => mret []
  | (a, lv) :: l' =>
      r ← fetch_cache a lv true;
      if (r.1 : bool) then receive a (Ok r.2);; lookup_all l' receive
      else missing ← lookup_all l' receive; mret ((a, lv) :: missing)
  end.
Definition fetch_all (l : list (A * option Z))
    (receive : A -> result (error A) (option B) -> cached_method unit) :
    cached_method unit :=
  missing ← lookup_all l receive;
  match missing with
  | [] => mret tt
  | _ =>
      backend_fetch_all ((fun av => (av.1, None)) <$> missing) (fun a r =>
        match r with
        | Ok (Some b) => insert_cache b
        | _ => mret tt
        end;;
        receive a r)
  end.

(** [insert]. *)
Definition insert (b : B) : cached_method unit :=
  n ← time;
  upd (fun s => set_cache (<[address b := mkCached _ b n n]> (cache s)) s).

(** [_store]: what is cached is the block, or the one that [CacheConflictResolver]
    saw a conflict resolved with. *)
Definition store (b : B) (m : M) (r : option R) : cached_method unit :=
  resolved ← backend_store b m r;
  let cloned := match r, resolved with Some _, Some b' => b' | _, _ => b end in
  if bool_decide (is_Some (mutable_version b)) then insert cloned
  else disk_cache_push cloned.

(** [_remove]. *)
Definition remove (a : A) (rs : G) : cached_method unit :=
  s ← self;
  match cache s !! a with
  | Some _ => upd (fun s => set_cache (delete a (cache s)) s)
  | None =>
      match on_disk a (disk_cache s) with
      | Some e =>
          upd (fun s => set_disk (filter (fun x => e_address x <> a) (disk_cache s))
            (set_files (delete a (files s))
              (set_used (wrap_u 64 (disk_cache_used s - e_size e)) s)))
      | None => mret tt
      end
  end;;
  backend_remove a rs.

Definition clear : cached_method unit := upd (set_cache ∅).

(** *** A turn of [_cleanup] *)

Definition fetched_before (x y : A * cached B) : Prop := last_fetched x.2 <= last_fetched y.2.
#[local] Instance fetched_before_dec x y : Decision (fetched_before x y).
Proof. unfold fetched_before. apply _. Defined.

(** The blocks in the order of the third index, up to the deadline. *)
Fixpoint need_refresh (deadline : Z) (l : list (A * cached B)) : list (A * option Z) :=
  match l with
  | [] => []
  | (a, c) :: l' =>
      if last_fetched c <? deadline then
        match mutable_version (block c) with
        | Some v => (a, Some v) :: need_refresh deadline l'
        | None => []
        end
      else []
  end.

(** Modifying a block of the cache may change its address. *)
Definition refresh_block (a : A) (b : option B) (n : Z) (m : gmap A (cached B)) :
    gmap A (cached B) :=
  match m !! a with
  | None => m
  | Some c =>
      let c' := mkCached _ (default (block c) b) (last_used c) n in
      let a' := address (block c') in
      if decide (a' = a) then <[a := c']> m
      else match m !! a' with
           | Some _ => delete a m
           | None => <[a' := c']> (delete a m)
           end
  end.

Definition refreshed (n : Z) (a : A) (r : result (error A) (option B)) : cached_method unit :=
  upd (fun s => set_cache
    match r with
    | Throw _ => delete a (cache s)
    | Ok b => refresh_block a b n (cache s)
    end s).

(** CACHE_REFRESH_BATCH_SIZE at a time; a turn for each block is enough. *)
Fixpoint refresh (fuel : nat) (batch_size : nat) (n : Z) (l : list (A * option Z)) :
    cached_method unit :=
  match fuel, l with
  | _, [] => mret tt
  | O, _ => throw Blocked
  | Datatypes.S fuel, _ =>
      backend_fetch_all (take batch_size l) (refreshed n);;
      refresh fuel batch_size n (drop batch_size l)
  end.

Definition cleanup (batch_size : nat) : cached_method unit :=
  n ← time;
  upd (fun s => set_cache
    (filter (fun ac => n - cache_ttl cfg <= last_used ac.2) (cache s)) s);;
  s ← self;
  let l := need_refresh (n - cache_invalidation cfg)
             (merge_sort fetched_before (map_to_list (cache s))) in
  refresh (length l) batch_size n l.


(** *** The index of the files *)

Implicit Types (e : entry A) (b : B) (s : t A B * W).

Definition keys (l : list (entry A)) : list (A * Z) :=
  (fun e => (e_address e, e_size e)) <$> l.
Fixpoint total (l : list (A * Z)) : Z :=
  match l with [] => 0 | p :: l' => p.2 + total l' end.

Lemma total_perm l l' : l ≡ₚ l' -> total l = total l'.
Proof. induction 1; cbn in *; lia. Qed.

Lemma place_perm e l : place e l ≡ₚ e :: l.
Proof.
  induction l as [|x l IH]; [done|]. cbn. case_match; [done|].
  rewrite IH. by constructor.
Qed.

Lemma touch_keys a n l : forall before, keys (touch a n before l) ≡ₚ keys (before ++ l).
Proof.
  induction l as [|x l IH]; intros before; cbn [touch].
  - by rewrite app_nil_r.
  - case_bool_decide.
    + set (x' := mkEntry _ (e_address x) (e_size x) n).
      assert (keys (before ++ x :: l) = keys (before ++ x' :: l)) as ->
        by (unfold keys; by rewrite !fmap_app).
      case_match; [done|]. apply fmap_Permutation. rewrite place_perm.
      apply Permutation_middle.
    + rewrite IH. by rewrite <- app_assoc.
Qed.

Lemma on_disk_keys a l : on_disk a l = None <-> ~ a ∈ (keys l).*1.
Proof.
  unfold on_disk. induction l as [|x l IH].
  - split; [intros _; apply not_elem_of_nil|done].
  - change ((keys (x :: l)).*1) with (e_address x :: (keys l).*1).
    destruct (decide (e_address x = a)) as [E|N].
    + rewrite filter_cons_True by done. cbn. split; [done|]. intros []. rewrite E. by left.
    + rewrite filter_cons_False, IH, not_elem_of_cons by done. naive_solver.
Qed.

Lemma on_disk_in a l e : on_disk a l = Some e -> e ∈ l /\ e_address e = a.
Proof.
  unfold on_disk. intros Hd.
  assert (e ∈ filter (fun e => e_address e = a) l) as I.
  { destruct (filter _ l); [done|]. injection Hd as ->. by left. }
  apply list_elem_of_filter in I as [? ?]. by split.
Qed.

Lemma emplace_new e l : ~ e_address e ∈ (keys l).*1 -> emplace e l = place e l.
Proof.
  intros N. unfold emplace. destruct (existsb _ l) eqn:Ex; [|done].
  apply existsb_exists in Ex as (x & I & Hx%bool_decide_eq_true).
  apply list_elem_of_In in I. destruct N. rewrite <- Hx.
  apply (list_elem_of_fmap_2 fst _ (e_address x, e_size x)).
  by apply (list_elem_of_fmap_2 (fun e => (e_address e, e_size e))).
Qed.

(** *** The files *)

Definition small (b : B) : Prop :=
  0 <= file_size b /\ file_size b + disk_cache_size cfg < 2 ^ 64.

(** The files are those of the index, which are accounted for. *)
Record indexed (ok : A -> B -> Prop) (c : t A B) : Prop := {
  i_files : forall p, p ∈ keys (disk_cache c) ->
    exists b, files c !! p.1 = Some b /\ ok p.1 b /\ p.2 = file_size b /\ small b;
  i_nodup : NoDup (keys (disk_cache c)).*1;
  i_used : disk_cache_used c = total (keys (disk_cache c))
}.

Lemma total_positive l : (forall p, p ∈ l -> 0 <= p.2) -> 0 <= total l.
Proof.
  induction l as [|p l IH]; intros F; cbn; [done|].
  assert (0 <= p.2) by (apply F; by left).
  assert (0 <= total l) by (apply IH; intros q I; apply F; by right). lia.
Qed.

Lemma indexed_size ok c p : indexed ok c -> p ∈ keys (disk_cache c) -> 0 <= p.2.
Proof. intros [IF _ _] I. by destruct (IF p I) as (b & _ & _ & -> & ? & _). Qed.

Lemma indexed_keys ok c l :
  indexed ok c -> keys l ≡ₚ keys (disk_cache c) -> indexed ok (set_disk l c).
Proof.
  intros [IF IN IU] P. constructor; cbn.
  - intros p I. apply IF. by rewrite <- P.
  - by rewrite P.
  - rewrite IU. symmetry. by apply total_perm.
Qed.

(** Dropping a file. *)
Lemma indexed_drop ok c p l :
  indexed ok c -> keys (disk_cache c) ≡ₚ p :: keys l ->
  disk_cache_used c < 2 ^ 64 ->
  indexed ok (set_disk l (set_files (delete p.1 (files c))
    (set_used (wrap_u 64 (disk_cache_used c - p.2)) c))).
Proof.
  intros Ix P LT.
  assert (forall q, q ∈ p :: keys l -> 0 <= q.2) as SZ.
  { intros q I. eapply indexed_size; [exact Ix|]. by rewrite P. }
  assert (0 <= p.2) by (apply SZ; by left).
  assert (0 <= total (keys l)) by (apply total_positive; intros q I; apply SZ; by right).
  destruct Ix as [IF IN IU]. rewrite P in IN. apply NoDup_cons in IN as [NI IN].
  constructor; cbn.
  - intros q I. destruct (IF q) as (b & E & ? & ? & ?); [rewrite P; by right|].
    exists b. split; [|done]. rewrite lookup_delete_ne; [done|].
    intros E'. apply NI. rewrite E'. by apply list_elem_of_fmap_2.
  - done.
  - rewrite (total_perm _ _ P) in IU. change (total (p :: keys l)) with (p.2 + total (keys l)) in IU.
    fold (keys l). rewrite wrap_u_id; lia.
Qed.

Lemma prune_indexed ok l : forall s, disk_cache s.1 = l -> indexed ok s.1 ->
  0 <= disk_cache_size cfg -> disk_cache_used s.1 < 2 ^ 64 ->
  exists s', prune l s = (Ok tt, s') /\ s'.2 = s.2 /\ indexed ok s'.1 /\
  disk_cache_used s'.1 <= disk_cache_size cfg /\
  cache s'.1 = cache s.1 /\ pending s'.1 = pending s.1.
Proof.
  induction l as [|e l IH]; intros s E Ix Sz LT; cbn [prune]; unfold self;
    rewrite bind_reads.
  - destruct (Z.leb_spec (disk_cache_used s.1) (disk_cache_size cfg)); [by exists s|].
    pose proof (i_used _ _ Ix) as U. rewrite E in U. change (total (keys [])) with 0 in U. lia.
  - destruct (Z.leb_spec (disk_cache_used s.1) (disk_cache_size cfg)); [by exists s|].
    set (s1 := (set_disk l (set_files (delete (e_address e) (files s.1))
          (set_used (wrap_u 64 (disk_cache_used s.1 - e_size e)) s.1)), s.2)).
    rewrite (bind_Ok _ _ s tt s1) by done.
    assert (indexed ok s1.1) as I1.
    { apply (indexed_drop ok s.1 (e_address e, e_size e)); [done|by rewrite E|done]. }
    destruct (IH s1) as (s' & E' & ? & ? & ? & ? & ?); try done; [|by exists s'].
    rewrite (i_used _ _ I1). change (total (keys (disk_cache s1.1))) with (total (keys l)).
    pose proof (i_used _ _ Ix) as U. rewrite E in U.
    change (total (keys (e :: l))) with (e_size e + total (keys l)) in U.
    pose proof (indexed_size _ _ (e_address e, e_size e) Ix ltac:(rewrite E; by left)).
    cbn in *. lia.
Qed.

Lemma indexed_weaken (ok ok' : A -> B -> Prop) c : indexed ok c ->
  (forall a b, a ∈ (keys (disk_cache c)).*1 -> ok a b -> ok' a b) -> indexed ok' c.
Proof.
  intros [IF IN IU] Ok'. constructor; [|done|done]. intros p I.
  destruct (IF p I) as (b & ? & ? & ? & ?). exists b. split; [done|].
  split; [|done]. apply Ok'; [by apply list_elem_of_fmap_2|done].
Qed.

(** What a method of the files leaves as it is. *)
Definition same_else (s s' : t A B * W) : Prop :=
  s'.2 = s.2 /\ cache s'.1 = cache s.1 /\ pending s'.1 = pending s.1.

Lemma push_indexed ok s b : indexed ok s.1 -> 0 <= disk_cache_size cfg ->
  disk_cache_used s.1 <= disk_cache_size cfg -> ok (address b) b -> small b ->
  ~ address b ∈ (keys (disk_cache s.1)).*1 ->
  exists s', disk_cache_push b s = (Ok tt, s') /\ same_else s s' /\ indexed ok s'.1 /\
  disk_cache_used s'.1 <= disk_cache_size cfg.
Proof.
  intros Ix Sz Us Ob Sm N. unfold disk_cache_push.
  destruct (disk_cache_path cfg); cbn [negb]; [|by exists s].
  set (n := now s.2).
  set (s1 := (set_disk (place (mkEntry _ (address b) (file_size b) n) (disk_cache s.1))
    (set_used (disk_cache_used s.1 + file_size b)
      (set_files (<[address b := b]> (files s.1)) s.1)), s.2)).
  destruct Sm as [Sm1 Sm2].
  assert (0 <= disk_cache_used s.1) as Up.
  { rewrite (i_used _ _ Ix). apply total_positive. intros p I. by eapply indexed_size. }
  assert (indexed ok s1.1) as I1.
  { destruct Ix as [IF IN IU].
    assert (keys (disk_cache s1.1) ≡ₚ (address b, file_size b) :: keys (disk_cache s.1)) as P.
    { change ((address b, file_size b) :: keys (disk_cache s.1)) with
        (keys (mkEntry _ (address b) (file_size b) n :: disk_cache s.1)).
      apply fmap_Permutation, place_perm. }
    constructor.
    - intros p I. rewrite P in I. apply elem_of_cons in I as [->|I].
      + exists b. split; [apply lookup_insert_eq|]. by split_and!.
      + destruct (IF p I) as (b' & ? & ? & ? & ?). exists b'. split; [|done].
        cbn. rewrite lookup_insert_ne; [done|]. intros E. apply N. rewrite E.
        by apply list_elem_of_fmap_2.
    - rewrite P. cbn. by constructor.
    - rewrite (total_perm _ _ P). cbn. rewrite IU. unfold keys. lia. }
  destruct (prune_indexed ok (disk_cache s1.1) s1) as (s' & E & ? & ? & ? & ? & ?);
    [done|done|done|cbn; lia|].
  exists s'. split; [|by split_and!].
  rewrite (bind_Ok _ _ s tt (set_files (<[address b := b]> (files s.1)) s.1, s.2)) by done.
  unfold time, self. rewrite bind_reads. cbn [snd fst]. fold n.
  rewrite (bind_Ok _ _ _ tt s1); [by rewrite bind_reads|].
  unfold upd, modify, s1. cbn [snd fst]. do 2 f_equal. cbn.
  rewrite emplace_new by done. by rewrite wrap_u_id by lia.
Qed.
End Cache.

(** The address of a block tells whether it is mutable; a block is either. *)
Class LawfulBlocks (A B : Type) `{!Blocks A B} : Prop := {
  address_kind : forall b b' : B, address b = address b' ->
    is_Some (mutable_version b) -> is_Some (mutable_version b');
  immutable_unversioned : forall b : B, immutable b = bool_decide (mutable_version b = None)
}.

(** *** A node that is alone *)

(** The consensus is a map, and no other node uses it. *)
Record alone {A B : Type} `{Countable A} := mkAlone {
  blocks : gmap A B;
  clock : Z
}.
Arguments alone A B {_ _}.

Section Alone.
Context {A B M R G : Type} `{Countable A} `{!Blocks A B}.
Context (cfg : settings) (batch_size : nat).

Definition answer (w : alone A B) (a : A) (lv : option Z) : result (error A) (option B) :=
  match blocks w !! a with
  | Some b => Ok (unless_version lv b)
  | None => Throw (MissingBlock a)
  end.

Definition alone_fetch_all :=
  fix go (l : list (A * option Z))
    (receive : A -> result (error A) (option B) -> method (t A B * alone A B) (error A) unit) :
    method (t A B * alone A B) (error A) unit :=
  match l with
  | [] => mret tt
  | (a, lv) :: l' => s ← read; receive a (answer s.2 a lv);; go l' receive
  end.

#[local] Instance alone_backend : Backend A B (alone A B) M R G := {|
  now := clock;
  backend_fetch a lv := s ← read; lift (answer s.2 a lv);
  backend_fetch_all := alone_fetch_all;
  backend_store b _ _ :=
    modify (fun s => (s.1, mkAlone _ _ _ _ (<[address b := b]> (blocks s.2)) (clock s.2)));;
    mret None;
  backend_remove a _ :=
    s ← read;
    match blocks s.2 !! a with
    | Some _ => write (s.1, mkAlone _ _ _ _ (delete a (blocks s.2)) (clock s.2))
    | None => throw (MissingBlock a)
    end
|}.

Inductive op :=
  | Fetch (a : A) (local_version : option Z)
  | Store (b : B) (m : M) (r : option R)
  | Remove (a : A) (rs : G)
  | Clear
  | Cleanup
  | Wait (d : Z).

(** The operations of a node, through its cache. *)
Definition step (o : op) : method (t A B * alone A B) (error A) (option B) :=
  match o with
  | Fetch a lv => fetch cfg a lv
  | Store b m r => store cfg b m r;; mret None
  | Remove a rs => remove a rs;; mret None
  | Clear => clear;; mret None
  | Cleanup => cleanup cfg batch_size;; mret None
  | Wait d => modify (fun s => (s.1, mkAlone _ _ _ _ (blocks s.2) (clock s.2 + d)));; mret None
  end.
Fixpoint run (os : list op) (s : t A B * alone A B) :
    list (result (error A) (option B)) * (t A B * alone A B) :=
  match os with
  | [] => ([], s)
  | o :: os' =>
      let '(r, s1) := step o s in let '(l, s2) := run os' s1 in (r :: l, s2)
  end.

(** The same without a cache. *)
Definition direct (o : op) (w : alone A B) : result (error A) (option B) * alone A B :=
  match o with
  | Fetch a lv => (answer w a lv, w)
  | Store b _ _ => (Ok None, mkAlone _ _ _ _ (<[address b := b]> (blocks w)) (clock w))
  | Remove a _ =>
      match blocks w !! a with
      | Some _ => (Ok None, mkAlone _ _ _ _ (delete a (blocks w)) (clock w))
      | None => (Throw (MissingBlock a), w)
      end
  | Clear | Cleanup => (Ok None, w)
  | Wait d => (Ok None, mkAlone _ _ _ _ (blocks w) (clock w + d))
  end.
Fixpoint run_direct (os : list op) (w : alone A B) :
    list (result (error A) (option B)) * alone A B :=
  match os with
  | [] => ([], w)
  | o :: os' =>
      let '(r, w1) := direct o w in let '(l, w2) := run_direct os' w1 in (r :: l, w2)
  end.

(** The consensus while another coroutine runs: the blocks that are fetched
    together are looked up, then that coroutine runs, then they are received. *)
Definition deliver :=
  fix go (l : list (A * result (error A) (option B)))
    (receive : A -> result (error A) (option B) -> method (t A B * alone A B) (error A) unit) :
    method (t A B * alone A B) (error A) unit :=
  match l with
  | [] => mret tt
  | (a, r) :: l' => receive a r;; go l' receive
  end.

Definition racing (meanwhile : method (t A B * alone A B) (error A) unit) :
    Backend A B (alone A B) M R G := {|
  now := clock;
  backend_fetch := backend_fetch (Backend := alone_backend);
  backend_fetch_all l receive :=
    s ← read;
    meanwhile;;
    deliver ((fun av => (av.1, answer s.2 av.1 av.2)) <$> l) receive;
  backend_store := backend_store (Backend := alone_backend);
  backend_remove := backend_remove (Backend := alone_backend)
|}.

Implicit Types (s : t A B * alone A B) (b : B) (w : alone A B).

(** *** A turn of the cleanup *)

Definition keyed (m : gmap A (cached B)) : Prop :=
  forall a x, m !! a = Some x ->
    address (block x) = a /\ is_Some (mutable_version (block x)).
Definition addressed w : Prop := forall a b, blocks w !! a = Some b -> address b = a.

(** A block that was just fetched: the current one, or one of its version. *)
Definition current w (n : Z) (a : A) (x0 x : cached B) : Prop :=
  last_fetched x = n /\
  exists b, blocks w !! a = Some b /\
    (block x = b \/ block x = block x0 /\ mutable_version (block x0) = mutable_version b).

(** The cache after some blocks of [m0] were fetched again. *)
Definition renewed w (n : Z) (m0 m : gmap A (cached B)) (asked : gset A) : Prop :=
  forall a x, m !! a = Some x ->
  exists x0, m0 !! a = Some x0 /\ last_used x = last_used x0 /\
    ((x = x0 /\ ~ a ∈ asked) \/ current w n a x0 x).

Lemma renewed_refl w n m : renewed w n m m ∅.
Proof. intros a x E. exists x. split; [done|]. split; [done|]. left. set_solver. Qed.

Lemma renewed_off w n m0 m m' asked a : renewed w n m0 m asked ->
  (forall a', a' <> a -> m' !! a' = m !! a') ->
  (forall x, m' !! a = Some x ->
     exists x0, m0 !! a = Some x0 /\ last_used x = last_used x0 /\ current w n a x0 x) ->
  renewed w n m0 m' ({[a]} ∪ asked).
Proof.
  intros Rn Off At a' x E. destruct (decide (a' = a)) as [->|N].
  - destruct (At x E) as (x0 & ? & ? & ?). exists x0. split_and!; auto.
  - rewrite Off in E by done. destruct (Rn a' x E) as (x0 & ? & ? & C).
    exists x0. split; [done|]. split; [done|]. destruct C as [[? ?]|?]; [left|by right].
    split; [done|]. set_solver.
Qed.

Lemma renewed_block w n m0 m asked a x : keyed m0 -> addressed w ->
  renewed w n m0 m asked -> m !! a = Some x -> address (block x) = a.
Proof.
  intros Ky Ad Rn E. destruct (Rn a x E) as (x0 & E0 & _ & [[-> _]|(_ & b & Eb & [->|[-> _]])]).
  - by apply Ky.
  - by apply Ad.
  - by apply Ky.
Qed.

Lemma refresh_renewed w n m0 m asked a lv : keyed m0 -> addressed w ->
  renewed w n m0 m asked -> (forall x0, m0 !! a = Some x0 -> lv = mutable_version (block x0)) ->
  renewed w n m0
    match answer w a lv with
    | Throw _ => delete a m
    | Ok b => refresh_block a b n m
    end ({[a]} ∪ asked).
Proof.
  intros Ky Ad Rn Lv. unfold answer. destruct (blocks w !! a) as [b|] eqn:Eb.
  2: { apply (renewed_off w n m0 m _ asked a Rn).
       - intros a' N. by rewrite lookup_delete_ne.
       - intros x. by rewrite lookup_delete_eq. }
  unfold refresh_block. destruct (m !! a) as [x|] eqn:E.
  2: { apply (renewed_off w n m0 m _ asked a Rn); [done|congruence]. }
  assert (address (default (block x) (unless_version lv b)) = a) as Ea.
  { unfold unless_version. case_bool_decide; cbn; [by eapply renewed_block|by apply Ad]. }
  cbn [block]. rewrite decide_True by done.
  apply (renewed_off w n m0 m _ asked a Rn).
  { intros a' N. by rewrite lookup_insert_ne. }
  intros x'. rewrite lookup_insert_eq. intros [= <-].
  destruct (Rn a x E) as (x0 & E0 & U & C). exists x0. split; [done|]. split; [done|].
  split; [done|]. exists b. split; [done|]. cbn [block].
  unfold unless_version. case_bool_decide as V; cbn; [|by left].
  destruct V as [_ V]. rewrite (Lv x0 E0) in V.
  destruct C as [[-> _]|(_ & b' & Eb' & C)]; [by right|].
  assert (b' = b) as -> by congruence. done.
Qed.

Lemma fetch_all_renewed n m0 l : forall s asked, keyed m0 -> addressed s.2 ->
  renewed s.2 n m0 (cache s.1) asked ->
  (forall p x0, p ∈ l -> m0 !! p.1 = Some x0 -> p.2 = mutable_version (block x0)) ->
  exists m, alone_fetch_all l (refreshed n) s = (Ok tt, (set_cache m s.1, s.2)) /\
  renewed s.2 n m0 m (list_to_set l.*1 ∪ asked).
Proof.
  induction l as [|[a lv] l IH]; intros s asked Ky Ad Rn Lv.
  - exists (cache s.1). split; [by destruct s as [[]]|].
    eapply eq_ind; [exact Rn|]. set_solver.
  - cbn [alone_fetch_all]. rewrite bind_read.
    set (m1 := match answer s.2 a lv with
               | Throw _ => delete a (cache s.1)
               | Ok b => refresh_block a b n (cache s.1) end).
    assert (refreshed n a (answer s.2 a lv) s = (Ok tt, (set_cache m1 s.1, s.2))) as E1 by done.
    rewrite (bind_Ok _ _ _ _ _ E1).
    destruct (IH (set_cache m1 s.1, s.2) ({[a]} ∪ asked)) as (m & E & Rn'); [done|done| | |].
    + apply refresh_renewed; try done. intros x0 Ex. apply (Lv (a, lv)); [by left|done].
    + intros p x0 I. apply Lv. by right.
    + exists m. split; [exact E|]. cbn in Rn' |- *.
      eapply eq_ind; [exact Rn'|]. set_solver.
Qed.

Lemma renewed_refresh n m0 fuel : (0 < batch_size)%nat -> forall l s asked,
  (length l <= fuel)%nat -> keyed m0 -> addressed s.2 ->
  renewed s.2 n m0 (cache s.1) asked ->
  (forall p x0, p ∈ l -> m0 !! p.1 = Some x0 -> p.2 = mutable_version (block x0)) ->
  exists m, refresh fuel batch_size n l s = (Ok tt, (set_cache m s.1, s.2)) /\
  renewed s.2 n m0 m (list_to_set l.*1 ∪ asked).
Proof.
  intros Po. induction fuel as [|fuel IH]; intros l s asked Le Ky Ad Rn Lv.
  { destruct l; [|cbn in Le; lia]. exists (cache s.1). split; [by destruct s as [[]]|].
    eapply eq_ind; [exact Rn|]. set_solver. }
  destruct l as [|p l].
  { exists (cache s.1). split; [by destruct s as [[]]|].
    eapply eq_ind; [exact Rn|]. set_solver. }
  cbn [refresh]. set (l0 := p :: l) in *.
  destruct (fetch_all_renewed n m0 (take batch_size l0) s asked) as (m1 & E1 & R1); try done.
  { intros q x0 I. apply Lv. by apply (subseteq_take batch_size). }
  change (backend_fetch_all (take batch_size l0) (refreshed n))
    with (alone_fetch_all (take batch_size l0) (refreshed n)).
  rewrite (bind_Ok _ _ _ _ _ E1).
  destruct (IH (drop batch_size l0) (set_cache m1 s.1, s.2)
    (list_to_set (take batch_size l0).*1 ∪ asked)) as (m & E & Rn'); try done.
  - rewrite length_drop. cbn [length l0] in *. lia.
  - intros q x0 I. apply Lv. by apply (subseteq_drop batch_size).
  - exists m. split; [exact E|]. cbn [fst snd cache set_cache] in Rn' |- *.
    eapply eq_ind; [exact Rn'|].
    rewrite (assoc_L (∪)), <- list_to_set_app_L, <- fmap_app.
    f_equal. rewrite <- (take_drop batch_size l0) at 3.
    rewrite !fmap_app, !list_to_set_app_L. set_solver.
Qed.

#[local] Instance fetched_before_total : Total (fetched_before (A := A) (B := B)).
Proof. intros x y. unfold fetched_before. lia. Qed.
#[local] Instance fetched_before_trans : Transitive (fetched_before (A := A) (B := B)).
Proof. intros x y z. unfold fetched_before. lia. Qed.

Lemma need_refresh_sound d l p : p ∈ need_refresh d l ->
  exists x, (p.1, x) ∈ l /\ p.2 = mutable_version (block x).
Proof.
  induction l as [|[a x] l IH]; cbn; [set_solver|].
  case_match; [|set_solver]. destruct (mutable_version (block x)) eqn:V; [|set_solver].
  intros [->|I]%elem_of_cons.
  - exists x. split; [by left|done].
  - destruct (IH I) as (y & ? & ?). exists y. split; [by right|done].
Qed.

Lemma need_refresh_complete d l a x : StronglySorted fetched_before l ->
  (forall p, p ∈ l -> is_Some (mutable_version (block p.2))) -> (a, x) ∈ l ->
  a ∈ (need_refresh d l).*1 \/ d <= last_fetched x.
Proof.
  intros St Mu. induction St as [|[a' x'] l St IH F]; [set_solver|].
  intros I. cbn. destruct (Z.ltb_spec (last_fetched x') d) as [L|L].
  - destruct (Mu (a', x')) as [v V]; [by left|]. cbn in V. rewrite V.
    apply elem_of_cons in I as [[= <- <-]|I]; [left; by left|].
    destruct IH as [?|?]; [|done|left; by right|by right].
    intros p Ip. apply Mu. by right.
  - right. apply elem_of_cons in I as [[= <- <-]|I]; [done|].
    rewrite Forall_forall in F. specialize (F _ I). unfold fetched_before in F. cbn in F. lia.
Qed.

(** What a turn leaves in the cache. *)
Lemma cleanup_alone s : (0 < batch_size)%nat -> keyed (cache s.1) -> addressed s.2 ->
  exists m, cleanup cfg batch_size s = (Ok tt, (set_cache m s.1, s.2)) /\
  forall a x, m !! a = Some x ->
  exists x0, cache s.1 !! a = Some x0 /\ last_used x = last_used x0 /\
    clock s.2 - cache_ttl cfg <= last_used x0 /\
    ((x = x0 /\ clock s.2 - cache_invalidation cfg <= last_fetched x) \/
     current s.2 (clock s.2) a x0 x).
Proof.
  intros Po Ky Ad. unfold cleanup, time, self. rewrite bind_reads. cbn [now alone_backend].
  set (n := clock s.2).
  set (m0 := filter (fun ac => n - cache_ttl cfg <= last_used ac.2) (cache s.1)).
  rewrite (bind_Ok _ _ s tt (set_cache m0 s.1, s.2)) by done. rewrite bind_reads.
  cbn [fst cache set_cache].
  set (sorted := merge_sort fetched_before (map_to_list m0)).
  set (l := need_refresh (n - cache_invalidation cfg) sorted).
  assert (forall a x, (a, x) ∈ sorted <-> m0 !! a = Some x) as Sr.
  { intros a x. unfold sorted. rewrite merge_sort_Permutation. apply elem_of_map_to_list. }
  assert (keyed m0) as K0.
  { intros a x E. apply map_lookup_filter_Some in E as [E _]. by apply Ky. }
  destruct (renewed_refresh n m0 (length l) Po l (set_cache m0 s.1, s.2) ∅) as (m & E & Rn);
    [done|done|done|apply renewed_refl| |].
  { intros p x0 I E0. apply need_refresh_sound in I as (x & I & ->).
    apply Sr in I. congruence. }
  exists m. split; [exact E|]. intros a x Ex.
  destruct (Rn a x Ex) as (x0 & E0 & U & C). exists x0.
  pose proof E0 as [E1 Used]%map_lookup_filter_Some. split; [done|]. split; [done|].
  split; [done|]. destruct C as [[-> N]|C]; [left|by right]. split; [done|].
  destruct (need_refresh_complete (n - cache_invalidation cfg) sorted a x0) as [I|?].
  - apply (StronglySorted_merge_sort fetched_before).
  - intros [a' x'] I%Sr. by apply (K0 a').
  - by apply Sr.
  - destruct N. fold l in I. set_solver.
  - done.
Qed.

(** *** What happens to a cache *)

(** A cache that was just created, without files. *)
Definition empty : t A B := mkCache _ _ _ _ ∅ [] 0 ∅ ∅.

(** A turn of the cleanup bounds how old the cache is, whatever
    other nodes did: afterwards a block is cached only if it was used within
    the time to live, and it either was fetched within the time of invalidation,
    or has the version the consensus has now. *)
Theorem cleanup_bounds_staleness s : (0 < batch_size)%nat -> keyed (cache s.1) ->
  addressed s.2 ->
  exists s', step Cleanup s = (Ok None, s') /\ s'.2 = s.2 /\
  forall a x, cache s'.1 !! a = Some x ->
    clock s.2 - cache_ttl cfg <= last_used x /\
    (clock s.2 - cache_invalidation cfg <= last_fetched x /\ cache s.1 !! a = Some x \/
     last_fetched x = clock s.2 /\
     exists b, blocks s.2 !! a = Some b /\ mutable_version (block x) = mutable_version b).
Proof.
  intros Po Ky Ad. destruct (cleanup_alone s Po Ky Ad) as (m & E & F).
  exists (set_cache m s.1, s.2). cbn [step]. rewrite (bind_Ok _ _ _ _ _ E).
  split; [done|]. split; [done|]. intros a x L.
  destruct (F a x L) as (x0 & L0 & U & Tl & C). split; [by rewrite U|].
  destruct C as [[-> ?]|(? & b & Eb & C)]; [by left|right]. split; [done|].
  exists b. split; [done|]. by destruct C as [->|[-> ?]].
Qed.

(** Runs the steps of a method of the cache. *)
Ltac open_steps :=
  do 3 (unfold upd, time, self, reads, modify, mbind, method_bind, mret, method_ret; cbn).

(** A block that is stored again is counted twice: its file is
    written over, but its size is added, so that storing twice a block of more
    than half the capacity empties the files, and leaves its size in the count
    for ever. *)
Theorem known_block_is_counted_twice b m w : disk_cache_path cfg = true ->
  mutable_version b = None ->
  0 <= file_size b <= disk_cache_size cfg -> disk_cache_size cfg < 2 * file_size b < 2 ^ 64 ->
  let s := (run [Store b m None; Store b m None] (empty, w)).2 in
  disk_cache s.1 = [] /\ files s.1 = ∅ /\ disk_cache_used s.1 = file_size b /\
  blocks s.2 !! address b = Some b.
Proof.
  intros Pa V F1 F2 s.
  set (w1 := mkAlone _ _ _ _ (<[address b := b]> (blocks w)) (clock w)).
  set (w2 := mkAlone _ _ _ _ (<[address b := b]> (blocks w1)) (clock w1)).
  set (e := mkEntry _ (address b) (file_size b) (clock w)).
  assert (forall c w', store cfg b m None (c, w') = disk_cache_push cfg b
    (c, mkAlone _ _ _ _ (<[address b := b]> (blocks w')) (clock w'))) as ES.
  { intros c w'. unfold store. cbn. by rewrite V. }
  assert (store cfg b m None (empty, w) =
    (Ok tt, (mkCache _ _ _ _ ∅ [e] (file_size b) (<[address b := b]> ∅) ∅, w1))) as E1.
  { rewrite ES. unfold disk_cache_push. rewrite Pa. open_steps.
    rewrite wrap_u_id by lia. by rewrite (proj2 (Z.leb_le _ _)) by lia. }
  assert (store cfg b m None (mkCache _ _ _ _ ∅ [e] (file_size b) (<[address b := b]> ∅) ∅, w1) =
    (Ok tt, (mkCache _ _ _ _ ∅ [] (file_size b) ∅ ∅, w2))) as E2.
  { rewrite ES. unfold disk_cache_push. rewrite Pa. open_steps.
    unfold emplace. cbn. rewrite bool_decide_eq_true_2 by done. open_steps.
    rewrite (wrap_u_id _ (file_size b + file_size b)) by lia.
    rewrite (proj2 (Z.leb_gt _ _)) by lia. open_steps.
    rewrite wrap_u_id by lia. rewrite (proj2 (Z.leb_le _ _)) by lia.
    rewrite insert_insert_eq, delete_insert_id by apply lookup_empty.
    by rewrite Z.add_simpl_r. }
  assert (s = (mkCache _ _ _ _ ∅ [] (file_size b) ∅ ∅, w2)) as ->.
  { unfold s. cbn [run step]. rewrite (bind_Ok _ _ _ _ _ E1). cbn.
    by rewrite (bind_Ok _ _ _ _ _ E2). }
  split_and!; try done. apply lookup_insert_eq.
Qed.

(** A turn of the cleanup can undo a store: when a block that another node
    has changed is being fetched again, and this node stores a newer one
    before the answer is received, the answer replaces what was stored in the
    cache, whatever its version, and a fetch then answers the block as it
    was before the store. *)
Theorem refresh_undoes_a_store (x0 : cached B) b1 b2 m w :
  let a := address b2 in
  let meanwhile := store (Backend0 := alone_backend) cfg b2 m None in
  let s := (mkCache _ _ _ _ {[a := x0]} [] 0 ∅ ∅, w) in
  (0 < batch_size)%nat ->
  address b1 = a -> is_Some (mutable_version (block x0)) -> is_Some (mutable_version b2) ->
  blocks w !! a = Some b1 -> mutable_version b1 <> mutable_version (block x0) ->
  clock w - cache_ttl cfg <= last_used x0 ->
  last_fetched x0 < clock w - cache_invalidation cfg ->
  exists s', cleanup (Backend0 := racing meanwhile) cfg batch_size s = (Ok tt, s') /\
  blocks s'.2 !! a = Some b2 /\
  (fetch (Backend0 := racing meanwhile) cfg a None s').1 = Ok (Some b1).
Proof.
  intros a meanwhile s Po E1 [v0 V0] [v2 V2] Eb Ne Tl Ti.
  set (n := clock w).
  set (w' := mkAlone _ _ _ _ (<[a := b2]> (blocks w)) n).
  set (x1 := mkCached _ b1 n n).
  exists (mkCache _ _ _ _ {[a := x1]} [] 0 ∅ ∅, w').
  split; [|split; [apply lookup_insert_eq|]].
  2: { unfold fetch, fetch_cache, self. rewrite bind_assoc, bind_reads. cbn [fst cache].
       rewrite lookup_singleton_eq. done. }
  assert (meanwhile s = (Ok tt, (mkCache _ _ _ _ {[a := mkCached _ b2 n n]} [] 0 ∅ ∅, w'))) as EM.
  { unfold meanwhile, store. rewrite (bind_Ok _ _ s None (s.1, w')) by done.
    rewrite bool_decide_eq_true_2 by (by rewrite V2). unfold insert, time. rewrite bind_reads.
    unfold upd, modify, set_cache. cbn [fst snd s cache now alone_backend clock w'].
    fold a. by rewrite insert_singleton_eq. }
  assert (answer w a (Some v0) = Ok (Some b1)) as EA.
  { unfold answer, unless_version. rewrite Eb.
    rewrite bool_decide_eq_false_2; [done|]. intros [_ ?]. congruence. }
  assert (refreshed n a (Ok (Some b1)) (mkCache _ _ _ _ {[a := mkCached _ b2 n n]} [] 0 ∅ ∅, w') =
    (Ok tt, (mkCache _ _ _ _ {[a := x1]} [] 0 ∅ ∅, w'))) as ER.
  { unfold refreshed, upd, modify, set_cache, refresh_block. cbn.
    rewrite lookup_singleton_eq. cbn. rewrite decide_True by done.
    by rewrite insert_singleton_eq. }
  unfold cleanup, time, self. rewrite bind_reads. cbn [now racing snd s]. fold n.
  rewrite (bind_Ok _ _ s tt s).
  2: { unfold upd, modify, set_cache. cbn [fst snd s cache].
       by rewrite map_filter_singleton_True by done. }
  rewrite bind_reads. cbn [fst s cache]. rewrite map_to_list_singleton.
  change (merge_sort fetched_before [(a, x0)]) with [(a, x0)].
  cbn [need_refresh]. rewrite (proj2 (Z.ltb_lt _ _)) by done. rewrite V0.
  cbn [length refresh]. destruct batch_size as [|k]; [lia|].
  rewrite firstn_cons, skipn_cons, take_nil, drop_nil.
  cbn [backend_fetch_all racing]. rewrite bind_assoc, bind_read, bind_assoc.
  rewrite (bind_Ok _ _ _ _ _ EM). cbn [list_fmap fmap fst snd s deliver].
  rewrite EA, bind_assoc. by rewrite (bind_Ok _ _ _ _ _ ER).
Qed.

(** *** The cache agrees with the consensus *)

Context `{!LawfulBlocks A B} (positive : 0 <= disk_cache_size cfg).

Definition filed (w : alone A B) (a : A) (b : B) : Prop :=
  blocks w !! a = Some b /\ mutable_version b = None.
Definition cached_ok (w : alone A B) (c : gmap A (cached B)) : Prop :=
  forall a x, c !! a = Some x ->
    blocks w !! a = Some (block x) /\ is_Some (mutable_version (block x)).
Definition sane (w : alone A B) : Prop :=
  forall a b, blocks w !! a = Some b -> address b = a /\ validate b = true /\ small cfg b.

Record coherent (s : t A B * alone A B) : Prop := {
  c_cache : cached_ok s.2 (cache s.1);
  c_files : indexed cfg (filed s.2) s.1;
  c_bound : disk_cache_used s.1 <= disk_cache_size cfg;
  c_blocks : sane s.2
}.

Lemma coherent_cache c s : coherent s -> cached_ok s.2 c -> coherent (set_cache c s.1, s.2).
Proof. by intros [CC [IF IN IU] CB CS] Ok. Qed.

Lemma cached_set w c a x : cached_ok w c -> blocks w !! a = Some (block x) ->
  is_Some (mutable_version (block x)) -> cached_ok w (<[a := x]> c).
Proof.
  intros Ok E V a' x' [[<- <-]|[N L]]%lookup_insert_Some; [done|]. by apply Ok.
Qed.

Lemma filed_none s a b : coherent s -> blocks s.2 !! a = Some b ->
  is_Some (mutable_version b) -> ~ a ∈ (keys (disk_cache s.1)).*1.
Proof.
  intros [_ [IF _ _] _ _] E [v V] I. apply list_elem_of_fmap in I as (p & -> & I).
  destruct (IF p I) as (b' & _ & [E' V'] & _). rewrite E in E'. congruence.
Qed.

Lemma push_coherent s b : coherent s -> blocks s.2 !! address b = Some b ->
  mutable_version b = None -> on_disk (address b) (disk_cache s.1) = None ->
  exists s', disk_cache_push cfg b s = (Ok tt, s') /\ s'.2 = s.2 /\ coherent s' /\
  pending s'.1 = pending s.1.
Proof.
  intros [CC CF CB CS] E V N%on_disk_keys. destruct (CS _ _ E) as (_ & _ & Sm).
  destruct (push_indexed cfg (filed s.2) s b CF positive CB) as
    (s' & EP & (W1 & W2 & W3) & Ix & Bd); [by split|done|done|].
  exists s'. split; [done|]. split; [done|]. split; [|done].
  constructor; rewrite ?W1, ?W2, ?W3; done.
Qed.

Lemma insert_cache_coherent s b : coherent s -> blocks s.2 !! address b = Some b ->
  on_disk (address b) (disk_cache s.1) = None ->
  exists s', insert_cache cfg b s = (Ok tt, s') /\ s'.2 = s.2 /\ coherent s' /\
  pending s'.1 = pending s.1.
Proof.
  intros Co E N. destruct (c_blocks _ Co _ _ E) as (_ & Va & _).
  unfold insert_cache. rewrite Va, immutable_unversioned. cbn [negb].
  destruct (_ && _) eqn:D1.
  - apply andb_true_iff in D1 as [_ D1%bool_decide_eq_true].
    destruct (push_coherent s b Co E D1 N) as (s' & ? & ? & ? & ?). by exists s'.
  - destruct (_ && negb (cache_size cfg =? 0)) eqn:D2; [|by exists s].
    apply andb_true_iff in D2 as [D2%bool_decide_eq_true _].
    unfold time. rewrite bind_reads. eexists. split; [done|]. split; [done|].
    cbn. destruct (cache s.1 !! address b) eqn:EC; [by destruct s|]. split; [|done].
    apply coherent_cache; [done|]. apply cached_set; [apply Co|done|done].
Qed.

Lemma unless_unversioned lv b : mutable_version b = None -> unless_version lv b = Some b.
Proof.
  intros V. unfold unless_version. rewrite V. case_bool_decide as D; [|done].
  destruct D as [[v ->] [=]].
Qed.

Lemma pending_coherent p s : coherent s -> coherent (set_pending p s.1, s.2).
Proof. intros [CC [IF IN IU] CB CS]. by constructor. Qed.

(** *** Reading through the cache *)

Lemma coherent_disk s l : coherent s -> keys l ≡ₚ keys (disk_cache s.1) ->
  coherent (set_disk l s.1, s.2).
Proof. intros [CC CF CB CS] P. constructor; try done. by apply indexed_keys. Qed.

Lemma fetch_coherent a lv s : coherent s -> pending s.1 = ∅ ->
  exists s', fetch cfg a lv s = (answer s.2 a lv, s') /\ s'.2 = s.2 /\ coherent s' /\
  pending s'.1 = ∅.
Proof.
  intros Co PN. unfold fetch, fetch_cache, self, answer.
  rewrite bind_assoc, bind_reads.
  destruct (cache s.1 !! a) as [c|] eqn:EC.
  { destruct (c_cache _ Co _ _ EC) as [E V]. rewrite E.
    eexists. split; [done|]. split; [done|]. split; [|done].
    apply coherent_cache; [done|]. apply cached_set; [apply Co|done|done]. }
  destruct (on_disk a (disk_cache s.1)) as [e|] eqn:ED.
  { apply on_disk_in in ED as [I <-].
    destruct (i_files _ _ _ (c_files _ Co) (e_address e, e_size e)) as (b & F & [E V] & _).
    { by apply (list_elem_of_fmap_2 (fun e => (e_address e, e_size e))). }
    cbn [fst] in F, E. rewrite F, E, unless_unversioned by done.
    eexists. split; [done|]. split; [done|]. split; [|done].
    apply coherent_disk; [done|]. apply touch_keys. }
  rewrite bool_decide_eq_false_2 by (rewrite PN; set_solver).
  set (s1 := (set_pending ({[a]} ∪ pending s.1) s.1, s.2)).
  rewrite bind_assoc, (bind_Ok _ _ s tt s1) by done.
  assert (coherent s1) as C1 by (by apply pending_coherent).
  assert (set_pending (pending s1.1 ∖ {[a]}) s1.1 = s.1) as E1.
  { cbn. replace (({[a]} ∪ pending s.1) ∖ {[a]}) with (pending s.1) by (rewrite PN; set_solver).
    by destruct s as [[]]. }
  destruct (blocks s.2 !! a) as [b|] eqn:E.
  - destruct (c_blocks _ Co _ _ E) as (<- & _ & _).
    destruct (insert_cache_coherent s1 b C1 E ED) as (s2 & EI & W2 & C2 & P2).
    exists (set_pending (pending s2.1 ∖ {[address b]}) s2.1, s2.2).
    split; [|split; [by rewrite W2|split; [by apply pending_coherent|]]].
    + erewrite bind_Ok; [|apply finally_returns]; [|].
      2: { cbn [backend_fetch alone_backend]. rewrite bind_assoc, bind_read.
           unfold answer. cbn [snd s1]. rewrite E.
           rewrite (bind_Ok _ _ s1 (Some b) s1) by done.
           by rewrite (bind_Ok _ _ _ _ _ EI). }
      done.
    + cbn. rewrite P2. cbn. rewrite PN. set_solver.
  - exists s. split; [|by split_and!].
    erewrite bind_Throw; [|apply finally_returns].
    2: { cbn [backend_fetch alone_backend]. rewrite bind_assoc, bind_read.
         unfold answer. cbn [snd s1]. by rewrite E. }
    rewrite E1. by destruct s.
Qed.

(** *** Writing through the cache *)

Lemma sane_store w b : sane w -> validate b = true -> small cfg b ->
  sane (mkAlone _ _ _ _ (<[address b := b]> (blocks w)) (clock w)).
Proof.
  intros Sn Va Sm a b' L. cbn in L. apply lookup_insert_Some in L as [[<- <-]|[_ L]]; [done|].
  by apply Sn.
Qed.

Lemma filed_store s b : coherent s ->
  (mutable_version b = None -> blocks s.2 !! address b = None) ->
  indexed cfg (filed (mkAlone _ _ _ _ (<[address b := b]> (blocks s.2)) (clock s.2))) s.1.
Proof.
  intros Co Nw. eapply indexed_weaken; [apply Co|]. intros a b' I [E V]. split; [|done].
  cbn. rewrite lookup_insert_ne; [done|]. intros <-.
  destruct (mutable_version b) as [v|] eqn:V'; [|by rewrite Nw in E].
  destruct (c_blocks _ Co _ _ E) as (Ea & _ & _).
  destruct (address_kind b b') as [v' V'']; [done|by exists v|congruence].
Qed.

Lemma store_coherent m r s b : coherent s -> validate b = true -> small cfg b ->
  (mutable_version b = None -> blocks s.2 !! address b = None) ->
  exists s', store cfg b m r s = (Ok tt, s') /\ s'.2 = (direct (Store b m r) s.2).2 /\
  coherent s' /\ pending s'.1 = pending s.1.
Proof.
  intros Co Va Sm Nw. pose proof (filed_store s b Co Nw) as FS.
  pose proof (sane_store s.2 b (c_blocks _ Co) Va Sm) as SS.
  set (w1 := mkAlone _ _ _ _ (<[address b := b]> (blocks s.2)) (clock s.2)) in *.
  unfold store. rewrite (bind_Ok _ _ s None (s.1, w1)) by done.
  replace (match r with Some _ => b | None => b end) with b by (by destruct r).
  destruct (mutable_version b) as [v|] eqn:V.
  - rewrite bool_decide_eq_true_2 by done. unfold insert, time. rewrite bind_reads.
    eexists. split; [by destruct r|]. split; [done|]. split; [|by destruct r].
    replace (match r with Some _ => b | None => b end) with b by (by destruct r).
    constructor; cbn; [|by destruct FS|apply Co|done].
    intros a x L. apply lookup_insert_Some in L as [[<- <-]|[N L]].
    + cbn. rewrite lookup_insert_eq, V. by split.
    + cbn. rewrite lookup_insert_ne by done. by apply Co.
  - rewrite bool_decide_eq_false_2 by (by intros []).
    assert (coherent (s.1, w1)) as C1.
    { constructor; try done; [|apply Co]. intros a x L. cbn in L.
      destruct (c_cache _ Co _ _ L) as [E K]. split; [|done]. cbn.
      rewrite lookup_insert_ne; [done|]. intros <-.
      destruct (c_blocks _ Co _ _ E) as (Ea & _ & _).
      destruct (address_kind (block x) b) as [v' V']; [done|done|congruence]. }
    destruct (push_coherent (s.1, w1) b C1) as (s' & E & W' & C' & P');
      [apply lookup_insert_eq|done| |].
    + apply on_disk_keys. cbn [fst]. intros I. apply list_elem_of_fmap in I as (p & Ep & I).
      destruct (i_files _ _ _ (c_files _ Co) p I) as (b' & _ & [E _] & _).
      rewrite <- Ep, Nw in E by done. done.
    + exists s'. split; [by destruct r|]. by rewrite W'.
Qed.

Lemma filed_off a w w' c : indexed cfg (filed w) c -> ~ a ∈ (keys (disk_cache c)).*1 ->
  (forall a', a' <> a -> blocks w' !! a' = blocks w !! a') -> indexed cfg (filed w') c.
Proof.
  intros Ix N Ne. eapply indexed_weaken; [exact Ix|]. intros a' b I [E V].
  split; [|done]. rewrite Ne; [done|]. by intros ->.
Qed.

Lemma drop_keys (a : A) (l : list (entry A)) e : NoDup (keys l).*1 -> on_disk a l = Some e ->
  keys l ≡ₚ (e_address e, e_size e) :: keys (filter (fun x => e_address x <> a) l).
Proof.
  unfold on_disk. induction l as [|x l IH]; [done|].
  change ((keys (x :: l)).*1) with (e_address x :: (keys l).*1).
  intros [NI ND]%NoDup_cons. destruct (decide (e_address x = a)) as [E|N].
  - rewrite filter_cons_True by done. intros [= ->].
    rewrite (filter_cons_False _ e) by (intros Ne; by apply Ne).
    apply Permutation_skip.
    assert (filter (fun x => e_address x <> a) l = l) as ->; [|done].
    clear -NI E. induction l as [|y l IH]; [done|].
    change ((keys (y :: l)).*1) with (e_address y :: (keys l).*1) in NI.
    apply not_elem_of_cons in NI as [Ny NI].
    rewrite filter_cons_True by congruence. by rewrite IH.
  - rewrite filter_cons_False by done. intros Hd. rewrite (filter_cons_True _ x) by done.
    change (keys (x :: l)) with ((e_address x, e_size x) :: keys l).
    rewrite (IH ND Hd). apply Permutation_swap.
Qed.

Lemma dropped_off (a : A) (l : list (entry A)) :
  ~ a ∈ (keys (filter (fun x => e_address x <> a) l)).*1.
Proof.
  intros I. apply list_elem_of_fmap in I as (p & -> & I).
  apply list_elem_of_fmap in I as (x & -> & I). apply list_elem_of_filter in I as [N _].
  by apply N.
Qed.

(** The block is dropped from the cache first. *)
Definition forget (a : A) (s : t A B * alone A B) : method (t A B * alone A B) (error A) unit :=
  match cache s.1 !! a with
  | Some _ => upd (fun c => set_cache (delete a (cache c)) c)
  | None =>
      match on_disk a (disk_cache s.1) with
      | Some e =>
          upd (fun c => set_disk (filter (fun x => e_address x <> a) (disk_cache c))
            (set_files (delete a (files c))
              (set_used (wrap_u 64 (disk_cache_used c - e_size e)) c)))
      | None => mret tt
      end
  end.

Lemma drop_coherent a s : coherent s ->
  exists s1, forget a s s = (Ok tt, s1) /\ s1.2 = s.2 /\ coherent s1 /\
  pending s1.1 = pending s.1 /\ cache s1.1 !! a = None /\
  ~ a ∈ (keys (disk_cache s1.1)).*1.
Proof.
  intros Co. unfold forget. destruct (cache s.1 !! a) as [x|] eqn:EC.
  - destruct (c_cache _ Co _ _ EC) as [E V].
    eexists. split; [done|]. split; [done|]. split.
    + apply coherent_cache; [done|]. intros a' x' L. apply lookup_delete_Some in L as [_ L].
      by apply Co.
    + split; [done|]. split; [apply lookup_delete_eq|]. exact (filed_none s a (block x) Co E V).
  - destruct (on_disk a (disk_cache s.1)) as [e|] eqn:ED.
    2: { exists s. split_and!; try done. by apply on_disk_keys. }
    pose proof (drop_keys a _ e (i_nodup _ _ _ (c_files _ Co)) ED) as P.
    apply on_disk_in in ED as [I Ea].
    assert ((e_address e, e_size e) ∈ keys (disk_cache s.1)) as Ik
      by (by apply (list_elem_of_fmap_2 (fun e => (e_address e, e_size e)))).
    destruct (i_files _ _ _ (c_files _ Co) _ Ik) as (b & _ & _ & _ & [Sm0 Sm]).
    pose proof (c_bound _ Co) as Bd.
    pose proof (indexed_drop cfg _ _ _ _ (c_files _ Co) P ltac:(lia)) as Ix.
    pose proof (i_used _ _ _ (c_files _ Co)) as U. rewrite (total_perm _ _ P) in U.
    pose proof (indexed_size _ _ _ _ (c_files _ Co) Ik) as Ps.
    cbn [fst snd total] in Ix, U, Ps. rewrite Ea in Ix.
    eexists. split; [done|]. split; [done|]. split.
    + destruct Co as [CC CF CB CS]. constructor; [done|done| |done].
      pose proof (i_used _ _ _ Ix) as U'. cbn in U' |- *. rewrite U'.
      unfold keys in *. lia.
    + split; [done|]. split; [done|]. apply dropped_off.
Qed.

Lemma remove_coherent a (rs : G) s : coherent s ->
  exists s', remove a rs s =
    (match blocks s.2 !! a with Some _ => Ok tt | None => Throw (MissingBlock a) end, s') /\
  s'.2 = (direct (Remove a rs) s.2).2 /\
  coherent s' /\ pending s'.1 = pending s.1.
Proof.
  intros Co. unfold remove, self. rewrite bind_reads.
  destruct (drop_coherent a s Co) as (s1 & E1 & W1 & C1 & P1 & N1 & N2). unfold forget in E1.
  rewrite (bind_Ok _ _ _ _ _ E1). cbn [backend_remove alone_backend]. rewrite bind_read.
  unfold direct. rewrite W1. destruct (blocks s.2 !! a) as [b|] eqn:E.
  - eexists. split; [done|]. split; [done|]. split; [|done].
    destruct C1 as [CC CF CB CS]. rewrite W1 in *. constructor; cbn; try done.
    + intros a' x L. cbn. rewrite lookup_delete_ne by (intros <-; congruence). by apply CC.
    + eapply filed_off; [done|done|]. intros a' N. cbn. by rewrite lookup_delete_ne.
    + intros a' b' L. cbn in L. apply lookup_delete_Some in L as [_ L]. by apply CS.
  - exists s1. by split_and!.
Qed.

Lemma cleanup_coherent s : (0 < batch_size)%nat -> coherent s ->
  exists s', cleanup cfg batch_size s = (Ok tt, s') /\ s'.2 = s.2 /\ coherent s' /\
  pending s'.1 = pending s.1.
Proof.
  intros Po Co. destruct (cleanup_alone s Po) as (m & E & F).
  - intros a x L. destruct (c_cache _ Co _ _ L) as [E V].
    split; [by apply (c_blocks _ Co)|done].
  - intros a b L. by apply (c_blocks _ Co).
  - exists (set_cache m s.1, s.2). split; [done|]. split; [done|]. split; [|done].
    apply coherent_cache; [done|]. intros a x L.
    destruct (F a x L) as (x0 & L0 & _ & _ & C). destruct (c_cache _ Co _ _ L0) as [E0 V0].
    destruct C as [[-> _]|(_ & b & Eb & C)]; [done|].
    assert (block x = block x0) as ->; [|done].
    destruct C as [->|[? _]]; congruence.
Qed.

(** *** Runs *)

(** What a node may store: valid blocks, and the immutable ones once. *)
Definition allowed (o : op) w : Prop :=
  match o with
  | Store b _ _ =>
      validate b = true /\ small cfg b /\
      (mutable_version b = None -> blocks w !! address b = None)
  | _ => True
  end.
Fixpoint sound (os : list op) w : Prop :=
  match os with
  | [] => True
  | o :: os' => allowed o w /\ sound os' (direct o w).2
  end.

Definition idle s : Prop := coherent s /\ pending s.1 = ∅.

Lemma idle_wait d s : idle s ->
  idle (s.1, mkAlone _ _ _ _ (blocks s.2) (clock s.2 + d)).
Proof. intros [[CC [IF IN IU] CB CS] P]. by split. Qed.

Lemma step_idle o s : (0 < batch_size)%nat -> idle s -> allowed o s.2 ->
  exists s', step o s = ((direct o s.2).1, s') /\ s'.2 = (direct o s.2).2 /\ idle s'.
Proof.
  intros Po [Co P] Al. destruct o as [a lv|b m r|a rs| | |d]; cbn [step].
  - destruct (fetch_coherent a lv s Co P) as (s' & E & ? & ? & ?). by exists s'.
  - destruct Al as (Va & Sm & Nw).
    destruct (store_coherent m r s b Co Va Sm Nw) as (s' & E & W' & C' & P').
    exists s'. rewrite (bind_Ok _ _ _ _ _ E). split; [done|]. split; [done|].
    split; [done|congruence].
  - destruct (remove_coherent a rs s Co) as (s' & E & W' & C' & P').
    exists s'. split; [|split; [done|split; [done|congruence]]].
    unfold mbind, method_bind. rewrite E. cbn [direct].
    by destruct (blocks s.2 !! a).
  - exists (set_cache ∅ s.1, s.2). split; [done|]. split; [done|]. split; [|done].
    apply coherent_cache; [done|]. intros a x L. by rewrite lookup_empty in L.
  - destruct (cleanup_coherent s Po Co) as (s' & E & ? & ? & P').
    exists s'. rewrite (bind_Ok _ _ _ _ _ E). split; [done|]. split; [done|].
    split; [done|congruence].
  - eexists. split; [done|]. split; [done|]. by apply idle_wait.
Qed.

Lemma run_idle os : (0 < batch_size)%nat -> forall s, idle s -> sound os s.2 ->
  (run os s).1 = (run_direct os s.2).1 /\ (run os s).2.2 = (run_direct os s.2).2 /\
  idle (run os s).2.
Proof.
  intros Po. induction os as [|o os IH]; intros s Id So; [done|].
  destruct So as [Al So]. destruct (step_idle o s Po Id Al) as (s' & E & W' & Id').
  cbn [run run_direct]. rewrite E. destruct (direct o s.2) as [r w]. cbn in *. subst w.
  destruct (IH s' Id' So) as (E1 & E2 & E3).
  destruct (run os s') as [l s2], (run_direct os s'.2) as [l' w2]. cbn in *.
  split_and!; [congruence|done|done].
Qed.

Lemma idle_empty w : sane w -> idle (empty, w).
Proof.
  intros Sn. split; [|done]. constructor; [| |done|done].
  - intros a x L. cbn in L. by rewrite lookup_empty in L.
  - constructor; [|constructor|done]. intros p I. by apply elem_of_nil in I.
Qed.

(** *** What the cache promises *)

(** C28. A node that is alone does not see its cache, one operation after the other: whatever
    it fetches, stores
    and removes, and whatever is evicted, refreshed, cleared or written to files
    between two operations, and whatever versions it has, every operation answers what it
    would without a cache, exceptions included, and leaves the same blocks
    in the consensus. The blocks are valid, of sizes that do not overflow with that of the
    cache, and immutable ones are stored once. During a refresh, a store can be undone
    ([refresh_undoes_a_store]). *)
Theorem cache_is_transparent os w : (0 < batch_size)%nat -> sane w -> sound os w ->
  (run os (empty, w)).1 = (run_direct os w).1 /\
  (run os (empty, w)).2.2 = (run_direct os w).2.
Proof.
  intros Po Sn So. destruct (run_idle os Po (empty, w) (idle_empty w Sn) So) as (? & ? & _).
  by split.
Qed.

(** The files of the cache stay within their capacity, and are
    accounted for exactly, as long as no immutable block is stored twice:
    the size that is kept is the sum of the sizes of the files, each of which
    is the block the consensus has. *)
Theorem files_are_bounded os w : (0 < batch_size)%nat -> sane w -> sound os w ->
  let s := (run os (empty, w)).2 in
  disk_cache_used s.1 = total (keys (disk_cache s.1)) /\
  disk_cache_used s.1 <= disk_cache_size cfg /\
  forall e, e ∈ disk_cache s.1 ->
    exists b, files s.1 !! e_address e = Some b /\ blocks s.2 !! e_address e = Some b /\
      e_size e = file_size b.
Proof.
  intros Po Sn So s.
  destruct (run_idle os Po (empty, w) (idle_empty w Sn) So) as (_ & _ & [Co _]).
  split; [apply Co|]. split; [apply Co|]. intros e I.
  destruct (i_files _ _ _ (c_files _ Co) (e_address e, e_size e)) as (b & ? & [? _] & ? & _).
  { by apply (list_elem_of_fmap_2 (fun e => (e_address e, e_size e))). }
  by exists b.
Qed.

End Alone.

(** *** An example *)

(** A block is its address, its version and its size; even addresses are those
    of mutable blocks. *)
#[local] Instance example : Blocks Z (Z * Z * Z) := {|
  address b := b.1.1;
  mutable_version b := if Z.even b.1.1 then Some b.1.2 else None;
  immutable b := negb (Z.even b.1.1);
  validate b := true;
  file_size b := b.2
|}.
#[local] Instance example_lawful : LawfulBlocks Z (Z * Z * Z).
Proof.
  split.
  - intros [[a v] n] [[a' v'] n']. cbn. intros ->. destruct (Z.even a'); [by eexists|].
    intros H. by inversion H.
  - intros [[a v] n]. cbn. by destruct (Z.even a).
Qed.

Definition ten_bytes : settings := mkSettings 15 300 64 true 10.
Definition nothing : alone Z (Z * Z * Z) := mkAlone _ _ _ _ ∅ 100.
Definition some_ops : list (op (A := Z) (B := Z * Z * Z) (M := unit) (R := unit) (G := unit)) :=
  [Store (0, 1, 5) tt None; Store (1, 0, 6) tt None; Store (3, 0, 7) tt None;
   Fetch 0 None; Fetch 1 None; Fetch 3 None; Wait 20; Cleanup; Fetch 0 (Some 1);
   Store (0, 2, 5) tt None; Fetch 0 (Some 1); Remove 0 tt; Fetch 0 None; Clear; Fetch 1 None].

Lemma nothing_sane : sane ten_bytes nothing.
Proof. intros a b L. cbn in L. by rewrite lookup_empty in L. Qed.
Lemma some_ops_sound : sound ten_bytes some_ops nothing.
Proof. cbn. split_and!; try done; intros [=]; by vm_compute. Qed.

Lemma cache_is_transparent_witness :
  ((run ten_bytes 20 some_ops (empty, nothing)).1 = (run_direct some_ops nothing).1 /\
   (run ten_bytes 20 some_ops (empty, nothing)).2.2 = (run_direct some_ops nothing).2) /\
  (run_direct some_ops nothing).1 =
    [Ok None; Ok None; Ok None; Ok (Some (0, 1, 5)); Ok (Some (1, 0, 6)); Ok (Some (3, 0, 7));
     Ok None; Ok None; Ok None; Ok None; Ok (Some (0, 2, 5)); Ok None; Throw (MissingBlock 0);
     Ok None; Ok (Some (1, 0, 6))].
Proof.
  split; [|vm_compute; reflexivity].
  apply cache_is_transparent;
    [apply _|vm_compute; discriminate|lia|apply nothing_sane|apply some_ops_sound].
Defined.

Lemma files_are_bounded_witness :
  let s := (run ten_bytes 20 some_ops (empty, nothing)).2 in
  (disk_cache_used s.1 = total (keys (disk_cache s.1)) /\
   disk_cache_used s.1 <= disk_cache_size ten_bytes /\
   forall e, e ∈ disk_cache s.1 ->
     exists b, files s.1 !! e_address e = Some b /\ blocks s.2 !! e_address e = Some b /\
       e_size e = file_size b) /\
  keys (disk_cache s.1) = [(1, 6)].
Proof.
  split; [|vm_compute; reflexivity].
  apply files_are_bounded;
    [apply _|vm_compute; discriminate|lia|apply nothing_sane|apply some_ops_sound].
Defined.

(** Block 0 is stale, 2 is recent, 4 was not used for long. *)
Definition stale : t Z (Z * Z * Z) * alone Z (Z * Z * Z) :=
  (mkCache _ _ _ _ {[0 := mkCached _ (0, 1, 5) 90 50; 2 := mkCached _ (2, 1, 5) 90 99;
                     4 := mkCached _ (4, 1, 5) (-250) 99]} [] 0 ∅ ∅,
   mkAlone _ _ _ _ {[0 := (0, 3, 5); 2 := (2, 4, 5); 4 := (4, 1, 5)]} 100).

Lemma cleanup_bounds_staleness_witness :
  (exists s', step (M := unit) (R := unit) (G := unit) ten_bytes 20 Cleanup stale = (Ok None, s') /\
   s'.2 = stale.2 /\
   forall a x, cache s'.1 !! a = Some x ->
     clock stale.2 - cache_ttl ten_bytes <= last_used x /\
     (clock stale.2 - cache_invalidation ten_bytes <= last_fetched x /\
        cache stale.1 !! a = Some x \/
      last_fetched x = clock stale.2 /\
      exists b, blocks stale.2 !! a = Some b /\ mutable_version (block x) = mutable_version b)) /\
  map_to_list (cache (step (M := unit) (R := unit) (G := unit) ten_bytes 20 Cleanup stale).2.1) =
    [(2, mkCached _ (2, 1, 5) 90 99); (0, mkCached _ (0, 3, 5) 90 100)].
Proof.
  split; [|vm_compute; reflexivity].
  apply cleanup_bounds_staleness; [lia| |].
  - intros a x L. cbn [fst stale cache] in L.
    repeat (apply lookup_insert_Some in L as [[<- <-]|[_ L]]; [split; [done|by eexists]|]).
    apply lookup_singleton_Some in L as [<- <-]. split; [done|by eexists].
  - intros a b L. cbn [snd stale blocks] in L.
    repeat (apply lookup_insert_Some in L as [[<- <-]|[_ L]]; [done|]).
    by apply lookup_singleton_Some in L as [<- <-].
Defined.

Lemma known_block_is_counted_twice_witness :
  let b : Z * Z * Z := (1, 0, 6) in
  let s := (run (M := unit) (R := unit) (G := unit) ten_bytes 20
              [Store b tt None; Store b tt None] (empty, nothing)).2 in
  disk_cache s.1 = [] /\ files s.1 = ∅ /\ disk_cache_used s.1 = file_size b /\
  blocks s.2 !! address b = Some b.
Proof. apply known_block_is_counted_twice; [done|done|cbn; lia|cbn; lia]. Defined.

Lemma refresh_undoes_a_store_witness :
  let x0 := mkCached (Z * Z * Z) (0, 1, 5) 90 50 in
  let b1 : Z * Z * Z := (0, 3, 5) in
  let b2 : Z * Z * Z := (0, 4, 5) in
  let w := mkAlone _ _ _ _ {[0 := b1]} 100 in
  let meanwhile := store (G := unit) (Backend0 := alone_backend) ten_bytes b2 tt
    (None : option unit) in
  let racing := racing (M := unit) (R := unit) (G := unit) meanwhile in
  exists s', cleanup (Backend0 := racing) ten_bytes 20
    (mkCache _ _ _ _ {[address b2 := x0]} [] 0 ∅ ∅, w) = (Ok tt, s') /\
  blocks s'.2 !! address b2 = Some b2 /\
  (fetch (Backend0 := racing) ten_bytes (address b2) None s').1 = Ok (Some b1).
Proof.
  intros x0 b1 b2 w meanwhile racing.
  refine (refresh_undoes_a_store ten_bytes 20 x0 b1 b2 tt w _ _ _ _ _ _ _ _);
    [lia|done|by eexists|by eexists|by vm_compute|discriminate|by vm_compute|by vm_compute].
Defined.
End Cache.
