(* ===== verification/Silos.v ===== *)
(** Block storage: memo/src/memo/silo/Silo.cc and Memory.cc.

    [SiloImpl] is the virtual part of the class Silo ([_get], [_set], [_erase],
    [_list]) with the attributes of the base; [Silo] are the public methods,
    which account for the space in use. [SiloSpec] is what a silo promises: it
    behaves as a partial map from addresses to values. The values are abstract,
    with a size: the buffers of the program. *)

From stdpp Require Import base tactics option list gmap.
From Stdlib Require Import ZArith Lia.
From S2P Require Import Prelude Addresses.
Open Scope Z_scope.

Abbreviation Key := Address.t.

(** [elle::Buffer::size()] of the values. *)
Class Sized (V : Type) := {
  vsize : V -> Z;
  vsize_nonneg : forall v, 0 <= vsize v;
}.

#[export] Program Instance sized_bytes : Sized (list Z) := {|
  vsize := fun b => Z.of_nat (length b);
|}.
Next Obligation. intros. apply Nat2Z.is_nonneg. Qed.

Inductive silo_error :=
  | MissingKey (k : Key)
  | Collision (k : Key)
  | InsufficientSpace (size claimed cap : Z)
  | SiloAssert
  | SiloError.

(** The attributes of Silo. [notified] counts the calls to [_notify_metrics]. *)
Record Base := mkBase {
  capacity : option Z;
  usage : Z;
  base_usage : Z;
  step : Z;
  size_cache : gmap Key Z;
  block_count : Z;
  notified : nat;
}.

Definition default_step : Z := 100 * 1024 * 1024.

(** [Silo::Silo]. *)
Definition new_base (cap : option Z) : Base :=
  mkBase cap 0 0 (match cap with Some c => Z.quot c 10 | None => default_step end)
    ∅ 0 0.

Definition notify_metrics (b : Base) : Base :=
  mkBase (capacity b) (usage b) (base_usage b) (step b) (size_cache b)
    (block_count b) (notified b + 1).
Definition add_usage (delta : Z) (b : Base) : Base :=
  mkBase (capacity b) (usage b + delta) (base_usage b) (step b) (size_cache b)
    (block_count b) (notified b).
Definition set_base_usage (u : Z) (b : Base) : Base :=
  mkBase (capacity b) (usage b) u (step b) (size_cache b) (block_count b)
    (notified b).
Definition set_size_cache (c : gmap Key Z) (b : Base) : Base :=
  mkBase (capacity b) (usage b) (base_usage b) (step b) c (block_count b)
    (notified b).
Definition add_blocks (n : Z) (b : Base) : Base :=
  mkBase (capacity b) (usage b) (base_usage b) (step b) (size_cache b)
    (block_count b + n) (notified b).

(** What is returned as an [int]. *)
Definition to_int (z : Z) : Z := wrap_s 32 z.
Definition small (z : Z) : Prop := 0 <= z < 2 ^ 31.

Lemma to_int_small a b : small a -> small b -> to_int (a - b) = a - b.
Proof. unfold small, to_int. intros. apply wrap_s_id; lia. Qed.

Class SiloImpl (V S : Type) := {
  silo_base : S -> Base;
  set_silo_base : Base -> S -> S;
  impl_get : Key -> method S silo_error V;
  impl_set : Key -> V -> bool -> bool -> method S silo_error Z;
  impl_erase : Key -> method S silo_error Z;
  impl_list : method S silo_error (list Key);
}.

(** *** The public methods *)

Module Silo.
Section Silo.
Context {V S : Type} `{SiloImpl V S}.

Definition modify_base (f : Base -> Base) : method S silo_error unit :=
  modify (fun s => set_silo_base (f (silo_base s)) s).

Definition get (k : Key) : method S silo_error V := impl_get k.

Definition set (k : Key) (v : V) (ins upd : bool) : method S silo_error Z :=
  if ins || upd then
    delta ← impl_set k v ins upd;
    modify_base (add_usage delta);;
    b ← reads silo_base;
    when (step b <=? Z.abs (base_usage b - usage b))
      (modify_base notify_metrics;;
       modify_base (fun b => set_base_usage (usage b) b));;
    modify_base notify_metrics;;
    mret delta
  else throw SiloAssert.

Definition erase (k : Key) : method S silo_error Z :=
  delta ← impl_erase k;
  modify_base (add_usage delta);;
  modify_base (fun b => set_size_cache (delete k (size_cache b)) b);;
  modify_base notify_metrics;;
  mret delta.

Definition list_keys : method S silo_error (list Key) := impl_list.
End Silo.
End Silo.

(** *** What a silo promises *)

(** The error of [set] on a key, given whether it is present. *)
Definition set_error (present ins upd : bool) (k : Key) : option silo_error :=
  if present then (if upd then None else Some (Collision k))
  else (if ins then None else Some (MissingKey k)).

Definition refusal (e : silo_error) : Prop :=
  exists d u c, e = InsufficientSpace d u c.

Definition present {V} (o : option V) : bool :=
  match o with Some _ => true | None => false end.

Section Spec.
Context {V : Type}.
Implicit Types f : Key -> option V.

Definition same f f' : Prop := forall k, Address.wf k -> f' k = f k.
Definition stored k (v : V) f f' : Prop :=
  forall k', Address.wf k' -> f' k' = if decide (k' = k) then Some v else f k'.
Definition erased k f f' : Prop :=
  forall k', Address.wf k' -> f' k' = if decide (k' = k) then None else f k'.

Definition get_outcome (k : Key) f f' (r : result silo_error V) : Prop :=
  same f f' /\
  r = match f k with Some v => Ok v | None => Throw (MissingKey k) end.

Definition set_outcome (k : Key) (v : V) (ins upd : bool) f f'
    (r : result silo_error Z) : Prop :=
  match r with
  | Ok _ => set_error (present (f k)) ins upd k = None /\ stored k v f f'
  | Throw e => same f f' /\
      (set_error (present (f k)) ins upd k = Some e \/ refusal e)
  end.

Definition erase_outcome (k : Key) f f' (r : result silo_error Z) : Prop :=
  match r with
  | Ok _ => f k <> None /\ erased k f f'
  | Throw e => same f f' /\ f k = None /\ e = MissingKey k
  end.
End Spec.

Class SiloSpec (V S : Type) `{SiloImpl V S} := {
  contents : S -> Key -> option V;
  silo_ok : S -> Prop;
  base_contents : forall b s, contents (set_silo_base b s) = contents s;
  base_ok : forall b s, silo_ok s -> silo_ok (set_silo_base b s);
  get_spec : forall k s r s', silo_ok s -> Address.wf k ->
    impl_get k s = (r, s') ->
    silo_ok s' /\ get_outcome k (contents s) (contents s') r;
  set_spec : forall k v ins upd s r s', silo_ok s -> Address.wf k ->
    ins || upd = true -> impl_set k v ins upd s = (r, s') ->
    silo_ok s' /\ set_outcome k v ins upd (contents s) (contents s') r;
  erase_spec : forall k s r s', silo_ok s -> Address.wf k ->
    impl_erase k s = (r, s') ->
    silo_ok s' /\ erase_outcome k (contents s) (contents s') r;
  list_spec : forall s r s', silo_ok s -> impl_list s = (r, s') ->
    silo_ok s' /\ same (contents s) (contents s') /\
    forall l, r = Ok l ->
      forall k, Address.wf k -> k ∈ l <-> contents s k <> None;
}.

(** The public methods keep the promise of the virtual ones. *)
Section Public.
Context {V S : Type} `{SiloSpec V S}.

Lemma modify_base_keeps f (s : S) :
  silo_ok s ->
  exists s', Silo.modify_base f s = (Ok tt, s') /\ silo_ok s' /\
    contents s' = contents s.
Proof.
  intros O. eexists. split; [done|]. split; [by apply base_ok|].
  apply base_contents.
Qed.

(** Peel the accounting that follows the virtual call. *)
Ltac step_base :=
  match goal with
  | O : silo_ok ?s |- context [Silo.modify_base ?f ?s] =>
      let s' := fresh "s" in let E := fresh "E" in
      let O' := fresh "O" in let C := fresh "C" in
      destruct (modify_base_keeps f s O) as (s' & E & O' & C);
      rewrite ?E
  end.

Lemma silo_set_spec k v ins upd (s : S) r s' :
  silo_ok s -> Address.wf k -> Silo.set k v ins upd s = (r, s') ->
  if ins || upd then
    silo_ok s' /\ set_outcome k v ins upd (contents s) (contents s') r
  else r = Throw SiloAssert /\ s' = s.
Proof.
  intros O W Hr. unfold Silo.set in Hr.
  destruct (ins || upd) eqn:B; [|unfold throw in Hr; by simplify_eq].
  unfold mbind at 1, method_bind at 1 in Hr.
  destruct (impl_set k v ins upd s) as [[delta|e] s1] eqn:E.
  - destruct (set_spec _ _ _ _ _ _ _ O W B E) as [O1 D].
    revert Hr. unfold mbind, method_bind. step_base.
    unfold reads. destruct (step _ <=? _); unfold when.
    + unfold mbind, method_bind. step_base. step_base.
      step_base. intros [= <- <-].
      split; [done|]. rewrite C2, C1, C0, C. exact D.
    + unfold mret at 1, method_ret at 1. step_base.
      intros [= <- <-]. split; [done|]. rewrite C0, C. exact D.
  - injection Hr as <- <-. by apply (set_spec _ _ _ _ _ _ _ O W B E).
Qed.

Lemma silo_erase_spec k (s : S) r s' :
  silo_ok s -> Address.wf k -> Silo.erase k s = (r, s') ->
  silo_ok s' /\ erase_outcome k (contents s) (contents s') r.
Proof.
  intros O W Hr. unfold Silo.erase in Hr.
  unfold mbind at 1, method_bind at 1 in Hr.
  destruct (impl_erase k s) as [[delta|e] s1] eqn:E.
  - destruct (erase_spec _ _ _ _ O W E) as [O1 D].
    revert Hr. unfold mbind, method_bind. step_base. step_base.
    step_base. intros [= <- <-]. split; [done|].
    rewrite C1, C0, C. exact D.
  - injection Hr as <- <-. by apply (erase_spec _ _ _ _ O W E).
Qed.
Lemma silo_get_spec k (s : S) r s' :
  silo_ok s -> Address.wf k -> Silo.get k s = (r, s') ->
  silo_ok s' /\ get_outcome k (contents s) (contents s') r.
Proof. apply get_spec. Qed.

(** The silo never runs out of space. *)
Class Unrefusing := never_refuses : forall k v ins upd (s : S) e s',
  silo_ok s -> Address.wf k -> Silo.set k v ins upd s = (Throw e, s') ->
  ~ refusal e.

(** A store that inserts and updates then succeeds. *)
Lemma silo_upsert `{!Unrefusing} k v (s : S) r s' :
  silo_ok s -> Address.wf k -> Silo.set k v true true s = (r, s') ->
  is_ok r = true /\ silo_ok s' /\ stored k v (contents s) (contents s').
Proof.
  intros O W E. pose proof (silo_set_spec _ _ _ _ _ _ _ O W E) as [O' X].
  destruct r as [d|e]; [by destruct X|]. exfalso. destruct X as [_ X].
  destruct X as [X|X].
  - unfold set_error in X. by destruct (present _).
  - by apply (never_refuses _ _ _ _ _ _ _ O W E).
Qed.

(** *** Sequences of operations *)

Inductive silo_op :=
  | GetOp (k : Key)
  | SetOp (k : Key) (v : V) (ins upd : bool)
  | EraseOp (k : Key).

Definition op_key (o : silo_op) : Key :=
  match o with GetOp k | SetOp k _ _ _ | EraseOp k => k end.

(** The silo an operation leaves, whether it returned or threw. *)
Definition run_op (o : silo_op) (s : S) : S :=
  match o with
  | GetOp k => (Silo.get k s).2
  | SetOp k v ins upd => (Silo.set k v ins upd s).2
  | EraseOp k => (Silo.erase k s).2
  end.

Definition run_ops (os : list silo_op) (s : S) : S :=
  fold_left (fun s o => run_op o s) os s.

Lemma run_op_others o s :
  silo_ok s -> Address.wf (op_key o) ->
  silo_ok (run_op o s) /\
  forall k, Address.wf k -> k <> op_key o ->
    contents (run_op o s) k = contents s k.
Proof.
  intros O W. destruct o as [k|k v ins upd|k]; cbn in *.
  - destruct (Silo.get k s) as [r s'] eqn:E.
    destruct (get_spec _ _ _ _ O W E) as (O' & X & _). auto.
  - destruct (Silo.set k v ins upd s) as [r s'] eqn:E.
    pose proof (silo_set_spec _ _ _ _ _ _ _ O W E) as X.
    destruct (ins || upd); [|by destruct X as [_ ->]].
    destruct X as [O' X]. split; [done|]. intros k' W' N.
    destruct r; cbn in X; destruct X as [X Y]; [rewrite Y by done|by apply X].
    by rewrite decide_False.
  - destruct (Silo.erase k s) as [r s'] eqn:E.
    destruct (silo_erase_spec _ _ _ _ O W E) as [O' X].
    split; [done|]. intros k' W' N. destruct r; cbn in X; destruct X as [X Y].
    + by rewrite Y, decide_False.
    + by apply X.
Qed.

Lemma run_ops_others os s :
  silo_ok s -> Forall (fun o => Address.wf (op_key o)) os ->
  silo_ok (run_ops os s) /\
  forall k, Address.wf k -> Forall (fun o => op_key o <> k) os ->
    contents (run_ops os s) k = contents s k.
Proof.
  intros O W. revert s O. induction W as [|o os Wo _ IH]; intros s O; [done|].
  destruct (run_op_others o s O Wo) as [O1 C1].
  destruct (IH _ O1) as [O2 C2]. split; [done|].
  intros k Wk [N1 N2]%Forall_cons_1. cbn. unfold run_ops in C2.
  rewrite C2, C1; auto.
Qed.

(** What was stored is read back, whatever happened to other addresses in
    between; what was erased is missing; and a store that failed, or an erasure
    that did, changed nothing. *)
Theorem silo_reads_writes k v ins upd (s : S) os :
  silo_ok s -> Address.wf k -> ins || upd = true ->
  Forall (fun o => Address.wf (op_key o) /\ op_key o <> k) os ->
  (is_ok (Silo.set k v ins upd s).1 = true ->
     (Silo.get k (run_ops os (Silo.set k v ins upd s).2)).1 = Ok v) /\
  (is_ok (Silo.erase k s).1 = true ->
     (Silo.get k (run_ops os (Silo.erase k s).2)).1 = Throw (MissingKey k)) /\
  (is_ok (Silo.set k v ins upd s).1 = false ->
     (Silo.get k (run_ops os (Silo.set k v ins upd s).2)).1 = (Silo.get k s).1).
Proof.
  intros O W B F.
  assert (Forall (fun o => Address.wf (op_key o)) os /\
          Forall (fun o => op_key o <> k) os) as [F1 F2]
    by (split; eapply Forall_impl; [exact F|naive_solver|exact F|naive_solver]).
  assert (forall s, silo_ok s -> (Silo.get k s).1 =
    match contents s k with Some v => Ok v | None => Throw (MissingKey k) end)
    as G.
  { intros s0 O0. destruct (Silo.get k s0) as [r s0'] eqn:E.
    by destruct (get_spec _ _ _ _ O0 W E) as (_ & _ & X). }
  assert (forall s, silo_ok s -> (Silo.get k (run_ops os s)).1 =
    match contents s k with Some v => Ok v | None => Throw (MissingKey k) end)
    as G'.
  { intros s0 O0. destruct (run_ops_others os s0 O0 F1) as [O1 C1].
    rewrite G, C1 by done. done. }
  destruct (Silo.set k v ins upd s) as [r s1] eqn:E1.
  destruct (Silo.erase k s) as [re s2] eqn:E2.
  pose proof (silo_set_spec _ _ _ _ _ _ _ O W E1) as X1. rewrite B in X1.
  destruct X1 as [O1 X1], (silo_erase_spec _ _ _ _ O W E2) as [O2 X2].
  cbn. rewrite !G' by done. split_and!; intros R.
  - destruct r; [|done]. destruct X1 as [_ ->]; [|done]. by rewrite decide_True.
  - destruct re; [|done]. destruct X2 as [_ ->]; [|done]. by rewrite decide_True.
  - destruct r; [done|]. destruct X1 as [X1 _]. by rewrite X1, G.
Qed.
End Public.
Arguments silo_op V : clear implicits.
Arguments Unrefusing V S {_ _}.

(** *** The bytes of a map *)

Section Total.
Context {K V : Type} `{Countable K} `{Sized V}.

Definition total (m : gmap K V) : Z := map_fold (fun _ v acc => vsize v + acc) 0 m.

Lemma total_empty : total ∅ = 0.
Proof. apply map_fold_empty. Qed.

Lemma total_insert m k v : m !! k = None -> total (<[k := v]> m) = vsize v + total m.
Proof.
  intros E. unfold total. rewrite map_fold_insert_L; [done| |done].
  intros. lia.
Qed.

Lemma total_delete m k v : m !! k = Some v -> total (delete k m) = total m - vsize v.
Proof.
  intros E. rewrite <- (insert_delete_id m k v E) at 2.
  rewrite total_insert by apply lookup_delete_eq. lia.
Qed.

Lemma total_update m k v v' :
  m !! k = Some v -> total (<[k := v']> m) = total m + (vsize v' - vsize v).
Proof.
  intros E. rewrite <- insert_delete_eq, total_insert by apply lookup_delete_eq.
  rewrite (total_delete _ _ _ E). lia.
Qed.

Lemma total_nonneg m : 0 <= total m.
Proof.
  unfold total. apply (map_fold_weak_ind (fun a _ => 0 <= a)); [done|].
  intros k v m' a _ L. pose proof (vsize_nonneg v). lia.
Qed.

Definition all_small (m : gmap K V) : Prop :=
  map_Forall (fun _ v => small (vsize v)) m.
End Total.

(** ** Memory *)

Module Memory.
Section Memory.
Context {V : Type} `{Sized V}.

Record t := mkMemory {
  mbase : Base;
  blocks : gmap Key V;
}.

Definition set_blocks (b : gmap Key V) (m : t) : t := mkMemory (mbase m) b.
Definition with_base (b : Base) (m : t) : t := mkMemory b (blocks m).
Definition count (n : Z) (m : t) : t := mkMemory (add_blocks n (mbase m)) (blocks m).

(** [Memory::Memory()] and [Memory::Memory(Blocks&)]. *)
Definition create : t := mkMemory (new_base None) ∅.
Definition of_blocks (b : gmap Key V) : t :=
  mkMemory (add_blocks (Z.of_nat (size b))
              (add_usage (to_int (total b)) (new_base None))) b.

(** [_check_invariants], which the destructor, [size] and [_list] assert. *)
Definition check_invariants (m : t) : bool :=
  (block_count (mbase m) =? Z.of_nat (size (blocks m))) &&
  (usage (mbase m) =? to_int (total (blocks m))).

(** [_find]. *)
Definition find (k : Key) : method t silo_error V :=
  m ← read;
  match blocks m !! k with
  | Some v => mret v
  | None => throw (MissingKey k)
  end.

Definition size_of : method t silo_error Z :=
  m ← read;
  if check_invariants m then mret (usage (mbase m)) else throw SiloAssert.

Definition set (k : Key) (v : V) (ins upd : bool) : method t silo_error Z :=
  m ← read;
  if ins then
    match blocks m !! k with
    | Some old =>
        if upd then
          modify (set_blocks (<[k := v]> (blocks m)));;
          mret (to_int (vsize v - vsize old))
        else throw (Collision k)
    | None =>
        modify (set_blocks (<[k := v]> (blocks m)));;
        modify (count 1);;
        mret (to_int (vsize v - 0))
    end
  else
    old ← find k;
    modify (set_blocks (<[k := v]> (blocks m)));;
    mret (to_int (vsize v - vsize old)).

Definition erase (k : Key) : method t silo_error Z :=
  m ← read;
  old ← find k;
  modify (set_blocks (delete k (blocks m)));;
  modify (count (-1));;
  mret (to_int (- vsize old)).

Definition list_keys : method t silo_error (list Key) :=
  m ← read;
  if check_invariants m then mret (map_to_list (blocks m)).*1
  else throw SiloAssert.

#[export] Instance memory_impl : SiloImpl V t := {|
  silo_base := mbase;
  set_silo_base := with_base;
  impl_get := find;
  impl_set := set;
  impl_erase := erase;
  impl_list := list_keys;
|}.

(** *** Accounting *)

(** The usage and the number of blocks are those of the map. *)
Definition accounted (m : t) : Prop :=
  usage (mbase m) = total (blocks m) /\
  block_count (mbase m) = Z.of_nat (size (blocks m)) /\
  all_small (blocks m).

Lemma accounted_create : accounted create.
Proof. split_and!; [done..|]. apply map_Forall_empty. Qed.

(** What the virtual methods answer is what they change. *)
Definition changes (m m' : t) (r : result silo_error Z) : Prop :=
  match r with
  | Ok d =>
      usage (mbase m') = usage (mbase m) /\ all_small (blocks m') /\
      total (blocks m') = total (blocks m) + d /\
      block_count (mbase m') - Z.of_nat (size (blocks m')) =
        block_count (mbase m) - Z.of_nat (size (blocks m))
  | Throw _ => m' = m
  end.

Lemma set_changes k v ins upd m :
  small (vsize v) -> all_small (blocks m) ->
  changes m (set k v ins upd m).2 (set k v ins upd m).1.
Proof.
  intros Sv A. unfold set, find. monad_unfold.
  assert (all_small (<[k := v]> (blocks m))) as A' by by apply map_Forall_insert_2.
  assert (small 0) by by unfold small.
  destruct (blocks m !! k) as [old|] eqn:E;
    [pose proof (map_Forall_lookup_1 _ _ _ _ A E)|];
    destruct ins, upd; cbn -[to_int Z.sub Z.add Z.of_nat]; rewrite ?E;
    unfold changes; cbn -[to_int Z.sub Z.add Z.of_nat];
    rewrite ?(total_update _ _ _ _ E), ?(total_insert _ _ _ E),
      ?(map_size_insert_Some _ _ _ (mk_is_Some _ _ E)),
      ?(map_size_insert_None _ _ _ E);
    rewrite ?to_int_small by done; split_and?; lia || done.
Qed.

Lemma erase_changes k m :
  all_small (blocks m) -> changes m (erase k m).2 (erase k m).1.
Proof.
  intros A. unfold erase, find. monad_unfold.
  destruct (blocks m !! k) as [old|] eqn:E; [|done].
  pose proof (map_Forall_lookup_1 _ _ _ _ A E) as So.
  unfold changes. cbn -[to_int Z.sub Z.add Z.of_nat].
  rewrite (total_delete _ _ _ E), map_size_delete_Some by eauto.
  assert (size (blocks m) <> 0)%nat.
  { intros Z0%map_size_empty_inv. by rewrite Z0, lookup_empty in E. }
  replace (- vsize old) with (0 - vsize old) by lia.
  rewrite to_int_small by (by unfold small || done).
  split_and!; [done|by apply map_Forall_delete|lia..].
Qed.

(** The public methods account for the change. *)
Lemma set_accounts k v ins upd m :
  small (vsize v) -> accounted m -> accounted (Silo.set k v ins upd m).2.
Proof.
  intros Sv (U & C & A). pose proof (set_changes k v ins upd m Sv A) as D.
  unfold Silo.set, Silo.modify_base, impl_set, memory_impl. monad_unfold.
  destruct (ins || upd); [|done].
  destruct (set k v ins upd m) as [[d|e] m1]; cbn in D; [|subst m1; by split_and!].
  destruct D as (Du & Da & Dt & Dc).
  cbn. destruct (step _ <=? _); unfold accounted; cbn; split_and!; lia || done.
Qed.

Lemma erase_accounts k m : accounted m -> accounted (Silo.erase k m).2.
Proof.
  intros (U & C & A). pose proof (erase_changes k m A) as D.
  unfold Silo.erase, Silo.modify_base, impl_erase, memory_impl. monad_unfold.
  destruct (erase k m) as [[d|e] m1]; cbn in D; [|subst m1; by split_and!].
  destruct D as (Du & Da & Dt & Dc). unfold accounted. cbn.
  split_and!; lia || done.
Qed.

(** *** The promise *)

Definition lookup (m : t) (k : Key) : option V := blocks m !! k.

Lemma find_outcome k m :
  same (lookup m) (lookup (find k m).2) /\
  (find k m).1 = match lookup m k with Some v => Ok v | None => Throw (MissingKey k) end.
Proof.
  unfold find, lookup. monad_unfold. by destruct (blocks m !! k) eqn:E.
Qed.

Lemma set_outcome_ok k v ins upd m :
  ins || upd = true ->
  set_outcome k v ins upd (lookup m) (lookup (set k v ins upd m).2)
    (set k v ins upd m).1.
Proof.
  intros B. unfold set, find, lookup. monad_unfold.
  destruct (blocks m !! k) eqn:E, ins, upd; try done; cbn; rewrite ?E; cbn;
    unfold set_outcome; rewrite ?E; split; try done; try (by left);
    intros k' _; cbn; destruct (decide (k' = k)) as [->|N];
    by rewrite ?lookup_insert_eq, ?lookup_insert_ne by done.
Qed.

Lemma erase_outcome_ok k m :
  erase_outcome k (lookup m) (lookup (erase k m).2) (erase k m).1.
Proof.
  unfold erase, find, lookup. monad_unfold.
  destruct (blocks m !! k) eqn:E; cbn; unfold erase_outcome; rewrite E; [|done].
  split; [done|]. intros k' _. cbn. destruct (decide (k' = k)) as [->|N];
    by rewrite ?lookup_delete_eq, ?lookup_delete_ne by done.
Qed.

Lemma list_outcome m l :
  (list_keys m).1 = Ok l -> forall k, k ∈ l <-> lookup m k <> None.
Proof.
  unfold list_keys, lookup. monad_unfold.
  destruct (check_invariants m); [|done]. intros [= <-] k.
  rewrite list_elem_of_fmap. split.
  - intros ([k' v] & -> & Hin%elem_of_map_to_list). cbn. by rewrite Hin.
  - destruct (blocks m !! k) as [v|] eqn:E; [|done]. intros _.
    exists (k, v). split; [done|]. by apply elem_of_map_to_list.
Qed.

Lemma list_keeps m : (list_keys m).2 = m.
Proof. unfold list_keys. monad_unfold. by case_match. Qed.

#[export] Instance memory_spec : SiloSpec V t.
Proof.
  refine {| contents := lookup; silo_ok := fun _ => True |}; try done.
  - intros k m r m' _ _ E. split; [done|]. pose proof (find_outcome k m) as O.
    cbn in E. by rewrite E in O.
  - intros k v ins upd m r m' _ _ B E. split; [done|].
    pose proof (set_outcome_ok k v ins upd m B) as O. cbn in E.
    by rewrite E in O.
  - intros k m r m' _ _ E. split; [done|].
    pose proof (erase_outcome_ok k m) as O. cbn in E. by rewrite E in O.
  - intros m r m' _ E. cbn in E. pose proof (list_keeps m) as K.
    pose proof (list_outcome m) as O. rewrite E in K, O. cbn in K, O. subst m'.
    split_and!; [done..|]. intros l -> k _. by apply O.
Defined.

(** *** Any sequence of writes *)

Definition small_op (o : silo_op V) : Prop :=
  match o with SetOp _ v _ _ => small (vsize v) | _ => True end.

Lemma find_keeps k m : (find k m).2 = m.
Proof. unfold find. monad_unfold. by case_match. Qed.

Lemma run_op_accounts o m : small_op o -> accounted m -> accounted (run_op o m).
Proof.
  destruct o; cbn [run_op]; intros So A.
  - change (accounted (find k m).2). by rewrite find_keeps.
  - by apply set_accounts.
  - by apply erase_accounts.
Qed.

(** Whatever is written to it, and whatever it refuses, a memory silo knows the
    number and the total size of its blocks. Its assertions hold as long as
    they use less than 2 GiB; past it [mapped_size], which is an [int], no
    longer equals the usage and they fail. *)
Theorem memory_accounts (os : list (silo_op V)) :
  Forall small_op os ->
  let m := run_ops os create in
  accounted m /\ (check_invariants m = true <-> total (blocks m) < 2 ^ 31).
Proof.
  intros So m. assert (accounted m) as A.
  { unfold m, run_ops. generalize accounted_create. generalize create.
    induction So as [|o os Ho _ IH]; intros m0 A; [done|].
    by apply IH, run_op_accounts. }
  split; [done|]. destruct A as (U & C & A). unfold check_invariants.
  rewrite U, C, Z.eqb_refl. cbn [andb]. rewrite Z.eqb_eq.
  pose proof (total_nonneg (blocks m)). split; intros X.
  - pose proof (wrap_s_range 32 (total (blocks m))). unfold to_int in X. lia.
  - symmetry. apply wrap_s_id; lia.
Qed.
End Memory.
Arguments t V : clear implicits.
End Memory.
#[export] Existing Instances Memory.memory_impl Memory.memory_spec.

(** ** Concrete silos *)

Section Instances.
Definition key1 : Key := Address.sample.
Definition key2 : Key := Address.null.

Lemma key2_wf : Address.wf key2.
Proof. by apply (bool_decide_unpack _); vm_compute. Qed.

Lemma silo_reads_writes_witness :
  let s := (Memory.create : Memory.t (list Z)) in
  let s1 := (Silo.set key1 [1; 2; 3] true false s).2 in
  is_ok (Silo.set key1 [1; 2; 3] true false s).1 = true /\
  (Silo.get key1 (run_ops [SetOp key2 [4] true true; EraseOp key2] s1)).1 =
    Ok [1; 2; 3].
Proof.
  intros s s1.
  assert (is_ok (Silo.set key1 [1; 2; 3] true false s).1 = true) as E
    by (vm_compute; reflexivity).
  split; [exact E|].
  assert (key2 <> key1) as N.
  { apply (bool_decide_unpack _). vm_compute. exact I. }
  assert (Forall (fun o => Address.wf (op_key o) /\ op_key o <> key1)
            [SetOp key2 [4] true true; EraseOp key2]) as F.
  { do 2 (apply Forall_cons_2; [exact (conj key2_wf N)|]). apply Forall_nil_2. }
  assert (silo_ok s) as O by exact I.
  destruct (silo_reads_writes key1 [1; 2; 3] true false s
    [SetOp key2 [4] true true; EraseOp key2] O Address.sample_wf eq_refl F)
    as (A & _ & _).
  exact (A E).
Defined.

Lemma memory_accounts_witness :
  let os := [SetOp key1 [1; 2; 3] true false; SetOp key1 [4] false true] in
  let m := run_ops os (Memory.create : Memory.t (list Z)) in
  Forall Memory.small_op os /\ Memory.accounted m /\
  (Memory.check_invariants m = true <-> total (Memory.blocks m) < 2 ^ 31).
Proof.
  intros os m. assert (Forall Memory.small_op os) as F
    by (repeat constructor; unfold Memory.small_op, small; cbn; lia).
  split; [exact F|]. exact (Memory.memory_accounts os F).
Defined.
End Instances.
