(* ===== verification/SiloFilesystem.v ===== *)
(** Blocks as files: memo/src/memo/silo/Filesystem.cc.

    The directory of the silo is a map from paths (the name of a
    subdirectory, the name of a file) to contents: opening, writing and
    removing files are taken to succeed. *)

From stdpp Require Import base tactics option list gmap.
From Stdlib Require Import ZArith Lia.
From S2P Require Import Prelude Buffers Streams Addresses Silos.
Open Scope Z_scope.

Module Filesystem.
Section Filesystem.
Context {V : Type} `{Sized V}.

Abbreviation path_t := (bytes * bytes)%type.
Abbreviation files_t := (gmap path_t V).

Record t := mkFilesystem {
  fbase : Base;
  files : files_t;
}.

Definition set_files (f : files_t) (s : t) : t := mkFilesystem (fbase s) f.
Definition with_base (b : Base) (s : t) : t := mkFilesystem b (files s).

(** [_path]: a directory per first byte. *)
Definition path (k : Key) : path_t :=
  (drop 2 (View.print true false (take 1 (Address.value k))),
   Address.print true false k).

(** [is_block]. *)
Definition is_block (name : bytes) : bool :=
  bool_decide (take 2 name = [48; 120]) && Nat.eqb (length name) 66.

(** The constructor, for one file of the directory. *)
Definition recover (x : path_t * V) (b : Base) : result silo_error Base :=
  match Address.from_string x.1.2 with
  | Ok k =>
      Ok (notify_metrics (add_blocks 1 (add_usage (vsize x.2)
            (set_size_cache (<[k := vsize x.2]> (size_cache b)) b))))
  | Throw _ => Throw SiloError
  end.

Fixpoint recover_all (l : list (path_t * V)) (b : Base) : result silo_error Base :=
  match l with
  | [] => Ok b
  | x :: l => b ← recover x b; recover_all l b
  end.

Definition create (f : files_t) (cap : option Z) : result silo_error t :=
  b ← recover_all (map_to_list f) (new_base cap);
  Ok (mkFilesystem b f).

Definition get (k : Key) : method t silo_error V :=
  s ← read;
  match files s !! path k with
  | Some v => mret v
  | None => throw (MissingKey k)
  end.

Definition over_capacity (b : Base) (delta : Z) : option Z :=
  match capacity b with
  | Some c => if c <? usage b + delta then Some c else None
  | None => None
  end.

Definition set (k : Key) (v : V) (ins upd : bool) : method t silo_error Z :=
  s ← read;
  let old := files s !! path k in
  let exist := present old in
  let size := match old with Some o => to_int (vsize o) | None => 0 end in
  let delta := to_int (vsize v - size) in
  match over_capacity (fbase s) delta with
  | Some c => throw (InsufficientSpace delta (usage (fbase s)) c)
  | None =>
      if negb exist && negb ins then throw (MissingKey k)
      else if exist && negb upd then throw (Collision k)
      else
        modify (set_files (<[path k := v]> (files s)));;
        modify (fun s => with_base
          (add_blocks (if exist then 0 else 1)
             (set_size_cache (<[k := to_int (vsize v)]> (size_cache (fbase s)))
                (fbase s))) s);;
        mret (if upd then to_int (vsize v - size) else to_int (vsize v))
  end.

Definition erase (k : Key) : method t silo_error Z :=
  s ← read;
  match files s !! path k with
  | None => throw (MissingKey k)
  | Some _ =>
      let delta := default 0 (size_cache (fbase s) !! k) in
      modify (set_files (delete (path k) (files s)));;
      modify (fun s => with_base (add_blocks (-1)
        (set_size_cache (delete k (size_cache (fbase s))) (fbase s))) s);;
      mret (to_int (- delta))
  end.

Definition list_keys : method t silo_error (list Key) :=
  s ← read;
  mret (omap (fun x =>
    if is_block x.1.2 then
      match Address.from_string x.1.2 with Ok k => Some k | Throw _ => None end
    else None) (map_to_list (files s))).

#[export] Instance filesystem_impl : SiloImpl V t := {|
  silo_base := fbase;
  set_silo_base := with_base;
  impl_get := get;
  impl_set := set;
  impl_erase := erase;
  impl_list := list_keys;
|}.

(** *** Paths *)

Lemma path_inj k k' : Address.wf k -> Address.wf k' -> path k = path k' -> k = k'.
Proof.
  intros W W' E. apply (f_equal snd) in E. unfold path in E. cbn [snd] in E.
  apply Address.read_back in W, W'. congruence.
Qed.

Lemma path_block k : Address.wf k -> is_block (path k).2 = true.
Proof.
  intros (L & _). unfold is_block, path, Address.print, View.print.
  cbn [snd andb View.prints_hex orb View.put].
  rewrite length_app, Hexadecimal.length_encode, L. done.
Qed.

(** Every file is the one of an address. *)
Definition well_named (f : files_t) : Prop :=
  forall p v, f !! p = Some v -> exists k, Address.wf k /\ p = path k.

Definition lookup (s : t) (k : Key) : option V := files s !! path k.

Lemma lookup_insert_path (f : files_t) k v k' :
  Address.wf k -> Address.wf k' ->
  (<[path k := v]> f) !! path k' = if decide (k' = k) then Some v else f !! path k'.
Proof.
  intros W W'. destruct (decide (k' = k)) as [->|N].
  - by rewrite lookup_insert_eq.
  - apply lookup_insert_ne. intros E. by apply N, path_inj.
Qed.

Lemma lookup_delete_path (f : files_t) k k' :
  Address.wf k -> Address.wf k' ->
  (delete (path k) f) !! path k' = if decide (k' = k) then None else f !! path k'.
Proof.
  intros W W'. destruct (decide (k' = k)) as [->|N].
  - by rewrite lookup_delete_eq.
  - apply lookup_delete_ne. intros E. by apply N, path_inj.
Qed.

Lemma well_named_insert f k v :
  Address.wf k -> well_named f -> well_named (<[path k := v]> f).
Proof.
  intros W F p v'. destruct (decide (path k = p)) as [<-|N]; [eauto|].
  rewrite lookup_insert_ne by done. apply F.
Qed.

Lemma well_named_delete f p : well_named f -> well_named (delete p f).
Proof. intros F p' v [_ E]%lookup_delete_Some. eauto. Qed.

(** *** The promise *)

Lemma set_promise k v ins upd s :
  Address.wf k -> well_named (files s) ->
  well_named (files (set k v ins upd s).2) /\
  set_outcome k v ins upd (lookup s) (lookup (set k v ins upd s).2)
    (set k v ins upd s).1.
Proof.
  intros W F. unfold set, lookup. monad_unfold.
  destruct (over_capacity (fbase s) _) as [c|].
  { split; [done|]. split; [done|]. right. by do 3 eexists. }
  unfold set_outcome.
  destruct (files s !! path k) eqn:E, ins, upd; cbn; rewrite ?E; cbn;
    (split; [by first [done | apply well_named_insert]|]);
    (split; [try done|try (by left)]);
    intros k' W'; cbn; by apply lookup_insert_path.
Qed.

Lemma erase_promise k s :
  Address.wf k -> well_named (files s) ->
  well_named (files (erase k s).2) /\
  erase_outcome k (lookup s) (lookup (erase k s).2) (erase k s).1.
Proof.
  intros W F. unfold erase, lookup. monad_unfold.
  destruct (files s !! path k) eqn:E; cbn; unfold erase_outcome; rewrite ?E;
    [|done]. split; [by apply well_named_delete|]. split; [done|].
  intros k' W'. cbn. by apply lookup_delete_path.
Qed.

Lemma disk_list_promise s l :
  well_named (files s) -> (list_keys s).1 = Ok l ->
  forall k, Address.wf k -> k ∈ l <-> lookup s k <> None.
Proof.
  intros F [= <-] k W. rewrite list_elem_of_omap. unfold lookup. split.
  - intros ([p v] & Hin%elem_of_map_to_list & E). cbn [fst] in E.
    destruct (F _ _ Hin) as (k0 & W0 & ->). rewrite path_block in E by done.
    unfold path in E. cbn [snd] in E. rewrite Address.read_back in E by done.
    simplify_eq. by rewrite Hin.
  - destruct (files s !! path k) as [v|] eqn:E; [|done]. intros _.
    exists (path k, v). split; [by apply elem_of_map_to_list|].
    cbn [fst]. rewrite path_block by done. unfold path. cbn [snd].
    by rewrite Address.read_back.
Qed.

#[export] Instance filesystem_spec : SiloSpec V t.
Proof.
  refine {| contents := lookup; silo_ok := fun s => well_named (files s) |};
    try done.
  - intros k s r s' O W. cbn. unfold get. monad_unfold.
    destruct (files s !! path k) eqn:E; intros [= <- <-]; (split; [done|]);
      split; unfold lookup; rewrite ?E; done.
  - intros k v ins upd s r s' O W _ E.
    pose proof (set_promise k v ins upd s W O) as X. cbn in E.
    by rewrite E in X.
  - intros k s r s' O W E. pose proof (erase_promise k s W O) as X.
    cbn in E. by rewrite E in X.
  - intros s r s' O E. cbn in E. unfold list_keys in E. monad_unfold.
    simplify_eq. split_and!; [done..|]. intros l E.
    by apply (disk_list_promise s').
Defined.

(** *** Accounting *)

(** The attributes are those of the files. *)
Record accounted (s : t) : Prop := {
  acc_named : well_named (files s);
  acc_small : all_small (files s);
  acc_usage : usage (fbase s) = total (files s);
  acc_count : block_count (fbase s) = Z.of_nat (size (files s));
  acc_cache : forall k z, size_cache (fbase s) !! k = Some z <->
    Address.wf k /\ exists v, files s !! path k = Some v /\ z = vsize v;
}.

Definition cache_of (f : files_t) (c : gmap Key Z) : Prop :=
  forall k z, c !! k = Some z <->
    Address.wf k /\ exists v, f !! path k = Some v /\ z = vsize v.

Lemma cache_insert f c k v :
  Address.wf k -> cache_of f c ->
  cache_of (<[path k := v]> f) (<[k := vsize v]> c).
Proof.
  intros W C k' z. destruct (decide (k' = k)) as [->|N].
  - rewrite !lookup_insert_eq. naive_solver.
  - rewrite (lookup_insert_ne c) by done. rewrite (C k' z).
    split; intros (W' & v' & E & ->); split; try done; exists v';
      rewrite lookup_insert_path, decide_False in * by done; done.
Qed.

Lemma cache_delete f c k :
  Address.wf k -> cache_of f c -> cache_of (delete (path k) f) (delete k c).
Proof.
  intros W C k' z. destruct (decide (k' = k)) as [->|N].
  - rewrite !lookup_delete_eq. naive_solver.
  - rewrite (lookup_delete_ne c) by done. rewrite (C k' z).
    split; intros (W' & v' & E & ->); split; try done; exists v';
      rewrite lookup_delete_path, decide_False in * by done; done.
Qed.

Lemma disk_set_accounts k v ins upd s :
  Address.wf k -> small (vsize v) -> accounted s ->
  accounted (Silo.set k v ins upd s).2.
Proof.
  intros W Sv A. pose proof A as [F S U C Ca].
  unfold Silo.set, Silo.modify_base, impl_set, filesystem_impl, set. monad_unfold.
  destruct (ins || upd); [|done].
  assert (all_small (<[path k := v]> (files s))) as S'
    by by apply map_Forall_insert_2.
  assert (small 0) by by unfold small.
  assert (forall z, small z -> to_int z = z) as Ti.
  { intros z Hz. rewrite <- (Z.sub_0_r z) at 1. rewrite to_int_small; lia || done. }
  destruct (over_capacity (fbase s) _) as [c|]; [done|].
  destruct (files s !! path k) as [old|] eqn:E.
  - pose proof (map_Forall_lookup_1 _ _ _ _ S E) as So. cbn [present negb andb].
    destruct upd; [|done]. cbn -[to_int Z.sub Z.add Z.of_nat total].
    destruct (step _ <=? _); split;
      cbn -[to_int Z.sub Z.add Z.of_nat total];
      try (by apply well_named_insert); try done;
      rewrite ?(total_update _ _ _ _ E),
        ?(map_size_insert_Some _ _ _ (mk_is_Some _ _ E)),
        ?(Ti (vsize old) So), ?(Ti (vsize v) Sv), ?(to_int_small _ _ Sv So);
      try lia; by apply cache_insert.
  - cbn [present negb andb]. destruct ins; [|done].
    destruct upd; cbn -[to_int Z.sub Z.add Z.of_nat total];
    destruct (step _ <=? _); split;
      cbn -[to_int Z.sub Z.add Z.of_nat total];
      try (by apply well_named_insert); try done;
      rewrite ?(total_insert _ _ _ E), ?(map_size_insert_None _ _ _ E),
        ?(Ti (vsize v) Sv), ?(to_int_small (vsize v) 0) by done;
      try lia; by apply cache_insert.
Qed.

Lemma disk_erase_accounts k s :
  Address.wf k -> accounted s -> accounted (Silo.erase k s).2.
Proof.
  intros W A. pose proof A as [F S U C Ca].
  unfold Silo.erase, Silo.modify_base, impl_erase, filesystem_impl, erase.
  monad_unfold. destruct (files s !! path k) as [old|] eqn:E; [|done].
  pose proof (map_Forall_lookup_1 _ _ _ _ S E) as So. cbn in So.
  assert (size_cache (fbase s) !! k = Some (vsize old)) as Ec
    by (apply Ca; eauto).
  assert (size (files s) <> 0)%nat.
  { intros Z0%map_size_empty_inv. by rewrite Z0, lookup_empty in E. }
  rewrite Ec. cbn -[to_int Z.sub Z.add Z.of_nat total Z.opp].
  replace (- vsize old) with (0 - vsize old) by lia.
  rewrite to_int_small by (by unfold small || done).
  split; cbn -[to_int Z.sub Z.add Z.of_nat total].
  - by apply well_named_delete.
  - by apply map_Forall_delete.
  - rewrite (total_delete _ _ _ E). lia.
  - rewrite map_size_delete_Some by eauto. lia.
  - rewrite delete_delete_eq. by apply cache_delete.
Qed.

Definition fits (o : silo_op V) : Prop :=
  Address.wf (op_key o) /\
  match o with SetOp _ v _ _ => small (vsize v) | _ => True end.

Lemma run_ops_accounts os s :
  Forall fits os -> accounted s -> accounted (run_ops os s).
Proof.
  intros Fo. revert s. induction Fo as [|o os [W So] _ IH]; intros s A; [done|].
  apply IH. destruct o; cbn in *.
  - unfold Silo.get, impl_get, filesystem_impl, get. monad_unfold. by case_match.
  - by apply disk_set_accounts.
  - by apply disk_erase_accounts.
Qed.

(** *** Opening a directory *)

Definition sum_sizes (l : list (path_t * V)) : Z :=
  foldr (fun x acc => vsize x.2 + acc) 0 l.

Lemma total_sum (f : files_t) : total f = sum_sizes (map_to_list f).
Proof.
  unfold total, sum_sizes. rewrite map_fold_foldr.
  induction (map_to_list f) as [|[p v] l IH]; simpl; [done|]. by rewrite IH.
Qed.

Lemma recover_all_ok l b :
  (forall x, x ∈ l -> exists k, Address.wf k /\ x.1 = path k) -> NoDup l.*1 ->
  exists b', recover_all l b = Ok b' /\ capacity b' = capacity b /\
    usage b' = usage b + sum_sizes l /\
    block_count b' = block_count b + Z.of_nat (length l) /\
    (forall k v, Address.wf k -> (path k, v) ∈ l ->
       size_cache b' !! k = Some (vsize v)) /\
    (forall k, (forall v, Address.wf k -> (path k, v) ∉ l) ->
       size_cache b' !! k = size_cache b !! k).
Proof.
  revert b. induction l as [|[p v] l IH]; intros b Hn Nd.
  - exists b. simpl. split_and!; try lia; try done.
    intros k v _ Hin. by apply not_elem_of_nil in Hin.
  - destruct (Hn (p, v)) as (k & W & E); [set_solver|]. cbn [fst] in E. subst p.
    apply NoDup_cons in Nd as [Ni Nd]. cbn [recover_all recover fst snd].
    unfold recover. cbn [fst snd]. unfold path at 1. cbn [snd].
    rewrite Address.read_back by done. cbn [mbind result_bind].
    edestruct (IH (notify_metrics (add_blocks 1 (add_usage (vsize v)
      (set_size_cache (<[k := vsize v]> (size_cache b)) b)))))
      as (b' & -> & Hc & Hu & Hb & Hi & Ho); [set_solver|done|].
    exists b'. split; [done|]. split; [by rewrite Hc|].
    split; [rewrite Hu; simpl; lia|]. split; [rewrite Hb; simpl; lia|].
    assert (forall v', (path k, v') ∉ l) as Nk.
    { intros v' Hin. apply Ni. apply list_elem_of_fmap. by exists (path k, v'). }
    split.
    + intros k' v' W' [Ep|Hin]%elem_of_cons; [|by apply Hi].
      pose proof (f_equal fst Ep) as Ep1. pose proof (f_equal snd Ep) as Ep2.
      cbn [fst snd] in Ep1, Ep2. subst v'.
      assert (k' = k) as -> by by apply path_inj.
      rewrite Ho by naive_solver. by apply lookup_insert_eq.
    + intros k' Hk'. rewrite Ho by set_solver. cbn.
      apply lookup_insert_ne. intros <-. apply (Hk' v W). set_solver.
Qed.

Lemma create_accounted f cap :
  well_named f -> all_small f ->
  exists s, create f cap = Ok s /\ files s = f /\ accounted s /\
    capacity (fbase s) = cap.
Proof.
  intros F S. unfold create.
  destruct (recover_all_ok (map_to_list f) (new_base cap))
    as (b & -> & Hc & Hu & Hb & Hi & Ho).
  - intros [p v] Hin%elem_of_map_to_list. by apply (F p v).
  - apply NoDup_fst_map_to_list.
  - cbn. exists (mkFilesystem b f). split_and!; [done..| |done].
    split; cbn; try done.
    + by rewrite total_sum.
    + rewrite Hb. by rewrite length_map_to_list.
    + intros k z. split.
      * intros E. destruct (decide (Address.wf k)) as [W|N].
        -- split; [done|]. destruct (f !! path k) as [v|] eqn:Ef.
           ++ exists v. split; [done|].
              rewrite (Hi k v W) in E by by apply elem_of_map_to_list.
              by simplify_eq.
           ++ rewrite Ho in E by (intros v _ Hin%elem_of_map_to_list; congruence).
              unfold new_base in E; cbn [size_cache] in E; by rewrite lookup_empty in E.
        -- rewrite Ho in E by done. unfold new_base in E; cbn [size_cache] in E; by rewrite lookup_empty in E.
      * intros (W & v & E & ->). apply Hi; [done|].
        by apply elem_of_map_to_list.
Qed.

(** The attributes determine each other: the files tell them all. *)
Lemma accounted_same s s' :
  accounted s -> accounted s' -> files s' = files s ->
  usage (fbase s') = usage (fbase s) /\
  block_count (fbase s') = block_count (fbase s) /\
  size_cache (fbase s') = size_cache (fbase s).
Proof.
  intros A A' E. rewrite (acc_usage s A), (acc_usage s' A'), (acc_count s A),
    (acc_count s' A'), E. split_and!; [done..|].
  apply map_eq. intros k. apply option_eq. intros z.
  rewrite (acc_cache s A), (acc_cache s' A'), E. done.
Qed.

(** C39. A silo opened on a directory of blocks, whatever is done with it, keeps
    the usage, the number of blocks and the cache of sizes of its files:
    closing it and opening the directory again recovers the same. *)
Theorem filesystem_reopens f cap os :
  well_named f -> all_small f -> Forall fits os ->
  exists s0, create f cap = Ok s0 /\
    let s := run_ops os s0 in
    usage (fbase s) = total (files s) /\
    exists s', create (files s) cap = Ok s' /\
      files s' = files s /\ usage (fbase s') = usage (fbase s) /\
      block_count (fbase s') = block_count (fbase s) /\
      size_cache (fbase s') = size_cache (fbase s).
Proof.
  intros F S Fo. destruct (create_accounted f cap F S) as (s0 & E & _ & A & _).
  exists s0. split; [done|]. intros s.
  pose proof (run_ops_accounts os s0 Fo A) as A1. fold s in A1.
  split; [by apply acc_usage|].
  destruct (create_accounted (files s) cap (acc_named s A1) (acc_small s A1))
    as (s' & E' & Ef & A' & _).
  exists s'. split; [done|]. split; [done|]. by apply accounted_same.
Qed.

(** *** The capacity *)

Definition within (c : Z) (s : t) : Prop :=
  capacity (fbase s) = Some c /\ usage (fbase s) <= c.

Lemma set_within c k v ins upd s :
  Address.wf k -> small (vsize v) -> accounted s -> within c s ->
  within c (Silo.set k v ins upd s).2.
Proof.
  intros W Sv [F S U C Ca] [Hc L].
  unfold Silo.set, Silo.modify_base, impl_set, filesystem_impl, set, over_capacity.
  monad_unfold. destruct (ins || upd); [|done]. cbv beta iota.
  rewrite Hc.
  destruct (Z.ltb_spec c (usage (fbase s) + to_int (vsize v -
    match files s !! path k with Some o => to_int (vsize o) | None => 0 end)))
    as [Lc|Lc]; [done|].
  assert (to_int (vsize v - 0) = to_int (vsize v)) as E0 by (f_equal; lia).
  destruct (files s !! path k) as [old|] eqn:E, ins, upd;
    cbn [present negb andb]; try done;
    cbn -[to_int Z.sub Z.add Z.of_nat total];
    destruct (step _ <=? _); (split; [done|]);
    cbn -[to_int Z.sub Z.add Z.of_nat total]; lia.
Qed.

Lemma erase_within c k s :
  Address.wf k -> accounted s -> within c s -> within c (Silo.erase k s).2.
Proof.
  intros W A [Hc L]. pose proof (disk_erase_accounts k s W A) as A'.
  assert (files (Silo.erase k s).2 = files s /\
          usage (fbase (Silo.erase k s).2) = usage (fbase s) \/
          exists old, files s !! path k = Some old /\
          files (Silo.erase k s).2 = delete (path k) (files s)) as D.
  { unfold Silo.erase, Silo.modify_base, impl_erase, filesystem_impl, erase.
    monad_unfold. destruct (files s !! path k) eqn:E; [right|left; done].
    eauto. }
  split.
  - unfold Silo.erase, Silo.modify_base, impl_erase, filesystem_impl, erase.
    monad_unfold. by destruct (files s !! path k).
  - destruct D as [[_ ->]|(old & E & Ed)]; [done|].
    rewrite (acc_usage _ A'), Ed, (total_delete _ _ _ E), <- (acc_usage s A).
    pose proof (vsize_nonneg old). lia.
Qed.

(** A silo that is given a capacity and is within it stays within it: what
    does not fit is refused. *)
Theorem filesystem_capacity c os s :
  accounted s -> within c s -> Forall fits os -> within c (run_ops os s).
Proof.
  intros A Wi Fo. revert s A Wi.
  induction Fo as [|o os [W So] _ IH]; intros s A Wi; [done|].
  apply (IH (run_op o s)); destruct o; cbn in *.
  - unfold Silo.get, impl_get, filesystem_impl, get. monad_unfold. by case_match.
  - by apply disk_set_accounts.
  - by apply disk_erase_accounts.
  - unfold Silo.get, impl_get, filesystem_impl, get. monad_unfold. by case_match.
  - by apply set_within.
  - by apply erase_within.
Qed.
End Filesystem.
Arguments t V : clear implicits.
End Filesystem.
#[export] Existing Instances Filesystem.filesystem_impl
  Filesystem.filesystem_spec.

(** ** A directory with one block *)

Section Instances.
Definition one_file : gmap (bytes * bytes) bytes :=
  {[ Filesystem.path key1 := [1; 2; 3] ]}.

Lemma one_file_named : Filesystem.well_named one_file.
Proof.
  intros p v E. unfold one_file in E.
  apply lookup_singleton_Some in E as [<- _]. exists key1.
  split; [apply Address.sample_wf|done].
Qed.

Lemma one_file_small : all_small one_file.
Proof.
  unfold all_small, one_file. apply map_Forall_singleton.
  unfold small. cbn. lia.
Qed.

Definition some_ops : list (silo_op bytes) :=
  [SetOp key2 [4; 5] true false; EraseOp key1; SetOp key2 [6] false true].

Lemma some_ops_fit : Forall Filesystem.fits some_ops.
Proof.
  assert (small 1 /\ small 2) as [S1 S2] by (unfold small; lia).
  apply Forall_cons_2; [exact (conj key2_wf S2)|].
  apply Forall_cons_2; [exact (conj Address.sample_wf I)|].
  apply Forall_cons_2; [exact (conj key2_wf S1)|]. apply Forall_nil_2.
Qed.

Lemma filesystem_reopens_witness :
  Filesystem.well_named one_file /\
  exists s0, Filesystem.create one_file (Some 5) = Ok s0 /\
    let s := run_ops some_ops s0 in
    usage (Filesystem.fbase s) = total (Filesystem.files s) /\
    exists s', Filesystem.create (Filesystem.files s) (Some 5) = Ok s' /\
      Filesystem.files s' = Filesystem.files s /\
      usage (Filesystem.fbase s') = usage (Filesystem.fbase s) /\
      block_count (Filesystem.fbase s') = block_count (Filesystem.fbase s) /\
      size_cache (Filesystem.fbase s') = size_cache (Filesystem.fbase s).
Proof.
  split; [exact one_file_named|].
  exact (Filesystem.filesystem_reopens one_file (Some 5) some_ops one_file_named
           one_file_small some_ops_fit).
Defined.

Lemma filesystem_capacity_witness :
  exists s, Filesystem.accounted s /\ Filesystem.within 5 s /\
    Filesystem.within 5 (run_ops some_ops s).
Proof.
  destruct (Filesystem.create_accounted one_file (Some 5) one_file_named
    one_file_small) as (s & _ & Ef & A & C).
  assert (Filesystem.within 5 s) as W.
  { split; [exact C|]. rewrite (Filesystem.acc_usage s A), Ef. by vm_compute. }
  exists s. split; [exact A|]. split; [exact W|].
  exact (Filesystem.filesystem_capacity 5 some_ops s A W some_ops_fit).
Defined.
End Instances.
