(* ===== verification/SiloAdapters.v ===== *)
(** Silos made of other silos: memo/src/memo/silo/Strip.cc, Mirror.cc, Crypt.cc
    and Latency.cc.

    Each is a silo over any backend that keeps the promise [SiloSpec], and
    keeps it in turn. *)

From stdpp Require Import base tactics option list gmap.
From Stdlib Require Import ZArith Lia.
From S2P Require Import Prelude Buffers Streams Addresses Silos SiloFilesystem.
Open Scope Z_scope.

(** Run a method on one element of a list. *)
Section OnNth.
Context {S E A : Type}.

Definition on_nth (i : nat) (missing : E) (m : method S E A) :
    method (list S) E A :=
  fun l =>
    match l !! i with
    | Some s => let '(r, s') := m s in (r, <[i := s']> l)
    | None => (Throw missing, l)
    end.

(** One call per element, in order, up to the first that throws. *)
Fixpoint on_each (m : method S E A) (l : list S) : result E (list A) * list S :=
  match l with
  | [] => (Ok [], [])
  | s :: l =>
      match m s with
      | (Throw e, s) => (Throw e, s :: l)
      | (Ok a, s) =>
          match on_each m l with
          | (Ok r, l) => (Ok (a :: r), s :: l)
          | (Throw e, l) => (Throw e, s :: l)
          end
      end
  end.
End OnNth.

(** ** Strip *)

Module Strip.
Section Strip.
Context {V S : Type} `{SiloSpec V S}.

Record t := mkStrip {
  sbase : Base;
  backends : list S;
}.

Definition with_base (b : Base) (s : t) : t := mkStrip b (backends s).
Definition set_backends (l : list S) (s : t) : t := mkStrip (sbase s) l.

Definition sum_of (f : S -> Z) (l : list S) : Z :=
  foldr (fun s acc => f s + acc) 0 l.

(** [Strip::Strip]: the metrics are those of the backends. *)
Definition create (l : list S) : t :=
  mkStrip
    (add_blocks (sum_of (fun s => block_count (silo_base s)) l)
       (add_usage (sum_of (fun s => usage (silo_base s)) l) (new_base None))) l.

(** [sum] and [_storage_of]. *)
Definition sum_digits (k : Key) : Z := foldr Z.add 0 (Address.value k).
Definition storage_of (k : Key) (s : t) : nat :=
  Z.to_nat (sum_digits k mod Z.of_nat (length (backends s))).

Definition on_storage {A} (k : Key) (m : method S silo_error A) :
    method t silo_error A :=
  fun s =>
    let '(r, l) := on_nth (storage_of k s) SiloError m (backends s) in
    (r, set_backends l s).

Definition get (k : Key) : method t silo_error V := on_storage k (Silo.get k).
Definition set (k : Key) (v : V) (ins upd : bool) : method t silo_error Z :=
  on_storage k (Silo.set k v ins upd).
Definition erase (k : Key) : method t silo_error Z := on_storage k (Silo.erase k).

Definition list_keys : method t silo_error (list Key) :=
  fun s =>
    match on_each Silo.list_keys (backends s) with
    | (Ok ls, l) => (Ok (mjoin ls), set_backends l s)
    | (Throw e, l) => (Throw e, set_backends l s)
    end.

#[export] Instance strip_impl : SiloImpl V t := {|
  silo_base := sbase;
  set_silo_base := with_base;
  impl_get := get;
  impl_set := set;
  impl_erase := erase;
  impl_list := list_keys;
|}.

(** *** The promise *)

Definition lookup (s : t) (k : Key) : option V :=
  b ← backends s !! storage_of k s; contents b k.

(** There are backends, and each holds only what is striped to it. *)
Definition striped (s : t) : Prop :=
  backends s <> [] /\
  forall i b, backends s !! i = Some b ->
    silo_ok b /\
    forall k, Address.wf k -> contents b k <> None -> storage_of k s = i.

Lemma storage_backend k s :
  striped s -> exists b, backends s !! storage_of k s = Some b /\ silo_ok b.
Proof.
  intros [NE B]. destruct (backends s !! storage_of k s) as [b|] eqn:E.
  - exists b. split; [done|]. by apply (B _ _ E).
  - apply lookup_ge_None in E. exfalso. unfold storage_of in E.
    assert (0 < Z.of_nat (length (backends s))) as P
      by (destruct (backends s); [done|simpl; lia]).
    pose proof (Z.mod_pos_bound (sum_digits k) _ P). lia.
Qed.

Lemma storage_insert k s i b :
  storage_of k (set_backends (<[i := b]> (backends s)) s) = storage_of k s.
Proof. unfold storage_of. simpl. by rewrite length_insert. Qed.

(** Replacing the backend of [k] by one that only changed about [k]. *)
Lemma striped_update k s b b' :
  striped s -> Address.wf k -> backends s !! storage_of k s = Some b ->
  silo_ok b' ->
  (forall k', Address.wf k' -> k' <> k -> contents b' k' = contents b k') ->
  let s' := set_backends (<[storage_of k s := b']> (backends s)) s in
  striped s' /\ lookup s' k = contents b' k /\
  forall k', Address.wf k' -> k' <> k -> lookup s' k' = lookup s k'.
Proof.
  intros [NE B] W E O C s'.
  pose proof (lookup_lt_Some _ _ _ E) as L.
  assert (forall k', lookup s' k' =
    if decide (storage_of k' s = storage_of k s) then contents b' k'
    else lookup s k') as Lk.
  { intros k'. unfold lookup, s'. rewrite storage_insert. cbn [backends set_backends].
    destruct (decide (storage_of k' s = storage_of k s)) as [->|N].
    - by rewrite list_lookup_insert_eq.
    - by rewrite list_lookup_insert_ne. }
  split; [|split].
  - split.
    + cbn. intros Z0. apply (f_equal length) in Z0. rewrite length_insert in Z0.
      simpl in Z0. lia.
    + intros i b0 Ei. cbn [backends s' set_backends] in Ei.
      destruct (decide (storage_of k s = i)) as [<-|N].
      * rewrite list_lookup_insert_eq in Ei by done. simplify_eq.
        split; [done|]. intros k' W' P. unfold s'. rewrite storage_insert.
        destruct (decide (k' = k)) as [->|Nk]; [done|].
        rewrite C in P by done. by apply (B _ _ E).
      * rewrite list_lookup_insert_ne in Ei by done.
        destruct (B _ _ Ei) as [O0 P0]. split; [done|]. intros k' W' P.
        unfold s'. rewrite storage_insert. by apply P0.
  - by rewrite Lk, decide_True.
  - intros k' W' N. rewrite Lk. destruct (decide _) as [Es|]; [|done].
    rewrite C by done. unfold lookup. by rewrite Es, E.
Qed.

(** What one backend does is what the strip does. *)
Lemma on_storage_spec {A} k (m : method S silo_error A) s b r b' :
  striped s -> Address.wf k ->
  backends s !! storage_of k s = Some b -> m b = (r, b') -> silo_ok b' ->
  (forall k', Address.wf k' -> k' <> k -> contents b' k' = contents b k') ->
  exists s', on_storage k m s = (r, s') /\ striped s' /\
    lookup s k = contents b k /\ lookup s' k = contents b' k /\
    forall k', Address.wf k' -> k' <> k -> lookup s' k' = lookup s k'.
Proof.
  intros St W E Em O C.
  destruct (striped_update k s b b' St W E O C) as (St' & Lk & Lo).
  eexists. unfold on_storage, on_nth. rewrite E, Em. split; [done|].
  split_and!; [done| |done|done]. unfold lookup. by rewrite E.
Qed.

(** Lift an outcome from the backend of [k]. *)
Lemma lift_same (f f' g g' : Key -> option V) k :
  same f f' -> g k = f k -> g' k = f' k -> Address.wf k ->
  (forall k', Address.wf k' -> k' <> k -> g' k' = g k') -> same g g'.
Proof.
  intros Sm E E' W O k' W'. destruct (decide (k' = k)) as [->|N]; [|by apply O].
  by rewrite E', E, Sm.
Qed.

Lemma lift_point (f f' g g' : Key -> option V) k x :
  (forall k', Address.wf k' -> f' k' = if decide (k' = k) then x else f k') ->
  g' k = f' k -> Address.wf k ->
  (forall k', Address.wf k' -> k' <> k -> g' k' = g k') ->
  forall k', Address.wf k' -> g' k' = if decide (k' = k) then x else g k'.
Proof.
  intros St E' W O k' W'. destruct (decide (k' = k)) as [->|N]; [|by apply O].
  by rewrite E', St, decide_True.
Qed.

Lemma on_each_list l r l' :
  Forall (fun b => silo_ok b) l -> on_each Silo.list_keys l = (r, l') ->
  Forall2 (fun b b' => silo_ok b' /\ same (contents b) (contents b')) l l' /\
  forall ks, r = Ok ks -> forall k, Address.wf k ->
    k ∈ mjoin ks <-> exists b, b ∈ l /\ contents b k <> None.
Proof.
  intros F. revert r l'. induction F as [|b l Ob F IH]; intros r l' E.
  - cbn in E. simplify_eq. split; [constructor|]. intros ks [= <-] k _.
    simpl. split; [by intros X%not_elem_of_nil|].
    intros (b & X%not_elem_of_nil & _). done.
  - cbn [on_each] in E. destruct (Silo.list_keys b) as [rb b'] eqn:Eb.
    destruct (list_spec _ _ _ Ob Eb) as (Ob' & Sb & Hb).
    destruct rb as [a|e].
    + destruct (on_each Silo.list_keys l) as [rl l1] eqn:El.
      destruct (IH _ _ eq_refl) as [F2 Hl].
      destruct rl as [ks|e]; simplify_eq; (split; [by constructor|]); [|done].
      intros ks' [= <-] k W. cbn. rewrite elem_of_app, (Hb a) by done.
      rewrite (Hl ks) by done. split.
      * intros [P|(b0 & ? & ?)]; [exists b|exists b0]; split; try done;
          apply elem_of_cons; auto.
      * intros (b0 & [->|Hin]%elem_of_cons & P); [by left|]. right. eauto.
    + simplify_eq. split; [|done]. constructor; [done|].
      clear -F. induction F; constructor; [split; [done|by intros ?]|done].
Qed.

Lemma list_promise s r s' :
  striped s -> list_keys s = (r, s') ->
  striped s' /\ same (lookup s) (lookup s') /\
  forall l, r = Ok l -> forall k, Address.wf k -> k ∈ l <-> lookup s k <> None.
Proof.
  intros [NE B] E. unfold list_keys in E.
  destruct (on_each Silo.list_keys (backends s)) as [rl l'] eqn:El.
  destruct (on_each_list _ _ _ ltac:(apply Forall_lookup; intros i b Eb;
    by apply (B i b Eb)) El) as [F2 Hl].
  assert (s' = set_backends l' s /\
    forall ks, r = Ok ks -> exists ls, rl = Ok ls /\ ks = mjoin ls) as [-> Er].
  { destruct rl; simplify_eq; split; try done. intros ks [= <-]. eauto. }
  clear E. pose proof (Forall2_length _ _ _ F2) as Len.
  assert (forall k, storage_of k (set_backends l' s) = storage_of k s) as St
    by (intros; unfold storage_of; cbn; by rewrite Len).
  split_and!.
  - split; [cbn; destruct l', (backends s); done|]. intros i b' Ei. cbn in Ei.
    destruct (Forall2_lookup_r _ _ _ _ _ F2 Ei) as (b & Eb & Ob' & Sb).
    split; [done|]. intros k W P. rewrite St. rewrite Sb in P by done.
    by apply (B i b Eb).
  - intros k W. unfold lookup. rewrite St. cbn [backends set_backends].
    destruct (backends s !! storage_of k s) as [b|] eqn:Eb; cbn.
    + destruct (Forall2_lookup_l _ _ _ _ _ F2 Eb) as (b' & -> & _ & Sb). cbn.
      by apply Sb.
    + apply lookup_ge_None in Eb. rewrite lookup_ge_None_2 by lia. done.
  - intros ks Ek k W. destruct (Er _ Ek) as (ls & -> & ->).
    rewrite (Hl ls) by done. unfold lookup. split.
    + intros (b & [i Ei]%list_elem_of_lookup & P).
      destruct (B i b Ei) as [_ Pi]. by rewrite (Pi k W P), Ei.
    + destruct (backends s !! storage_of k s) as [b|] eqn:Eb; cbn; [|done].
      intros P. exists b. split; [by eapply list_elem_of_lookup_2|done].
Qed.

#[export] Instance strip_spec : SiloSpec V t.
Proof.
  refine {| contents := lookup; silo_ok := striped |}; try done.
  - intros k s r s' St W E.
    destruct (storage_backend k s St) as (b & Eb & Ob).
    destruct (Silo.get k b) as [rb b'] eqn:Em.
    destruct (silo_get_spec _ _ _ _ Ob W Em) as [Ob' [Sm ->]].
    destruct (on_storage_spec k (Silo.get k) s b _ b' St W Eb Em Ob')
      as (s1 & E1 & St' & L & L' & Lo); [by intros; apply Sm|].
    cbn in E. unfold get in E. rewrite E1 in E. simplify_eq. split; [done|].
    split; [by eapply lift_same|]. by rewrite L.
  - intros k v ins upd s r s' St W B E.
    destruct (storage_backend k s St) as (b & Eb & Ob).
    destruct (Silo.set k v ins upd b) as [rb b'] eqn:Em.
    pose proof (silo_set_spec _ _ _ _ _ _ _ Ob W Em) as X. rewrite B in X.
    destruct X as [Ob' X].
    destruct (on_storage_spec k (Silo.set k v ins upd) s b rb b' St W Eb Em Ob')
      as (s1 & E1 & St' & L & L' & Lo).
    { intros k' W' N. destruct rb; destruct X as [X Y].
      - by rewrite Y, decide_False.
      - by apply X. }
    cbn in E. unfold set in E. rewrite E1 in E. simplify_eq. split; [done|].
    unfold set_outcome in *. rewrite L.
    destruct r; destruct X as [X Y]; (split; [|]); try done.
    + exact (lift_point _ _ _ _ _ (Some v) Y L' W Lo).
    + by eapply lift_same.
  - intros k s r s' St W E.
    destruct (storage_backend k s St) as (b & Eb & Ob).
    destruct (Silo.erase k b) as [rb b'] eqn:Em.
    destruct (silo_erase_spec _ _ _ _ Ob W Em) as [Ob' X].
    destruct (on_storage_spec k (Silo.erase k) s b rb b' St W Eb Em Ob')
      as (s1 & E1 & St' & L & L' & Lo).
    { intros k' W' N. destruct rb; destruct X as [X Y].
      - by rewrite Y, decide_False.
      - by apply X. }
    cbn in E. unfold erase in E. rewrite E1 in E. simplify_eq. split; [done|].
    unfold erase_outcome in *. rewrite L.
    destruct r; destruct X as [X Y]; (split; [|]); try done.
    + exact (lift_point _ _ _ _ _ None Y L' W Lo).
    + by eapply lift_same.
  - intros s r s' St E. by apply list_promise.
Defined.
End Strip.
Arguments t S : clear implicits.
End Strip.
#[export] Existing Instances Strip.strip_impl Strip.strip_spec.

(** *** The usage of a strip *)

(** A virtual method leaves the usage to the public one that calls it. *)
Class UsageSpec (V S : Type) `{SiloImpl V S} := {
  base_set : forall b s, silo_base (set_silo_base b s) = b;
  get_usage : forall k s,
    usage (silo_base (impl_get k s).2) = usage (silo_base s);
  set_usage : forall k v ins upd s,
    usage (silo_base (impl_set k v ins upd s).2) = usage (silo_base s);
  erase_usage : forall k s,
    usage (silo_base (impl_erase k s).2) = usage (silo_base s);
}.

Section Usage.
Context {V S : Type} `{UsageSpec V S}.

Definition delta_of (r : result silo_error Z) : Z :=
  match r with Ok d => d | Throw _ => 0 end.

Lemma modify_base_usage f (s : S) :
  Silo.modify_base f s = (Ok tt, set_silo_base (f (silo_base s)) s).
Proof. done. Qed.

Lemma silo_set_usage k v ins upd (s : S) r s' :
  Silo.set k v ins upd s = (r, s') ->
  usage (silo_base s') = usage (silo_base s) + delta_of r.
Proof.
  unfold Silo.set. destruct (ins || upd); [|intros [= <- <-]; cbn; lia].
  unfold mbind, method_bind. pose proof (set_usage k v ins upd s) as U.
  destruct (impl_set k v ins upd s) as [[d|e] s1]; cbn [snd] in U.
  - rewrite !modify_base_usage. unfold reads.
    destruct (step _ <=? _); unfold when;
      rewrite ?modify_base_usage; cbn; intros [= <- <-];
      rewrite ?base_set; cbn; rewrite ?base_set; cbn;
      rewrite ?base_set; cbn; lia.
  - intros [= <- <-]. cbn. lia.
Qed.

Lemma silo_erase_usage k (s : S) r s' :
  Silo.erase k s = (r, s') ->
  usage (silo_base s') = usage (silo_base s) + delta_of r.
Proof.
  unfold Silo.erase, mbind, method_bind. pose proof (erase_usage k s) as U.
  destruct (impl_erase k s) as [[d|e] s1]; cbn [snd] in U.
  - rewrite !modify_base_usage. cbn. intros [= <- <-].
    rewrite ?base_set. cbn. rewrite ?base_set. cbn. rewrite ?base_set. cbn. lia.
  - intros [= <- <-]. cbn. lia.
Qed.
End Usage.

Section StripUsage.
Context {V S : Type} `{UsageSpec V S}.
Implicit Types s : Strip.t S.

Definition strip_accounted s : Prop :=
  usage (Strip.sbase s) =
  Strip.sum_of (fun b => usage (silo_base b)) (Strip.backends s).

Lemma sum_of_insert (f : S -> Z) l i b b' :
  l !! i = Some b ->
  Strip.sum_of f (<[i := b']> l) = Strip.sum_of f l + (f b' - f b).
Proof.
  unfold Strip.sum_of.
  revert i. induction l as [|b0 l IH]; intros [|i] E; [done..| |].
  - injection E as ->. cbn. lia.
  - specialize (IH i E). cbn -[insert] in *.
    change (<[Datatypes.S i := b']> (b0 :: l)) with (b0 :: <[i := b']> l). cbn -[insert].
    lia.
Qed.

Lemma on_storage_usage {A} k (m : method S silo_error A) s d :
  (forall b r b', m b = (r, b') ->
     usage (silo_base b') = usage (silo_base b) + d r) ->
  (d (Throw SiloError) = 0) ->
  let x := Strip.on_storage k m s in
  Strip.sbase x.2 = Strip.sbase s /\
  Strip.sum_of (fun b => usage (silo_base b)) (Strip.backends x.2) =
  Strip.sum_of (fun b => usage (silo_base b)) (Strip.backends s) + d x.1.
Proof.
  intros D Z0. unfold Strip.on_storage, on_nth.
  destruct (Strip.backends s !! _) as [b|] eqn:E.
  2: { cbn -[Strip.sum_of]. rewrite Z0. split; [done|lia]. }
  destruct (m b) as [r b'] eqn:Em. cbn -[Strip.sum_of insert]. split; [done|].
  rewrite (sum_of_insert _ _ _ _ _ E), (D _ _ _ Em). lia.
Qed.

#[export] Instance strip_usage : UsageSpec V (Strip.t S).
Proof.
  split; [done| | |].
  - intros. cbn. unfold Strip.get, Strip.on_storage. by destruct (on_nth _ _ _ _).
  - intros. cbn. unfold Strip.set, Strip.on_storage. by destruct (on_nth _ _ _ _).
  - intros. cbn. unfold Strip.erase, Strip.on_storage. by destruct (on_nth _ _ _ _).
Qed.

Lemma strip_set_base k v ins upd s :
  Strip.backends (Silo.set k v ins upd s).2 =
  (if ins || upd then Strip.backends (Strip.set k v ins upd s).2
   else Strip.backends s) /\
  (Silo.set k v ins upd s).1 =
  (if ins || upd then (Strip.set k v ins upd s).1 else Throw SiloAssert).
Proof.
  unfold Silo.set. destruct (ins || upd); [|done].
  unfold mbind, method_bind. cbn [impl_set Strip.strip_impl].
  destruct (Strip.set k v ins upd s) as [[d|e] s1]; [|done].
  rewrite !modify_base_usage. unfold reads.
  by destruct (step _ <=? _).
Qed.

Lemma strip_erase_base k s :
  Strip.backends (Silo.erase k s).2 = Strip.backends (Strip.erase k s).2 /\
  (Silo.erase k s).1 = (Strip.erase k s).1.
Proof.
  unfold Silo.erase, mbind, method_bind. cbn [impl_erase Strip.strip_impl].
  by destruct (Strip.erase k s) as [[d|e] s1].
Qed.

Lemma strip_op_accounts o s : strip_accounted s -> strip_accounted (run_op o s).
Proof.
  unfold strip_accounted. intros A. destruct o as [k|k v ins upd|k]; cbn [run_op].
  - change (Silo.get k s) with (Strip.on_storage k (Silo.get k) s).
    destruct (on_storage_usage k (Silo.get k) s (fun _ => 0)) as [-> ->]; [|done|lia].
    intros b r b' E. pose proof (get_usage k b) as U.
    change (impl_get k b) with (Silo.get k b) in U. rewrite E in U. cbn in U. lia.
  - destruct (Silo.set k v ins upd s) as [r s'] eqn:E.
    pose proof (silo_set_usage k v ins upd s r s' E) as U. cbn in U.
    pose proof (strip_set_base k v ins upd s) as [Bk Br]. rewrite E in Bk, Br.
    cbn [fst snd] in *. rewrite U, A, Bk, Br. destruct (ins || upd); [|cbn; lia].
    unfold Strip.set.
    destruct (on_storage_usage k (Silo.set k v ins upd) s delta_of) as [_ ->];
      [|done|done]. intros. by apply (silo_set_usage k v ins upd).
  - destruct (Silo.erase k s) as [r s'] eqn:E.
    pose proof (silo_erase_usage k s r s' E) as U. cbn in U.
    pose proof (strip_erase_base k s) as [Bk Br]. rewrite E in Bk, Br.
    cbn [fst snd] in *. rewrite U, A, Bk, Br.
    unfold Strip.erase.
    destruct (on_storage_usage k (Silo.erase k) s delta_of) as [_ ->];
      [|done|done]. intros. by apply (silo_erase_usage k).
Qed.
End StripUsage.

(** A strip reads what was written to it, and its usage remains the sum of the
    usages of its backends. *)
Theorem strip_stripes {V S : Type} `{SiloSpec V S} `{!UsageSpec V S}
    (l : list S) os k :
  l <> [] ->
  (forall b, b ∈ l -> silo_ok b /\ forall k, Address.wf k -> contents b k = None) ->
  Forall (fun o => Address.wf (op_key o)) os -> Address.wf k ->
  let s := run_ops os (Strip.create l) in
  Strip.striped s /\ strip_accounted s /\
  (Silo.get k s).1 =
    match contents s k with Some v => Ok v | None => Throw (MissingKey k) end /\
  (forall i b, Strip.backends s !! i = Some b ->
     contents b k <> None -> i = Strip.storage_of k s).
Proof.
  intros NE E W Wk s.
  assert (silo_ok (Strip.create l)) as O.
  { split; [done|]. intros i b Eb. destruct (E b) as [Ob C];
      [by eapply list_elem_of_lookup_2|]. split; [done|]. intros k' W' P.
    by rewrite C in P. }
  destruct (run_ops_others os _ O W) as [Os _]. fold s in Os.
  assert (strip_accounted (Strip.create l)) as A.
  { reflexivity. }
  split_and!; [exact Os| | |].
  - subst s. clear E W Wk O Os. unfold run_ops. revert A. generalize (Strip.create l).
    induction os as [|o os IH]; intros s A; [done|]. by apply IH, strip_op_accounts.
  - destruct (Silo.get k s) as [r s'] eqn:Eg.
    by destruct (silo_get_spec _ _ _ _ Os Wk Eg) as (_ & _ & ->).
  - intros i b Eb P. destruct Os as [_ B]. destruct (B i b Eb) as [_ X].
    symmetry. by apply X.
Qed.

(** ** Mirror *)

Module Mirror.
Section Mirror.
Context {V S : Type} `{SiloSpec V S}.

Record t := mkMirror {
  mbase : Base;
  balance_reads : bool;
  backends : list S;
  read_counter : Z;
  parallel : bool;
  schedule : nat -> list nat;
  calls : nat;
}.

Definition with_base (b : Base) (s : t) : t :=
  mkMirror b (balance_reads s) (backends s) (read_counter s) (parallel s)
    (schedule s) (calls s).
Definition set_backends (l : list S) (s : t) : t :=
  mkMirror (mbase s) (balance_reads s) l (read_counter s) (parallel s)
    (schedule s) (calls s).
(** The counter is an [unsigned int]. *)
Definition count_read (s : t) : t :=
  mkMirror (mbase s) (balance_reads s) (backends s)
    (wrap_u 32 (read_counter s + 1)) (parallel s) (schedule s) (calls s).
Definition count_call (s : t) : t :=
  mkMirror (mbase s) (balance_reads s) (backends s) (read_counter s)
    (parallel s) (schedule s) (Datatypes.S (calls s)).

Definition create (l : list S) (balance parallel : bool)
    (schedule : nat -> list nat) : t :=
  mkMirror (new_base None) balance l 0 parallel schedule 0.

Definition target (s : t) : nat :=
  if balance_reads s then
    Z.to_nat (read_counter s mod Z.of_nat (length (backends s)))
  else 0.

Definition get (k : Key) : method t silo_error V :=
  fun s =>
    let s := count_read s in
    let '(r, l) := on_nth (target s) SiloError (Silo.get k) (backends s) in
    (r, set_backends l s).

(** The order of the calls: that of the list, or the one in which the
    scheduler runs the threads of the scope. *)
Definition order (s : t) : list nat :=
  if parallel s then schedule s (calls s) else seq 0 (length (backends s)).

(** The calls in that order, up to the first that throws: it ends the scope. *)
Fixpoint on_order (m : method S silo_error Z) (o : list nat) (l : list S) :
    result silo_error unit * list S :=
  match o with
  | [] => (Ok tt, l)
  | i :: o =>
      match on_nth i SiloError m l with
      | (Ok _, l) => on_order m o l
      | (Throw e, l) => (Throw e, l)
      end
  end.

Definition on_all (m : method S silo_error Z) : method t silo_error Z :=
  fun s =>
    match on_order m (order s) (backends s) with
    | (Ok _, l) => (Ok 0, count_call (set_backends l s))
    | (Throw e, l) => (Throw e, count_call (set_backends l s))
    end.

Definition set (k : Key) (v : V) (ins upd : bool) : method t silo_error Z :=
  on_all (Silo.set k v ins upd).
Definition erase (k : Key) : method t silo_error Z := on_all (Silo.erase k).

Definition list_keys : method t silo_error (list Key) :=
  fun s =>
    let '(r, l) := on_nth 0 SiloError Silo.list_keys (backends s) in
    (r, set_backends l s).

#[export] Instance mirror_impl : SiloImpl V t := {|
  silo_base := mbase;
  set_silo_base := with_base;
  impl_get := get;
  impl_set := set;
  impl_erase := erase;
  impl_list := list_keys;
|}.

(** *** The promise *)

(** Every backend holds [f]. *)
Definition agree (f : Key -> option V) (l : list S) : Prop :=
  Forall (fun b => silo_ok b /\ same f (contents b)) l.

Definition lookup (s : t) (k : Key) : option V :=
  b ← backends s !! 0%nat; contents b k.

(** Each backend has one thread. *)
Definition scheduled (s : t) : Prop :=
  forall n, schedule s n ≡ₚ seq 0 (length (backends s)).

Definition mirrored (s : t) : Prop :=
  backends s <> [] /\ scheduled s /\ agree (lookup s) (backends s).

Lemma same_sym (f f' : Key -> option V) : same f f' -> same f' f.
Proof. intros Sm k W. symmetry. by apply Sm. Qed.
Lemma same_trans (f f' f'' : Key -> option V) :
  same f f' -> same f' f'' -> same f f''.
Proof. intros A B k W. by rewrite B, A. Qed.

Lemma agree_same f f' l : same f f' -> agree f l -> agree f' l.
Proof.
  intros Sm A. eapply Forall_impl; [exact A|]. intros b [O B]. split; [done|].
  eapply same_trans; [by apply same_sym|done].
Qed.

Lemma agree_lookup f s :
  backends s <> [] -> agree f (backends s) -> same f (lookup s).
Proof.
  unfold lookup. destruct (backends s) as [|b l]; [done|].
  intros _ A. destruct (proj1 (Forall_cons _ _ _) A) as [[_ Sm] _]. exact Sm.
Qed.

Lemma agree_mirrored f s :
  backends s <> [] -> scheduled s -> agree f (backends s) -> mirrored s.
Proof.
  intros NE Sc A. split_and!; [done..|]. eapply agree_same; [|done]. by apply agree_lookup.
Qed.

(** [err] is what every call throws, if it does; otherwise those that ran,
    the indices out of [o], lead to [f']. *)
Definition half_done (f f' : Key -> option V) (o : list nat) (l : list S) : Prop :=
  forall i b, l !! i = Some b ->
    silo_ok b /\ if decide (i ∈ o) then same f (contents b) else same f' (contents b).

Lemma half_done_step f f' i o l b b' :
  NoDup (i :: o) -> half_done f f' (i :: o) l -> l !! i = Some b ->
  silo_ok b' -> same f' (contents b') -> half_done f f' o (<[i := b']> l).
Proof.
  intros [Ni _]%NoDup_cons H1 E O Sb j b0 Ej.
  destruct (decide (i = j)) as [<-|N].
  - rewrite list_lookup_insert_eq in Ej by (by eapply lookup_lt_Some).
    simplify_eq. split; [done|]. by rewrite decide_False.
  - rewrite list_lookup_insert_ne in Ej by done. destruct (H1 j b0 Ej) as [O0 S0].
    split; [done|]. destruct (decide (j ∈ o)) as [J|J].
    + by rewrite decide_True in S0 by (by apply elem_of_cons; right).
    + rewrite decide_False in S0; [done|]. by intros [->|?]%elem_of_cons.
Qed.

Lemma on_order_agree (m : method S silo_error Z) f f' o l r l' :
  NoDup o -> (forall i, i ∈ o -> (i < length l)%nat) -> half_done f f' o l ->
  (forall b r b', silo_ok b -> same f (contents b) -> m b = (r, b') ->
     silo_ok b' /\ is_ok r = true /\ same f' (contents b')) ->
  on_order m o l = (r, l') ->
  is_ok r = true /\ length l' = length l /\ half_done f f' [] l'.
Proof.
  intros ND L Hd M. revert l Hd L r l'.
  induction o as [|i o IH]; intros l Hd L r l' E; cbn [on_order] in E.
  { by simplify_eq. }
  destruct (lookup_lt_is_Some_2 l i) as [b Eb]; [apply L, list_elem_of_here|].
  unfold on_nth in E. rewrite Eb in E. destruct (m b) as [rb b'] eqn:Em.
  destruct (Hd _ _ Eb) as [Ob Sb].
  rewrite decide_True in Sb by apply list_elem_of_here.
  destruct (M _ _ _ Ob Sb Em) as (Ob' & Ok1 & Sb'). destruct rb as [a|]; [|done].
  destruct (IH (proj2 (proj1 (NoDup_cons _ _) ND)) (<[i := b']> l)
    ltac:(by eapply half_done_step)
    ltac:(intros j Hj; rewrite length_insert; by apply L; right) _ _ E)
    as (Ir & Len & Hd'). by rewrite length_insert in Len.
Qed.

Lemma half_done_all f f' l : half_done f f' [] l -> agree f' l.
Proof. intros Hd. apply Forall_lookup. intros i b E. exact (Hd i b E). Qed.

Lemma half_done_none f f' o l :
  (forall i, (i < length l)%nat -> i ∈ o) -> agree f l -> half_done f f' o l.
Proof.
  intros All A i b E. destruct (Forall_lookup_1 _ _ _ _ A E) as [O Sb].
  split; [done|]. rewrite decide_True; [done|]. apply All.
  by eapply lookup_lt_Some.
Qed.

Lemma order_all s :
  scheduled s -> NoDup (order s) /\
  forall i, i ∈ order s <-> (i < length (backends s))%nat.
Proof.
  intros Sc. assert (order s ≡ₚ seq 0 (length (backends s))) as P.
  { unfold order. destruct (parallel s); [apply Sc|done]. }
  split; [rewrite P; apply NoDup_ListNoDup, seq_NoDup|].
  intros i. rewrite P, elem_of_seq. lia.
Qed.

(** What every backend does the same, all do. *)
Lemma on_all_agree (m : method S silo_error Z) f f' err s r s' :
  mirrored s -> same f (lookup s) ->
  (forall b r b', silo_ok b -> same f (contents b) -> m b = (r, b') ->
     silo_ok b' /\
     match err with
     | Some e => r = Throw e /\ same f (contents b')
     | None => is_ok r = true /\ same f' (contents b')
     end) ->
  on_all m s = (r, s') ->
  mirrored s' /\
  match err with
  | Some e => r = Throw e /\ same f (lookup s')
  | None => is_ok r = true /\ same f' (lookup s')
  end.
Proof.
  intros (NE & Sc & A) Sm M E. unfold on_all in E.
  apply (agree_same _ f) in A; [|by apply same_sym].
  destruct (order_all s Sc) as [ND All].
  destruct (on_order m (order s) (backends s)) as [rl l'] eqn:El.
  assert (forall f0, length l' = length (backends s) -> agree f0 l' ->
    mirrored (count_call (set_backends l' s)) /\
    same f0 (lookup (count_call (set_backends l' s)))) as Fin.
  { intros f0 Len A'. assert (l' <> []) as NE'
      by (by destruct l', (backends s)). split.
    - apply (agree_mirrored f0); [done| |done]. intros n. cbn. by rewrite Len.
    - by apply agree_lookup. }
  destruct err as [e|].
  - destruct (order s) as [|i o] eqn:Eo.
    { destruct (backends s) as [|b l]; [done|].
      assert (0%nat ∈ ([] : list nat)) as X by (apply All; cbn; lia).
      by apply elem_of_nil in X. }
    destruct (lookup_lt_is_Some_2 (backends s) i) as [b Eb].
    { apply All, list_elem_of_here. }
    destruct (Forall_lookup_1 _ _ _ _ A Eb) as [Ob Sb].
    cbn [on_order] in El. unfold on_nth in El. rewrite Eb in El.
    destruct (m b) as [rb b'] eqn:Em.
    destruct (M _ _ _ Ob Sb Em) as (Ob' & -> & Sb'). simplify_eq.
    destruct (Fin f) as [M' Sf]; [apply length_insert|by apply Forall_insert|].
    done.
  - destruct (on_order_agree m f f' (order s) (backends s) rl l' ND
      ltac:(intros; by apply All)
      ltac:(apply half_done_none; [intros; by apply All|done]) M El)
      as (Ir & Len & Hd%half_done_all).
    destruct (Fin f' Len Hd) as [M' Sf]. destruct rl; [|done]. by simplify_eq.
Qed.

Lemma on_nth_read {R} i (m : method S silo_error R) s r l' :
  mirrored s -> (i < length (backends s))%nat ->
  (forall b r b', silo_ok b -> m b = (r, b') ->
     silo_ok b' /\ same (contents b) (contents b')) ->
  on_nth i SiloError m (backends s) = (r, l') ->
  l' <> [] /\ length l' = length (backends s) /\ agree (lookup s) l' /\
  exists b b', silo_ok b /\ same (lookup s) (contents b) /\ m b = (r, b').
Proof.
  intros (NE & Sc & A) L M E. unfold on_nth in E.
  destruct (lookup_lt_is_Some_2 _ _ L) as [b Eb]. rewrite Eb in E.
  destruct (m b) as [rb b'] eqn:Em. simplify_eq.
  destruct (Forall_lookup_1 _ _ _ _ A Eb) as [Ob Sb].
  destruct (M _ _ _ Ob Em) as [Ob' Sb']. split_and!.
  - intros Z0. apply (f_equal length) in Z0. rewrite length_insert in Z0.
    cbn in Z0. lia.
  - apply length_insert.
  - apply Forall_insert; [done|]. split; [done|]. by eapply same_trans.
  - eauto.
Qed.

Lemma target_lt s : backends s <> [] -> (target s < length (backends s))%nat.
Proof.
  intros NE. unfold target. destruct (backends s) as [|b l]; [done|].
  destruct (balance_reads s); [|cbn; lia].
  pose proof (Z.mod_pos_bound (read_counter s) (Z.of_nat (length (b :: l)))
    ltac:(cbn; lia)). lia.
Qed.

#[export] Instance mirror_spec `{!Unrefusing V S} : SiloSpec V t.
Proof.
  refine {| contents := lookup; silo_ok := mirrored |}; try done.
  - intros k s r s' M W E. cbn in E. unfold get in E.
    assert (mirrored (count_read s)) as M' by exact M.
    destruct (on_nth _ _ _ _) as [r0 l'] eqn:El.
    destruct (on_nth_read _ _ (count_read s) _ _ M'
      (target_lt _ (proj1 M')) ltac:(intros b rb b' Ob Eb;
        destruct (silo_get_spec _ _ _ _ Ob W Eb) as [? [? _]]; done) El)
      as (NE & Len & A & b & b' & Ob & Sb & Eb).
    destruct (silo_get_spec _ _ _ _ Ob W Eb) as [_ [_ Er]]. simplify_eq.
    split.
    { apply (agree_mirrored (lookup (count_read s))); [done| |done].
      intros n. cbn in *. rewrite Len. apply M. }
    split.
    + by apply (agree_lookup _ (set_backends l' (count_read s))).
    + by rewrite Sb.
  - intros k v ins upd s r s' M W B E. cbn in E.
    destruct (on_all_agree (Silo.set k v ins upd) (lookup s)
      (fun k' => if decide (k' = k) then Some v else lookup s k')
      (set_error (present (lookup s k)) ins upd k) s r s' M ltac:(done))
      as [M' X]; [|done|].
    + intros b rb b' Ob Sb Eb.
      pose proof (silo_set_spec _ _ _ _ _ _ _ Ob W Eb) as Y. rewrite B in Y.
      destruct Y as [Ob' Y]. split; [done|]. rewrite <- Sb by done.
      destruct rb as [d|e]; cbn in Y; destruct Y as [Y Z0].
      * rewrite Y. split; [done|]. intros k' W'. rewrite Z0 by done.
        by rewrite Sb.
      * destruct Z0 as [->|Rf]; [|by destruct (never_refuses _ _ _ _ _ _ _ Ob W Eb)].
        split; [done|]. by eapply same_trans.
    + split; [done|]. unfold set_outcome.
      destruct (set_error _ _ _ _) as [e|]; destruct X as [Er X].
      * subst r. split; [done|by left].
      * destruct r; [|done]. by split.
  - intros k s r s' M W E. cbn in E.
    destruct (on_all_agree (Silo.erase k) (lookup s)
      (fun k' => if decide (k' = k) then None else lookup s k')
      (if present (lookup s k) then None else Some (MissingKey k)) s r s' M
      ltac:(done)) as [M' X]; [|done|].
    + intros b rb b' Ob Sb Eb.
      destruct (silo_erase_spec _ _ _ _ Ob W Eb) as [Ob' Y]. split; [done|].
      rewrite <- Sb by done. destruct rb as [d|e]; cbn in Y.
      * destruct Y as [Y Z0]. destruct (contents b k); [|done]. cbn.
        split; [done|]. intros k' W'. rewrite Z0 by done. by rewrite Sb.
      * destruct Y as (Y & -> & ->). cbn. split; [done|]. by eapply same_trans.
    + split; [done|]. unfold erase_outcome.
      destruct (lookup s k) eqn:Lk; cbn in X; destruct X as [Er X].
      * destruct r; [|done]. by split.
      * subst r. by split_and!.
  - intros s r s' M E. cbn in E. unfold list_keys in E.
    destruct (on_nth _ _ _ _) as [r0 l'] eqn:El.
    assert (0 < length (backends s))%nat as L0.
    { destruct M as [NE _]. destruct (backends s); [done|]. cbn. lia. }
    destruct (on_nth_read _ _ s _ _ M L0 ltac:(intros b rb b' Ob Eb;
        destruct (list_spec _ _ _ Ob Eb) as (? & ? & _); done) El)
      as (NE & Len & A & b & b' & Ob & Sb & Eb).
    destruct (list_spec _ _ _ Ob Eb) as (_ & _ & Hl). simplify_eq.
    split_and!; [apply (agree_mirrored (lookup s)); [done| |done];
      intros n; cbn in *; rewrite Len; apply M|by apply (agree_lookup _ (set_backends l' s))|].
    intros l -> k W. rewrite (Hl l) by done. by rewrite Sb.
Defined.
End Mirror.
Arguments t S : clear implicits.
End Mirror.
#[export] Existing Instances Mirror.mirror_impl Mirror.mirror_spec.

Section MirrorTheorems.
Context {V S : Type} `{SiloSpec V S}.

(** The backends of a mirror stay copies of each other, so that what is read
    does not depend on the one that is asked, as long as none runs out of
    space. *)
Theorem mirror_mirrors `{!Unrefusing V S} (s : Mirror.t S) os k i b :
  Mirror.mirrored s -> Forall (fun o => Address.wf (op_key o)) os ->
  Address.wf k ->
  let s' := run_ops os s in
  Mirror.backends s' !! i = Some b ->
  Mirror.mirrored s' /\ (Silo.get k s').1 = (Silo.get k b).1.
Proof.
  intros M F W s' Eb.
  assert (silo_ok s) as O by exact M.
  destruct (run_ops_others os s O F) as [M' _]. fold s' in M'.
  split; [exact M'|]. assert (Mirror.mirrored s') as (NE & _ & A) by exact M'.
  destruct (Forall_lookup_1 _ _ _ _ A Eb) as [Ob Sb].
  destruct (Silo.get k s') as [r s1] eqn:E. destruct (Silo.get k b) as [rb b1] eqn:E'.
  destruct (silo_get_spec _ _ _ _ M' W E) as (_ & _ & ->).
  destruct (silo_get_spec _ _ _ _ Ob W E') as (_ & _ & ->).
  cbn. by rewrite Sb.
Qed.

(** When a backend refuses, those before it were written: the call throws and
    the value is nonetheless read. *)
Theorem mirror_set_not_atomic k v ins upd (s : Mirror.t S) b1 b2 d b1' e b2' :
  Mirror.backends s = [b1; b2] -> Mirror.balance_reads s = false ->
  Mirror.order s = [0; 1]%nat ->
  silo_ok b1 -> Address.wf k -> ins || upd = true ->
  Silo.set k v ins upd b1 = (Ok d, b1') ->
  Silo.set k v ins upd b2 = (Throw e, b2') ->
  let x := Silo.set k v ins upd s in
  x.1 = Throw e /\ (Silo.get k x.2).1 = Ok v.
Proof.
  intros Eb Bal Or O W B E1 E2 x.
  pose proof (silo_set_spec _ _ _ _ _ _ _ O W E1) as X. rewrite B in X.
  destruct X as (O1 & _ & St).
  assert (x = (Throw e, Mirror.count_call (Mirror.set_backends [b1'; b2'] s))) as ->.
  { unfold x, Silo.set. rewrite B. unfold mbind, method_bind.
    cbn [impl_set Mirror.mirror_impl]. unfold Mirror.set, Mirror.on_all.
    rewrite Eb, Or. cbn [Mirror.on_order]. unfold on_nth.
    cbn [lookup list_lookup]. rewrite E1. cbn. by rewrite E2. }
  split; [done|]. cbn [snd]. unfold Silo.get. cbn [impl_get Mirror.mirror_impl].
  unfold Mirror.get, Mirror.target.
  cbn [Mirror.balance_reads Mirror.count_read Mirror.count_call
    Mirror.set_backends Mirror.backends].
  rewrite Bal. unfold on_nth. cbn [lookup list_lookup].
  destruct (Silo.get k b1') as [r b1''] eqn:Eg.
  destruct (silo_get_spec _ _ _ _ O1 W Eg) as (_ & _ & ->).
  rewrite St, decide_True by done. done.
Qed.
End MirrorTheorems.

(** ** Crypt *)

(** [elle::cryptography::SecretKey]: a key made of a password enciphers, with
    some randomness, what the same key deciphers. *)
Class Cipher (V : Type) := {
  encipher : bytes -> nat -> V -> V;
  decipher : bytes -> V -> option V;
  decipher_encipher : forall key rnd v,
    decipher key (encipher key rnd v) = Some v;
}.

Module Crypt.
Section Crypt.
Context {V S : Type} `{SiloSpec V S} `{Cipher V}.

(** [rng] numbers the draws of the random generator. *)
Record t := mkCrypt {
  cbase : Base;
  backend : S;
  password : bytes;
  salt : bool;
  rng : nat;
}.

Definition with_base (b : Base) (s : t) : t :=
  mkCrypt b (backend s) (password s) (salt s) (rng s).
Definition set_backend (b : S) (s : t) : t :=
  mkCrypt (cbase s) b (password s) (salt s) (rng s).
Definition draw (s : t) : t :=
  mkCrypt (cbase s) (backend s) (password s) (salt s) (Datatypes.S (rng s)).

Definition create (b : S) (password : bytes) (salt : bool) (seed : nat) : t :=
  mkCrypt (new_base None) b password salt seed.

Definition secret_key (s : t) (k : Key) : bytes :=
  if salt s then password s ++ Address.print true false k else password s.

Definition on_backend {A} (m : method S silo_error A) : method t silo_error A :=
  fun s => let '(r, b) := m (backend s) in (r, set_backend b s).

Definition get (k : Key) : method t silo_error V :=
  enc ← on_backend (Silo.get k);
  key ← reads (fun s => secret_key s k);
  match decipher key enc with
  | Some v => mret v
  | None => throw SiloError
  end.

Definition set (k : Key) (v : V) (ins upd : bool) : method t silo_error Z :=
  s ← read;
  modify draw;;
  on_backend (Silo.set k (encipher (secret_key s k) (rng s) v) ins upd).

Definition erase (k : Key) : method t silo_error Z := on_backend (Silo.erase k).
Definition list_keys : method t silo_error (list Key) := on_backend Silo.list_keys.

#[export] Instance crypt_impl : SiloImpl V t := {|
  silo_base := cbase;
  set_silo_base := with_base;
  impl_get := get;
  impl_set := set;
  impl_erase := erase;
  impl_list := list_keys;
|}.

(** *** The promise *)

(** Everything in the backend deciphers. *)
Definition readable (s : t) : Prop :=
  silo_ok (backend s) /\
  forall k v, Address.wf k -> contents (backend s) k = Some v ->
    is_Some (decipher (secret_key s k) v).

Definition lookup (s : t) (k : Key) : option V :=
  v ← contents (backend s) k; decipher (secret_key s k) v.

Lemma lookup_present s k :
  readable s -> Address.wf k ->
  present (lookup s k) = present (contents (backend s) k).
Proof.
  intros [_ R] W. unfold lookup. destruct (contents (backend s) k) eqn:E; [|done].
  cbn. by destruct (R k _ W E) as [? ->].
Qed.

Lemma present_none {A B} (o : option A) (o' : option B) :
  present o = present o' -> (o = None <-> o' = None).
Proof. by destruct o, o'. Qed.

Lemma same_backend s b n :
  readable s -> silo_ok b -> same (contents (backend s)) (contents b) ->
  let s' := mkCrypt (cbase s) b (password s) (salt s) n in
  readable s' /\ same (lookup s) (lookup s').
Proof.
  intros [_ R] Ob Sb s'. split; [split; [done|]|]; intros k.
  - intros v W E. cbn in E. rewrite Sb in E by done. by apply R.
  - intros W. unfold lookup. cbn. by rewrite Sb.
Qed.

#[export] Instance crypt_spec : SiloSpec V t.
Proof.
  refine {| contents := lookup; silo_ok := readable |}; try done.
  - intros k s r s' R W E. cbn in E.
    unfold get, on_backend, reads, mbind, method_bind in E.
    destruct (Silo.get k (backend s)) as [rb b] eqn:Eb.
    destruct R as [Ob R]. destruct (silo_get_spec _ _ _ _ Ob W Eb) as [Ob' [Sb ->]].
    destruct (same_backend s b (rng s) (conj Ob R) Ob' Sb) as [R' Sl].
    assert (s' = set_backend b s /\
      r = match lookup s k with Some v => Ok v | None => Throw (MissingKey k) end)
      as [-> ->]; [|by split].
    unfold lookup. destruct (contents (backend s) k) as [v|] eqn:Ev; cbn.
    + destruct (R k v W Ev) as [p Ep].
      assert (decipher (secret_key (set_backend b s) k) v = Some p) as Ep' by exact Ep.
      rewrite Ep' in E. unfold mret, method_ret in E. rewrite Ep. by simplify_eq.
    + by simplify_eq.
  - intros k v ins upd s r s' R W B E. cbn in E.
    unfold set, on_backend, read, modify, mbind, method_bind in E.
    set (c := encipher (secret_key s k) (rng s) v) in *.
    destruct (Silo.set k c ins upd (backend (draw s))) as [rb b] eqn:Eb.
    pose proof (lookup_present s k R W) as P. pose proof R as [Ob R0].
    pose proof (silo_set_spec _ _ _ _ _ _ _ Ob W Eb) as X. rewrite B in X.
    destruct X as [Ob' X]. unfold set_outcome in *. rewrite P. simplify_eq.
    destruct r as [d|e]; destruct X as [X Y].
    + split.
      * split; [done|]. intros k' v' W' E'. cbn in E'. rewrite Y in E' by done.
        destruct (decide (k' = k)) as [->|]; [|by apply R0].
        simplify_eq. eexists. apply decipher_encipher.
      * split; [done|]. intros k' W'. unfold lookup. cbn. rewrite Y by done.
        destruct (decide (k' = k)) as [->|]; [|done]. cbn. apply decipher_encipher.
    + destruct (same_backend s b (Datatypes.S (rng s)) R Ob' X) as [R' Sl].
      by split.
  - intros k s r s' R W E. cbn in E. unfold erase, on_backend in E.
    destruct (Silo.erase k (backend s)) as [rb b] eqn:Eb.
    pose proof (lookup_present s k R W) as P%present_none. pose proof R as [Ob R0].
    destruct (silo_erase_spec _ _ _ _ Ob W Eb) as [Ob' X].
    unfold erase_outcome in *. simplify_eq.
    destruct r as [d|e]; destruct X as [X Y].
    + split.
      * split; [done|]. intros k' v' W' E'. cbn in E'. rewrite Y in E' by done.
        destruct (decide (k' = k)) as [->|]; [done|by apply R0].
      * split; [by rewrite P|]. intros k' W'. unfold lookup. cbn.
        rewrite Y by done. by destruct (decide (k' = k)).
    + destruct (same_backend s b (rng s) R Ob' X) as [R' Sl]. split; [done|].
      split; [done|]. by rewrite P.
  - intros s r s' R E. cbn in E. unfold list_keys, on_backend in E.
    destruct (Silo.list_keys (backend s)) as [rb b] eqn:Eb.
    destruct (list_spec _ _ _ (proj1 R) Eb) as (Ob' & Sb & Hl). simplify_eq.
    destruct (same_backend s b (rng s) R Ob' Sb) as [R' Sl].
    split_and!; [done..|]. intros l -> k W. rewrite (Hl l) by done.
    pose proof (lookup_present s k R W) as P%present_none. by rewrite P.
Defined.
End Crypt.
Arguments t S : clear implicits.
End Crypt.
#[export] Existing Instances Crypt.crypt_impl Crypt.crypt_spec.

Section CryptTheorems.
Context {V S : Type} `{SiloSpec V S} `{Cipher V}.

(** A crypt silo reads back what was stored in it, and what its backend then
    holds is enciphered under the key of that address. *)
Theorem crypt_stores_enciphered k v ins upd (s : Crypt.t S) :
  silo_ok s -> Address.wf k -> ins || upd = true ->
  let x := Silo.set k v ins upd s in
  is_ok x.1 = true ->
  (Silo.get k x.2).1 = Ok v /\
  contents (Crypt.backend x.2) k =
    Some (encipher (Crypt.secret_key s k) (Crypt.rng s) v).
Proof.
  intros O W B x Ok1. destruct x as [r s'] eqn:E. subst x. cbn [fst snd] in *.
  pose proof (silo_set_spec _ _ _ _ _ _ _ O W E) as X. rewrite B in X.
  destruct X as [O' X], r as [d|]; [|done]. destruct X as [_ St]. split.
  - destruct (Silo.get k s') as [r s1] eqn:Eg.
    destruct (silo_get_spec _ _ _ _ O' W Eg) as (_ & _ & ->).
    rewrite St by done. by rewrite decide_True.
  - unfold Silo.set in E. rewrite B in E. unfold mbind, method_bind in E.
    cbn [impl_set Crypt.crypt_impl] in E.
    unfold Crypt.set, Crypt.on_backend, read, modify, mbind, method_bind in E.
    destruct (Silo.set _ _ _ _ (Crypt.backend (Crypt.draw s))) as [rb b] eqn:Eb.
    pose proof (silo_set_spec _ _ _ _ _ _ _ (proj1 O) W Eb) as Y. rewrite B in Y.
    destruct Y as [_ Y], rb as [d'|]; [|done]. destruct Y as [_ Y].
    assert (Crypt.backend s' = b) as ->.
    { revert E. unfold Silo.modify_base, modify, reads, when.
      destruct (step _ <=? _); cbn; by intros [= <- <-]. }
    rewrite Y by done. by rewrite decide_True.
Qed.
End CryptTheorems.

(** ** Latency *)

Module Latency.
Section Latency.
Context {V S : Type} `{SiloSpec V S}.

(** The waits change nothing: only the backend is state. *)
Record t := mkLatency {
  lbase : Base;
  backend : S;
}.

Definition with_base (b : Base) (s : t) : t := mkLatency b (backend s).
Definition set_backend (b : S) (s : t) : t := mkLatency (lbase s) b.
Definition create (b : S) : t := mkLatency (new_base None) b.

Definition on_backend {A} (m : method S silo_error A) : method t silo_error A :=
  fun s => let '(r, b) := m (backend s) in (r, set_backend b s).

Definition get (k : Key) : method t silo_error V := on_backend (Silo.get k).
Definition set (k : Key) (v : V) (ins upd : bool) : method t silo_error Z :=
  on_backend (Silo.set k v ins upd);;
  mret 0.
Definition erase (k : Key) : method t silo_error Z :=
  on_backend (Silo.erase k);;
  mret 0.
Definition list_keys : method t silo_error (list Key) := on_backend Silo.list_keys.

#[export] Instance latency_impl : SiloImpl V t := {|
  silo_base := lbase;
  set_silo_base := with_base;
  impl_get := get;
  impl_set := set;
  impl_erase := erase;
  impl_list := list_keys;
|}.

#[export] Instance latency_spec : SiloSpec V t.
Proof.
  refine {| contents := fun s => contents (backend s);
            silo_ok := fun s => silo_ok (backend s) |}; try done.
  - intros k s r s' O W E. cbn in E. unfold get, on_backend in E.
    destruct (Silo.get k (backend s)) as [rb b] eqn:Eb. simplify_eq.
    by apply (silo_get_spec _ _ _ _ O W Eb).
  - intros k v ins upd s r s' O W B E. cbn in E.
    unfold set, on_backend, mbind, method_bind in E.
    destruct (Silo.set k v ins upd (backend s)) as [rb b] eqn:Eb.
    pose proof (silo_set_spec _ _ _ _ _ _ _ O W Eb) as X. rewrite B in X.
    unfold mret, method_ret in E. by destruct rb; simplify_eq.
  - intros k s r s' O W E. cbn in E.
    unfold erase, on_backend, mbind, method_bind in E.
    destruct (Silo.erase k (backend s)) as [rb b] eqn:Eb.
    pose proof (silo_erase_spec _ _ _ _ O W Eb) as X.
    unfold mret, method_ret in E. by destruct rb; simplify_eq.
  - intros s r s' O E. cbn in E. unfold list_keys, on_backend in E.
    destruct (Silo.list_keys (backend s)) as [rb b] eqn:Eb. simplify_eq.
    by apply (list_spec _ _ _ O Eb).
Defined.
End Latency.
Arguments t S : clear implicits.
End Latency.
#[export] Existing Instances Latency.latency_impl Latency.latency_spec.

(** *** Silos that do not account *)

Section Silent.
Context {V S : Type} `{UsageSpec V S}.

Lemma silent_op o (s : S) :
  (forall k v ins upd s, delta_of (Silo.set k v ins upd s).1 = 0) ->
  (forall k s, delta_of (Silo.erase k s).1 = 0) ->
  usage (silo_base (run_op o s)) = usage (silo_base s).
Proof.
  intros Zs Ze. destruct o as [k|k v ins upd|k]; cbn [run_op].
  - apply get_usage.
  - destruct (Silo.set k v ins upd s) as [r s'] eqn:E.
    pose proof (silo_set_usage _ _ _ _ _ _ _ E) as U.
    pose proof (Zs k v ins upd s) as X. rewrite E in X. cbn in *. lia.
  - destruct (Silo.erase k s) as [r s'] eqn:E.
    pose proof (silo_erase_usage _ _ _ _ E) as U.
    pose proof (Ze k s) as X. rewrite E in X. cbn in *. lia.
Qed.

Lemma silent_ops os (s : S) :
  (forall k v ins upd s, delta_of (Silo.set k v ins upd s).1 = 0) ->
  (forall k s, delta_of (Silo.erase k s).1 = 0) ->
  usage (silo_base (run_ops os s)) = usage (silo_base s).
Proof.
  intros Zs Ze. revert s. induction os as [|o os IH]; intros s; [done|].
  unfold run_ops in *. cbn. rewrite IH. by apply silent_op.
Qed.

(** The public methods answer what the virtual ones do. *)
Lemma silo_set_answer k v ins upd (s : S) :
  (Silo.set k v ins upd s).1 =
  if ins || upd then (impl_set k v ins upd s).1 else Throw SiloAssert.
Proof.
  unfold Silo.set. destruct (ins || upd); [|done]. unfold mbind, method_bind.
  destruct (impl_set k v ins upd s) as [[d|e] s1]; [|done].
  rewrite !modify_base_usage. unfold reads. by destruct (step _ <=? _).
Qed.

Lemma silo_erase_answer k (s : S) :
  (Silo.erase k s).1 = (impl_erase k s).1.
Proof.
  unfold Silo.erase, mbind, method_bind.
  by destruct (impl_erase k s) as [[d|e] s1].
Qed.
End Silent.

Section Forgets.
Context {V S : Type} `{SiloSpec V S}.

#[export] Instance mirror_usage : UsageSpec V (Mirror.t S).
Proof.
  split; [done| | |].
  - intros. cbn. unfold Mirror.get. by destruct (on_nth _ _ _ _).
  - intros. cbn. unfold Mirror.set, Mirror.on_all. by destruct (Mirror.on_order _ _ _) as [[]].
  - intros. cbn. unfold Mirror.erase, Mirror.on_all.
    by destruct (Mirror.on_order _ _ _) as [[]].
Qed.

#[export] Instance latency_usage : UsageSpec V (Latency.t S).
Proof.
  split; [done| | |].
  - intros. cbn. unfold Latency.get, Latency.on_backend.
    by destruct (Silo.get _ _).
  - intros. cbn. unfold Latency.set, Latency.on_backend, mbind, method_bind.
    by destruct (Silo.set _ _ _ _ _) as [[]].
  - intros. cbn. unfold Latency.erase, Latency.on_backend, mbind, method_bind.
    by destruct (Silo.erase _ _) as [[]].
Qed.

(** A mirror and a silo with latency answer 0 to every store and erasure, so
    that their usage never changes, whatever is stored. *)
Theorem mirror_and_latency_forget_usage os (m : Mirror.t S) (l : Latency.t S) :
  usage (silo_base (run_ops os m)) = usage (silo_base m) /\
  usage (silo_base (run_ops os l)) = usage (silo_base l).
Proof.
  split; apply silent_ops; intros;
    rewrite ?silo_set_answer, ?silo_erase_answer; try case_match; try done; cbn.
  - unfold Mirror.set, Mirror.on_all. by destruct (Mirror.on_order _ _ _) as [[]].
  - unfold Mirror.erase, Mirror.on_all. by destruct (Mirror.on_order _ _ _) as [[]].
  - unfold Latency.set, Latency.on_backend, mbind, method_bind.
    by destruct (Silo.set _ _ _ _ _) as [[]].
  - unfold Latency.erase, Latency.on_backend, mbind, method_bind.
    by destruct (Silo.erase _ _) as [[]].
Qed.
End Forgets.

(** ** Concrete adapters *)

Lemma memory_keeps_usage {V : Type} `{Sized V} : UsageSpec V (Memory.t V).
Proof.
  split; [done| | |].
  - intros k s. cbn. by rewrite Memory.find_keeps.
  - intros k v ins upd s. cbn. unfold Memory.set, Memory.find. monad_unfold.
    destruct (Memory.blocks s !! k) eqn:E, ins, upd; cbn; rewrite ?E; done.
  - intros k s. cbn. unfold Memory.erase, Memory.find. monad_unfold.
    by destruct (Memory.blocks s !! k) eqn:E.
Qed.
#[export] Existing Instance memory_keeps_usage.

Lemma memory_never_refuses {V : Type} `{Sized V} : Unrefusing V (Memory.t V).
Proof.
  intros k v ins upd b e b' _ W E (d & u & c & ->).
  pose proof (silo_set_answer (S := Memory.t V) k v ins upd b) as A. rewrite E in A.
  cbn in A. destruct (ins || upd); [|done].
  revert A. unfold Memory.set, Memory.find. monad_unfold.
  destruct (Memory.blocks b !! k) eqn:E', ins, upd; cbn; rewrite ?E'; done.
Qed.
#[export] Existing Instance memory_never_refuses.

Section Instances.
Abbreviation memory := (Memory.t bytes).

(** A cipher: each byte is shifted by the sum of the key, after the draw. *)
#[export] Instance caesar : Cipher bytes.
Proof.
  refine {| encipher := fun key rnd v => Z.of_nat rnd :: map (fun x => x + foldr Z.add 0 key) v;
            decipher := fun key v => match v with
              | [] => None
              | _ :: v => Some (map (fun x => x - foldr Z.add 0 key) v) end |}.
  intros key rnd v. f_equal. rewrite map_map. rewrite <- (map_id v) at 2.
  apply map_ext. intros. lia.
Defined.

Lemma strip_stripes_witness :
  let l := [Memory.create : memory; Memory.create : memory] in
  let os := [SetOp key1 [1; 2; 3] true false; SetOp key2 [4] true false] in
  let s := run_ops os (Strip.create l) in
  Strip.striped s /\ (Silo.get key1 s).1 = Ok [1; 2; 3].
Proof.
  intros l os s.
  assert (l <> []) as NE by discriminate.
  assert (forall b, b ∈ l -> silo_ok b /\
            forall k, Address.wf k -> contents b k = None) as E.
  { intros b Hb. assert (b = Memory.create) as ->.
    { apply elem_of_cons in Hb. destruct Hb as [->|Hb]; [reflexivity|].
      apply elem_of_cons in Hb. destruct Hb as [->|Hb]; [reflexivity|].
      exfalso. exact (not_elem_of_nil _ Hb). }
    split; [exact I|]. intros k _. apply lookup_empty. }
  assert (Forall (fun o => Address.wf (op_key o)) os) as F.
  { apply Forall_cons_2; [exact Address.sample_wf|].
    apply Forall_cons_2; [exact key2_wf|]. apply Forall_nil_2. }
  destruct (strip_stripes l os key1 NE E F Address.sample_wf) as (A & _ & _ & _).
  split; [exact A|]. vm_compute. reflexivity.
Defined.

Definition two_memories : Mirror.t memory :=
  Mirror.create [Memory.create; Memory.create] true true (fun _ => [1; 0]%nat).

Lemma mirror_mirrors_witness :
  let os := [SetOp key1 [1; 2; 3] true false; GetOp key1] in
  let s' := run_ops os two_memories in
  Mirror.mirrored s' /\
  exists b, Mirror.backends s' !! 1%nat = Some b /\
    (Silo.get key1 s').1 = (Silo.get key1 b).1.
Proof.
  intros os s'.
  assert (Mirror.mirrored two_memories) as M.
  { split; [discriminate|]. split; [intros n; apply perm_swap|]. do 2 (apply Forall_cons_2; [split; [exact I|]; intros k W; reflexivity|]).
    apply Forall_nil_2. }
  assert (Forall (fun o => Address.wf (op_key o)) os) as F.
  { do 2 (apply Forall_cons_2; [exact Address.sample_wf|]). apply Forall_nil_2. }
  destruct (Mirror.backends s' !! 1%nat) as [b|] eqn:E.
  - destruct (mirror_mirrors two_memories os key1 1 b M F Address.sample_wf E)
      as [A B].
    split; [exact A|]. exists b. split; [reflexivity|exact B].
  - exfalso. vm_compute in E. discriminate E.
Defined.

Lemma crypt_stores_enciphered_witness :
  let s := Crypt.create (Memory.create : memory) [1; 2] true 7 in
  let x := Silo.set key1 [5] true false s in
  is_ok x.1 = true /\ (Silo.get key1 x.2).1 = Ok [5].
Proof.
  intros s x.
  assert (silo_ok s) as O.
  { split; [exact I|]. intros k v W E. exfalso. cbn in E.
    unfold Memory.lookup, Memory.create in E. cbn in E.
    rewrite lookup_empty in E. discriminate E. }
  assert (is_ok x.1 = true) as E by (vm_compute; reflexivity).
  destruct (crypt_stores_enciphered key1 [5] true false s O Address.sample_wf
    eq_refl E) as [A _].
  split; [exact E|exact A].
Defined.
Definition disk (cap : Z) : Filesystem.t bytes :=
  Filesystem.mkFilesystem (new_base (Some cap)) ∅.

Lemma mirror_set_not_atomic_witness :
  let s := Mirror.create [disk 100; disk 2] false false (fun _ => []) in
  let x := Silo.set key1 [1; 2; 3] true false s in
  x.1 = Throw (InsufficientSpace 3 0 2) /\ (Silo.get key1 x.2).1 = Ok [1; 2; 3].
Proof.
  intros s x.
  assert (silo_ok (disk 100)) as O.
  { intros p v E. exfalso. unfold disk in E. cbn in E.
    rewrite lookup_empty in E. discriminate E. }
  destruct (Silo.set key1 [1; 2; 3] true false (disk 100)) as [r1 d1] eqn:E1.
  destruct (Silo.set key1 [1; 2; 3] true false (disk 2)) as [r2 d2] eqn:E2.
  assert (r1 = Ok 3) as ->
    by (apply (f_equal fst) in E1; vm_compute in E1; symmetry; exact E1).
  assert (r2 = Throw (InsufficientSpace 3 0 2)) as ->
    by (apply (f_equal fst) in E2; vm_compute in E2; symmetry; exact E2).
  exact (mirror_set_not_atomic key1 [1; 2; 3] true false s (disk 100) (disk 2)
    3 d1 _ d2 eq_refl eq_refl eq_refl O Address.sample_wf eq_refl E1 E2).
Defined.
End Instances.
