(* ===== verification/PaxosServer.v ===== *)
(** The acceptor of the consensus algorithm: [elle::athena::paxos::Server]
    (elle/src/elle/athena/paxos/Server.hh, Server.hxx).  A server holds the
    committed quorum and value of one object and the state of the election of
    its next version; [propose], [accept], [confirm] and [get] are its handlers.

    The template parameters are the value type [T] and the node identifiers
    [Id] ([ClientId] = [ServerId], as the client instantiates it); [Version] is
    [int] in memo and is a [Z] here, bounded only by what the callers pass. *)

From stdpp Require Import base tactics option list gmap.
From Stdlib Require Import ZArith Lia String.
From S2P Require Import Prelude Versions.
Open Scope Z_scope.

Section Data.
Context {T Id : Type} `{Identifier Id}.

(** [Proposal]: numbered by version, round and sender, in that order. *)
Record Proposal := mkProposal {
  pversion : Z;
  pround : Z;
  psender : Id;
}.

(** The value-initialised members of [Proposal::Proposal()]. *)
Definition empty_proposal : Proposal := mkProposal 0 0 id_default.

Definition proposal_eqb (a b : Proposal) : bool :=
  (pversion a =? pversion b) && (pround a =? pround b) &&
  bool_decide (psender a = psender b).

Definition proposal_ltb (a b : Proposal) : bool :=
  (pversion a <? pversion b) ||
  ((pversion a =? pversion b) &&
   ((pround a <? pround b) ||
    ((pround a =? pround b) && id_ltb (psender a) (psender b)))).

#[export] Instance Proposal_eq_dec : EqDecision Proposal.
Proof. solve_decision. Defined.

Abbreviation Quorum := (gset Id).

(** [elle::Option<T, Quorum>]: either a value of the object or a new set of
    owners. *)
Inductive Value :=
  | Val (v : T)
  | Quo (q : Quorum).

Definition is_quorum (v : Value) : bool :=
  match v with Quo _ => true | Val _ => false end.

Record Accepted := mkAccepted {
  aproposal : Proposal;
  avalue : Value;
  aconfirmed : bool;
}.

Record VersionState := mkState {
  vproposal : Proposal;
  vaccepted : option Accepted;
}.

Record Response := mkResponse {
  rproposal : option Proposal;
  rvalue : option Value;
  rconfirmed : bool;
}.

Inductive error :=
  | WrongQuorum (expected effective : Quorum) (proposal : option Proposal)
  | Error (what : string)
  | AssertError.

Record Server := mkServer {
  sid : Id;
  squorum : Quorum;
  svalue : option T;
  selle : Version.t;
  spartial : bool;
  sstate : option VersionState;
}.

(** *** Order on responses and accepted proposals *)

(** [operator <] on [boost::optional]: nothing is below everything. *)
Definition opt_proposal_ltb (a b : option Proposal) : bool :=
  match a, b with
  | None, Some _ => true
  | Some a, Some b => proposal_ltb a b
  | _, None => false
  end.

Definition opt_proposal_eqb (a b : option Proposal) : bool :=
  match a, b with
  | None, None => true
  | Some a, Some b => proposal_eqb a b
  | _, _ => false
  end.

(** [Accepted]'s [operator <]. *)
Definition accepted_ltb (a b : Accepted) : bool :=
  proposal_ltb (aproposal a) (aproposal b) ||
  (proposal_eqb (aproposal a) (aproposal b) &&
   (negb (aconfirmed a) && aconfirmed b)).

Definition is_some {A} (o : option A) : bool :=
  match o with Some _ => true | None => false end.

(** [Response]'s [operator <]. *)
Definition response_ltb (a b : Response) : bool :=
  let av := is_some (rvalue a) in
  let bv := is_some (rvalue b) in
  (negb av && bv) ||
  (Bool.eqb av bv &&
   ((negb (rconfirmed a) && rconfirmed b) ||
    (Bool.eqb (rconfirmed a) (rconfirmed b) &&
     opt_proposal_ltb (rproposal a) (rproposal b)))).
End Data.

Arguments Proposal Id : clear implicits.
Arguments Value T Id {_ _}.
Arguments Accepted T Id {_ _}.
Arguments VersionState T Id {_ _}.
Arguments Response T Id {_ _}.
Arguments error Id {_ _}.
Arguments Server T Id {_ _}.

Notation "a <p b" := (proposal_ltb a b = true) (at level 70) : memo_scope.
Notation "a ≤p b" := (proposal_ltb b a = false) (at level 70) : memo_scope.
Open Scope memo_scope.

(** *** Proposals are totally ordered *)

Section Order.
Context {Id : Type} `{Identifier Id}.
Implicit Types a b c : Proposal Id.

Lemma proposal_eqb_eq a b : proposal_eqb a b = true <-> a = b.
Proof.
  unfold proposal_eqb. destruct a, b; simpl.
  rewrite !andb_true_iff, !Z.eqb_eq, bool_decide_eq_true.
  split; [intros [[-> ->] ->]; done | by intros [= -> -> ->]].
Qed.

Lemma proposal_ltb_spec a b :
  a <p b <->
  pversion a < pversion b \/
  (pversion a = pversion b /\
   (pround a < pround b \/
    (pround a = pround b /\ id_ltb (psender a) (psender b) = true))).
Proof.
  unfold proposal_ltb.
  rewrite !orb_true_iff, !andb_true_iff, !orb_true_iff, !andb_true_iff,
    !Z.ltb_lt, !Z.eqb_eq. tauto.
Qed.

Lemma plt_irrefl a : proposal_ltb a a = false.
Proof.
  apply not_true_iff_false. rewrite proposal_ltb_spec, id_ltb_irrefl.
  intuition (lia || done).
Qed.

(** The order of the numbers of responses, where there may be none. *)
Lemma opt_ltb_irrefl (a : option (Proposal Id)) : opt_proposal_ltb a a = false.
Proof. destruct a; [apply plt_irrefl|done]. Qed.

Lemma plt_trans a b c : a <p b -> b <p c -> a <p c.
Proof.
  rewrite !proposal_ltb_spec.
  intros [?|(? & [?|[? Hab]])] [?|(? & [?|[? Hbc]])];
    try (left; lia); right; (split; [lia|]); try (left; lia).
  right. split; [lia|]. by eapply id_ltb_trans.
Qed.

Lemma ple_antisym a b : a ≤p b -> b ≤p a -> a = b.
Proof.
  rewrite <- !not_true_iff_false, !proposal_ltb_spec.
  destruct a as [v r i], b as [v' r' i']; simpl. intros H1 H2.
  assert (v = v') as <- by lia. assert (r = r') as <- by lia.
  assert (id_ltb i i' = false) as E1.
  { apply not_true_iff_false. intuition. }
  assert (id_ltb i' i = false) as E2.
  { apply not_true_iff_false. intuition. }
  by rewrite (id_ltb_total i i' E1 E2).
Qed.

Lemma plt_asym a b : a <p b -> a ≤p b.
Proof.
  intros H1. apply not_true_iff_false. intros H2.
  pose proof (plt_trans _ _ _ H1 H2) as H3. by rewrite plt_irrefl in H3.
Qed.

Lemma ple_cases a b : a ≤p b -> a <p b \/ a = b.
Proof.
  intros Hab. destruct (proposal_ltb a b) eqn:E; [by left|].
  right. by apply ple_antisym.
Qed.

Lemma ple_refl a : a ≤p a.
Proof. apply plt_irrefl. Qed.

Lemma plt_le_trans a b c : a <p b -> b ≤p c -> a <p c.
Proof. intros H1 [H2| ->]%ple_cases; [by eapply plt_trans | done]. Qed.

Lemma ple_lt_trans a b c : a ≤p b -> b <p c -> a <p c.
Proof. intros [H1| ->]%ple_cases H2; [by eapply plt_trans | done]. Qed.

Lemma ple_trans a b c : a ≤p b -> b ≤p c -> a ≤p c.
Proof.
  intros [H1| ->]%ple_cases H2; [|done].
  apply plt_asym. by eapply plt_le_trans.
Qed.

Lemma ple_version a b : a ≤p b -> pversion a <= pversion b.
Proof.
  rewrite <- not_true_iff_false, proposal_ltb_spec. lia.
Qed.

Lemma plt_version a b : pversion a < pversion b -> a <p b.
Proof. rewrite proposal_ltb_spec. by left. Qed.

Lemma plt_version_le a b : a <p b -> pversion a <= pversion b.
Proof. intros. by apply ple_version, plt_asym. Qed.
End Order.

#[export] Hint Resolve ple_refl plt_asym plt_irrefl plt_version : memo.

Module Server.
Section Operations.
Context {T Id : Type} `{Identifier Id}.

Definition set_state (st : option (VersionState T Id)) (s : Server T Id) :=
  mkServer (sid s) (squorum s) (svalue s) (selle s) (spartial s) st.
Definition set_partial (b : bool) (s : Server T Id) :=
  mkServer (sid s) (squorum s) (svalue s) (selle s) b (sstate s).
Definition set_quorum (q : gset Id) (s : Server T Id) :=
  mkServer (sid s) q (svalue s) (selle s) (spartial s) (sstate s).
Definition set_value (v : option T) (s : Server T Id) :=
  mkServer (sid s) (squorum s) v (selle s) (spartial s) (sstate s).

(** [Server::Server]: the constructor asserts that the quorum holds the
    server itself. *)
Definition create (id : Id) (q : gset Id) (v : option T)
    (elle : Version.t) : result (error Id) (Server T Id) :=
  if bool_decide (id ∈ q) then Ok (mkServer id q v elle false None)
  else Throw AssertError.

(** [this->_state->accepted], when both exist. *)
Definition accepted_of (s : Server T Id) : option (Accepted T Id) :=
  st ← sstate s; vaccepted st.

(** Whether the election under way is confirmed. *)
Definition state_confirmed (st : VersionState T Id) : bool :=
  match vaccepted st with Some a => aconfirmed a | None => false end.

Definition current_quorum (s : Server T Id) : gset Id :=
  match accepted_of s with
  | Some (mkAccepted _ (Quo q) true) => q
  | _ => squorum s
  end.

Definition current_proposal (s : Server T Id) : option (Proposal Id) :=
  match sstate s with
  | None => None
  | Some st =>
      if state_confirmed st then Some (vproposal st)
      else if is_some (svalue s) then
        Some (mkProposal (pversion (vproposal st) - 1) 0 id_default)
      else None
  end.

Definition current_value (s : Server T Id) : option (Accepted T Id) :=
  match accepted_of s with
  | Some (mkAccepted p (Val v) true) => Some (mkAccepted p (Val v) true)
  | _ =>
      v ← svalue s; p ← current_proposal s;
      Some (mkAccepted p (Val v) true)
  end.

Definition current_version (s : Server T Id) : Z :=
  match sstate s with
  | Some st =>
      if state_confirmed st then pversion (vproposal st)
      else pversion (vproposal st) - 1
  | None => 0
  end.

(** [_Details::check_quorum]: the quorum a request must name is the committed
    one, or the one elected by the confirmed election when the request is
    about a later version. *)
Definition expected_quorum (p : option (Proposal Id)) (s : Server T Id) :
    gset Id :=
  match accepted_of s with
  | Some (mkAccepted ap (Quo q) true) =>
      match p with
      | None => q
      | Some p => if pversion ap <? pversion p then q else squorum s
      end
  | _ => squorum s
  end.

Definition check_quorum (q : gset Id) (p : option (Proposal Id)) :
    method (Server T Id) (error Id) unit :=
  s ← read;
  if bool_decide (q = expected_quorum p s) then mret tt
  else throw (WrongQuorum (expected_quorum p s) q (current_proposal s)).

(** [_Details::check_confirmed]. *)
Definition check_confirmed (p : Proposal Id) (s : Server T Id) : bool :=
  if Version.ltb (selle s) (Version.make 0 1 0) then true
  else if spartial s then false
  else
    match sstate s with
    | None => true
    | Some st =>
        if pversion p <=? pversion (vproposal st) then true
        else
          (pversion (vproposal st) =? pversion p - 1) && state_confirmed st
    end.

(** [propose] commits what the previous version elected when the proposal
    opens a new one. *)
Definition commit_previous (p : Proposal Id) :
    method (Server T Id) (error Id) unit :=
  s ← read;
  match sstate s with
  | Some st =>
      when (pversion (vproposal st) <? pversion p)
        match vaccepted st with
        | None => throw AssertError
        | Some a =>
            modify
              match avalue a with
              | Val v => set_value (Some v)
              | Quo q' => set_quorum q'
              end;;
            modify (set_state None)
        end
  | None => mret tt
  end.

(** The promise itself: the end of [propose]. *)
Definition promise (p : Proposal Id) :
    method (Server T Id) (error Id) (Response T Id) :=
  s ← read;
  match sstate s with
  | None =>
      modify (set_state (Some (mkState p None)));;
      mret (mkResponse None None false)
  | Some (mkState previous acc) =>
      if proposal_ltb previous p then
        modify (set_state (Some (mkState p acc)));;
        mret
          match acc with
          | Some a =>
              mkResponse (Some previous) (Some (avalue a)) (aconfirmed a)
          | None => mkResponse None None false
          end
      else
        mret
          match acc with
          | Some a =>
              mkResponse (Some previous) (Some (avalue a)) (aconfirmed a)
          | None => mkResponse (Some previous) None false
          end
  end.

Definition newer_accepted (p : Proposal Id) (s : Server T Id) :
    option (Accepted T Id) :=
  a ← accepted_of s;
  if pversion p <? pversion (aproposal a) then Some a else None.

Definition propose (q : gset Id) (p : Proposal Id) :
    method (Server T Id) (error Id) (Response T Id) :=
  s ← read;
  match newer_accepted p s with
  | Some a =>
      mret (mkResponse (Some (aproposal a)) (Some (avalue a)) (aconfirmed a))
  | None =>
      (if check_confirmed p s then
         check_quorum q (Some p);; commit_previous p
       else
         when (negb (spartial s))
           (modify (set_partial true);; modify (set_state None)));;
      promise p
  end.

Definition accept (q : gset Id) (p : Proposal Id) (value : Value T Id) :
    method (Server T Id) (error Id) (Proposal Id) :=
  s ← read;
  when (negb (spartial s)) (check_quorum q (Some p));;
  match sstate s with
  | None => throw (Error "propose before accepting")
  | Some st =>
      if proposal_ltb (vproposal st) p then
        throw (Error "propose before accepting")
      else if proposal_ltb p (vproposal st) then mret (vproposal st)
      else
        let confirmed :=
          match vaccepted st with
          | None => false
          | Some a => aconfirmed a
          end in
        modify (set_state
          (Some (mkState (vproposal st)
                   (Some (mkAccepted p value confirmed)))));;
        mret (vproposal st)
  end.

Definition confirm (q : gset Id) (p : Proposal Id) :
    method (Server T Id) (error Id) unit :=
  s ← read;
  if match sstate s with
     | Some st => pversion p <? pversion (vproposal st)
     | None => false
     end
  then mret tt
  else
    when (negb (spartial s)) (check_quorum q (Some p));;
    match sstate s with
    | Some (mkState promised (Some a)) =>
        if proposal_ltb promised p then
          throw (Error "propose and accept before confirming")
        else
          when (negb (aconfirmed a))
            (modify (set_state (Some (mkState promised
               (Some (mkAccepted (aproposal a) (avalue a) true)))));;
             when (spartial s)
               (modify (set_quorum q);; modify (set_partial false)))
    | _ => throw (Error "propose and accept before confirming")
    end.

Definition get (q : gset Id) :
    method (Server T Id) (error Id) (option (Accepted T Id)) :=
  check_quorum q None;;
  reads current_value.
End Operations.

(** *** Requests and the server as a state machine *)

Section Requests.
Context {T Id : Type} `{Identifier Id}.
Implicit Types s : Server T Id.

Inductive request :=
  | Propose (q : gset Id) (p : Proposal Id)
  | Accept (q : gset Id) (p : Proposal Id) (v : Value T Id)
  | Confirm (q : gset Id) (p : Proposal Id)
  | Get (q : gset Id).

(** The state a request leaves, whether its handler returned or threw. *)
Definition handle (r : request) (s : Server T Id) : Server T Id :=
  match r with
  | Propose q p => (propose q p s).2
  | Accept q p v => (accept q p v s).2
  | Confirm q p => (confirm q p s).2
  | Get q => (get q s).2
  end.

Definition serve (rs : list request) (s : Server T Id) : Server T Id :=
  fold_left (fun s r => handle r s) rs s.

(** What was accepted was promised. *)
Definition wf s : Prop :=
  forall st a, sstate s = Some st -> vaccepted st = Some a ->
  aproposal a ≤p vproposal st.

Definition promised s : option (Proposal Id) :=
  vproposal <$> sstate s.

(** [later s s']: the election state of [s'] supersedes that of [s]. Either
    it is about a later version, or it promises no less and has accepted no
    older proposal, and what was confirmed still is. *)
Definition later s s' : Prop :=
  forall prev acc, sstate s = Some (mkState prev acc) ->
  exists cur acc', sstate s' = Some (mkState cur acc') /\
    (pversion prev < pversion cur \/
     (prev ≤p cur /\
      forall a, acc = Some a -> exists a', acc' = Some a' /\
        aproposal a ≤p aproposal a' /\
        (aconfirmed a = true -> aconfirmed a' = true))).

Lemma later_refl s : later s s.
Proof.
  intros prev acc E. exists prev, acc. split; [done|]. right.
  split; [apply ple_refl|]. eauto using ple_refl.
Qed.

Lemma later_trans s1 s2 s3 : later s1 s2 -> later s2 s3 -> later s1 s3.
Proof.
  intros H12 H23 prev acc E1.
  destruct (H12 _ _ E1) as (p2 & acc2 & E2 & D12).
  destruct (H23 _ _ E2) as (p3 & acc3 & E3 & D23).
  exists p3, acc3. split; [done|].
  destruct D12 as [L12|[L12 A12]], D23 as [L23|[L23 A23]].
  - left. lia.
  - left. apply ple_version in L23. lia.
  - left. apply ple_version in L12. lia.
  - right. split; [by eapply ple_trans|]. intros a Ha.
    destruct (A12 _ Ha) as (a2 & Ha2 & ? & C12).
    destruct (A23 _ Ha2) as (a3 & Ha3 & ? & C23).
    exists a3. split; [done|]. split; [by eapply ple_trans|]. auto.
Qed.

Lemma check_quorum_state q p s : (check_quorum q p s).2 = s.
Proof. unfold check_quorum. monad_unfold. by case_match. Qed.

Lemma check_quorum_Ok q p s s' :
  check_quorum q p s = (Ok tt, s') -> s' = s /\ q = expected_quorum p s.
Proof.
  unfold check_quorum. monad_unfold. case_bool_decide; naive_solver.
Qed.

(** [if (!this->_partial) check_quorum(...)] changes nothing. *)
Lemma guarded_check_state q p s r s' :
  when (negb (spartial s)) (check_quorum q p) s = (r, s') -> s' = s.
Proof.
  destruct (spartial s); simpl; intros Hr; [by injection Hr|].
  pose proof (check_quorum_state q p s) as X. by rewrite Hr in X.
Qed.

Lemma check_quorum_accepts q p s :
  q = expected_quorum p s -> check_quorum q p s = (Ok tt, s).
Proof.
  intros ->. unfold check_quorum. monad_unfold. by rewrite bool_decide_true.
Qed.

(** What [promise] answers and leaves, case by case. *)
Lemma promise_None p s :
  sstate s = None ->
  promise p s =
    (Ok (mkResponse None None false), set_state (Some (mkState p None)) s).
Proof. intros E. unfold promise. monad_unfold. by rewrite E. Qed.

Lemma promise_lt p s prev acc :
  sstate s = Some (mkState prev acc) -> prev <p p ->
  promise p s =
    (Ok match acc with
        | Some a => mkResponse (Some prev) (Some (avalue a)) (aconfirmed a)
        | None => mkResponse None None false
        end, set_state (Some (mkState p acc)) s).
Proof. intros E L. unfold promise. monad_unfold. by rewrite E, L. Qed.

Lemma promise_ge p s prev acc :
  sstate s = Some (mkState prev acc) -> p ≤p prev ->
  promise p s =
    (Ok match acc with
        | Some a => mkResponse (Some prev) (Some (avalue a)) (aconfirmed a)
        | None => mkResponse (Some prev) None false
        end, s).
Proof. intros E L. unfold promise. monad_unfold. by rewrite E, L. Qed.

(** The state [propose] promises on: either untouched, or without election
    because the proposal is about a later version. *)
Lemma commit_previous_cases p s :
  commit_previous p s = (Ok tt, s) /\
    (forall st, sstate s = Some st -> pversion p <= pversion (vproposal st)) \/
  commit_previous p s = (Throw AssertError, s) \/
  exists st a, sstate s = Some st /\ vaccepted st = Some a /\
    pversion (vproposal st) < pversion p /\
    commit_previous p s =
      (Ok tt, set_state None
        match avalue a with
        | Val v => set_value (Some v) s
        | Quo q => set_quorum q s
        end).
Proof.
  unfold commit_previous. monad_unfold.
  destruct (sstate s) as [st|] eqn:E; [|naive_solver].
  destruct (pversion (vproposal st) <? pversion p) eqn:L; to_prop.
  - destruct (vaccepted st) as [a|] eqn:A; [|auto].
    right; right. exists st, a. by destruct (avalue a).
  - left. split; [done|]. intros; by simplify_eq.
Qed.

Lemma commit_previous_Throw p s e s' :
  commit_previous p s = (Throw e, s') -> s' = s.
Proof.
  destruct (commit_previous_cases p s)
    as [[E _]|[E|(st & a & _ & _ & _ & E)]]; rewrite E; congruence.
Qed.

(** What a proposal may do: leave the server unchanged, answering a number
    it does not beat or throwing; promise on the election under way; or open
    the election of a later version. *)
Inductive propose_outcome (p : Proposal Id) s :
    result (error Id) (Response T Id) -> Server T Id -> Prop :=
  | outcome_beaten resp l :
      rproposal resp = Some l -> p ≤p l ->
      (rvalue resp = None \/
       exists a, accepted_of s = Some a /\ rvalue resp = Some (avalue a) /\
         rconfirmed resp = aconfirmed a) ->
      propose_outcome p s (Ok resp) s
  | outcome_throw e : propose_outcome p s (Throw e) s
  | outcome_promise prev acc s' :
      sstate s = Some (mkState prev acc) -> prev <p p ->
      sstate s' = Some (mkState p acc) -> spartial s' = spartial s ->
      (spartial s = false -> pversion p = pversion prev) ->
      propose_outcome p s
        (Ok match acc with
            | Some a =>
                mkResponse (Some prev) (Some (avalue a)) (aconfirmed a)
            | None => mkResponse None None false
            end) s'
  | outcome_open s' :
      sstate s' = Some (mkState p None) ->
      (forall st, sstate s = Some st -> pversion (vproposal st) < pversion p) ->
      propose_outcome p s (Ok (mkResponse None None false)) s'.

Lemma promise_outcome p s r s' :
  (forall st, sstate s = Some st -> spartial s = false ->
     pversion p <= pversion (vproposal st)) ->
  promise p s = (r, s') -> propose_outcome p s r s'.
Proof.
  intros HV Hr. destruct (sstate s) as [[prev acc]|] eqn:Es.
  - destruct (proposal_ltb prev p) eqn:L.
    + rewrite (promise_lt _ _ _ _ Es L) in Hr. simplify_eq.
      apply outcome_promise; [done..|]. intros P.
      specialize (HV _ eq_refl P). apply plt_version_le in L. simpl in *. lia.
    + rewrite (promise_ge _ _ _ _ Es L) in Hr. simplify_eq.
      destruct acc as [a|]; eapply outcome_beaten; try done; [|by left].
      right. exists a. split; [|done]. unfold accepted_of. by rewrite Es.
  - rewrite promise_None in Hr by done. simplify_eq.
    apply outcome_open; [done|naive_solver].
Qed.

Lemma promise_opens p s s1 r s' :
  sstate s1 = None ->
  (forall st, sstate s = Some st -> pversion (vproposal st) < pversion p) ->
  promise p s1 = (r, s') -> propose_outcome p s r s'.
Proof.
  intros E HV Hr. rewrite promise_None in Hr by done. simplify_eq.
  by apply outcome_open.
Qed.

Lemma check_confirmed_false p s :
  check_confirmed p s = false ->
  spartial s = true \/
  exists st, sstate s = Some st /\ pversion (vproposal st) < pversion p.
Proof.
  unfold check_confirmed. repeat case_match; intros; simplify_eq; to_prop;
    eauto.
Qed.

Lemma propose_outcome_ok q p s r s' :
  propose q p s = (r, s') -> propose_outcome p s r s'.
Proof.
  unfold propose. rewrite bind_Ok with (a := s) (s1 := s) by done.
  destruct (newer_accepted p s) as [a|] eqn:N.
  { intros [= <- <-]. unfold newer_accepted in N.
    destruct (accepted_of s) eqn:A; simplify_eq/=.
    case_match; simplify_eq/=. to_prop. eapply outcome_beaten; [done| |].
    - by apply plt_asym, plt_version.
    - right. eauto. }
  clear N. destruct (check_confirmed p s) eqn:C; intros Hr.
  - unfold mbind at 1, method_bind at 1 in Hr.
    destruct ((check_quorum q (Some p);; commit_previous p) s)
      as [[[]|e] s1] eqn:B; [|simplify_eq].
    + apply bind_Ok_inv in B as ([] & s0 & [-> Hq]%check_quorum_Ok & B).
      destruct (commit_previous_cases p s)
        as [[E HV]|[E|(st & a & Es & Ea & L & E)]];
        rewrite E in B; simplify_eq;
        [apply promise_outcome; [by intros st Est _; apply HV|done]|].
      eapply promise_opens; [| |done]; [done|naive_solver].
    + assert (s' = s) as ->; [|apply outcome_throw].
      apply bind_Throw_inv in B as [B|([] & s0 & [-> Hq]%check_quorum_Ok & B)].
      * pose proof (check_quorum_state q (Some p) s) as X. by rewrite B in X.
      * by apply commit_previous_Throw in B.
  - apply check_confirmed_false in C.
    destruct (spartial s) eqn:P; simpl in Hr.
    { apply promise_outcome; [congruence|done]. }
    destruct C as [|(st & Es & L)]; [done|].
    eapply promise_opens; [| |exact Hr]; [done|naive_solver].
Qed.

(** A response that beats no number: what the client builds on. *)
Definition fresh (p : Proposal Id) (resp : Response T Id) : Prop :=
  forall l, rproposal resp = Some l -> l <p p.

Lemma accept_outcome q p v s r s' :
  accept q p v s = (r, s') ->
  (s' = s /\ ((exists e, r = Throw e) \/ exists l, r = Ok l /\ p <p l /\
     promised s = Some l)) \/
  (r = Ok p /\ spartial s' = spartial s /\
   exists acc, sstate s = Some (mkState p acc) /\
     sstate s' = Some (mkState p (Some (mkAccepted p v
       match acc with Some a => aconfirmed a | None => false end)))).
Proof.
  unfold accept. rewrite bind_Ok with (a := s) (s1 := s) by done.
  intros Hr. unfold mbind at 1, method_bind at 1 in Hr.
  destruct (when (negb (spartial s)) (check_quorum q (Some p)) s)
    as [[[]|e] s1] eqn:B; simplify_eq.
  - apply guarded_check_state in B as ->.
    monad_unfold. destruct (sstate s) as [[prev acc]|] eqn:Es; simpl in *;
      [|simplify_eq; eauto].
    destruct (proposal_ltb prev p) eqn:L1; simplify_eq; [eauto|].
    destruct (proposal_ltb p prev) eqn:L2; simplify_eq.
    + left. split; [done|]. right. exists prev.
      unfold promised. by rewrite Es.
    + assert (prev = p) as -> by (by apply ple_antisym). right. eauto.
  - left. apply guarded_check_state in B as ->. eauto.
Qed.

Lemma confirm_outcome q p s r s' :
  confirm q p s = (r, s') ->
  s' = s \/
  exists prev a, sstate s = Some (mkState prev (Some a)) /\
    p ≤p prev /\ pversion p = pversion prev /\ r = Ok tt /\
    spartial s' = false /\
    sstate s' = Some (mkState prev
      (Some (mkAccepted (aproposal a) (avalue a) true))).
Proof.
  unfold confirm. rewrite bind_Ok with (a := s) (s1 := s) by done.
  destruct (match sstate s with Some _ => _ | None => _ end) eqn:O;
    [intros [= _ <-]; auto|].
  intros Hr. unfold mbind at 1, method_bind at 1 in Hr.
  destruct (when (negb (spartial s)) (check_quorum q (Some p)) s)
    as [[[]|e] s1] eqn:B; simplify_eq.
  - apply guarded_check_state in B as ->.
    monad_unfold. destruct (sstate s) as [[prev [a|]]|] eqn:Es; simpl in *;
      [|simplify_eq; auto..].
    destruct (proposal_ltb prev p) eqn:L1; simplify_eq; [auto|].
    to_prop. destruct (aconfirmed a) eqn:C; simpl in Hr; simplify_eq; [auto|].
    right. exists prev, a. apply ple_version in L1 as L2.
    monad_unfold. destruct (spartial s) eqn:P; injection Hr as <- <-;
      split_and!; try done; simpl in *; lia.
  - left. by apply guarded_check_state in B.
Qed.

Lemma get_state q s : (get q s).2 = s.
Proof.
  unfold get, check_quorum. monad_unfold. by case_bool_decide.
Qed.

(** *** What a handler keeps *)

(** A handler that throws changes nothing, and none changes the version of the
    server. *)
Definition transactional {A} (m : method (Server T Id) (error Id) A) : Prop :=
  forall s r s', m s = (r, s') ->
  selle s' = selle s /\ (is_ok r = false -> s' = s).

Lemma elle_bind {A B'} (m : method (Server T Id) (error Id) A)
    (k : A -> method (Server T Id) (error Id) B') s :
  (forall s, selle (m s).2 = selle s) ->
  (forall a s, selle (k a s).2 = selle s) ->
  selle ((m ≫= k) s).2 = selle s.
Proof.
  intros Hm Hk. unfold mbind, method_bind. specialize (Hm s).
  destruct (m s) as [[a|e] s1]; cbn in *; [by rewrite Hk|done].
Qed.

Lemma promise_elle p s : selle (promise p s).2 = selle s.
Proof. unfold promise. monad_unfold. by repeat case_match; simplify_eq. Qed.

Lemma commit_previous_elle p s : selle (commit_previous p s).2 = selle s.
Proof.
  destruct (commit_previous_cases p s)
    as [[E _]|[E|(st & a & _ & _ & _ & E)]]; rewrite E; try done.
  by destruct (avalue a).
Qed.

Lemma propose_transactional q p : transactional (propose q p).
Proof.
  intros s r s' E. split.
  - assert (s' = (propose q p s).2) as -> by by rewrite E.
    unfold propose. apply elle_bind; [done|]. intros s1 s2.
    destruct (newer_accepted p s1); [done|].
    apply elle_bind; [|intros _ s3; apply promise_elle]. intros s3.
    destruct (check_confirmed p s1).
    + apply elle_bind; [intros; by rewrite check_quorum_state|].
      intros _ ?. apply commit_previous_elle.
    + by destruct (spartial s1).
  - intros R. apply propose_outcome_ok in E. by destruct E.
Qed.

Lemma accept_transactional q p v : transactional (accept q p v).
Proof.
  intros s r s' E. split.
  - assert (s' = (accept q p v s).2) as -> by by rewrite E.
    unfold accept. apply elle_bind; [done|]. intros s1 s2.
    apply elle_bind.
    + intros s3. destruct (spartial s1); [done|]. cbn.
      by rewrite check_quorum_state.
    + intros _ s3. monad_unfold. by repeat case_match; simplify_eq.
  - intros R. destruct (accept_outcome _ _ _ _ _ _ E)
      as [[-> _]|(-> & _)]; done.
Qed.

Lemma confirm_transactional q p : transactional (confirm q p).
Proof.
  intros s r s' E. split.
  - assert (s' = (confirm q p s).2) as -> by by rewrite E.
    unfold confirm. apply elle_bind; [done|]. intros s1 s2.
    destruct (match sstate s1 with Some _ => _ | None => _ end); [done|].
    apply elle_bind.
    + intros s3. destruct (spartial s1); [done|]. cbn.
      by rewrite check_quorum_state.
    + intros _ s3. monad_unfold. by repeat case_match; simplify_eq.
  - intros R. destruct (confirm_outcome _ _ _ _ _ E)
      as [->|(prev & a & _ & _ & _ & -> & _)]; done.
Qed.

Lemma get_transactional q : transactional (get q).
Proof.
  intros s r s' E. pose proof (get_state q s) as X. rewrite E in X.
  cbn in X. by subst s'.
Qed.

(** *** Every handler preserves the invariant and moves forward *)

Lemma propose_outcome_later p s r s' :
  wf s -> propose_outcome p s r s' -> wf s' /\ later s s'.
Proof.
  intros W []; simplify_eq; [by eauto using later_refl..| |].
  - split.
    + intros st a E1 E2. simplify_eq/=. apply (ple_trans _ prev).
      * by apply (W (mkState prev (Some a)) a).
      * by apply plt_asym.
    + intros prev' acc' E. simplify_eq. eexists p, _. split; [done|].
      right. split; [by apply plt_asym|]. eauto using ple_refl.
  - split.
    + intros st a E1 E2. by simplify_eq/=.
    + intros prev acc E. exists p, None. split; [done|]. left. naive_solver.
Qed.

Lemma accept_later q p v s r s' :
  wf s -> accept q p v s = (r, s') -> wf s' /\ later s s'.
Proof.
  intros W Hr.
  destruct (accept_outcome _ _ _ _ _ _ Hr)
    as [[-> _]|(-> & _ & acc & E & E')]; [by eauto using later_refl|].
  split.
  - intros st a E1 E2. simplify_eq/=. apply ple_refl.
  - intros prev acc' E1. simplify_eq. eexists p, _. split; [done|].
    right. split; [apply ple_refl|]. intros a ->. eexists. split; [done|].
    split; [|done]. by apply (W (mkState p (Some a)) a).
Qed.

Lemma confirm_later q p s r s' :
  wf s -> confirm q p s = (r, s') -> wf s' /\ later s s'.
Proof.
  intros W Hr.
  destruct (confirm_outcome _ _ _ _ _ Hr)
    as [->|(prev & a & E & L & V & -> & _ & E')]; [by eauto using later_refl|].
  split.
  - intros st a' E1 E2. simplify_eq/=. by apply (W (mkState prev (Some a)) a).
  - intros prev' acc' E1. simplify_eq. eexists _, _. split; [done|].
    right. split; [apply ple_refl|]. intros a' [= <-]. eexists.
    split; [done|]. split; [apply ple_refl|done].
Qed.

Lemma handle_later r s : wf s -> wf (handle r s) /\ later s (handle r s).
Proof.
  intros W. destruct r; simpl.
  - destruct (propose q p s) as [r s'] eqn:E.
    eapply propose_outcome_later; [done|]. by apply propose_outcome_ok in E.
  - destruct (accept q p v s) as [r s'] eqn:E. by eapply accept_later.
  - destruct (confirm q p s) as [r s'] eqn:E. by eapply confirm_later.
  - rewrite get_state. by eauto using later_refl.
Qed.

(** A partial server has confirmed nothing: a confirmation makes it whole. *)
Definition partial_unconfirmed s : Prop :=
  forall a, spartial s = true -> accepted_of s = Some a ->
  aconfirmed a = false.

Lemma accepted_of_eq s p acc :
  sstate s = Some (mkState p acc) -> accepted_of s = acc.
Proof. unfold accepted_of. by intros ->. Qed.

(** *** Properties *)

(** C34. Whatever requests a server is sent, in whatever order, its election state
    only moves forward: the version never decreases; within a version the
    promised and the accepted proposals never decrease and a confirmation is
    never undone. *)
Theorem serve_moves_forward rs s :
  wf s -> wf (serve rs s) /\ later s (serve rs s).
Proof.
  unfold serve. revert s.
  induction rs as [|r rs IH]; intros s W; simpl; [by eauto using later_refl|].
  destruct (handle_later r s W) as [W1 L1].
  destruct (IH _ W1) as [W2 L2]. eauto using later_trans.
Qed.

(** A promise is kept: after a proposal was promised, an older proposal is
    not accepted, whatever happened in between, and the server is left
    untouched. *)
Theorem promise_is_kept q p resp s s1 rs q' p' v :
  wf s -> propose q p s = (Ok resp, s1) -> fresh p resp -> p' <p p ->
  handle (Accept q' p' v) (serve rs s1) = serve rs s1 /\
  (accept q' p' v (serve rs s1)).1 <> Ok p'.
Proof.
  intros W Hp F L.
  assert (exists acc, sstate s1 = Some (mkState p acc)) as [acc E].
  { apply propose_outcome_ok in Hp. inversion Hp; subst; eauto.
    rewrite (F l) in * by done. done. }
  assert (wf s1) as W1.
  { apply propose_outcome_ok in Hp.
    by eapply propose_outcome_later in Hp as []. }
  destruct (serve_moves_forward rs s1 W1) as [_ M].
  destruct (M _ _ E) as (cur & acc' & E' & D).
  assert (p' <p cur) as L'.
  { destruct D as [D|[D _]].
    - apply plt_version. apply plt_version_le in L. lia.
    - by eapply plt_le_trans. }
  simpl. destruct (accept q' p' v (serve rs s1)) as [r s2] eqn:A. simpl.
  destruct (accept_outcome _ _ _ _ _ _ A)
    as [[-> [[e ->]|(l & -> & Hl & _)]]|(-> & _ & acc2 & E2 & _)].
  - done.
  - split; [done|]. intros [= ->]. by rewrite plt_irrefl in Hl.
  - simplify_eq. by rewrite plt_irrefl in L'.
Qed.

(** [accept], branch by branch. *)
Theorem accept_spec q p v s :
  spartial s = true \/ q = expected_quorum (Some p) s ->
  accept q p v s =
    match sstate s with
    | None => (Throw (Error "propose before accepting"), s)
    | Some st =>
        if proposal_ltb (vproposal st) p then
          (Throw (Error "propose before accepting"), s)
        else if proposal_ltb p (vproposal st) then (Ok (vproposal st), s)
        else (Ok p, set_state (Some (mkState p
                 (Some (mkAccepted p v (state_confirmed st))))) s)
    end.
Proof.
  intros Hq. unfold accept. rewrite bind_Ok with (a := s) (s1 := s) by done.
  rewrite bind_Ok with (a := tt) (s1 := s).
  2:{ destruct Hq as [->|Hq]; [done|]. destruct (spartial s); [done|].
      by apply check_quorum_accepts. }
  destruct (sstate s) as [st|]; [|done].
  destruct (proposal_ltb (vproposal st) p) eqn:L1; [done|].
  destruct (proposal_ltb p (vproposal st)) eqn:L2; [done|].
  assert (vproposal st = p) as -> by (by apply ple_antisym). done.
Qed.

(** *** Committing, reading and catching up *)

Definition confirms (s : Server T Id) : Prop :=
  Version.ltb (selle s) (Version.make 0 1 0) = false /\ spartial s = false.

Lemma newer_accepted_None p s st :
  wf s -> sstate s = Some st -> pversion (vproposal st) <= pversion p ->
  newer_accepted p s = None.
Proof.
  intros W E L. unfold newer_accepted, accepted_of. rewrite E. simpl.
  destruct (vaccepted st) as [a|] eqn:A; [|done]. simpl.
  specialize (W _ _ E A). apply ple_version in W.
  case_match; [to_prop; lia|done].
Qed.

(** Opening the next version commits what the current one elected. *)
Lemma propose_commits q p s pr a :
  wf s -> confirms s ->
  sstate s = Some (mkState pr (Some a)) -> aconfirmed a = true ->
  pversion p = pversion pr + 1 -> q = expected_quorum (Some p) s ->
  propose q p s =
    (Ok (mkResponse None None false),
     set_state (Some (mkState p None))
       (match avalue a with
        | Val v => set_value (Some v) s
        | Quo q' => set_quorum q' s
        end)).
Proof.
  intros W [Ce Cp] E C V Hq. unfold propose.
  rewrite bind_Ok with (a := s) (s1 := s) by done.
  rewrite (newer_accepted_None p s _ W E) by (simpl; lia).
  assert (check_confirmed p s = true) as ->.
  { unfold check_confirmed. rewrite Ce, Cp, E. simpl.
    unfold state_confirmed. simpl. rewrite C.
    case_match; to_prop; [done|]. rewrite andb_true_r. lia. }
  rewrite bind_assoc, bind_Ok with (a := tt) (s1 := s)
    by by apply check_quorum_accepts.
  unfold commit_previous, promise. monad_unfold. rewrite E. simpl.
  assert ((pversion pr <? pversion p) = true) as -> by lia.
  by destruct (avalue a).
Qed.

(** A confirmed value is what [get] reads, and it stays readable when the
    next version opens: it is then the committed value, reported with the
    previous version and a null round and sender. *)
Theorem confirmed_value_is_durable q p s pr ap v :
  wf s -> confirms s ->
  sstate s = Some (mkState pr (Some (mkAccepted ap (Val v) true))) ->
  q = squorum s -> pversion p = pversion pr + 1 ->
  (get q s).1 = Ok (Some (mkAccepted ap (Val v) true)) /\
  (propose q p s).1 = Ok (mkResponse None None false) /\
  (get q (propose q p s).2).1 =
    Ok (Some (mkAccepted (mkProposal (pversion p - 1) 0 id_default)
                (Val v) true)).
Proof.
  intros W C E -> V.
  assert (forall p, expected_quorum p s = squorum s) as Q.
  { intros. unfold expected_quorum, accepted_of. by rewrite E. }
  assert (propose (squorum s) p s =
    (Ok (mkResponse None None false),
     set_state (Some (mkState p None)) (set_value (Some v) s))) as P.
  { by rewrite (propose_commits _ _ _ _ _ W C E) by done. }
  rewrite P. split_and!; [|done|]; unfold get.
  - rewrite bind_Ok with (a := tt) (s1 := s)
      by by apply check_quorum_accepts.
    unfold current_value, accepted_of. monad_unfold. by rewrite E.
  - by rewrite bind_Ok with (a := tt)
      (s1 := set_state (Some (mkState p None)) (set_value (Some v) s))
      by by apply check_quorum_accepts.
Qed.

(** A quorum election takes effect with the confirmation: from then on [get]
    refuses the old quorum, naming the elected one. *)
Theorem quorum_election_is_enforced s pr ap q' q :
  sstate s = Some (mkState pr (Some (mkAccepted ap (Quo q') true))) ->
  q <> q' ->
  current_quorum s = q' /\
  get q s = (Throw (WrongQuorum q' q (Some pr)), s).
Proof.
  intros E N. unfold current_quorum, get, check_quorum, expected_quorum,
    current_proposal, accepted_of. monad_unfold. rewrite E. simpl.
  by rewrite bool_decide_false.
Qed.

(** A server that missed a version acknowledges a partial state: whatever
    quorum the request names, it forgets its election and promises; it
    answers no value. *)
Theorem skipped_version_is_partial q p s pr acc :
  wf s -> confirms s -> sstate s = Some (mkState pr acc) ->
  pversion pr + 1 < pversion p ->
  propose q p s =
    (Ok (mkResponse None None false),
     set_state (Some (mkState p None)) (set_partial true s)).
Proof.
  intros W [Ce Cp] E L. unfold propose.
  rewrite bind_Ok with (a := s) (s1 := s) by done.
  rewrite (newer_accepted_None p s _ W E) by (simpl; lia).
  assert (check_confirmed p s = false) as ->.
  { unfold check_confirmed. rewrite Ce, Cp, E. simpl.
    case_match; to_prop; [lia|]. apply andb_false_iff. left. lia. }
  rewrite Cp. done.
Qed.

(** ... and it is whole again once the value of the version it joined is
    confirmed: it takes the quorum it is confirmed with. *)
Theorem partial_state_recovers q p v s :
  spartial s = true -> sstate s = Some (mkState p None) ->
  let s1 := (accept q p v s).2 in
  let s2 := (confirm q p s1).2 in
  spartial s2 = false /\ squorum s2 = q /\
  accepted_of s2 = Some (mkAccepted p v true) /\
  current_version s2 = pversion p.
Proof.
  intros P E. simpl. rewrite accept_spec by auto. rewrite E. simpl.
  rewrite plt_irrefl. unfold confirm. monad_unfold. simpl.
  rewrite Z.ltb_irrefl, P. simpl. rewrite plt_irrefl. done.
Qed.
(** What [ELLE_ENFORCE] expects of the responses in the client. *)
Lemma valued_response_has_proposal q p s resp s' :
  propose q p s = (Ok resp, s') -> is_some (rvalue resp) = true ->
  is_some (rproposal resp) = true.
Proof.
  intros Hr Hv. apply propose_outcome_ok in Hr.
  inversion Hr as [? l E| |? acc|]; subst; [by rewrite E|..|done].
  by destruct acc.
Qed.

End Requests.

(** *** Serialization *)

(** What [serialize] writes at a given format version, field by field: a field
    the format does not have is [None]. *)
Section Serialization.
Context {T Id : Type} `{Identifier Id}.

Inductive saved_accepted :=
  | SavedFull (p : Proposal Id) (v : Value T Id) (confirmed : bool)
  | SavedValue (p : Proposal Id) (v : T).

Record archive := mkArchive {
  ar_id : Id;
  ar_quorum : gset Id;
  ar_value : option (option T);
  ar_states : list (Proposal Id * option saved_accepted);
  ar_partial : option bool;
}.

Definition v_0_1_0 : Version.t := Version.make 0 1 0.
Definition v_0_2_0 : Version.t := Version.make 0 2 0.

(** [Accepted::serialize], writing. *)
Definition save_accepted (ver : Version.t) (a : Accepted T Id) :
    result (error Id) saved_accepted :=
  if Version.geb ver v_0_1_0 then
    Ok (SavedFull (aproposal a) (avalue a) (aconfirmed a))
  else
    match avalue a with
    | Val v => Ok (SavedValue (aproposal a) v)
    | Quo _ => Throw AssertError
    end.

(** [Accepted::serialize], reading. *)
Definition load_accepted (ver : Version.t) (sa : saved_accepted) :
    result (error Id) (Accepted T Id) :=
  if Version.geb ver v_0_1_0 then
    match sa with
    | SavedFull p v c => Ok (mkAccepted p v c)
    | SavedValue _ _ => Throw (Error "missing field")
    end
  else
    match sa with
    | SavedValue p v => Ok (mkAccepted p (Val v) true)
    | SavedFull _ _ _ => Throw (Error "missing field")
    end.

(** [VersionState::serialize]. *)
Definition save_state (ver : Version.t) (st : VersionState T Id) :
    result (error Id) (Proposal Id * option saved_accepted) :=
  match vaccepted st with
  | None => Ok (vproposal st, None)
  | Some a => sa ← save_accepted ver a; Ok (vproposal st, Some sa)
  end.

Definition load_state (ver : Version.t)
    (x : Proposal Id * option saved_accepted) :
    result (error Id) (VersionState T Id) :=
  match x.2 with
  | None => Ok (mkState x.1 None)
  | Some sa => a ← load_accepted ver sa; Ok (mkState x.1 (Some a))
  end.

Fixpoint load_states (ver : Version.t)
    (l : list (Proposal Id * option saved_accepted)) :
    result (error Id) (list (VersionState T Id)) :=
  match l with
  | [] => Ok []
  | x :: l' => st ← load_state ver x; r ← load_states ver l'; Ok (st :: r)
  end.

(** [Server::serialize], writing: the state goes in a container ordered by
    version, which holds at most it. *)
Definition save (ver : Version.t) (s : Server T Id) :
    result (error Id) archive :=
  states ← match sstate s with
           | None => Ok []
           | Some st => x ← save_state ver st; Ok [x]
           end;
  Ok (mkArchive (sid s) (squorum s)
    (if Version.geb ver v_0_1_0 then Some (svalue s) else None)
    states
    (if Version.geb ver v_0_2_0 then Some (spartial s) else None)).

(** [Server::serialize], reading: older formats may hold several states, of
    which the one of the greatest version is kept. [elle] is the version
    found in the serialization context. *)
Definition load (ver elle : Version.t) (ar : archive) :
    result (error Id) (Server T Id) :=
  value ← (if Version.geb ver v_0_1_0 then
             match ar_value ar with
             | Some v => Ok v
             | None => Throw (Error "missing field")
             end
           else Ok None);
  states ← load_states ver (ar_states ar);
  partial ← (if Version.geb ver v_0_2_0 then
               match ar_partial ar with
               | Some b => Ok b
               | None => Throw (Error "missing field")
               end
             else Ok false);
  Ok (mkServer (ar_id ar) (ar_quorum ar) value elle partial
    (max_element
       (fun a b => pversion (vproposal a) <? pversion (vproposal b))
       states)).

(** What a format version preserves of a server. *)
Definition downgrade (ver : Version.t) (s : Server T Id) : Server T Id :=
  if Version.geb ver v_0_2_0 then s
  else if Version.geb ver v_0_1_0 then set_partial false s
  else
    set_partial false (set_value None (set_state
      (match sstate s with
       | Some (mkState p (Some a)) =>
           Some (mkState p
             (Some (mkAccepted (aproposal a) (avalue a) true)))
       | st => st
       end) s)).

Lemma load_save_cases ver (s : Server T Id) :
  match save ver s with
  | Ok ar => load ver (selle s) ar = Ok (downgrade ver s)
  | Throw e =>
      Version.ltb ver v_0_1_0 = true /\ e = AssertError /\
      exists p a q, sstate s = Some (mkState p (Some a)) /\
        avalue a = Quo q
  end.
Proof.
  destruct s as [i q v el pa st].
  unfold save, downgrade, load, set_partial, set_value, set_state. simpl.
  assert (Version.geb ver v_0_2_0 = true -> Version.geb ver v_0_1_0 = true)
    as Himp by (intros; by eapply Version.geb_trans; [done|]).
  destruct st as [[p [a|]]|];
    unfold save_state, save_accepted; simpl;
    destruct (Version.geb ver v_0_1_0) eqn:G1;
    destruct (Version.geb ver v_0_2_0) eqn:G2; simpl;
    try (by specialize (Himp eq_refl)); try done;
    try (unfold mbind, result_bind; simpl; unfold load_state, load_accepted,
           mbind, result_bind; simpl; by rewrite ?G1; destruct a).
  destruct a as [ap [t|q'] c]; simpl.
  - unfold mbind, result_bind; simpl. unfold load_state, load_accepted,
      mbind, result_bind; simpl. by rewrite G1.
  - split; [|eauto 10]. unfold Version.geb in G1.
    by apply negb_false_iff in G1.
Qed.
Lemma save_total ver (s : Server T Id) :
  Version.geb ver v_0_2_0 = true -> selle s = ver ->
  exists ar, save ver s = Ok ar /\ load ver ver ar = Ok s.
Proof.
  intros G E. pose proof (load_save_cases ver s) as L.
  destruct (save ver s) as [ar|e].
  - exists ar. split; [done|]. rewrite E in L. rewrite L. unfold downgrade.
    by rewrite G.
  - destruct L as (L & _).
    assert (Version.geb ver v_0_1_0 = true) as G1
      by (by apply (Version.geb_trans _ v_0_2_0)).
    unfold Version.geb in G1. by rewrite L in G1.
Qed.

(** A server saved at a format version reads back as what this version
    preserves of it: all of it from 0.2.0 on; without the partial flag from
    0.1.0 on; before, without its committed value and with its accepted
    value taken for confirmed. Saving only fails before 0.1.0, on a quorum
    election. *)
Theorem load_save ver (s : Server T Id) :
  match save ver s with
  | Ok ar => load ver (selle s) ar = Ok (downgrade ver s)
  | Throw e =>
      Version.ltb ver v_0_1_0 = true /\ e = AssertError /\
      exists p a q, sstate s = Some (mkState p (Some a)) /\
        avalue a = Quo q
  end.
Proof. apply load_save_cases. Qed.
End Serialization.
End Server.

(** ** Concrete instances *)

Section Instances.
Abbreviation P v r c := (mkProposal v r c).

Definition owners : gset Z := {[1; 2; 3]}.
Definition holding (st : option (VersionState Z Z)) : Server Z Z :=
  mkServer 1 owners None (Version.make 0 4 0) false st.
Definition chosen_seven : VersionState Z Z :=
  mkState (P 4 2 9) (Some (mkAccepted (P 4 2 9) (Val 7) true)).
Definition chosen_pair : VersionState Z Z :=
  mkState (P 4 2 9) (Some (mkAccepted (P 4 2 9) (Quo {[1; 2]}) true)).

Lemma holding_wf st :
  match st with
  | Some (mkState p (Some a)) => aproposal a = p
  | _ => True
  end -> Server.wf (holding st).
Proof.
  intros E st' a Est Ea. simpl in Est. subst st.
  destruct st' as [p [a'|]]; simplify_eq/=. apply ple_refl.
Qed.

Lemma serve_moves_forward_witness :
  let rs := [Server.Propose owners (P 5 1 8);
             Server.Accept owners (P 5 1 8) (Val 3)] in
  Server.wf (holding (Some chosen_seven)) /\
  Server.wf (Server.serve rs (holding (Some chosen_seven))) /\
  Server.later (holding (Some chosen_seven))
    (Server.serve rs (holding (Some chosen_seven))).
Proof.
  split; [by apply holding_wf|].
  apply Server.serve_moves_forward. by apply holding_wf.
Defined.

Lemma promise_is_kept_witness :
  let s1 := (Server.propose owners (P 4 3 8) (holding None)).2 in
  let rs := [Server.Propose owners (P 4 5 7); Server.Confirm owners (P 4 1 2)] in
  Server.handle (Server.Accept owners (P 4 2 9) (Val 7)) (Server.serve rs s1)
    = Server.serve rs s1 /\
  (Server.accept owners (P 4 2 9) (Val 7) (Server.serve rs s1)).1
    <> Ok (P 4 2 9).
Proof.
  apply (Server.promise_is_kept owners (P 4 3 8) (mkResponse None None false)
    (holding None)); [by apply holding_wf| |done|reflexivity].
  by vm_compute.
Defined.

Lemma accept_spec_witness :
  let s := holding (Some (mkState (P 4 2 9) None)) in
  Server.accept owners (P 4 2 9) (Val 7) s =
    (Ok (P 4 2 9), holding (Some (mkState (P 4 2 9)
       (Some (mkAccepted (P 4 2 9) (Val 7) false))))).
Proof.
  intros s. rewrite (Server.accept_spec owners (P 4 2 9) (Val 7) s) by
    (right; reflexivity). reflexivity.
Defined.

Lemma confirmed_value_is_durable_witness :
  let s := holding (Some chosen_seven) in
  (Server.get owners s).1 = Ok (Some (mkAccepted (P 4 2 9) (Val 7) true)) /\
  (Server.propose owners (P 5 1 8) s).1 = Ok (mkResponse None None false) /\
  (Server.get owners (Server.propose owners (P 5 1 8) s).2).1 =
    Ok (Some (mkAccepted (P (pversion (P 5 1 8) - 1) 0 id_default)
      (Val 7) true)).
Proof.
  intros s. apply (Server.confirmed_value_is_durable owners (P 5 1 8) s
    (P 4 2 9) (P 4 2 9) 7); try reflexivity.
  - by apply holding_wf.
  - split; reflexivity.
Defined.

Lemma quorum_election_is_enforced_witness :
  let s := holding (Some chosen_pair) in
  Server.current_quorum s = {[1; 2]} /\
  Server.get owners s =
    (Throw (WrongQuorum {[1; 2]} owners (Some (P 4 2 9))), s).
Proof.
  intros s. apply (Server.quorum_election_is_enforced s (P 4 2 9) (P 4 2 9));
    [reflexivity|].
  apply (bool_decide_unpack _). by vm_compute.
Defined.

Lemma skipped_version_is_partial_witness :
  let s := holding (Some chosen_seven) in
  Server.propose {[1; 4]} (P 7 1 8) s =
    (Ok (mkResponse None None false),
     Server.set_state (Some (mkState (P 7 1 8) None))
       (Server.set_partial true s)).
Proof.
  intros s. apply (Server.skipped_version_is_partial _ _ s (P 4 2 9)
    (Some (mkAccepted (P 4 2 9) (Val 7) true))); [|split; reflexivity| |].
  - by apply holding_wf.
  - reflexivity.
  - simpl. lia.
Defined.

Lemma partial_state_recovers_witness :
  let s := Server.set_partial true (holding (Some (mkState (P 7 1 8) None))) in
  let s2 := (Server.confirm {[1; 4]} (P 7 1 8)
    (Server.accept {[1; 4]} (P 7 1 8) (Val 6) s).2).2 in
  spartial s2 = false /\ squorum s2 = {[1; 4]} /\
  Server.accepted_of s2 = Some (mkAccepted (P 7 1 8) (Val 6) true) /\
  Server.current_version s2 = 7.
Proof.
  intros s. apply (Server.partial_state_recovers {[1; 4]} (P 7 1 8) (Val 6) s);
    reflexivity.
Defined.
End Instances.
