(* ===== verification/PaxosClient.v ===== *)
(** The proposer of the consensus algorithm: [elle::athena::paxos::Client]
    (elle/src/elle/athena/paxos/Client.hh, Client.hxx): [choose] submits a
    value for a version, [state] reads the latest chosen one.

    The client is written against the virtual class [Client::Peer]; it is here
    the class [Network], whose state holds everything the calls change (the
    servers, the faults to come).  [for_each_parallel] runs one coroutine per
    peer, each making one call: the calls complete in an order the network
    picks ([net_order]), and when one breaks or throws, the coroutines left
    are terminated, their requests having been sent or not: the network is
    called for them all the same and the answer dropped. *)

From stdpp Require Import base tactics option list gmap.
From Stdlib Require Import ZArith Lia String.
From S2P Require Import Prelude Versions PaxosServer.
Open Scope Z_scope.

Section Interface.
Context {T Id : Type} `{Identifier Id}.

(** What a call to a peer or to the client may throw: [E] are the exceptions
    of the peers' implementation. *)
Inductive exn (E : Type) :=
  | Unavailable
  | WeakError (e : E)
  | ServerError (e : error Id)
  | Foreign (e : E)
  | TooFewPeers (effective total : Z).
End Interface.

Arguments exn Id {_ _} E.
Arguments Unavailable {Id _ _ E}.
Arguments WeakError {Id _ _ E} e.
Arguments ServerError {Id _ _ E} e.
Arguments Foreign {Id _ _ E} e.
Arguments TooFewPeers {Id _ _ E} effective total.

(** [Client::Peer], for all the peers at once. *)
Class Network (T Id E N : Type) `{Identifier Id} := {
  net_order : N -> list Id -> list Id;
  net_propose : Id -> gset Id -> Proposal Id -> method N (exn Id E) (Response T Id);
  net_accept : Id -> gset Id -> Proposal Id -> Value T Id ->
    method N (exn Id E) (Proposal Id);
  net_confirm : Id -> gset Id -> Proposal Id -> method N (exn Id E) unit;
  net_get : Id -> gset Id -> method N (exn Id E) (option (Accepted T Id));
  net_order_perm : forall n l, net_order n l ≡ₚ l;
}.

Module Client.
Section Client.
Context {T Id E N : Type} `{Network T Id E N}.

Record Client := mkClient {
  cid : Id;
  cpeers : list Id;
  cround : Z;
  cconflict_backoff : bool;
}.

Definition set_round (r : Z) (c : Client) :=
  mkClient (cid c) (cpeers c) r (cconflict_backoff c).

(** [Client::Client] asserts there are peers; [peers()] replaces them. *)
Definition create (id : Id) (ps : list Id) : result (exn Id E) Client :=
  match ps with
  | [] => Throw (ServerError AssertError)
  | _ => Ok (mkClient id ps 0 true)
  end.
Definition set_peers (ps : list Id) (c : Client) :=
  mkClient (cid c) ps (cround c) (cconflict_backoff c).

(** [Choice]: conflicted when it carries the value that was chosen instead
    of the submitted one. *)
Record Choice := mkChoice {
  ch_proposal : Proposal Id;
  ch_conflicted : bool;
  ch_value : option (Value T Id);
}.
Definition choice_ours (p : Proposal Id) := mkChoice p false None.
Definition choice_theirs (p : Proposal Id) (v : Value T Id) :=
  mkChoice p true (Some v).

(** The variables the lambdas of a phase share. *)
Record Phase := mkPhase {
  reached : Z;
  unavailables : gset Id;
  weak_error : option E;
}.
Definition phase_init (un : gset Id) : Phase := mkPhase 0 un None.
Definition phase_reached (ph : Phase) : Phase :=
  mkPhase (reached ph + 1) (unavailables ph) (weak_error ph).

(** The [catch] clauses every phase has: [None] lets the exception out. *)
Definition phase_catch (peer : Id) (e : exn Id E) (ph : Phase) :
    option Phase :=
  match e with
  | Unavailable =>
      Some (mkPhase (reached ph) ({[peer]} ∪ unavailables ph) (weak_error ph))
  | WeakError e =>
      Some (mkPhase (reached ph) ({[peer]} ∪ unavailables ph)
        (match weak_error ph with Some w => Some w | None => Some e end))
  | _ => None
  end.

(** The calls of terminated coroutines: their outcome is lost. *)
Definition abandon {A} (call : Id -> method N (exn Id E) A) (peers : list Id)
    (n : N) : N :=
  fold_left (fun n peer => (call peer n).2) peers n.

Definition check_headcount (q : gset Id) (ph : Phase) (reading : bool) :
    method N (exn Id E) unit :=
  let size := Z.of_nat (size q) in
  if reached ph <=? Z.quot (size - (if reading then 1 else 0)) 2 then
    match weak_error ph with
    | Some e => throw (Foreign e)
    | None => throw (TooFewPeers (reached ph) size)
    end
  else mret tt.

(** *** The three phases of [choose] *)

Fixpoint propose_all (q : gset Id) (p : Proposal Id) (peers : list Id)
    (ph : Phase) : method N (exn Id E) (Phase * list (Response T Id)) :=
  fun n =>
  match peers with
  | [] => (Ok (ph, []), n)
  | peer :: rest =>
      match net_propose peer q p n with
      | (Ok r, n) =>
          match propose_all q p rest (phase_reached ph) n with
          | (Ok (ph', rs), n) => (Ok (ph', r :: rs), n)
          | (Throw e, n) => (Throw e, n)
          end
      | (Throw e, n) =>
          match phase_catch peer e ph with
          | Some ph' => propose_all q p rest ph' n
          | None => (Throw e, abandon (fun i => net_propose i q p) rest n)
          end
      end
  end.

(** The second component is the number of the first peer that refuses. *)
Fixpoint accept_all (q : gset Id) (p : Proposal Id) (v : Value T Id)
    (peers : list Id) (ph : Phase) :
    method N (exn Id E) (Phase * option (Proposal Id)) :=
  fun n =>
  match peers with
  | [] => (Ok (ph, None), n)
  | peer :: rest =>
      if bool_decide (peer ∈ unavailables ph) then accept_all q p v rest ph n
      else
        match net_accept peer q p v n with
        | (Ok minimum, n) =>
            if proposal_ltb p minimum then
              (Ok (ph, Some minimum),
               abandon (fun i => net_accept i q p v)
                 (filter (fun i => i ∉ unavailables ph) rest) n)
            else accept_all q p v rest (phase_reached ph) n
        | (Throw e, n) =>
            match phase_catch peer e ph with
            | Some ph' => accept_all q p v rest ph' n
            | None =>
                (Throw e, abandon (fun i => net_accept i q p v)
                   (filter (fun i => i ∉ unavailables ph) rest) n)
            end
        end
  end.

Fixpoint confirm_all (q : gset Id) (p : Proposal Id) (peers : list Id)
    (ph : Phase) : method N (exn Id E) Phase :=
  fun n =>
  match peers with
  | [] => (Ok ph, n)
  | peer :: rest =>
      if bool_decide (peer ∈ unavailables ph) then confirm_all q p rest ph n
      else
        match net_confirm peer q p n with
        | (Ok _, n) => confirm_all q p rest (phase_reached ph) n
        | (Throw e, n) =>
            match phase_catch peer e ph with
            | Some ph' => confirm_all q p rest ph' n
            | None =>
                (Throw e, abandon (fun i => net_confirm i q p)
                   (filter (fun i => i ∉ unavailables ph) rest) n)
            end
        end
  end.

(** *** Choosing *)

Definition is_confirmed (r : Response T Id) : bool :=
  is_some (rvalue r) && rconfirmed r.

(** The comparisons of the two [max_element]s. Both [ELLE_ENFORCE] that a
    response with a value has a proposal, which the servers ensure
    ([Server.valued_response_has_proposal]). *)
Definition valued (l r : Response T Id) : bool :=
  match rvalue l, rvalue r with
  | Some _, Some _ => opt_proposal_ltb (rproposal l) (rproposal r)
  | lv, rv => negb (is_some lv) && is_some rv
  end.
Definition proposed (l r : Response T Id) : bool :=
  opt_proposal_ltb (rproposal l) (rproposal r).

(** The value to submit instead of ours: the one of the highest response. *)
Definition replacement (rs : list (Response T Id))
    (replace : option (Value T Id)) : option (Value T Id) :=
  match max_element valued rs with
  | Some r => match rvalue r with Some v => Some v | None => replace end
  | None => replace
  end.

Definition highest (rs : list (Response T Id)) : option (Proposal Id) :=
  r ← max_element proposed rs; rproposal r.

(** What one turn of the loop ends with. *)
Inductive turn :=
  | Return (c : Choice)
  | Retry (version : Z) (replace : option (Value T Id)).

Definition quorum_of (c : Client) : gset Id := list_to_set (cpeers c).

(** Run a phase on the network, the client being left alone. *)
Definition on_net {A} (m : method N (exn Id E) A) :
    method (Client * N) (exn Id E) A :=
  fun s => let '(r, n) := m s.2 in (r, (s.1, n)).
Definition the_round (r : Z) : method (Client * N) (exn Id E) unit :=
  modify (fun s => (set_round r s.1, s.2)).
Definition ordered_peers : method (Client * N) (exn Id E) (list Id) :=
  reads (fun s => net_order s.2 (cpeers s.1)).

(** From "send acceptation" to the end of the turn. *)
Definition submit (q : gset Id) (p : Proposal Id) (version : Z)
    (value : Value T Id) (replace : option (Value T Id)) (un : gset Id) :
    method (Client * N) (exn Id E) turn :=
  peers ← ordered_peers;
  r ← on_net (accept_all q p (default value replace) peers (phase_init un));
  match r with
  | (_, Some minimum) =>
      the_round (pround minimum);;
      mret (Retry (pversion minimum) replace)
  | (ph, None) =>
      on_net (check_headcount q ph false);;
      peers ← ordered_peers;
      ph ← on_net (confirm_all q p peers (phase_init (unavailables ph)));
      on_net (check_headcount q ph false);;
      mret (Return match replace with
                   | Some v => choice_theirs p v
                   | None => choice_ours p
                   end)
  end.

(** One turn of the loop of [choose]. *)
Definition attempt (q : gset Id) (version : Z) (value : Value T Id)
    (replace : option (Value T Id)) : method (Client * N) (exn Id E) turn :=
  s ← read;
  the_round (cround s.1 + 1);;
  let p := mkProposal version (cround s.1 + 1) (cid s.1) in
  peers ← ordered_peers;
  '(ph, responses) ← on_net (propose_all q p peers (phase_init ∅));
  match find is_confirmed responses with
  | Some r =>
      match rproposal r, rvalue r with
      | Some p', Some v => mret (Return (choice_theirs p' v))
      | _, _ => throw (ServerError AssertError)
      end
  | None =>
      on_net (check_headcount q ph false);;
      let replace := replacement responses replace in
      match highest responses with
      | Some h =>
          if proposal_eqb p h then
            the_round (pround h + 1);; mret (Retry version replace)
          else if proposal_ltb p h then
            the_round (pround h);; mret (Retry (pversion h) replace)
          else submit q p version value replace (unavailables ph)
      | None => submit q p version value replace (unavailables ph)
      end
  end.

(** [choose]: [None] when [fuel] turns were not enough. *)
Fixpoint choose_loop (fuel : nat) (q : gset Id) (version : Z)
    (value : Value T Id) (replace : option (Value T Id)) (s : Client * N) :
    option (result (exn Id E) Choice * (Client * N)) :=
  match fuel with
  | O => None
  | S fuel =>
      match attempt q version value replace s with
      | (Ok (Return c), s) => Some (Ok c, s)
      | (Ok (Retry version replace), s) =>
          choose_loop fuel q version value replace s
      | (Throw e, s) => Some (Throw e, s)
      end
  end.

Definition choose (fuel : nat) (version : Z) (value : Value T Id)
    (s : Client * N) :=
  choose_loop fuel (quorum_of s.1) version value None s.

(** *** Reading *)

Record State := mkReadState {
  st_value : option T;
  st_quorum : gset Id;
  st_proposal : option (Proposal Id);
}.

(** The variables of [state]: the best answer and the best refusal. *)
Record Reading := mkReading {
  rd_phase : Phase;
  rd_res : option (Accepted T Id);
  rd_wrong : option (gset Id * gset Id * Proposal Id);
}.

Definition read_answer (a : option (Accepted T Id)) (rd : Reading) :
    Reading :=
  let res :=
    match a with
    | Some a =>
        match rd_res rd with
        | Some b =>
            if proposal_ltb (aproposal b) (aproposal a) then Some a
            else Some b
        | None => Some a
        end
    | None => rd_res rd
    end in
  mkReading (phase_reached (rd_phase rd)) res (rd_wrong rd).

Definition read_wrong (e : gset Id * gset Id * Proposal Id) (rd : Reading) :
    Reading :=
  let wrong :=
    match rd_wrong rd with
    | Some w => if proposal_ltb w.2 e.2 then Some e else Some w
    | None => Some e
    end in
  mkReading (phase_reached (rd_phase rd)) (rd_res rd) wrong.

Fixpoint get_all (q : gset Id) (peers : list Id) (rd : Reading) :
    method N (exn Id E) Reading :=
  fun n =>
  match peers with
  | [] => (Ok rd, n)
  | peer :: rest =>
      match net_get peer q n with
      | (Ok a, n) => get_all q rest (read_answer a rd) n
      | (Throw (ServerError (WrongQuorum ex ef (Some p))), n) =>
          get_all q rest (read_wrong (ex, ef, p) rd) n
      | (Throw e, n) =>
          match e with
          | Unavailable => get_all q rest rd n
          | WeakError w =>
              get_all q rest
                (mkReading
                   (mkPhase (reached (rd_phase rd))
                      (unavailables (rd_phase rd))
                      (match weak_error (rd_phase rd) with
                       | Some w' => Some w' | None => Some w end))
                   (rd_res rd) (rd_wrong rd)) n
          | _ => (Throw e, abandon (fun i => net_get i q) rest n)
          end
      end
  end.

Definition state : method (Client * N) (exn Id E) State :=
  s ← read;
  let q := quorum_of s.1 in
  peers ← ordered_peers;
  rd ← on_net (get_all q peers (mkReading (phase_init ∅) None None));
  on_net (check_headcount q (rd_phase rd) true);;
  match rd_wrong rd, rd_res rd with
  | Some (ex, ef, p), None => throw (ServerError (WrongQuorum ex ef (Some p)))
  | Some (ex, ef, p), Some a =>
      if proposal_ltb (aproposal a) p then
        throw (ServerError (WrongQuorum ex ef (Some p)))
      else
        match avalue a with
        | Val v => mret (mkReadState (Some v) q (Some (aproposal a)))
        | Quo _ => throw (ServerError AssertError)
        end
  | None, Some a =>
      match avalue a with
      | Val v => mret (mkReadState (Some v) q (Some (aproposal a)))
      | Quo _ => throw (ServerError AssertError)
      end
  | None, None => mret (mkReadState None q None)
  end.

Definition get : method (Client * N) (exn Id E) (option T) :=
  st ← state; mret (st_value st).
End Client.
End Client.
