(* ===== verification/PaxosSafety.v ===== *)
(** Agreement of the consensus algorithm, over the servers of PaxosServer.v and
    the decisions of the clients of PaxosClient.v.

    The world is the servers of a quorum [q], and what clients learnt or asked
    so far. Messages may be lost, delayed and reordered, clients may stop
    anywhere: a step delivers one request to one server, or lets a client that
    holds enough answers take its next decision.

    A server that promised a proposal without accepting a value for it answers
    its *promise* with the value it accepted before ([promise]'s [previous]):
    the client then takes this value for one accepted at that promise.
    [faithful] says this did not happen, and [agreement] holds of the worlds
    where it did not; [mislabelled_agreement_fails] is an execution where it
    did and the same version is chosen two different values. *)

From stdpp Require Import base tactics option list gmap.
From Stdlib Require Import ZArith Lia.
From S2P Require Import Prelude Versions PaxosServer PaxosClient.
Open Scope Z_scope.

Section Majority.
Context {Id : Type} `{Countable Id}.

(** What passes [_check_headcount] when it is not reading. *)
Definition majority (q m : gset Id) : Prop :=
  m ⊆ q /\ (size q < 2 * size m)%nat.

Lemma majority_meet (q m1 m2 : gset Id) :
  majority q m1 -> majority q m2 -> exists i, i ∈ m1 /\ i ∈ m2.
Proof.
  intros [S1 L1] [S2 L2].
  destruct (decide (m1 ∩ m2 = ∅)) as [E|NE].
  - assert (size (m1 ∪ m2) = size m1 + size m2)%nat as U.
    { apply size_union. set_solver. }
    assert (size (m1 ∪ m2) <= size q)%nat by (apply subseteq_size; set_solver).
    lia.
  - apply set_choose_L in NE as [i Hi]. exists i. set_solver.
Qed.

Lemma majority_nonempty (q m : gset Id) : majority q m -> exists i, i ∈ m.
Proof.
  intros M. destruct (majority_meet q m m M M) as (i & ? & _). eauto.
Qed.
End Majority.

Section World.
Context {T Id : Type} `{Identifier Id}.
Context (q : gset Id).

(** An answer to a proposal: [re_attempt] tells apart the turns of the
    clients, which may happen to use the same number; [re_accepted] is the
    proposal the server had accepted, for the record. *)
Record reply := mkReply {
  re_attempt : nat;
  re_proposal : Proposal Id;
  re_from : Id;
  re_response : Response T Id;
  re_accepted : option (Proposal Id);
}.

Record world := mkWorld {
  servers : gmap Id (Server T Id);
  replies : list reply;
  requests : list (nat * Proposal Id * Value T Id);
  acks : list (Id * Proposal Id * Value T Id);
  choices : list (Proposal Id * Value T Id);
}.

(** A majority accepted the value at this proposal. *)
Definition chosen (w : world) (p : Proposal Id) (v : Value T Id) : Prop :=
  exists m, majority q m /\ forall i, i ∈ m -> (i, p, v) ∈ acks w.

Definition record_reply (n : nat) (p : Proposal Id) (i : Id)
    (s : Server T Id) (r : result (error Id) (Response T Id))
    (l : list reply) : list reply :=
  match r with
  | Ok resp => mkReply n p i resp (aproposal <$> Server.accepted_of s) :: l
  | Throw _ => l
  end.

Inductive step (w : world) : world -> Prop :=
  (** A proposal reaches a server. *)
  | step_propose n p i s r s' :
      servers w !! i = Some s -> Server.propose q p s = (r, s') ->
      step w (mkWorld (<[i := s']> (servers w))
        (record_reply n p i s r (replies w)) (requests w) (acks w) (choices w))
  (** A client that got answers from a majority, none of which is confirmed
      nor beats its proposal, submits the value of the highest one, or any
      value when there is none. *)
  | step_request n p (d : list reply) v :
      (forall re, re ∈ d -> re ∈ replies w /\ re_attempt re = n /\
         re_proposal re = p /\ Server.fresh p (re_response re) /\
         Client.is_confirmed (re_response re) = false) ->
      majority q (list_to_set (re_from <$> d)) ->
      (forall r x, max_element Client.valued (re_response <$> d) = Some r ->
         rvalue r = Some x -> v = x) ->
      (forall v', (n, p, v') ∉ requests w) ->
      step w (mkWorld (servers w) (replies w) ((n, p, v) :: requests w)
        (acks w) (choices w))
  (** The value reaches a server. *)
  | step_accept n p v i s r s' :
      (n, p, v) ∈ requests w ->
      servers w !! i = Some s -> Server.accept q p v s = (r, s') ->
      step w (mkWorld (<[i := s']> (servers w)) (replies w) (requests w)
        (match r with
         | Ok l => if decide (l = p) then (i, p, v) :: acks w else acks w
         | Throw _ => acks w
         end) (choices w))
  (** A client whose value a majority accepted confirms it to a server that
      accepted it. *)
  | step_confirm p v i s r s' :
      chosen w p v -> (i, p, v) ∈ acks w ->
      servers w !! i = Some s -> Server.confirm q p s = (r, s') ->
      step w (mkWorld (<[i := s']> (servers w)) (replies w) (requests w)
        (acks w) (choices w))
  (** [choose] returns: after its accept phase ... *)
  | step_choose p v :
      chosen w p v ->
      step w (mkWorld (servers w) (replies w) (requests w) (acks w)
        ((p, v) :: choices w))
  (** ... or because a response is confirmed. *)
  | step_learn re p v :
      re ∈ replies w -> Client.is_confirmed (re_response re) = true ->
      rproposal (re_response re) = Some p ->
      rvalue (re_response re) = Some v ->
      step w (mkWorld (servers w) (replies w) (requests w) (acks w)
        ((p, v) :: choices w)).

(** What a server has confirmed is the election under way, and it is not
    partial. *)
Definition settled (s : Server T Id) : Prop :=
  forall p a, sstate s = Some (mkState p (Some a)) -> aconfirmed a = true ->
  spartial s = false /\ pversion (aproposal a) = pversion p.

(** No client ran yet, and the elections under way are older than [V]. *)
Definition initial (V : Z) (w : world) : Prop :=
  replies w = [] /\ requests w = [] /\ acks w = [] /\ choices w = [] /\
  forall i s, servers w !! i = Some s -> Server.wf s /\ settled s /\
    forall st, sstate s = Some st -> pversion (vproposal st) < V.

Inductive reachable (V : Z) : world -> Prop :=
  | reach_init w : initial V w -> reachable V w
  | reach_step w w' : reachable V w -> step w w' -> reachable V w'.

(** Responses that carry a value carry the proposal it was accepted at. *)
Definition faithful (w : world) : Prop :=
  forall re, re ∈ replies w -> is_some (rvalue (re_response re)) = true ->
  rproposal (re_response re) = re_accepted re.

(** *** The invariant, at version [V] *)

Context (V : Z).

(** Server [i] promised at least [p]. *)
Definition bound (w : world) (i : Id) (p : Proposal Id) : Prop :=
  exists s st, servers w !! i = Some s /\ sstate s = Some st /\
    p ≤p vproposal st.

(** Whatever [i] accepted at version [V] before [p] is no newer than [l]. *)
Definition none_between (w : world) (i : Id) (l : option (Proposal Id))
    (p : Proposal Id) : Prop :=
  forall p' x, (i, p', x) ∈ acks w -> pversion p' = V -> p' <p p ->
  exists l', l = Some l' /\ p' ≤p l'.

Record inv (w : world) : Prop := {
  inv_wf : forall i s, servers w !! i = Some s -> Server.wf s /\ settled s;
  (** what a server has accepted was acknowledged *)
  inv_accepted : forall i s a, servers w !! i = Some s ->
    Server.accepted_of s = Some a -> pversion (aproposal a) = V ->
    (i, aproposal a, avalue a) ∈ acks w;
  (** what was acknowledged is still there, or superseded *)
  inv_acked : forall i p x, (i, p, x) ∈ acks w ->
    exists s st, servers w !! i = Some s /\ sstate s = Some st /\
      (pversion p < pversion (vproposal st) \/
       exists a, vaccepted st = Some a /\ p ≤p aproposal a);
  (** a response that beats no number bounds its server from then on *)
  inv_fresh : forall re, re ∈ replies w ->
    Server.fresh (re_proposal re) (re_response re) ->
    bound w (re_from re) (re_proposal re);
  (** ... and reports the newest value the server had accepted *)
  inv_report : forall re, re ∈ replies w ->
    Server.fresh (re_proposal re) (re_response re) ->
    pversion (re_proposal re) = V ->
    none_between w (re_from re)
      (if is_some (rvalue (re_response re)) then rproposal (re_response re)
       else None) (re_proposal re);
  (** values in responses were accepted *)
  inv_labelled : forall re, re ∈ replies w ->
    is_some (rvalue (re_response re)) = true ->
    is_some (rproposal (re_response re)) = true;
  inv_value : forall re p x, re ∈ replies w ->
    rvalue (re_response re) = Some x -> rproposal (re_response re) = Some p ->
    pversion p = V -> (re_from re, p, x) ∈ acks w;
  (** one response per server and number beats none *)
  inv_once : forall re re', re ∈ replies w -> re' ∈ replies w ->
    re_from re = re_from re' -> re_proposal re = re_proposal re' ->
    Server.fresh (re_proposal re) (re_response re) ->
    Server.fresh (re_proposal re) (re_response re') ->
    re_attempt re = re_attempt re';
  inv_ack_requested : forall i p x, (i, p, x) ∈ acks w ->
    exists n, (n, p, x) ∈ requests w;
  (** requests were made on a majority of responses that beat none *)
  inv_requested : forall n p x, (n, p, x) ∈ requests w ->
    exists m, majority q m /\ forall i, i ∈ m -> exists re,
      re ∈ replies w /\ re_from re = i /\ re_proposal re = p /\
      re_attempt re = n /\ Server.fresh p (re_response re);
  inv_unique : forall n n' p x x', (n, p, x) ∈ requests w ->
    (n', p, x') ∈ requests w -> x = x';
  (** each request is safe given the requests made before it *)
  inv_safe : forall l1 n p x l2, requests w = l1 ++ (n, p, x) :: l2 ->
    pversion p = V ->
    exists m, majority q m /\ (forall i, i ∈ m -> bound w i p) /\
      ((forall i, i ∈ m -> none_between w i None p) \/
       exists n' p', (n', p', x) ∈ l2 /\ p' <p p /\ pversion p' = V /\
         forall i, i ∈ m -> none_between w i (Some p') p);
  (** what is confirmed is no older than something chosen *)
  inv_confirmed : forall i s a, servers w !! i = Some s ->
    Server.accepted_of s = Some a -> aconfirmed a = true ->
    pversion (aproposal a) = V ->
    exists p x, chosen w p x /\ p ≤p aproposal a /\ pversion p = V;
  inv_learnt : forall re p, re ∈ replies w ->
    Client.is_confirmed (re_response re) = true ->
    rproposal (re_response re) = Some p -> pversion p = V ->
    exists p0 x0, chosen w p0 x0 /\ p0 ≤p p /\ pversion p0 = V;
  inv_choices : forall p x, (p, x) ∈ choices w -> pversion p = V ->
    (exists i, (i, p, x) ∈ acks w) /\
    exists p0 x0, chosen w p0 x0 /\ p0 ≤p p /\ pversion p0 = V;
}.

(** *** Updating one server *)

Lemma bound_update w i s s' rs rq ak ch j p :
  servers w !! i = Some s -> Server.later s s' -> bound w j p ->
  bound (mkWorld (<[i := s']> (servers w)) rs rq ak ch) j p.
Proof.
  intros E L (sj & st & Ej & Est & Hp).
  destruct (decide (i = j)) as [<-|N].
  - simplify_eq. destruct st as [prev acc].
    destruct (L _ _ Est) as (cur & acc' & E' & D).
    exists s', (mkState cur acc'). simpl. rewrite lookup_insert_eq.
    split_and!; [done..|]. destruct D as [D|[D _]].
    + apply plt_asym, plt_version. apply ple_version in Hp. simpl in *. lia.
    + by eapply ple_trans.
  - exists sj, st. simpl. by rewrite lookup_insert_ne.
Qed.

Definition ack_kept (sv : gmap Id (Server T Id)) (i : Id) (p : Proposal Id) :=
  exists s st, sv !! i = Some s /\ sstate s = Some st /\
    (pversion p < pversion (vproposal st) \/
     exists a, vaccepted st = Some a /\ p ≤p aproposal a).

Lemma acked_update (sv : gmap Id (Server T Id)) i s s' j p :
  sv !! i = Some s -> Server.wf s -> Server.later s s' ->
  ack_kept sv j p -> ack_kept (<[i := s']> sv) j p.
Proof.
  intros E W L (sj & st & Ej & Est & D). unfold ack_kept.
  destruct (decide (i = j)) as [<-|N].
  - simplify_eq. destruct st as [prev acc].
    destruct (L _ _ Est) as (cur & acc' & E' & D'). rewrite lookup_insert_eq.
    exists s', (mkState cur acc'). split_and!; [done..|]. simpl in *.
    destruct D as [D|(a & -> & Hp)].
    + left. destruct D' as [D'|[D' _]]; [lia|]. apply ple_version in D'. lia.
    + destruct D' as [D'|[D' A]].
      * left. specialize (W _ _ Est eq_refl). apply ple_version in Hp, W.
        simpl in *. lia.
      * right. destruct (A _ eq_refl) as (a' & -> & Ha & _).
        exists a'. split; [done|]. by eapply ple_trans.
  - exists sj, st. by rewrite lookup_insert_ne.
Qed.

(** *** Initially *)

Lemma inv_initial w : initial V w -> inv w.
Proof.
  intros (E1 & E2 & E3 & E4 & HS).
  assert (forall i s a, servers w !! i = Some s ->
            Server.accepted_of s = Some a -> pversion (aproposal a) < V) as A.
  { intros i s a E Ha. destruct (HS _ _ E) as (W & _ & L).
    unfold Server.accepted_of in Ha. destruct (sstate s) as [st|] eqn:Est;
      simplify_eq/=. specialize (W _ _ Est Ha). apply ple_version in W.
    specialize (L _ eq_refl). lia. }
  split; rewrite ?E1, ?E2, ?E3, ?E4;
    try (intros; exfalso; eapply not_elem_of_nil; eassumption).
  - intros i s E. by destruct (HS _ _ E) as (? & ? & _).
  - intros i s a E Ha Hv. specialize (A _ _ _ E Ha). lia.
  - intros l1 n p x l2 El. by destruct l1.
  - intros i s a E Ha _ Hv. specialize (A _ _ _ E Ha). lia.
Qed.

(** *** A chosen value is the only one requested above it *)

Lemma safe_value w p x :
  inv w -> chosen w p x -> pversion p = V ->
  forall l2 l1 n p' x', requests w = l1 ++ (n, p', x') :: l2 ->
  pversion p' = V -> p <p p' -> x' = x.
Proof.
  intros I (mc & Mc & Hmc) Hv l2.
  assert (exists k, length l2 < k)%nat as [k Hk] by (eexists; constructor).
  revert l2 Hk. induction k as [|k IH]; [lia|].
  intros l2 Hk l1 n p' x' El Hv' L.
  destruct (inv_safe _ I _ _ _ _ _ El Hv') as (m & M & _ & D).
  destruct (majority_meet _ _ _ Mc M) as (i & Hi1 & Hi2).
  specialize (Hmc i Hi1).
  destruct D as [D|(n'' & p'' & Hin & Lp & Hv'' & D)].
  { by destruct (D i Hi2 p x Hmc Hv L) as (? & ? & _). }
  destruct (D i Hi2 p x Hmc Hv L) as (? & [= <-] & Hp).
  destruct (ple_cases _ _ Hp) as [Lp'|<-].
  - apply list_elem_of_split in Hin as (l3 & l4 & ->).
    eapply (IH l4); [|rewrite El, app_comm_cons, app_assoc; done|done..].
    rewrite length_app in Hk. simpl in Hk. lia.
  - destruct (inv_ack_requested _ I _ _ _ Hmc) as [n3 Hn3].
    eapply (inv_unique _ I n'' n3 p x' x); [|done].
    rewrite El. set_solver.
Qed.

Lemma chosen_requested w p x :
  inv w -> chosen w p x -> exists n, (n, p, x) ∈ requests w.
Proof.
  intros I (m & M & Hm). destruct (majority_nonempty _ _ M) as [i Hi].
  eapply inv_ack_requested; eauto.
Qed.

Lemma above_chosen w p x i p' x' :
  inv w -> chosen w p x -> pversion p = V ->
  (i, p', x') ∈ acks w -> pversion p' = V -> p ≤p p' -> x' = x.
Proof.
  intros I C Hv Ha Hv' L.
  destruct (inv_ack_requested _ I _ _ _ Ha) as [n Hn].
  destruct (ple_cases _ _ L) as [L'|<-].
  - apply list_elem_of_split in Hn as (l1 & l2 & El).
    by eapply (safe_value w p x I C Hv l2 l1).
  - destruct (chosen_requested _ _ _ I C) as [n' Hn'].
    by eapply inv_unique.
Qed.

(** *** Steps that change no server *)

Lemma chosen_mono w w' p x :
  (forall a, a ∈ acks w -> a ∈ acks w') -> chosen w p x -> chosen w' p x.
Proof. intros A (m & M & Hm). exists m. eauto. Qed.

Lemma chosen_acked w p x : chosen w p x -> exists i, (i, p, x) ∈ acks w.
Proof.
  intros (m & M & Hm). destruct (majority_nonempty _ _ M) as [i Hi]. eauto.
Qed.

Lemma inv_choice w p v :
  inv w ->
  (pversion p = V -> (exists i, (i, p, v) ∈ acks w) /\
     exists p0 x0, chosen w p0 x0 /\ p0 ≤p p /\ pversion p0 = V) ->
  inv (mkWorld (servers w) (replies w) (requests w) (acks w)
         ((p, v) :: choices w)).
Proof.
  intros [] C. split; try done.
  intros p' x' [[= -> ->]|Hin]%elem_of_cons Hv; simpl in *; eauto.
Qed.

Lemma learnt_accepted w re p v :
  inv w -> re ∈ replies w -> rproposal (re_response re) = Some p ->
  rvalue (re_response re) = Some v ->
  Client.is_confirmed (re_response re) = true -> pversion p = V ->
  (exists i, (i, p, v) ∈ acks w) /\
  exists p0 x0, chosen w p0 x0 /\ p0 ≤p p /\ pversion p0 = V.
Proof.
  intros I Hre Hp Hx C Hv. split; [exists (re_from re)|].
  - by eapply inv_value.
  - by eapply inv_learnt.
Qed.

(** The comparison of the client's choice of a value is a strict weak
    order. *)
Lemma opt_ltb_ntrans (a b c : option (Proposal Id)) :
  opt_proposal_ltb a b = false -> opt_proposal_ltb b c = false ->
  opt_proposal_ltb a c = false.
Proof.
  destruct a, b, c; simpl; intros; try done. by eapply ple_trans.
Qed.

Lemma opt_ltb_asym (a b : option (Proposal Id)) :
  opt_proposal_ltb a b = true -> opt_proposal_ltb b a = false.
Proof. destruct a, b; simpl; try done. apply plt_asym. Qed.

Lemma valued_max (l : list (Response T Id)) r y :
  max_element Client.valued l = Some r -> y ∈ l -> Client.valued r y = false.
Proof.
  destruct l as [|x l]; simpl; [done|]. intros [= <-] Hy.
  apply fold_max_ub; [..|done]; unfold Client.valued.
  - intros a. destruct (rvalue a); [apply opt_ltb_irrefl|done].
  - intros a b c. destruct (rvalue a), (rvalue b), (rvalue c); simpl; try done.
    apply opt_ltb_ntrans.
  - intros a b. destruct (rvalue a), (rvalue b); simpl; try done.
    apply opt_ltb_asym.
Qed.

(** What the highest response says of the others. *)
Lemma request_safe w n p d v :
  inv w -> faithful w ->
  (forall re, re ∈ d -> re ∈ replies w /\ re_attempt re = n /\
     re_proposal re = p /\ Server.fresh p (re_response re) /\
     Client.is_confirmed (re_response re) = false) ->
  majority q (list_to_set (re_from <$> d)) ->
  (forall r x, max_element Client.valued (re_response <$> d) = Some r ->
     rvalue r = Some x -> v = x) ->
  pversion p = V ->
  let m : gset Id := list_to_set (re_from <$> d) in
  (forall i, i ∈ m -> none_between w i None p) \/
  exists n' p', (n', p', v) ∈ requests w /\ p' <p p /\ pversion p' = V /\
    forall i, i ∈ m -> none_between w i (Some p') p.
Proof.
  intros I F Hd M Hmax Hv m.
  assert (forall i, i ∈ m -> exists re, re ∈ d /\ re_from re = i) as Hm.
  { intros i Hi. unfold m in Hi. rewrite elem_of_list_to_set in Hi.
    apply list_elem_of_fmap in Hi as (re & -> & ?). eauto. }
  destruct (max_element Client.valued (re_response <$> d)) as [r|] eqn:E.
  2:{ apply max_element_None, fmap_nil_inv in E as ->.
      destruct (majority_nonempty _ _ M) as [i Hi]. set_solver. }
  pose proof (max_element_in _ _ _ E) as Hr.
  apply list_elem_of_fmap in Hr as (rm & Er & Hrm).
  destruct (Hd _ Hrm) as (Hrm1 & _ & Hrm3 & Hrm4 & _).
  assert (forall re, re ∈ d -> Client.valued r (re_response re) = false) as UB.
  { intros re Hre. eapply valued_max; [done|]. by apply list_elem_of_fmap_2. }
  destruct (rvalue r) as [x|] eqn:Ex.
  - rewrite (Hmax r x) by done.
    assert (exists l, rproposal r = Some l) as [l El].
    { pose proof (inv_labelled _ I _ Hrm1) as L. rewrite <- Er, Ex in L.
      destruct (rproposal r); [eauto|]. by specialize (L eq_refl). }
    assert (forall i p' x', i ∈ m -> (i, p', x') ∈ acks w -> pversion p' = V ->
              p' <p p -> p' ≤p l) as Hle.
    { intros i p' x' Hi Ha Hv' L. destruct (Hm _ Hi) as (re & Hre & <-).
      destruct (Hd _ Hre) as (Hre1 & _ & Hre3 & Hre4 & _).
      destruct (inv_report _ I re Hre1) with (p' := p') (x := x')
        as (l' & El' & Hl'); try done; [by rewrite Hre3..|].
      specialize (UB _ Hre). unfold Client.valued in UB. rewrite Ex in UB.
      destruct (rvalue (re_response re)); simpl in *; [|done].
      rewrite El, El' in UB. simpl in UB. by eapply ple_trans. }
    assert (l <p p) as Llt by (apply Hrm4; by rewrite <- Er).
    destruct (decide (pversion l = V)) as [Hl|Hl].
    + right. assert ((re_from rm, l, x) ∈ acks w) as Ha.
      { eapply inv_value; try done; by rewrite <- Er. }
      destruct (inv_ack_requested _ I _ _ _ Ha) as [n' Hn'].
      exists n', l. split_and!; [done..|]. intros i Hi p' x' Ha' Hv' L.
      eauto.
    + left. intros i Hi p' x' Ha Hv' L. exfalso.
      specialize (Hle _ _ _ Hi Ha Hv' L). apply ple_version in Hle.
      apply plt_version_le in Llt. lia.
  - left. intros i Hi p' x' Ha Hv' L. destruct (Hm _ Hi) as (re & Hre & <-).
    destruct (Hd _ Hre) as (Hre1 & _ & Hre3 & Hre4 & _).
    destruct (inv_report _ I re Hre1) with (p' := p') (x := x')
      as (l' & El' & Hl'); try done; [by rewrite Hre3..|].
    specialize (UB _ Hre). unfold Client.valued in UB. rewrite Ex in UB.
    by destruct (rvalue (re_response re)).
Qed.

Lemma inv_request w n p d v :
  inv w -> faithful w ->
  (forall re, re ∈ d -> re ∈ replies w /\ re_attempt re = n /\
     re_proposal re = p /\ Server.fresh p (re_response re) /\
     Client.is_confirmed (re_response re) = false) ->
  majority q (list_to_set (re_from <$> d)) ->
  (forall r x, max_element Client.valued (re_response <$> d) = Some r ->
     rvalue r = Some x -> v = x) ->
  (forall v', (n, p, v') ∉ requests w) ->
  inv (mkWorld (servers w) (replies w) ((n, p, v) :: requests w) (acks w)
         (choices w)).
Proof.
  intros I F Hd M Hmax Hnew.
  set (m := list_to_set (re_from <$> d) : gset Id).
  assert (forall i, i ∈ m -> exists re, re ∈ replies w /\ re_from re = i /\
    re_proposal re = p /\ re_attempt re = n /\
    Server.fresh p (re_response re)) as Hm.
  { intros i Hi. unfold m in Hi. rewrite elem_of_list_to_set in Hi.
    apply list_elem_of_fmap in Hi as (re & -> & Hre).
    destruct (Hd _ Hre) as (? & ? & ? & ? & _). eauto 10. }
  assert (forall n' x', (n', p, x') ∉ requests w) as Hp.
  { intros n' x' Hin.
    destruct (inv_requested _ I _ _ _ Hin) as (m' & M' & Hm').
    destruct (majority_meet _ _ _ M M') as (i & Hi & Hi').
    destruct (Hm _ Hi) as (re & Hre & <- & <- & <- & Hf).
    destruct (Hm' _ Hi') as (re' & Hre' & E1 & E2 & <- & Hf').
    assert (re_attempt re = re_attempt re') as E
      by (by eapply inv_once).
    rewrite <- E in Hin. by eapply Hnew. }
  split; try (by apply I); simpl.
  - intros i p' x Ha. destruct (inv_ack_requested _ I _ _ _ Ha) as [n' ?].
    exists n'. set_solver.
  - intros n' p' x [[= -> -> ->]|Hin]%elem_of_cons; [eauto|].
    by eapply inv_requested.
  - intros n1 n2 p' x x'.
    intros [[= -> -> ->]|H1]%elem_of_cons [[= -> ->]|H2]%elem_of_cons;
      simplify_eq; try done.
    + by destruct (Hp _ _ H2).
    + by destruct (Hp _ _ H1).
    + by eapply inv_unique.
  - intros [|y l1] n' p' x l2 El Hv; simpl in El; simplify_eq.
    + exists m. split_and!; [done| |].
      * intros i Hi. destruct (Hm _ Hi) as (re & Hre & <- & <- & _ & Hf).
        by apply (inv_fresh w I).
      * by apply (request_safe w n' p' d x).
    + by apply (inv_safe w I l1 n').
Qed.

(** *** Proposals *)

Lemma propose_fresh p (s : Server T Id) resp s' :
  Server.propose_outcome p s (Ok resp) s' -> Server.fresh p resp ->
  (exists acc, sstate s' = Some (mkState p acc)) /\
  forall st, sstate s = Some st -> vproposal st <p p.
Proof.
  inversion 1 as [? l E L| |prev acc|]; subst; intros F.
  - specialize (F _ E). by rewrite L in F.
  - split; [eauto|]. intros. by simplify_eq.
  - split; [eauto|]. intros. apply plt_version. eauto.
Qed.

Lemma propose_value p (s : Server T Id) resp s' x :
  Server.propose_outcome p s (Ok resp) s' -> rvalue resp = Some x ->
  exists a, Server.accepted_of s = Some a /\ avalue a = x /\
    aconfirmed a = rconfirmed resp.
Proof.
  inversion 1 as [? l E L [D|(a & ? & D & ?)]| |prev [a|] ? E|];
    subst; simpl; intros; simplify_eq; try congruence.
  - exists a. split_and!; congruence.
  - exists a. by rewrite (Server.accepted_of_eq _ _ _ E).
Qed.

Lemma propose_accepted p (s : Server T Id) r s' a :
  Server.propose_outcome p s r s' -> Server.accepted_of s' = Some a ->
  Server.accepted_of s = Some a.
Proof.
  destruct 1 as [| |prev acc s' E _ E'|s' E']; intros Ha; try done.
  - rewrite (Server.accepted_of_eq _ _ _ E') in Ha.
    by rewrite (Server.accepted_of_eq _ _ _ E).
  - by rewrite (Server.accepted_of_eq _ _ _ E') in Ha.
Qed.

Lemma propose_settled p (s : Server T Id) r s' :
  settled s -> Server.propose_outcome p s r s' -> settled s'.
Proof.
  intros St. destruct 1 as [| |prev acc s' E _ E' P V'|s' E']; try done.
  - intros p' a E2 C. simplify_eq. destruct (St _ _ E C) as [P' Va].
    rewrite P, V' by done. done.
  - intros p' a E2. congruence.
Qed.

(** What a response that beats no number says of the server's past. *)
Lemma propose_report w p i s resp s' :
  inv w -> servers w !! i = Some s ->
  Server.propose_outcome p s (Ok resp) s' -> Server.fresh p resp ->
  pversion p = V ->
  none_between w i
    (if is_some (rvalue resp) then rproposal resp else None) p.
Proof.
  intros I Es O F Hv p' x Ha Hv' L.
  destruct (propose_fresh _ _ _ _ O F) as [_ Lt].
  destruct (inv_acked _ I _ _ _ Ha) as (s0 & st & Es0 & Est & D).
  simplify_eq. specialize (Lt _ Est). destruct D as [D|(a & Ea & Hp)].
  { apply plt_version_le in Lt. lia. }
  destruct (inv_wf _ I _ _ Es) as [W _]. specialize (W _ _ Est Ea).
  inversion O as [? l E L2| |prev acc ? E L2|? E' Lv]; subst.
  - specialize (F _ E). by rewrite L2 in F.
  - rewrite E in Est. simplify_eq/=. exists prev. split; [done|].
    by eapply ple_trans.
  - specialize (Lv _ Est). apply ple_version in Hp, W. lia.
Qed.

Lemma faithful_tail re rs sv rq ak ch :
  faithful (mkWorld sv (re :: rs) rq ak ch) ->
  (is_some (rvalue (re_response re)) = true ->
     rproposal (re_response re) = re_accepted re).
Proof. intros F. apply F. simpl. apply elem_of_cons. auto. Qed.

(** The server took a proposal, whose answer nobody heard. *)
Lemma inv_propose_silent w p i s r s' :
  inv w -> servers w !! i = Some s -> Server.propose_outcome p s r s' ->
  inv (mkWorld (<[i := s']> (servers w)) (replies w) (requests w) (acks w)
         (choices w)).
Proof.
  intros I Es O. destruct (inv_wf _ I _ _ Es) as [W St].
  destruct (Server.propose_outcome_later _ _ _ _ W O) as [W' L].
  assert (forall j sj a, <[i := s']> (servers w) !! j = Some sj ->
    Server.accepted_of sj = Some a ->
    exists sj', servers w !! j = Some sj' /\ Server.accepted_of sj' = Some a)
    as A.
  { intros j sj a. destruct (decide (i = j)) as [<-|N].
    - rewrite lookup_insert_eq. intros [= <-] Ha. exists s.
      eauto using propose_accepted.
    - rewrite lookup_insert_ne by done. eauto. }
  split; try (by apply I); simpl.
  - intros j sj. destruct (decide (i = j)) as [<-|N].
    + rewrite lookup_insert_eq. intros [= <-].
      eauto using propose_settled.
    + rewrite lookup_insert_ne by done. apply I.
  - intros j sj a Ej Ha Hv. destruct (A _ _ _ Ej Ha) as (s2 & E2 & Ha2).
    by eapply (inv_accepted w I).
  - intros j p' x Ha. eapply acked_update; [done..|]. by eapply (inv_acked w I).
  - intros re Hre F. apply bound_update with (s := s); [done..|].
    by apply (inv_fresh w I).
  - intros l1 n p' x l2 El Hv.
    destruct (inv_safe _ I _ _ _ _ _ El Hv) as (m & M & B & D).
    exists m. split_and!; [done| |done].
    intros j Hj. apply bound_update with (s := s); eauto.
  - intros j sj a Ej Ha C Hv. destruct (A _ _ _ Ej Ha) as (s2 & E2 & Ha2).
    by eapply (inv_confirmed w I).
Qed.


(** Its answer is recorded. *)
Lemma inv_propose_heard w n p i s resp s' :
  inv w -> servers w !! i = Some s ->
  Server.propose_outcome p s (Ok resp) s' ->
  (is_some (rvalue resp) = true ->
     rproposal resp = aproposal <$> Server.accepted_of s) ->
  inv (mkWorld (<[i := s']> (servers w))
         (mkReply n p i resp (aproposal <$> Server.accepted_of s)
            :: replies w) (requests w) (acks w) (choices w)).
Proof.
  intros I Es O F. pose proof (inv_propose_silent _ _ _ _ _ _ I Es O) as I'.
  assert (forall re, re ∈ replies w -> re_from re = i -> re_proposal re = p ->
    Server.fresh p (re_response re) -> ~ Server.fresh p resp) as Once.
  { intros re Hre E1 E2 F1 F2. destruct (propose_fresh _ _ _ _ O F2) as [_ L].
    rewrite <- E2 in F1. destruct (inv_fresh _ I _ Hre F1)
      as (s0 & st & Es0 & Est & B). rewrite E1 in Es0. simplify_eq.
    specialize (L _ Est). by rewrite L in B. }
  split; try (by apply I'); simpl.
  - intros re [->|Hre]%elem_of_cons Fr; [|by apply (inv_fresh _ I')].
    simpl in *. destruct (propose_fresh _ _ _ _ O Fr) as [[acc E] _].
    exists s', (mkState p acc). simpl. rewrite lookup_insert_eq.
    eauto with memo.
  - intros re [->|Hre]%elem_of_cons Fr Hv; [|by apply (inv_report _ I')].
    by apply (propose_report w p i s resp s').
  - intros re [->|Hre]%elem_of_cons Hx; [|by apply (inv_labelled _ I')].
    simpl in *. rewrite (F Hx). destruct (rvalue resp) as [x|] eqn:E; [|done].
    by destruct (propose_value _ _ _ _ _ O E) as (a & -> & _).
  - intros re p' x [->|Hre]%elem_of_cons Hx Hp Hv; [|by eapply (inv_value _ I')].
    simpl in *. destruct (propose_value _ _ _ _ _ O Hx) as (a & Ea & <- & _).
    rewrite F, Ea in Hp by (by rewrite Hx). simplify_eq/=.
    by eapply (inv_accepted w I).
  - intros re re' [->|H1]%elem_of_cons [->|H2]%elem_of_cons; simpl; try done.
    + intros E1 E2 F1 F2. by destruct (Once re').
    + intros E1 E2 F1 F2. rewrite E2 in *. by destruct (Once re).
    + by apply (inv_once w I).
  - intros n' p' x Hr. destruct (inv_requested _ I _ _ _ Hr) as (m & M & Hm).
    exists m. split; [done|]. intros j Hj. destruct (Hm j Hj) as (re & ? & ?).
    exists re. split; [|done]. apply elem_of_cons. auto.
  - intros re p' [->|Hre]%elem_of_cons C Hp Hv; [|by eapply (inv_learnt _ I')].
    simpl in *. unfold Client.is_confirmed in C. to_prop.
    rewrite F in Hp by done. destruct (rvalue resp) as [x|] eqn:Ex; [|done].
    destruct (propose_value _ _ _ _ _ O Ex) as (a & Ea & _ & Ec).
    rewrite Ea in Hp. simplify_eq/=.
    eapply (inv_confirmed w I); try done. congruence.
Qed.

Lemma inv_propose w n p i s r s' :
  inv w -> servers w !! i = Some s -> Server.propose q p s = (r, s') ->
  let w' := mkWorld (<[i := s']> (servers w))
              (record_reply n p i s r (replies w)) (requests w) (acks w)
              (choices w) in
  faithful w' -> inv w'.
Proof.
  intros I Es O%Server.propose_outcome_ok w' F. unfold w' in *.
  destruct r as [resp|e]; simpl in *.
  - apply (inv_propose_heard w n p i s resp s'); try done.
    intros Hx. by apply (faithful_tail _ _ _ _ _ _ F).
  - by apply (inv_propose_silent w p i s (Throw e) s').
Qed.

(** *** Acceptations *)

(** A new acknowledgement at [p] is not below a number its server is bound
    to. *)
Lemma none_between_ack w w' i p v j l p' :
  acks w' = (i, p, v) :: acks w ->
  (exists s acc, servers w !! i = Some s /\ sstate s = Some (mkState p acc)) ->
  bound w j p' -> none_between w j l p' -> none_between w' j l p'.
Proof.
  intros Ea (s & acc & Es & Est) (s0 & st & Es0 & Est0 & B) NB p'' x Hin.
  rewrite Ea in Hin.
  apply elem_of_cons in Hin as [[= -> -> ->]|Hin]; [|by eapply NB].
  intros _ L. simplify_eq. simpl in B. by rewrite L in B.
Qed.

Lemma accept_settled (s s' : Server T Id) p v acc :
  settled s -> spartial s' = spartial s -> sstate s = Some (mkState p acc) ->
  sstate s' = Some (mkState p (Some (mkAccepted p v
    match acc with Some a => aconfirmed a | None => false end))) ->
  settled s'.
Proof.
  intros St P E E' p' a E2 C. rewrite P. simplify_eq/=.
  destruct acc as [a|]; [|done]. destruct (St _ _ E C) as [-> _]. done.
Qed.

Lemma accept_confirmed w i s p acc a :
  inv w -> servers w !! i = Some s -> sstate s = Some (mkState p acc) ->
  acc = Some a -> aconfirmed a = true -> pversion p = V ->
  exists p0 x0, chosen w p0 x0 /\ p0 ≤p p /\ pversion p0 = V.
Proof.
  intros I Es Est -> C Hv. destruct (inv_wf _ I _ _ Es) as [W St].
  destruct (St _ _ Est C) as [_ Va].
  destruct (inv_confirmed _ I i s a Es) as (p0 & x0 & Hc & L & Hv0);
    [by apply (Server.accepted_of_eq _ _ _ Est)|done|congruence|].
  exists p0, x0. split_and!; [done| |done].
  eapply ple_trans; [done|]. by apply (W _ _ Est).
Qed.

Lemma inv_accepts w n p v i s s' acc :
  inv w -> (n, p, v) ∈ requests w -> servers w !! i = Some s ->
  Server.wf s' -> Server.later s s' -> spartial s' = spartial s ->
  sstate s = Some (mkState p acc) ->
  sstate s' = Some (mkState p (Some (mkAccepted p v
    match acc with Some a => aconfirmed a | None => false end))) ->
  inv (mkWorld (<[i := s']> (servers w)) (replies w) (requests w)
         ((i, p, v) :: acks w) (choices w)).
Proof.
  intros I Hn Es W' L P Est Est'. destruct (inv_wf _ I _ _ Es) as [W St].
  set (w' := mkWorld _ _ _ _ _).
  assert (forall p x, chosen w p x -> chosen w' p x) as Mono.
  { intros p' x. apply chosen_mono. intros a Ha. simpl.
    apply elem_of_cons. auto. }
  assert (forall j p', bound w j p' -> bound w' j p') as Bd
    by (intros; by apply bound_update with (s := s)).
  assert (forall j l p', bound w j p' -> none_between w j l p' ->
            none_between w' j l p') as NB
    by (intros j l p'; apply (none_between_ack w w' i p v); eauto).
  split; simpl; try (by apply I).
  - intros j sj. destruct (decide (i = j)) as [<-|N].
    + rewrite lookup_insert_eq. intros [= <-]. eauto using accept_settled.
    + rewrite lookup_insert_ne by done. apply I.
  - intros j sj a. destruct (decide (i = j)) as [<-|N].
    + rewrite lookup_insert_eq, elem_of_cons. intros [= <-].
      rewrite (Server.accepted_of_eq _ _ _ Est'). intros [= <-]. auto.
    + rewrite lookup_insert_ne, elem_of_cons by done. right.
      by eapply (inv_accepted w I).
  - intros j p' x [[= -> -> ->]|Ha]%elem_of_cons.
    + exists s', (mkState p (Some (mkAccepted p v
        match acc with Some a => aconfirmed a | None => false end))).
      simpl. rewrite lookup_insert_eq. split_and!; [done..|]. right.
      eexists. split; [done|]. apply ple_refl.
    + eapply acked_update; [done..|]. by eapply (inv_acked w I).
  - intros re Hre F. apply Bd. by apply (inv_fresh w I).
  - intros re Hre F Hv. apply NB; [by apply (inv_fresh w I)|].
    by apply (inv_report w I).
  - intros re p' x Hre Hx Hp Hv. apply elem_of_cons. right.
    by eapply (inv_value w I).
  - intros j p' x [[= -> -> ->]|Ha]%elem_of_cons; [eauto|].
    by eapply (inv_ack_requested w I).
  - intros l1 n' p' x l2 El Hv.
    destruct (inv_safe _ I _ _ _ _ _ El Hv) as (m & M & B & D).
    exists m. split_and!; [done|by eauto|].
    destruct D as [D|(n2 & p2 & ? & ? & ? & D)]; [by left; eauto|].
    right. exists n2, p2. eauto 10.
  - intros j sj a. destruct (decide (i = j)) as [<-|N].
    + rewrite lookup_insert_eq. intros [= <-].
      rewrite (Server.accepted_of_eq _ _ _ Est'). intros [= <-] C Hv.
      simpl in *. destruct acc as [a|]; [|done].
      destruct (accept_confirmed w i s p _ a I Es Est) as (p0 & x0 & ? & ?);
        eauto.
    + rewrite lookup_insert_ne by done. intros Ej Ha C Hv.
      destruct (inv_confirmed _ I _ _ _ Ej Ha C Hv) as (p0 & x0 & ? & ?).
      eauto.
  - intros re p' Hre C Hp Hv.
    destruct (inv_learnt _ I _ _ Hre C Hp Hv) as (p0 & x0 & ? & ?). eauto.
  - intros p' x Hc Hv.
    destruct (inv_choices _ I _ _ Hc Hv) as ((j & ?) & p0 & x0 & ? & ?).
    split; [exists j; apply elem_of_cons|]; eauto.
Qed.

Lemma world_eta w i s :
  servers w !! i = Some s ->
  mkWorld (<[i := s]> (servers w)) (replies w) (requests w) (acks w)
    (choices w) = w.
Proof. intros E. destruct w. simpl in *. by rewrite insert_id. Qed.

Lemma inv_accept w n p v i s r s' :
  inv w -> (n, p, v) ∈ requests w -> servers w !! i = Some s ->
  Server.accept q p v s = (r, s') ->
  inv (mkWorld (<[i := s']> (servers w)) (replies w) (requests w)
        (match r with
         | Ok l => if decide (l = p) then (i, p, v) :: acks w else acks w
         | Throw _ => acks w
         end) (choices w)).
Proof.
  intros I Hn Es Hr. destruct (inv_wf _ I _ _ Es) as [W _].
  destruct (Server.accept_later _ _ _ _ _ _ W Hr) as [W' L].
  destruct (Server.accept_outcome _ _ _ _ _ _ Hr)
    as [[-> [[e ->]|(l & -> & Hl & _)]]|(-> & P & acc & E & E')].
  - by rewrite world_eta.
  - rewrite decide_False by (intros ->; by rewrite plt_irrefl in Hl).
    by rewrite world_eta.
  - rewrite decide_True by done. by eapply inv_accepts.
Qed.

(** *** Confirmations *)

Lemma inv_confirms w p v i s prev a s' :
  inv w -> chosen w p v -> (i, p, v) ∈ acks w -> servers w !! i = Some s ->
  Server.wf s' -> Server.later s s' ->
  sstate s = Some (mkState prev (Some a)) ->
  pversion p = pversion prev -> spartial s' = false ->
  sstate s' = Some (mkState prev
    (Some (mkAccepted (aproposal a) (avalue a) true))) ->
  inv (mkWorld (<[i := s']> (servers w)) (replies w) (requests w) (acks w)
         (choices w)).
Proof.
  intros I Hc Ha Es W' L Est Vp P Est'.
  destruct (inv_wf _ I _ _ Es) as [W St].
  assert (p ≤p aproposal a) as La.
  { destruct (inv_acked _ I _ _ _ Ha) as (s0 & st & Es0 & Est0 & D).
    simplify_eq/=. destruct D as [D|(a' & [= <-] & D)]; [lia|done]. }
  assert (aproposal a ≤p prev) as Lp by (by apply (W _ _ Est)).
  assert (pversion (aproposal a) = pversion prev) as Va.
  { apply ple_version in La, Lp. lia. }
  split; simpl; try (by apply I).
  - intros j sj. destruct (decide (i = j)) as [<-|N].
    + rewrite lookup_insert_eq. intros [= <-]. split; [done|].
      intros p' a' E C. by simplify_eq/=.
    + rewrite lookup_insert_ne by done. apply I.
  - intros j sj a'. destruct (decide (i = j)) as [<-|N].
    + rewrite lookup_insert_eq. intros [= <-].
      rewrite (Server.accepted_of_eq _ _ _ Est'). intros [= <-]. simpl.
      apply (inv_accepted w I _ s); [done|].
      by apply (Server.accepted_of_eq _ _ _ Est).
    + rewrite lookup_insert_ne by done. apply I.
  - intros j p' x Hin. eapply acked_update; [done..|].
    by eapply (inv_acked w I).
  - intros re Hre F. apply bound_update with (s := s); [done..|].
    by apply (inv_fresh w I).
  - intros l1 n' p' x l2 El Hv.
    destruct (inv_safe _ I _ _ _ _ _ El Hv) as (m & M & B & D).
    exists m. split_and!; [done| |done].
    intros j Hj. apply bound_update with (s := s); eauto.
  - intros j sj a'. destruct (decide (i = j)) as [<-|N].
    + rewrite lookup_insert_eq. intros [= <-].
      rewrite (Server.accepted_of_eq _ _ _ Est'). intros [= <-] _ Hv.
      exists p, v. simpl in *. split_and!; [done..|congruence].
    + rewrite lookup_insert_ne by done. apply I.
Qed.

Lemma inv_confirm w p v i s r s' :
  inv w -> chosen w p v -> (i, p, v) ∈ acks w -> servers w !! i = Some s ->
  Server.confirm q p s = (r, s') ->
  inv (mkWorld (<[i := s']> (servers w)) (replies w) (requests w) (acks w)
         (choices w)).
Proof.
  intros I Hc Ha Es Hr. destruct (inv_wf _ I _ _ Es) as [W _].
  destruct (Server.confirm_later _ _ _ _ _ W Hr) as [W' L].
  destruct (Server.confirm_outcome _ _ _ _ _ Hr)
    as [->|(prev & a & E & _ & Vp & _ & P & E')].
  - by rewrite world_eta.
  - by eapply inv_confirms.
Qed.

(** *** Every step *)

Lemma faithful_back w w' : step w w' -> faithful w' -> faithful w.
Proof.
  destruct 1; intros F re1 Hre; apply F; simpl; try done.
  unfold record_reply. destruct r; [|done]. apply elem_of_cons. auto.
Qed.

Lemma inv_step w w' : inv w -> step w w' -> faithful w' -> inv w'.
Proof.
  intros I S F. pose proof (faithful_back _ _ S F) as F0. destruct S.
  - by eapply inv_propose.
  - by eapply inv_request.
  - by eapply inv_accept.
  - by eapply inv_confirm.
  - apply inv_choice; [done|]. intros Hv.
    split; [by apply chosen_acked|]. eauto 10 with memo.
  - apply inv_choice; [done|]. intros. by eapply learnt_accepted.
Qed.

Lemma inv_reachable w : reachable V w -> faithful w -> inv w.
Proof.
  induction 1 as [w Hi|w w' R IH S]; intros F; [by apply inv_initial|].
  eapply inv_step; [|done..]. by eapply IH, faithful_back.
Qed.

(** C1. Whatever two clients are told was chosen for version [V] is the same
    value, as long as the servers label the values they report with the
    proposal they accepted them at: whichever messages are lost, delayed or
    reordered, whenever clients stop and whoever competes. *)
Theorem agreement w p p' v v' :
  reachable V w -> faithful w ->
  (p, v) ∈ choices w -> (p', v') ∈ choices w ->
  pversion p = V -> pversion p' = V -> v = v'.
Proof.
  intros R F C C' Hv Hv'. pose proof (inv_reachable _ R F) as I.
  destruct (inv_choices _ I _ _ C Hv) as ((i & A) & p0 & x0 & C0 & L & V0).
  destruct (inv_choices _ I _ _ C' Hv') as ((i' & A') & p0' & x0' & C0' & L' & V0').
  assert (v = x0) as -> by by eapply above_chosen.
  assert (v' = x0') as -> by by eapply above_chosen.
  destruct (chosen_acked _ _ _ C0) as [j J].
  destruct (chosen_acked _ _ _ C0') as [j' J'].
  destruct (proposal_ltb p0' p0) eqn:E.
  - apply plt_asym in E. by eapply above_chosen.
  - symmetry. by eapply above_chosen.
Qed.

End World.
