(* ===== verification/PaxosRuns.v ===== *)
(** Concrete executions of the consensus of PaxosSafety.v.

    [event]s name the steps of PaxosSafety.step; [run_event] executes one when
    its guards hold, and [run_reachable] turns an execution into a derivation of
    [reachable].  Two runs are examined: a contended election that is faithful,
    and one in which a server answers a value under a proposal it was not
    accepted at, after which two clients are told different values. *)

From stdpp Require Import base tactics option list gmap.
From Stdlib Require Import ZArith Lia.
From S2P Require Import Prelude Versions PaxosServer PaxosClient PaxosSafety.
Open Scope Z_scope.

Section Runs.
Context {T Id : Type} `{EqDecision T} `{Identifier Id}.
Context (q : gset Id).

#[export] Instance value_eq_dec : EqDecision (Value T Id).
Proof. solve_decision. Defined.

Inductive event :=
  | EPropose (n : nat) (p : Proposal Id) (i : Id)
  (** the client builds on the answers of these servers *)
  | ERequest (n : nat) (p : Proposal Id) (from : gset Id) (v : Value T Id)
  | EAccept (n : nat) (p : Proposal Id) (v : Value T Id) (i : Id)
  (** these servers are known to have accepted *)
  | EConfirm (p : Proposal Id) (v : Value T Id) (m : gset Id) (i : Id)
  | EChoose (p : Proposal Id) (v : Value T Id) (m : gset Id).

Definition freshb (p : Proposal Id) (r : Response T Id) : bool :=
  match rproposal r with Some l => proposal_ltb l p | None => true end.

Lemma freshb_fresh p r : freshb p r = true -> Server.fresh p r.
Proof. unfold freshb, Server.fresh. intros F l E. by rewrite E in F. Qed.

Definition answers (n : nat) (p : Proposal Id) (from : gset Id)
    (l : list reply) : list (@reply T Id _ _) :=
  filter (fun re => re_attempt re = n /\ re_proposal re = p /\
                    re_from re ∈ from) l.

Definition buildable (p : Proposal Id) (d : list (@reply T Id _ _)) : bool :=
  forallb (fun re => freshb p (re_response re) &&
                     negb (Client.is_confirmed (re_response re))) d.

(** The value the answers impose, if any. *)
Definition imposed (d : list (@reply T Id _ _)) : option (Value T Id) :=
  r ← max_element Client.valued (re_response <$> d); rvalue r.

Definition majorityb (m : gset Id) : bool :=
  bool_decide (m ⊆ q) && bool_decide (size q < 2 * size m)%nat.

Definition chosenb (w : world) (m : gset Id) (p : Proposal Id)
    (v : Value T Id) : bool :=
  majorityb m && bool_decide (set_Forall (fun i => (i, p, v) ∈ acks w) m).

Definition run_event (e : event) (w : world) : option (@world T Id _ _) :=
  match e with
  | EPropose n p i =>
      s ← servers w !! i;
      let '(r, s') := Server.propose q p s in
      Some (mkWorld (<[i := s']> (servers w))
        (record_reply n p i s r (replies w)) (requests w) (acks w)
        (choices w))
  | ERequest n p from v =>
      let d := answers n p from (replies w) in
      if buildable p d && majorityb (list_to_set (re_from <$> d)) &&
         match imposed d with Some x => bool_decide (v = x) | None => true end &&
         forallb (fun rq => negb (bool_decide (rq.1 = (n, p)))) (requests w)
      then Some (mkWorld (servers w) (replies w) ((n, p, v) :: requests w)
             (acks w) (choices w))
      else None
  | EAccept n p v i =>
      s ← servers w !! i;
      if bool_decide ((n, p, v) ∈ requests w) then
        let '(r, s') := Server.accept q p v s in
        Some (mkWorld (<[i := s']> (servers w)) (replies w) (requests w)
          (match r with
           | Ok l => if decide (l = p) then (i, p, v) :: acks w else acks w
           | Throw _ => acks w
           end) (choices w))
      else None
  | EConfirm p v m i =>
      s ← servers w !! i;
      if chosenb w m p v && bool_decide ((i, p, v) ∈ acks w) then
        let '(r, s') := Server.confirm q p s in
        Some (mkWorld (<[i := s']> (servers w)) (replies w) (requests w)
          (acks w) (choices w))
      else None
  | EChoose p v m =>
      if chosenb w m p v then
        Some (mkWorld (servers w) (replies w) (requests w) (acks w)
          ((p, v) :: choices w))
      else None
  end.

Definition run (es : list event) (w : world) : option world :=
  foldl (fun ow e => w ← ow; run_event e w) (Some w) es.

Lemma majorityb_majority m : majorityb m = true -> majority q m.
Proof. unfold majorityb, majority. intros M. to_prop. split; assumption. Qed.

Lemma chosenb_chosen w m p v : chosenb w m p v = true -> chosen q w p v.
Proof.
  unfold chosenb. intros C. to_prop. exists m.
  split; [by apply majorityb_majority|done].
Qed.

Lemma run_request n p from v w :
  let d := answers n p from (replies w) in
  buildable p d = true -> majorityb (list_to_set (re_from <$> d)) = true ->
  match imposed d with Some x => bool_decide (v = x) | None => true end = true ->
  forallb (fun rq => negb (bool_decide (rq.1 = (n, p)))) (requests w) = true ->
  step q w (mkWorld (servers w) (replies w) ((n, p, v) :: requests w)
             (acks w) (choices w)).
Proof.
  intros d B M I N. apply (step_request q w n p d v).
  - intros re Hre. pose proof Hre as [(<- & <- & _) Hin]%list_elem_of_filter.
    unfold buildable in B. rewrite forallb_forall in B.
    specialize (B re ltac:(by apply list_elem_of_In)). to_prop.
    split_and!; try done. by apply freshb_fresh.
  - by apply majorityb_majority.
  - intros r x E Ex. unfold imposed in I. rewrite E in I. simpl in I.
    rewrite Ex in I. by to_prop.
  - intros v' Hin. rewrite forallb_forall in N.
    specialize (N _ ltac:(by apply list_elem_of_In)). simpl in N. to_prop. done.
Qed.

Lemma run_event_step e w w' : run_event e w = Some w' -> step q w w'.
Proof.
  destruct e; simpl; intros E.
  - destruct (servers w !! i) as [s|] eqn:Es; simpl in E; [|done].
    destruct (Server.propose q p s) as [r s'] eqn:P. simplify_eq.
    by eapply step_propose.
  - case_match eqn:C; simplify_eq. to_prop. by eapply run_request.
  - destruct (servers w !! i) as [s|] eqn:Es; simpl in E; [|done].
    case_bool_decide; [|done].
    destruct (Server.accept q p v s) as [r s'] eqn:P. simplify_eq.
    by eapply step_accept.
  - destruct (servers w !! i) as [s|] eqn:Es; simpl in E; [|done].
    destruct (chosenb _ _ _ _) eqn:C; simpl in E; [|done].
    case_bool_decide; [|done].
    destruct (Server.confirm q p s) as [r s'] eqn:P. simplify_eq.
    eapply step_confirm; [by eapply chosenb_chosen|done..].
  - case_match eqn:C; simplify_eq. eapply step_choose.
    by eapply chosenb_chosen.
Qed.

Lemma run_reachable V es w w' :
  reachable q V w -> run es w = Some w' -> reachable q V w'.
Proof.
  unfold run. revert w. induction es as [|e es IH]; intros w R; simpl.
  - by intros [= <-].
  - destruct (run_event e w) as [w1|] eqn:E.
    + apply IH. eapply reach_step; [done|by eapply run_event_step].
    + intros X. exfalso. revert X. clear. by induction es.
Qed.

(** Check what an execution ends with. *)
Lemma run_ends es w0 (f : @world T Id _ _ -> bool) :
  match run es w0 with Some w => f w | None => false end = true ->
  exists w, run es w0 = Some w /\ f w = true.
Proof. destruct (run es w0); [eauto|done]. Qed.

Definition faithfulb (w : @world T Id _ _) : bool :=
  forallb (fun re => implb (is_some (rvalue (re_response re)))
    (bool_decide (rproposal (re_response re) = re_accepted re))) (replies w).

Lemma faithfulb_faithful w : faithfulb w = true -> faithful w.
Proof.
  unfold faithfulb. rewrite forallb_forall. intros F re Hre V.
  specialize (F re ltac:(by apply list_elem_of_In)). rewrite V in F.
  simpl in F. by to_prop.
Qed.

Lemma faithful_faithfulb w : faithful w -> faithfulb w = true.
Proof.
  unfold faithfulb. intros F. apply forallb_forall. intros re Hre.
  destruct (is_some _) eqn:V; [|done]. simpl. apply bool_decide_eq_true.
  apply F; [by apply list_elem_of_In|done].
Qed.
End Runs.

(** *** Three servers that hold nothing, and clients 10 and up *)

Section Executions.
Abbreviation P r c := (mkProposal 0 r c).
Abbreviation v1 := (Val 1).
Abbreviation v2 := (Val 2).

Definition trio : gset Z := {[1; 2; 3]}.

Definition new_server (i : Z) : Server Z Z :=
  mkServer i trio None (Version.make 0 4 0) false None.

Definition start : @world Z Z _ _ :=
  mkWorld (<[1 := new_server 1]> (<[2 := new_server 2]>
    (<[3 := new_server 3]> ∅))) [] [] [] [].

Lemma start_reachable : reachable trio 0 start.
Proof.
  apply reach_init. split_and!; try done. simpl. intros i s.
  rewrite !lookup_insert_Some, lookup_empty.
  intros [[_ <-]|[_ [[_ <-]|[_ [[_ <-]|[_ ?]]]]]]; try done;
    (split_and!; intros ?; by intros).
Qed.

(** Client 10 gets its value accepted by server 1 only; client 11 hears of
    it from server 1 and completes the election; client 10 starts over and
    finds the same value. *)
Definition contended : list event := [
  EPropose 0 (P 1 10) 1; EPropose 0 (P 1 10) 2; EPropose 0 (P 1 10) 3;
  ERequest 0 (P 1 10) trio v1;
  EAccept 0 (P 1 10) v1 1;
  EPropose 1 (P 2 11) 1; EPropose 1 (P 2 11) 2;
  EAccept 0 (P 1 10) v1 2;
  ERequest 1 (P 2 11) {[1; 2]} v1;
  EAccept 1 (P 2 11) v1 1; EAccept 1 (P 2 11) v1 2;
  EConfirm (P 2 11) v1 {[1; 2]} 1;
  EChoose (P 2 11) v1 {[1; 2]};
  EPropose 2 (P 3 10) 2; EPropose 2 (P 3 10) 3;
  ERequest 2 (P 3 10) {[2; 3]} v1;
  EAccept 2 (P 3 10) v1 3; EAccept 2 (P 3 10) v1 2;
  EChoose (P 3 10) v1 {[2; 3]}
].

Lemma agreement_witness :
  exists w, run trio contended start = Some w /\
    (P 3 10, v1) ∈ choices w /\ (P 2 11, v1) ∈ choices w /\
    (v1 : Value Z Z) = v1.
Proof.
  destruct (run_ends trio contended start (fun w =>
    faithfulb w && bool_decide (choices w = [(P 3 10, v1); (P 2 11, v1)])))
    as (w & E & F); [by vm_compute|].
  exists w. apply andb_prop in F as [F C]. apply bool_decide_eq_true in C.
  assert ((P 3 10, v1) ∈ choices w /\ (P 2 11, v1) ∈ choices w) as [C1 C2].
  { rewrite C, !elem_of_cons. auto. }
  split; [exact E|]. split; [exact C1|]. split; [exact C2|].
  apply (agreement trio 0 w (P 3 10) (P 2 11));
    [|by apply faithfulb_faithful|exact C1|exact C2|reflexivity..].
  exact (run_reachable trio 0 contended start w start_reachable E).
Defined.

(** Client 10 gets its value accepted by server 1 only, then client 11 gets
    its own accepted by servers 2 and 3. Client 12 stops after server 1
    promised it a number; client 13 then takes the value of server 1 for
    one accepted at this number, above the one that was chosen, and submits
    it. Both clients 11 and 13 reach the end of [choose]: their
    confirmations are taken by a majority. *)
Definition mislabelled : list event := [
  EPropose 0 (P 1 10) 1; EPropose 0 (P 1 10) 2; EPropose 0 (P 1 10) 3;
  ERequest 0 (P 1 10) trio v1;
  EAccept 0 (P 1 10) v1 1;
  EPropose 1 (P 1 11) 2; EPropose 1 (P 1 11) 3;
  ERequest 1 (P 1 11) {[2; 3]} v2;
  EAccept 1 (P 1 11) v2 2; EAccept 1 (P 1 11) v2 3;
  EPropose 2 (P 2 12) 1;
  EPropose 3 (P 3 13) 1; EPropose 3 (P 3 13) 2;
  ERequest 3 (P 3 13) {[1; 2]} v1;
  EAccept 3 (P 3 13) v1 1; EAccept 3 (P 3 13) v1 2;
  EConfirm (P 1 11) v2 {[2; 3]} 2; EConfirm (P 1 11) v2 {[2; 3]} 3;
  EChoose (P 1 11) v2 {[2; 3]};
  EConfirm (P 3 13) v1 {[1; 2]} 1; EConfirm (P 3 13) v1 {[1; 2]} 2;
  EChoose (P 3 13) v1 {[1; 2]}
].

(** Without the hypothesis of the previous theorem agreement is lost: a
    server that promised a number above the one it accepted a value at
    reports this value under the promised number, and in the run above the
    version is chosen twice, with different values. *)
Theorem mislabelled_agreement_fails :
  exists w, reachable trio 0 w /\ ~ faithful w /\
    (P 1 11, v2) ∈ choices w /\ (P 3 13, v1) ∈ choices w.
Proof.
  destruct (run_ends trio mislabelled start (fun w =>
    negb (faithfulb w) &&
    bool_decide (choices w = [(P 3 13, v1); (P 1 11, v2)])))
    as (w & E & F); [by vm_compute|].
  to_prop. rename H0 into C.
  assert (reachable trio 0 w) as R
    by exact (run_reachable trio 0 mislabelled start w start_reachable E).
  exists w. rewrite C, !elem_of_cons. split; [exact R|]. split; [|auto].
  intros X%faithful_faithfulb. congruence.
Qed.
End Executions.
