(* ===== verification/PaxosLiveness.v ===== *)
(** The proposer of PaxosClient.v against the servers of PaxosServer.v, on a
    network without faults but for the servers that are down: [choose] returns.

    [cluster] are the servers that are up. No other client runs: the servers may
    have promised or accepted anything for the version beforehand, have confirmed
    the version before, or be late. Two turns of the loop of [choose] are enough,
    as a turn that is refused learns the highest number promised. *)

From stdpp Require Import base tactics option list gmap.
From Stdlib Require Import ZArith Lia String.
From S2P Require Import Prelude Versions PaxosServer PaxosClient.
Open Scope Z_scope.

(** ** The network *)

Section Cluster.
Context {T Id E : Type} `{Identifier Id}.

Abbreviation cluster := (gmap Id (Server T Id)).

(** A call is served, unless the server is down. *)
Definition on_server {A : Type} (i : Id) (m : method (Server T Id) (error Id) A) :
    method cluster (exn Id E) A :=
  fun n =>
    match n !! i with
    | None => (Throw Unavailable, n)
    | Some s =>
        let '(r, s') := m s in
        (match r with Ok a => Ok a | Throw e => Throw (ServerError e) end,
         <[i := s']> n)
    end.

Context (schedule : cluster -> list Id -> list Id)
  (schedule_perm : forall n l, schedule n l ≡ₚ l).

Definition cluster_network : Network T Id E cluster := {|
  net_order := schedule;
  net_propose := fun i q p => on_server i (Server.propose q p);
  net_accept := fun i q p v => on_server i (Server.accept q p v);
  net_confirm := fun i q p => on_server i (Server.confirm q p);
  net_get := fun i q => on_server i (Server.get q);
  net_order_perm := schedule_perm;
|}.
End Cluster.
Abbreviation cluster T Id := (gmap Id (Server T Id)).

(** ** A server asked about its current version *)

Section Ready.
Context {T Id : Type} `{Identifier Id}.
Variables (v : Z) (q : gset Id).
Implicit Types (s : Server T Id) (p : Proposal Id).

(** The server belongs to the quorum [q], or is partial and does not know to which
    it belongs, and the election it knows of, if any, is that of the version [v],
    and not the election of a quorum. *)
Definition member s : Prop :=
  if spartial s then Version.ltb (selle s) (Version.make 0 1 0) = false else squorum s = q.
Definition ready s : Prop :=
  member s /\
  match sstate s with
  | None => True
  | Some (mkState pr acc) =>
      pversion pr = v /\
      match acc with
      | None => True
      | Some a => pversion (aproposal a) = v /\ is_quorum (avalue a) = false
      end
  end.

Definition response p s : Response T Id :=
  match sstate s with
  | None => mkResponse None None false
  | Some (mkState prev acc) =>
      match acc with
      | Some a => mkResponse (Some prev) (Some (avalue a)) (aconfirmed a)
      | None =>
          mkResponse (if proposal_ltb prev p then None else Some prev) None false
      end
  end.

Definition promising p s : Server T Id :=
  match sstate s with
  | None => Server.set_state (Some (mkState p None)) s
  | Some (mkState prev acc) =>
      if proposal_ltb prev p then Server.set_state (Some (mkState p acc)) s else s
  end.

Definition accepting p (x : Value T Id) s : Server T Id :=
  Server.set_state (Some (mkState p (Some (mkAccepted p x false)))) s.

(** Confirming tells a partial server its quorum. *)
Definition confirming p (x : Value T Id) s : Server T Id :=
  mkServer (sid s) (if spartial s then q else squorum s) (svalue s) (selle s) false
    (Some (mkState p (Some (mkAccepted p x true)))).

Lemma ready_expected s (p : option (Proposal Id)) :
  ready s -> spartial s = false -> Server.check_quorum q p s = (Ok tt, s).
Proof.
  intros [Me St] Pa. unfold member in Me. rewrite Pa in Me.
  apply Server.check_quorum_accepts. unfold Server.expected_quorum, Server.accepted_of.
  destruct (sstate s) as [[pr [[ap [x|q'] []]|]]|]; cbn; try done.
  by destruct St as (_ & _ & ?).
Qed.

Lemma ready_check s (p : option (Proposal Id)) :
  ready s -> when (negb (spartial s)) (Server.check_quorum q p) s = (Ok tt, s).
Proof. intros R. destruct (spartial s) eqn:Pa; [done|]. by apply ready_expected. Qed.

(** What [propose] does before it promises. *)
Definition enter p : method (Server T Id) (error Id) unit :=
  s ← read;
  if Server.check_confirmed p s then
    Server.check_quorum q (Some p);; Server.commit_previous p
  else
    when (negb (spartial s))
      (modify (Server.set_partial true);; modify (Server.set_state None)).

Lemma propose_enters p s s' : Server.newer_accepted p s = None -> enter p s = (Ok tt, s') ->
  Server.propose q p s = Server.promise p s'.
Proof.
  intros En E. unfold Server.propose. rewrite bind_read, En.
  unfold enter in E. rewrite bind_read in E. by rewrite (bind_Ok _ _ _ _ _ E).
Qed.

Lemma promise_response p s :
  Server.promise p s = (Ok (response p s), promising p s).
Proof.
  unfold response, promising. destruct (sstate s) as [[pr acc]|] eqn:Es.
  - destruct (proposal_ltb pr p) eqn:L.
    + rewrite (Server.promise_lt _ _ _ _ Es L). by destruct acc.
    + rewrite (Server.promise_ge _ _ _ _ Es L). by destruct acc.
  - by rewrite Server.promise_None.
Qed.

Lemma enter_ready p s : ready s -> pversion p = v -> enter p s = (Ok tt, s).
Proof.
  intros R Ev. unfold enter. rewrite bind_read. destruct (spartial s) eqn:Pa.
  - unfold Server.check_confirmed. rewrite Pa. destruct R as [Me _]. unfold member in Me.
    rewrite Pa in Me. by rewrite Me.
  - assert (Server.check_confirmed p s = true) as ->.
    { unfold Server.check_confirmed. rewrite Pa. destruct (Version.ltb _ _); [done|].
      destruct R as [_ St]. destruct (sstate s) as [[pr acc]|]; [|done].
      destruct St as [E _]. cbn. by rewrite E, Ev, Z.leb_refl. }
    rewrite (bind_Ok _ _ _ _ _ (ready_expected s (Some p) R Pa)).
    unfold Server.commit_previous. rewrite bind_read. destruct R as [_ St].
    destruct (sstate s) as [[pr acc]|]; [|done]. destruct St as [E _]. cbn [vproposal].
    by rewrite E, Ev, Z.ltb_irrefl.
Qed.

Lemma propose_ready p s :
  ready s -> pversion p = v ->
  Server.propose q p s = (Ok (response p s), promising p s).
Proof.
  intros R Ev. rewrite (propose_enters p s s); [apply promise_response| |by apply enter_ready].
  destruct R as (_ & St). unfold Server.newer_accepted, Server.accepted_of.
  destruct (sstate s) as [[pr [[ap x c]|]]|]; cbn; try done.
  destruct St as (_ & Ea & _). cbn in Ea. by rewrite Ea, Ev, Z.ltb_irrefl.
Qed.

Lemma promising_ready p s : ready s -> pversion p = v -> ready (promising p s).
Proof.
  intros (Me & St) Ev. unfold promising.
  destruct (sstate s) as [[pr acc]|] eqn:Es; [|by split_and!].
  destruct (proposal_ltb pr p); [|by unfold ready; rewrite Es].
  destruct St as [_ St]. by split_and!.
Qed.

(** The server promised [p], and confirmed nothing. *)
Definition promised_to p s : Prop :=
  exists acc, sstate s = Some (mkState p acc) /\
    match acc with Some a => aconfirmed a = false | None => True end.

Lemma accept_ready p (x : Value T Id) s :
  ready s -> promised_to p s ->
  Server.accept q p x s = (Ok p, accepting p x s).
Proof.
  intros R (acc & Es & C). unfold Server.accept.
  rewrite bind_read, (bind_Ok _ _ _ _ _ (ready_check s (Some p) R)).
  rewrite Es. cbn [vproposal vaccepted]. rewrite plt_irrefl.
  destruct acc as [a|]; [|done]. by rewrite C.
Qed.

Lemma accepting_ready p (x : T) s :
  ready s -> pversion p = v -> ready (accepting p (Val x) s).
Proof. intros (Me & St) Ev. by split_and!. Qed.

Lemma confirm_ready p (x : T) s :
  ready s -> pversion p = v ->
  Server.confirm q p (accepting p (Val x) s) = (Ok tt, confirming p (Val x) s).
Proof.
  intros R Ev. pose proof (accepting_ready p x s R Ev) as R'.
  unfold Server.confirm. rewrite bind_read.
  cbn [accepting Server.set_state sstate vproposal]. rewrite Z.ltb_irrefl.
  rewrite (bind_Ok _ _ _ _ _ (ready_check _ (Some p) R')).
  rewrite plt_irrefl. cbn [aconfirmed negb when].
  unfold confirming, accepting, Server.set_state, when. cbn. by destruct (spartial s) eqn:Pa; cbn; rewrite ?Pa.
Qed.

Lemma confirming_ready p (x : T) s :
  ready s -> pversion p = v ->
  spartial (confirming p (Val x) s) = false /\ ready (confirming p (Val x) s).
Proof.
  intros (Me & _) Ev. unfold confirming, ready, member in *.
  destruct (spartial s); by split_and!.
Qed.

Lemma get_ready p (x : T) s :
  ready s -> pversion p = v ->
  Server.get q (confirming p (Val x) s) =
  (Ok (Some (mkAccepted p (Val x) true)), confirming p (Val x) s).
Proof.
  intros R Ev. destruct (confirming_ready p x s R Ev) as [Pa R'].
  unfold Server.get. by rewrite (bind_Ok _ _ _ _ _ (ready_expected _ None R' Pa)).
Qed.

(** *** A server that knows an earlier version *)

(** What a server does of the version it knows of when a proposal for [v] opens
    another: it commits it if it is the one before and is confirmed, and is partial
    otherwise. *)
Definition opened s : Server T Id :=
  match sstate s with
  | Some st =>
      if pversion (vproposal st) <? v then
        if (pversion (vproposal st) =? v - 1) && Server.state_confirmed st then
          Server.set_state None
            match vaccepted st with
            | Some (mkAccepted _ (Val y) _) => Server.set_value (Some y) s
            | Some (mkAccepted _ (Quo q') _) => Server.set_quorum q' s
            | None => s
            end
        else Server.set_state None (Server.set_partial true s)
      else s
  | None => s
  end.

(** The server may take part in the version [v]: it is [ready], or it knows of an
    earlier version, of which, if it is the one before and is confirmed, [q] is the
    quorum. *)
Definition able s : Prop :=
  match sstate s with
  | Some st =>
      if pversion (vproposal st) <? v then
        spartial s = false /\ Version.ltb (selle s) (Version.make 0 1 0) = false /\
        Server.wf s /\
        ((pversion (vproposal st) =? v - 1) && Server.state_confirmed st = true ->
         Server.current_quorum s = q)
      else ready s
  | None => ready s
  end.

Lemma ready_able s : ready s -> able s.
Proof.
  intros R. unfold able. pose proof R as [_ St]. destruct (sstate s) as [[pr acc]|]; [|done].
  destruct St as [E _]. cbn. by rewrite E, Z.ltb_irrefl.
Qed.

Lemma opened_ready s : able s -> ready (opened s).
Proof.
  unfold able, opened. destruct (sstate s) as [[pr acc]|] eqn:Es; [|done]. cbn [vproposal].
  destruct (pversion pr <? v); [|done]. intros (Pa & Ve & _ & Qu).
  destruct (_ && _) eqn:C; [|by split].
  split; [|done]. unfold member. specialize (Qu eq_refl).
  unfold Server.current_quorum, Server.accepted_of in Qu. rewrite Es in Qu.
  apply andb_true_iff in C as [_ C]. unfold Server.state_confirmed in C.
  destruct acc as [[ap [y|q'] cf]|]; cbn in C, Qu |- *; [|subst cf|done]; by rewrite Pa.
Qed.

Lemma accepted_version s a : Server.wf s -> Server.accepted_of s = Some a ->
  exists st, sstate s = Some st /\ vaccepted st = Some a /\
    pversion (aproposal a) <= pversion (vproposal st).
Proof.
  intros W A. unfold Server.accepted_of in A. destruct (sstate s) as [st|] eqn:Es; [|done].
  cbn in A. exists st. split; [done|]. split; [done|]. by apply ple_version, (W st a).
Qed.

Lemma enter_opens p s st : sstate s = Some st -> pversion (vproposal st) < v -> able s ->
  pversion p = v -> enter p s = (Ok tt, opened s).
Proof.
  intros Es Lt A Ev. unfold able in A. rewrite Es, (proj2 (Z.ltb_lt _ _) Lt) in A.
  destruct A as (Pa & Ve & W & Qu). unfold enter, opened, Server.check_confirmed.
  rewrite bind_read, Ve, Pa, Es, (proj2 (Z.ltb_lt _ _) Lt), Ev.
  rewrite (proj2 (Z.leb_gt _ _) Lt).
  destruct (_ && _) eqn:C; [|done]. specialize (Qu eq_refl).
  apply andb_true_iff in C as [C1 C2]. unfold Server.state_confirmed in C2.
  destruct (vaccepted st) as [[ap y cf]|] eqn:Va; [|done]. cbn in C2. subst cf.
  assert (Server.accepted_of s = Some (mkAccepted ap y true)) as Ea
    by (unfold Server.accepted_of; by rewrite Es).
  destruct (accepted_version s _ W Ea) as (st' & Es' & _ & L). rewrite Es in Es'.
  injection Es' as <-. cbn in L.
  rewrite (bind_Ok _ _ _ tt s).
  - unfold Server.commit_previous. rewrite bind_read, Es, Ev, (proj2 (Z.ltb_lt _ _) Lt), Va.
    by destruct y.
  - apply Server.check_quorum_accepts. rewrite <- Qu.
    unfold Server.expected_quorum, Server.current_quorum. rewrite Ea, Ev.
    destruct y; [done|]. by rewrite (proj2 (Z.ltb_lt (pversion ap) v)) by lia.
Qed.

Lemma propose_opens p s : able s -> pversion p = v ->
  Server.propose q p s = (Ok (response p (opened s)), promising p (opened s)).
Proof.
  intros A Ev. destruct (sstate s) as [st|] eqn:Es.
  2: { unfold able in A. unfold opened. rewrite Es in *. by apply propose_ready. }
  destruct (Z.ltb_spec (pversion (vproposal st)) v) as [Lt|Ge].
  - rewrite (propose_enters p s (opened s)); [apply promise_response| |by eapply enter_opens].
    unfold Server.newer_accepted. destruct (Server.accepted_of s) as [a|] eqn:Ea; [|done]. cbn.
    assert (Server.wf s) as W.
    { unfold able in A. rewrite Es, (proj2 (Z.ltb_lt _ _) Lt) in A. apply A. }
    destruct (accepted_version s a W Ea) as (st' & Es' & _ & L). rewrite Es in Es'.
    injection Es' as <-. by rewrite (proj2 (Z.ltb_ge _ _)) by lia.
  - unfold able in A. unfold opened. rewrite Es in *. apply Z.ltb_ge in Ge. rewrite Ge in *.
    by apply propose_ready.
Qed.

(** What the server accepted for [v]. *)
Definition accepted_at s : option (Accepted T Id) :=
  a ← Server.accepted_of s; if pversion (aproposal a) =? v then Some a else None.

Lemma accepted_opened s : able s -> Server.accepted_of (opened s) = accepted_at s.
Proof.
  unfold able, opened, accepted_at. destruct (sstate s) as [st|] eqn:Es.
  2: { intros _. unfold Server.accepted_of. by rewrite Es. }
  destruct (Z.ltb_spec (pversion (vproposal st)) v) as [Lt|Ge].
  - intros (_ & _ & W & _).
    assert (Server.accepted_of s ≫= (fun a => if pversion (aproposal a) =? v then Some a else None)
      = None) as ->.
    { destruct (Server.accepted_of s) as [a|] eqn:Ea; [|done]. cbn.
      destruct (accepted_version s a W Ea) as (st' & Es' & _ & L). rewrite Es in Es'.
      injection Es' as <-. by rewrite (proj2 (Z.eqb_neq _ _)) by lia. }
    by destruct (_ && _).
  - intros [_ St]. rewrite Es in St. unfold Server.accepted_of. rewrite Es.
    destruct st as [pr [a|]]; [|done]. cbn. destruct St as (_ & -> & _). by rewrite Z.eqb_refl.
Qed.
End Ready.

(** ** The phases *)

Section Phases.
Context {T Id E : Type} `{Identifier Id}.
Context (schedule : gmap Id (Server T Id) -> list Id -> list Id)
  (schedule_perm : forall n l, schedule n l ≡ₚ l).
Abbreviation cluster := (gmap Id (Server T Id)).
#[local] Hint Extern 0 (Network _ _ _ _) =>
  exact (cluster_network schedule schedule_perm) : typeclass_instances.
Implicit Types (n : cluster) (f : Server T Id -> Server T Id) (X : gset Id).

(** The servers of [X] have served a request. *)
Definition served f X n : cluster :=
  map_imap (fun i s => Some (if bool_decide (i ∈ X) then f s else s)) n.

Lemma served_lookup f X n i :
  served f X n !! i = (fun s => if bool_decide (i ∈ X) then f s else s) <$> n !! i.
Proof. unfold served. rewrite map_lookup_imap. by destruct (n !! i). Qed.

Lemma served_empty f n : served f ∅ n = n.
Proof. apply map_eq. intros i. rewrite served_lookup. by destruct (n !! i). Qed.

(** Serving [i], then the others. *)
Lemma served_insert f X n i s :
  i ∉ X -> n !! i = Some s ->
  served f X (<[i := f s]> n) = served f ({[i]} ∪ X) n.
Proof.
  intros N E0. apply map_eq. intros j. rewrite !served_lookup.
  destruct (decide (j = i)) as [->|D].
  - rewrite lookup_insert_eq, E0. cbn.
    rewrite bool_decide_false, bool_decide_true by set_solver. done.
  - rewrite lookup_insert_ne by done. destruct (n !! j); [|done]. cbn.
    f_equal. destruct (decide (j ∈ X)).
    + by rewrite !bool_decide_true by set_solver.
    + by rewrite !bool_decide_false by set_solver.
Qed.

Lemma served_absent f X n i :
  n !! i = None -> served f ({[i]} ∪ X) n = served f X n.
Proof.
  intros E0. apply map_eq. intros j. rewrite !served_lookup.
  destruct (decide (j = i)) as [->|D]; [by rewrite E0|].
  destruct (n !! j); [|done]. cbn. f_equal. destruct (decide (j ∈ X)).
  - by rewrite !bool_decide_true by set_solver.
  - by rewrite !bool_decide_false by set_solver.
Qed.

Lemma served_served f g X n : served g X (served f X n) = served (fun s => g (f s)) X n.
Proof.
  apply map_eq. intros i. rewrite !served_lookup. destruct (n !! i); [|done].
  cbn. by destruct (bool_decide _).
Qed.

(** The servers of [X] that are up. *)
Definition up X n : gset Id := filter (fun i => is_some (n !! i) = true) X.

Lemma elem_of_up X n i : i ∈ up X n <-> i ∈ X /\ exists s, n !! i = Some s.
Proof.
  unfold up. rewrite elem_of_filter. split.
  - intros [U I]. split; [done|]. destruct (n !! i); [by eexists|done].
  - intros [I [s ->]]. done.
Qed.

Lemma up_served f X Y n : up X (served f Y n) = up X n.
Proof.
  apply set_eq. intros i. rewrite !elem_of_up, served_lookup.
  split; intros [I [s E0]]; (split; [done|]).
  - destruct (n !! i); [by eexists|done].
  - rewrite E0. by eexists.
Qed.

Lemma up_cons X n i :
  i ∉ X ->
  Z.of_nat (size (up ({[i]} ∪ X) n)) =
  (if is_some (n !! i) then 1 else 0) + Z.of_nat (size (up X n)).
Proof.
  intros N. destruct (n !! i) as [s|] eqn:E0; cbn.
  - assert (up ({[i]} ∪ X) n = {[i]} ∪ up X n) as ->.
    { apply set_eq. intros j. rewrite elem_of_union, !elem_of_up, elem_of_union,
        elem_of_singleton. split; [by intros [[->|]]; auto|].
      intros [->|[]]; eauto. }
    rewrite size_union, size_singleton by (rewrite disjoint_singleton_l, elem_of_up; tauto).
    lia.
  - assert (up ({[i]} ∪ X) n = up X n) as ->; [|lia].
    apply set_eq. intros j. rewrite !elem_of_up, elem_of_union, elem_of_singleton.
    split; [|naive_solver]. intros [[->|] [s Es]]; [congruence|eauto].
Qed.

Lemma up_insert X n i s s' : n !! i = Some s -> up X (<[i := s']> n) = up X n.
Proof.
  intros E0. apply set_eq. intros j. rewrite !elem_of_up.
  destruct (decide (j = i)) as [->|D]; [rewrite lookup_insert_eq, E0|by rewrite lookup_insert_ne].
  split; intros [I _]; eauto.
Qed.

Variables (v : Z) (q : gset Id).

(** A call to a server that is up, and to one that is down. *)
Lemma call_up {A : Type} i (m : method (Server T Id) (error Id) A) n s a s' :
  n !! i = Some s -> m s = (Ok a, s') ->
  on_server (E := E) i m n = (Ok a, <[i := s']> n).
Proof. intros E0 Em. unfold on_server. by rewrite E0, Em. Qed.

Lemma call_down {A : Type} i (m : method (Server T Id) (error Id) A) n :
  n !! i = None -> on_server (E := E) i m n = (Throw Unavailable, n).
Proof. intros E0. unfold on_server. by rewrite E0. Qed.

Lemma up_reached X n i :
  i ∉ X -> forall r,
  r + Z.of_nat (size (up ({[i]} ∪ X) n)) =
  (if is_some (n !! i) then r + 1 else r) + Z.of_nat (size (up X n)).
Proof. intros N r. rewrite up_cons by done. destruct (is_some _); lia. Qed.

Lemma others_ready (P : Server T Id -> Prop) i peers n s s' :
  i ∉ peers -> n !! i = Some s ->
  (forall j t, j ∈ i :: peers -> n !! j = Some t -> P t) ->
  forall j t, j ∈ peers -> <[i := s']> n !! j = Some t -> P t.
Proof.
  intros N E0 R j t J E1. rewrite lookup_insert_ne in E1 by (intros ->; done).
  apply (R j); [by right|done].
Qed.

(** What a phase leaves: the servers reached, the ones found to be down. *)
Definition phase_ends X n (ph ph' : Client.Phase (Id := Id) (E := E)) : Prop :=
  Client.reached ph' = Client.reached ph + Z.of_nat (size (up X n)) /\
  (forall i, i ∈ Client.unavailables ph' <->
    i ∈ Client.unavailables ph \/ (i ∈ X /\ n !! i = None)) /\
  Client.weak_error ph' = Client.weak_error ph.

Lemma ends_nil n ph : phase_ends ∅ n ph ph.
Proof.
  split; [|split; [set_solver|done]].
  assert (up ∅ n = ∅) as ->; [|rewrite size_empty; lia].
  apply set_eq. intros i. rewrite elem_of_up. set_solver.
Qed.

Lemma ends_up i X n ph ph' s s' :
  i ∉ X -> n !! i = Some s ->
  phase_ends X (<[i := s']> n) (Client.phase_reached ph) ph' ->
  phase_ends ({[i]} ∪ X) n ph ph'.
Proof.
  intros N E0 (Re & Un & We). split; [|split; [|done]].
  - rewrite Re, up_reached, (up_insert _ _ _ _ _ E0), E0 by done. done.
  - intros j. rewrite Un, elem_of_union, elem_of_singleton. cbn.
    destruct (decide (j = i)) as [->|D].
    + rewrite lookup_insert_eq, E0. naive_solver.
    + rewrite lookup_insert_ne by done. naive_solver.
Qed.

Lemma ends_down i X n ph ph' :
  i ∉ X -> n !! i = None ->
  phase_ends X n (Client.mkPhase (Client.reached ph)
    ({[i]} ∪ Client.unavailables ph) (Client.weak_error ph)) ph' ->
  phase_ends ({[i]} ∪ X) n ph ph'.
Proof.
  intros N E0 (Re & Un & We). split; [|split; [|done]].
  - rewrite Re, up_reached, E0 by done. done.
  - intros j. rewrite Un. cbn. rewrite !elem_of_union, !elem_of_singleton.
    naive_solver.
Qed.

Lemma ends_skip i X n ph ph' :
  i ∉ X -> n !! i = None -> i ∈ Client.unavailables ph ->
  phase_ends X n ph ph' -> phase_ends ({[i]} ∪ X) n ph ph'.
Proof.
  intros N E0 I (Re & Un & We). split; [|split; [|done]].
  - rewrite Re, up_reached, E0 by done. done.
  - intros j. rewrite Un, elem_of_union, elem_of_singleton. naive_solver.
Qed.

(** Every proposal is answered, by [resp], and leaves a server to [f]. *)
Lemma propose_phase (p : Proposal Id) (resp : Server T Id -> Response T Id) f peers
    (ph : Client.Phase (Id := Id) (E := E)) n :
  NoDup peers ->
  (forall i s, i ∈ peers -> n !! i = Some s ->
    Server.propose q p s = (Ok (resp s), f s)) ->
  exists ph', phase_ends (list_to_set peers) n ph ph' /\
  Client.propose_all q p peers ph n =
  (Ok (ph', resp <$> omap (fun i => n !! i) peers),
   served f (list_to_set peers) n).
Proof.
  intros ND. revert ph n. induction ND as [|i peers N ND IH]; intros ph n R.
  - exists ph. split; [apply ends_nil|]. cbn. by rewrite served_empty.
  - cbn [Client.propose_all list_to_set omap]. cbn.
    assert (i ∉ (list_to_set peers : gset Id)) as NX by (by rewrite elem_of_list_to_set).
    destruct (n !! i) as [s|] eqn:E0.
    + rewrite (call_up i _ _ _ _ _ E0 (R i s ltac:(left) E0)).
      destruct (IH (Client.phase_reached ph) (<[i := f s]> n)
        (others_ready _ i peers n s _ N E0 R)) as (ph' & En & ->).
      exists ph'. split; [by eapply ends_up|]. cbn.
      rewrite served_insert by done. do 3 f_equal.
      assert (omap (fun j => <[i := f s]> n !! j) peers =
        omap (fun j => n !! j) peers) as ->; [|done].
      apply list_omap_ext, Forall_Forall2_diag, Forall_forall. intros j J.
      rewrite lookup_insert_ne; [done|]. by intros ->.
    + rewrite (call_down i _ _ E0). cbn.
      edestruct IH as (ph' & En & ->); [intros; by eapply R; [right|]|].
      exists ph'. split; [by apply ends_down|]. by rewrite served_absent.
Qed.

(** Every server that promised accepts. *)
Lemma accept_phase (p : Proposal Id) (x : Value T Id) peers
    (ph : Client.Phase (Id := Id) (E := E)) n :
  NoDup peers ->
  (forall i s, i ∈ peers -> n !! i = Some s -> ready v q s /\ promised_to p s) ->
  (forall i, i ∈ peers -> i ∈ Client.unavailables ph <-> n !! i = None) ->
  exists ph', phase_ends (list_to_set peers) n ph ph' /\
  Client.accept_all q p x peers ph n =
  (Ok (ph', None), served (accepting p x) (list_to_set peers) n).
Proof.
  intros ND. revert ph n. induction ND as [|i peers N ND IH]; intros ph n R U.
  - exists ph. split; [apply ends_nil|]. cbn. by rewrite served_empty.
  - cbn [Client.accept_all list_to_set]. cbn.
    assert (i ∉ (list_to_set peers : gset Id)) as NX by (by rewrite elem_of_list_to_set).
    destruct (n !! i) as [s|] eqn:E0.
    + rewrite bool_decide_false by (rewrite U, E0; [done|left]).
      destruct (R i s ltac:(left) E0) as [Rs Ps].
      rewrite (call_up i _ _ _ _ _ E0 (accept_ready v q p x s Rs Ps)), plt_irrefl.
      destruct (IH (Client.phase_reached ph) (<[i := accepting p x s]> n))
        as (ph' & En & ->).
      { by apply (others_ready _ i peers n s _ N E0). }
      { intros j J. rewrite lookup_insert_ne by (by intros ->). cbn.
        apply U. by right. }
      exists ph'. split; [by eapply ends_up|]. by rewrite served_insert.
    + rewrite bool_decide_true by (rewrite U, E0; [done|left]).
      destruct (IH ph n) as (ph' & En & ->).
      { intros j t J. apply R. by right. }
      { intros j J. apply U. by right. }
      exists ph'. rewrite served_absent by done. split; [|done].
      apply ends_skip; try done. apply U; [by left|done].
Qed.

(** Every server that accepted confirms. *)
Lemma confirm_phase (p : Proposal Id) (x : Value T Id) peers
    (ph : Client.Phase (Id := Id) (E := E)) n :
  NoDup peers ->
  (forall i s, i ∈ peers -> n !! i = Some s ->
    Server.confirm q p s = (Ok tt, confirming q p x s)) ->
  (forall i, i ∈ peers -> i ∈ Client.unavailables ph <-> n !! i = None) ->
  exists ph', phase_ends (list_to_set peers) n ph ph' /\
  Client.confirm_all q p peers ph n =
  (Ok ph', served (confirming q p x) (list_to_set peers) n).
Proof.
  intros ND. revert ph n. induction ND as [|i peers N ND IH]; intros ph n R U.
  - exists ph. split; [apply ends_nil|]. cbn. by rewrite served_empty.
  - cbn [Client.confirm_all list_to_set]. cbn.
    assert (i ∉ (list_to_set peers : gset Id)) as NX by (by rewrite elem_of_list_to_set).
    destruct (n !! i) as [s|] eqn:E0.
    + rewrite bool_decide_false by (rewrite U, E0; [done|left]).
      rewrite (call_up i _ _ _ _ _ E0 (R i s ltac:(left) E0)).
      destruct (IH (Client.phase_reached ph) (<[i := confirming q p x s]> n))
        as (ph' & En & ->).
      { by apply (others_ready _ i peers n s _ N E0). }
      { intros j J. rewrite lookup_insert_ne by (by intros ->). cbn.
        apply U. by right. }
      exists ph'. split; [by eapply ends_up|]. by rewrite served_insert.
    + rewrite bool_decide_true by (rewrite U, E0; [done|left]).
      destruct (IH ph n) as (ph' & En & ->).
      { intros j t J. apply R. by right. }
      { intros j J. apply U. by right. }
      exists ph'. rewrite served_absent by done. split; [|done].
      apply ends_skip; try done. apply U; [by left|done].
Qed.

(** Every server that confirmed answers the value. *)
Lemma get_phase (p : Proposal Id) (x : Value T Id) peers
    (rd : Client.Reading (T := T) (Id := Id) (E := E)) n :
  NoDup peers ->
  (forall i s, i ∈ peers -> n !! i = Some s ->
    Server.get q s = (Ok (Some (mkAccepted p x true)), s)) ->
  Client.rd_wrong rd = None ->
  (Client.rd_res rd = None \/ Client.rd_res rd = Some (mkAccepted p x true)) ->
  exists rd', Client.get_all q peers rd n = (Ok rd', n) /\
    Client.rd_wrong rd' = None /\
    Client.reached (Client.rd_phase rd') =
      Client.reached (Client.rd_phase rd) +
      Z.of_nat (size (up (list_to_set peers) n)) /\
    Client.rd_res rd' =
      (if bool_decide (up (list_to_set peers) n = ∅) then Client.rd_res rd
       else Some (mkAccepted p x true)).
Proof.
  intros ND. revert rd. induction ND as [|i peers N ND IH]; intros rd R W A.
  - exists rd. cbn [list_to_set]. destruct (ends_nil n (Client.phase_init ∅)) as [Z0 _].
    cbn in Z0. rewrite bool_decide_true; [|apply set_eq; intros i; rewrite elem_of_up; set_solver].
    split_and!; [done..|lia|done].
  - cbn [Client.get_all list_to_set]. cbn.
    assert (i ∉ (list_to_set peers : gset Id)) as NX by (by rewrite elem_of_list_to_set).
    rewrite up_reached by done. destruct (n !! i) as [s|] eqn:E0; cbn [is_some].
    + rewrite (call_up i _ _ _ _ _ E0 (R i s ltac:(left) E0)), insert_id by done.
      edestruct (IH (Client.read_answer (Some (mkAccepted p x true)) rd))
        as (rd' & -> & W' & Re & A').
      { intros j t J. apply R. by right. }
      { done. }
      { right. cbn. destruct A as [->| ->]; [done|]. cbn. by destruct (proposal_ltb _ _). }
      exists rd'. split_and!; [done|done|by rewrite Re|].
      rewrite A', (bool_decide_false (up ({[i]} ∪ _) n = ∅)).
      * case_bool_decide; [|done]. cbn. destruct A as [->| ->]; [done|]. cbn.
        by destruct (proposal_ltb _ _).
      * intros Em. assert (i ∈ up ({[i]} ∪ list_to_set peers) n) as I1
          by (apply elem_of_up; split; [set_solver|eauto]). set_solver.
    + rewrite (call_down i _ _ E0). cbn.
      edestruct (IH rd) as (rd' & -> & W' & Re & A'); try done.
      { intros j t J. apply R. by right. }
      exists rd'. split_and!; [done|done|done|]. rewrite A'.
      assert (up ({[i]} ∪ list_to_set peers) n = up (list_to_set peers) n) as ->; [|done].
      apply set_eq. intros j. rewrite !elem_of_up, elem_of_union, elem_of_singleton.
      split; [|naive_solver]. intros [[->|] [s Es]]; [congruence|eauto].
Qed.
End Phases.

(** ** The highest number *)

Section Highest.
Context {T Id : Type} `{Identifier Id}.
Implicit Types (rs : list (Response T Id)).

Lemma highest_above rs r x :
  r ∈ rs -> rproposal r = Some x ->
  exists h, Client.highest rs = Some h /\ x ≤p h.
Proof.
  intros I Ex. unfold Client.highest.
  destruct rs as [|r0 rs]; [by apply not_elem_of_nil in I|]. cbn.
  assert (Client.proposed (fold_left
    (fun m y => if Client.proposed m y then y else m) rs r0) r = false) as U.
  { apply fold_max_ub; [..|done]; unfold Client.proposed.
    - intros a. apply opt_ltb_irrefl.
    - intros a b c. generalize (rproposal a), (rproposal b), (rproposal c).
      intros [x1|] [x2|] [x3|]; cbn; try done. intros L1 L2. exact (ple_trans _ _ _ L2 L1).
    - intros a b. generalize (rproposal a), (rproposal b).
      intros [x1|] [x2|]; cbn; try done. apply plt_asym. }
  unfold Client.proposed at 1 in U. rewrite Ex in U.
  destruct (rproposal (fold_left _ rs r0)) as [h|]; [|done]. by exists h.
Qed.

Lemma highest_in rs h :
  Client.highest rs = Some h -> exists r, r ∈ rs /\ rproposal r = Some h.
Proof.
  unfold Client.highest. destruct (max_element _ _) as [r|] eqn:M; [|done].
  intros E. exists r. split; [by eapply max_element_in|done].
Qed.

Lemma replacement_in rs o w :
  Client.replacement rs o = Some w ->
  o = Some w \/ exists r, r ∈ rs /\ rvalue r = Some w.
Proof.
  unfold Client.replacement. destruct (max_element _ _) as [r|] eqn:M; [|auto].
  apply max_element_in in M. destruct (rvalue r) eqn:E; [|auto].
  intros [= ->]. eauto.
Qed.
End Highest.

(** ** One turn, and the loop *)

Section Loop.
Context {T Id E : Type} `{Identifier Id}.
Context (schedule : gmap Id (Server T Id) -> list Id -> list Id)
  (schedule_perm : forall n l, schedule n l ≡ₚ l).
Abbreviation cluster := (gmap Id (Server T Id)).
#[local] Hint Extern 0 (Network _ _ _ _) =>
  exact (cluster_network schedule schedule_perm) : typeclass_instances.
Implicit Types (n : cluster) (c : Client.Client (Id := Id)) (p : Proposal Id)
  (s : Server T Id).
Variables (v : Z) (peers : list Id).
Hypothesis peers_nodup : NoDup peers.
Abbreviation q := (list_to_set peers : gset Id).

(** The quorum is served by ready servers, a majority of which is up. *)
Definition lined_up n : Prop :=
  (forall i s, i ∈ peers -> n !! i = Some s -> ready v q s) /\
  Z.quot (Z.of_nat (size q)) 2 < Z.of_nat (size (up q n)).

Lemma lined_up_served (f : Server T Id -> Server T Id) n :
  (forall s, ready v q s -> ready v q (f s)) -> lined_up n -> lined_up (served f q n).
Proof.
  intros F [R M]. split; [|by rewrite up_served]. intros i s I E0.
  rewrite served_lookup in E0. destruct (n !! i) as [s0|] eqn:E1; [|done].
  injection E0 as <-. case_bool_decide; [apply F|]; by eapply R.
Qed.

Lemma headcount_ok n (ph : Client.Phase (Id := Id) (E := E)) (m : cluster) reading :
  lined_up n -> Client.reached ph = Z.of_nat (size (up q n)) ->
  Client.check_headcount q ph reading m = (Ok tt, m).
Proof.
  intros [_ M] Re. unfold Client.check_headcount. rewrite Re.
  assert ((Z.of_nat (size (up q n)) <=?
    Z.quot (Z.of_nat (size q) - (if reading then 1 else 0)) 2) = false) as ->; [|done].
  apply Z.leb_gt. eapply Z.le_lt_trans; [|exact M].
  apply Z.quot_le_mono; [lia|]. destruct reading; lia.
Qed.

(** Nothing the servers of the quorum promised is above [p]. *)
Definition bounded p n : Prop :=
  forall i s st, i ∈ peers -> n !! i = Some s -> sstate s = Some st ->
  vproposal st <p p.

(** A value that a server of the quorum accepted. *)
Definition proposed_in n (w : Value T Id) : Prop :=
  exists i s a, i ∈ peers /\ n !! i = Some s /\ Server.accepted_of s = Some a /\
  avalue a = w.

(** The answers to a proposal. *)
Definition answers p n l : list (Response T Id) :=
  response p <$> omap (fun i => n !! i) l.

Lemma in_answers p n l r :
  r ∈ answers p n l -> l ≡ₚ peers ->
  exists i s, i ∈ peers /\ n !! i = Some s /\ r = response p s.
Proof.
  intros (s & -> & (i & I & E0)%list_elem_of_omap)%list_elem_of_fmap Pm.
  rewrite Pm in I. eauto.
Qed.

Lemma answer_of p n l i s :
  i ∈ peers -> n !! i = Some s -> l ≡ₚ peers -> response p s ∈ answers p n l.
Proof.
  intros I E0 Pm. apply list_elem_of_fmap. exists s. split; [done|].
  apply list_elem_of_omap. exists i. by rewrite Pm.
Qed.

Lemma response_value p s w :
  rvalue (response p s) = Some w ->
  exists a, Server.accepted_of s = Some a /\ avalue a = w /\
    rconfirmed (response p s) = aconfirmed a.
Proof.
  unfold response, Server.accepted_of.
  destruct (sstate s) as [[pr [a|]]|]; cbn; [|by destruct (proposal_ltb pr p)|done].
  intros [= <-]. eauto.
Qed.

Lemma schedule_nodup n : NoDup (schedule n peers).
Proof. by rewrite schedule_perm. Qed.

Lemma schedule_set n : (list_to_set (schedule n peers) : gset Id) = q.
Proof. apply list_to_set_perm_L, schedule_perm. Qed.

Lemma in_schedule n i : i ∈ schedule n peers <-> i ∈ peers.
Proof. by rewrite schedule_perm. Qed.

Lemma order_schedule n l : net_order (T := T) (E := E) n l = schedule n l.
Proof. done. Qed.

(** A value that is submitted to servers that all promised is chosen. *)
Lemma submit_spec c n p (x w : T) (replace : option (Value T Id)) (un : gset Id) :
  Client.cpeers c = peers -> lined_up n -> pversion p = v ->
  (forall i s, i ∈ peers -> n !! i = Some s -> promised_to p s) ->
  (forall i, i ∈ peers -> i ∈ un <-> n !! i = None) ->
  default (Val x) replace = Val w ->
  Client.submit (E := E) q p v (Val x) replace un (c, n) =
  (Ok (Client.Return match replace with
                     | Some y => Client.choice_theirs p y
                     | None => Client.choice_ours p
                     end), (c, served (confirming q p (Val w)) q n)).
Proof.
  intros Ec Hn Ev P U Ew. pose proof Hn as [R M].
  unfold Client.submit, Client.ordered_peers, Client.on_net. monad_unfold.
  cbn [fst snd]. rewrite Ec, Ew, order_schedule.
  destruct (accept_phase (E := E) schedule schedule_perm v q p (Val w)
    (schedule n peers) (Client.phase_init un) n (schedule_nodup n)) as (ph & En & EA).
  { intros i s I E0. apply in_schedule in I. eauto. }
  { intros i I. apply U. by apply in_schedule in I. }
  rewrite schedule_set in En, EA. rewrite EA.
  rewrite (headcount_ok n) by (done || apply En).
  set (n1 := served (accepting p (Val w)) q n).
  cbn [fst snd]. rewrite Ec, order_schedule.
  destruct (confirm_phase (E := E) schedule schedule_perm q p (Val w)
    (schedule n1 peers) (Client.phase_init (Client.unavailables ph)) n1
    (schedule_nodup n1)) as (ph2 & En2 & EC).
  { intros i s I E0. apply in_schedule in I. unfold n1 in E0.
    rewrite served_lookup in E0. destruct (n !! i) as [s0|] eqn:E1; [|done].
    injection E0 as <-. rewrite bool_decide_true by set_solver.
    exact (confirm_ready v q p w s0 (R i s0 I E1) Ev). }
  { intros i I. apply in_schedule in I. destruct En as (_ & Un & _).
    unfold n1. cbn. rewrite Un, served_lookup, fmap_None. cbn.
    rewrite U by done. set_solver. }
  rewrite schedule_set in En2, EC. rewrite EC.
  rewrite (headcount_ok n1).
  - cbn. unfold n1. rewrite served_served. by destruct replace.
  - apply lined_up_served; [|done]. intros s Rs. by apply accepting_ready.
  - apply En2.
Qed.

Lemma promising_accepted p s :
  Server.accepted_of (promising p s) = Server.accepted_of s.
Proof.
  unfold promising, Server.accepted_of.
  destruct (sstate s) as [[pr acc]|] eqn:Es; [|done].
  destruct (proposal_ltb pr p); cbn; by rewrite ?Es.
Qed.

Lemma proposed_promising p n w :
  proposed_in (served (promising p) q n) w <-> proposed_in n w.
Proof.
  split; intros (i & s & a & I & E0 & A & Ew).
  - rewrite served_lookup in E0. destruct (n !! i) as [s0|] eqn:E1; [|done].
    injection E0 as <-. rewrite bool_decide_true in A by set_solver.
    rewrite promising_accepted in A. by exists i, s0, a.
  - exists i, (promising p s), a. split_and!; [done| |by rewrite promising_accepted|done].
    rewrite served_lookup, E0. cbn. by rewrite bool_decide_true by set_solver.
Qed.

(** The promise a server is left with. *)
Lemma promising_promise p s st :
  sstate (promising p s) = Some st ->
  vproposal st = p \/
  (exists st', sstate s = Some st' /\ vproposal st = vproposal st' /\ p ≤p vproposal st').
Proof.
  unfold promising. destruct (sstate s) as [[pr acc]|] eqn:Es; cbn.
  - destruct (proposal_ltb pr p) eqn:L; cbn; [intros [= <-]; by left|].
    rewrite Es. intros [= <-]. right. by eexists.
  - intros [= <-]. by left.
Qed.

(** A server that refuses tells the promise that prevents it. *)
Lemma refusal_told p s st :
  sstate s = Some st -> p ≤p vproposal st ->
  rproposal (response p s) = Some (vproposal st).
Proof.
  intros Es L. unfold response. rewrite Es. destruct st as [pr [a|]]; cbn in *; [done|].
  by rewrite L.
Qed.

Lemma told_promise p s h :
  rproposal (response p s) = Some h ->
  exists st, sstate s = Some st /\ vproposal st = h.
Proof.
  unfold response. destruct (sstate s) as [[pr [a|]]|]; cbn; [| |done].
  - intros [= <-]. by eexists.
  - destruct (proposal_ltb pr p); [done|]. intros [= <-]. by eexists.
Qed.

(** The next number is above everything the servers told. *)
Lemma next_bounded p p' n l :
  l ≡ₚ peers -> lined_up n ->
  (forall h, Client.highest (answers p n l) = Some h -> h <p p') -> p <p p' ->
  bounded p' (served (promising p) q n).
Proof.
  intros Pm Hn Hh L i s st I E0 Est. rewrite served_lookup in E0.
  destruct (n !! i) as [s0|] eqn:E1; [|done]. injection E0 as <-.
  rewrite bool_decide_true in Est by set_solver.
  destruct (promising_promise _ _ _ Est) as [->|(st' & Es & -> & Le)]; [done|].
  destruct (highest_above (answers p n l) (response p s0) (vproposal st'))
    as (h & Eh & Lh); [by eapply answer_of|by apply refusal_told|].
  by eapply ple_lt_trans; [|apply Hh].
Qed.

(** What [choose] may end with. *)
Definition told n (ch : Client.Choice (T := T) (Id := Id)) : Prop :=
  exists i s a, i ∈ peers /\ n !! i = Some s /\ Server.accepted_of s = Some a /\
  aconfirmed a = true /\ Client.ch_value ch = Some (avalue a).

Definition settled (x : T) n (ch : Client.Choice (T := T) (Id := Id)) n' : Prop :=
  exists w, n' = served (confirming q (Client.ch_proposal ch) (Val w)) q n /\
  pversion (Client.ch_proposal ch) = v /\
  Client.ch_conflicted ch = is_some (Client.ch_value ch) /\
  (Client.ch_value ch = None /\ w = x \/
   Client.ch_value ch = Some (Val w) /\ proposed_in n (Val w)).

Lemma proposed_val n w : lined_up n -> proposed_in n w -> exists x, w = Val x.
Proof.
  intros [R _] (i & s & a & I & E0 & A & <-). destruct (R i s I E0) as (_ & St).
  unfold Server.accepted_of in A. destruct (sstate s) as [[pr acc]|]; [|done].
  cbn in A. subst acc. destruct St as (_ & _ & Q0). destruct (avalue a); [eauto|done].
Qed.

Lemma served_confirming q p p' x n :
  served (confirming q p' x) q (served (promising p) q n) = served (confirming q p' x) q n.
Proof.
  rewrite served_served. apply map_eq. intros i. rewrite !served_lookup.
  destruct (n !! i); [|done]. cbn. f_equal. case_bool_decide; [|done].
  unfold confirming, promising, Server.set_state.
  destruct (sstate s) as [[pr acc]|]; [|done]. by destruct (proposal_ltb pr p).
Qed.

Lemma told_version p n l h :
  l ≡ₚ peers -> lined_up n ->
  Client.highest (answers p n l) = Some h ->
  pversion h = v /\ exists i s st, i ∈ peers /\ n !! i = Some s /\
    sstate s = Some st /\ vproposal st = h.
Proof.
  intros Pm [R _] Eh. apply highest_in in Eh as (r & I & Er).
  apply in_answers in I as (i & s & I & E0 & ->); [|done].
  apply told_promise in Er as (st & Es & <-).
  split; [|by exists i, s, st]. destruct (R i s I E0) as (_ & St).
  rewrite Es in St. by destruct st, St.
Qed.

(** Without an answer at or above [p], every server promised it. *)
Lemma all_promised p n l :
  l ≡ₚ peers -> lined_up n -> pversion p = v ->
  find Client.is_confirmed (answers p n l) = None ->
  (forall h, Client.highest (answers p n l) = Some h -> h <p p) ->
  forall i s, i ∈ peers -> served (promising p) q n !! i = Some s -> promised_to p s.
Proof.
  intros Pm [R _] Ev Fd Hh i s I E0. rewrite served_lookup in E0.
  destruct (n !! i) as [s0|] eqn:E1; [|done]. injection E0 as <-.
  rewrite bool_decide_true by set_solver.
  pose proof (answer_of p n l i s0 I E1 Pm) as A.
  unfold promised_to, promising. destruct (sstate s0) as [[pr acc]|] eqn:Es.
  - assert (pr <p p) as L.
    { destruct (proposal_ltb pr p) eqn:L; [done|].
      destruct (highest_above _ _ _ A (refusal_told p s0 _ Es L)) as (h & Eh & Lh).
      pose proof (plt_le_trans _ _ _ (Hh h Eh) L) as X. cbn in X, Lh. congruence. }
    rewrite L. cbn. exists acc. split; [done|]. destruct acc as [a|]; [|done].
    assert (Client.is_confirmed (response p s0) = false) as C.
    { destruct (Client.is_confirmed (response p s0)) eqn:C; [|done].
      apply list_elem_of_In in A. by rewrite (find_none _ _ Fd _ A) in C. }
    unfold response in C. by rewrite Es in C.
  - cbn. by exists None.
Qed.

(** What a turn comes to once the proposals are answered. *)
Definition after_answers (q : gset Id) (x : T) (p : Proposal Id)
    (rs : list (Response T Id)) (replace : option (Value T Id)) (un : gset Id) :
    method (Client.Client (Id := Id) * cluster) (exn Id E) (Client.turn (T := T) (Id := Id)) :=
  match find Client.is_confirmed rs with
  | Some r =>
      match rproposal r, rvalue r with
      | Some p', Some y => mret (Client.Return (Client.choice_theirs p' y))
      | _, _ => throw (ServerError AssertError)
      end
  | None =>
      let replace := Client.replacement rs replace in
      match Client.highest rs with
      | Some h =>
          if proposal_eqb p h then
            Client.the_round (pround h + 1);; mret (Client.Retry v replace)
          else if proposal_ltb p h then
            Client.the_round (pround h);; mret (Client.Retry (pversion h) replace)
          else Client.submit q p v (Val x) replace un
      | None => Client.submit q p v (Val x) replace un
      end
  end.

(** The quorum is served by servers that may take part in the version, a majority
    of which is up. *)
Definition healthy n : Prop :=
  (forall i s, i ∈ peers -> n !! i = Some s -> able v q s) /\
  Z.quot (Z.of_nat (size q)) 2 < Z.of_nat (size (up q n)).

(** The servers once they opened the version. *)
Abbreviation start n := (served (opened v) q n).

Lemma start_lined_up n : healthy n -> lined_up (start n).
Proof.
  intros [R M]. split; [|by rewrite up_served]. intros i s I E0.
  rewrite served_lookup in E0. destruct (n !! i) as [s0|] eqn:E1; [|done].
  injection E0 as <-. rewrite bool_decide_true by set_solver.
  apply opened_ready. by apply (R i).
Qed.

Lemma lined_up_healthy n : lined_up n -> healthy n /\ start n = n.
Proof.
  intros [R M]. split.
  - split; [|done]. intros i s I E0. by eapply ready_able, R.
  - apply map_eq. intros i. rewrite served_lookup. destruct (n !! i) as [s|] eqn:E0; [|done].
    cbn. f_equal. case_bool_decide as I; [|done]. apply elem_of_list_to_set in I.
    destruct (R i s I E0) as [_ St]. unfold opened. destruct (sstate s) as [[pr acc]|]; [|done].
    destruct St as [Ev _]. cbn. by rewrite Ev, Z.ltb_irrefl.
Qed.

Lemma answers_start p n l : l ≡ₚ peers ->
  (fun s => response p (opened v s)) <$> omap (fun i => n !! i) l = answers p (start n) l.
Proof.
  intros Pm. assert (forall i, i ∈ l -> i ∈ q) as I by (intros i; rewrite Pm; set_solver).
  clear Pm. unfold answers. induction l as [|i l IH]; [done|]. cbn.
  rewrite served_lookup. destruct (n !! i); cbn.
  - rewrite bool_decide_true by (apply I; left). f_equal. apply IH. intros; apply I; by right.
  - apply IH. intros; apply I; by right.
Qed.

Lemma attempt_answers c n (x : T) (replace : option (Value T Id)) :
  Client.cpeers c = peers -> healthy n ->
  let c1 := Client.set_round (Client.cround c + 1) c in
  let p := mkProposal v (Client.cround c + 1) (Client.cid c) in
  exists un l, l ≡ₚ peers /\ (forall i, i ∈ peers -> i ∈ un <-> start n !! i = None) /\
  Client.attempt (E := E) q v (Val x) replace (c, n) =
  after_answers q x p (answers p (start n) l) replace un
    (c1, served (promising p) q (start n)).
Proof.
  intros Ec Hn c1 p. pose proof (start_lined_up n Hn) as Ln. pose proof Hn as [R M].
  destruct (propose_phase (E := E) schedule schedule_perm q p
    (fun s => response p (opened v s)) (fun s => promising p (opened v s))
    (schedule n peers) (Client.phase_init ∅) n (schedule_nodup n)) as (ph & En & EP).
  { intros i s I E0. apply in_schedule in I.
    by apply (propose_opens v q); [apply (R i)|]. }
  rewrite schedule_set in En, EP. exists (Client.unavailables ph), (schedule n peers).
  split; [apply schedule_perm|]. split.
  { intros i I. destruct En as (_ & Un & _). rewrite Un, served_lookup, fmap_None. set_solver. }
  rewrite <- served_served, answers_start in EP by apply schedule_perm.
  unfold Client.attempt, Client.ordered_peers, Client.on_net, after_answers,
    Client.the_round.
  monad_unfold.
  cbn [fst snd Client.cround Client.cid Client.cpeers Client.set_round].
  rewrite Ec, order_schedule. fold p. rewrite EP.
  destruct (find _ _) as [r|]; [by destruct (rproposal r), (rvalue r)|].
  rewrite (headcount_ok (start n)) by (done || rewrite up_served; apply En). cbn [fst snd].
  destruct (Client.highest _) as [h|]; [|done].
  destruct (proposal_eqb p h); [done|]. by destruct (proposal_ltb p h).
Qed.

(** A confirmed answer ends the turn. *)
Lemma confirmed_answer p n l r :
  l ≡ₚ peers -> find Client.is_confirmed (answers p n l) = Some r ->
  exists p' y, rproposal r = Some p' /\ rvalue r = Some y /\
    told n (Client.choice_theirs p' y).
Proof.
  intros Pm Fd. apply find_some in Fd as [I C]. apply list_elem_of_In in I.
  apply in_answers in I as (i & s & I & E0 & ->); [|done].
  unfold Client.is_confirmed in C. apply andb_prop in C as [Cv Cc].
  destruct (rvalue (response p s)) as [y|] eqn:Ey; [|done].
  destruct (response_value _ _ _ Ey) as (a & A & <- & Ca).
  destruct (rproposal (response p s)) as [p'|] eqn:Ep'.
  - exists p', (avalue a). split_and!; [done..|]. exists i, s, a. by rewrite <- Ca.
  - exfalso. unfold response in Ep', Ey. by destruct (sstate s) as [[pr [a'|]]|].
Qed.

Lemma replacement_proposed p n l (replace : option (Value T Id)) :
  l ≡ₚ peers -> (forall w, replace = Some w -> proposed_in n w) ->
  forall w, Client.replacement (answers p n l) replace = Some w -> proposed_in n w.
Proof.
  intros Pm Hr w Ew. apply replacement_in in Ew as [->|(r & I & Er)]; [auto|].
  apply in_answers in I as (i & s & I & E0 & ->); [|done].
  apply response_value in Er as (a & A & <- & _). by exists i, s, a.
Qed.

(** Without an answer above the proposal, the value is chosen. *)
Lemma submit_promised c n (x : T) (replace : option (Value T Id)) un p l :
  Client.cpeers c = peers -> lined_up n -> l ≡ₚ peers -> pversion p = v ->
  (forall w, replace = Some w -> proposed_in n w) ->
  (forall i, i ∈ peers -> i ∈ un <-> n !! i = None) ->
  find Client.is_confirmed (answers p n l) = None ->
  (forall h, Client.highest (answers p n l) = Some h -> h <p p) ->
  exists ch n', Client.submit (E := E) q p v (Val x) replace un
    (c, served (promising p) q n) = (Ok (Client.Return ch), (c, n')) /\
    settled x n ch n'.
Proof.
  intros Ec Hn Pm Ev Hr U Fd Hh.
  assert (exists w, default (Val x) replace = Val w) as [w Ew].
  { destruct replace as [y|]; [|by eexists].
    by destruct (proposed_val n y Hn (Hr y eq_refl)) as [w ->]; exists w. }
  rewrite (submit_spec _ _ p x w); try done.
  - do 2 eexists. split; [done|]. exists w. rewrite served_confirming.
    destruct replace as [y|]; cbn in Ew |- *; split_and!; try done.
    + simplify_eq. right. auto.
    + left. by simplify_eq.
  - apply lined_up_served; [|done]. intros s Rs. by apply promising_ready.
  - intros i s. by apply (all_promised p n l).
  - intros i I. rewrite served_lookup, fmap_None. auto.
Qed.

(** A turn either ends, or is refused and learns a number to use next. *)
Lemma attempt_spec c n (x : T) (replace : option (Value T Id)) :
  Client.cpeers c = peers -> healthy n ->
  (forall w, replace = Some w -> proposed_in (start n) w) ->
  let p := mkProposal v (Client.cround c + 1) (Client.cid c) in
  exists c', Client.cid c' = Client.cid c /\ Client.cpeers c' = peers /\
  ((exists ch n', Client.attempt (E := E) q v (Val x) replace (c, n) =
      (Ok (Client.Return ch), (c', n')) /\
      (told (start n) ch \/ settled x (start n) ch n')) \/
   (exists replace', Client.attempt (E := E) q v (Val x) replace (c, n) =
      (Ok (Client.Retry v replace'), (c', served (promising p) q (start n))) /\
      (forall w, replace' = Some w -> proposed_in (start n) w) /\
      bounded (mkProposal v (Client.cround c' + 1) (Client.cid c'))
        (served (promising p) q (start n)) /\ ~ bounded p (start n))).
Proof.
  intros Ec He Hr p.
  destruct (attempt_answers c n x replace Ec He) as (un & l & Pm & U & ->).
  apply start_lined_up in He as Hn. clear He. revert Hr U Hn. generalize (start n). clear n.
  intros n Hr U Hn. fold p. unfold after_answers. set (c1 := Client.set_round _ c).
  destruct (find _ _) as [r|] eqn:Fd.
  { exists c1. split; [done|]. split; [done|]. left.
    destruct (confirmed_answer p n l r Pm Fd) as (p' & y & -> & -> & L).
    do 2 eexists. split; [done|]. by left. }
  pose proof (replacement_proposed p n l replace Pm Hr) as Hr'. cbv zeta.
  set (replace' := Client.replacement _ _) in *.
  pose proof (fun Hh => submit_promised c1 n x replace' un p l Ec Hn Pm eq_refl Hr' U Fd Hh)
    as Sub.
  destruct (Client.highest (answers p n l)) as [h|] eqn:Eh.
  2:{ exists c1. split; [done|]. split; [done|]. left.
      destruct (Sub ltac:(done)) as (ch & n' & -> & C). eauto. }
  destruct (told_version p n l h Pm Hn Eh) as (Ev & i & s & st & I & E0 & Es & Eh').
  assert (forall r', p <p mkProposal v r' (Client.cid c) ->
    h <p mkProposal v r' (Client.cid c) ->
    bounded (mkProposal v r' (Client.cid c)) (served (promising p) q n)) as Bd.
  { intros r' L1 L2. apply (next_bounded p _ n l); try done. by intros ? [= <-]%(eq_trans (eq_sym Eh)). }
  assert (p ≤p h -> ~ bounded p n) as NB.
  { intros L B. specialize (B _ _ _ I E0 Es). rewrite Eh' in B. congruence. }
  destruct (proposal_eqb p h) eqn:Eq.
  { apply proposal_eqb_eq in Eq. exists (Client.set_round (pround h + 1) c1).
    split; [done|]. split; [done|]. right. exists replace'. split; [done|].
    split; [done|]. split; [|apply NB; rewrite Eq; apply ple_refl].
    assert (pround h = Client.cround c + 1) as Er by by rewrite <- Eq.
    apply Bd; apply proposal_ltb_spec; cbn; lia. }
  destruct (proposal_ltb p h) eqn:L.
  { exists (Client.set_round (pround h) c1). split; [done|]. split; [done|]. right.
    exists replace'. rewrite Ev. split; [done|]. split; [done|].
    split; [|by apply NB, plt_asym].
    assert (h <p mkProposal v (pround h + 1) (Client.cid c)) as Lt
      by (apply proposal_ltb_spec; cbn; lia).
    apply Bd; [|done]. by eapply plt_trans. }
  exists c1. split; [done|]. split; [done|]. left.
  destruct Sub as (ch & n' & -> & C); [|by eauto].
  intros ? [= <-]. apply ple_cases in L as [L|<-]; [done|].
  by rewrite (proj2 (proposal_eqb_eq _ _) eq_refl) in Eq.
Qed.

Lemma told_promising p n ch :
  told (served (promising p) q n) ch -> told n ch.
Proof.
  intros (i & s & a & I & E0 & A & C & V0). rewrite served_lookup in E0.
  destruct (n !! i) as [s0|] eqn:E1; [|done]. injection E0 as <-.
  rewrite bool_decide_true, promising_accepted in A by set_solver.
  by exists i, s0, a.
Qed.

Lemma settled_promising p x n ch n' :
  settled x (served (promising p) q n) ch n' -> settled x n ch n'.
Proof.
  intros (w & -> & Ev & Ec & D). exists w. rewrite served_confirming.
  rewrite proposed_promising in D. done.
Qed.

(** What was chosen is read. *)
Lemma chosen_read c p w n :
  Client.cpeers c = peers -> lined_up n -> pversion p = v ->
  (Client.state (E := E) (c, served (confirming q p (Val w)) q n)).1 =
  Ok (Client.mkReadState (Some w) q (Some p)).
Proof.
  intros Ec [R M] Ev. set (n' := served _ _ _).
  assert (up q n' = up q n) as U by apply up_served.
  unfold Client.state, Client.quorum_of, Client.ordered_peers, Client.on_net.
  monad_unfold. cbn [fst snd]. rewrite Ec, order_schedule.
  destruct (get_phase (E := E) schedule schedule_perm q p (Val w) (schedule n' peers)
    (Client.mkReading (Client.phase_init ∅) None None) n' (schedule_nodup n'))
    as (rd & EG & W & Re & A); [|done|by left|].
  { intros i s I E0. apply in_schedule in I. unfold n' in E0.
    rewrite served_lookup in E0. destruct (n !! i) as [s0|] eqn:E1; [|done].
    injection E0 as <-. rewrite bool_decide_true by set_solver.
    exact (get_ready v q p w s0 (R i s0 I E1) Ev). }
  rewrite schedule_set in Re, A. rewrite EG.
  assert (lined_up n') as Hn'.
  { split; [|by rewrite U]. intros i s I E0. unfold n' in E0.
    rewrite served_lookup in E0. destruct (n !! i) as [s0|] eqn:E1; [|done].
    injection E0 as <-. rewrite bool_decide_true by set_solver.
    by apply (confirming_ready v q p w s0 (R i s0 I E1) Ev). }
  rewrite (headcount_ok n') by done.
  rewrite W, A, bool_decide_false; [done|]. intros Em.
  rewrite <- U, Em, size_empty in M. pose proof (Z.quot_pos (Z.of_nat (size q)) 2). lia.
Qed.

Lemma state_get (s : Client.Client (Id := Id) * cluster) (x : option T) (r : gset Id)
    (p : option (Proposal Id)) :
  (Client.state (E := E) s).1 = Ok (Client.mkReadState x r p) ->
  (Client.get (E := E) s).1 = Ok x.
Proof.
  unfold Client.get. monad_unfold. destruct (Client.state s) as [[st|e] s']; [|done].
  by intros [= ->].
Qed.

(** What [choose] may end with: a value that was confirmed for the version, or one
    that every server that is up confirms. *)
Definition learnt n (ch : Client.Choice (T := T) (Id := Id)) : Prop :=
  exists i s a, i ∈ peers /\ n !! i = Some s /\ accepted_at v s = Some a /\
  aconfirmed a = true /\ Client.ch_value ch = Some (avalue a).

Definition chosen_by (x : T) n (ch : Client.Choice (T := T) (Id := Id)) n' : Prop :=
  exists w, n' = served (confirming q (Client.ch_proposal ch) (Val w)) q (start n) /\
  pversion (Client.ch_proposal ch) = v /\
  Client.ch_conflicted ch = is_some (Client.ch_value ch) /\
  (Client.ch_value ch = None /\ w = x \/
   Client.ch_value ch = Some (Val w) /\ exists i s a, i ∈ peers /\ n !! i = Some s /\
     accepted_at v s = Some a /\ avalue a = Val w).

Lemma accepted_start n i s a : healthy n -> i ∈ peers -> start n !! i = Some s ->
  Server.accepted_of s = Some a ->
  exists s0, n !! i = Some s0 /\ accepted_at v s0 = Some a.
Proof.
  intros [R _] I E0 A. rewrite served_lookup in E0. destruct (n !! i) as [s0|] eqn:E1; [|done].
  injection E0 as <-. rewrite bool_decide_true in A by set_solver. exists s0. split; [done|].
  by rewrite <- (accepted_opened v q) by by apply (R i).
Qed.

Lemma told_start n ch : healthy n -> told (start n) ch -> learnt n ch.
Proof.
  intros Hn (i & s & a & I & E0 & A & C & V0).
  destruct (accepted_start n i s a Hn I E0 A) as (s0 & E1 & A1). by exists i, s0, a.
Qed.

Lemma settled_start x n ch n' : healthy n -> settled x (start n) ch n' -> chosen_by x n ch n'.
Proof.
  intros Hn (w & -> & Ev & Ec & D). exists w. split_and!; [done..|].
  destruct D as [D|[D (i & s & a & I & E0 & A & V0)]]; [by left|right].
  destruct (accepted_start n i s a Hn I E0 A) as (s0 & E1 & A1). split; [done|]. by exists i, s0, a.
Qed.

(** What [choose] ends with, from any state of the servers. *)
Lemma choose_ends c n (x : T) (k : nat) :
  Client.cpeers c = peers -> healthy n ->
  exists ch c' n',
    Client.choose (E := E) (2 + k) v (Val x) (c, n) = Some (Ok ch, (c', n')) /\
    Client.cpeers c' = peers /\ (learnt n ch \/ chosen_by x n ch n').
Proof.
  intros Ec Hn. unfold Client.choose, Client.quorum_of. cbn [fst snd]. rewrite Ec.
  pose proof (start_lined_up n Hn) as Ln.
  destruct (attempt_spec c n x None Ec Hn ltac:(done))
    as (c1 & I1 & Ec1 & [(ch & n' & E1 & L)|(r1 & E1 & Hr1 & B & _)]).
  { exists ch, c1, n'. cbn [Nat.add Client.choose_loop]. rewrite E1. split_and!; [done..|].
    destruct L as [L|L]; [left; by apply told_start|right; by apply settled_start]. }
  set (p := mkProposal v _ _) in *. set (n1 := served (promising p) q (start n)) in *.
  assert (lined_up n1) as Ln1.
  { apply lined_up_served; [|done]. intros s Rs. by apply promising_ready. }
  destruct (lined_up_healthy n1 Ln1) as [Hn1 St].
  destruct (attempt_spec c1 n1 x r1 Ec1 Hn1)
    as (c2 & I2 & Ec2 & [(ch & n' & E2 & L)|(r2 & _ & _ & _ & NB)]).
  { intros w Ew. rewrite St. by apply proposed_promising, Hr1. }
  - rewrite St in L. exists ch, c2, n'. cbn [Nat.add Client.choose_loop]. rewrite E1, E2.
    split; [done|]. split; [done|].
    destruct L as [L|L]; [left; by apply told_start, (told_promising p)|].
    right. by apply settled_start; [|apply (settled_promising p)].
  - rewrite St in NB. by destruct NB.
Qed.

(** C2. As long as a majority of the servers is up, and those that are know of no later
    version and of no quorum elected for this one, and agree on its quorum, [choose]
    returns, after two turns of its loop at most, whatever they promised and accepted for
    the version, and whether they confirmed the version before, are late, or are partial
    and know of none before: either a value that a
    server had confirmed for the version; or its own value, or one that a server had
    accepted for it, which then every server that is up has confirmed, and which
    reading answers. No fault but servers being down, and no other client at the same
    time, is considered. *)
Theorem choose_terminates c n (x : T) (k : nat) :
  Client.cpeers c = peers -> healthy n ->
  exists ch c' n',
    Client.choose (E := E) (2 + k) v (Val x) (c, n) = Some (Ok ch, (c', n')) /\
    (learnt n ch \/
     exists w, chosen_by x n ch n' /\ w = default (Val x) (Client.ch_value ch) /\
       exists t, w = Val t /\ (Client.get (E := E) (c', n')).1 = Ok (Some t)).
Proof.
  intros Ec Hn. destruct (choose_ends c n x k Ec Hn) as (ch & c' & n' & E1 & Ec' & L).
  exists ch, c', n'. split; [done|]. destruct L as [L|C]; [by left|]. right.
  exists (default (Val x) (Client.ch_value ch)). split; [done|]. split; [done|].
  destruct C as (w & -> & Ev & _ & D). exists w.
  split; [by destruct D as [[-> ->]|[-> _]]|]. eapply state_get.
  apply chosen_read; [done|by apply start_lined_up|done].
Qed.
End Loop.

(** ** A version that is over *)

Section Decided.
Context {T Id E : Type} `{Identifier Id}.
Context (schedule : gmap Id (Server T Id) -> list Id -> list Id)
  (schedule_perm : forall n l, schedule n l ≡ₚ l).
Abbreviation cluster := (gmap Id (Server T Id)).
#[local] Hint Extern 0 (Network _ _ _ _) =>
  exact (cluster_network schedule schedule_perm) : typeclass_instances.
Implicit Types (n : cluster) (c : Client.Client (Id := Id)) (p : Proposal Id)
  (s : Server T Id).
Variables (v : Z) (peers : list Id).
Hypothesis peers_nodup : NoDup peers.
Abbreviation q := (list_to_set peers : gset Id).

(** The server confirmed [x] for the version, and knows no later one. *)
Definition decided (x : Value T Id) s : Prop :=
  squorum s = q /\ spartial s = false /\
  exists pr pa, sstate s = Some (mkState pr (Some (mkAccepted pa x true))) /\
    pversion pr = v /\ pversion pa = v.

Lemma propose_decided x p s :
  decided x s -> pversion p = v ->
  Server.propose q p s = (Ok (response p s), promising p s).
Proof.
  intros (Eq & Pa & pr & pa & Es & Epr & Epa) Ev.
  assert (Server.accepted_of s = Some (mkAccepted pa x true)) as Ea
    by (unfold Server.accepted_of; by rewrite Es).
  assert (Server.newer_accepted p s = None) as En.
  { unfold Server.newer_accepted. rewrite Ea. cbn. by rewrite Epa, Ev, Z.ltb_irrefl. }
  assert (Server.check_confirmed p s = true) as Ec.
  { unfold Server.check_confirmed. rewrite Pa, Es. cbn.
    rewrite Epr, Ev, Z.leb_refl. by destruct (Version.ltb _ _). }
  assert (Server.check_quorum q (Some p) s = (Ok tt, s)) as Eq'.
  { apply Server.check_quorum_accepts. unfold Server.expected_quorum. rewrite Ea.
    rewrite Epa, Ev, Z.ltb_irrefl. by destruct x. }
  unfold Server.propose. monad_unfold. rewrite En, Ec, Eq'.
  unfold Server.commit_previous. monad_unfold. rewrite Es. cbn [vproposal].
  rewrite Epr, Ev, Z.ltb_irrefl. unfold response, promising. rewrite Es.
  destruct (proposal_ltb pr p) eqn:L.
  - by rewrite (Server.promise_lt _ _ _ _ Es L).
  - by rewrite (Server.promise_ge _ _ _ _ Es L).
Qed.

Lemma promising_decided x p s :
  decided x s -> pversion p = v -> decided x (promising p s).
Proof.
  intros (Eq & Pa & pr & pa & Es & Epr & Epa) Ev. unfold promising. rewrite Es.
  destruct (proposal_ltb pr p).
  - split; [done|]. split; [done|]. by exists p, pa.
  - split; [done|]. split; [done|]. by exists pr, pa.
Qed.

Lemma response_decided x p s :
  decided x s -> exists p', response p s = mkResponse (Some p') (Some x) true.
Proof.
  intros (_ & _ & pr & pa & Es & _). unfold response. rewrite Es. by exists pr.
Qed.

(** Every owner that is up confirmed [x], and one is up. *)
Definition all_decided (x : Value T Id) n : Prop :=
  (forall i s, i ∈ peers -> n !! i = Some s -> decided x s) /\
  exists i s, i ∈ peers /\ n !! i = Some s.

Lemma all_decided_served x p n :
  pversion p = v -> all_decided x n -> all_decided x (served (promising p) q n).
Proof.
  intros Ev [D (i & s & I & E0)]. split.
  - intros j t J Ej. rewrite served_lookup in Ej.
    destruct (n !! j) as [s0|] eqn:E1; [|done]. injection Ej as <-.
    rewrite bool_decide_true by set_solver. by apply promising_decided; [apply (D j)|].
  - exists i, (promising p s). split; [done|]. rewrite served_lookup, E0. cbn.
    by rewrite bool_decide_true by set_solver.
Qed.

(** To propose anything for the version answers what was decided. *)
Lemma choose_decided c n (x y : Value T Id) (k : nat) :
  Client.cpeers c = peers -> all_decided x n ->
  exists p', Client.choose (E := E) (1 + k) v y (c, n) =
  Some (Ok (Client.choice_theirs p' x), (Client.set_round (Client.cround c + 1) c,
    served (promising (mkProposal v (Client.cround c + 1) (Client.cid c))) q n)).
Proof.
  intros Ec [D (i & s & I & E0)]. set (p := mkProposal v _ _).
  destruct (propose_phase (E := E) schedule schedule_perm q p (response p) (promising p)
    (schedule n peers) (Client.phase_init ∅) n) as (ph & _ & EP).
  { by rewrite schedule_perm. }
  { intros j t J Ej. rewrite schedule_perm in J.
    by apply (propose_decided x); [apply (D j)|]. }
  rewrite (list_to_set_perm_L _ _ (schedule_perm n peers)) in EP.
  set (rs := response p <$> omap (fun i => n !! i) (schedule n peers)) in *.
  assert (exists r, find Client.is_confirmed rs = Some r) as [r Fd].
  { destruct (find _ _) as [r|] eqn:Fd; [by eexists|]. exfalso.
    assert (response p s ∈ rs) as Ir.
    { apply list_elem_of_fmap. exists s. split; [done|]. apply list_elem_of_omap.
      exists i. by rewrite schedule_perm. }
    apply list_elem_of_In in Ir. pose proof (find_none _ _ Fd _ Ir) as X.
    destruct (response_decided x p s (D i s I E0)) as [p' Er]. by rewrite Er in X. }
  assert (exists p', rproposal r = Some p' /\ rvalue r = Some x) as (p' & Ep & Ex).
  { apply find_some in Fd as [Ir _]. apply list_elem_of_In in Ir.
    apply list_elem_of_fmap in Ir as (t & -> & It).
    apply list_elem_of_omap in It as (j & J & Ej). rewrite schedule_perm in J.
    destruct (response_decided x p t (D j t J Ej)) as [p' ->]. by exists p'. }
  exists p'. unfold Client.choose, Client.quorum_of.
  cbn [fst Nat.add Client.choose_loop].
  rewrite Ec. unfold Client.attempt, Client.ordered_peers, Client.on_net, Client.the_round.
  monad_unfold. cbn [fst snd Client.cround Client.cid Client.cpeers Client.set_round].
  rewrite Ec. fold p.
  change (net_order (Network := cluster_network schedule schedule_perm) n peers)
    with (schedule n peers). by rewrite EP, Fd, Ep, Ex.
Qed.
End Decided.

(** ** A concrete cluster *)

Section Concrete.
Definition four_quorum : gset Z := {[1; 2; 3; 4]}.
Definition knows (i : Z) (st : option (VersionState Z Z)) : Server Z Z :=
  mkServer i four_quorum None (Version.make 0 9 0) false st.

(** Version 0 was confirmed by server 1, and server 2 only accepted it. Another
    client stopped after server 3 accepted its value for version 1. Server 4 is
    down. *)
Definition zero : Proposal Z := mkProposal 0 1 11.
Definition stalled : gmap Z (Server Z Z) :=
  <[1 := knows 1 (Some (mkState zero (Some (mkAccepted zero (Val 5) true))))]>
  (<[2 := knows 2 (Some (mkState zero (Some (mkAccepted zero (Val 5) false))))]>
  (<[3 := knows 3 (Some (mkState (mkProposal 1 5 11)
     (Some (mkAccepted (mkProposal 1 5 11) (Val 42) false))))]> ∅)).

Definition newcomer : Client.Client (Id := Z) := Client.mkClient 10 [1; 2; 3; 4] 0 true.

Lemma stalled_healthy : healthy 1 [1; 2; 3; 4] stalled.
Proof.
  split; [|vm_compute; reflexivity]. intros i s _ E. unfold stalled in E.
  apply lookup_insert_Some in E as [[_ <-]|[_ E]].
  { split; [reflexivity|]. split; [reflexivity|]. split; [|by vm_compute].
    intros st a Es Ea. cbn in Es. injection Es as <-. injection Ea as <-. by vm_compute. }
  apply lookup_insert_Some in E as [[_ <-]|[_ E]].
  { split; [reflexivity|]. split; [reflexivity|]. split; [|by vm_compute].
    intros st a Es Ea. cbn in Es. injection Es as <-. injection Ea as <-. by vm_compute. }
  apply lookup_insert_Some in E as [[_ <-]|[_ E]]; [by vm_compute|].
  rewrite lookup_empty in E. discriminate E.
Qed.

Lemma choose_terminates_witness :
  let net := cluster_network (E := unit) (fun _ l => rev l)
    (fun _ l => symmetry (Permutation_rev l)) in
  exists ch c' n',
    Client.choose (H1 := net) 2 1 (Val 7) (newcomer, stalled) = Some (Ok ch, (c', n')) /\
    Client.ch_value ch = Some (Val 42).
Proof.
  intros net.
  assert (NoDup [1; 2; 3; 4]) as ND.
  { apply (bool_decide_eq_true_1 (NoDup [1; 2; 3; 4])). vm_compute. reflexivity. }
  destruct (choose_terminates (E := unit) (fun _ l => rev l)
    (fun _ l => symmetry (Permutation_rev l)) 1 [1; 2; 3; 4] ND newcomer stalled 7 0
    eq_refl stalled_healthy) as (ch & c' & n' & E & _).
  exists ch, c', n'. split; [exact E|].
  assert (match Client.choose (H1 := net) 2 1 (Val 7) (newcomer, stalled) with
          | Some (Ok ch, _) =>
              match Client.ch_value ch with Some (Val x) => x =? 42 | _ => false end
          | _ => false
          end = true) as X by (vm_compute; reflexivity).
  change (2 + 0)%nat with 2%nat in E. fold net in E. rewrite E in X.
  destruct (Client.ch_value ch) as [[x|]|]; [|discriminate X|discriminate X].
  apply Z.eqb_eq in X. rewrite X. reflexivity.
Defined.
End Concrete.
