(* ===== verification/PaxosNetworks.v ===== *)
(** The proposer of PaxosClient.v does not depend on how its network is made: on
    two networks that answer alike, it does and answers the same.

    [alike R] relates two methods by a relation of their states, as a simulation. *)

From stdpp Require Import base tactics option list gmap.
From Stdlib Require Import ZArith Lia String.
From S2P Require Import Prelude Versions PaxosServer PaxosClient.
Open Scope Z_scope.

(** ** Methods that answer alike *)

Section Alike.
Context {S1 S2 E : Type} (R : S1 -> S2 -> Prop).

Definition alike {A : Type} (m1 : method S1 E A) (m2 : method S2 E A) : Prop :=
  forall s1 s2, R s1 s2 -> (m1 s1).1 = (m2 s2).1 /\ R (m1 s1).2 (m2 s2).2.

Lemma alike_inv {A : Type} (m1 : method S1 E A) m2 s1 s2 :
  alike m1 m2 -> R s1 s2 ->
  exists r s1' s2', m1 s1 = (r, s1') /\ m2 s2 = (r, s2') /\ R s1' s2'.
Proof.
  intros A1 Rs. destruct (A1 s1 s2 Rs) as [E1 R1].
  destruct (m1 s1) as [r1 s1'], (m2 s2) as [r2 s2']. cbn in *. subst r1.
  by exists r2, s1', s2'.
Qed.

Lemma alike_ret {A : Type} (a : A) : alike (mret a) (mret a).
Proof. by intros s1 s2 Rs. Qed.

Lemma alike_throw {A : Type} (e : E) : alike (throw (A := A) e) (throw e).
Proof. by intros s1 s2 Rs. Qed.

Lemma alike_reads {A : Type} (f1 : S1 -> A) (f2 : S2 -> A) :
  (forall s1 s2, R s1 s2 -> f1 s1 = f2 s2) -> alike (reads f1) (reads f2).
Proof. intros F s1 s2 Rs. split; [cbn; by rewrite (F s1 s2)|done]. Qed.

Lemma alike_modify (f1 : S1 -> S1) (f2 : S2 -> S2) :
  (forall s1 s2, R s1 s2 -> R (f1 s1) (f2 s2)) -> alike (modify f1) (modify f2).
Proof. intros F s1 s2 Rs. split; [done|]. by apply F. Qed.

Lemma alike_bind {A B : Type} (m1 : method S1 E A) m2 (k1 : A -> method S1 E B) k2 :
  alike m1 m2 -> (forall a, alike (k1 a) (k2 a)) -> alike (m1 ≫= k1) (m2 ≫= k2).
Proof.
  intros A1 A2 s1 s2 Rs. unfold mbind, method_bind.
  destruct (alike_inv m1 m2 s1 s2 A1 Rs) as (r & s1' & s2' & -> & -> & R').
  destruct r as [a|e]; [by apply A2|done].
Qed.

(** Reading the state, where the two may differ. *)
Lemma alike_read {A : Type} (k1 : S1 -> method S1 E A) (k2 : S2 -> method S2 E A) :
  (forall s1 s2, R s1 s2 -> (k1 s1 s1).1 = (k2 s2 s2).1 /\ R (k1 s1 s1).2 (k2 s2 s2).2) ->
  alike (read ≫= k1) (read ≫= k2).
Proof. intros K s1 s2 Rs. by apply K. Qed.
End Alike.

(** ** Two networks *)

Section Networks.
Context {T Id E N1 N2 : Type} `{Identifier Id}.
Context (net1 : Network T Id E N1) (net2 : Network T Id E N2).
Context (R : N1 -> N2 -> Prop) (D : Id -> Prop).

(** The servers of [D] answer alike on both. *)
Record networks_alike : Prop := {
  order_alike : forall n1 n2 l, R n1 n2 ->
    net_order (Network := net1) n1 l = net_order (Network := net2) n2 l;
  propose_alike : forall i q p, D i ->
    alike R (net_propose (Network := net1) i q p) (net_propose (Network := net2) i q p);
  accept_alike : forall i q p v, D i ->
    alike R (net_accept (Network := net1) i q p v) (net_accept (Network := net2) i q p v);
  confirm_alike : forall i q p, D i ->
    alike R (net_confirm (Network := net1) i q p) (net_confirm (Network := net2) i q p);
  get_alike : forall i q, D i ->
    alike R (net_get (Network := net1) i q) (net_get (Network := net2) i q);
}.

Hypothesis nets : networks_alike.
Abbreviation all := (Forall D).
Implicit Types (q : gset Id) (p : Proposal Id).

Lemma abandon_alike {A : Type} (call1 : Id -> method N1 (exn Id E) A)
    (call2 : Id -> method N2 (exn Id E) A) peers n1 n2 :
  (forall i, D i -> alike R (call1 i) (call2 i)) -> all peers -> R n1 n2 ->
  R (Client.abandon call1 peers n1) (Client.abandon call2 peers n2).
Proof.
  intros A1 F. revert n1 n2. unfold Client.abandon.
  induction F as [|i peers Di F IH]; intros n1 n2 Rn; [done|]. cbn.
  apply IH. by apply (A1 i Di).
Qed.

(** Step both networks through one call. *)
Ltac both_call L Rn :=
  let r := fresh "r" in let m1 := fresh "n1'" in let m2 := fresh "n2'" in
  let E1 := fresh "E1" in let E2 := fresh "E2" in let Rn' := fresh "Rn" in
  destruct (alike_inv R _ _ _ _ L Rn) as (r & m1 & m2 & E1 & E2 & Rn');
  rewrite E1, E2; clear E1 E2; destruct r as [?|?].

Lemma propose_all_alike q p peers ph :
  all peers ->
  alike R (Client.propose_all (H1 := net1) q p peers ph)
    (Client.propose_all (H1 := net2) q p peers ph).
Proof.
  intros F. revert ph. induction F as [|i peers Di F IH]; intros ph n1 n2 Rn; [done|].
  cbn [Client.propose_all]. both_call (propose_alike nets i q p Di) Rn.
  - destruct (alike_inv R _ _ _ _ (IH (Client.phase_reached ph)) Rn0)
      as (r & m1 & m2 & -> & -> & Rm). by destruct r as [[]|].
  - destruct (Client.phase_catch i e ph) as [ph'|]; [by apply IH|]. split; [done|].
    by apply abandon_alike; [intros; by apply propose_alike| |].
Qed.

Lemma filter_all (P : Id -> Prop) `{!forall i, Decision (P i)} peers :
  all peers -> all (filter P peers).
Proof. rewrite !Forall_forall. intros F i [_ I]%list_elem_of_filter. auto. Qed.

Lemma accept_all_alike q p (v : Value T Id) peers ph :
  all peers ->
  alike R (Client.accept_all (H1 := net1) q p v peers ph)
    (Client.accept_all (H1 := net2) q p v peers ph).
Proof.
  intros F. revert ph. induction F as [|i peers Di F IH]; intros ph n1 n2 Rn; [done|].
  cbn [Client.accept_all]. case_bool_decide; [by apply IH|].
  both_call (accept_alike nets i q p v Di) Rn.
  - destruct (proposal_ltb p a); [|by apply IH]. split; [done|].
    apply abandon_alike; [intros; by apply accept_alike|by apply filter_all|done].
  - destruct (Client.phase_catch i e ph) as [ph'|]; [by apply IH|]. split; [done|].
    apply abandon_alike; [intros; by apply accept_alike|by apply filter_all|done].
Qed.

Lemma confirm_all_alike q p peers ph :
  all peers ->
  alike R (Client.confirm_all (H1 := net1) q p peers ph)
    (Client.confirm_all (H1 := net2) q p peers ph).
Proof.
  intros F. revert ph. induction F as [|i peers Di F IH]; intros ph n1 n2 Rn; [done|].
  cbn [Client.confirm_all]. case_bool_decide; [by apply IH|].
  both_call (confirm_alike nets i q p Di) Rn.
  - by apply IH.
  - destruct (Client.phase_catch i e ph) as [ph'|]; [by apply IH|]. split; [done|].
    apply abandon_alike; [intros; by apply confirm_alike|by apply filter_all|done].
Qed.

Lemma get_all_alike q peers rd :
  all peers ->
  alike R (Client.get_all (H1 := net1) q peers rd)
    (Client.get_all (H1 := net2) q peers rd).
Proof.
  intros F. revert rd. induction F as [|i peers Di F IH]; intros rd n1 n2 Rn; [done|].
  cbn [Client.get_all]. both_call (get_alike nets i q Di) Rn.
  - by apply IH.
  - assert (R (Client.abandon (fun i => net_get (Network := net1) i q) peers n1')
        (Client.abandon (fun i => net_get (Network := net2) i q) peers n2')) as Ab.
    { apply abandon_alike; [intros; by apply get_alike|done|done]. }
    destruct e as [|w|e|e|]; try (by apply IH); try done.
    destruct e as [ex ef [pr|]| |]; try done. by apply IH.
Qed.

(** The client and its network. *)
Definition with_client (x1 : Client.Client (Id := Id) * N1)
    (x2 : Client.Client (Id := Id) * N2) : Prop :=
  x1.1 = x2.1 /\ all (Client.cpeers x1.1) /\ R x1.2 x2.2.
Abbreviation both := (alike with_client).

Lemma on_net_alike {A : Type} (m1 : method N1 (exn Id E) A) m2 :
  alike R m1 m2 -> both (Client.on_net m1) (Client.on_net m2).
Proof.
  intros A1 [c1 n1] [c2 n2] (Ec & F & Rn). unfold Client.on_net. cbn in *. subst c2.
  destruct (alike_inv R _ _ _ _ A1 Rn) as (r & m1' & m2' & -> & -> & Rm).
  by split_and!.
Qed.

Lemma headcount_alike q ph reading :
  alike R (Client.check_headcount (N := N1) (E := E) q ph reading)
    (Client.check_headcount q ph reading).
Proof.
  intros n1 n2 Rn. unfold Client.check_headcount.
  destruct (_ <=? _); [by destruct (Client.weak_error ph)|done].
Qed.

Lemma round_alike r :
  both (Client.the_round (N := N1) (E := E) r) (Client.the_round r).
Proof.
  apply alike_modify. intros [c1 n1] [c2 n2] (Ec & F & Rn). cbn in *. by subst c2.
Qed.

(** The peers, in the order of the network, are all in [D]. *)
Lemma peers_alike {A : Type} (k1 : list Id -> method _ (exn Id E) A) k2 :
  (forall peers, all peers -> both (k1 peers) (k2 peers)) ->
  both (Client.ordered_peers (H1 := net1) ≫= k1)
    (Client.ordered_peers (H1 := net2) ≫= k2).
Proof.
  intros K [c1 n1] [c2 n2] (Ec & F & Rn). cbn in Ec, F, Rn. subst c2.
  unfold Client.ordered_peers. rewrite !bind_reads. cbn [fst snd].
  rewrite (order_alike nets _ _ _ Rn). apply K; [|done].
  by rewrite net_order_perm.
Qed.

Create HintDb alike discriminated.
#[local] Hint Resolve alike_ret alike_throw on_net_alike propose_all_alike
  accept_all_alike confirm_all_alike get_all_alike headcount_alike round_alike : alike.
Ltac alike_step :=
  lazymatch goal with
  | |- alike _ (Client.ordered_peers ≫= _) _ => apply peers_alike; intros ? ?
  | |- alike _ (_ ≫= _) _ => apply alike_bind; [|intros ?]
  | |- alike _ (match ?x with _ => _ end) _ => destruct x
  | |- alike _ _ _ => solve [eauto with alike]
  end.
Ltac alike_tac := repeat (cbv zeta; alike_step).

Lemma submit_alike q p version (v : Value T Id) replace un :
  both (Client.submit (H1 := net1) q p version v replace un)
    (Client.submit (H1 := net2) q p version v replace un).
Proof. unfold Client.submit. alike_tac. Qed.

Lemma attempt_alike q version (v : Value T Id) replace :
  both (Client.attempt (H1 := net1) q version v replace)
    (Client.attempt (H1 := net2) q version v replace).
Proof.
  unfold Client.attempt. apply alike_read.
  intros [c1 n1] [c2 n2] (Ec & F & Rn). cbn in Ec, F, Rn. subst c2. cbn [fst snd].
  match goal with |- (?m1 _).1 = (?m2 _).1 /\ _ =>
    assert (both m1 m2) as K; [|by apply K] end.
  alike_tac; apply submit_alike.
Qed.

(** Two runs of a loop that may not end. *)
Definition alike_run {A S1 S2 : Type} (Q : S1 -> S2 -> Prop)
    (x1 : option (result (exn Id E) A * S1)) (x2 : option (result (exn Id E) A * S2)) :
    Prop :=
  match x1, x2 with
  | Some (r1, s1), Some (r2, s2) => r1 = r2 /\ Q s1 s2
  | None, None => True
  | _, _ => False
  end.

Lemma choose_loop_alike fuel q version (v : Value T Id) replace x1 x2 :
  with_client x1 x2 ->
  alike_run with_client
    (Client.choose_loop (H1 := net1) fuel q version v replace x1)
    (Client.choose_loop (H1 := net2) fuel q version v replace x2).
Proof.
  revert version replace x1 x2. induction fuel as [|fuel IH]; intros version replace x1 x2 Rx;
    [done|]. cbn [Client.choose_loop].
  destruct (alike_inv _ _ _ _ _ (attempt_alike q version v replace) Rx)
    as (r & y1 & y2 & -> & -> & Ry).
  destruct r as [[ch|version' replace']|e]; [done|by apply IH|done].
Qed.

(** [choose] does the same on both networks. *)
Lemma choose_alike fuel version (v : Value T Id) x1 x2 :
  with_client x1 x2 ->
  alike_run with_client (Client.choose (H1 := net1) fuel version v x1)
    (Client.choose (H1 := net2) fuel version v x2).
Proof.
  intros Rx. unfold Client.choose. destruct Rx as (Ec & F & Rn). rewrite <- Ec.
  by apply choose_loop_alike.
Qed.

(** So does [state]. *)
Lemma state_alike :
  both (Client.state (H1 := net1)) (Client.state (H1 := net2)).
Proof.
  unfold Client.state. apply alike_read.
  intros [c1 n1] [c2 n2] (Ec & F & Rn). cbn in Ec, F, Rn. subst c2. cbn [fst snd].
  match goal with |- (?m1 _).1 = (?m2 _).1 /\ _ =>
    assert (both m1 m2) as K; [|by apply K] end.
  alike_tac.
Qed.
End Networks.
