(* ===== verification/Nodes.v ===== *)
(** What the consensus needs of addresses and of blocks.

    Nodes and blocks are both named by addresses; [Addr] are those the program
    can build, which have 32 bytes, and they identify the participants of the
    consensus. [Blocks] is what the consensus asks of the blocks
    (memo/src/memo/model/blocks/Block.hh, MutableBlock.hh). *)

From stdpp Require Import base tactics option list gmap.
From Stdlib Require Import ZArith Lia.
From S2P Require Import Prelude Buffers Addresses.
Open Scope Z_scope.

(** ** Addresses as identifiers *)

Abbreviation Addr := (dsig Address.wf).

Definition key_of (a : Addr) : Address.t := proj1_sig a.

Lemma key_wf (a : Addr) : Address.wf (key_of a).
Proof. exact (proj2_dsig a). Qed.

Lemma key_inj (a b : Addr) : key_of a = key_of b -> a = b.
Proof. intros E. by apply dsig_eq. Qed.

#[export] Hint Resolve key_wf : memo.

Definition null_addr : Addr := Address.null ↾ I.

Lemma addr_length (a b : Addr) :
  length (Address.value (key_of a)) = length (Address.value (key_of b)).
Proof.
  pose proof (key_wf a) as [-> _]. by pose proof (key_wf b) as [-> _].
Qed.

#[export] Instance addr_identifier : Identifier Addr.
Proof.
  refine {| id_ltb := fun a b => Address.ltb (key_of a) (key_of b);
            id_default := null_addr |};
    unfold Address.ltb, Address.cmp.
  - intros a. by rewrite memcmp_refl.
  - intros a b c. rewrite !Z.ltb_lt. apply memcmp_trans; apply addr_length.
  - intros a b. rewrite (memcmp_antisym _ (Address.value (key_of b))).
    rewrite !Z.ltb_ge. intros L1 L2. apply key_inj.
    apply Address.eqb_eq; [apply key_wf..|].
    unfold Address.eqb, Address.cmp. rewrite Z.eqb_eq. lia.
Defined.

(** ** Blocks *)

(** [ValidationResult]. *)
Inductive validation :=
  | Success
  | Failure
  | Conflicting.

(** [B] are blocks and [R] signatures of a removal. *)
Class Blocks (B R : Type) := {
  baddress : B -> Addr;
  is_immutable : B -> bool;
  bversion : B -> option Z;
  validate : B -> bool -> validation;
  validate_over : B -> B -> validation;
  validate_remove : B -> R -> validation;
}.
