(* ===== verification/LocalPeer.v ===== *)
(** The peer that keeps replicated blocks: the class LocalPeer of
    memo/src/memo/model/doughnut/consensus/Paxos.hh and Paxos.cc.

    A peer keeps, for each mutable block, the acceptor of its consensus, on
    disk and in a cache of limited size, and for each immutable block the block
    itself. It also knows the quorum of each block it loaded, to rebalance the
    blocks that lack replicas. A handler is run to its end: the storage answers
    at once. What the other components answer is in the state ([lookup_owners],
    the overlay; [held], the decisions other coroutines hold). *)

From stdpp Require Import base tactics option list gmap sorting.
From Stdlib Require Import ZArith Lia String.
From S2P Require Import Prelude Versions Addresses Silos PaxosServer Nodes.
Open Scope Z_scope.

(** ** Data *)

Section Data.
Context {B : Type}.

(** [std::shared_ptr<blocks::Block>], which may be null. *)
Abbreviation BlockPtr := (option B).
Abbreviation Acceptor := (Server (option B) Addr).

(** [Decision]. *)
Record Decision := mkDecision {
  chosen : Z;
  paxos : Acceptor;
}.

(** [BlockOrPaxos], serialized. *)
Inductive Stored :=
  | StoredBlock (b : B)
  | StoredPaxos (chosen : Z) (ar : Server.archive (T := option B) (Id := Addr)).

(** [DecisionEntry]; the address is the key of the map. *)
Record DecisionEntry := mkEntry {
  use : Z;
  decision : Decision;
}.

(** [BlockRepartition]. *)
Record BlockRepartition := mkRepartition {
  immutable : bool;
  quorum : gset Addr;
}.

Definition replication_factor (r : BlockRepartition) : Z :=
  Z.of_nat (size (quorum r)).

(** What [_load] answers: a block, or a decision, which is then in the cache. *)
Inductive BlockOrPaxos :=
  | LoadedBlock (b : B)
  | LoadedPaxos.

Inductive StoreMode := STORE_INSERT | STORE_UPDATE.

Inductive peer_error :=
  | PaxosError (e : error Addr)
  | StorageError (e : silo_error)
  | MissingBlock (k : Key)
  | ValidationFailed
  | Conflict (current : B)
  | NullPointer
  | PeerError (what : string).
End Data.
Arguments Decision B : clear implicits.
Arguments Stored B : clear implicits.
Arguments DecisionEntry B : clear implicits.
Arguments BlockOrPaxos B : clear implicits.
Arguments peer_error B : clear implicits.

Record Peer (B S : Type) := mkPeer {
  id : Addr;
  elle_version : Version.t;
  factor : Z;
  rebalance_auto_expand : bool;
  max_addresses_size : Z;
  lookup_owners : Addr -> list Addr;
  held : gset Addr;
  clock : Z;
  storage : S;
  addresses : gmap Addr (DecisionEntry B);
  quorums : gmap Addr BlockRepartition;
  node_blocks : gset (Addr * Addr);
  nodes : gset Addr;
  node_timeouts : gset Addr;
  rebalancable : list (Addr * bool);
  on_store : list B;
  on_remove : list Addr;
}.
Arguments mkPeer {B S}.
Arguments id {B S}.
Arguments elle_version {B S}.
Arguments factor {B S}.
Arguments rebalance_auto_expand {B S}.
Arguments max_addresses_size {B S}.
Arguments lookup_owners {B S}.
Arguments held {B S}.
Arguments clock {B S}.
Arguments storage {B S}.
Arguments addresses {B S}.
Arguments quorums {B S}.
Arguments node_blocks {B S}.
Arguments nodes {B S}.
Arguments node_timeouts {B S}.
Arguments rebalancable {B S}.
Arguments on_store {B S}.
Arguments on_remove {B S}.

Module Local.
Section Local.
Context {B R S : Type} `{Blocks B R} `{SiloImpl (Stored B) S}.

Abbreviation M := (method (Peer B S) (peer_error B)).

Definition set_storage (st : S) (p : Peer B S) : Peer B S :=
  mkPeer (id p) (elle_version p) (factor p) (rebalance_auto_expand p)
    (max_addresses_size p) (lookup_owners p) (held p) (clock p) st
    (addresses p) (quorums p) (node_blocks p) (nodes p) (node_timeouts p)
    (rebalancable p) (on_store p) (on_remove p).
Definition set_addresses (m : gmap Addr (DecisionEntry B)) (p : Peer B S) :
    Peer B S :=
  mkPeer (id p) (elle_version p) (factor p) (rebalance_auto_expand p)
    (max_addresses_size p) (lookup_owners p) (held p) (clock p) (storage p)
    m (quorums p) (node_blocks p) (nodes p) (node_timeouts p)
    (rebalancable p) (on_store p) (on_remove p).
Definition set_index (q : gmap Addr BlockRepartition)
    (n : gset (Addr * Addr)) (p : Peer B S) : Peer B S :=
  mkPeer (id p) (elle_version p) (factor p) (rebalance_auto_expand p)
    (max_addresses_size p) (lookup_owners p) (held p) (clock p) (storage p)
    (addresses p) q n (nodes p) (node_timeouts p)
    (rebalancable p) (on_store p) (on_remove p).
Definition set_nodes (n t : gset Addr) (p : Peer B S) : Peer B S :=
  mkPeer (id p) (elle_version p) (factor p) (rebalance_auto_expand p)
    (max_addresses_size p) (lookup_owners p) (held p) (clock p) (storage p)
    (addresses p) (quorums p) (node_blocks p) n t
    (rebalancable p) (on_store p) (on_remove p).
Definition set_rebalancable (l : list (Addr * bool)) (p : Peer B S) : Peer B S :=
  mkPeer (id p) (elle_version p) (factor p) (rebalance_auto_expand p)
    (max_addresses_size p) (lookup_owners p) (held p) (clock p) (storage p)
    (addresses p) (quorums p) (node_blocks p) (nodes p) (node_timeouts p)
    l (on_store p) (on_remove p).
Definition set_clock (t : Z) (p : Peer B S) : Peer B S :=
  mkPeer (id p) (elle_version p) (factor p) (rebalance_auto_expand p)
    (max_addresses_size p) (lookup_owners p) (held p) t (storage p)
    (addresses p) (quorums p) (node_blocks p) (nodes p) (node_timeouts p)
    (rebalancable p) (on_store p) (on_remove p).
Definition stored_signal (b : B) (p : Peer B S) : Peer B S :=
  mkPeer (id p) (elle_version p) (factor p) (rebalance_auto_expand p)
    (max_addresses_size p) (lookup_owners p) (held p) (clock p) (storage p)
    (addresses p) (quorums p) (node_blocks p) (nodes p) (node_timeouts p)
    (rebalancable p) (on_store p ++ [b]) (on_remove p).
Definition removed_signal (a : Addr) (p : Peer B S) : Peer B S :=
  mkPeer (id p) (elle_version p) (factor p) (rebalance_auto_expand p)
    (max_addresses_size p) (lookup_owners p) (held p) (clock p) (storage p)
    (addresses p) (quorums p) (node_blocks p) (nodes p) (node_timeouts p)
    (rebalancable p) (on_store p) (on_remove p ++ [a]).

(** The peer as it is constructed over a storage. *)
Definition create (node : Addr) (version : Version.t) (factor : Z)
    (auto_expand : bool) (cache_size : Z) (owners : Addr -> list Addr)
    (st : S) : Peer B S :=
  mkPeer node version factor auto_expand cache_size owners ∅ 0 st
    ∅ ∅ ∅ ∅ ∅ [] [] [].

(** A call to the storage. *)
Definition on_storage {A} (m : method S silo_error A) : M A :=
  fun p =>
    match m (storage p) with
    | (Ok a, st) => (Ok a, set_storage st p)
    | (Throw e, st) => (Throw (StorageError e), set_storage st p)
    end.

(** [Clock::now()], which never answers the same time twice. *)
Definition now : M Z :=
  modify (fun p => set_clock (clock p + 1) p);;
  reads clock.

(** *** The index of quorums *)

(** [_cache]. *)
Definition cache (a : Addr) (imm : bool) (q : gset Addr) : M unit :=
  p ← read;
  let nb :=
    match quorums p !! a with
    | Some r => node_blocks p ∖ set_map (fun n => (n, a)) (quorum r)
    | None => node_blocks p
    end in
  modify (set_index (<[a := mkRepartition imm q]> (quorums p))
            (nb ∪ set_map (fun n => (n, a)) q)).

(** [_rebalancable.emplace(address, node)]. *)
Definition schedule (a : Addr) (node : bool) : M unit :=
  modify (fun p => set_rebalancable (rebalancable p ++ [(a, node)]) p).

(** The block lacks replicas. *)
Definition lacks (q : gset Addr) (p : Peer B S) : bool :=
  Z.of_nat (size q) <? factor p.

(** [_discovered]. *)
Definition discovered (n : Addr) : M unit :=
  modify (fun p => set_nodes (nodes p ∪ {[n]}) (node_timeouts p ∖ {[n]}) p);;
  auto ← reads rebalance_auto_expand;
  when auto (schedule n true).

(** [_disappeared] and [_disappeared_schedule_eviction]: a timer is set. *)
Definition disappeared (n : Addr) : M unit :=
  p ← read;
  when (bool_decide (n ∈ nodes p))
    (modify (set_nodes (nodes p ∖ {[n]}) (node_timeouts p ∪ {[n]}))).

(** *** The cache of decisions *)

(** The entry used the longest time ago: the first of the ordered index. *)
Definition oldest (m : gmap Addr (DecisionEntry B)) :
    option (Addr * DecisionEntry B) :=
  max_element (fun x y => use y.2 <? use x.2) (map_to_list m).

(** The loop of [_load_paxos] that drops entries: the bound is evaluated at
    each turn, and an entry in use is not passed over. *)
Fixpoint drop_loop (fuel : nat) (max i : Z) (in_use : Addr -> bool)
    (m : gmap Addr (DecisionEntry B)) : gmap Addr (DecisionEntry B) :=
  match fuel with
  | O => m
  | Datatypes.S fuel =>
      if i <? Z.of_nat (size m) - max then
        match oldest m with
        | Some (a, _) =>
            drop_loop fuel max (i + 1) in_use
              (if in_use a then m else delete a m)
        | None => m
        end
      else m
  end.

(** As many turns as there are entries in excess are enough. *)
Definition drop_entries (max : Z) (in_use : Addr -> bool)
    (m : gmap Addr (DecisionEntry B)) : gmap Addr (DecisionEntry B) :=
  drop_loop (Z.to_nat (Z.of_nat (size m) - max)) max 0 in_use m.

(** [_load_paxos(Address, Decision)]: the new entry is held by the caller. *)
Definition load_decision (a : Addr) (d : Decision B) : M unit :=
  let q := Server.current_quorum (paxos d) in
  cache a false q;;
  p ← read;
  when (rebalance_auto_expand p && is_some (Server.current_value (paxos d)) &&
        lacks q p)
    (schedule a false);;
  t ← now;
  p ← read;
  if is_some (addresses p !! a) then throw (PaxosError AssertError)
  else
    let m := <[a := mkEntry t d]> (addresses p) in
    modify (set_addresses
      (drop_entries (max_addresses_size p)
         (fun b => bool_decide (b = a) || bool_decide (b ∈ held p)) m)).

(** The decision is in the cache: its time of use is updated. *)
Definition touch (a : Addr) : M unit :=
  t ← now;
  modify (fun p => set_addresses
    (alter (fun e => mkEntry t (decision e)) a (addresses p)) p).

(** [_load]. *)
Definition load (a : Addr) : M (BlockOrPaxos B) :=
  p ← read;
  if is_some (addresses p !! a) then touch a;; mret LoadedPaxos
  else
    stored ← on_storage (Silo.get (key_of a));
    match stored with
    | StoredBlock b =>
        p ← read;
        when (rebalance_auto_expand p && negb (is_some (quorums p !! a)))
          (let q := list_to_set (lookup_owners p a) in
           cache a true q;;
           when (lacks q p) (schedule a false));;
        mret (LoadedBlock b)
    | StoredPaxos ch ar =>
        v ← reads elle_version;
        match Server.load v v ar with
        | Ok s => load_decision a (mkDecision ch s);; mret LoadedPaxos
        | Throw e => throw (PaxosError e)
        end
    end.

(** [catch (silo::MissingKey const&)]. *)
Definition on_missing {A} (k : Key -> M A) (e : peer_error B) : option (M A) :=
  match e with
  | StorageError (MissingKey key) => Some (k key)
  | _ => None
  end.

(** [_load_paxos(Address, boost::optional<Quorum>, std::shared_ptr<Block>)]. *)
Definition load_paxos (a : Addr) (peers : option (gset Addr))
    (value : option B) : M unit :=
  try_catch
    (p ← read;
     if is_some (addresses p !! a) then touch a
     else
       res ← load a;
       match res with
       | LoadedBlock _ => throw (PeerError "immutable block found")
       | LoadedPaxos => mret tt
       end)
    (on_missing (fun key =>
       match peers with
       | Some q =>
           p ← read;
           match Server.create (id p) q (Some <$> value) (elle_version p) with
           | Ok s => load_decision a (mkDecision (-1) s)
           | Throw e => throw (PaxosError e)
           end
       | None => throw (MissingBlock key)
       end)).

(** The decision of an address, which was just loaded. *)
Definition the_decision (a : Addr) : M (Decision B) :=
  p ← read;
  match addresses p !! a with
  | Some e => mret (decision e)
  | None => throw (PaxosError AssertError)
  end.

(** A call to the acceptor of the cached decision. *)
Definition on_paxos {A} (a : Addr)
    (m : method (Server (option B) Addr) (error Addr) A) : M A :=
  d ← the_decision a;
  let '(r, s) := m (paxos d) in
  modify (fun p => set_addresses
    (alter (fun e => mkEntry (use e) (mkDecision (chosen d) s)) a (addresses p)) p);;
  match r with
  | Ok x => mret x
  | Throw e => throw (PaxosError e)
  end.

(** Serialize the decision and store it. *)
Definition save_decision (a : Addr) : M unit :=
  d ← the_decision a;
  v ← reads elle_version;
  match Server.save v (paxos d) with
  | Ok ar =>
      on_storage (Silo.set (key_of a) (StoredPaxos (chosen d) ar) true true);;
      mret tt
  | Throw e => throw (PaxosError e)
  end.

(** *** Handlers *)

Definition propose (peers : gset Addr) (a : Addr) (p : Proposal Addr)
    (insert : bool) : M (Response (option B) Addr) :=
  load_paxos a (if insert then Some peers else None) None;;
  res ← on_paxos a (Server.propose peers p);
  save_decision a;;
  mret res.

(** The block of a value, null for a quorum. *)
Definition block_of (v : Value (option B) Addr) : option B :=
  match v with Val b => b | Quo _ => None end.

(** Check a new value against the current one. *)
Definition validate_previous (a : Addr) (b : B) : M unit :=
  d ← the_decision a;
  match Server.current_value (paxos d) with
  | None => mret tt
  | Some previous =>
      match block_of (avalue previous) with
      | None => throw NullPointer
      | Some pb =>
          match validate_over pb b with
          | Success => mret tt
          | _ => throw (Conflict b)
          end
      end
  end.

Definition accept (peers : gset Addr) (a : Addr) (p : Proposal Addr)
    (value : Value (option B) Addr) : M (Proposal Addr) :=
  match block_of value with
  | Some b =>
      match validate b true with
      | Success => mret tt
      | _ => throw ValidationFailed
      end
  | None => mret tt
  end;;
  load_paxos a None None;;
  match block_of value with
  | Some b => validate_previous a b
  | None => mret tt
  end;;
  res ← on_paxos a (Server.accept peers p value);
  save_decision a;;
  match block_of value with
  | Some b => modify (stored_signal b)
  | None => mret tt
  end;;
  mret res.

(** [_remove]. *)
Definition remove_block (a : Addr) : M unit :=
  try_catch (on_storage (Silo.erase (key_of a));; mret tt)
    (on_missing (fun key => throw (MissingBlock key)));;
  modify (fun p => set_index (quorums p)
    (filter (fun nb => nb.2 <> a) (node_blocks p)) p);;
  modify (removed_signal a);;
  modify (fun p => set_addresses (delete a (addresses p)) p).

(** The quorum a confirmation brings. *)
Definition confirmed_quorum (had_value : bool)
    (s : Server (option B) Addr) : option (gset Addr) :=
  if had_value then
    match Server.accepted_of s with
    | Some acc => match avalue acc with Quo q => Some q | Val _ => None end
    | None => None
    end
  else Some (Server.current_quorum s).

Definition load_or_missing (a : Addr) : M (BlockOrPaxos B) :=
  try_catch (load a) (on_missing (fun key => throw (MissingBlock key))).

Definition confirm (peers : gset Addr) (a : Addr) (p : Proposal Addr) :
    M unit :=
  loaded ← load_or_missing a;
  match loaded with
  | LoadedPaxos =>
      d ← the_decision a;
      let had_value := is_some (Server.current_value (paxos d)) in
      on_paxos a (Server.confirm peers p);;
      save_decision a;;
      d ← the_decision a;
      match confirmed_quorum had_value (paxos d) with
      | None => mret tt
      | Some q =>
          self ← reads id;
          if bool_decide (self ∈ q) then
            cache a false q;;
            st ← read;
            when (rebalance_auto_expand st &&
                  is_some (Server.current_value (paxos d)) && lacks q st)
              (schedule a false)
          else remove_block a
      end
  | LoadedBlock _ =>
      cache a true peers;;
      st ← read;
      when (rebalance_auto_expand st && lacks peers st) (schedule a false)
  end.

(** Honour [local_version]. *)
Definition elide (local_version : option Z)
    (res : option (Accepted (option B) Addr)) :
    result (peer_error B) (option (Accepted (option B) Addr)) :=
  match local_version, res with
  | Some v, Some (mkAccepted ap (Val (Some b)) c) =>
      match bversion b with
      | Some bv =>
          Ok (Some (mkAccepted ap (Val (if bv =? v then None else Some b)) c))
      | None => Throw (PaxosError AssertError)
      end
  | Some _, Some (mkAccepted _ (Val None) _) => Throw (PaxosError AssertError)
  | _, _ => Ok res
  end.

Definition get (peers : gset Addr) (a : Addr) (local_version : option Z) :
    M (option (Accepted (option B) Addr)) :=
  load_paxos a None None;;
  res ← on_paxos a (Server.get peers);
  lift (elide local_version res).

Definition propagate (q : gset Addr) (b : B) (p : Proposal Addr) : M unit :=
  st ← read;
  let a := baddress b in
  if is_some (addresses st !! a) then mret tt
  else
    load_paxos a (Some q) (Some b);;
    on_paxos a (Server.propose q p);;
    on_paxos a (Server.accept q p (Quo q));;
    on_paxos a (Server.confirm q p);;
    save_decision a;;
    modify (stored_signal b).

(** [_fetch], for immutable blocks. *)
Definition fetch (a : Addr) : M B :=
  stored ← on_storage (Silo.get (key_of a));
  match stored with
  | StoredBlock b => mret b
  | StoredPaxos _ _ => throw (PeerError "plain fetch called on mutable block")
  end.

Definition store (b : B) (mode : StoreMode) : M unit :=
  match validate b true with
  | Success => mret tt
  | _ => throw ValidationFailed
  end;;
  (if is_immutable b then mret tt else throw ValidationFailed);;
  try_catch
    (stored ← on_storage (Silo.get (key_of (baddress b)));
     match stored with
     | StoredPaxos _ _ => throw ValidationFailed
     | StoredBlock previous =>
         match validate_over previous b with
         | Success => mret tt
         | Conflicting => throw (Conflict previous)
         | Failure => throw ValidationFailed
         end
     end)
    (on_missing (fun _ => mret tt));;
  on_storage (Silo.set (key_of (baddress b)) (StoredBlock b)
    (match mode with STORE_INSERT => true | STORE_UPDATE => false end)
    (match mode with STORE_UPDATE => true | STORE_INSERT => false end));;
  modify (stored_signal b).

Definition check_removal (b : B) (rs : R) : M unit :=
  match validate_remove b rs with
  | Success => mret tt
  | Conflicting => throw (Conflict b)
  | Failure => throw ValidationFailed
  end.

Definition remove (a : Addr) (rs : R) : M unit :=
  loaded ← load_or_missing a;
  match loaded with
  | LoadedPaxos =>
      d ← the_decision a;
      match Server.current_value (paxos d) with
      | None => mret tt
      | Some highest =>
          match block_of (avalue highest) with
          | None => throw NullPointer
          | Some b => check_removal b rs
          end
      end
  | LoadedBlock b => check_removal b rs
  end;;
  remove_block a.

(** One turn of the inspector of [initialize]: load a block of the storage to
    index its quorum, and forget its decision if there are replicas enough. *)
Definition inspect (a : Addr) : M unit :=
  try_catch
    (loaded ← load a;
     match loaded with
     | LoadedBlock _ => mret tt
     | LoadedPaxos =>
         p ← read;
         match quorums p !! a with
         | None => throw (PaxosError AssertError)
         | Some r =>
             when (factor p <=? replication_factor r)
               (modify (fun p => set_addresses (delete a (addresses p)) p))
         end
     end)
    (fun e => match e with MissingBlock _ => Some (mret tt) | _ => None end).

End Local.
End Local.
