(* ===== verification/PeerRefinement.v ===== *)
(** The peer of LocalPeer.v behaves as one acceptor per block, kept on disk.

    [view] is what the disk holds at an address. A request acts on the disk as
    [spec] does on the slot of its address, and answers what [spec] answers,
    whatever the cache holds: the cache, the index of quorums and a restart
    cannot be told. *)

From stdpp Require Import base tactics option list gmap.
From Stdlib Require Import ZArith Lia String.
From S2P Require Import Prelude Versions Addresses Silos PaxosServer Nodes LocalPeer.
Open Scope Z_scope.

(** ** The cache *)

Section Cache.
Context {B : Type}.
Implicit Types m : gmap Addr (DecisionEntry B).

Lemma drop_loop_spec fuel max i in_use m :
  Local.drop_loop fuel max i in_use m ⊆ m /\
  forall a e, m !! a = Some e -> in_use a = true ->
    Local.drop_loop fuel max i in_use m !! a = Some e.
Proof.
  revert i m. induction fuel as [|fuel IH]; intros i m; cbn; [done|].
  destruct (i <? _); [|done].
  destruct (Local.oldest m) as [[b eb]|] eqn:O; [|done].
  destruct (in_use b) eqn:U; [apply IH|].
  destruct (IH (i + 1) (delete b m)) as [Sub Keep]. split.
  - etrans; [exact Sub|]. apply delete_subseteq.
  - intros a e E Ua. apply Keep; [|done].
    rewrite lookup_delete_ne; [done|]. intros ->. congruence.
Qed.

Lemma drop_entries_sub max in_use m : Local.drop_entries max in_use m ⊆ m.
Proof. apply drop_loop_spec. Qed.

Lemma drop_entries_keeps max in_use m a e :
  m !! a = Some e -> in_use a = true ->
  Local.drop_entries max in_use m !! a = Some e.
Proof. apply drop_loop_spec. Qed.
End Cache.

Section Refinement.
Context {B R S : Type} `{Blocks B R} `{SiloSpec (Stored B) S}.
Abbreviation P := (Peer B S).
Abbreviation Acceptor := (Server (option B) Addr).
Abbreviation err := (peer_error B).

(** ** What the disk holds *)

Inductive Slot :=
  | HBlock (b : B)
  | HPaxos (ch : Z) (s : Acceptor).

Definition decode (v : Version.t) (x : Stored B) : option Slot :=
  match x with
  | StoredBlock b => Some (HBlock b)
  | StoredPaxos ch ar =>
      match Server.load v v ar with
      | Ok s => Some (HPaxos ch s)
      | Throw _ => None
      end
  end.

Definition view (p : P) (a : Addr) : option Slot :=
  contents (storage p) (key_of a) ≫= decode (elle_version p).

(** [d], of this version, is what is stored at [a]. *)
Definition on_disk (p : P) (a : Addr) (d : Decision B) : Prop :=
  exists ar, Server.save (elle_version p) (paxos d) = Ok ar /\
    contents (storage p) (key_of a) = Some (StoredPaxos (chosen d) ar).

(** The cached decisions are those of the disk, but for that of [x]. *)
Record coherent_but (x : option Addr) (p : P) : Prop := {
  coh_version : Version.geb (elle_version p) Server.v_0_2_0 = true;
  coh_ok : silo_ok (storage p);
  coh_elle : forall a e, addresses p !! a = Some e ->
    selle (paxos (decision e)) = elle_version p;
  coh_cached : forall a e, addresses p !! a = Some e -> Some a <> x ->
    on_disk p a (decision e);
  coh_stored : forall a ch ar,
    contents (storage p) (key_of a) = Some (StoredPaxos ch ar) ->
    exists s, selle s = elle_version p /\
      Server.save (elle_version p) s = Ok ar;
}.
Abbreviation coherent := (coherent_but None).

Lemma on_disk_view p a d :
  Version.geb (elle_version p) Server.v_0_2_0 = true ->
  selle (paxos d) = elle_version p -> on_disk p a d ->
  view p a = Some (HPaxos (chosen d) (paxos d)).
Proof.
  intros G E (ar & Sv & C). unfold view. rewrite C. cbn.
  destruct (Server.save_total _ (paxos d) G E) as (ar' & Sv' & Ld).
  assert (ar' = ar) as -> by congruence. by rewrite Ld.
Qed.

Lemma cached_view p a e :
  coherent p -> addresses p !! a = Some e ->
  view p a = Some (HPaxos (chosen (decision e)) (paxos (decision e))).
Proof.
  intros C E. apply on_disk_view; [by apply C|by eapply coh_elle|].
  by eapply coh_cached.
Qed.

Lemma stored_view p a ch ar :
  coherent p -> contents (storage p) (key_of a) = Some (StoredPaxos ch ar) ->
  exists s, Server.load (elle_version p) (elle_version p) ar = Ok s /\
    selle s = elle_version p /\ view p a = Some (HPaxos ch s) /\
    on_disk p a (mkDecision ch s).
Proof.
  intros C E. destruct (coh_stored _ _ C a ch ar E) as (s & Es & Sv).
  destruct (Server.save_total _ s (coh_version _ _ C) Es) as (ar' & Sv' & Ld).
  assert (ar' = ar) as -> by congruence. exists s. split_and!; try done.
  - unfold view. rewrite E. cbn. by rewrite Ld.
  - by exists ar.
Qed.

(** ** Frames *)

(** The parts of a peer the disk and its users depend on. *)
Record same_disk (p p' : P) : Prop := {
  same_id : id p' = id p;
  same_version : elle_version p' = elle_version p;
  same_ok : silo_ok (storage p) -> silo_ok (storage p');
  same_contents : forall k, Address.wf k ->
    contents (storage p') k = contents (storage p) k;
}.

Lemma same_disk_refl p : same_disk p p.
Proof. done. Qed.

Lemma same_disk_trans p1 p2 p3 :
  same_disk p1 p2 -> same_disk p2 p3 -> same_disk p1 p3.
Proof.
  intros [I1 V1 O1 C1] [I2 V2 O2 C2]. split; [congruence..|auto|].
  intros k W. by rewrite C2, C1.
Qed.

Lemma same_disk_view p p' a : same_disk p p' -> view p' a = view p a.
Proof.
  intros [_ V _ C]. unfold view. rewrite V, C by apply key_wf. done.
Qed.

Lemma coherent_same x p p' :
  same_disk p p' ->
  (forall a e, addresses p' !! a = Some e ->
     exists e0, addresses p !! a = Some e0 /\ decision e = decision e0) ->
  coherent_but x p -> coherent_but x p'.
Proof.
  intros [I V O C] Sub [G Ok1 E D St]. split.
  - by rewrite V.
  - auto.
  - intros a e Ea. destruct (Sub a e Ea) as (e0 & E0 & ->). rewrite V. eauto.
  - intros a e Ea N. destruct (Sub a e Ea) as (e0 & E0 & ->).
    unfold on_disk. rewrite V, C by apply key_wf. by apply (D a e0).
  - intros a ch ar. rewrite C by apply key_wf. rewrite V. apply St.
Qed.

(** A method that only changes the index, the clock and the tasks. *)
Definition quiet (m : method P err unit) : Prop :=
  forall p, exists p', m p = (Ok tt, p') /\ storage p' = storage p /\
    elle_version p' = elle_version p /\ id p' = id p /\
    addresses p' = addresses p.

Lemma quiet_bind m k : quiet m -> (forall a, quiet (k a)) -> quiet (m ≫= k).
Proof.
  intros Hm Hk p. destruct (Hm p) as (p1 & E1 & S1 & V1 & I1 & A1).
  destruct (Hk tt p1) as (p2 & E2 & S2 & V2 & I2 & A2). exists p2.
  rewrite (bind_Ok _ _ _ _ _ E1). split_and!; congruence.
Qed.

Lemma quiet_read {A} (f : P -> A) k :
  (forall a, quiet (k a)) -> quiet (reads f ≫= k).
Proof.
  intros Hk p. destruct (Hk (f p) p) as (p2 & E2 & X). exists p2.
  split; [exact E2|exact X].
Qed.

Lemma quiet_read_all k : (forall a, quiet (k a)) -> quiet (read ≫= k).
Proof. apply (quiet_read (fun p => p)). Qed.

Lemma quiet_when b m : quiet m -> quiet (when b m).
Proof. destruct b; [done|]. intros _ p. by exists p. Qed.

Lemma quiet_ret : quiet (@mret (method P err) _ unit tt).
Proof. intros p. exists p. split; [reflexivity|done]. Qed.

Lemma quiet_cache a imm q : quiet (Local.cache a imm q).
Proof. intros p. exists (Local.cache a imm q p).2. split_and!; reflexivity. Qed.

Lemma quiet_schedule a n : quiet (Local.schedule a n).
Proof. intros p. eexists. split_and!; reflexivity. Qed.

Lemma quiet_tick : quiet (modify (fun p => Local.set_clock (clock p + 1) p)).
Proof. intros p. eexists. split_and!; reflexivity. Qed.

Lemma quiet_signal b : quiet (modify (Local.stored_signal b)).
Proof. intros p. eexists. split_and!; reflexivity. Qed.

Lemma quiet_same m p r p' :
  quiet m -> m p = (r, p') ->
  r = Ok tt /\ same_disk p p' /\ addresses p' = addresses p.
Proof.
  intros Q E. destruct (Q p) as (p1 & E1 & Es & V & I & A).
  rewrite E in E1. simplify_eq. split; [done|]. split; [|done].
  split; [done..|by rewrite Es|by rewrite Es].
Qed.
#[local] Hint Resolve quiet_bind quiet_read quiet_read_all quiet_when
  quiet_ret quiet_cache quiet_schedule quiet_tick quiet_signal : memo.

Ltac quiet_tac :=
  repeat first
    [ apply quiet_cache | apply quiet_schedule | apply quiet_tick
    | apply quiet_signal | apply quiet_ret | apply quiet_when
    | apply quiet_bind; [|intros ?] | apply quiet_read; intros ?
    | apply quiet_read_all; intros ? ].

(** The next call of [H], a read, is done. *)
Ltac step_read H := first [rewrite bind_read in H | rewrite bind_reads in H].

(** *** Loading *)

(** The index and the tasks, before the entry is inserted. *)
Definition index_decision (a : Addr) (d : Decision B) : method P err unit :=
  let q := Server.current_quorum (paxos d) in
  Local.cache a false q;;
  p ← read;
  when (rebalance_auto_expand p && is_some (Server.current_value (paxos d)) &&
        Local.lacks q p)
    (Local.schedule a false).

Lemma quiet_index a d : quiet (index_decision a d).
Proof. unfold index_decision. quiet_tac. Qed.

Lemma load_decision_spec a d p r p' :
  addresses p !! a = None -> Local.load_decision a d p = (r, p') ->
  r = Ok tt /\ same_disk p p' /\
  (exists t, addresses p' !! a = Some (mkEntry t d)) /\
  forall b e, b <> a -> addresses p' !! b = Some e -> addresses p !! b = Some e.
Proof.
  intros N E.
  assert (Local.load_decision a d p =
    (index_decision a d;; t ← Local.now; p ← read;
     if is_some (addresses p !! a) then throw (PaxosError AssertError)
     else modify (Local.set_addresses
       (Local.drop_entries (max_addresses_size p)
         (fun b => bool_decide (b = a) || bool_decide (b ∈ held p))
         (<[a := mkEntry t d]> (addresses p))))) p) as E' by reflexivity.
  rewrite E' in E. clear E'.
  destruct (quiet_index a d p) as (p1 & E1 & S1 & V1 & I1 & A1).
  rewrite (bind_Ok _ _ _ _ _ E1) in E. unfold Local.now in E.
  monad_unfold. cbn [addresses Local.set_clock clock] in E. rewrite A1, N in E.
  cbn [is_some] in E. simplify_eq. split; [done|]. split.
  { split; cbn; [done..|by rewrite S1|by rewrite S1]. }
  cbn [addresses Local.set_addresses]. split.
  - eexists. apply drop_entries_keeps; [apply lookup_insert_eq|].
    by rewrite bool_decide_true.
  - intros b e Nb Eb.
    pose proof (lookup_weaken _ _ _ _ Eb (drop_entries_sub _ _ _)) as X.
    by rewrite lookup_insert_ne in X.
Qed.

Lemma touch_spec a p r p' :
  Local.touch a p = (r, p') ->
  r = Ok tt /\ same_disk p p' /\
  (forall b e, addresses p !! b = Some e ->
     exists t, addresses p' !! b = Some (mkEntry t (decision e))) /\
  forall b e, addresses p' !! b = Some e ->
     exists e0, addresses p !! b = Some e0 /\ decision e = decision e0.
Proof.
  unfold Local.touch, Local.now. monad_unfold. intros E. simplify_eq.
  split; [done|]. split; [done|]. cbn [addresses Local.set_addresses Local.set_clock].
  split; intros b e Eb.
  - destruct (decide (b = a)) as [->|Nb].
    + rewrite lookup_alter_eq, Eb. cbn. eauto.
    + rewrite lookup_alter_ne by done. exists (use e). rewrite Eb. by destruct e.
  - destruct (decide (b = a)) as [->|Nb].
    + rewrite lookup_alter_eq in Eb. destruct (addresses p !! a) as [e0|]; [|done].
      cbn in Eb. simplify_eq. eauto.
    + rewrite lookup_alter_ne in Eb by done. eauto.
Qed.

(** A call to the storage. *)
Lemma on_storage_get a p r p' :
  silo_ok (storage p) ->
  Local.on_storage (Silo.get (key_of a)) p = (r, p') ->
  same_disk p p' /\ addresses p' = addresses p /\
  quorums p' = quorums p /\
  r = match contents (storage p) (key_of a) with
      | Some x => Ok x
      | None => Throw (StorageError (MissingKey (key_of a)))
      end.
Proof.
  unfold Local.on_storage. intros O E.
  destruct (Silo.get (key_of a) (storage p)) as [rs st] eqn:Es.
  destruct (silo_get_spec _ _ _ _ O (key_wf a) Es) as (O' & Sm & ->).
  destruct (contents (storage p) (key_of a)); simplify_eq; by split_and!.
Qed.

(** What a slot answers when it is loaded, and the cache then. *)
Definition loads (a : Addr) (p' : P) (slot : option Slot)
    (r : result err (BlockOrPaxos B)) : Prop :=
  match slot with
  | None => r = Throw (StorageError (MissingKey (key_of a)))
  | Some (HBlock b) => r = Ok (LoadedBlock b)
  | Some (HPaxos ch s) =>
      r = Ok LoadedPaxos /\
      exists t, addresses p' !! a = Some (mkEntry t (mkDecision ch s))
  end.

Lemma same_coherent p p' :
  same_disk p p' -> addresses p' = addresses p -> coherent p -> coherent p'.
Proof. intros D A. apply coherent_same; [done|]. rewrite A. eauto. Qed.

Lemma quiet_then {X} (m : method P err unit) (k : unit -> method P err X) p r p' :
  quiet m -> (m ≫= k) p = (r, p') ->
  exists p1, same_disk p p1 /\ addresses p1 = addresses p /\ k tt p1 = (r, p').
Proof.
  intros Q E. destruct (m p) as [rm p1] eqn:Em.
  destruct (quiet_same _ _ _ _ Q Em) as (-> & D & A).
  exists p1. split_and!; [done..|]. by rewrite (bind_Ok _ _ _ _ _ Em) in E.
Qed.

Lemma coherent_insert x a d p p' :
  coherent p -> same_disk p p' ->
  (forall e, addresses p' !! a = Some e -> decision e = d) ->
  (forall b e, b <> a -> addresses p' !! b = Some e -> addresses p !! b = Some e) ->
  selle (paxos d) = elle_version p -> (x = Some a \/ on_disk p a d) ->
  coherent_but x p'.
Proof.
  intros [G O E D St] [I V Ok1 C] Ha Hb Es Od. split.
  - by rewrite V.
  - auto.
  - intros b e Eb. rewrite V. destruct (decide (b = a)) as [->|N].
    + by rewrite (Ha _ Eb).
    + eauto.
  - intros b e Eb N. unfold on_disk. rewrite V, C by apply key_wf.
    destruct (decide (b = a)) as [->|Nb].
    + rewrite (Ha _ Eb). by destruct Od as [->|Od].
    + apply (D b e); [by apply Hb|done].
  - intros b ch ar. rewrite C by apply key_wf. rewrite V. apply St.
Qed.

Lemma load_spec a p r p' :
  coherent p -> Local.load a p = (r, p') ->
  same_disk p p' /\ coherent p' /\ loads a p' (view p a) r.
Proof.
  intros C E. unfold Local.load in E. step_read E.
  destruct (addresses p !! a) as [e|] eqn:Ea; cbn [is_some] in E.
  - destruct (Local.touch a p) as [rt p1] eqn:Et.
    destruct (touch_spec _ _ _ _ Et) as (-> & D & Fw & Bw).
    rewrite (bind_Ok _ _ _ _ _ Et) in E. injection E as <- <-.
    split; [done|]. split.
    + by apply (coherent_same _ p).
    + rewrite (cached_view _ _ _ C Ea). cbn. split; [done|].
      destruct (Fw _ _ Ea) as [t ->]. exists t. by destruct e as [u []].
  - destruct (Local.on_storage (Silo.get (key_of a)) p) as [rs p1] eqn:Es.
    destruct (on_storage_get _ _ _ _ (coh_ok _ _ C) Es) as (D & A & Q & Er).
    pose proof (same_coherent _ _ D A C) as C1.
    destruct (contents (storage p) (key_of a)) as [x|] eqn:Ec; subst rs.
    2: { rewrite (bind_Throw _ _ _ _ _ Es) in E. injection E as <- <-.
         unfold view. rewrite Ec. by split_and!. }
    rewrite (bind_Ok _ _ _ _ _ Es) in E. destruct x as [b|ch ar].
    + step_read E.
      apply quiet_then in E as (p2 & D2 & A2 & E); [|quiet_tac].
      injection E as <- <-. split; [by apply (same_disk_trans _ p1)|].
      split; [by apply (same_coherent p1)|]. unfold view. by rewrite Ec.
    + step_read E. rewrite (same_version _ _ D) in E.
      destruct (stored_view _ _ _ _ C Ec) as (s & Ld & Es' & -> & Od).
      rewrite Ld in E.
      destruct (Local.load_decision a (mkDecision ch s) p1) as [rd p2] eqn:El.
      destruct (load_decision_spec a _ p1 _ _ ltac:(by rewrite A) El)
        as (-> & D2 & [t Et] & Bw).
      rewrite (bind_Ok _ _ _ _ _ El) in E.
      injection E as <- <-. pose proof (same_disk_trans _ _ _ D D2) as D02.
      split; [done|]. split; [|cbn; eauto].
      eapply coherent_insert; [exact C|done| |intros b e N Eb| |by right].
      * intros e Ee. rewrite Et in Ee. by simplify_eq.
      * rewrite <- A. by apply Bw.
      * done.
Qed.

(** The decision of [a] is in the cache; it is the one of the disk if [x] is
    [None]. *)
Definition ready (x : option Addr) (a : Addr) (ch : Z) (s : Acceptor)
    (p : P) : Prop :=
  coherent_but x p /\ (x = None \/ x = Some a) /\
  exists t, addresses p !! a = Some (mkEntry t (mkDecision ch s)).

(** What [load_paxos] makes of a slot: the decision, and whether it is new. *)
Definition decides (n : Addr) (ver : Version.t) (a : Addr)
    (peers : option (gset Addr))
    (value : option B) (slot : option Slot) :
    result err (option Addr * (Z * Acceptor)) :=
  match slot with
  | Some (HPaxos ch s) => Ok (None, (ch, s))
  | Some (HBlock _) => Throw (PeerError "immutable block found")
  | None =>
      match peers with
      | None => Throw (MissingBlock (key_of a))
      | Some q =>
          match Server.create n q (Some <$> value) ver with
          | Ok s => Ok (Some a, (-1, s))
          | Throw e => Throw (PaxosError e)
          end
      end
  end.

Lemma coherent_uncached p a :
  coherent p -> view p a = None -> addresses p !! a = None.
Proof.
  intros C V. destruct (addresses p !! a) as [e|] eqn:E; [|done].
  by rewrite (cached_view _ _ _ C E) in V.
Qed.

Lemma create_elle (n : Addr) q (v : option (option B)) ver s :
  Server.create n q v ver = Ok s -> selle s = ver.
Proof. unfold Server.create. case_match; intros; by simplify_eq. Qed.

Lemma load_paxos_spec a peers value p r p' :
  coherent p -> Local.load_paxos a peers value p = (r, p') ->
  same_disk p p' /\
  match decides (id p) (elle_version p) a peers value (view p a) with
  | Ok (x, (ch, s)) => r = Ok tt /\ ready x a ch s p'
  | Throw e => r = Throw e /\ coherent p'
  end.
Proof.
  intros C E. unfold Local.load_paxos, try_catch in E.
  rewrite bind_read in E.
  destruct (addresses p !! a) as [e|] eqn:Ea; cbn [is_some] in E.
  - destruct (Local.touch a p) as [rt p1] eqn:Et.
    destruct (touch_spec _ _ _ _ Et) as (-> & D & Fw & Bw). simplify_eq.
    rewrite (cached_view _ _ _ C Ea). split; [done|]. split; [done|].
    split_and!; [by apply (coherent_same _ p)|by left|].
    destruct (Fw _ _ Ea) as [t ->]. exists t. by destruct e as [u []].
  - destruct (Local.load a p) as [rl p1] eqn:El.
    destruct (load_spec _ _ _ _ C El) as (D & C1 & L).
    destruct (view p a) as [[b|ch s]|] eqn:V; cbn in L.
    + subst rl. rewrite (bind_Ok _ _ _ _ _ El) in E.
      cbn in E. by simplify_eq.
    + destruct L as [-> Et]. rewrite (bind_Ok _ _ _ _ _ El) in E.
      cbn in E. simplify_eq. split; [done|]. split; [done|].
      split_and!; [done|by left|done].
    + subst rl. rewrite (bind_Throw _ _ _ _ _ El) in E. cbn in E.
      destruct peers as [q|]; cbn; [|by injection E as <- <-].
      rewrite bind_read in E.
      rewrite (same_id _ _ D), (same_version _ _ D) in E.
      destruct (Server.create _ _ _ _) as [s|e] eqn:Ec; [|by injection E as <- <-].
      apply create_elle in Ec as Es.
      pose proof (coherent_uncached p1 a C1) as U.
      rewrite (same_disk_view _ _ _ D), V in U.
      destruct (load_decision_spec a _ p1 r p' (U eq_refl) E)
        as (-> & D2 & [t Et] & Bw).
      split; [by apply (same_disk_trans _ p1)|]. split; [done|].
      split_and!; [|by right|by exists t].
      eapply coherent_insert; [exact C1|done| |exact Bw| |by left].
      * intros e Ee. rewrite Et in Ee. by simplify_eq.
      * cbn. by rewrite Es, (same_version _ _ D).
Qed.

(** *** The acceptor *)

Definition paxos_result {X} (r : result (error Addr) X) : result err X :=
  match r with Ok x => Ok x | Throw e => Throw (PaxosError e) end.

Lemma the_decision_spec x a ch s p :
  ready x a ch s p ->
  Local.the_decision a p = (Ok (mkDecision ch s), p).
Proof.
  intros (_ & _ & t & E). unfold Local.the_decision. rewrite bind_read, E. done.
Qed.

Lemma on_paxos_spec {X : Type} (x : option Addr) (a : Addr) (ch : Z) (s s' : Acceptor)
    (p : P) (m : method Acceptor (error Addr) X) (r : result (error Addr) X) :
  ready x a ch s p -> m s = (r, s') -> selle s' = selle s ->
  exists p', Local.on_paxos a m p = (paxos_result r, p') /\ same_disk p p' /\
    ready (Some a) a ch s' p' /\ (s' = s -> ready x a ch s' p').
Proof.
  intros Rd Em Es. unfold Local.on_paxos.
  rewrite (bind_Ok _ _ _ _ _ (the_decision_spec _ _ _ _ _ Rd)).
  cbn [paxos]. rewrite Em.
  destruct Rd as ([G O E D St] & Hx & t & Et).
  set (p' := Local.set_addresses
    (alter (fun e => mkEntry (use e) (mkDecision ch s')) a (addresses p)) p).
  exists p'. split; [destruct r; reflexivity|]. split; [done|].
  assert (addresses p' !! a = Some (mkEntry t (mkDecision ch s'))) as Ea.
  { unfold p'. cbn. by rewrite lookup_alter_eq, Et. }
  assert (forall b, b <> a -> addresses p' !! b = addresses p !! b) as Eb.
  { intros b N. unfold p'. cbn. by rewrite lookup_alter_ne. }
  assert (forall y, (y = Some a \/ (s' = s /\ y = x)) -> ready y a ch s' p') as Rd.
  { intros y Hy. split; [|split; [naive_solver|eauto]]. split; [done..| | |done].
    - intros b e Ebe. destruct (decide (b = a)) as [->|N].
      + rewrite Ea in Ebe. simplify_eq. cbn. rewrite Es. apply (E _ _ Et).
      + rewrite Eb in Ebe by done. by apply (E b).
    - intros b e Ebe Nb. destruct (decide (b = a)) as [->|N].
      + rewrite Ea in Ebe. simplify_eq. destruct Hy as [->|[-> ->]]; [done|].
        by apply (D a _ Et).
      + rewrite Eb in Ebe by done. apply (D b e Ebe).
        destruct Hx as [->| ->]; [done|]. congruence. }
  split; [apply Rd; by left|]. intros ->. apply Rd. by right.
Qed.

Lemma ready_view a ch s p :
  ready None a ch s p -> view p a = Some (HPaxos ch s).
Proof. intros (C & _ & t & E). by rewrite (cached_view _ _ _ C E). Qed.

(** A new value at one address. *)
Definition writes (a : Addr) (p p' : P) : Prop :=
  id p' = id p /\ elle_version p' = elle_version p /\
  forall b, b <> a -> view p' b = view p b.

Lemma same_disk_writes a p p' : same_disk p p' -> writes a p p'.
Proof.
  intros D. split_and!; [apply D..|]. intros b _. by apply same_disk_view.
Qed.

Lemma writes_trans a p1 p2 p3 : writes a p1 p2 -> writes a p2 p3 -> writes a p1 p3.
Proof.
  intros (I1 & V1 & W1) (I2 & V2 & W2). split_and!; [congruence..|].
  intros b N. by rewrite W2, W1.
Qed.

Context `{!Unrefusing (Stored B) S}.

Lemma on_storage_upsert a x (p : P) r p' :
  silo_ok (storage p) ->
  Local.on_storage (Silo.set (key_of a) x true true) p = (r, p') ->
  is_ok r = true /\ id p' = id p /\ elle_version p' = elle_version p /\
  addresses p' = addresses p /\ silo_ok (storage p') /\
  stored (key_of a) x (contents (storage p)) (contents (storage p')).
Proof.
  unfold Local.on_storage. intros O E.
  destruct (Silo.set (key_of a) x true true (storage p)) as [rs st] eqn:Es.
  destruct (silo_upsert _ _ _ _ _ O (key_wf a) Es) as (Ir & O' & St).
  destruct rs; [|done]. simplify_eq. by split_and!.
Qed.

Lemma save_spec x a ch s p r p' :
  ready x a ch s p -> Local.save_decision a p = (r, p') ->
  r = Ok tt /\ ready None a ch s p' /\ writes a p p'.
Proof.
  intros Rd E. unfold Local.save_decision in E.
  rewrite (bind_Ok _ _ _ _ _ (the_decision_spec _ _ _ _ _ Rd)), bind_reads in E.
  cbn [paxos chosen] in E. destruct Rd as ([G O El D St] & Hx & t & Et).
  pose proof (El _ _ Et) as Ela. cbn in Ela.
  destruct (Server.save_total _ s G Ela) as (ar & Sv & Ld). rewrite Sv in E.
  destruct (Local.on_storage
    (Silo.set (key_of a) (StoredPaxos ch ar) true true) p) as [rs p1] eqn:Es.
  destruct (on_storage_upsert _ _ _ _ _ O Es) as (Ir & I1 & V1 & A1 & O1 & St1).
  destruct rs as [d|]; [|done]. rewrite (bind_Ok _ _ _ _ _ Es) in E.
  injection E as <- <-. split; [done|].
  assert (forall b, contents (storage p1) (key_of b) =
    if decide (b = a) then Some (StoredPaxos ch ar)
    else contents (storage p) (key_of b)) as C1.
  { intros b. rewrite St1 by apply key_wf.
    destruct (decide (key_of b = key_of a)) as [K|K], (decide (b = a)) as [->|N];
      try done. by apply key_inj in K. }
  split.
  - split; [|split; [by left|exists t; by rewrite A1]]. split.
    + by rewrite V1.
    + done.
    + intros b e. rewrite A1, V1. apply El.
    + intros b e Eb _. rewrite A1 in Eb. unfold on_disk. rewrite V1, C1.
      destruct (decide (b = a)) as [->|N].
      * rewrite Et in Eb. simplify_eq. by exists ar.
      * apply (D b e Eb). destruct Hx as [->| ->]; [done|congruence].
    + intros b ch' ar'. rewrite C1, V1. destruct (decide (b = a)) as [->|N].
      * intros [= <- <-]. by exists s.
      * apply St.
  - split_and!; [done..|]. intros b N. unfold view. rewrite V1, C1.
    by rewrite decide_False.
Qed.

(** The acceptor is called, and saved unless it threw. *)
Lemma acceptor_step {X : Type} (x : option Addr) (a : Addr) (ch : Z) (s s' : Acceptor)
    (p : P) (m : method Acceptor (error Addr) X) (rm : result (error Addr) X) :
  ready x a ch s p -> Server.transactional m -> m s = (rm, s') ->
  match rm with
  | Ok v => exists p1 p', Local.on_paxos a m p = (Ok v, p1) /\
      Local.save_decision a p1 = (Ok tt, p') /\
      ready None a ch s' p' /\ writes a p p'
  | Throw e => exists p', Local.on_paxos a m p = (Throw (PaxosError e), p') /\
      same_disk p p' /\ ready x a ch s' p'
  end.
Proof.
  intros Rd T Em. destruct (T _ _ _ Em) as [Es Th].
  destruct (on_paxos_spec _ _ _ _ _ _ _ _ Rd Em Es) as (p1 & E1 & D & Rd1 & Rd2).
  destruct rm as [v|e]; [|by exists p1; split_and!; auto].
  destruct (Local.save_decision a p1) as [r p'] eqn:E2.
  destruct (save_spec _ _ _ _ _ _ _ Rd1 E2) as (-> & Rd' & W).
  exists p1, p'. split_and!; [done..|].
  eapply writes_trans; [by apply same_disk_writes|done].
Qed.

(** ** What a slot does of a request *)

Definition outcome (X : Type) : Type := result err X * option Slot.

Definition spec_propose (peers : gset Addr) (a : Addr) (pr : Proposal Addr)
    (insert : bool) (n : Addr) (ver : Version.t) (slot : option Slot) :
    outcome (Response (option B) Addr) :=
  match decides n ver a (if insert then Some peers else None) None slot with
  | Throw e => (Throw e, slot)
  | Ok (_, (ch, s)) =>
      let '(r, s') := Server.propose peers pr s in
      (paxos_result r, if is_ok r then Some (HPaxos ch s') else slot)
  end.

Definition spec_valid (value : Value (option B) Addr) : result err unit :=
  match Local.block_of value with
  | Some b => match validate b true with Success => Ok tt | _ => Throw ValidationFailed end
  | None => Ok tt
  end.

Definition spec_previous (value : Value (option B) Addr) (s : Acceptor) :
    result err unit :=
  match Local.block_of value, Server.current_value s with
  | Some b, Some previous =>
      match Local.block_of (avalue previous) with
      | None => Throw NullPointer
      | Some pb =>
          match validate_over pb b with Success => Ok tt | _ => Throw (Conflict b) end
      end
  | _, _ => Ok tt
  end.

Definition spec_accept (peers : gset Addr) (a : Addr) (pr : Proposal Addr)
    (value : Value (option B) Addr) (n : Addr) (ver : Version.t)
    (slot : option Slot) : outcome (Proposal Addr) :=
  match (spec_valid value;; x ← decides n ver a None None slot;
         spec_previous value x.2.2;; mret x.2) with
  | Throw e => (Throw e, slot)
  | Ok (ch, s) =>
      let '(r, s') := Server.accept peers pr value s in
      (paxos_result r, if is_ok r then Some (HPaxos ch s') else slot)
  end.

Definition spec_confirm (peers : gset Addr) (a : Addr) (pr : Proposal Addr)
    (n : Addr) (ver : Version.t) (slot : option Slot) : outcome unit :=
  match slot with
  | None => (Throw (MissingBlock (key_of a)), None)
  | Some (HBlock b) => (Ok tt, Some (HBlock b))
  | Some (HPaxos ch s) =>
      match Server.confirm peers pr s with
      | (Throw e, _) => (Throw (PaxosError e), slot)
      | (Ok _, s') =>
          (Ok tt,
           match Local.confirmed_quorum (is_some (Server.current_value s)) s' with
           | Some q => if bool_decide (n ∈ q) then Some (HPaxos ch s') else None
           | None => Some (HPaxos ch s')
           end)
      end
  end.

Definition spec_get (peers : gset Addr) (a : Addr) (local_version : option Z)
    (n : Addr) (ver : Version.t) (slot : option Slot) :
    outcome (option (Accepted (option B) Addr)) :=
  (x ← decides n ver a None None slot;
   res ← paxos_result (Server.get peers x.2.2).1;
   Local.elide local_version res, slot).

Definition spec_fetch (a : Addr) (n : Addr) (ver : Version.t)
    (slot : option Slot) : outcome B :=
  (match slot with
   | None => Throw (StorageError (MissingKey (key_of a)))
   | Some (HBlock b) => Ok b
   | Some (HPaxos _ _) => Throw (PeerError "plain fetch called on mutable block")
   end, slot).

(** An immutable block is inserted once, and updated only if present. *)
Definition spec_store (b : B) (mode : StoreMode) (n : Addr) (ver : Version.t)
    (slot : option Slot) : outcome unit :=
  match validate b true, is_immutable b with
  | Success, true =>
      match slot, mode with
      | None, STORE_INSERT => (Ok tt, Some (HBlock b))
      | None, STORE_UPDATE =>
          (Throw (StorageError (MissingKey (key_of (baddress b)))), None)
      | Some (HPaxos _ _), _ => (Throw ValidationFailed, slot)
      | Some (HBlock previous), _ =>
          match validate_over previous b, mode with
          | Success, STORE_UPDATE => (Ok tt, Some (HBlock b))
          | Success, STORE_INSERT =>
              (Throw (StorageError (Collision (key_of (baddress b)))), slot)
          | Conflicting, _ => (Throw (Conflict previous), slot)
          | Failure, _ => (Throw ValidationFailed, slot)
          end
      end
  | _, _ => (Throw ValidationFailed, slot)
  end.

Definition spec_removal (b : B) (rs : R) : result err unit :=
  match validate_remove b rs with
  | Success => Ok tt
  | Conflicting => Throw (Conflict b)
  | Failure => Throw ValidationFailed
  end.

(** A decision without value is removed without checking the signature. *)
Definition spec_remove (a : Addr) (rs : R) (n : Addr) (ver : Version.t)
    (slot : option Slot) : outcome unit :=
  match slot with
  | None => (Throw (MissingBlock (key_of a)), None)
  | Some x =>
      match
        match x with
        | HBlock b => spec_removal b rs
        | HPaxos _ s =>
            match Server.current_value s with
            | None => Ok tt
            | Some highest =>
                match Local.block_of (avalue highest) with
                | None => Throw NullPointer
                | Some b => spec_removal b rs
                end
            end
        end
      with
      | Ok _ => (Ok tt, None)
      | Throw e => (Throw e, slot)
      end
  end.

(** [m] does to the disk and answers what [sp] does to the slot of [a]. *)
Definition refines {X : Type} (a : Addr) (m : method P err X)
    (sp : Addr -> Version.t -> option Slot -> outcome X) : Prop :=
  forall p r p', coherent p -> m p = (r, p') ->
  coherent p' /\ writes a p p' /\
  sp (id p) (elle_version p) (view p a) = (r, view p' a).

Lemma ready_coherent a ch s p : ready None a ch s p -> coherent p.
Proof. by intros []. Qed.

Lemma create_propose (n : Addr) (q : gset Addr) (v : option (option B))
    (ver : Version.t) (s : Acceptor)
    (p : Proposal Addr) :
  Server.create n q v ver = Ok s ->
  is_ok (Server.propose q p s).1 = true.
Proof.
  unfold Server.create. case_bool_decide; intros; simplify_eq.
  unfold Server.propose, Server.newer_accepted, Server.accepted_of,
    Server.check_confirmed, Server.check_quorum, Server.expected_quorum,
    Server.commit_previous, Server.promise, Server.accepted_of.
  monad_unfold. cbn. destruct (Version.ltb _ _); cbn;
    rewrite bool_decide_true by done; done.
Qed.

Lemma propose_refines peers a pr insert :
  refines a (Local.propose peers a pr insert) (spec_propose peers a pr insert).
Proof.
  intros p r p' C E. unfold Local.propose in E. unfold spec_propose.
  set (q := if insert then Some peers else None) in *.
  destruct (Local.load_paxos a q None p) as [rl p1] eqn:El.
  destruct (load_paxos_spec _ _ _ _ _ _ C El) as [D L].
  pose proof (same_disk_writes a _ _ D) as W.
  destruct (decides _ _ a q None (view p a)) as [[x [ch s]]|e] eqn:Ed.
  2: { destruct L as [-> C1]. rewrite (bind_Throw _ _ _ _ _ El) in E.
       injection E as <- <-. by rewrite (same_disk_view _ _ _ D). }
  destruct L as [-> Rd]. rewrite (bind_Ok _ _ _ _ _ El) in E.
  destruct (Server.propose peers pr s) as [rm s'] eqn:Em.
  pose proof (acceptor_step _ _ _ _ _ _ _ _ Rd
    (Server.propose_transactional _ _) Em) as St.
  destruct rm as [v|e].
  - destruct St as (p2 & p3 & E2 & E3 & Rd' & W3).
    rewrite (bind_Ok _ _ _ _ _ E2), (bind_Ok _ _ _ _ _ E3) in E.
    injection E as <- <-. split; [by eapply ready_coherent|].
    split; [by eapply writes_trans|]. by rewrite (ready_view _ _ _ _ Rd').
  - destruct St as (p2 & E2 & D2 & Rd').
    rewrite (bind_Throw _ _ _ _ _ E2) in E. injection E as <- <-.
    destruct x as [b|].
    + exfalso. unfold decides in Ed. destruct (view p a) as [[]|]; [done..|].
      unfold q in Ed. destruct insert; [|done]. cbn in Ed.
      destruct (Server.create _ _ _ _) as [s0|] eqn:Ec; [|done]. simplify_eq.
      pose proof (create_propose _ _ _ _ _ pr Ec) as X. by rewrite Em in X.
    + split; [by eapply ready_coherent|].
      split; [eapply writes_trans; [done|by apply same_disk_writes]|].
      by rewrite (same_disk_view _ _ _ D2), (same_disk_view _ _ _ D).
Qed.

Lemma valid_spec (value : Value (option B) Addr) (p : P) :
  (match Local.block_of value with
   | Some b =>
       match validate b true with
       | Success => mret tt
       | _ => throw ValidationFailed
       end
   | None => mret tt
   end : method P err unit) p = (spec_valid value, p).
Proof. unfold spec_valid. by repeat case_match. Qed.

Lemma previous_spec x a ch s (p : P) value :
  ready x a ch s p ->
  (match Local.block_of value with
   | Some b => Local.validate_previous a b
   | None => mret tt
   end : method P err unit) p = (spec_previous value s, p).
Proof.
  intros Rd. unfold spec_previous. destruct (Local.block_of value) as [b|]; [|done].
  unfold Local.validate_previous.
  rewrite (bind_Ok _ _ _ _ _ (the_decision_spec _ _ _ _ _ Rd)). cbn [paxos].
  by repeat case_match.
Qed.

Lemma signal_spec value (p : P) :
  exists p', (match Local.block_of value with
   | Some b => modify (Local.stored_signal b)
   | None => mret tt
   end : method P err unit) p = (Ok tt, p') /\
  same_disk p p' /\ addresses p' = addresses p.
Proof. destruct (Local.block_of value); eexists; by split_and!. Qed.

Lemma refines_same {X} a (p p' : P) (sp : outcome X) r :
  coherent p' -> same_disk p p' -> sp = (r, view p a) ->
  coherent p' /\ writes a p p' /\ sp = (r, view p' a).
Proof.
  intros C D E. split; [done|]. split; [by apply same_disk_writes|].
  by rewrite (same_disk_view _ _ _ D).
Qed.

Lemma load_existing a p r p' :
  coherent p -> Local.load_paxos a None None p = (r, p') ->
  same_disk p p' /\
  match decides (id p) (elle_version p) a None None (view p a) with
  | Ok (x, (ch, s)) => r = Ok tt /\ x = None /\ ready None a ch s p'
  | Throw e => r = Throw e /\ coherent p'
  end.
Proof.
  intros C E. destruct (load_paxos_spec _ _ _ _ _ _ C E) as [D L].
  split; [done|]. destruct (decides _ _ a None None _) as [[x [ch s]]|e] eqn:Ed;
    [|done].
  assert (x = None) as ->.
  { unfold decides in Ed. by destruct (view p a) as [[]|]; simplify_eq. }
  by destruct L.
Qed.

Lemma accept_refines peers a pr value :
  refines a (Local.accept peers a pr value) (spec_accept peers a pr value).
Proof.
  intros p r p' C E. unfold Local.accept in E. unfold spec_accept.
  pose proof (valid_spec value p) as V.
  destruct (spec_valid value) as [[]|e] eqn:Ev.
  2: { rewrite (bind_Throw _ _ _ _ _ V) in E. injection E as <- <-.
       by apply refines_same. }
  rewrite (bind_Ok _ _ _ _ _ V) in E.
  destruct (Local.load_paxos a None None p) as [rl p1] eqn:El.
  destruct (load_existing _ _ _ _ C El) as [D L].
  unfold mbind at 1 2, result_bind.
  destruct (decides _ _ a None None (view p a)) as [[x [ch s]]|e] eqn:Ed.
  2: { destruct L as [-> C1]. rewrite (bind_Throw _ _ _ _ _ El) in E.
       injection E as <- <-. by apply refines_same. }
  destruct L as (-> & -> & Rd). rewrite (bind_Ok _ _ _ _ _ El) in E.
  pose proof (previous_spec _ _ _ _ _ value Rd) as Pv. cbn [snd].
  unfold mbind, mret, result_ret, result_bind.
  destruct (spec_previous value s) as [[]|e].
  2: { rewrite (bind_Throw _ _ _ _ _ Pv) in E. injection E as <- <-.
       apply refines_same; [by eapply ready_coherent|done..]. }
  rewrite (bind_Ok _ _ _ _ _ Pv) in E.
  destruct (Server.accept peers pr value s) as [rm s'] eqn:Em.
  pose proof (acceptor_step _ _ _ _ _ _ _ _ Rd
    (Server.accept_transactional _ _ _) Em) as St.
  destruct rm as [v|e].
  - destruct St as (p2 & p3 & E2 & E3 & Rd' & W3).
    rewrite (bind_Ok _ _ _ _ _ E2), (bind_Ok _ _ _ _ _ E3) in E.
    destruct (signal_spec value p3) as (p4 & E4 & D4 & A4).
    rewrite (bind_Ok _ _ _ _ _ E4) in E. injection E as <- <-.
    split; [by apply (same_coherent p3); [..|eapply ready_coherent]|].
    split.
    + eapply writes_trans; [by apply same_disk_writes|].
      eapply writes_trans; [done|by apply same_disk_writes].
    + by rewrite (same_disk_view _ _ _ D4), (ready_view _ _ _ _ Rd').
  - destruct St as (p2 & E2 & D2 & Rd').
    rewrite (bind_Throw _ _ _ _ _ E2) in E. injection E as <- <-.
    apply refines_same; [by eapply ready_coherent| |done].
    by eapply same_disk_trans.
Qed.

Lemma get_refines peers a lv :
  refines a (Local.get peers a lv) (spec_get peers a lv).
Proof.
  intros p r p' C E. unfold Local.get in E. unfold spec_get.
  destruct (Local.load_paxos a None None p) as [rl p1] eqn:El.
  destruct (load_existing _ _ _ _ C El) as [D L].
  unfold mbind, result_bind.
  destruct (decides _ _ a None None (view p a)) as [[x [ch s]]|e] eqn:Ed.
  2: { destruct L as [-> C1]. rewrite (bind_Throw _ _ _ _ _ El) in E.
       injection E as <- <-. by apply refines_same. }
  destruct L as (-> & -> & Rd). rewrite (bind_Ok _ _ _ _ _ El) in E. cbn [snd].
  destruct (Server.get peers s) as [rm s'] eqn:Em.
  pose proof (Server.get_state peers s) as Es. rewrite Em in Es. cbn in Es. subst s'.
  destruct (on_paxos_spec _ _ _ _ _ _ _ _ Rd Em eq_refl)
    as (p2 & E2 & D2 & _ & Rd2). specialize (Rd2 eq_refl). cbn [fst].
  destruct (paxos_result rm) as [v|e].
  - rewrite (bind_Ok _ _ _ _ _ E2) in E. injection E as <- <-.
    apply refines_same; [by eapply ready_coherent|by eapply same_disk_trans|done].
  - rewrite (bind_Throw _ _ _ _ _ E2) in E. injection E as <- <-.
    apply refines_same; [by eapply ready_coherent|by eapply same_disk_trans|done].
Qed.

(** *** Blocks *)

Lemma uncached_block a b p :
  coherent p -> view p a = Some (HBlock b) -> addresses p !! a = None.
Proof.
  intros C V. destruct (addresses p !! a) as [e|] eqn:E; [|done].
  by rewrite (cached_view _ _ _ C E) in V.
Qed.

(** What the storage holds, from the slot. *)
Lemma view_contents p a :
  coherent p ->
  match view p a with
  | None => contents (storage p) (key_of a) = None
  | Some (HBlock b) => contents (storage p) (key_of a) = Some (StoredBlock b)
  | Some (HPaxos ch s) => exists ar,
      contents (storage p) (key_of a) = Some (StoredPaxos ch ar)
  end.
Proof.
  intros C. destruct (contents (storage p) (key_of a)) as [[b|ch ar]|] eqn:E.
  - unfold view. by rewrite E.
  - destruct (stored_view _ _ _ _ C E) as (s & _ & _ & -> & _). by exists ar.
  - unfold view. by rewrite E.
Qed.

Lemma fetch_refines a : refines a (Local.fetch a) (spec_fetch a).
Proof.
  intros p r p' C E. unfold Local.fetch in E. unfold spec_fetch.
  destruct (Local.on_storage (Silo.get (key_of a)) p) as [rs p1] eqn:Es.
  destruct (on_storage_get _ _ _ _ (coh_ok _ _ C) Es) as (D & A & _ & ->).
  pose proof (same_coherent _ _ D A C) as C1. pose proof (view_contents p a C) as V.
  destruct (view p a) as [[b|ch s]|] eqn:Ev; [|destruct V as [ar V]|];
    rewrite V in Es;
    first [rewrite (bind_Ok _ _ _ _ _ Es) in E
          |rewrite (bind_Throw _ _ _ _ _ Es) in E];
    injection E as <- <-; (apply refines_same; [done..|by rewrite Ev]).
Qed.

(** A write of the block at [a], or its removal. *)
Lemma coherent_write a (x : option (Stored B)) p p' :
  coherent p -> id p' = id p -> elle_version p' = elle_version p ->
  silo_ok (storage p') -> addresses p !! a = None ->
  (forall b, b <> a -> addresses p' !! b = addresses p !! b) ->
  addresses p' !! a = None ->
  (forall k, Address.wf k -> contents (storage p') k =
     if decide (k = key_of a) then x else contents (storage p) k) ->
  match x with Some (StoredPaxos _ _) => False | _ => True end ->
  coherent p' /\ writes a p p' /\ view p' a = x ≫= decode (elle_version p).
Proof.
  intros [G O El D St] I V O' N Ab Na C X.
  assert (forall b, contents (storage p') (key_of b) =
    if decide (b = a) then x else contents (storage p) (key_of b)) as Cb.
  { intros b. rewrite C by apply key_wf.
    destruct (decide (key_of b = key_of a)) as [K|K], (decide (b = a)) as [->|M];
      try done. by apply key_inj in K. }
  split; [split|split].
  - by rewrite V.
  - done.
  - intros b e Eb. destruct (decide (b = a)) as [->|M]; [congruence|].
    rewrite Ab in Eb by done. rewrite V. eauto.
  - intros b e Eb _. destruct (decide (b = a)) as [->|M]; [congruence|].
    rewrite Ab in Eb by done. unfold on_disk. rewrite V, Cb, decide_False by done.
    by apply (D b e).
  - intros b ch ar. rewrite Cb, V. destruct (decide (b = a)) as [->|M]; [|apply St].
    intros ->. done.
  - split_and!; [done..|]. intros b M. unfold view. by rewrite V, Cb, decide_False.
  - unfold view. by rewrite V, Cb, decide_True.
Qed.

(** A block is set where there is no decision. *)
Lemma on_storage_set a b ins upd p r p' :
  coherent p -> addresses p !! a = None -> ins || upd = true ->
  Local.on_storage (Silo.set (key_of a) (StoredBlock b) ins upd) p = (r, p') ->
  match set_error (present (contents (storage p) (key_of a))) ins upd (key_of a) with
  | None => is_ok r = true /\ coherent p' /\ writes a p p' /\
      view p' a = Some (HBlock b)
  | Some e => r = Throw (StorageError e) /\ same_disk p p' /\ coherent p'
  end.
Proof.
  intros C N Iu E. unfold Local.on_storage in E.
  destruct (Silo.set _ _ _ _ (storage p)) as [rs st] eqn:Es.
  pose proof (silo_set_spec _ _ _ _ _ _ _ (coh_ok _ _ C) (key_wf a) Es) as X.
  rewrite Iu in X. destruct X as [O X].
  destruct rs as [d|e]; simplify_eq; destruct X as [X Y].
  - rewrite X. split; [done|].
    apply (coherent_write a (Some (StoredBlock b)) p); done.
  - assert (set_error (present (contents (storage p) (key_of a))) ins upd
      (key_of a) = Some e) as ->.
    { destruct Y as [Y|Y]; [done|].
      by destruct (never_refuses _ _ _ _ _ _ _ (coh_ok _ _ C) (key_wf a) Es). }
    assert (same_disk p (Local.set_storage st p)) as D by by split.
    split; [done|]. split; [done|]. by apply (same_coherent p).
Qed.

Lemma on_storage_store a b ins upd p r p' :
  coherent p -> addresses p !! a = None -> ins || upd = true ->
  (Local.on_storage (Silo.set (key_of a) (StoredBlock b) ins upd);;
   modify (Local.stored_signal b)) p = (r, p') ->
  match set_error (present (contents (storage p) (key_of a))) ins upd (key_of a) with
  | None => r = Ok tt /\ coherent p' /\ writes a p p' /\
      view p' a = Some (HBlock b)
  | Some e => r = Throw (StorageError e) /\ same_disk p p' /\ coherent p'
  end.
Proof.
  intros C N Iu E.
  destruct (Local.on_storage (Silo.set (key_of a) (StoredBlock b) ins upd) p)
    as [rs p1] eqn:Es.
  pose proof (on_storage_set _ _ _ _ _ _ _ C N Iu Es) as X.
  destruct (set_error _ _ _ _) as [e|].
  - destruct X as (-> & D & C1). rewrite (bind_Throw _ _ _ _ _ Es) in E.
    by injection E as <- <-.
  - destruct X as (Ir & C1 & W & V1). destruct rs as [d|]; [|done].
    rewrite (bind_Ok _ _ _ _ _ Es) in E. injection E as <- <-.
    set (p2 := Local.stored_signal b p1). assert (same_disk p1 p2) as D2 by by split.
    split; [done|]. split; [by apply (same_coherent p1)|].
    split; [eapply writes_trans; [done|by apply same_disk_writes]|].
    by rewrite (same_disk_view _ _ _ D2).
Qed.

Lemma store_refines b mode :
  refines (baddress b) (Local.store b mode) (spec_store b mode).
Proof.
  intros p r p' C E. unfold Local.store in E. unfold spec_store.
  set (a := baddress b) in *.
  assert (match validate b true, is_immutable b with Success, true => True
          | _, _ => (r, p') = (Throw ValidationFailed, p) end) as Pre.
  { rewrite <- E. by destruct (validate b true), (is_immutable b). }
  destruct (validate b true); [|injection Pre as -> ->; by apply refines_same..].
  destruct (is_immutable b); [|injection Pre as -> ->; by apply refines_same].
  clear Pre. rewrite !bind_ret_l in E.
  destruct (Local.on_storage (Silo.get (key_of a)) p) as [rs p1] eqn:Es.
  destruct (on_storage_get _ _ _ _ (coh_ok _ _ C) Es) as (D & A & _ & ->).
  pose proof (same_coherent _ _ D A C) as C1. pose proof (view_contents p a C) as V.
  assert (forall k : unit -> method P err unit, (try_catch
      (stored ← Local.on_storage (Silo.get (key_of a));
       match stored with
       | StoredPaxos _ _ => throw ValidationFailed
       | StoredBlock previous =>
           match validate_over previous b with
           | Success => mret tt
           | Conflicting => throw (Conflict previous)
           | Failure => throw ValidationFailed
           end
       end) (Local.on_missing (fun _ => mret tt)) ≫= k) p =
    match view p a with
    | Some (HPaxos _ _) => (Throw ValidationFailed, p1)
    | Some (HBlock previous) =>
        match validate_over previous b with
        | Success => k tt p1
        | Conflicting => (Throw (Conflict previous), p1)
        | Failure => (Throw ValidationFailed, p1)
        end
    | None => k tt p1
    end) as K.
  { intros k. unfold mbind at 1, method_bind at 1. unfold try_catch.
    destruct (view p a) as [[pb|ch s]|]; [|destruct V as [ar V]|];
      rewrite V in Es; unfold mbind, method_bind; rewrite Es;
      [by destruct (validate_over pb b)|done..]. }
  rewrite K in E. clear K.
  assert (addresses p1 !! a = None \/ exists ch s, view p a = Some (HPaxos ch s))
    as N.
  { destruct (addresses p !! a) as [e|] eqn:Ea; [|left; by rewrite A].
    right. rewrite (cached_view _ _ _ C Ea). eauto. }
  destruct (view p a) as [[pb|ch s]|] eqn:Ev.
  2: { injection E as <- <-. by apply refines_same; rewrite ?Ev. }
  all: destruct N as [N|(? & ? & ?)]; [|done].
  - destruct (validate_over pb b).
    2,3: injection E as <- <-; apply refines_same; by rewrite ?Ev.
    rewrite <- (same_contents _ _ D) in V by apply key_wf.
    destruct mode; apply on_storage_store in E; try done; rewrite V in E;
      cbn [set_error present] in E.
    + destruct E as (-> & D2 & C2). apply refines_same; [done| |by rewrite Ev].
      by apply (same_disk_trans _ p1).
    + destruct E as (-> & C2 & W2 & ->). split; [done|]. split; [|done].
      eapply writes_trans; [by apply same_disk_writes|done].
  - rewrite <- (same_contents _ _ D) in V by apply key_wf.
    destruct mode; apply on_storage_store in E; try done; rewrite V in E;
      cbn [set_error present] in E.
    + destruct E as (-> & C2 & W2 & ->). split; [done|]. split; [|done].
      eapply writes_trans; [by apply same_disk_writes|done].
    + destruct E as (-> & D2 & C2). apply refines_same; [done| |by rewrite Ev].
      by apply (same_disk_trans _ p1).
Qed.

(** *** Removal *)

Lemma remove_block_spec a p r p' :
  coherent p -> Local.remove_block a p = (r, p') ->
  coherent p' /\ writes a p p' /\ view p' a = None /\
  r = match contents (storage p) (key_of a) with
      | Some _ => Ok tt
      | None => Throw (MissingBlock (key_of a))
      end.
Proof.
  intros C E. unfold Local.remove_block, Local.on_storage in E.
  unfold mbind at 1, method_bind at 1 in E. unfold try_catch in E.
  unfold mbind at 1, method_bind at 1 in E.
  destruct (Silo.erase (key_of a) (storage p)) as [rs st] eqn:Es.
  pose proof (silo_erase_spec _ _ _ _ (coh_ok _ _ C) (key_wf a) Es) as [O X].
  destruct rs as [d|e].
  - destruct X as [Pr Er]. destruct (contents (storage p) (key_of a)) eqn:Ec; [|done].
    assert (r = Ok tt /\ id p' = id p /\ elle_version p' = elle_version p /\
      storage p' = st /\ addresses p' = delete a (addresses p)) as (-> & I & V & <- & A)
      by (clear -E; revert E; unfold mret, method_ret, modify, mbind, method_bind;
          intros [= <- <-]; done).
    destruct C as [G O0 El D St].
    split; [split|].
    + by rewrite V.
    + done.
    + intros b e. rewrite A, V. intros Eb.
      apply lookup_delete_Some in Eb as [_ Eb]. eauto.
    + intros b e. rewrite A. intros [N Eb]%lookup_delete_Some _.
      destruct (D b e Eb) as (ar & Sv & Cb); [done|]. exists ar.
      rewrite V, Er by apply key_wf. rewrite decide_False; [done|].
      intros K%key_inj. congruence.
    + intros b ch ar. rewrite V, Er by apply key_wf. case_decide; [done|]. apply St.
    + split; [split_and!; [done..|]|split; [|done]].
      * intros b N. unfold view. rewrite V, Er by apply key_wf.
        rewrite decide_False; [done|]. intros K%key_inj. congruence.
      * unfold view. rewrite Er by apply key_wf. by rewrite decide_True.
  - destruct X as (Sm & Ec & ->). rewrite Ec. cbn in E.
    injection E as <- <-.
    assert (same_disk p (Local.set_storage st p)) as D by by split.
    split; [by apply (same_coherent p)|]. split; [by apply same_disk_writes|].
    rewrite (same_disk_view _ _ _ D). unfold view. by rewrite Ec.
Qed.

Lemma load_or_missing_spec a p r p' :
  coherent p -> Local.load_or_missing a p = (r, p') ->
  same_disk p p' /\ coherent p' /\
  match view p a with
  | None => r = Throw (MissingBlock (key_of a))
  | Some (HBlock b) => r = Ok (LoadedBlock b)
  | Some (HPaxos ch s) => r = Ok LoadedPaxos /\ ready None a ch s p'
  end.
Proof.
  intros C E. unfold Local.load_or_missing, try_catch in E.
  destruct (Local.load a p) as [rl p1] eqn:El.
  destruct (load_spec _ _ _ _ C El) as (D & C1 & L). unfold loads in L.
  destruct (view p a) as [[b|ch s]|].
  - subst rl. by simplify_eq.
  - destruct L as [-> Et]. simplify_eq. split; [done|]. split; [done|].
    split; [done|]. split; [done|]. split; [by left|done].
  - subst rl. cbn in E. injection E as <- <-. by split_and!.
Qed.

Lemma removal_spec b rs (p : P) :
  (Local.check_removal b rs : method P err unit) p = (spec_removal b rs, p).
Proof. unfold Local.check_removal, spec_removal. by case_match. Qed.

Lemma view_present p a x :
  coherent p -> view p a = Some x -> contents (storage p) (key_of a) <> None.
Proof.
  intros C V. pose proof (view_contents p a C) as X. rewrite V in X.
  destruct x; [|destruct X as [ar X]]; by rewrite X.
Qed.

Lemma remove_refines a rs : refines a (Local.remove a rs) (spec_remove a rs).
Proof.
  intros p r p' C E. unfold Local.remove in E. unfold spec_remove.
  destruct (Local.load_or_missing a p) as [rl p1] eqn:El.
  destruct (load_or_missing_spec _ _ _ _ C El) as (D & C1 & L).
  pose proof (same_disk_view _ _ a D) as V1.
  destruct (view p a) as [x|] eqn:V.
  2: { subst rl. rewrite (bind_Throw _ _ _ _ _ El) in E. injection E as <- <-.
       by apply refines_same; rewrite ?V. }
  assert (exists chk : result err unit,
    (r, p') = match chk with
              | Ok _ => Local.remove_block a p1
              | Throw e => (Throw e, p1)
              end /\
    match x with
    | HBlock b => spec_removal b rs
    | HPaxos _ s =>
        match Server.current_value s with
        | None => Ok tt
        | Some highest =>
            match Local.block_of (avalue highest) with
            | None => Throw NullPointer
            | Some b => spec_removal b rs
            end
        end
    end = chk) as (chk & E' & ->).
  { destruct x as [b|ch s]; [|destruct L as [-> Rd]].
    - subst rl. rewrite (bind_Ok _ _ _ _ _ El) in E. eexists. split; [|done].
      rewrite <- E. unfold mbind, method_bind. rewrite removal_spec.
      by destruct (spec_removal b rs) as [[]|].
    - rewrite (bind_Ok _ _ _ _ _ El) in E. eexists. split; [|done].
      rewrite <- E. unfold mbind, method_bind.
      rewrite (the_decision_spec _ _ _ _ _ Rd). cbn [paxos].
      destruct (Server.current_value s) as [hv|]; [|done].
      destruct (Local.block_of (avalue hv)) as [b|]; [|done].
      rewrite removal_spec. by destruct (spec_removal b rs) as [[]|]. }
  destruct chk as [[]|e].
  - symmetry in E'. destruct (remove_block_spec _ _ _ _ C1 E') as (C2 & W & -> & ->).
    pose proof (view_present p1 a x C1 V1) as Pr.
    split; [done|]. split; [eapply writes_trans; [by apply same_disk_writes|done]|].
    by destruct (contents (storage p1) (key_of a)).
  - injection E' as -> ->. by apply refines_same; rewrite ?V.
Qed.

(** *** Confirmation *)

Lemma quiet_confirmed a imm q (c : P -> bool) :
  quiet (Local.cache a imm q;; st ← read; when (c st) (Local.schedule a false)).
Proof. quiet_tac. Qed.

(** What follows the confirmation of a decision. *)
Lemma after_confirm a had ch s p r p' :
  ready None a ch s p ->
  match Local.confirmed_quorum had s with
  | None => mret tt
  | Some q =>
      self ← reads id;
      if bool_decide (self ∈ q) then
        Local.cache a false q;;
        st ← read;
        when (rebalance_auto_expand st && is_some (Server.current_value s) &&
              Local.lacks q st) (Local.schedule a false)
      else Local.remove_block a
  end p = (r, p') ->
  r = Ok tt /\ coherent p' /\ writes a p p' /\
  view p' a =
    match Local.confirmed_quorum had s with
    | Some q => if bool_decide (id p ∈ q) then Some (HPaxos ch s) else None
    | None => Some (HPaxos ch s)
    end.
Proof.
  intros Rd E. pose proof (ready_coherent _ _ _ _ Rd) as C.
  pose proof (ready_view _ _ _ _ Rd) as V.
  destruct (Local.confirmed_quorum had s) as [q|].
  2: { injection E as <- <-. by split_and!. }
  rewrite bind_reads in E. destruct (bool_decide (id p ∈ q)).
  - apply quiet_same in E as (-> & D & A).
    2: { exact (quiet_confirmed a false q (fun st => rebalance_auto_expand st &&
           is_some (Server.current_value s) && Local.lacks q st)). }
    split; [done|]. split; [by apply (same_coherent p)|].
    split; [by apply same_disk_writes|]. by rewrite (same_disk_view _ _ _ D).
  - destruct (remove_block_spec _ _ _ _ C E) as (C2 & W & -> & ->).
    pose proof (view_present p a _ C V). by destruct (contents _ _).
Qed.

Lemma confirm_refines peers a pr :
  refines a (Local.confirm peers a pr) (spec_confirm peers a pr).
Proof.
  intros p r p' C E. unfold Local.confirm in E. unfold spec_confirm.
  destruct (Local.load_or_missing a p) as [rl p1] eqn:El.
  destruct (load_or_missing_spec _ _ _ _ C El) as (D & C1 & L).
  pose proof (same_disk_writes a _ _ D) as W.
  destruct (view p a) as [[b|ch s]|] eqn:V.
  - subst rl. rewrite (bind_Ok _ _ _ _ _ El) in E.
    apply quiet_same in E as (-> & D2 & A2).
    2: { exact (quiet_confirmed a true peers (fun st => rebalance_auto_expand st &&
           Local.lacks peers st)). }
    apply refines_same; [by apply (same_coherent p1)| |by rewrite V].
    by apply (same_disk_trans _ p1).
  - destruct L as [-> Rd]. rewrite (bind_Ok _ _ _ _ _ El) in E.
    rewrite (bind_Ok _ _ _ _ _ (the_decision_spec _ _ _ _ _ Rd)) in E.
    cbn [paxos] in E.
    destruct (Server.confirm peers pr s) as [rm s'] eqn:Em.
    pose proof (acceptor_step _ _ _ _ _ _ _ _ Rd
      (Server.confirm_transactional _ _) Em) as St.
    destruct rm as [[]|e].
    + destruct St as (p2 & p3 & E2 & E3 & Rd' & W3).
      rewrite (bind_Ok _ _ _ _ _ E2), (bind_Ok _ _ _ _ _ E3) in E.
      rewrite (bind_Ok _ _ _ _ _ (the_decision_spec _ _ _ _ _ Rd')) in E.
      cbn [paxos] in E.
      destruct (after_confirm _ _ _ _ _ _ _ Rd' E) as (-> & C4 & W4 & ->).
      pose proof W as (I1 & _). pose proof W3 as (I3 & _).
      split; [done|]. split; [|by rewrite I3, I1].
      eapply writes_trans; [done|]. by eapply writes_trans.
    + destruct St as (p2 & E2 & D2 & Rd').
      rewrite (bind_Throw _ _ _ _ _ E2) in E. injection E as <- <-.
      apply refines_same; [by eapply ready_coherent| |by rewrite V].
      by apply (same_disk_trans _ p1).
  - subst rl. rewrite (bind_Throw _ _ _ _ _ El) in E. injection E as <- <-.
    by apply refines_same; rewrite ?V.
Qed.

(** *** Propagation *)

(** The acceptor that propagation builds. *)
Definition propagated (n : Addr) (ver : Version.t) (q : gset Addr) (b : B)
    (pr : Proposal Addr) (acc : option (Accepted (option B) Addr)) : Acceptor :=
  mkServer n q (Some (Some b)) ver false (Some (mkState pr acc)).

Lemma propagated_propose (n : Addr) (ver : Version.t) (q : gset Addr) (b : B)
    (pr : Proposal Addr) :
  Server.propose q pr (mkServer n q (Some (Some b)) ver false None) =
  (Ok (mkResponse None None false), propagated n ver q b pr None).
Proof.
  unfold Server.propose, Server.newer_accepted, Server.accepted_of,
    Server.check_confirmed, Server.check_quorum, Server.expected_quorum,
    Server.commit_previous, Server.promise, Server.accepted_of.
  monad_unfold. cbn. destruct (Version.ltb _ _); cbn;
    rewrite bool_decide_true by done; done.
Qed.

Lemma propagated_accept (n : Addr) (ver : Version.t) (q : gset Addr) (b : B)
    (pr : Proposal Addr) :
  Server.accept q pr (Quo q) (propagated n ver q b pr None) =
  (Ok pr, propagated n ver q b pr (Some (mkAccepted pr (Quo q) false))).
Proof.
  unfold Server.accept, Server.check_quorum, Server.expected_quorum,
    Server.accepted_of. monad_unfold. cbn. rewrite bool_decide_true by done.
  by rewrite plt_irrefl.
Qed.

Lemma propagated_confirm (n : Addr) (ver : Version.t) (q : gset Addr) (b : B)
    (pr : Proposal Addr) :
  Server.confirm q pr
    (propagated n ver q b pr (Some (mkAccepted pr (Quo q) false))) =
  (Ok tt, propagated n ver q b pr (Some (mkAccepted pr (Quo q) true))).
Proof.
  unfold Server.confirm, Server.check_quorum, Server.expected_quorum,
    Server.accepted_of. monad_unfold. cbn. rewrite Z.ltb_irrefl.
  rewrite bool_decide_true by done. by rewrite plt_irrefl.
Qed.

(** A block that is propagated where there is no decision. *)
Definition spec_propagate (q : gset Addr) (b : B) (pr : Proposal Addr) (n : Addr)
    (ver : Version.t) (slot : option Slot) : outcome unit :=
  match decides n ver (baddress b) (Some q) (Some b) slot with
  | Throw e => (Throw e, slot)
  | Ok _ =>
      (Ok tt, Some (HPaxos (-1) (propagated n ver q b pr (Some (mkAccepted pr (Quo q) true)))))
  end.

Definition is_decision (slot : option Slot) : bool :=
  match slot with Some (HPaxos _ _) => true | _ => false end.

Lemma propagate_new_refines (p : P) (q : gset Addr) (b : B) (pr : Proposal Addr) (r : result err unit) p' :
  coherent p -> view p (baddress b) = None -> id p ∈ q -> Local.propagate q b pr p = (r, p') ->
  r = Ok tt /\ coherent p' /\ writes (baddress b) p p' /\
  view p' (baddress b) = Some (HPaxos (-1) (propagated (id p) (elle_version p) q b pr
    (Some (mkAccepted pr (Quo q) true)))).
Proof.
  intros C V I E. unfold Local.propagate in E. rewrite bind_read in E.
  set (a := baddress b) in *.
  rewrite (coherent_uncached _ _ C V) in E. cbn [is_some] in E.
  destruct (Local.load_paxos a (Some q) (Some b) p) as [rl p1] eqn:El.
  destruct (load_paxos_spec _ _ _ _ _ _ C El) as [D L].
  rewrite V in L. cbn [decides] in L. unfold Server.create in L.
  rewrite bool_decide_true in L by done. destruct L as [-> Rd0].
  rewrite (bind_Ok _ _ _ _ _ El) in E.
  destruct (on_paxos_spec _ _ _ _ _ _ _ _ Rd0
    (propagated_propose _ _ q b pr) eq_refl) as (p2 & E2 & D2 & Rd2 & _).
  rewrite (bind_Ok _ _ _ _ _ E2) in E.
  destruct (on_paxos_spec _ _ _ _ _ _ _ _ Rd2
    (propagated_accept _ _ q b pr) eq_refl) as (p3 & E3 & D3 & Rd3 & _).
  rewrite (bind_Ok _ _ _ _ _ E3) in E.
  destruct (on_paxos_spec _ _ _ _ _ _ _ _ Rd3
    (propagated_confirm _ _ q b pr) eq_refl) as (p4 & E4 & D4 & Rd4 & _).
  rewrite (bind_Ok _ _ _ _ _ E4) in E.
  destruct (Local.save_decision a p4) as [rs p5] eqn:E5.
  destruct (save_spec _ _ _ _ _ _ _ Rd4 E5) as (-> & Rd5 & W5).
  rewrite (bind_Ok _ _ _ _ _ E5) in E. injection E as <- <-.
  set (p6 := Local.stored_signal b p5). assert (same_disk p5 p6) as D6 by by split.
  split; [done|]. split; [by apply (same_coherent p5); [..|eapply ready_coherent]|].
  split; [|by rewrite (same_disk_view _ _ a D6), (ready_view _ _ _ _ Rd5)].
  apply (writes_trans _ _ p4).
  - apply same_disk_writes. do 3 (eapply same_disk_trans; [|eassumption]). done.
  - by eapply writes_trans, same_disk_writes.
Qed.

Lemma propagate_refines (q : gset Addr) (b : B) (pr : Proposal Addr) p r p' :
  coherent p -> is_decision (view p (baddress b)) = false -> Local.propagate q b pr p = (r, p') ->
  coherent p' /\ writes (baddress b) p p' /\
  spec_propagate q b pr (id p) (elle_version p) (view p (baddress b)) = (r, view p' (baddress b)).
Proof.
  intros C Nd E. unfold spec_propagate.
  assert (forall e, decides (id p) (elle_version p) (baddress b) (Some q) (Some b)
      (view p (baddress b)) = Throw e ->
    coherent p' /\ writes (baddress b) p p' /\
    (Throw e, view p (baddress b)) = (r, view p' (baddress b))) as Th.
  { intros e Ed. unfold Local.propagate in E. rewrite bind_read in E.
    assert (addresses p !! baddress b = None) as N.
    { destruct (addresses p !! baddress b) as [x|] eqn:Ex; [|done].
      by rewrite (cached_view _ _ _ C Ex) in Nd. }
    rewrite N in E. cbn [is_some] in E.
    destruct (Local.load_paxos (baddress b) (Some q) (Some b) p) as [rl p1] eqn:El.
    destruct (load_paxos_spec _ _ _ _ _ _ C El) as [D L]. rewrite Ed in L. destruct L as [-> C1].
    rewrite (bind_Throw _ _ _ _ _ El) in E. injection E as <- <-. by apply refines_same. }
  destruct (view p (baddress b)) as [[b'|ch s]|] eqn:V; [by apply Th|done|].
  cbn [decides] in *. unfold Server.create in *. case_bool_decide as I; [|by apply Th].
  destruct (propagate_new_refines p q b pr r p' C V I E) as (-> & C' & W & V').
  split; [done|]. split; [done|]. by rewrite V'.
Qed.

(** ** Requests and events *)

Inductive request :=
  | RPropose (q : gset Addr) (a : Addr) (pr : Proposal Addr) (insert : bool)
  | RAccept (q : gset Addr) (a : Addr) (pr : Proposal Addr)
      (v : Value (option B) Addr)
  | RConfirm (q : gset Addr) (a : Addr) (pr : Proposal Addr)
  | RGet (q : gset Addr) (a : Addr) (local_version : option Z)
  | RFetch (a : Addr)
  | RStore (b : B) (mode : StoreMode)
  | RRemove (a : Addr) (rs : R)
  | RPropagate (q : gset Addr) (b : B) (pr : Proposal Addr).

Inductive answer :=
  | AResponse (r : Response (option B) Addr)
  | AProposal (pr : Proposal Addr)
  | AAccepted (acc : option (Accepted (option B) Addr))
  | ABlock (b : B)
  | ADone.

Definition target (r : request) : Addr :=
  match r with
  | RPropose _ a _ _ | RAccept _ a _ _ | RConfirm _ a _ | RGet _ a _
  | RFetch a | RRemove a _ => a
  | RStore b _ | RPropagate _ b _ => baddress b
  end.

(** A propagation looks at the cache where there is a decision. *)
Definition fits (r : request) (slot : option Slot) : bool :=
  match r with RPropagate _ _ _ => negb (is_decision slot) | _ => true end.

Definition handle (r : request) : method P err answer :=
  match r with
  | RPropose q a pr insert => AResponse <$> Local.propose q a pr insert
  | RAccept q a pr v => AProposal <$> Local.accept q a pr v
  | RConfirm q a pr => (fun _ => ADone) <$> Local.confirm q a pr
  | RGet q a lv => AAccepted <$> Local.get q a lv
  | RFetch a => ABlock <$> Local.fetch a
  | RStore b mode => (fun _ => ADone) <$> Local.store b mode
  | RRemove a rs => (fun _ => ADone) <$> Local.remove a rs
  | RPropagate q b pr => (fun _ => ADone) <$> Local.propagate q b pr
  end.

Definition answers {X} (f : X -> answer) (o : outcome X) : outcome answer :=
  (f <$> o.1, o.2).

(** A request, on the slot of its address. *)
Definition spec (n : Addr) (ver : Version.t) (r : request) (slot : option Slot) :
    outcome answer :=
  match r with
  | RPropose q a pr insert => answers AResponse (spec_propose q a pr insert n ver slot)
  | RAccept q a pr v => answers AProposal (spec_accept q a pr v n ver slot)
  | RConfirm q a pr => answers (fun _ => ADone) (spec_confirm q a pr n ver slot)
  | RGet q a lv => answers AAccepted (spec_get q a lv n ver slot)
  | RFetch a => answers ABlock (spec_fetch a n ver slot)
  | RStore b mode => answers (fun _ => ADone) (spec_store b mode n ver slot)
  | RRemove a rs => answers (fun _ => ADone) (spec_remove a rs n ver slot)
  | RPropagate q b pr => answers (fun _ => ADone) (spec_propagate q b pr n ver slot)
  end.

Lemma refines_map {X} a (f : X -> answer) (m : method P err X) sp p r p' :
  (forall rm p1, m p = (rm, p1) ->
     coherent p1 /\ writes a p p1 /\ sp (id p) (elle_version p) (view p a) = (rm, view p1 a)) ->
  (f <$> m) p = (r, p') ->
  coherent p' /\ writes a p p' /\
  answers f (sp (id p) (elle_version p) (view p a)) = (r, view p' a).
Proof.
  intros Rf E. unfold fmap, method_fmap in E.
  destruct (m p) as [rm p1] eqn:Em. destruct (Rf _ _ eq_refl) as (C1 & W & Sp).
  assert (p1 = p' /\ f <$> rm = r) as [-> <-] by (by destruct rm; simplify_eq).
  split; [done|]. split; [done|]. unfold answers. by rewrite Sp.
Qed.

Lemma handle_refines r p x p' :
  coherent p -> fits r (view p (target r)) = true -> handle r p = (x, p') ->
  coherent p' /\ writes (target r) p p' /\
  spec (id p) (elle_version p) r (view p (target r)) = (x, view p' (target r)).
Proof.
  intros C Ft. destruct r; apply refines_map; intros rm p1 E.
  - by apply propose_refines.
  - by apply accept_refines.
  - by apply confirm_refines.
  - by apply get_refines.
  - by apply fetch_refines.
  - by apply store_refines.
  - by apply remove_refines.
  - apply propagate_refines; [done| |done]. by apply negb_true_iff.
Qed.

(** What happens to a peer: requests; nodes that come and go; its inspector;
    the blocks rebalancing and eviction load, and the quorums they index; other
    coroutines that hold decisions, and the overlay that changes; and the
    end of the process, which keeps its storage only. *)
Inductive event :=
  | Request (r : request)
  | Discovered (n : Addr)
  | Disappeared (n : Addr)
  | Inspect (a : Addr)
  | Load (a : Addr)
  | Index (a : Addr) (imm : bool) (q : gset Addr)
  | Environment (h : gset Addr) (owners : Addr -> list Addr)
  | Restart.

Definition set_environment (h : gset Addr) (owners : Addr -> list Addr) (p : P) : P :=
  mkPeer (id p) (elle_version p) (factor p) (rebalance_auto_expand p)
    (max_addresses_size p) owners h (clock p) (storage p)
    (addresses p) (quorums p) (node_blocks p) (nodes p) (node_timeouts p)
    (rebalancable p) (on_store p) (on_remove p).

Definition restart (p : P) : P :=
  Local.create (id p) (elle_version p) (factor p) (rebalance_auto_expand p)
    (max_addresses_size p) (lookup_owners p) (storage p).

Definition happen (e : event) (p : P) : list (result err answer) * P :=
  match e with
  | Request r => let '(x, p') := handle r p in ([x], p')
  | Discovered n => ([], (Local.discovered n p).2)
  | Disappeared n => ([], (Local.disappeared n p).2)
  | Inspect a => ([], (Local.inspect a p).2)
  | Load a => ([], (Local.load a p).2)
  | Index a imm q => ([], (Local.cache a imm q p).2)
  | Environment h owners => ([], set_environment h owners p)
  | Restart => ([], restart p)
  end.

Fixpoint run (es : list event) (p : P) : list (result err answer) * P :=
  match es with
  | [] => ([], p)
  | e :: es =>
      let '(x, p1) := happen e p in
      let '(y, p2) := run es p1 in (x ++ y, p2)
  end.

(** The same, of a disk that only requests change. *)
Fixpoint run_spec (n : Addr) (ver : Version.t) (es : list event)
    (d : Addr -> option Slot) :
    list (result err answer) * (Addr -> option Slot) :=
  match es with
  | [] => ([], d)
  | Request r :: es =>
      let '(x, slot) := spec n ver r (d (target r)) in
      let '(y, d') :=
        run_spec n ver es (fun b => if decide (b = target r) then slot else d b) in
      (x :: y, d')
  | _ :: es => run_spec n ver es d
  end.

(** The propagations find no decision. *)
Fixpoint fitting (n : Addr) (ver : Version.t) (es : list event)
    (d : Addr -> option Slot) : bool :=
  match es with
  | [] => true
  | Request r :: es =>
      fits r (d (target r)) &&
      fitting n ver es (fun b => if decide (b = target r)
                                 then (spec n ver r (d (target r))).2 else d b)
  | _ :: es => fitting n ver es d
  end.

Lemma run_spec_ext n ver es d d' :
  (forall a, d a = d' a) ->
  (run_spec n ver es d).1 = (run_spec n ver es d').1 /\
  (forall a, (run_spec n ver es d).2 a = (run_spec n ver es d').2 a) /\
  fitting n ver es d = fitting n ver es d'.
Proof.
  revert d d'. induction es as [|e es IH]; intros d d' Ex; [done|].
  destruct e as [r| | | | | | |]; cbn [run_spec fitting]; [|by apply IH..].
  rewrite Ex. destruct (spec n ver r (d' (target r))) as [x slot]. cbn [snd].
  set (f := fun b => if decide (b = target r) then slot else d b).
  set (f' := fun b => if decide (b = target r) then slot else d' b).
  assert (forall a, f a = f' a) as Ef
    by (intros a; unfold f, f'; by destruct (decide _)).
  destruct (IH f f' Ef) as (E1 & E2 & E3).
  destruct (run_spec n ver es f), (run_spec n ver es f'); cbn in *.
  by rewrite E1, E3.
Qed.

Lemma inspect_same a p r p' :
  coherent p -> Local.inspect a p = (r, p') -> same_disk p p' /\ coherent p'.
Proof.
  intros C E. unfold Local.inspect, try_catch in E.
  unfold mbind at 1, method_bind at 1 in E.
  destruct (Local.load a p) as [rl p1] eqn:El.
  destruct (load_spec _ _ _ _ C El) as (D & C1 & L).
  destruct rl as [[b|]|e].
  - cbn in E. by injection E as <- <-.
  - rewrite bind_read in E. destruct (quorums p1 !! a) as [rq|].
    + destruct (factor p1 <=? _); cbn in E; injection E as <- <-; [|done].
      split; [by apply (same_disk_trans _ p1)|].
      eapply (coherent_same _ p1); [done| |done].
      intros b e. cbn. intros [_ Eb]%lookup_delete_Some. eauto.
    + cbn in E. by injection E as <- <-.
  - destruct e; cbn in E; by injection E as <- <-.
Qed.

Lemma happen_same e p :
  coherent p -> (forall r, e <> Request r) ->
  (happen e p).1 = [] /\ same_disk p (happen e p).2 /\ coherent (happen e p).2.
Proof.
  intros C N. destruct e as [r|n|n|a|a|a imm q|h o|]; cbn [happen fst snd].
  - by destruct (N r).
  - assert (same_disk p (Local.discovered n p).2 /\
      addresses (Local.discovered n p).2 = addresses p) as [D A].
    { unfold Local.discovered. monad_unfold. cbn.
      by destruct (rebalance_auto_expand p). }
    split; [done|]. split; [done|]. by apply (same_coherent p).
  - assert (same_disk p (Local.disappeared n p).2 /\
      addresses (Local.disappeared n p).2 = addresses p) as [D A].
    { unfold Local.disappeared. monad_unfold. by destruct (bool_decide _). }
    split; [done|]. split; [done|]. by apply (same_coherent p).
  - destruct (Local.inspect a p) as [r p'] eqn:E. split; [done|].
    by apply inspect_same in E.
  - destruct (Local.load a p) as [r p'] eqn:E. split; [done|].
    by apply load_spec in E as (? & ? & _).
  - destruct (Local.cache a imm q p) as [r p'] eqn:E. split; [done|].
    destruct (quiet_same _ _ _ _ (quiet_cache a imm q) E) as (_ & D & A).
    split; [done|]. by apply (same_coherent p).
  - split; [done|]. split; [done|]. by apply (same_coherent p).
  - split; [done|]. split; [done|]. apply (coherent_same _ p); [done| |done].
    intros a e E. cbn in E. by rewrite lookup_empty in E.
Qed.

End Refinement.
#[export] Hint Resolve quiet_bind quiet_read quiet_read_all quiet_when
  quiet_ret quiet_cache quiet_schedule quiet_tick quiet_signal : memo.
