(* ===== verification/PeerProperties.v ===== *)
(** What the peer of LocalPeer.v does on its own: late confirmations, the
    eviction of its cache, its index of quorums, propagation and inspection. *)

From stdpp Require Import base tactics option list gmap.
From Stdlib Require Import ZArith Lia String.
From S2P Require Import Prelude Versions Addresses Silos SiloAdapters PaxosServer Nodes LocalPeer PeerRefinement.
Open Scope Z_scope.

(** ** Eviction from the cache *)

Section Eviction.
Context {B : Type}.
Implicit Types m : gmap Addr (DecisionEntry B).

Lemma oldest_in m a e : Local.oldest m = Some (a, e) -> m !! a = Some e.
Proof. intros O. apply max_element_in in O. by apply elem_of_map_to_list in O. Qed.

Lemma oldest_some m : m <> ∅ -> exists a e, Local.oldest m = Some (a, e).
Proof.
  intros N. unfold Local.oldest. destruct (max_element _ _) as [[a e]|] eqn:E;
    [by exists a, e|]. apply max_element_None in E.
  by apply map_to_list_empty_iff in E.
Qed.

Lemma oldest_least m a e b eb :
  Local.oldest m = Some (a, e) -> m !! b = Some eb -> use e <= use eb.
Proof.
  unfold Local.oldest. intros O Eb. apply elem_of_map_to_list in Eb.
  destruct (map_to_list m) as [|x l] eqn:L; [done|]. cbn in O. simplify_eq.
  pose proof (fold_max_ub (fun x y : Addr * DecisionEntry B => use y.2 <? use x.2)
    l x ltac:(intros; apply Z.ltb_irrefl)
    ltac:(intros; rewrite ?Z.ltb_ge in *; lia)
    ltac:(intros; rewrite ?Z.ltb_ge, ?Z.ltb_lt in *; lia) (b, eb) Eb) as X.
  cbv beta in X. match type of O with ?l = _ => change (_ <? _) with
    (use eb <? use l.2) in X end. rewrite O in X. cbn in X. by apply Z.ltb_ge in X.
Qed.

(** Only the newest entry is in use. *)
Definition newest_in_use (in_use : Addr -> bool) m : Prop :=
  forall a e, m !! a = Some e -> in_use a = true ->
  forall b eb, m !! b = Some eb -> b <> a -> use eb < use e.

Lemma drop_turn in_use m :
  newest_in_use in_use m -> (2 <= size m)%nat ->
  exists a e, Local.oldest m = Some (a, e) /\ in_use a = false /\
    size (delete a m) = (size m - 1)%nat /\ newest_in_use in_use (delete a m).
Proof.
  intros N Sz. destruct (oldest_some m) as (a & e & O).
  { intros ->. rewrite map_size_empty in Sz. lia. }
  pose proof (oldest_in _ _ _ O) as Ea. exists a, e. split; [done|].
  assert (size (delete a m) = (size m - 1)%nat) as Sd.
  { rewrite map_size_delete_Some by eauto. lia. }
  split_and!; [|done|].
  - destruct (in_use a) eqn:U; [|done]. exfalso.
    destruct (map_choose (delete a m)) as (b & eb & Eb).
    { intros Z0. rewrite Z0, map_size_empty in Sd. lia. }
    apply lookup_delete_Some in Eb as [Nb Eb].
    pose proof (N a e Ea U b eb Eb ltac:(congruence)).
    pose proof (oldest_least _ _ _ _ _ O Eb). lia.
  - intros b eb [Nb Eb]%lookup_delete_Some U c ec [Nc Ec]%lookup_delete_Some.
    by apply (N b eb).
Qed.

Lemma drop_loop_size in_use max fuel i m :
  newest_in_use in_use m -> 1 <= max -> 0 <= i ->
  let n := Z.of_nat (size m) - max + i in
  n - 2 * i <= Z.of_nat fuel -> 2 * i <= n + 1 ->
  Z.of_nat (size (Local.drop_loop fuel max i in_use m)) = max + n / 2.
Proof.
  revert i m. induction fuel as [|fuel IH]; intros i m N M I n F L; cbn [Local.drop_loop].
  - assert (n = 2 * i \/ n = 2 * i - 1) as C by lia.
    subst n. destruct C as [C|C]; rewrite C.
    + rewrite Z.mul_comm, Z.div_mul by lia. lia.
    + replace (2 * i - 1) with (1 + (i - 1) * 2) by lia.
      rewrite Z.div_add by lia. change (1 / 2) with 0. lia.
  - destruct (i <? Z.of_nat (size m) - max) eqn:T; to_prop.
    + destruct (drop_turn in_use m N) as (a & e & -> & -> & Sd & N'); [lia|].
      rewrite (IH (i + 1)); [|done|done|lia|rewrite Sd; subst n; lia..].
      rewrite Sd. subst n. f_equal. f_equal. lia.
    + assert (n = 2 * i \/ n = 2 * i - 1) as C by lia.
      subst n. destruct C as [C|C]; rewrite C.
      * rewrite Z.mul_comm, Z.div_mul by lia. lia.
      * replace (2 * i - 1) with (1 + (i - 1) * 2) by lia.
        rewrite Z.div_add by lia. change (1 / 2) with 0. lia.
Qed.

Lemma drop_entries_size in_use max m :
  newest_in_use in_use m -> 1 <= max -> max <= Z.of_nat (size m) ->
  Z.of_nat (size (Local.drop_entries max in_use m)) =
  max + (Z.of_nat (size m) - max) / 2.
Proof.
  intros N M L. unfold Local.drop_entries.
  rewrite drop_loop_size; try done; try lia. f_equal. f_equal. lia.
Qed.

(** Inserting a decision in a full cache drops the one used the longest time
    ago, so that the cache keeps its size, as long as no decision is held. When
    the cache is over its limit (decisions were held), an insertion only drops
    half of the excess, as the bound of the loop decreases with each drop. *)
Theorem eviction_drops_half max m a t d :
  1 <= max -> m !! a = None -> max <= Z.of_nat (size m) ->
  (forall b e, m !! b = Some e -> use e < t) ->
  let m' := Local.drop_entries max (fun b => bool_decide (b = a))
              (<[a := mkEntry t d]> m) in
  m' !! a = Some (mkEntry t d) /\
  Z.of_nat (size m') = max + (Z.of_nat (size m) + 1 - max) / 2 /\
  (Z.of_nat (size m) = max -> Z.of_nat (size m') = max).
Proof.
  intros M Na L T m'.
  assert (newest_in_use (fun b => bool_decide (b = a)) (<[a := mkEntry t d]> m)) as N.
  { intros b e Eb U c ec Ec Nc. apply bool_decide_eq_true in U as ->.
    rewrite lookup_insert_eq in Eb. simplify_eq.
    rewrite lookup_insert_ne in Ec by done. by apply (T c). }
  assert (size (<[a := mkEntry t d]> m) = Datatypes.S (size m)) as Sz
    by by apply map_size_insert_None.
  assert (Z.of_nat (size m') = max + (Z.of_nat (size m) + 1 - max) / 2) as Sm.
  { unfold m'. rewrite drop_entries_size by (done || lia). rewrite Sz.
    f_equal. f_equal. lia. }
  split_and!.
  - apply drop_entries_keeps; [apply lookup_insert_eq|]. by apply bool_decide_eq_true.
  - done.
  - intros E. rewrite Sm, E. replace (max + 1 - max) with 1 by lia.
    change (1 / 2) with 0. lia.
Qed.
End Eviction.

Section Facts.
Context {B R S : Type} `{Blocks B R} `{SiloSpec (Stored B) S}
  `{!Unrefusing (Stored B) S}.
Abbreviation P := (Peer B S).
Abbreviation Acceptor := (Server (option B) Addr).
Abbreviation coherent := (coherent_but (B := B) (S := S) None).

(** ** Late confirmations *)

(** A confirmation that arrives once the next version is under way is ignored
    by the acceptor, yet the peer acts upon the quorum that version has merely
    accepted: if it does not belong to it, it deletes the block, although
    nothing elected this quorum. *)
Theorem late_confirm_deletes (p : P) (a : Addr) (ch : Z) (s : Acceptor)
    (q q' : gset Addr) (pr promised pa : Proposal Addr) :
  coherent p -> view p a = Some (HPaxos ch s) ->
  sstate s = Some (mkState promised (Some (mkAccepted pa (Quo q') false))) ->
  svalue s <> None -> id p ∉ q' -> pversion pr < pversion promised ->
  (Local.confirm q a pr p).1 = Ok tt /\
  view (Local.confirm q a pr p).2 a = None /\
  Server.confirm q pr s = (Ok tt, s) /\ Server.current_quorum s = squorum s.
Proof.
  intros C V Es Sv N L.
  assert (Server.confirm q pr s = (Ok tt, s)) as Ec.
  { unfold Server.confirm. monad_unfold. rewrite Es. cbn.
    by apply Z.ltb_lt in L as ->. }
  assert (is_some (Server.current_value s) = true) as Cv.
  { unfold Server.current_value, Server.accepted_of, Server.current_proposal.
    rewrite Es. cbn. by destruct (svalue s). }
  destruct (Local.confirm q a pr p) as [r p'] eqn:E.
  destruct (confirm_refines q a pr p r p' C E) as (_ & _ & Sp).
  unfold spec_confirm in Sp. rewrite V, Ec, Cv in Sp. cbn in Sp.
  unfold Server.accepted_of in Sp. rewrite Es in Sp. cbn in Sp.
  rewrite bool_decide_false in Sp by done. injection Sp as <- Vn.
  cbn [fst snd]. split_and!; [done..|].
  unfold Server.current_quorum, Server.accepted_of. by rewrite Es.
Qed.

(** ** Propagation *)

(** A block that is propagated to a peer that does not know it is installed
    under the quorum it is sent with, confirmed, and stored; nothing else is
    touched. *)
Theorem propagate_installs (p : P) (q : gset Addr) (b : B) (pr : Proposal Addr) :
  coherent p -> view p (baddress b) = None -> id p ∈ q ->
  let x := Local.propagate q b pr p in
  x.1 = Ok tt /\ coherent x.2 /\
  (exists s, view x.2 (baddress b) = Some (HPaxos (-1) s) /\
    Server.current_quorum s = q /\
    Server.current_value s = Some (mkAccepted pr (Val (Some b)) true)) /\
  forall c, c <> baddress b -> view x.2 c = view p c.
Proof.
  intros C V I x. destruct x as [r p'] eqn:E. unfold x in E. clear x.
  destruct (propagate_refines q b pr p r p' C ltac:(by rewrite V) E) as (C' & (_ & _ & W) & Sp).
  unfold spec_propagate, decides, Server.create in Sp.
  rewrite V, bool_decide_true in Sp by done. injection Sp as <- V'.
  cbn [fst snd]. split; [done|]. split; [done|]. split; [|exact W].
  eexists. split; [by rewrite <- V'|done].
Qed.

(** ** The index of quorums *)

(** The blocks a node is known to keep are blocks of known quorum, to which it
    belongs. *)
Definition indexed (p : P) : Prop :=
  forall n a, (n, a) ∈ node_blocks p ->
  exists r, quorums p !! a = Some r /\ n ∈ quorum r.

Definition keeps_index {X : Type} (m : method P (peer_error B) X) : Prop :=
  forall p, indexed p -> indexed (m p).2.

Lemma keeps_bind {X Y : Type} (m : method P (peer_error B) X)
    (k : X -> method P (peer_error B) Y) :
  keeps_index m -> (forall x, keeps_index (k x)) -> keeps_index (m ≫= k).
Proof.
  intros Hm Hk p I. unfold mbind, method_bind. specialize (Hm p I).
  destruct (m p) as [[x|e] p1]; [by apply Hk|done].
Qed.

Lemma keeps_fmap {X Y : Type} (f : X -> Y) (m : method P (peer_error B) X) :
  keeps_index m -> keeps_index (f <$> m).
Proof.
  intros Hm p I. unfold fmap, method_fmap. specialize (Hm p I).
  by destruct (m p) as [[x|e] p1].
Qed.

Lemma keeps_try {X : Type} (m : method P (peer_error B) X)
    (h : peer_error B -> option (method P (peer_error B) X)) :
  keeps_index m ->
  (forall e, match h e with Some k => keeps_index k | None => True end) ->
  keeps_index (try_catch m h).
Proof.
  intros Hm Hh p I. unfold try_catch. specialize (Hm p I).
  destruct (m p) as [[x|e] p1]; [done|]. specialize (Hh e).
  destruct (h e); [by apply Hh|done].
Qed.

Lemma keeps_missing {X : Type} (k : Key -> method P (peer_error B) X) e :
  (forall key, keeps_index (k key)) ->
  match Local.on_missing k e with Some k => keeps_index k | None => True end.
Proof. intros Hk. unfold Local.on_missing. by repeat case_match; simplify_eq. Qed.

Lemma keeps_ret {X : Type} (x : X) :
  keeps_index (@mret (method P (peer_error B)) _ X x).
Proof. by intros p I. Qed.
Lemma keeps_throw {X : Type} e : keeps_index (throw (A := X) e).
Proof. by intros p I. Qed.
Lemma keeps_lift {X : Type} (r : result (peer_error B) X) : keeps_index (lift r).
Proof. by intros p I. Qed.
Lemma keeps_read : keeps_index read.
Proof. by intros p I. Qed.
Lemma keeps_reads {X : Type} (f : P -> X) : keeps_index (reads f).
Proof. by intros p I. Qed.

Lemma keeps_modify (f : P -> P) :
  (forall p, quorums (f p) = quorums p /\ node_blocks (f p) = node_blocks p) ->
  keeps_index (modify f).
Proof.
  intros F p I n a. cbn. destruct (F p) as [-> ->]. apply I.
Qed.

Lemma keeps_storage {X : Type} (m : method S silo_error X) :
  keeps_index (Local.on_storage m).
Proof.
  intros p I. unfold Local.on_storage. by destruct (m (storage p)) as [[x|e] st].
Qed.

Lemma cache_nodes a imm q (p : P) n b :
  indexed p ->
  (n, b) ∈ node_blocks (Local.cache a imm q p).2 <->
  (b = a /\ n ∈ q) \/ (b <> a /\ (n, b) ∈ node_blocks p).
Proof.
  intros I. unfold Local.cache. rewrite bind_read. cbn.
  assert ((n, b) ∈ (match quorums p !! a with
      | Some r => node_blocks p ∖ set_map (fun n => (n, a)) (quorum r)
      | None => node_blocks p
      end) <-> b <> a /\ (n, b) ∈ node_blocks p) as K.
  { destruct (quorums p !! a) as [r|] eqn:E.
    - rewrite elem_of_difference, elem_of_map. split.
      + intros [Nb N]. split; [|done]. intros ->.
        destruct (I _ _ Nb) as (r' & E' & Hn). simplify_eq. apply N. eauto.
      + intros [Nb Hn]. split; [done|]. intros (m & Em & _). congruence.
    - split; [|by intros []]. intros Nb. split; [|done]. intros ->.
      destruct (I _ _ Nb) as (r' & E' & _). congruence. }
  rewrite elem_of_union, K, elem_of_map. split.
  - intros [?|(m & Em & Hm)]; [by right|]. simplify_eq. by left.
  - intros [[-> Hn]|?]; [right; eauto|by left].
Qed.

Lemma keeps_cache a imm q : keeps_index (Local.cache a imm q).
Proof.
  intros p I n b Nb. apply cache_nodes in Nb; [|done].
  assert (quorums (Local.cache a imm q p).2 =
    <[a := mkRepartition imm q]> (quorums p)) as -> by done.
  destruct Nb as [[-> Hn]|[N Nb]].
  - rewrite lookup_insert_eq. by eexists.
  - rewrite lookup_insert_ne by done. by apply I.
Qed.

Lemma keeps_forget a :
  keeps_index (modify (fun p => Local.set_index (quorums p)
    (filter (fun nb => nb.2 <> a) (node_blocks p)) p)).
Proof. intros p I n b. cbn. intros [_ Nb]%elem_of_filter. by apply I. Qed.
End Facts.

Ltac keeps_step :=
  lazymatch goal with
  | |- keeps_index (Local.cache _ _ _) => apply keeps_cache
  | |- keeps_index (mret _) => apply keeps_ret
  | |- keeps_index (throw _) => apply keeps_throw
  | |- keeps_index (lift _) => apply keeps_lift
  | |- keeps_index read => apply keeps_read
  | |- keeps_index (reads _) => apply keeps_reads
  | |- keeps_index (Local.on_storage _) => apply keeps_storage
  | |- keeps_index (modify _) =>
      first [apply keeps_forget | apply keeps_modify; intros; split; reflexivity]
  | |- keeps_index (_ <$> _) => apply keeps_fmap
  | |- keeps_index (_ ≫= _) => apply keeps_bind; [|intros ?]
  | |- keeps_index (try_catch _ _) => apply keeps_try; [|intros ?]
  | |- keeps_index (when ?b _) => destruct b; unfold when
  | |- keeps_index (match ?x with _ => _ end) => destruct x
  | |- match Local.on_missing _ _ with _ => _ end =>
      apply keeps_missing; intros ?
  end.
Ltac keeps_tac := repeat (cbv zeta; keeps_step).

Section Index.
Context {B R S : Type} `{Blocks B R} `{SiloSpec (Stored B) S}.
Abbreviation P := (Peer B S).
Abbreviation M := (method P (peer_error B)).

Lemma keeps_load a : keeps_index (Local.load a : M _).
Proof. unfold Local.load, Local.load_decision, Local.touch, Local.now, Local.schedule. keeps_tac. Qed.

Lemma keeps_load_paxos a q v : keeps_index (Local.load_paxos a q v : M _).
Proof.
  unfold Local.load_paxos. apply keeps_try; [|intros ?; apply keeps_missing; intros ?].
  - apply keeps_bind; [apply keeps_read|intros ?].
    destruct (is_some _); [unfold Local.touch, Local.now; keeps_tac|].
    apply keeps_bind; [apply keeps_load|]. intros []; keeps_tac.
  - unfold Local.load_decision, Local.now, Local.schedule. keeps_tac.
Qed.

Lemma keeps_on_paxos {X : Type} a m : keeps_index (Local.on_paxos (A := X) a m : M _).
Proof. unfold Local.on_paxos, Local.the_decision. keeps_tac. Qed.

Lemma keeps_save a : keeps_index (Local.save_decision a : M _).
Proof. unfold Local.save_decision, Local.the_decision. keeps_tac. Qed.

Lemma keeps_remove_block a : keeps_index (Local.remove_block a : M _).
Proof. unfold Local.remove_block. keeps_tac. Qed.

Ltac keeps_handler :=
  repeat first
    [ apply keeps_load | apply keeps_load_paxos | apply keeps_on_paxos
    | apply keeps_save | apply keeps_remove_block | progress (cbv zeta; try keeps_step) ].

Lemma keeps_handle (r : request (B := B) (R := R)) : keeps_index (handle r : M _).
Proof.
  destruct r; cbn [handle]; apply keeps_fmap.
  - unfold Local.propose. keeps_handler.
  - unfold Local.accept, Local.validate_previous, Local.the_decision. keeps_handler.
  - unfold Local.confirm, Local.load_or_missing, Local.the_decision, Local.schedule.
    keeps_handler.
  - unfold Local.get. keeps_handler.
  - unfold Local.fetch. keeps_handler.
  - unfold Local.store. keeps_handler.
  - unfold Local.remove, Local.load_or_missing, Local.check_removal,
      Local.the_decision. keeps_handler.
  - unfold Local.propagate. keeps_handler.
Qed.
End Index.

Section Tracks.
Context {B R S : Type} `{Blocks B R} `{SiloSpec (Stored B) S}.
Abbreviation P := (Peer B S).

Lemma keeps_inspect a : keeps_index (Local.inspect a : method P (peer_error B) unit).
Proof.
  unfold Local.inspect. apply keeps_try; [|intros []; done || apply keeps_ret].
  apply keeps_bind; [apply keeps_load|]. intros []; keeps_tac.
Qed.

Lemma keeps_happen (e : event (B := B) (R := R)) (p : P) :
  indexed p -> indexed (happen e p).2.
Proof.
  intros I. destruct e as [r|n|n|a|a|a imm q|h o|]; cbn [happen].
  - pose proof (keeps_handle r p I) as K. by destruct (handle r p).
  - apply (fun m : keeps_index (Local.discovered n) => m p I).
    unfold Local.discovered, Local.schedule. keeps_tac.
  - apply (fun m : keeps_index (Local.disappeared n) => m p I).
    unfold Local.disappeared. keeps_tac.
  - by apply keeps_inspect.
  - by apply keeps_load.
  - by apply keeps_cache.
  - apply I.
  - intros n a Na. cbn in Na. by apply not_elem_of_empty in Na.
Qed.

Lemma keeps_run (es : list (event (B := B) (R := R))) (p : P) :
  indexed p -> indexed (run es p).2.
Proof.
  revert p. induction es as [|e es IH]; intros p I; [done|]. cbn [run].
  pose proof (keeps_happen e p I) as K. destruct (happen e p) as [x p1].
  specialize (IH p1 K). by destruct (run es p1).
Qed.

(** Events keep the cache and the disk of a peer coherent. *)
Definition propagates (e : event (B := B) (R := R)) : bool :=
  match e with Request (RPropagate _ _ _) => true | _ => false end.
Lemma run_coherent `{!Unrefusing (Stored B) S} (es : list (event (B := B) (R := R)))
    (p : P) :
  Forall (fun e => propagates e = false) es ->
  coherent_but None p -> coherent_but None (run es p).2.
Proof.
  intros F. revert p. induction F as [|e es Np _ IH]; intros p C; [done|]. cbn [run].
  assert (coherent_but None (happen e p).2) as C1.
  { destruct e as [r| | | | | | |];
      [|match goal with |- context [happen ?e _] =>
          by apply (happen_same e p C) end..].
    cbn [happen]. destruct (handle r p) as [x p1] eqn:E.
    destruct (handle_refines r p _ _ C ltac:(by destruct r) E) as [C1 _]. exact C1. }
  destruct (happen e p) as [x p1]. specialize (IH p1 C1).
  by destruct (run es p1).
Qed.

(** Whatever happens to a peer, its index of the blocks each node keeps only
    lists, for a node, blocks whose known quorum the node belongs to; and
    indexing a block under a new quorum leaves it listed under the nodes of
    that quorum exactly, whatever it was listed under, and moves no other
    block. *)
Theorem index_tracks_quorums (node : Addr) (ver : Version.t) (f : Z) (auto : bool)
    (size : Z) (owners : Addr -> list Addr) (st : S)
    (es : list (event (B := B) (R := R))) (a : Addr) (imm : bool) (q : gset Addr) :
  let p := (run es (Local.create node ver f auto size owners st)).2 in
  let p' := (Local.cache a imm q p).2 in
  indexed p /\ indexed p' /\
  (forall n, (n, a) ∈ node_blocks p' <-> n ∈ q) /\
  (forall n b, b <> a -> (n, b) ∈ node_blocks p' <-> (n, b) ∈ node_blocks p).
Proof.
  intros p p'. assert (indexed p) as I.
  { apply keeps_run. intros n b N. cbn in N. by apply not_elem_of_empty in N. }
  split; [done|]. split; [by apply keeps_cache|].
  split; [intros n|intros n b N]; unfold p'; rewrite cache_nodes by done.
  - split; [by intros [[_ ?]|[]]|by left].
  - split; [by intros [[]|[]]|by right].
Qed.

Lemma inspect_cached (a : Addr) (p : P) (e : DecisionEntry B)
    (r : BlockRepartition) :
  addresses p !! a = Some e -> quorums p !! a = Some r ->
  factor p <= replication_factor r ->
  let p1 := (Local.touch a p).2 in
  Local.inspect a p = (Ok tt, Local.set_addresses (delete a (addresses p1)) p1).
Proof.
  intros Ea Eq F. unfold Local.inspect, Local.load, Local.touch, Local.now.
  monad_unfold. rewrite Ea. cbn. rewrite Eq. cbn. by apply Z.leb_le in F as ->.
Qed.

(** The inspector forgets the decision of a block that has replicas enough even
    when a coroutine holds it; and a block that left the storage before its turn
    makes it stop with the error of the silo, as it only catches the other
    error for a missing block. *)
Theorem inspector_forgets_and_stops (a b : Addr) (p : P) (e : DecisionEntry B)
    (r : BlockRepartition) :
  silo_ok (storage p) ->
  addresses p !! a = Some e -> quorums p !! a = Some r ->
  factor p <= replication_factor r ->
  addresses p !! b = None -> contents (storage p) (key_of b) = None ->
  (Local.inspect a p).1 = Ok tt /\
  addresses (Local.inspect a p).2 !! a = None /\
  (Local.inspect b p).1 = Throw (StorageError (MissingKey (key_of b))).
Proof.
  intros O Ea Eq F Nb Eb. pose proof (inspect_cached _ _ _ _ Ea Eq F) as I1.
  split; [|split].
  - by rewrite I1.
  - rewrite I1. apply lookup_delete_eq.
  - unfold Local.inspect, Local.load, Local.on_storage, try_catch. monad_unfold.
    rewrite Nb. cbn. destruct (Silo.get (key_of b) (storage p)) as [rg st] eqn:G.
    destruct (silo_get_spec _ _ _ _ O (key_wf b) G) as [_ [_ ->]].
    by rewrite Eb.
Qed.
End Tracks.

(** ** A concrete peer *)

(** Blocks of an address, a version and a content. *)
Record note := mkNote {
  note_address : Addr;
  note_version : Z;
  note_text : list Z;
}.

#[export] Instance notes : Blocks note unit := {|
  baddress := note_address;
  is_immutable := fun b => note_version b <? 0;
  bversion := fun b => Some (note_version b);
  validate := fun _ _ => Success;
  validate_over := fun old new =>
    if note_version old <=? note_version new then Success else Conflicting;
  validate_remove := fun _ _ => Success;
|}.

#[export] Instance sized_note : Sized (Stored note).
Proof. refine {| vsize := fun _ => 1 |}. intros _. lia. Defined.

Section Concrete.
Abbreviation peer := (Peer note (Memory.t (Stored note))).

Definition n1 : Addr := Address.sample ↾ I.
Definition n2 : Addr := null_addr.
Definition b1 : note := mkNote n1 1 [7].

Definition alice (st : Memory.t (Stored note)) : peer :=
  Local.create n1 (Version.mkVersion 0 9 0) 2 true 2 (fun _ => [n1; n2]) st.

Lemma alice_coherent : coherent_but None (alice Memory.create).
Proof.
  split.
  - reflexivity.
  - exact I.
  - intros a e E. cbn in E. rewrite lookup_empty in E. discriminate E.
  - intros a e E. cbn in E. rewrite lookup_empty in E. discriminate E.
  - intros a ch ar E. cbn in E. unfold Memory.lookup in E. cbn in E.
    rewrite lookup_empty in E. discriminate E.
Qed.

(** Two writes of a block, the second while its decision is out of the cache. *)
Definition both : gset Addr := {[n1; n2]}.
Definition first_round : Proposal Addr := mkProposal 0 1 n2.
Definition write_b1 : list (event (B := note) (R := unit)) := [
  Request (RPropose both n1 first_round true);
  Request (RAccept both n1 first_round (Val (Some b1)));
  Restart;
  Request (RConfirm both n1 first_round);
  Inspect n1;
  Request (RPropagate both (mkNote n2 1 [8]) first_round);
  Request (RGet both n1 None)
].


(** A propagation of a block the peer has a decision for does nothing when it is in
    the cache; on the same disk, when it is not, it elects the quorum. *)
Definition written : peer :=
  (run [Request (RPropose both n1 first_round true);
        Request (RAccept both n1 first_round (Val (Some b1)));
        Request (RConfirm both n1 first_round)] (alice Memory.create)).2.
Definition next_round : Proposal Addr := mkProposal 1 1 n2.
Definition version_at (p : peer) (a : Addr) : option Z :=
  match view p a with Some (HPaxos _ s) => Some (Server.current_version s) | _ => None end.

Theorem propagation_sees_the_cache :
  (forall a, view (restart written) a = view written a) /\
  let again := Local.propagate both b1 next_round written in
  let late := Local.propagate both b1 next_round (restart written) in
  again.1 = Ok tt /\ version_at again.2 n1 = Some 0 /\
  late.1 = Ok tt /\ version_at late.2 n1 = Some 1.
Proof. split; [done|]. vm_compute. by split_and!. Qed.

Lemma propagate_installs_witness :
  let p := alice Memory.create in
  n1 ∈ both /\
  (Local.propagate both b1 first_round p).1 = Ok tt /\
  coherent_but None (Local.propagate both b1 first_round p).2.
Proof.
  intros p. assert (n1 ∈ both) as I1 by (unfold both; set_solver).
  destruct (propagate_installs p both b1 first_round alice_coherent eq_refl I1)
    as (A & C & _).
  split; [exact I1|]. split; [exact A|exact C].
Defined.

(** A peer that wrote a block, then accepted for its next version a quorum it
    does not belong to. *)
Definition leave : Proposal Addr := mkProposal 1 1 n2.
Definition leaving : list (event (B := note) (R := unit)) := [
  Request (RPropose both n1 first_round true);
  Request (RAccept both n1 first_round (Val (Some b1)));
  Request (RConfirm both n1 first_round);
  Request (RPropose both n1 leave false);
  Request (RAccept both n1 leave (Quo {[n2]}))
].
Definition leaver : peer := (run leaving (alice Memory.create)).2.

Lemma leaver_coherent : coherent_but None leaver.
Proof.
  unfold leaver. assert (coherent_but None (run leaving (alice Memory.create)).2) as C.
  { apply run_coherent; [by repeat constructor|exact alice_coherent]. }
  exact C.
Qed.

(** The slot of a block that left its quorum. *)
Definition is_leaving (slot : option (Slot (B := note))) : bool :=
  match slot with
  | Some (HPaxos _ s) =>
      match sstate s with
      | Some (mkState pr (Some (mkAccepted pa (Quo q) false))) =>
          bool_decide (pr = leave) && bool_decide (pa = leave) &&
          bool_decide (q = {[n2]}) && is_some (svalue s)
      | _ => false
      end
  | _ => false
  end.

Lemma is_leaving_inv slot :
  is_leaving slot = true ->
  exists ch s, slot = Some (HPaxos ch s) /\
    sstate s = Some (mkState leave (Some (mkAccepted leave (Quo {[n2]}) false))) /\
    svalue s <> None.
Proof.
  unfold is_leaving. intros E. repeat case_match; try done.
  apply andb_prop in E as [E Sv]. apply andb_prop in E as [E Eq].
  apply andb_prop in E as [Ep Ea]. apply bool_decide_eq_true in Eq as ->.
  apply bool_decide_eq_true in Ep as ->. apply bool_decide_eq_true in Ea as ->.
  do 2 eexists. split; [reflexivity|]. split; [done|]. by destruct (svalue _).
Qed.

Lemma late_confirm_deletes_witness :
  (Local.confirm both n1 first_round leaver).1 = Ok tt /\
  view (Local.confirm both n1 first_round leaver).2 n1 = None.
Proof.
  assert (is_leaving (view leaver n1) = true) as X by (vm_compute; reflexivity).
  apply is_leaving_inv in X. destruct X as (ch & s & V & Es & Ev).
  assert (id leaver ∉ ({[n2]} : gset Addr)) as N.
  { apply (bool_decide_eq_true_1 (id leaver ∉ ({[n2]} : gset Addr))).
    vm_compute. reflexivity. }
  destruct (late_confirm_deletes leaver n1 ch s both {[n2]} first_round leave leave
    leaver_coherent V Es Ev N eq_refl) as (A & B & _).
  split; [exact A|exact B].
Defined.

Lemma inspector_forgets_and_stops_witness :
  (Local.inspect n1 leaver).1 = Ok tt /\
  (Local.inspect n2 leaver).1 = Throw (StorageError (MissingKey (key_of n2))).
Proof.
  assert (match addresses leaver !! n1, quorums leaver !! n1 with
          | Some _, Some r => factor leaver <=? replication_factor r
          | _, _ => false
          end = true) as F by (vm_compute; reflexivity).
  destruct (addresses leaver !! n1) as [e|] eqn:Ea; [|discriminate F].
  destruct (quorums leaver !! n1) as [r|] eqn:Eq; [|discriminate F].
  apply Z.leb_le in F.
  assert (silo_ok (storage leaver)) as O by exact I.
  assert (is_some (addresses leaver !! n2) = false) as E2 by (vm_compute; reflexivity).
  assert (is_some (contents (storage leaver) (key_of n2)) = false) as C2
    by (vm_compute; reflexivity).
  destruct (addresses leaver !! n2) eqn:E2'; [discriminate E2|].
  destruct (contents (storage leaver) (key_of n2)) eqn:C2'; [discriminate C2|].
  destruct (inspector_forgets_and_stops n1 n2 leaver e r O Ea Eq F E2' C2')
    as (A & _ & B).
  split; [exact A|exact B].
Defined.

Lemma eviction_drops_half_witness :
  let m : gmap Addr (DecisionEntry note) := {[n1 := mkEntry 1
    (mkDecision (-1) (mkServer n1 both None (Version.mkVersion 0 9 0) false None))]} in
  let d := mkDecision (-1) (mkServer n1 both None (Version.mkVersion 0 9 0) false None) in
  let m' := Local.drop_entries 1 (fun b => bool_decide (b = n2))
              (<[n2 := mkEntry 2 d]> m) in
  m' !! n2 = Some (mkEntry 2 d) /\ Z.of_nat (size m') = 1.
Proof.
  intros m d m'.
  assert (1 <= 1) as L by lia.
  assert (m !! n2 = None) as N by (vm_compute; reflexivity).
  assert (size m = 1%nat) as Sz by apply map_size_singleton.
  assert (1 <= Z.of_nat (size m)) as L' by (rewrite Sz; lia).
  assert (forall b e, m !! b = Some e -> use e < 2) as U.
  { intros b e E. apply lookup_singleton_Some in E as [_ <-]. cbn. lia. }
  destruct (eviction_drops_half 1 m n2 2 d L N L' U) as (A & _ & B).
  split; [exact A|]. apply B. rewrite Sz. reflexivity.
Defined.
End Concrete.
