(* ===== verification/Replication.v ===== *)
(** The client side of the replication of blocks: the class Paxos of
    memo/src/memo/model/doughnut/consensus/Paxos.hh and Paxos.cc, its adaptor
    [PaxosPeer], [Details], and the tasks of [Paxos::LocalPeer] that talk to the
    other peers (reconciliation, eviction of lost nodes, rebalancing).

    [World] is a node: its own peer, of LocalPeer.v, and the others, reached over
    the network and behind the class [Remotes], whose state holds all that calls
    change. A call for the node's own identifier runs on its peer. The overlay
    answers the nodes that are alive: the weak pointers that do not lock any more
    are dropped from its answers. Coroutines of [for_each_parallel] run in an order
    the network picks, one after the other; when one throws, those after it have not started.
    The loops without a bound take fuel and
    answer [None] when it is not enough. *)

From stdpp Require Import base tactics option list gmap sorting.
From Stdlib Require Import ZArith Lia String.
From S2P Require Import Prelude Versions Addresses Silos PaxosServer PaxosClient Nodes LocalPeer.
Open Scope Z_scope.

(** ** Interfaces *)

(** What a call to a peer throws, besides the errors of the acceptor. *)
Inductive call_error (B : Type) :=
  | NetworkError
  | Thrown (e : peer_error B).
Arguments NetworkError {B}.
Arguments Thrown {B} e.

Abbreviation failure B := (exn Addr (call_error B)).
Abbreviation Response B := (PaxosServer.Response (option B) Addr).
Abbreviation Accepted B := (PaxosServer.Accepted (option B) Addr).
Abbreviation Value B := (PaxosServer.Value (option B) Addr).

(** What is asked of mutable blocks: [seal_version], [seal] with its optional
    version, [operator ==], [sign_remove]. *)
Class MutableBlocks (B R : Type) := {
  seal_version : Z -> B -> B;
  seal : option Z -> B -> B;
  block_eqb : B -> B -> bool;
  sign_remove : B -> R;
}.

(** [Paxos::RemotePeer] and the overlay. *)
Class Remotes (B R N : Type) := {
  remote_propose : Addr -> gset Addr -> Addr -> Proposal Addr -> bool ->
    method N (failure B) (Response B);
  remote_accept : Addr -> gset Addr -> Addr -> Proposal Addr -> Value B ->
    method N (failure B) (Proposal Addr);
  remote_confirm : Addr -> gset Addr -> Addr -> Proposal Addr ->
    method N (failure B) unit;
  remote_get : Addr -> gset Addr -> Addr -> option Z ->
    method N (failure B) (option (Accepted B));
  remote_store : Addr -> B -> StoreMode -> method N (failure B) unit;
  remote_fetch : Addr -> Addr -> option Z -> method N (failure B) (option B);
  remote_reconcile : Addr -> Addr -> method N (failure B) bool;
  remote_propagate : Addr -> gset Addr -> B -> Proposal Addr ->
    method N (failure B) unit;
  remote_remove : Addr -> Addr -> R -> method N (failure B) unit;
  overlay_lookup : N -> Addr -> Z -> bool -> list Addr;
  overlay_allocate : N -> Addr -> Z -> list Addr;
  overlay_lookup_nodes : N -> gset Addr -> list Addr;
  order : N -> list Addr -> list Addr;
  order_perm : forall n l, order n l ≡ₚ l;
}.

(** A node. [lenient], [rebalanced] and [under_replicated] record the signals the
    class emits. *)
Record World (B S N : Type) := mkWorld {
  me : Peer B S;
  others : N;
  transfers : gmap Addr Z;
  rebalanced : list Addr;
  under_replicated : list (Addr * Z);
}.
Arguments mkWorld {B S N}.
Arguments me {B S N}.
Arguments others {B S N}.
Arguments transfers {B S N}.
Arguments rebalanced {B S N}.
Arguments under_replicated {B S N}.

Module Paxos.
Section Paxos.
Context {B R S N : Type} `{Blocks B R} `{MutableBlocks B R} `{SiloImpl (Stored B) S}
  `{Remotes B R N}.
Abbreviation W := (World B S N).
Abbreviation M := (method W (failure B)).
Abbreviation loop := (partial W (failure B)).

Definition set_me (p : Peer B S) (w : W) : W :=
  mkWorld p (others w) (transfers w) (rebalanced w) (under_replicated w).
Definition set_others (n : N) (w : W) : W :=
  mkWorld (me w) n (transfers w) (rebalanced w) (under_replicated w).
Definition set_transfers (t : gmap Addr Z) (w : W) : W :=
  mkWorld (me w) (others w) t (rebalanced w) (under_replicated w).
Definition signal_rebalanced (a : Addr) (w : W) : W :=
  mkWorld (me w) (others w) (transfers w) (rebalanced w ++ [a]) (under_replicated w).
Definition signal_under_replicated (a : Addr) (n : Z) (w : W) : W :=
  mkWorld (me w) (others w) (transfers w) (rebalanced w) (under_replicated w ++ [(a, n)]).

(** A call to the node's own peer: exceptions are not translated. *)
Definition failed (e : peer_error B) : failure B :=
  match e with
  | PaxosError e => ServerError e
  | e => Foreign (Thrown e)
  end.
Definition on_me {A} (m : method (Peer B S) (peer_error B) A) : M A :=
  fun w =>
    match m (me w) with
    | (Ok a, p) => (Ok a, set_me p w)
    | (Throw e, p) => (Throw (failed e), set_me p w)
    end.
Definition on_others {A} (m : method N (failure B) A) : M A :=
  fun w => let '(r, n) := m (others w) in (r, set_others n w).

(** A virtual call of [Paxos::Peer]: to [LocalPeer] or to [RemotePeer]. *)
Definition call {A} (i : Addr) (l : method (Peer B S) (peer_error B) A)
    (r : method N (failure B) A) : M A :=
  fun w => if bool_decide (i = id (me w)) then on_me l w else on_others r w.

(** [throw] of the exceptions of this class. *)
Definition err (e : peer_error B) : failure B := Foreign (Thrown e).
Definition missing_block (a : Addr) : failure B := err (MissingBlock (key_of a)).
(** [elle::Error], unlike the failure of an assertion. *)
Definition is_error (e : failure B) : bool :=
  match e with
  | ServerError AssertError | Foreign (Thrown NullPointer) => false
  | _ => true
  end.
Definition is_missing (e : failure B) : bool :=
  match e with Foreign (Thrown (MissingBlock _)) => true | _ => false end.

(** [translate_exceptions]. *)
Definition translated {A} (r : result (failure B) A) : result (failure B) A :=
  match r with
  | Throw (Foreign NetworkError) => Throw Unavailable
  | Throw (Foreign (Thrown (MissingBlock k))) =>
      Throw (WeakError (Thrown (MissingBlock k)))
  | r => r
  end.
Definition translate {A} (m : M A) : M A :=
  fun w => let '(r, w) := m w in (translated r, w).

(** [RemotePeer::store] translates, [LocalPeer::store] does not. *)
Definition call_store (i : Addr) (b : B) (mode : StoreMode) : M unit :=
  fun w =>
    if bool_decide (i = id (me w)) then on_me (Local.store b mode) w
    else translate (on_others (remote_store i b mode)) w.

(** [LocalPeer::confirm] and [RemotePeer::confirm]: neither translates. *)
Definition call_confirm (i : Addr) (q : gset Addr) (a : Addr) (p : Proposal Addr) :
    M unit :=
  call i (Local.confirm q a p) (remote_confirm i q a p).

Definition call_fetch (i a : Addr) (lv : option Z) : M (option B) :=
  call i (Some <$> Local.fetch a) (remote_fetch i a lv).

(** *** [PaxosPeer]: the peers of a client, for an address *)

(** The state of the adaptors: their [_missing]. *)
Abbreviation Peers := (W * gmap Addr bool)%type.

Definition lift_peers {A} (m : M A) : method Peers (failure B) A :=
  fun s => let '(r, w) := m s.1 in (r, (w, s.2)).

(** [PaxosPeer::get]: notes whether the block is missing. *)
Definition peer_get (a : Addr) (lv : option Z) (i : Addr) (q : gset Addr) :
    method Peers (failure B) (option (Accepted B)) :=
  fun '(w, ms) =>
    let '(r, w) := call i (Local.get q a lv) (remote_get i q a lv) w in
    let missing := match r with Throw e => is_missing e | Ok _ => false end in
    (translated r, (w, <[i := missing]> ms)).

Definition paxos_peers (a : Addr) (lv : option Z) (insert : bool) :
    Network (option B) Addr (call_error B) Peers := {|
  net_order := fun s l => order (others s.1) l;
  net_propose := fun i q p => lift_peers (translate
    (call i (Local.propose q a p insert) (remote_propose i q a p insert)));
  net_accept := fun i q p v => lift_peers (translate
    (call i (Local.accept q a p v) (remote_accept i q a p v)));
  net_confirm := fun i q p => lift_peers (translate (call_confirm i q a p));
  net_get := peer_get a lv;
  net_order_perm := fun s l => order_perm (others s.1) l;
|}.

Abbreviation client := (Client.Client (Id := Addr)).

(** [PaxosClient(this->doughnut().id(), peers)]. *)
Definition new_client (peers : list Addr) : M client :=
  me ← reads (fun w => id (me w));
  lift (Client.create me peers).

(** [client.choose] and [client.state]. *)
Definition choose (fuel : nat) (a : Addr) (insert : bool) (c : client)
    (version : Z) (v : Value B) (w : W) :
    option (result (failure B) (Client.Choice (T := option B) (Id := Addr)) *
            (client * W)) :=
  match Client.choose (H1 := paxos_peers a None insert) fuel version v (c, (w, ∅)) with
  | Some (r, (c, (w, _))) => Some (r, (c, w))
  | None => None
  end.

Definition state (a : Addr) (lv : option Z) (c : client) (w : W) :
    result (failure B) (Client.State (T := option B) (Id := Addr)) *
    (W * gmap Addr bool) :=
  let '(r, (_, s)) := Client.state (H1 := paxos_peers a lv false) (c, (w, ∅)) in (r, s).

(** [Details::lookup_nodes] and [Details::_peers]. *)
Definition lookup_nodes (q : gset Addr) : M (list Addr) :=
  reads (fun w => overlay_lookup_nodes (others w) q).
Definition owners (a : Addr) : M (list Addr) :=
  reads (fun w =>
    overlay_lookup (others w) a (factor (me w)) (Address.mutable_block (key_of a))).

(** *** [Details::send_immutable_block] *)

(** The variables the lambda captures. *)
Record Sending := mkSending {
  reached : list Addr;
  to_confirm : list Addr;
  current : gset Addr;
  weak : option (call_error B);
}.

Fixpoint send_all (b : B) (peers : list Addr) (s : Sending) : M Sending :=
  match peers with
  | [] => mret s
  | i :: peers =>
      if bool_decide (i ∈ current s) then
        send_all b peers
          (mkSending (reached s) (to_confirm s ++ [i]) (current s) (weak s))
      else
        fun w =>
          match call_store i b STORE_INSERT w with
          | (Ok _, w) =>
              send_all b peers (mkSending (reached s ++ [i]) (to_confirm s ++ [i])
                ({[i]} ∪ current s) (weak s)) w
          | (Throw Unavailable, w) => send_all b peers s w
          | (Throw (WeakError e), w) =>
              send_all b peers (mkSending (reached s) (to_confirm s) (current s)
                (match weak s with Some e' => Some e' | None => Some e end)) w
          | (Throw e, w) => (Throw e, w)
          end
  end.

Fixpoint confirm_all (a : Addr) (q : gset Addr) (peers : list Addr) : M unit :=
  match peers with
  | [] => mret tt
  | i :: peers =>
      try_catch (call_confirm i q a empty_proposal)
        (fun e => match e with Unavailable => Some (mret tt) | _ => None end);;
      confirm_all a q peers
  end.

Definition send_immutable_block (peers : list Addr) (b : B) (cur : gset Addr) :
    M Z :=
  peers ← reads (fun w => order (others w) peers);
  s ← send_all b peers (mkSending [] [] cur None);
  match reached s with
  | [] =>
      match weak s with
      | Some e => throw (Foreign e)
      | None => mret 0
      end
  | _ =>
      to ← reads (fun w => order (others w) (to_confirm s));
      confirm_all (baddress b) (current s) to;;
      mret (Z.of_nat (List.length (reached s)))
  end.

(** *** [Details::_propagate] *)

Fixpoint propagate_all (q : gset Addr) (b : B) (p : Proposal Addr)
    (peers : list Addr) : M unit :=
  match peers with
  | [] => mret tt
  | i :: peers =>
      call i (Local.propagate q b p) (remote_propagate i q b p);;
      propagate_all q b p peers
  end.

(** The block is the one of the decision in the cache of the node. *)
Definition propagate (a : Addr) (p : Proposal Addr) (old new : gset Addr) : M unit :=
  w ← read;
  match addresses (me w) !! a with
  | None => mret tt
  | Some e =>
      match Server.current_value (paxos (decision e)) with
      | None => mret tt
      | Some acc =>
          peers ← lookup_nodes (new ∖ old);
          peers ← reads (fun w => order (others w) peers);
          match sstate (paxos (decision e)), Local.block_of (avalue acc), peers with
          | _, _, [] => mret tt
          | Some _, Some b, peers => propagate_all new b p peers
          | _, _, _ => throw (ServerError AssertError)
          end
      end
  end.

(** *** [LocalPeer::reconcile] *)

Definition read_state (a : Addr) (c : client) :
    M (Client.State (T := option B) (Id := Addr)) :=
  fun w => let '(r, (w, _)) := state a None c w in (r, w).

(** The client takes the address as its identifier. *)
Definition reconcile (a : Addr) : M bool :=
  if Address.mutable_block (key_of a) then
    try_catch
      (on_me (Local.load_paxos a None None);;
       d ← on_me (Local.the_decision a);
       peers ← lookup_nodes (Server.current_quorum (paxos d));
       c ← lift (Client.create a peers);
       read_state a c;;
       mret false)
      (fun e =>
         if is_missing e then
           Some (try_catch (on_me (Local.remove_block a))
                   (fun e => if is_missing e then Some (mret tt) else None);;
                 mret true)
         else None)
  else mret false.

(** *** Reading: [Details::_fetch] *)

Fixpoint reconcile_all (a : Addr) (peers : list Addr) : M unit :=
  match peers with
  | [] => mret tt
  | i :: peers =>
      self ← reads (fun w => id (me w));
      (if bool_decide (i = self) then reconcile a
       else translate (on_others (remote_reconcile i a)));;
      reconcile_all a peers
  end.

(** Read the state; the peers that have the block reconcile when others miss it. *)
Definition fetch_state (a : Addr) (lv : option Z) (c : client) :
    M (Client.State (T := option B) (Id := Addr)) :=
  fun w =>
    match state a lv c w with
    | (Ok st, (w, _)) => (Ok st, w)
    | (Throw e, (w, ms)) =>
        if is_missing e then
          let have := filter (fun i => default false (ms !! i) = false)
                        (Client.cpeers c) in
          match reconcile_all a (order (others w) have) w with
          | (Ok _, w) => (Throw e, w)
          | (Throw e, w) => (Throw e, w)
          end
        else (Throw e, w)
    end.

Definition fetch_mutable (a : Addr) (peers : list Addr) (lv : option Z) :
    M (option B) :=
  c ← new_client peers;
  st ← fetch_state a lv c;
  match Client.st_value st with
  | Some (Some b) =>
      match Client.st_proposal st, bversion b with
      | Some p, Some v =>
          mret (Some (if pversion p =? v then b else seal_version (pversion p + 1) b))
      | _, _ => throw (ServerError AssertError)
      end
  | Some None => mret None
  | None => throw (missing_block a)
  end.

Definition add_transfer (i : Addr) (n : Z) : M unit :=
  modify (fun w => set_transfers
    (<[i := default 0 (transfers w !! i) + n]> (transfers w)) w).

(** The peers are asked one after the other, least used first. *)
Fixpoint fetch_first (a : Addr) (lv : option Z) (peers : list Addr) : M (option B) :=
  match peers with
  | [] => throw (missing_block a)
  | i :: peers =>
      add_transfer i 1;;
      b ← try_catch (b ← call_fetch i a lv; mret (Some b))
            (fun e => if is_error e then Some (mret None) else None);
      add_transfer i (-1);;
      match b with
      | Some b => mret b
      | None => fetch_first a lv peers
      end
  end.

Definition less_used (w : W) (i j : Addr) : Prop :=
  default 0 (transfers w !! i) <= default 0 (transfers w !! j).
#[export] Instance less_used_dec w i j : base.Decision (less_used w i j).
Proof. apply Z_le_dec. Defined.

Definition fetch_immutable (a : Addr) (peers : list Addr) (lv : option Z) :
    M (option B) :=
  w ← read;
  fetch_first a lv
    (if (1 <? Z.of_nat (List.length peers)) then
       merge_sort (less_used w) (order (others w) peers)
     else peers).

Fixpoint fetch_loop (fuel : nat) (a : Addr) (peers : list Addr) (lv : option Z) :
    loop (option B) :=
  match fuel with
  | O => no_fuel
  | Datatypes.S fuel =>
      if Address.mutable_block (key_of a) then
        partial_catch (run_once (fetch_mutable a peers lv))
          (fun e =>
             match e with
             | ServerError (WrongQuorum expected _ _) =>
                 Some (peers ← run_once (lookup_nodes expected);
                       fetch_loop fuel a peers lv)
             | _ => None
             end)
      else run_once (fetch_immutable a peers lv)
  end.

Definition fetch_from (fuel : nat) (a : Addr) (peers : list Addr) (lv : option Z) :
    loop (option B) :=
  match peers with
  | [] => run_once (throw (missing_block a))
  | _ => fetch_loop fuel a peers lv
  end.

(** [_fetch]. *)
Definition fetch (fuel : nat) (a : Addr) (lv : option Z) : loop (option B) :=
  peers ← run_once (owners a);
  fetch_from fuel a peers lv.

(** [_fetch] of several distinct addresses: what the callback receives. An address
    without owners is not in the map of peers: nothing is received for it. *)
Fixpoint fetch_hits (fuel : nat) (hits : list (Addr * option Z * list Addr)) :
    loop (list (Addr * result (failure B) (option B))) :=
  match hits with
  | [] => mret []
  | (a, lv, []) :: hits => fetch_hits fuel hits
  | (a, lv, peers) :: hits =>
      r ← partial_catch (b ← fetch_from fuel a peers lv; mret (Ok b))
            (fun e => if is_error e then Some (mret (Throw e)) else None);
      rs ← fetch_hits fuel hits;
      mret ((a, r) :: rs)
  end.
Definition fetch_many (fuel : nat) (addresses : list (Addr * option Z)) :
    loop (list (Addr * result (failure B) (option B))) :=
  w ← run_once read;
  fetch_hits fuel ((fun x => (x.1, x.2,
    overlay_lookup (others w) x.1 (factor (me w)) false)) <$> addresses).

(** *** Writing *)

(** [resolve]: [None] when the block that was chosen is the one to store. *)
Definition resolve (b newest : B) (resolver : option (B -> B -> option B)) :
    M (option B) :=
  if block_eqb newest b then mret None
  else
    match resolver with
    | Some f =>
        match f b newest with
        | Some resolved => mret (Some resolved)
        | None => throw (err (Conflict newest))
        end
    | None => throw (err (Conflict newest))
    end.

(** The loops of [_store]: [c] is the client of the current quorum; [turns] bounds
    the turns of each [choose]. *)
Fixpoint store_loop (fuel turns : nat) (insert : bool) (b : B) (c : client)
    (resolver : option (B -> B -> option B)) : loop unit :=
  match fuel with
  | O => no_fuel
  | Datatypes.S fuel =>
      let wrong_quorum (b : B) (expected : gset Addr) : loop unit :=
        peers ← run_once (lookup_nodes expected);
        c ← run_once (new_client peers);
        store_loop fuel turns false b c resolver in
      match bversion b with
      | None => run_once (throw (ServerError AssertError))
      | Some version =>
          fun w =>
            match choose turns (baddress b) insert c version (Val (Some b)) w with
            | None => None
            | Some (Throw (ServerError (WrongQuorum expected _ _)), (_, w)) =>
                wrong_quorum b expected w
            | Some (Throw e, (_, w)) => Some (Throw e, w)
            | Some (Ok ch, (c, w)) =>
                if Client.ch_conflicted ch then
                  let v := pversion (Client.ch_proposal ch) + 1 in
                  match Client.ch_value ch with
                  | Some (Quo q) => wrong_quorum (seal (Some v) b) q w
                  | Some (Val (Some chosen)) =>
                      match resolve (seal_version v b) (seal_version v chosen) resolver w with
                      | (Ok None, w) => Some (Ok tt, w)
                      | (Ok (Some b), w) =>
                          store_loop fuel turns insert (seal None b) c resolver w
                      | (Throw e, w) => Some (Throw e, w)
                      end
                  | _ => Some (Throw (ServerError AssertError), w)
                  end
                else Some (Ok tt, w)
            end
      end
  end.

(** [_store]. *)
Definition store (fuel turns : nat) (b : B) (mode : StoreMode)
    (resolver : option (B -> B -> option B)) : loop unit :=
  w ← run_once read;
  let a := baddress b in
  let peers :=
    match mode with
    | STORE_INSERT => overlay_allocate (others w) a (factor (me w))
    | STORE_UPDATE => overlay_lookup (others w) a (factor (me w)) false
    end in
  if negb (is_some (bversion b)) then
    n ← run_once (send_immutable_block peers b ∅);
    run_once (if n =? 0 then throw (err (PeerError "no peer available for insertion"))
              else mret tt)
  else
    match peers with
    | [] => run_once (throw (err (PeerError "no peer available")))
    | _ =>
        c ← run_once (new_client peers);
        store_loop fuel turns
          (match mode with STORE_INSERT => true | STORE_UPDATE => false end) b c resolver
    end.

(** *** Rebalancing *)

(** [_latest]: the client is left on the quorum that answered. Its peers stand for
    the address [at_]; those of another quorum are looked up for [a]. *)
Fixpoint latest (fuel : nat) (at_ a : Addr) (c : client) :
    loop (Client.State (T := option B) (Id := Addr) * client * Addr) :=
  match fuel with
  | O => no_fuel
  | Datatypes.S fuel =>
      partial_catch (run_once (st ← read_state at_ c; mret (st, c, at_)))
        (fun e =>
           match e with
           | ServerError (WrongQuorum expected _ _) =>
               Some (peers ← run_once (lookup_nodes expected);
                     latest fuel a a (Client.set_peers peers c))
           | _ => None
           end)
  end.

(** [_rebalance_extend_quorum]. *)
Fixpoint extend (f : Z) (new : list Addr) (q : gset Addr) : gset Addr :=
  match new with
  | [] => q
  | i :: new => if f <=? Z.of_nat (size q) then q else extend f new ({[i]} ∪ q)
  end.
Definition extend_quorum (a : Addr) (q : gset Addr) : M (gset Addr) :=
  reads (fun w =>
    extend (factor (me w)) (overlay_allocate (others w) a (factor (me w))) q).

(** [propagate] of [_rebalance]. *)
Definition finish_rebalance (a : Addr) (p : Proposal Addr) (old new : gset Addr) :
    M bool :=
  propagate a p old new;;
  modify (signal_rebalanced a);;
  mret true.

(** What one turn of the loop of [_rebalance] decides. *)
Inductive rebalance_step :=
  | Done (p : Proposal Addr)
  | Again (version : Z) (new : gset Addr) (elected : option (gset Addr)).

(** The answer of [choose]: a conflict with a quorum that does not have the right
    size changes nothing. *)
Definition rebalance_turn (make : gset Addr -> M (gset Addr)) (version : Z)
    (new : gset Addr) (ch : Client.Choice (T := option B) (Id := Addr)) :
    M rebalance_step :=
  if Client.ch_conflicted ch then
    match Client.ch_value ch with
    | Some (Quo q) =>
        f ← reads (fun w => factor (me w));
        if bool_decide (q = new) then mret (Done (Client.ch_proposal ch))
        else if Z.of_nat (size q) =? f then
          new ← make q;
          if bool_decide (new = q) then mret (Done (Client.ch_proposal ch))
          else mret (Again (version + 1) new (Some q))
        else mret (Again version new None)
    | Some (Val _) => mret (Again (version + 1) new None)
    | None => throw (ServerError AssertError)
    end
  else mret (Done (Client.ch_proposal ch)).

(** The [new_quorum] the propagation uses. *)
Definition done_quorum (new : gset Addr)
    (ch : Client.Choice (T := option B) (Id := Addr)) : gset Addr :=
  match Client.ch_value ch with
  | Some (Quo q) => if Client.ch_conflicted ch then q else new
  | _ => new
  end.

(** The loop of [_rebalance]; the peers of [c] stand for the address [at_]. *)
Fixpoint rebalance_loop (fuel turns : nat) (at_ a : Addr)
    (make : gset Addr -> M (gset Addr)) (version : Z) (c : client)
    (old new : gset Addr) : loop bool :=
  match fuel with
  | O => no_fuel
  | Datatypes.S fuel =>
      let replace (q : gset Addr) (version : Z) (new : gset Addr) : loop bool :=
        peers ← run_once (lookup_nodes q);
        c ← run_once (new_client peers);
        rebalance_loop fuel turns a a make version c old new in
      let catch (e : failure B) : loop bool :=
        match e with
        | ServerError (WrongQuorum expected _ _) => replace expected version new
        | e => run_once (if is_error e then mret false else throw e)
        end in
      fun w =>
        match choose turns at_ false c (version + 1) (Quo new) w with
        | None => None
        | Some (Throw e, (_, w)) => catch e w
        | Some (Ok ch, (c, w)) =>
            match rebalance_turn make version new ch w with
            | (Ok (Done p), w) =>
                partial_catch
                  (run_once (finish_rebalance a p old (done_quorum new ch)))
                  (fun e => Some (catch e)) w
            | (Ok (Again version new (Some q)), w) => replace q version new w
            | (Ok (Again version new None), w) =>
                rebalance_loop fuel turns at_ a make version c old new w
            | (Throw e, w) => catch e w
            end
        end
  end.

(** [_rebalance], with a function that makes the quorum. *)
Definition rebalance_with (fuel turns : nat) (a : Addr)
    (make : gset Addr -> M (gset Addr))
    (st : Client.State (T := option B) (Id := Addr)) (c : client) (at_ : Addr) :
    loop bool :=
  let q := Client.st_quorum st in
  new ← run_once (make q);
  if bool_decide (new = q) then mret false
  else
    rebalance_loop fuel turns at_ a make
      (match Client.st_proposal st with Some p => pversion p | None => -1 end)
      c q new.

(** [_rebalance(PaxosClient&, Address)]. *)
Definition rebalance_client (fuel turns : nat) (a : Addr) (c : client) : loop bool :=
  '(st, c, at_) ← latest fuel a a c;
  w ← run_once read;
  if Z.of_nat (size (Client.st_quorum st)) =? factor (me w) then mret false
  else rebalance_with fuel turns a (extend_quorum a) st c at_.

(** [_client], and the two [rebalance]. *)
Definition client_of (a : Addr) : M client :=
  peers ← owners a; new_client peers.

Definition rebalance (fuel turns : nat) (a : Addr) : loop bool :=
  c ← run_once (client_of a);
  rebalance_client fuel turns a c.

Definition rebalance_to (fuel turns : nat) (a : Addr) (ids : gset Addr) : loop bool :=
  c ← run_once (client_of a);
  '(st, c, at_) ← latest fuel a a c;
  rebalance_with fuel turns a (fun _ => mret ids) st c at_.

(** [_resign]: leave the quorum of every mutable block. The wait between failures
    changes nothing. *)
Fixpoint resign_blocks (fuel turns : nat) (blocks : list Addr) : loop unit :=
  match blocks with
  | [] => mret tt
  | a :: blocks =>
      self ← run_once (reads (fun w => id (me w)));
      partial_catch
        (c ← run_once (client_of a);
         '(st, c, at_) ← latest fuel a a c;
         rebalance_with fuel turns a (fun q => mret (q ∖ {[self]})) st c at_;;
         mret tt)
        (fun e => if is_error e then Some (mret tt) else None);;
      resign_blocks fuel turns blocks
  end.

Definition blocks_of (n : Addr) : M (list Addr) :=
  reads (fun w => snd <$> filter (fun nb => nb.1 = n) (elements (node_blocks (me w)))).

Fixpoint resign (fuel turns : nat) : loop unit :=
  match fuel with
  | O => no_fuel
  | Datatypes.S fuel' =>
      self ← run_once (reads (fun w => id (me w)));
      blocks ← run_once (blocks_of self);
      match filter (fun a => Address.mutable_block (key_of a) = true) blocks with
      | [] => mret tt
      | blocks => resign_blocks fuel turns blocks;; resign fuel' turns
      end
  end.

(** *** [LocalPeer::_disappeared_evict] *)

(** [choose] with a client that is not used any more. *)
Definition once_chosen (turns : nat) (a : Addr) (c : client) (version : Z)
    (v : Value B) : loop (Client.Choice (T := option B) (Id := Addr)) :=
  fun w =>
    match choose turns a false c version v w with
    | Some (r, (_, w)) => Some (r, w)
    | None => None
    end.

(** Elect the quorum [q] without the lost node, for the version after the one of
    the decision in the cache. *)
Fixpoint evict_loop (fuel turns : nat) (lost a : Addr) (q : gset Addr) : loop unit :=
  match fuel with
  | O => no_fuel
  | Datatypes.S fuel =>
      partial_catch
        (peers ← run_once (lookup_nodes q);
         c ← run_once (new_client peers);
         if bool_decide (lost ∈ q) then
           d ← run_once (on_me (Local.the_decision a));
           ch ← once_chosen turns a c (Server.current_version (paxos d) + 1)
                  (Quo (q ∖ {[lost]}));
           if Client.ch_conflicted ch then
             d ← run_once (on_me (Local.the_decision a));
             evict_loop fuel turns lost a (Server.current_quorum (paxos d))
           else mret tt
         else mret tt)
        (fun e =>
           match e with
           | ServerError (WrongQuorum expected _ _) =>
               Some (evict_loop fuel turns lost a expected)
           | e => if is_error e then Some (mret tt) else None
           end)
  end.

Definition evict_block (fuel turns : nat) (lost a : Addr) : loop unit :=
  loaded ← run_once (on_me (Local.load a));
  match loaded with
  | LoadedPaxos =>
      d ← run_once (on_me (Local.the_decision a));
      evict_loop fuel turns lost a (Server.current_quorum (paxos d))
  | LoadedBlock _ =>
      w ← run_once read;
      match quorums (me w) !! a with
      | None => run_once (throw (ServerError AssertError))
      | Some r =>
          if bool_decide (lost ∈ quorum r) then
            let q := quorum r ∖ {[lost]} in
            run_once (on_me (Local.cache a true q));;
            run_once (on_me (when (Local.lacks q (me w)) (Local.schedule a false)))
          else mret tt
      end
  end.

Fixpoint evict_blocks (fuel turns : nat) (lost : Addr) (blocks : list Addr) :
    loop unit :=
  match blocks with
  | [] => mret tt
  | a :: blocks =>
      evict_block fuel turns lost a;;
      evict_blocks fuel turns lost blocks
  end.

(** Nothing of this catches what loading a block throws. *)
Definition evict (fuel turns : nat) (lost : Addr) : loop unit :=
  blocks ← run_once (blocks_of lost);
  evict_blocks fuel turns lost blocks.

(** *** [LocalPeer::_rebalance]: one element of the channel *)

Definition ignore_errors (m : loop unit) : loop unit :=
  partial_catch m (fun e => if is_error e then Some (mret tt) else None).

(** Send an immutable block to a larger quorum. *)
Definition spread (a : Addr) (b : B) (old new : gset Addr) : M unit :=
  peers ← lookup_nodes new;
  n ← send_immutable_block peers b old;
  when (negb (n =? 0)) (modify (signal_rebalanced a)).

(** A block that lacks replicas. *)
Definition rebalance_block (fuel turns : nat) (a : Addr) : loop unit :=
  ignore_errors
    (loaded ← run_once (on_me (Local.load a));
     match loaded with
     | LoadedPaxos =>
         d ← run_once (on_me (Local.the_decision a));
         peers ← run_once (lookup_nodes (Server.current_quorum (paxos d)));
         c ← run_once (new_client peers);
         rebalance_client fuel turns a c;;
         mret tt
     | LoadedBlock b =>
         w ← run_once read;
         match quorums (me w) !! a with
         | None => mret tt
         | Some r =>
             new ← run_once (extend_quorum a (quorum r));
             if bool_decide (new = quorum r) then
               run_once (modify
                 (signal_under_replicated a (replication_factor r)))
             else run_once (spread a b (quorum r) new)
         end
     end).

(** The test of the blocks a new node could keep. *)
Definition may_join (f : Z) (n : Addr) (q : gset Addr) : bool :=
  (Z.of_nat (size q) <? f) && bool_decide (n ∉ q).

Definition targets (n : Addr) (p : Peer B S) : list (Addr * BlockRepartition) :=
  filter (fun x => may_join (factor p) n (quorum x.2) = true)
    (map_to_list (quorums p)).

(** Offer a block to a new node. [_latest] is given the node, not the block. *)
Definition join_block (fuel turns : nat) (n a : Addr) (imm : bool) : loop unit :=
  w ← run_once read;
  if imm then
    match quorums (me w) !! a with
    | None => run_once (throw (ServerError AssertError))
    | Some r =>
        loaded ← run_once (on_me (Local.load a));
        match loaded with
        | LoadedBlock b => run_once (spread a b (quorum r) ({[n]} ∪ quorum r))
        | LoadedPaxos => run_once (throw (ServerError AssertError))
        end
    end
  else
    match addresses (me w) !! a with
    | None => mret tt
    | Some e =>
        let q := Server.current_quorum (paxos (decision e)) in
        let f := factor (me w) in
        if may_join f n q then
          peers ← run_once (lookup_nodes q);
          c ← run_once (new_client peers);
          '(st, c, at_) ← latest fuel a n c;
          rebalance_with fuel turns a
            (fun q' => mret (if Z.of_nat (size q) =? f then q' else {[n]} ∪ q'))
            st c at_;;
          mret tt
        else mret tt
    end.

Fixpoint join_blocks (fuel turns : nat) (n : Addr)
    (l : list (Addr * BlockRepartition)) : loop unit :=
  match l with
  | [] => mret tt
  | (a, r) :: l =>
      w ← run_once read;
      if bool_decide (n ∉ nodes (me w)) || bool_decide (n ∈ node_timeouts (me w))
      then mret tt
      else
        ignore_errors (join_block fuel turns n a (immutable r));;
        join_blocks fuel turns n l
  end.

(** The elements of the channel are served in the order they were scheduled. *)
Definition rebalance_next (fuel turns : nat) : loop unit :=
  w ← run_once read;
  match rebalancable (me w) with
  | [] => mret tt
  | (x, is_node) :: l =>
      run_once (on_me (modify (Local.set_rebalancable l)));;
      if is_node : bool then
        w ← run_once read;
        join_blocks fuel turns x (targets x (me w))
      else rebalance_block fuel turns x
  end.

(** *** Removal: [Consensus::remove_many] and [Consensus::remove] *)

(** A peer that cannot be reached counts as the others do. *)
Fixpoint remove_all (a : Addr) (rs : R) (peers : list Addr) (count : Z) : M Z :=
  match peers with
  | [] => mret count
  | i :: peers =>
      try_catch (call i (Local.remove a rs) (remote_remove i a rs))
        (fun e => match e with Foreign NetworkError => Some (mret tt) | _ => None end);;
      remove_all a rs peers (count + 1)
  end.

Definition remove_many (a : Addr) (rs : R) : M unit :=
  peers ← reads (fun w => overlay_lookup (others w) a (factor (me w)) false);
  peers ← reads (fun w => order (others w) peers);
  n ← remove_all a rs peers 0;
  if n =? 0 then throw (missing_block a) else mret tt.

Fixpoint remove (fuel ffuel : nat) (a : Addr) (rs : R) : loop unit :=
  match fuel with
  | O => no_fuel
  | Datatypes.S fuel =>
      partial_catch (run_once (remove_many a rs))
        (fun e =>
           match e with
           | Foreign (Thrown (Conflict _)) =>
               Some (b ← fetch ffuel a None;
                     match b with
                     | Some b => remove fuel ffuel a (sign_remove b)
                     | None => run_once (throw (ServerError AssertError))
                     end)
           | _ => None
           end)
  end.
End Paxos.
End Paxos.
