(* ===== verification/ReplicationProperties.v ===== *)
(** Properties of the client side of replication, of Replication.v: a block that is
    stored is read back; what rebalancing and removal do when peers do not answer
    or do not agree.

    [acceptors] are the peers of a block as their acceptors only: PeerRefinement.v
    shows that a peer behaves as one acceptor per block. *)

From stdpp Require Import base tactics option list gmap.
From Stdlib Require Import ZArith Lia String.
From S2P Require Import Prelude Versions Addresses Silos SiloAdapters PaxosServer PaxosClient PaxosLiveness PaxosNetworks Nodes LocalPeer PeerRefinement PeerProperties Replication.
Open Scope Z_scope.

(** ** The peers as acceptors *)

Section Acceptors.
Context {B R : Type} `{Blocks B R}.
Abbreviation acceptors := (gmap Addr (Server (option B) Addr)).

(** A peer that is not there cannot be reached. *)
Definition on_acceptor {A : Type} (i : Addr)
    (m : method (Server (option B) Addr) (error Addr) A) :
    method acceptors (failure B) A :=
  fun n =>
    match n !! i with
    | None => (Throw (Foreign NetworkError), n)
    | Some s =>
        let '(r, s') := m s in
        (match r with Ok a => Ok a | Throw e => Throw (ServerError e) end,
         <[i := s']> n)
    end.

Definition unreachable {A : Type} : method acceptors (failure B) A :=
  throw (Foreign NetworkError).

Context (owners : list Addr) (schedule : acceptors -> list Addr -> list Addr)
  (schedule_perm : forall n l, schedule n l ≡ₚ l).

Definition acceptor_peers : Remotes B R acceptors := {|
  remote_propose := fun i q a p insert => on_acceptor i (Server.propose q p);
  remote_accept := fun i q a p v => on_acceptor i (Server.accept q p v);
  remote_confirm := fun i q a p => on_acceptor i (Server.confirm q p);
  remote_get := fun i q a lv =>
    res ← on_acceptor i (Server.get q);
    lift match Local.elide lv res with
         | Ok r => Ok r
         | Throw e => Throw (Paxos.failed e)
         end;
  remote_store := fun i b mode => unreachable;
  remote_fetch := fun i a lv => unreachable;
  remote_reconcile := fun i a => unreachable;
  remote_propagate := fun i q b p => unreachable;
  remote_remove := fun i a rs => unreachable;
  overlay_lookup := fun n a f fast => owners;
  overlay_allocate := fun n a f => owners;
  overlay_lookup_nodes := fun n q => filter (fun i => i ∈ q) owners;
  order := schedule;
  order_perm := schedule_perm;
|}.
End Acceptors.

(** ** The peers of a client are a cluster *)

Section Cluster.
Context {B R S : Type} `{Blocks B R} `{MutableBlocks B R} `{SiloImpl (Stored B) S}.
Abbreviation acceptors := (gmap Addr (Server (option B) Addr)).
Context (owners : list Addr) (schedule : acceptors -> list Addr -> list Addr)
  (schedule_perm : forall n l, schedule n l ≡ₚ l).
#[local] Hint Extern 0 (Remotes _ _ _) =>
  exact (acceptor_peers owners schedule schedule_perm) : typeclass_instances.
Abbreviation W := (World B S acceptors).

(** The servers the world is made of, seen from the node whose peer is [self]. *)
Definition seen (self : Peer B S) (s : W * gmap Addr bool) (n : acceptors) : Prop :=
  others s.1 = n /\ me s.1 = self.

Lemma call_alike {A : Type} (self : Peer B S) (i : Addr)
    (l : method (Peer B S) (peer_error B) A)
    (m : method (Server (option B) Addr) (error Addr) A) :
  i <> id self ->
  alike (seen self)
    (Paxos.lift_peers (Paxos.translate (Paxos.call i l (on_acceptor i m))))
    (on_server (E := call_error B) i m).
Proof.
  intros D [w ms] n [Eo Es]. cbn in Eo, Es. subst n.
  unfold Paxos.lift_peers, Paxos.translate, Paxos.call. cbn [fst snd].
  rewrite bool_decide_false by congruence.
  unfold Paxos.on_others, on_acceptor, on_server.
  destruct (others w !! i) as [s|]; [|by split_and!].
  destruct (m s) as [[x|e] s']; by split_and!.
Qed.

Lemma clusters_alike (self : Peer B S) (a : Addr) (insert : bool) :
  networks_alike (Paxos.paxos_peers a None insert)
    (cluster_network (E := call_error B) schedule schedule_perm)
    (seen self) (fun i => i <> id self).
Proof.
  split.
  - intros [w ms] n l [Eo _]. cbn in *. by rewrite Eo.
  - intros i q p D. by apply call_alike.
  - intros i q p v D. by apply call_alike.
  - intros i q p D. by apply call_alike.
  - intros i q D [w ms] n [Eo Es]. cbn in Eo, Es. subst n.
    cbn [Paxos.paxos_peers net_get cluster_network]. unfold Paxos.peer_get, Paxos.call.
    rewrite bool_decide_false by congruence.
    unfold Paxos.on_others. cbn [remote_get acceptor_peers].
    unfold mbind, method_bind, on_acceptor, on_server.
    destruct (others w !! i) as [s|]; [|by split_and!].
    destruct (Server.get q s) as [[x|e] s']; by split_and!.
Qed.
End Cluster.

(** ** A block that is stored is read back *)

Section StoreFetch.
Context {B R S : Type} `{Blocks B R} `{MutableBlocks B R} `{SiloImpl (Stored B) S}.
Abbreviation acceptors := (gmap Addr (Server (option B) Addr)).
Context (owners : list Addr) (schedule : acceptors -> list Addr -> list Addr)
  (schedule_perm : forall n l, schedule n l ≡ₚ l).
#[local] Hint Extern 0 (Remotes _ _ _) =>
  exact (acceptor_peers owners schedule schedule_perm) : typeclass_instances.
Abbreviation W := (World B S acceptors).
Hypothesis owners_nodup : NoDup owners.

(** The node does not keep the block itself. *)
Definition outside (w : W) : Prop := id (me w) ∉ owners.

Lemma outside_all (w : W) c :
  outside w -> Client.cpeers c = owners ->
  Forall (fun i => i <> id (me w)) (Client.cpeers c).
Proof.
  intros O ->. apply Forall_forall. intros i I ->. by apply O.
Qed.

Lemma choose_spec (w : W) c (a : Addr) (insert : bool) (v : Z) (b : option B) (k : nat) :
  Client.cpeers c = owners -> outside w -> healthy v owners (others w) ->
  exists ch c' w', Paxos.choose (2 + k) a insert c v (Val b) w = Some (Ok ch, (c', w')) /\
    me w' = me w /\
    (learnt v owners (others w) ch \/ chosen_by v owners b (others w) ch (others w')).
Proof.
  intros Ec O Hn. unfold Paxos.choose.
  destruct (choose_ends (E := call_error B) schedule schedule_perm v owners owners_nodup
    c (others w) b k Ec Hn) as (ch & c2 & n' & E2 & _ & L).
  pose proof (choose_alike _ _ _ _
    (clusters_alike owners schedule schedule_perm (me w) a insert)
    (2 + k) v (Val b) (c, (w, ∅)) (c, others w)) as A.
  rewrite E2 in A. unfold alike_run in A.
  destruct (Client.choose (2 + k) v (Val b) (c, (w, ∅))) as [[r [c1 [w1 ms]]]|].
  - destruct A as (-> & Ec1 & _ & [Eo Es]).
    { split; [done|]. split; [by apply outside_all|]. by split. }
    cbn in Ec1, Eo, Es. subst. exists ch, c2, w1. split; [done|]. by split.
  - destruct A. split; [done|]. split; [by apply outside_all|]. by split.
Qed.

Lemma state_spec (w : W) c (a : Addr) (v : Z) p (b : option B) n :
  Client.cpeers c = owners -> outside w -> lined_up v owners n -> pversion p = v ->
  others w = served (confirming (list_to_set owners) p (Val b)) (list_to_set owners) n ->
  exists s, Paxos.state a None c w =
    (Ok (Client.mkReadState (Some b) (list_to_set owners) (Some p)), s).
Proof.
  intros Ec O Hn Ev Eo. unfold Paxos.state.
  pose proof (chosen_read (E := call_error B) schedule schedule_perm v owners
    owners_nodup c p b n Ec Hn Ev) as X.
  pose proof (state_alike _ _ _ _
    (clusters_alike owners schedule schedule_perm (me w) a false)) as A.
  destruct (A (c, (w, ∅)) (c, others w)) as [E1 _].
  { split; [done|]. split; [by apply outside_all|]. by split. }
  rewrite Eo, X in E1. destruct (Client.state (c, (w, ∅))) as [r [c1 s]].
  cbn in E1. subst r. by exists s.
Qed.

End StoreFetch.

(** ** Rebalancing *)

(** A quorum is extended by the nodes the overlay allocates, in their order, until
    there are as many as wanted: none is lost, and if there are still not enough
    all of the allocated nodes are in it. *)
Theorem extend_reaches (f : Z) (new : list Addr) (q : gset Addr) :
  let r := Paxos.extend f new q in
  q ⊆ r /\ r ⊆ q ∪ list_to_set new /\
  Z.of_nat (size r) <= Z.max f (Z.of_nat (size q)) /\
  (Z.of_nat (size r) < f -> list_to_set new ⊆ r).
Proof.
  cbv zeta. revert q. induction new as [|i new IH]; intros q; cbn [Paxos.extend].
  { split_and!; [set_solver..|lia|set_solver]. }
  destruct (f <=? Z.of_nat (size q)) eqn:L; to_prop.
  { split_and!; [set_solver..|lia|lia]. }
  destruct (IH ({[i]} ∪ q)) as (S1 & S2 & S3 & S4).
  assert (Z.of_nat (size ({[i]} ∪ q)) <= Z.of_nat (size q) + 1) as Le.
  { pose proof (size_union_alt ({[i]} : gset Addr) q) as U.
    pose proof (subseteq_size (q ∖ {[i]}) q ltac:(set_solver)).
    rewrite size_singleton in U. lia. }
  split_and!; [set_solver|set_solver|lia|]. intros Lt. specialize (S4 Lt). set_solver.
Qed.

Section Livelock.
Context {B R S : Type} `{Blocks B R} `{MutableBlocks B R} `{SiloImpl (Stored B) S}.
Abbreviation acceptors := (gmap Addr (Server (option B) Addr)).
Context (owners : list Addr) (schedule : acceptors -> list Addr -> list Addr)
  (schedule_perm : forall n l, schedule n l ≡ₚ l).
#[local] Hint Extern 0 (Remotes _ _ _) =>
  exact (acceptor_peers owners schedule schedule_perm) : typeclass_instances.
Abbreviation W := (World B S acceptors).
Hypothesis owners_nodup : NoDup owners.

Lemma choose_elected (w : W) (c : Client.Client (Id := Addr)) (a : Addr) (v : Z) (q' : gset Addr) (y : Value B) (k : nat) :
  Client.cpeers c = owners -> id (me w) ∉ owners ->
  all_decided v owners (Quo q') (others w) ->
  exists p' c' w', Paxos.choose (1 + k) a false c v y w =
    Some (Ok (Client.choice_theirs p' (Quo q')), (c', w')) /\
    Client.cpeers c' = owners /\ me w' = me w /\
    all_decided v owners (Quo q') (others w').
Proof.
  intros Ec O D. unfold Paxos.choose.
  destruct (choose_decided (E := call_error B) schedule schedule_perm v owners owners_nodup
    c (others w) (Quo q') y k Ec D) as (p' & E2).
  pose proof (choose_alike _ _ _ _
    (clusters_alike owners schedule schedule_perm (me w) a false)
    (1 + k) v y (c, (w, ∅)) (c, others w)) as A.
  rewrite E2 in A. unfold alike_run in A.
  assert (with_client (seen (me w)) (fun i => i <> id (me w)) (c, (w, ∅)) (c, others w))
    as Rw by (split; [done|]; split; [cbn; rewrite Ec; apply Forall_forall; by intros i I ->|]; by split).
  destruct (Client.choose (1 + k) v y (c, (w, ∅))) as [[r [c1 [w1 ms]]]|]; [|by destruct A].
  destruct (A Rw) as (-> & Ec1 & _ & [Eo Es]). cbn in Ec1, Eo, Es. subst c1.
  do 3 eexists. split; [done|]. split; [done|]. split; [done|].
  cbn. rewrite Eo. by apply (all_decided_served schedule schedule_perm).
Qed.

(** When a quorum of another size than the replication factor was elected for the
    version a node uses to rebalance a block, the node never stops trying: it is
    told of this quorum at each turn, and changes neither the version nor the
    quorum it proposes. *)
Theorem rebalance_livelock (w : W) (a : Addr) (make : gset Addr -> method W (failure B) (gset Addr))
    (st : Client.State (T := option B) (Id := Addr)) (c : Client.Client (Id := Addr))
    (v : Z) (new q' : gset Addr)
    (fuel k : nat) :
  Client.cpeers c = owners -> id (me w) ∉ owners ->
  (match Client.st_proposal st with Some p => pversion p | None => -1 end) + 1 = v ->
  make (Client.st_quorum st) w = (Ok new, w) -> new <> Client.st_quorum st ->
  all_decided v owners (Quo q') (others w) ->
  q' <> new -> Z.of_nat (size q') <> factor (me w) ->
  Paxos.rebalance_with fuel (1 + k) a make st c a w = None.
Proof.
  intros Ec O Ev Em N D Nq Nf. unfold Paxos.rebalance_with.
  rewrite (run_bind _ _ _ _ _ Em), bool_decide_false by done.
  set (version := match Client.st_proposal st with Some p => pversion p | None => -1 end) in *.
  clearbody version. clear Em N. revert c w Ec O D Nf.
  induction fuel as [|fuel IH]; intros c w Ec O D Nf; [done|].
  cbn [Paxos.rebalance_loop]. rewrite Ev.
  destruct (choose_elected w c a v q' (Quo new) k Ec O D) as (p' & c' & w' & -> & Ec' & Em & D').
  unfold Paxos.rebalance_turn. monad_unfold. cbn [Client.choice_theirs Client.ch_conflicted Client.ch_value].
  rewrite (bool_decide_false (q' = new)) by done.
  assert ((Z.of_nat (size q') =? factor (me w')) = false) as -> by (rewrite Em; by apply Z.eqb_neq).
  apply IH; by rewrite ?Em.
Qed.
End Livelock.

(** ** Peers that cannot be reached *)

Section Unreachable.
Context {B R S N : Type} `{Blocks B R} `{MutableBlocks B R} `{SiloImpl (Stored B) S}
  `{Remotes B R N}.
Abbreviation W := (World B S N).

Lemma order_single (n : N) (i : Addr) : order n [i] = [i].
Proof. apply Permutation_singleton_r, order_perm. Qed.

(** An immutable block is sent to a peer, which stores it, then cannot be reached to
    confirm: the insertion fails with the error of the network, while a peer that
    cannot be reached to store only counts as not reached. *)
Theorem lost_confirmation (w : W) (i : Addr) (b : B) (n1 n2 : N) :
  i <> id (me w) ->
  remote_store i b STORE_INSERT (others w) = (Ok tt, n1) ->
  remote_confirm i {[i]} (baddress b) empty_proposal n1 = (Throw (Foreign NetworkError), n2) ->
  Paxos.send_immutable_block [i] b ∅ w =
    (Throw (Foreign NetworkError), Paxos.set_others n2 w) /\
  forall (w' : W) n3, id (me w') = id (me w) ->
    remote_store i b STORE_INSERT (others w') = (Throw (Foreign NetworkError), n3) ->
    Paxos.send_immutable_block [i] b ∅ w' = (Ok 0, Paxos.set_others n3 w').
Proof.
  intros Ni Es Ec. split.
  - unfold Paxos.send_immutable_block. rewrite bind_reads, order_single.
    rewrite (bind_Ok _ _ w (Paxos.mkSending [i] [i] ({[i]} ∪ ∅) None)
      (Paxos.set_others n1 w)).
    2:{ cbn [Paxos.send_all Paxos.current]. rewrite bool_decide_false by set_solver.
        unfold Paxos.call_store, Paxos.translate, Paxos.on_others.
        by rewrite bool_decide_false, Es. }
    cbn [Paxos.reached]. rewrite bind_reads. cbn [Paxos.to_confirm others Paxos.set_others].
    rewrite order_single. apply bind_Throw. cbn [Paxos.confirm_all Paxos.current].
    apply bind_Throw. unfold try_catch, Paxos.call_confirm, Paxos.call, Paxos.on_others.
    rewrite !union_empty_r_L. cbn [others me Paxos.set_others].
    rewrite bool_decide_false by done. by rewrite Ec.
  - intros w' n3 Ei E3. unfold Paxos.send_immutable_block. rewrite bind_reads, order_single.
    rewrite (bind_Ok _ _ w' (Paxos.mkSending [] [] ∅ None) (Paxos.set_others n3 w')).
    { done. }
    cbn [Paxos.send_all Paxos.current]. rewrite bool_decide_false by set_solver.
    unfold Paxos.call_store, Paxos.translate, Paxos.on_others.
    by rewrite bool_decide_false, E3 by congruence.
Qed.

(** Removing a block none of whose owners can be reached succeeds: a peer that
    cannot be reached counts as one that removed it. *)
Theorem unreachable_removal (w : W) (a : Addr) (rs : R) :
  let peers := overlay_lookup (others w) a (factor (me w)) false in
  peers <> [] -> id (me w) ∉ peers ->
  (forall i, i ∈ peers ->
    remote_remove i a rs (others w) = (Throw (Foreign NetworkError), others w)) ->
  Paxos.remove_many a rs w = (Ok tt, w).
Proof.
  intros peers NE O U. unfold Paxos.remove_many. rewrite !bind_reads. fold peers.
  pose proof (order_perm (others w) peers) as Pm.
  set (l := order (others w) peers) in *.
  assert (forall l' count, (forall i, i ∈ l' -> i ∈ peers) ->
    Paxos.remove_all a rs l' count w = (Ok (count + Z.of_nat (List.length l')), w)) as Rm.
  { intros l'. induction l' as [|i l' IH]; intros count Sub; cbn [Paxos.remove_all].
    - cbn. by rewrite Z.add_0_r.
    - rewrite (bind_Ok _ _ w tt w).
      2:{ unfold try_catch, Paxos.call, Paxos.on_others.
          rewrite bool_decide_false by (intros ->; apply O, Sub; left).
          rewrite U by (apply Sub; left). by destruct w. }
      rewrite IH by (intros; apply Sub; by right). f_equal. f_equal. cbn [List.length]. lia. }
  rewrite (bind_Ok _ _ w _ w (Rm l 0 ltac:(intros i; by rewrite Pm))).
  assert (List.length l <> 0%nat) as L.
  { rewrite Pm. by destruct peers. }
  destruct (0 + Z.of_nat (List.length l) =? 0) eqn:Z0; to_prop; [lia|done].
Qed.
End Unreachable.

(** ** A concrete deployment *)

#[export] Instance mutable_notes : MutableBlocks note unit := {|
  seal_version := fun v b => mkNote (note_address b) v (note_text b);
  seal := fun v b => mkNote (note_address b) (default (note_version b) v) (note_text b);
  block_eqb := fun a b =>
    bool_decide (note_address a = note_address b) && (note_version a =? note_version b) &&
    bool_decide (note_text a = note_text b);
  sign_remove := fun _ => tt;
|}.

Section Concrete.
Abbreviation acceptors := (gmap Addr (Server (option note) Addr)).
Abbreviation W := (World note (Memory.t (Stored note)) acceptors).

Definition o1 : Addr := Address.make (replicate 32 1) ↾ I.
Definition o2 : Addr := Address.make (replicate 32 3) ↾ I.
Definition o3 : Addr := Address.make (replicate 32 5) ↾ I.
Definition three : list Addr := [o1; o2; o3].
Definition in_order (n : acceptors) (l : list Addr) : list Addr := l.
Lemma in_order_perm n l : in_order n l ≡ₚ l.
Proof. reflexivity. Qed.
#[local] Hint Extern 0 (Remotes _ _ _) =>
  exact (acceptor_peers three in_order in_order_perm) : typeclass_instances.

Definition empty_server (i : Addr) : Server (option note) Addr :=
  mkServer i (list_to_set three) None (Version.make 0 9 0) false None.
Definition world (n : acceptors) : W :=
  mkWorld (alice Memory.create) n ∅ [] [].

(** The block was stored once; its second owner did not hear that it was confirmed,
    and the third one is down. *)
Definition memo : note := mkNote (Address.make (replicate 32 2) ↾ I) 0 [1; 2; 3].
Definition edited : note := mkNote (Address.make (replicate 32 2) ↾ I) 1 [4; 5].
Definition stored_at (confirmed : bool) (i : Addr) : Server (option note) Addr :=
  Server.set_state (Some (mkState (mkProposal 0 1 o1)
    (Some (mkAccepted (mkProposal 0 1 o1) (Val (Some memo)) confirmed)))) (empty_server i).
Definition two_up : acceptors :=
  <[o1 := stored_at true o1]> (<[o2 := stored_at false o2]> ∅).

Lemma three_nodup : NoDup three.
Proof. apply (bool_decide_eq_true_1 (NoDup three)). vm_compute. reflexivity. Qed.

Lemma alice_outside (n : acceptors) : id (me (world n)) ∉ three.
Proof.
  apply (bool_decide_eq_true_1 (n1 ∉ three)). vm_compute. reflexivity.
Qed.

(** A property of the servers of a map is decided one by one. *)
Lemma two_up_all (P : Addr -> Server (option note) Addr -> Prop) s1 s2 :
  P o1 s1 -> P o2 s2 ->
  forall i s, (<[o1 := s1]> (<[o2 := s2]> ∅) : acceptors) !! i = Some s -> P i s.
Proof.
  intros P1 P2 i s E. apply lookup_insert_Some in E as [[<- <-]|[_ E]]; [exact P1|].
  apply lookup_insert_Some in E as [[<- <-]|[_ E]]; [exact P2|].
  rewrite lookup_empty in E. discriminate E.
Qed.

Lemma stored_at_able c i : able 1 (list_to_set three) (stored_at c i).
Proof.
  split; [reflexivity|]. split; [reflexivity|]. split; [|reflexivity].
  intros st a Es Ea. cbn in Es. injection Es as <-. injection Ea as <-. apply ple_refl.
Qed.


(** The owners elected a quorum of one for version 1; [alice] read version 0. *)
Definition elected (i : Addr) : Server (option note) Addr :=
  Server.set_state (Some (mkState (mkProposal 1 1 o1)
    (Some (mkAccepted (mkProposal 1 1 o1) (Quo {[o1]}) true)))) (empty_server i).
Definition two_elected : acceptors := <[o1 := elected o1]> (<[o2 := elected o2]> ∅).

Lemma rebalance_livelock_witness :
  let c : Client.Client (Id := Addr) := Client.mkClient n1 three 0 true in
  let st := Client.mkReadState (Some (Some memo)) (list_to_set three)
              (Some (mkProposal 0 1 o1)) in
  Paxos.rebalance_with 1000 1 (baddress memo)
    (fun _ => mret {[o1; n1]}) st c (baddress memo) (world two_elected) = None.
Proof.
  intros c st.
  assert (all_decided 1 three (Quo {[o1]}) two_elected) as D.
  { split.
    - intros i s _. unfold two_elected. revert i s.
      apply two_up_all; (split; [reflexivity|]; split; [reflexivity|];
        exists (mkProposal 1 1 o1), (mkProposal 1 1 o1); split; [reflexivity|];
        split; reflexivity).
    - exists o1, (elected o1). split; [apply list_elem_of_here|].
      apply lookup_insert_eq. }
  assert (({[o1; n1]} : gset Addr) <> Client.st_quorum st) as N1.
  { apply (bool_decide_eq_true_1 (({[o1; n1]} : gset Addr) <> list_to_set three)).
    vm_compute. reflexivity. }
  assert (({[o1]} : gset Addr) <> {[o1; n1]}) as N2.
  { apply (bool_decide_eq_true_1 (({[o1]} : gset Addr) <> {[o1; n1]})).
    vm_compute. reflexivity. }
  assert (Z.of_nat (size ({[o1]} : gset Addr)) <> factor (me (world two_elected))) as N3.
  { rewrite size_singleton. discriminate. }
  exact (rebalance_livelock three in_order in_order_perm three_nodup (world two_elected)
    (baddress memo) (fun _ => mret {[o1; n1]}) st c 1 {[o1; n1]} {[o1]} 1000 0 eq_refl
    (alice_outside two_elected) eq_refl eq_refl N1 D N2 N3).
Defined.

Lemma unreachable_removal_witness :
  Paxos.remove_many (baddress memo) tt (world two_up) = (Ok tt, world two_up).
Proof.
  apply (unreachable_removal (world two_up) (baddress memo) tt).
  - discriminate.
  - exact (alice_outside two_up).
  - intros i _. reflexivity.
Defined.
End Concrete.

Section Silent.
Abbreviation acceptors := (gmap Addr (Server (option note) Addr)).

(** Peers that store blocks and then are not heard of. *)
Definition silent_peers : Remotes note unit acceptors := {|
  remote_propose := fun _ _ _ _ _ => unreachable;
  remote_accept := fun _ _ _ _ _ => unreachable;
  remote_confirm := fun _ _ _ _ => unreachable;
  remote_get := fun _ _ _ _ => unreachable;
  remote_store := fun _ _ _ => mret tt;
  remote_fetch := fun _ _ _ => unreachable;
  remote_reconcile := fun _ _ => unreachable;
  remote_propagate := fun _ _ _ _ => unreachable;
  remote_remove := fun _ _ _ => unreachable;
  overlay_lookup := fun _ _ _ _ => three;
  overlay_allocate := fun _ _ _ => three;
  overlay_lookup_nodes := fun _ q => elements q;
  order := in_order;
  order_perm := in_order_perm;
|}.
#[local] Hint Extern 0 (Remotes _ _ _) => exact silent_peers : typeclass_instances.

Lemma lost_confirmation_witness :
  o1 <> n1 /\
  (Paxos.send_immutable_block [o1] memo ∅ (world two_up)).1 = Throw (Foreign NetworkError).
Proof.
  assert (o1 <> n1) as N.
  { apply (bool_decide_eq_true_1 (o1 <> n1)). vm_compute. reflexivity. }
  split; [exact N|].
  destruct (@lost_confirmation note unit (Memory.t (Stored note)) acceptors _ _
    silent_peers (world two_up) o1 memo two_up two_up N eq_refl eq_refl) as [E _].
  rewrite E. reflexivity.
Defined.
End Silent.
