(* ===== verification/Signatures.v ===== *)
(** Keys, signatures, and what is signed.

    Cryptography is the class [Crypto]; a signature is over what the object
    that is signed serializes, [payload]. [LawfulCrypto] are the laws that are
    used, and [Unforgeable] says, where it matters, that nobody else can sign.
    [Toy] is a cryptography to compute with, in which a key is its own
    secret. *)

From stdpp Require Import base tactics option list countable.
From Stdlib Require Import ZArith Lia.
From S2P Require Import Prelude Buffers Addresses.
Open Scope Z_scope.

Module Signatures.

(** memo/model/doughnut/ACB.hh, ACLEntry. *)
Record ACLEntry {K : Type} := mkEntry {
  key : K;
  can_read : bool;
  can_write : bool;
  token : bytes
}.
Arguments ACLEntry K : clear implicits.

(** memo/model/doughnut/Passport.hh. *)
Record passport {K : Type} := mkPassport {
  user : K;
  network : bytes;
  passport_signature : bytes;
  certifier : option K;
  allow_write : bool;
  allow_storage : bool;
  allow_sign : bool
}.
Arguments passport K : clear implicits.

(** What is signed: BaseOKB::OwnerSignature, BaseACB::OwnerSignature,
    BaseACB::DataSignature; what NB::_data_sign, Passport and UB::_sign_remove
    serialize; and buffers. The owner does not sign the tokens. What versions
    before 0.4.0, or old passports, leave out is [None], and so is what only
    groups sign: GB::OwnerSignature and GB::DataSignature. *)
Definition rights (K : Type) : Type := list (K * bool * bool).
Inductive payload {K : Type} :=
  | OwnerSignature (salt : bytes) (owner_key : K) (version : Z) (data : bytes)
  | ACLSignature (salt : bytes) (owner_key : K) (version : Z) (acls : rights K)
      (since_0_4 : option (rights K * bool * bool)) (admins : option (list (K * bytes)))
  | DataSignature (salt : bytes) (owner_key : K) (version : Z) (data : bytes)
      (owner_token : bytes) (acl : list (ACLEntry K))
      (since_0_4 : option (list (ACLEntry K) * list Z * bool))
      (members : option (list K * option (option bytes)))
  | NamedData (before_0_4 : bool) (name data : bytes)
  | Fingerprint (user : K) (network : bytes) (allows : option (bool * bool * bool))
  | UserBlock (address : Address.t) (name : bytes) (key : K) (reverse : bool)
      (passport : option (passport K))
  | Buffer (contents : bytes).
Arguments payload K : clear implicits.

(** [K] are public keys and [P] private ones. *)
Class Crypto (K P : Type) := {
  public : P -> K;
  key_json : K -> bytes;                    (* a key serialized, as version 0.0.0 *)
  key_der : K -> bytes;                     (* publickey::der::encode *)
  sha256 : bytes -> bytes;
  sign : P -> payload K -> bytes;
  verify : K -> bytes -> payload K -> bool;
  encrypt : bool -> K -> bytes -> bytes;    (* of a token: encrypt, or seal *)
  decrypt : bool -> P -> bytes -> option bytes;   (* decrypt, or open *)
  encipher : bytes -> bytes -> bytes;       (* of the data, with a secret *)
  decipher : bytes -> bytes -> option bytes
}.

(** *** Laws *)

Class LawfulCrypto (K P : Type) `{!Crypto K P} : Prop := {
  verify_sign : forall p m, verify (public p) (sign p m) m = true;
  verify_nothing : forall k m, verify k [] m = false;
  decrypt_encrypt : forall enc p s, decrypt enc p (encrypt enc (public p) s) = Some s;
  decipher_encipher : forall s d, decipher s (encipher s d) = Some d
}.

(** Only the private key makes signatures, each of one thing. *)
Class Unforgeable (K P : Type) `{!Crypto K P} : Prop := {
  verify_signed : forall k s m, verify k s m = true -> exists p, public p = k /\ s = sign p m;
  sign_binds : forall k s m m', verify k s m = true -> verify k s m' = true -> m = m'
}.

End Signatures.

Import Signatures.

(** *** A cryptography to compute with: a key is its own secret. *)

Module Toy.
Definition entry_tuple (e : ACLEntry Z) : Z * bool * bool * list Z :=
  (key e, can_read e, can_write e, token e).
Definition entry_tuples (l : list (ACLEntry Z)) : list (Z * bool * bool * list Z) :=
  entry_tuple <$> l.
Definition since_tuple (x : list (ACLEntry Z) * list Z * bool) :=
  (entry_tuples x.1.1, x.1.2, x.2).
Definition since_tuples (x : option (list (ACLEntry Z) * list Z * bool)) := since_tuple <$> x.
Definition passport_tuple (p : passport Z) :=
  (user p, network p, passport_signature p, certifier p,
   (allow_write p, allow_storage p, allow_sign p)).
Definition address_tuple (a : Address.t) := (Address.value a, Address.mutable_block a).
Definition tuple (m : payload Z) :=
  match m with
  | OwnerSignature s k v d => inl (inl (s, k, v, d))
  | ACLSignature s k v l x a => inl (inr (s, k, v, l, x, a))
  | DataSignature s k v d t l x m =>
      inr (inl (s, k, v, d, t, entry_tuples l, since_tuples x, m))
  | NamedData v n d => inr (inr (inl (inl (v, n, d))))
  | Fingerprint u n a => inr (inr (inl (inr (u, n, a))))
  | UserBlock a n k r p =>
      inr (inr (inr (inl (address_tuple a, n, k, r, passport_tuple <$> p))))
  | Buffer c => inr (inr (inr (inr c)))
  end.

Lemma entries_inj l l' : entry_tuples l = entry_tuples l' -> l = l'.
Proof.
  revert l'. induction l as [|e l IH]; intros [|e' l'] E; try done.
  unfold entry_tuples in E. rewrite !fmap_cons in E. assert (entry_tuple e = entry_tuple e') as E1 by congruence.
  assert (entry_tuple <$> l = entry_tuple <$> l') as E2 by congruence.
  f_equal; [|by apply IH]. destruct e, e'. unfold entry_tuple in E1. cbn in E1. congruence.
Qed.

Lemma since_inj x y : since_tuples x = since_tuples y -> x = y.
Proof.
  destruct x as [[[l v] d]|], y as [[[l' v'] d']|]; try done.
  unfold since_tuples, since_tuple. cbn. intros [= El -> ->]. apply entries_inj in El. congruence.
Qed.

Lemma passport_inj (p q : option (passport Z)) :
  passport_tuple <$> p = passport_tuple <$> q -> p = q.
Proof.
  destruct p as [[]|], q as [[]|]; try done. unfold passport_tuple. cbn. congruence.
Qed.

Lemma tuple_inj m m' : tuple m = tuple m' -> m = m'.
Proof.
  destruct m, m'; cbn [tuple]; intros E; try discriminate; try congruence.
  - injection E as -> -> -> -> -> E1 E2 ->. apply entries_inj in E1. apply since_inj in E2. congruence.
  - injection E as E1 E2 -> -> -> E3. apply passport_inj in E3. destruct address, address0.
    cbn in *. congruence.
Qed.

Definition code (m : payload Z) : Z := Zpos (encode (tuple m)).

#[local] Instance crypto : Crypto Z Z := {
  public := id;
  key_json k := [k];
  key_der k := [k];
  sha256 b := take 32 (b ++ replicate 32 0);
  sign p m := [p; code m];
  verify k s m := bool_decide (s = [k; code m]);
  encrypt _ k s := k :: s;
  decrypt _ p t := match t with k :: s => if decide (k = p) then Some s else None | [] => None end;
  encipher s d := s ++ d;
  decipher s d := if decide (take (length s) d = s) then Some (drop (length s) d) else None
}.

#[local] Instance lawful : LawfulCrypto Z Z.
Proof.
  split.
  - intros p m. by apply bool_decide_eq_true.
  - done.
  - intros enc p s. cbn. by rewrite decide_True.
  - intros s d. cbn. by rewrite take_app_length, drop_app_length, decide_True.
Qed.

#[local] Instance unforgeable : Unforgeable Z Z.
Proof.
  split.
  - intros k s m V%bool_decide_eq_true. by exists k.
  - intros k s m m' V%bool_decide_eq_true V'%bool_decide_eq_true.
    subst s. injection V' as E. by apply tuple_inj, (inj encode).
Qed.
End Toy.
#[export] Existing Instances Toy.crypto Toy.lawful Toy.unforgeable.
