(* ===== verification/Blocks.v ===== *)
(** Mutable blocks, and who may write them: memo/model/doughnut/OKB.cc and
    ACB.cc.

    An OKB belongs to a key, which its address is computed from, and its owner
    signs its content. An ACB adds a list of users who may read or write: the
    owner signs the list, and whoever wrote the data last, the editor, signs
    the data. *)

From stdpp Require Import base tactics option list.
From Stdlib Require Import ZArith Lia.
From S2P Require Import Prelude Versions Buffers Streams Addresses Nodes Signatures.
Open Scope Z_scope.

Module Blocks.

Import Signatures.

(** What a block asks of its Doughnut; [group] is what the block of a group,
    if it can be fetched, gives: its public keys, and its private keys if we
    are a member. *)
Record group_info {K P : Type} := mkGroup {
  group_public_keys : list K;
  group_keys : option (list P)
}.
Arguments group_info K P : clear implicits.

Record doughnut {K P : Type} := mkDoughnut {
  keys : P;
  dn_version : Version.t;
  validate_signatures : bool;
  admin_r : list K;
  admin_w : list K;
  admin_group_r : list K;
  admin_group_w : list K;
  group : K -> option (group_info K P)
}.
Arguments doughnut K P : clear implicits.

Definition v_0_4 : Version.t := Version.make 0 4 0.
Definition v_0_5 : Version.t := Version.make 0 5 0.
Definition v_0_7 : Version.t := Version.make 0 7 0.
Definition v_0_8 : Version.t := Version.make 0 8 0.

Inductive error :=
  | OwnerPermissions       (* Cannot set permissions for owner *)
  | OwnerKeyUnavailable
  | GroupUnavailable       (* Failed to access group block *)
  | AdminPermissions       (* Cannot change permissions of network admin *)
  | Unowned                (* attempting to seal an unowned OKB *)
  | NotWritable            (* not owner and no write permissions *)
  | NotReadable            (* no read permissions *)
  | CryptoError            (* a token cannot be decrypted *)
  | NullPointer            (* a key that is not there is used *)
  | AssertError.

(** *** Objects *)

(** BaseOKB with its header; [data] is what is stored, and a signature is
    empty until there is one. *)
Record okb {K P : Type} := mkOKB {
  address : Address.t;
  data : bytes;
  validated : bool;
  data_changed : bool;
  salt : bytes;
  owner_key : K;
  version : Z;
  signature : bytes;
  owner_private_key : option P;
  data_plain : bytes;
  data_decrypted : bool;
  next_seal_version : option Z
}.
Arguments okb K P : clear implicits.

(** What GB adds: the public keys of the group, the key of its owner for each
    administrator, in the order of the keys, and its description. *)
Record group_part {K : Type} := mkPart {
  public_keys : list K;
  admin_keys : list (K * bytes);
  description : option bytes
}.
Arguments group_part K : clear implicits.

(** BaseACB; a GB has a part more. *)
Record acb {K P : Type} := mkACB {
  okb_of : okb K P;
  editor : Z;
  owner_token : bytes;
  acl_changed : bool;
  acl_entries : list (ACLEntry K);
  acl_group_entries : list (ACLEntry K);
  group_version : list Z;
  data_version : Z;
  data_signature : bytes;
  world_readable : bool;
  world_writable : bool;
  deleted : bool;
  sign_key : option P;
  seal_version : Version.t;
  part : option (group_part K)
}.
Arguments acb K P : clear implicits.

Section Blocks.
Context {K P : Type} `{EqDecision K} `{EqDecision P} `{Crypto K P}.
Context (dn : doughnut K P).

Implicit Types (b : acb K P) (o : okb K P) (e : ACLEntry K).

Definition set_okb_data (d : bytes) (o : okb K P) : okb K P :=
  mkOKB _ _ (address o) d (validated o) (data_changed o) (salt o) (owner_key o) (version o)
    (signature o) (owner_private_key o) (data_plain o) (data_decrypted o) (next_seal_version o).
Definition set_plain (d : bytes) (o : okb K P) : okb K P :=
  mkOKB _ _ (address o) (data o) (validated o) (data_changed o) (salt o) (owner_key o)
    (version o) (signature o) (owner_private_key o) d (data_decrypted o) (next_seal_version o).
Definition set_flags (v c d : bool) (o : okb K P) : okb K P :=
  mkOKB _ _ (address o) (data o) v c (salt o) (owner_key o) (version o)
    (signature o) (owner_private_key o) (data_plain o) d (next_seal_version o).
Definition set_version (v : Z) (o : okb K P) : okb K P :=
  mkOKB _ _ (address o) (data o) (validated o) (data_changed o) (salt o) (owner_key o) v
    (signature o) (owner_private_key o) (data_plain o) (data_decrypted o) (next_seal_version o).
Definition set_signature (s : bytes) (o : okb K P) : okb K P :=
  mkOKB _ _ (address o) (data o) (validated o) (data_changed o) (salt o) (owner_key o)
    (version o) s (owner_private_key o) (data_plain o) (data_decrypted o) (next_seal_version o).
Definition set_next (v : option Z) (o : okb K P) : okb K P :=
  mkOKB _ _ (address o) (data o) (validated o) (data_changed o) (salt o) (owner_key o)
    (version o) (signature o) (owner_private_key o) (data_plain o) (data_decrypted o) v.

Definition upd_okb (f : okb K P -> okb K P) b : acb K P :=
  mkACB _ _ (f (okb_of b)) (editor b) (owner_token b) (acl_changed b) (acl_entries b)
    (acl_group_entries b) (group_version b) (data_version b) (data_signature b)
    (world_readable b) (world_writable b) (deleted b) (sign_key b) (seal_version b) (part b).
Definition set_editor (i : Z) b : acb K P :=
  mkACB _ _ (okb_of b) i (owner_token b) (acl_changed b) (acl_entries b)
    (acl_group_entries b) (group_version b) (data_version b) (data_signature b)
    (world_readable b) (world_writable b) (deleted b) (sign_key b) (seal_version b) (part b).
Definition set_owner_token (t : bytes) b : acb K P :=
  mkACB _ _ (okb_of b) (editor b) t (acl_changed b) (acl_entries b)
    (acl_group_entries b) (group_version b) (data_version b) (data_signature b)
    (world_readable b) (world_writable b) (deleted b) (sign_key b) (seal_version b) (part b).
Definition set_acl_changed (c : bool) b : acb K P :=
  mkACB _ _ (okb_of b) (editor b) (owner_token b) c (acl_entries b)
    (acl_group_entries b) (group_version b) (data_version b) (data_signature b)
    (world_readable b) (world_writable b) (deleted b) (sign_key b) (seal_version b) (part b).
Definition set_entries (l : list (ACLEntry K)) b : acb K P :=
  mkACB _ _ (okb_of b) (editor b) (owner_token b) (acl_changed b) l
    (acl_group_entries b) (group_version b) (data_version b) (data_signature b)
    (world_readable b) (world_writable b) (deleted b) (sign_key b) (seal_version b) (part b).
Definition set_groups (l : list (ACLEntry K)) (vs : list Z) b : acb K P :=
  mkACB _ _ (okb_of b) (editor b) (owner_token b) (acl_changed b) (acl_entries b)
    l vs (data_version b) (data_signature b)
    (world_readable b) (world_writable b) (deleted b) (sign_key b) (seal_version b) (part b).
Definition set_data_version (v : Z) b : acb K P :=
  mkACB _ _ (okb_of b) (editor b) (owner_token b) (acl_changed b) (acl_entries b)
    (acl_group_entries b) (group_version b) v (data_signature b)
    (world_readable b) (world_writable b) (deleted b) (sign_key b) (seal_version b) (part b).
Definition set_data_signature (s : bytes) b : acb K P :=
  mkACB _ _ (okb_of b) (editor b) (owner_token b) (acl_changed b) (acl_entries b)
    (acl_group_entries b) (group_version b) (data_version b) s
    (world_readable b) (world_writable b) (deleted b) (sign_key b) (seal_version b) (part b).
Definition set_world (r w : bool) b : acb K P :=
  mkACB _ _ (okb_of b) (editor b) (owner_token b) (acl_changed b) (acl_entries b)
    (acl_group_entries b) (group_version b) (data_version b) (data_signature b)
    r w (deleted b) (sign_key b) (seal_version b) (part b).
Definition set_deleted (d : bool) b : acb K P :=
  mkACB _ _ (okb_of b) (editor b) (owner_token b) (acl_changed b) (acl_entries b)
    (acl_group_entries b) (group_version b) (data_version b) (data_signature b)
    (world_readable b) (world_writable b) d (sign_key b) (seal_version b) (part b).
Definition set_sign_key (k : option P) b : acb K P :=
  mkACB _ _ (okb_of b) (editor b) (owner_token b) (acl_changed b) (acl_entries b)
    (acl_group_entries b) (group_version b) (data_version b) (data_signature b)
    (world_readable b) (world_writable b) (deleted b) k (seal_version b) (part b).
Definition set_seal_version (v : Version.t) b : acb K P :=
  mkACB _ _ (okb_of b) (editor b) (owner_token b) (acl_changed b) (acl_entries b)
    (acl_group_entries b) (group_version b) (data_version b) (data_signature b)
    (world_readable b) (world_writable b) (deleted b) (sign_key b) v (part b).
Definition set_part (g : option (group_part K)) b : acb K P :=
  mkACB _ _ (okb_of b) (editor b) (owner_token b) (acl_changed b) (acl_entries b)
    (acl_group_entries b) (group_version b) (data_version b) (data_signature b)
    (world_readable b) (world_writable b) (deleted b) (sign_key b) (seal_version b) g.

Abbreviation acb_method := (method (acb K P) error).

Definition K_ : K := public (keys dn).       (* doughnut()->keys().K() *)

(** *** OKB *)

(** OKBHeader::hash_address and OKBHeader::validate. *)
Definition hash_address (k : K) (salt : bytes) (compatibility : Version.t) : Address.t :=
  Address.with_flags (sha256 (key_json k ++ salt)) Address.flag_mutable
    (Version.geb compatibility v_0_5).
Definition validate_address o : validation :=
  if Address.equal_unflagged (address o) (hash_address (owner_key o) (salt o) (dn_version dn))
  then Success else Failure.

Definition owner_payload o : payload K :=
  OwnerSignature (salt o) (owner_key o) (version o) (data o).

(** The constructor of a block, with the keys of its owner. *)
Definition make_okb (d salt : bytes) (p : P) : okb K P :=
  mkOKB _ _ (hash_address (public p) salt (dn_version dn)) [] false true salt (public p) (-1) []
    (Some p) d true None.
Definition make_acb (d salt : bytes) (p : P) : acb K P :=
  mkACB _ _ (make_okb d salt p) (-1) [] true [] [] [] (-1) [] false false false None (dn_version dn)
    None.

(** [_seal_okb]; [p] is what [_sign] makes, which is virtual. *)
Definition seal_okb (p : okb K P -> payload K) (v : option Z) (bump : bool) :
    method (okb K P) error unit :=
  o ← Prelude.read;
  let version' := match v with
                  | Some v => v | None => if bump then version o + 1 else version o end in
  modify (set_version version');;
  match owner_private_key o with
  | None => throw Unowned
  | Some k =>
      when (validate_signatures dn) (modify (fun o => set_signature (sign k (p o)) o))
  end.

(** BaseOKB::_seal, of an OKB that is not an ACB. *)
Definition seal_plain_okb (v : option Z) : method (okb K P) error unit :=
  o ← Prelude.read;
  v ← match v, next_seal_version o with
      | None, Some n =>
          if n =? 0 then mret None else modify (set_next None);; mret (Some n)
      | _, _ => mret v
      end;
  o ← Prelude.read;
  if data_changed o then
    modify (set_okb_data (encrypt false K_ (data_plain o)));;
    seal_okb owner_payload v true;;
    modify (fun o => set_flags (validated o) false (data_decrypted o) o)
  else
    match v with Some _ => seal_okb owner_payload v true | None => mret tt end.

(** The owner part of the validation, of what [p] says is signed. That there is
    a signature is asserted in the code. *)
Definition validate_owner (p : okb K P -> payload K) o : validation :=
  match validate_address o with
  | Success =>
      if negb (validate_signatures dn) then Success
      else if verify (owner_key o) (signature o) (p o) then Success else Failure
  | r => r
  end.

(** The content, as its owner reads and changes it. *)
Definition okb_set_data (d : bytes) o : okb K P :=
  set_flags false true true (set_plain d o).
Definition okb_data (decrypt_data : okb K P -> result error bytes) : method (okb K P) error bytes :=
  o ← Prelude.read;
  if data_decrypted o then mret (data_plain o)
  else
    d ← lift (decrypt_data o);
    modify (fun o => set_flags (validated o) (data_changed o) true (set_plain d o));;
    mret d.
Definition decrypt_okb o : result error bytes :=
  match owner_private_key o with
  | None => Throw Unowned
  | Some k => match decrypt false k (data o) with Some d => Ok d | None => Throw CryptoError end
  end.

(** *** Permissions of an ACB *)

Definition find_entry (k : K) (l : list (ACLEntry K)) : option (ACLEntry K) :=
  head (filter (fun e => key e = k) l).
(** Of the first entry that has the key. *)
Fixpoint erase_entry (k : K) (l : list (ACLEntry K)) : list (ACLEntry K) :=
  match l with
  | [] => []
  | e :: l' => if decide (key e = k) then l' else e :: erase_entry k l'
  end.
Fixpoint erase_version (k : K) (l : list (ACLEntry K)) (vs : list Z) : list Z :=
  match l, vs with
  | e :: l', v :: vs' => if decide (key e = k) then vs' else v :: erase_version k l' vs'
  | _, _ => vs
  end.
Fixpoint edit_entry (k : K) (r w : bool) (l : list (ACLEntry K)) : list (ACLEntry K) :=
  match l with
  | [] => []
  | e :: l' =>
      if decide (key e = k) then mkEntry _ (key e) r w (token e) :: l'
      else e :: edit_entry k r w l'
  end.

Definition use_encrypt b : bool := Version.geb (seal_version b) v_0_7.

Definition set_permissions (k : K) (r w : bool) : acb_method unit :=
  b ← Prelude.read;
  if decide (k = owner_key (okb_of b)) then throw OwnerPermissions
  else
    match find_entry k (acl_entries b) with
    | None =>
        if negb r && negb w then mret tt
        else
          t ← (match owner_token b with
               | [] => mret []
               | _ =>
                   match owner_private_key (okb_of b) with
                   | None => throw OwnerKeyUnavailable
                   | Some p =>
                       match decrypt (use_encrypt b) p (owner_token b) with
                       | None => throw CryptoError
                       | Some secret => mret (encrypt (use_encrypt b) k secret)
                       end
                   end
               end);
          modify (fun b => set_acl_changed true
            (set_entries (acl_entries b ++ [mkEntry _ k r w t]) b))
    | Some e =>
        if negb r && negb w then
          modify (fun b => set_acl_changed true (set_entries (erase_entry k (acl_entries b)) b))
        else if bool_decide (can_read e = r) && bool_decide (can_write e = w) then mret tt
        else
          modify (fun b => set_acl_changed true (set_entries (edit_entry k r w (acl_entries b)) b))
    end.

(** A group whose block cannot be fetched is noticed by its version, after the
    entry was added. *)
Definition set_group_permissions (k : K) (r w : bool) : acb_method unit :=
  b ← Prelude.read;
  match find_entry k (acl_group_entries b) with
  | None =>
      if negb r && negb w then mret tt
      else
        t ← (match owner_token b with
             | [] => mret []
             | _ =>
                 match owner_private_key (okb_of b) with
                 | None => throw NullPointer
                 | Some p =>
                     match decrypt (use_encrypt b) p (owner_token b) with
                     | None => throw GroupUnavailable
                     | Some secret =>
                         match group dn k ≫= (fun g => last (group_public_keys g)) with
                         | None => throw GroupUnavailable
                         | Some gk => mret (encrypt (use_encrypt b) gk secret)
                         end
                     end
                 end
             end);
        modify (fun b =>
          set_groups (acl_group_entries b ++ [mkEntry _ k r w t]) (group_version b) b);;
        match group dn k with
        | None => throw GroupUnavailable
        | Some g =>
            modify (fun b => set_acl_changed true (set_groups (acl_group_entries b)
              (group_version b ++ [Z.of_nat (length (group_public_keys g)) - 1]) b))
        end
  | Some e =>
      if negb r && negb w then
        modify (fun b => set_acl_changed true
          (set_groups (erase_entry k (acl_group_entries b))
             (erase_version k (acl_group_entries b) (group_version b)) b))
      else if bool_decide (can_read e = r) && bool_decide (can_write e = w) then mret tt
      else
        modify (fun b => set_acl_changed true
          (set_groups (edit_entry k r w (acl_group_entries b)) (group_version b) b))
  end.

(** [_set_permissions], of a user: [name] is the first character of its name. *)
Inductive initial := hash_sign | at_sign | other.
Definition admin_user (k : K) : bool :=
  bool_decide (k ∈ admin_r dn) || bool_decide (k ∈ admin_w dn).
Definition admin_group (k : K) : bool :=
  bool_decide (k ∈ admin_group_r dn) || bool_decide (k ∈ admin_group_w dn).
Definition set_user_permissions (k : K) (name : initial) (r w : bool) : acb_method unit :=
  if admin_user k || admin_group k then throw AdminPermissions
  else
    (match name with
     | hash_sign =>
         when (negb r && negb w) (set_group_permissions k r w);;
         set_permissions k r w
     | _ => mret tt
     end);;
    match name with
    | at_sign => set_group_permissions k r w
    | _ => set_permissions k r w
    end.

Definition set_world_permissions (r w : bool) b : acb K P :=
  if bool_decide (world_readable b = r) && bool_decide (world_writable b = w) then b
  else upd_okb (fun o => set_flags (validated o) true (data_decrypted o) o)
         (set_acl_changed true (set_world r w b)).

Fixpoint each {X} (f : X -> acb_method unit) (l : list X) : acb_method unit :=
  match l with [] => mret tt | x :: l' => f x;; each f l' end.

(** [_copy_permissions]: the method of the block they are copied to. *)
Definition copy_permissions (from : acb K P) : acb_method unit :=
  each (fun e =>
    to ← Prelude.read;
    if decide (key e = owner_key (okb_of to)) then mret tt
    else set_permissions (key e) (can_read e) (can_write e)) (acl_entries from);;
  each (fun e => set_group_permissions (key e) (can_read e) (can_write e))
    (acl_group_entries from);;
  to ← Prelude.read;
  (if decide (owner_key (okb_of to) = owner_key (okb_of from)) then mret tt
   else set_permissions (owner_key (okb_of from)) true true);;
  modify (set_world (world_readable from) (world_writable from)).

(** *** Signatures of an ACB *)

Definition right (e : ACLEntry K) : K * bool * bool := (key e, can_read e, can_write e).
Definition since_0_4 {X} (x : X) : option X :=
  if Version.geb (dn_version dn) v_0_4 then Some x else None.

Definition since_0_8 {X} (x : X) : option X :=
  if Version.geb (dn_version dn) v_0_8 then Some x else None.

(** BaseACB::OwnerSignature and BaseACB::DataSignature, and those of GB. *)
Definition acl_payload b : payload K :=
  ACLSignature (salt (okb_of b)) (owner_key (okb_of b)) (version (okb_of b))
    (right <$> acl_entries b)
    (since_0_4 (right <$> acl_group_entries b, world_readable b, world_writable b))
    (admin_keys <$> part b).
Definition data_payload b : payload K :=
  DataSignature (salt (okb_of b)) (owner_key (okb_of b)) (data_version b) (data (okb_of b))
    (owner_token b) (acl_entries b)
    (since_0_4 (acl_group_entries b, group_version b, deleted b))
    ((fun g => (public_keys g, since_0_8 (description g))) <$> part b).

(** *** Validation of an ACB *)

Definition has_key (k : K) (l : list (ACLEntry K)) (w : bool) : bool :=
  existsb (fun e => bool_decide (key e = k) && can_read e && (can_write e || negb w)) l.

Definition validate_admin_keys b : validation :=
  let ok (l : list (ACLEntry K)) (w : bool) (k : K) :=
    bool_decide (k = owner_key (okb_of b)) || has_key k l w in
  if forallb (ok (acl_entries b) false) (admin_r dn) &&
     forallb (ok (acl_entries b) true) (admin_w dn) &&
     forallb (ok (acl_group_entries b) false) (admin_group_r dn) &&
     forallb (ok (acl_group_entries b) true) (admin_group_w dn)
  then Success else Failure.

(** Who the editor is: the owner, the entry of a user, or that of a group with
    its index. *)
Inductive author {K : Type} :=
  | Owner
  | User (e : ACLEntry K)
  | Group (e : ACLEntry K) (index : nat).
Arguments author K : clear implicits.

Definition author_of b : option (author K) :=
  if editor b =? -1 then Some Owner
  else if editor b <? 0 then None
  else
    let i := Z.to_nat (editor b) in
    match acl_entries b !! i with
    | Some e => if can_write e then Some (User e) else None
    | None =>
        let g := (i - length (acl_entries b))%nat in
        match acl_group_entries b !! g with
        | Some e => if can_write e then Some (Group e g) else None
        | None => None
        end
    end.

(** The key the author signed with. The index of a negative version of a group
    is out of the bounds of a vector. *)
Definition author_key b (a : author K) : option K :=
  match a with
  | Owner => Some (owner_key (okb_of b))
  | User e => Some (key e)
  | Group e g =>
      match group dn (key e), group_version b !! g with
      | Some info, Some v => if v <? 0 then None else group_public_keys info !! Z.to_nat v
      | _, _ => None
      end
  end.

(** [_validate]. *)
Definition validate_acb b (writing : bool) : validation :=
  match validate_owner (fun _ => acl_payload b) (okb_of b) with
  | Success =>
      if world_writable b then Success
      else
        match author_of b with
        | None => Failure
        | Some a =>
            let signed :=
              if negb (validate_signatures dn) then true
              else match author_key b a with
                   | Some k => verify k (data_signature b) (data_payload b)
                   | None => false
                   end in
            if negb signed then Failure
            else if writing then validate_admin_keys b else Success
        end
  | r => r
  end.

(** Block::validate remembers a success. *)
Definition validate (b : acb K P) (writing : bool) : validation * acb K P :=
  if validated (okb_of b) then (Success, b)
  else
    let r := validate_acb b writing in
    (r, upd_okb (fun o => set_flags (match r with Success => true | _ => false end)
                            (data_changed o) (data_decrypted o) o) b).

(** [_validate] of a block that replaces this one: the key of a group does not
    go back. The inner loop stops at the first group that has the key. *)
Fixpoint version_of_group (k : K) (l : list (ACLEntry K)) (vs : list Z) : option Z :=
  match l, vs with
  | e :: l', v :: vs' => if decide (key e = k) then Some v else version_of_group k l' vs'
  | _, _ => None
  end.
Fixpoint downgraded (l : list (ACLEntry K)) (vs : list Z) (b' : acb K P) : bool :=
  match l, vs with
  | e :: l', v :: vs' =>
      match version_of_group (key e) (acl_group_entries b') (group_version b') with
      | Some v' => v' <? v
      | None => false
      end || downgraded l' vs' b'
  | _, _ => false
  end.
Definition validate_next b (b' : acb K P) : validation :=
  if negb (Address.eqb (address (okb_of b)) (address (okb_of b'))) then Failure
  else if negb (Nat.eqb (length (group_version b')) (length (acl_group_entries b'))) then Failure
  else if downgraded (acl_group_entries b) (group_version b) b' then Conflicting
  else Success.

(** [_validate_remove], with the block of the signature, if it is one. *)
Definition validate_acb_remove b (rs : option (acb K P)) : validation :=
  match rs with
  | None => Failure
  | Some mb =>
      if negb (deleted mb) then Failure
      else
        match (validate mb true).1 with
        | Success =>
            if data_version mb <=? data_version b then Conflicting else validate_next b mb
        | r => r
        end
  end.

(** *** Sealing an ACB *)

Definition on_okb {X} (m : method (okb K P) error X) : acb_method X :=
  fun b => let '(r, o) := m (okb_of b) in (r, upd_okb (fun _ => o) b).

(** Super::_seal_okb, with the signature of an ACB. *)
Definition seal_owner (v : option Z) (bump : bool) : acb_method unit :=
  b ← Prelude.read;
  on_okb (seal_okb (fun o => acl_payload (upd_okb (fun _ => o) b)) v bump).

Definition unless_owner (m : K -> acb_method unit) (k : K) : acb_method unit :=
  b ← Prelude.read;
  if decide (k = owner_key (okb_of b)) then mret tt else m k.
Definition enforce_admin_keys : acb_method unit :=
  each (unless_owner (fun k => set_permissions k true false)) (admin_r dn);;
  each (unless_owner (fun k => set_permissions k true true)) (admin_w dn);;
  each (unless_owner (fun k => set_group_permissions k true false)) (admin_group_r dn);;
  each (unless_owner (fun k => set_group_permissions k true true)) (admin_group_w dn).

(** The editor and the key it signs with, as they are found. *)
Definition found : Type := Z * option P.
Definition owner_signs b (f : found) : found :=
  match owner_private_key (okb_of b) with Some p => (-1, Some p) | None => f end.
Definition world_signs b (f : found) : found :=
  match f.2 with
  | None => if world_writable b then (f.1, Some (keys dn)) else f
  | Some _ => f
  end.

(** The loops over the entries when the data changed: the first user that is
    us, then the first group we are a member of. *)
Fixpoint first_user (l : list (ACLEntry K)) (idx : Z) (f : found) : found :=
  match l with
  | [] => f
  | e :: l' =>
      first_user l' (idx + 1)
        (match f.2 with
         | None => if decide (key e = K_) then (idx, Some (keys dn)) else f
         | Some _ => f
         end)
  end.
Definition current_key (k : K) : option P :=
  match group dn k with
  | Some g => match group_keys g with Some ks => last ks | None => None end
  | None => None
  end.
Fixpoint first_group (l : list (ACLEntry K)) (idx : Z) (f : found) : found :=
  match l with
  | [] => f
  | e :: l' =>
      first_group l' (idx + 1)
        (match f.2 with
         | None => match current_key (key e) with Some p => (idx, Some p) | None => f end
         | Some _ => f
         end)
  end.

(** The tokens of those who may read. *)
Definition token_of (encrypted : bool) (secret : bytes) (k : K) (e : ACLEntry K) : ACLEntry K :=
  mkEntry _ (key e) (can_read e) (can_write e) (encrypt encrypted k secret).
Definition user_tokens (encrypted : bool) (secret : bytes) (l : list (ACLEntry K)) :
    list (ACLEntry K) :=
  (fun e => if can_read e then token_of encrypted secret (key e) e else e) <$> l.
Fixpoint group_tokens (encrypted : bool) (secret : bytes) (l : list (ACLEntry K)) (vs : list Z) :
    list (ACLEntry K) * list Z :=
  match l with
  | [] => ([], vs)
  | e :: l' =>
      let '(l'', vs'') := group_tokens encrypted secret l' (tail vs) in
      match group dn (key e) with
      | Some g =>
          match can_read e, last (group_public_keys g) with
          | true, Some gk =>
              (token_of encrypted secret gk e :: l'',
               match vs with
               | [] => []
               | _ => Z.of_nat (length (group_public_keys g)) - 1 :: vs''
               end)
          | _, _ => (e :: l'', match vs with [] => [] | v :: _ => v :: vs'' end)
          end
      | None => (e :: l'', match vs with [] => [] | v :: _ => v :: vs'' end)
      end
  end.

(** The data changed: a new secret is made, unless there is one, and given to
    those who may read. [env] is TOKEN_ENCRYPT. *)
Definition seal_data (env : bool) (secret : bytes) (f : found) : acb_method found :=
  modify (fun b => set_data_version (data_version b + 1) b);;
  b ← Prelude.read;
  let v := if env then dn_version dn
           else if Version.ltb (dn_version dn) (Version.make 0 6 0) then dn_version dn
           else Version.make 0 6 0 in
  let enc := Version.geb v v_0_7 in
  let n := Z.of_nat (length (acl_entries b)) in
  let f := first_group (acl_group_entries b) n
             (first_user (acl_entries b) 0 (owner_signs b f)) in
  let '(groups, versions) := group_tokens enc secret (acl_group_entries b) (group_version b) in
  modify (fun b =>
    set_editor f.1 (set_groups groups versions (set_entries (user_tokens enc secret (acl_entries b))
      (set_owner_token (encrypt enc (owner_key (okb_of b)) secret) (set_seal_version v b)))));;
  b ← Prelude.read;
  modify (upd_okb (fun o => set_flags (validated o) false (data_decrypted o)
    (set_okb_data (if world_readable b then data_plain o else encipher secret (data_plain o)) o)));;
  mret (world_signs b f).

(** The loops when it remains to find who signs: the last user that is us, and
    the last group, whose index does not move. *)
Fixpoint last_user (l : list (ACLEntry K)) (idx : Z) (f : found) : found :=
  match l with
  | [] => f
  | e :: l' =>
      last_user l' (idx + 1) (if decide (key e = K_) then (idx, Some (keys dn)) else f)
  end.
Fixpoint last_group (l : list (ACLEntry K)) (idx : Z) (f : found) : found :=
  match l with
  | [] => f
  | e :: l' =>
      last_group l' idx (match current_key (key e) with Some p => (idx, Some p) | None => f end)
  end.
Definition unless_found (f : found) (g : found -> found) : found :=
  match f.2 with Some _ => f | None => g f end.

Definition sign_data (f : found) : acb_method unit :=
  b ← Prelude.read;
  let f := unless_found f (owner_signs b) in
  let f := unless_found f (last_user (acl_entries b) 0) in
  let f := unless_found f (last_group (acl_group_entries b) (Z.of_nat (length (acl_entries b)))) in
  let f := world_signs b f in
  modify (set_editor f.1);;
  match f.2 with
  | None => throw NotWritable
  | Some p =>
      b ← Prelude.read;
      when (validate_signatures dn) (modify (set_data_signature (sign p (data_payload b))));;
      modify (set_sign_key (Some p))
  end.

(** The signatures that were being made when the block was stored. *)
Definition restart_signatures : acb_method unit :=
  b ← Prelude.read;
  (if validate_signatures dn && bool_decide (data_signature b = []) then
     match sign_key b with
     | None => throw AssertError
     | Some p => modify (set_data_signature (sign p (data_payload b)))
     end
   else mret tt);;
  b ← Prelude.read;
  when (validate_signatures dn && bool_decide (signature (okb_of b) = []))
    (seal_owner None false).

(** The version that is asked, or the one kept for the next seal. *)
Definition asked_version (v : option Z) : acb_method (option Z) :=
  b ← Prelude.read;
  match v, next_seal_version (okb_of b) with
  | None, Some n =>
      if n =? 0 then mret None else modify (upd_okb (set_next None));; mret (Some n)
  | _, _ => mret v
  end.

(** The list changed: the owner signs it. *)
Definition seal_acl (changed : bool) : acb_method found :=
  b ← Prelude.read;
  let f := owner_signs b (editor b, None) in
  modify (fun b => set_editor f.1 (set_acl_changed false b));;
  seal_owner None true;;
  when (negb changed) (modify (fun b => set_data_version (data_version b + 1) b));;
  mret f.

(** [_seal]; [secret] is the one given, or that is generated. *)
Definition seal (env : bool) (v : option Z) (secret : bytes) : acb_method unit :=
  v ← asked_version v;
  enforce_admin_keys;;
  b ← Prelude.read;
  let acl := acl_changed b in
  let changed := data_changed (okb_of b) in
  f ← (if acl then seal_acl changed else mret (editor b, None));
  f ← (if changed then seal_data env secret f else mret f);
  (if acl || changed || bool_decide (is_Some v) then
     (match v with Some n => modify (set_data_version n) | None => mret tt end);;
     sign_data f
   else mret tt);;
  restart_signatures.

(** *** Reading an ACB *)

(** The secret a group gives us, if any: the last that does is used. *)
Fixpoint group_secret (enc : bool) (l : list (ACLEntry K)) (vs : list Z) (secret : bytes) : bytes :=
  match l, vs with
  | e :: l', v :: vs' =>
      group_secret enc l' vs'
        (match group dn (key e) with
         | Some (mkGroup _ _ _ (Some ks)) =>
             match (if v <? 0 then None else ks !! Z.to_nat v) with
             | Some p => default secret (decrypt enc p (token e))
             | None => secret
             end
         | _ => secret
         end)
  | _, _ => secret
  end.
Fixpoint user_secret (enc : bool) (l : list (ACLEntry K)) (secret : bytes) : option bytes :=
  match l with
  | [] => Some secret
  | e :: l' =>
      if decide (key e = K_)
      then s ← decrypt enc (keys dn) (token e); user_secret enc l' s
      else user_secret enc l' secret
  end.

Definition decrypt_acb b : result error bytes :=
  if world_readable b then Ok (data (okb_of b))
  else
    match (match owner_private_key (okb_of b) with
           | Some p => decrypt (use_encrypt b) p (owner_token b)
           | None => user_secret (use_encrypt b) (acl_entries b) []
           end) with
    | None => Throw CryptoError
    | Some s =>
        match (if bool_decide (s = [])
               then group_secret (use_encrypt b) (acl_group_entries b) (group_version b) []
               else s) with
        | [] => Throw NotReadable
        | s =>
            match decipher s (data (okb_of b)) with
            | Some d => Ok d
            | None => Throw CryptoError
            end
        end
    end.

(** A block that comes in a serialization of version [v], which is not before
    0.4.0: what is not serialized is as the constructors leave it. *)
Definition received_okb (v : Version.t) o : okb K P :=
  let plain := Version.geb v (Version.make 0 8 0) && bool_decide (data o = []) in
  mkOKB _ _ (address o) (data o) false plain (salt o) (owner_key o) (version o) (signature o)
    (if decide (owner_key o = K_) then Some (keys dn) else None)
    (if plain then data_plain o else []) false
    (if Version.geb v (Version.make 0 8 0) then next_seal_version o else None).
Definition received (v : Version.t) b : acb K P :=
  mkACB _ _ (received_okb v (okb_of b)) (editor b) (owner_token b) false (acl_entries b)
    (acl_group_entries b) (group_version b) (data_version b) (data_signature b)
    (world_readable b) (world_writable b) (deleted b) None
    (if Version.geb v v_0_7 then seal_version b else Version.make 0 6 0)
    ((fun g => mkPart _ (public_keys g) (admin_keys g)
                 (if Version.geb v v_0_8 then description g else None)) <$> part b).

(** A copy has everything but the version kept for the next seal. *)
Definition clone b : acb K P := upd_okb (set_next None) b.

(** [_sign_remove]: the block of the signature. *)
Definition sign_remove (env : bool) (secret : bytes) b : result error unit * acb K P :=
  seal env None secret
    (set_deleted true
       (upd_okb (fun o => set_flags (validated o) true (data_decrypted o) o) (clone b))).

(** ACLEntry::operator ==. *)
Definition entry_eqb (e e' : ACLEntry K) : bool :=
  bool_decide (key e = key e') && bool_decide (can_read e = can_read e') &&
  can_write e && can_write e' && bool_decide (token e = token e').
End Blocks.
End Blocks.
