(* ===== verification/BlockProperties.v ===== *)
(** What mutable blocks promise: who can write them and read them.

    The laws of cryptography that are used are [LawfulCrypto], and
    [Unforgeable] where it matters that nobody else can sign. *)

From stdpp Require Import base tactics option list sets.
From Stdlib Require Import ZArith Lia.
From S2P Require Import Prelude Versions Buffers Streams Addresses Nodes Signatures Blocks.
Import Signatures Blocks.
Open Scope Z_scope.

(** The cases of a method of a block. *)
Ltac by_cases :=
  unfold mbind, method_bind, modify, throw, lift, mret, method_ret in *; cbn beta iota in *;
  repeat (match goal with
          | H : context [match ?x with _ => _ end] |- _ => destruct x eqn:?
          | H : context [if decide ?x then _ else _] |- _ => destruct (decide x)
          end; simplify_eq/=).

Section Properties.
Context {K P : Type} `{EqDecision K} `{EqDecision P} `{!Crypto K P} `{!LawfulCrypto K P}.
Context (dn : doughnut K P).

Implicit Types (b : acb K P) (e : ACLEntry K) (l : list (ACLEntry K)).

(** *** Entries *)

Abbreviation keys_of l := (key <$> l).

Lemma find_entry_cons k e l :
  find_entry k (e :: l) = if decide (key e = k) then Some e else find_entry k l.
Proof.
  unfold find_entry. destruct (decide (key e = k)).
  - by rewrite filter_cons_True.
  - by rewrite filter_cons_False.
Qed.

Lemma find_entry_app k l l' :
  find_entry k (l ++ l') = match find_entry k l with Some e => Some e | None => find_entry k l' end.
Proof.
  induction l as [|e l IH]; [done|]. cbn [app]. rewrite !find_entry_cons, IH.
  by case_decide.
Qed.

Lemma find_entry_key k l e : find_entry k l = Some e -> key e = k /\ e ∈ l.
Proof.
  induction l as [|e' l IH]; [done|]. rewrite find_entry_cons. case_decide.
  - intros [= ->]. split; [done|by left].
  - intros E. destruct (IH E). split; [done|by right].
Qed.

Lemma find_entry_None k l : find_entry k l = None <-> ~ k ∈ keys_of l.
Proof.
  induction l as [|e l IH]; [set_solver|]. rewrite find_entry_cons, fmap_cons, elem_of_cons.
  case_decide; [naive_solver|]. rewrite IH. naive_solver.
Qed.

Lemma edit_entry_keys k r w l : keys_of (edit_entry k r w l) = keys_of l.
Proof. induction l as [|e l IH]; [done|]. cbn. case_decide; cbn; congruence. Qed.

Lemma find_edit k r w l k' :
  find_entry k' (edit_entry k r w l) =
  if decide (k' = k) then (fun e => mkEntry _ (key e) r w (token e)) <$> find_entry k l
  else find_entry k' l.
Proof.
  induction l as [|e l IH]; cbn [edit_entry].
  - unfold find_entry. cbn. by case_decide.
  - rewrite (find_entry_cons k), (find_entry_cons k' e).
    destruct (decide (key e = k)) as [<-|N]; rewrite find_entry_cons; cbn [key].
    + destruct (decide (k' = key e)) as [->|]; [by rewrite decide_True|].
      by rewrite !(decide_False (P := key e = k')) by congruence.
    + rewrite IH. destruct (decide (key e = k')), (decide (k' = k)); congruence.
Qed.

Lemma erase_incl k l : forall x, x ∈ keys_of (erase_entry k l) -> x ∈ keys_of l.
Proof.
  induction l as [|e l IH]; intros x; [done|]. cbn [erase_entry]. case_decide.
  - rewrite fmap_cons. by right.
  - rewrite !fmap_cons, !elem_of_cons. naive_solver.
Qed.

Lemma erase_nodup k l : NoDup (keys_of l) -> NoDup (keys_of (erase_entry k l)).
Proof.
  induction l as [|e l IH]; [done|]. rewrite fmap_cons. intros [NI ND]%NoDup_cons.
  cbn [erase_entry]. case_decide; [done|]. rewrite fmap_cons. constructor; [|by apply IH].
  intros I. by apply NI, (erase_incl k).
Qed.

Lemma find_erase k l k' : NoDup (keys_of l) ->
  find_entry k' (erase_entry k l) = if decide (k' = k) then None else find_entry k' l.
Proof.
  induction l as [|e l IH].
  - intros _. unfold find_entry. cbn. by case_decide.
  - rewrite fmap_cons. intros [NI ND]%NoDup_cons. cbn [erase_entry].
    rewrite (find_entry_cons k' e).
    destruct (decide (key e = k)) as [E|N].
    + destruct (decide (k' = k)) as [->|N']; [|by rewrite decide_False by congruence].
      apply find_entry_None. congruence.
    + rewrite find_entry_cons, (IH ND). by repeat case_decide; subst.
Qed.

(** *** Permissions *)

(** What a user may do, by the list. *)
Definition permission (k : K) b : option (bool * bool) :=
  (fun e => (can_read e, can_write e)) <$> find_entry k (acl_entries b).

(** A block whose owner is here, or whose data was never sealed. *)
Definition owned b : Prop :=
  owner_token b = [] \/
  exists p s, owner_private_key (okb_of b) = Some p /\
    decrypt (use_encrypt b) p (owner_token b) = Some s.

(** Only the list of users differs. *)
Definition but_entries b b' : Prop :=
  b' = set_acl_changed (acl_changed b') (set_entries (acl_entries b') b).

Lemma set_permissions_cases k r w b : owned b -> k <> owner_key (okb_of b) ->
  exists t b', set_permissions k r w b = (Ok tt, b') /\
  acl_entries b' =
    match find_entry k (acl_entries b) with
    | None => if r || w then acl_entries b ++ [mkEntry _ k r w t] else acl_entries b
    | Some e =>
        if r || w then edit_entry k r w (acl_entries b) else erase_entry k (acl_entries b)
    end /\
  but_entries b b' /\ (acl_changed b' = acl_changed b /\ acl_entries b' = acl_entries b \/
                       acl_changed b' = true).
Proof.
  intros Ow Nk. unfold set_permissions. rewrite bind_read, decide_False by done.
  destruct (find_entry k (acl_entries b)) as [e|] eqn:E.
  - exists []. destruct (negb r && negb w) eqn:RW.
    + apply andb_true_iff in RW as [->%negb_true_iff ->%negb_true_iff].
      eexists. split; [done|]. split; [done|]. split; [done|]. by right.
    + assert (r || w = true) as -> by (by destruct r, w).
      destruct (bool_decide _ && bool_decide _) eqn:Same.
      * apply andb_true_iff in Same as [R%bool_decide_eq_true W%bool_decide_eq_true].
        assert (edit_entry k r w (acl_entries b) = acl_entries b) as EE.
        { clear -E R W. induction (acl_entries b) as [|e' l IH]; [done|]. cbn.
          rewrite find_entry_cons in E. case_decide.
          - injection E as ->. rewrite <- R, <- W. by destruct e.
          - by rewrite IH. }
        exists b. split; [done|]. split; [done|]. split; [by destruct b|]. by left.
      * eexists. split; [done|]. split; [done|]. split; [done|]. by right.
  - destruct (negb r && negb w) eqn:RW.
    + apply andb_true_iff in RW as [->%negb_true_iff ->%negb_true_iff].
      exists [], b. split; [done|]. split; [done|]. split; [by destruct b|]. by left.
    + assert (r || w = true) as -> by (by destruct r, w).
      assert (exists t, (match owner_token b with
               | [] => mret []
               | _ =>
                   match owner_private_key (okb_of b) with
                   | None => throw OwnerKeyUnavailable
                   | Some p =>
                       match decrypt (use_encrypt b) p (owner_token b) with
                       | None => throw CryptoError
                       | Some secret => mret (encrypt (use_encrypt b) k secret)
                       end
                   end
               end : method (acb K P) error bytes) b = (Ok t, b)) as [t Et].
      { destruct Ow as [->|(p & s & -> & ->)]; [by eexists|].
        destruct (owner_token b); by eexists. }
      exists t. eexists. split; [by rewrite (bind_Ok _ _ _ _ _ Et)|].
      split; [done|]. split; [done|]. by right.
Qed.
(** *** Coherence: what is pending is marked *)

Definition identity (o : okb K P) : Address.t * bytes * K * option P * bytes :=
  (address o, salt o, owner_key o, owner_private_key o, data_plain o).

(** The list was not touched, or is marked. *)
Definition touched b b' : Prop :=
  b' = b \/ acl_changed b' = true /\ okb_of b' = okb_of b.

Lemma touched_trans b1 b2 b3 : touched b1 b2 -> touched b2 b3 -> touched b1 b3.
Proof.
  intros [->|[A1 I1]] [->|[A2 I2]]; [by left| by right.. |].
  right. split; [done|congruence].
Qed.

Lemma set_permissions_entries k r w b x b' : set_permissions k r w b = (x, b') ->
  b' = b \/ exists l, b' = set_acl_changed true (set_entries l b).
Proof.
  unfold set_permissions. rewrite bind_read. intros E.
  destruct (decide _); [by injection E as _ <-; left|].
  destruct (find_entry _ _).
  - by_cases; (by left) || (by right; eexists).
  - destruct (negb r && negb w); [by injection E as _ <-; left|].
    by_cases; (by left) || (by right; eexists).
Qed.

Lemma set_permissions_touched k r w b x b' :
  set_permissions k r w b = (x, b') -> touched b b'.
Proof. intros [->|[l ->]]%set_permissions_entries; [by left|by right]. Qed.

Lemma set_group_permissions_touched k r w b b' :
  set_group_permissions dn k r w b = (Ok tt, b') -> touched b b'.
Proof.
  unfold set_group_permissions. rewrite bind_read. intros E.
  destruct (find_entry _ _).
  - by_cases; (by left) || (by right).
  - destruct (negb r && negb w); [by injection E as <-; left|].
    by_cases; (by left) || (by right).
Qed.

Lemma each_touched {X} (f : X -> method (acb K P) error unit) (l : list X) b b' :
  (forall x b b', f x b = (Ok tt, b') -> touched b b') ->
  each f l b = (Ok tt, b') -> touched b b'.
Proof.
  intros F. revert b. induction l as [|x l IH]; intros b E; cbn in E.
  - injection E as <-. by left.
  - apply bind_Ok_inv in E as ([] & b1 & E1 & E2).
    eapply touched_trans; [by eapply F|by eapply IH].
Qed.

Lemma unless_owner_touched (f : K -> method (acb K P) error unit) (l : list K) b b' :
  (forall k b b', f k b = (Ok tt, b') -> touched b b') ->
  each (unless_owner f) l b = (Ok tt, b') -> touched b b'.
Proof.
  intros F. apply each_touched. intros k b3 b4. unfold unless_owner. rewrite bind_read.
  case_decide; [intros [= <-]; by left|apply F].
Qed.

Lemma enforce_touched b b' : enforce_admin_keys dn b = (Ok tt, b') -> touched b b'.
Proof.
  unfold enforce_admin_keys. intros E.
  bind_inv E. destruct a. bind_inv H0. destruct a. bind_inv H2. destruct a.
  eapply touched_trans; [|eapply touched_trans; [|eapply touched_trans]];
    (eapply unless_owner_touched; [|eassumption]);
    intros *; apply set_permissions_touched || apply set_group_permissions_touched.
Qed.

Definition owner_ok b : Prop :=
  validate_owner dn (fun _ => acl_payload dn b) (okb_of b) = Success.
Definition author_ok b : Prop :=
  world_writable b = true \/
  exists a, author_of b = Some a /\
    (validate_signatures dn = true -> exists k, author_key dn b a = Some k /\
       verify k (data_signature b) (data_payload dn b) = true).

Lemma validate_owner_iff m (o : okb K P) : validate_owner dn m o = Success <->
  validate_address dn o = Success /\
  (validate_signatures dn = true -> verify (owner_key o) (signature o) (m o) = true).
Proof.
  unfold validate_owner. destruct (validate_address dn o); try naive_solver.
  destruct (validate_signatures dn); cbn; [|naive_solver].
  destruct (verify _ _ _); naive_solver.
Qed.

Lemma validate_acb_iff b w : validate_acb dn b w = Success <->
  owner_ok b /\ author_ok b /\
  (w = true -> world_writable b = false -> validate_admin_keys dn b = Success).
Proof.
  unfold validate_acb, owner_ok, author_ok.
  destruct (validate_owner _ _ _); [|by split; [|intros [? _]]..].
  destruct (world_writable b); [by split; [intros _; repeat split; try left|]|].
  destruct (author_of b) as [a|]; [|by split; [|intros (_ & [?|(? & ? & _)] & _)]].
  set (signed := if negb _ then true else _).
  assert (signed = true <-> (validate_signatures dn = true -> exists k,
    author_key dn b a = Some k /\ verify k (data_signature b) (data_payload dn b) = true)) as I.
  { subst signed. destruct (validate_signatures dn); cbn; [|naive_solver].
    destruct (author_key dn b a); naive_solver. }
  clearbody signed. destruct signed; cbn.
  - assert (forall X : Prop, X <-> True /\ (false = true \/ exists a', Some a = Some a' /\
      (validate_signatures dn = true -> exists k, author_key dn b a' = Some k /\
        verify k (data_signature b) (data_payload dn b) = true)) /\ X) as ->.
    { intros X. split; [|tauto]. intros HX. split; [done|]. split; [|done]. right.
      exists a. split; [done|]. by apply I. }
    destruct w; naive_solver.
  - split; [done|]. intros (_ & [|(a' & [= <-] & Q)] & _); [done|]. by apply I in Q.
Qed.

(** The invariant of a block: what is not marked as changed is signed. *)
Definition coherent b : Prop :=
  validate_address dn (okb_of b) = Success /\
  (acl_changed b = false -> owner_ok b) /\
  (acl_changed b = false -> data_changed (okb_of b) = false -> author_ok b).

Lemma identity_address o o' : identity o' = identity o ->
  validate_address dn o' = validate_address dn o.
Proof. unfold identity. intros [= E1 E2 E3 E4 E5]. unfold validate_address. by rewrite E1, E2, E3. Qed.

Lemma touched_coherent b b' : coherent b -> touched b b' -> coherent b'.
Proof.
  intros C [->|[A I]]; [done|]. destruct C as [C _].
  split; [by rewrite I|]. split; congruence.
Qed.
(** *** Sealing *)

Definition lists b :=
  (right <$> acl_entries b, right <$> acl_group_entries b, world_readable b, world_writable b, part b).

(** The block is the same but for what a seal makes. *)
Definition kept b b' : Prop :=
  identity (okb_of b') = identity (okb_of b) /\ lists b' = lists b.

Lemma kept_trans b1 b2 b3 : kept b1 b2 -> kept b2 b3 -> kept b1 b3.
Proof. unfold kept. intuition congruence. Qed.

Lemma kept_payload b b' : kept b b' -> version (okb_of b') = version (okb_of b) ->
  acl_payload dn b' = acl_payload dn b.
Proof.
  unfold kept, identity, lists, acl_payload. intros [[= ? ? ? ? ?] [= ? ? ? ? ?]] ?. congruence.
Qed.

Lemma kept_owner b b' : kept b b' -> version (okb_of b') = version (okb_of b) ->
  signature (okb_of b') = signature (okb_of b) -> owner_ok b -> owner_ok b'.
Proof.
  intros Kp V S. unfold owner_ok. rewrite !validate_owner_iff, S, (kept_payload _ _ Kp V).
  destruct Kp as [I _]. rewrite (identity_address _ _ I). unfold identity in I.
  by injection I as _ _ -> _ _.
Qed.

Lemma asked_version_spec v b : exists v' b', asked_version v b = (Ok v', b') /\
  (b' = b \/ b' = upd_okb (set_next None) b).
Proof.
  unfold asked_version. rewrite bind_read.
  destruct v as [v|], (next_seal_version (okb_of b)) as [n|];
    try (by do 2 eexists; split; [done|left]).
  destruct (n =? 0); do 2 eexists; (split; [done|]); (by left) || (by right).
Qed.

Lemma seal_acl_spec c b f b' : seal_acl dn c b = (Ok f, b') ->
  exists p, owner_private_key (okb_of b) = Some p /\ f = (-1, Some p) /\ kept b b' /\
    acl_changed b' = false /\ data_changed (okb_of b') = data_changed (okb_of b) /\
    (validate_address dn (okb_of b) = Success -> public p = owner_key (okb_of b) -> owner_ok b').
Proof.
  unfold seal_acl, seal_owner, seal_okb, owner_signs, on_okb. rewrite bind_read.
  unfold mbind, method_bind, modify, when, Prelude.read, throw, mret, method_ret. cbn.
  destruct (owner_private_key (okb_of b)) as [p|] eqn:Op; cbn; [|done].
  intros E. exists p. destruct (validate_signatures dn) eqn:VS, c; cbn in E; injection E as <- <-.
  all: repeat (split; [done|]); cbn; intros A Pk; unfold owner_ok;
    rewrite validate_owner_iff; (split; [exact A|]); try congruence;
    intros _; cbn; rewrite <- Pk; apply verify_sign.
Qed.

Lemma user_tokens_right enc s l : right <$> user_tokens enc s l = right <$> l.
Proof.
  unfold user_tokens. rewrite <- list_fmap_compose. apply list_fmap_ext. intros i e _.
  unfold compose. by destruct (can_read e) eqn:R.
Qed.

Lemma group_tokens_right enc s l vs : right <$> (group_tokens dn enc s l vs).1 = right <$> l.
Proof.
  revert vs. induction l as [|e l IH]; intros vs; [done|]. cbn [group_tokens].
  specialize (IH (tail vs)). destruct (group_tokens _ _ _ _ _) as [l' vs'].
  by repeat case_match; cbn in *; f_equal.
Qed.
(** The seal of the data: what it finds, and what it leaves. *)
Lemma seal_data_spec env secret f b : exists b',
  seal_data dn env secret f b =
    (Ok (world_signs dn b (first_group dn (acl_group_entries b) (Z.of_nat (length (acl_entries b)))
       (first_user dn (acl_entries b) 0 (owner_signs b f)))), b') /\
  kept b b' /\ version (okb_of b') = version (okb_of b) /\
  signature (okb_of b') = signature (okb_of b) /\ acl_changed b' = acl_changed b /\
  data_changed (okb_of b') = false.
Proof.
  unfold seal_data, modify, Prelude.read, mbind, method_bind, mret, method_ret. cbn.
  set (enc := Version.geb _ _).
  pose proof (group_tokens_right enc secret (acl_group_entries b) (group_version b)) as G.
  destruct (group_tokens _ _ _ _ _) as [gs vs]. cbn [fst] in G. cbn.
  eexists. split; [done|]. repeat (split; [|done]). split; [done|].
  unfold lists. do 4 f_equal; [apply user_tokens_right|exact G].
Qed.

(** Who is found may write what [b] lists. *)
Definition signer b (f : found) : Prop :=
  match f.2 with
  | None => True
  | Some p =>
      world_writable b = true \/ f.1 = -1 /\ public p = owner_key (okb_of b) \/
      exists i e, f.1 = Z.of_nat i /\ acl_entries b !! i = Some e /\ can_write e = true /\
        key e = public p
  end.

Definition allowed b : Prop :=
  match owner_private_key (okb_of b) with
  | Some p => public p = owner_key (okb_of b)
  | None =>
      acl_group_entries b = [] /\
      forall e, e ∈ acl_entries b -> key e = K_ dn -> can_write e = true
  end.

Lemma right_lookup (l l' : list (ACLEntry K)) i e : right <$> l' = right <$> l ->
  l !! i = Some e -> exists e', l' !! i = Some e' /\ key e' = key e /\ can_write e' = can_write e.
Proof.
  intros E L. assert ((right <$> l') !! i = Some (right e)) as L'.
  { by rewrite E, list_lookup_fmap, L. }
  rewrite list_lookup_fmap in L'. destruct (l' !! i) as [e'|]; [|done].
  cbn in L'. unfold right in L'. injection L' as E1 E2 E3. by exists e'.
Qed.

Lemma signer_kept b b' f : kept b b' -> signer b f -> signer b' f.
Proof.
  intros [I L]. unfold signer. destruct (f.2) as [p|]; [|done].
  unfold identity, lists in *. injection I as _ _ -> _ _. injection L as L _ _ ->.
  intros [?|[?|(i & e & F & Li & W & Ke)]]; [by left|by right; left|].
  destruct (right_lookup _ _ _ _ L Li) as (e' & L' & K' & W'). right; right.
  exists i, e'. by rewrite K', W'.
Qed.

Lemma allowed_kept b b' : kept b b' -> allowed b -> allowed b'.
Proof.
  intros [I L]. unfold allowed, identity, lists in *. injection I as _ _ -> -> _.
  destruct (owner_private_key _); [done|]. injection L as L G _ _.
  intros [Gn A]. split; [rewrite Gn in G; by destruct (acl_group_entries b')|].
  intros e' [i L']%list_elem_of_lookup Ke.
  destruct (right_lookup _ _ _ _ (eq_sym L) L') as (e & Le & K1 & W1).
  rewrite <- W1. apply A; [by apply list_elem_of_lookup; exists i|congruence].
Qed.

Lemma first_user_found l i f p : f.2 = Some p -> first_user dn l i f = f.
Proof.
  intros F. revert i. induction l as [|e l IH]; intros i; [done|]. cbn. rewrite F. apply IH.
Qed.

Lemma first_group_found l i f p : f.2 = Some p -> first_group dn l i f = f.
Proof.
  intros F. revert i. induction l as [|e l IH]; intros i; [done|]. cbn. rewrite F. apply IH.
Qed.

Lemma first_user_spec l i f : first_user dn l i f = f \/
  exists j e, l !! j = Some e /\ key e = K_ dn /\
    first_user dn l i f = (i + Z.of_nat j, Some (keys dn)).
Proof.
  revert i f. induction l as [|e l IH]; intros i f; [by left|]. cbn.
  destruct (f.2) eqn:F.
  - left. by eapply first_user_found.
  - destruct (decide (key e = K_ dn)) as [Ke|].
    + right. exists O, e. split; [done|]. split; [done|].
      rewrite (first_user_found l (i + 1) (i, Some (keys dn)) _ eq_refl). f_equal. lia.
    + destruct (IH (i + 1) f) as [->|(j & e' & L & Ke & ->)]; [by left|].
      right. exists (S j), e'. split; [done|]. split; [done|]. f_equal. lia.
Qed.

Lemma last_user_spec l i f : last_user dn l i f = f \/
  exists j e, l !! j = Some e /\ key e = K_ dn /\
    last_user dn l i f = (i + Z.of_nat j, Some (keys dn)).
Proof.
  revert i f. induction l as [|e l IH]; intros i f; [by left|]. cbn.
  match goal with |- context [last_user _ _ _ ?f'] => destruct (IH (i + 1) f') as
    [->|(j & e' & L & Ke & ->)] end.
  - case_decide; [|by left]. right. exists O, e. split; [done|]. split; [done|].
    f_equal. lia.
  - right. exists (S j), e'. split; [done|]. split; [done|]. f_equal. lia.
Qed.
Lemma signer_user b f g i e : allowed b -> owner_private_key (okb_of b) = None ->
  acl_entries b !! i = Some e -> key e = K_ dn -> f = (Z.of_nat i, Some (keys dn)) -> g = f ->
  signer b g.
Proof.
  unfold allowed. intros A Op L Ke -> ->. rewrite Op in A. destruct A as [_ A]. right; right. exists i, e.
  split; [done|]. split; [done|]. split; [|done]. apply A; [|done].
  apply list_elem_of_lookup. by exists i.
Qed.

Lemma signer_world b f : signer b f -> signer b (world_signs dn b f).
Proof.
  unfold world_signs, signer. destruct (f.2) eqn:F; [by rewrite F|].
  destruct (world_writable b) eqn:W; [|by rewrite F]. intros _. by left.
Qed.

Lemma signer_owner b f : allowed b -> signer b f -> signer b (owner_signs b f).
Proof.
  unfold allowed, owner_signs. destruct (owner_private_key _); [|done].
  intros Pk _. right; left. done.
Qed.

Lemma first_signer b f : allowed b -> signer b f ->
  signer b (first_group dn (acl_group_entries b) (Z.of_nat (length (acl_entries b)))
       (first_user dn (acl_entries b) 0 (owner_signs b f))).
Proof.
  intros A S. pose proof (signer_owner b f A S) as S'.
  destruct (owner_private_key (okb_of b)) as [p|] eqn:Op.
  - unfold owner_signs in *. rewrite Op in *.
    by rewrite (first_user_found _ _ (-1, Some p) p), (first_group_found _ _ (-1, Some p) p).
  - assert (acl_group_entries b = []) as -> by (unfold allowed in A; rewrite Op in A; apply A).
    cbn. unfold owner_signs in *. rewrite Op in *.
    destruct (first_user_spec (acl_entries b) 0 f) as [->|(j & e & L & Ke & E)]; [done|].
    by eapply signer_user.
Qed.

Definition found_signer b (f : found) : found :=
  let f := unless_found f (owner_signs b) in
  let f := unless_found f (last_user dn (acl_entries b) 0) in
  let f := unless_found f
    (last_group dn (acl_group_entries b) (Z.of_nat (length (acl_entries b)))) in
  world_signs dn b f.

Lemma found_signer_spec b f : allowed b -> signer b f -> signer b (found_signer b f).
Proof.
  intros A S. unfold found_signer. apply signer_world. unfold unless_found.
  destruct (f.2) as [q|] eqn:F; [by rewrite !F|].
  unfold owner_signs. destruct (owner_private_key (okb_of b)) as [p|] eqn:Op.
  - cbn. right; left. unfold allowed in A. rewrite Op in A. done.
  - rewrite F.
    assert (signer b (last_user dn (acl_entries b) 0 f)) as S'.
    { destruct (last_user_spec (acl_entries b) 0 f) as [->|(j & e & L & Ke & E)]; [done|].
      by eapply signer_user. }
    assert (acl_group_entries b = []) as -> by (unfold allowed in A; rewrite Op in A; apply A).
    cbn. by destruct ((last_user dn (acl_entries b) 0 f).2).
Qed.

Lemma sign_data_spec f b b' : sign_data dn f b = (Ok tt, b') ->
  kept b b' /\ okb_of b' = okb_of b /\ acl_changed b' = acl_changed b /\
  (allowed b -> signer b f -> author_ok b').
Proof.
  unfold sign_data. rewrite bind_read.
  change (world_signs dn b _) with (found_signer b f).
  pose proof (found_signer_spec b f) as FS. revert FS.
  generalize (found_signer b f) as g. intros g FS.
  unfold modify, Prelude.read, mbind, method_bind, throw, when, mret, method_ret.
  destruct (g.2) as [p|] eqn:G; [|done].
  intros E. assert (exists s, b' = set_sign_key (Some p) (set_data_signature s (set_editor g.1 b)) /\
    (validate_signatures dn = true -> s = sign p (data_payload dn b))) as (s & -> & Es).
  { destruct (validate_signatures dn); injection E as <-; by eexists. }
  do 3 (split; [done|]). intros A S. specialize (FS A S).
  unfold signer in FS. rewrite G in FS. destruct FS as [?|[[F Pk]|(i & e & F & L & W & Pk)]].
  - by left.
  - right. exists Owner. split; [unfold author_of; cbn; by rewrite F|].
    intros VS. eexists. split; [done|]. cbn. rewrite (Es VS), <- Pk. apply verify_sign.
  - right. exists (User e). split.
    + unfold author_of. cbn. rewrite F.
      destruct (Z.eqb_spec (Z.of_nat i) (-1)); [lia|]. destruct (Z.ltb_spec (Z.of_nat i) 0); [lia|].
      by rewrite Nat2Z.id, L, W.
    + intros VS. eexists. split; [done|]. cbn. rewrite (Es VS), Pk. apply verify_sign.
Qed.

Lemma restart_spec b b' : owner_ok b -> author_ok b -> restart_signatures dn b = (Ok tt, b') ->
  owner_ok b' /\ author_ok b' /\ acl_changed b' = acl_changed b /\
  data_changed (okb_of b') = data_changed (okb_of b) /\ kept b b'.
Proof.
  intros O A. unfold restart_signatures. rewrite bind_read.
  assert (forall b, owner_ok b -> (b0 ← Prelude.read;
    when (validate_signatures dn && bool_decide (signature (okb_of b0) = []))
      (seal_owner dn None false)) b = (Ok tt, b)) as Second.
  { intros b0 O0. rewrite bind_read. unfold owner_ok in O0. rewrite validate_owner_iff in O0.
    destruct (validate_signatures dn); [|done]. cbn.
    case_bool_decide as Sg; [|done]. destruct O0 as [_ O0]. rewrite Sg, verify_nothing in O0.
    by specialize (O0 eq_refl). }
  destruct (validate_signatures dn && bool_decide (data_signature b = [])) eqn:D.
  - apply andb_true_iff in D as [VS D%bool_decide_eq_true].
    assert (world_writable b = true) as W.
    { destruct A as [|(a & _ & A)]; [done|]. destruct (A VS) as (k & _ & V).
      by rewrite D, verify_nothing in V. }
    destruct (sign_key b) as [p|]; [|done].
    rewrite (bind_Ok _ _ b tt (set_data_signature (sign p (data_payload dn b)) b) eq_refl), Second by exact O.
    intros [= <-]. split; [exact O|]. split; [by left|]. done.
  - rewrite bind_ret_l, Second by exact O. intros [= <-]. done.
Qed.

Definition sealed b : Prop :=
  acl_changed b = false /\ data_changed (okb_of b) = false /\ owner_ok b /\ author_ok b.
Lemma coherent_next b : coherent b -> coherent (upd_okb (set_next None) b).
Proof. done. Qed.

(** The three parts of a seal. *)
Definition good b (f : found) : Prop :=
  acl_changed b = false /\ owner_ok b /\ allowed b /\ signer b f.

Lemma list_is_sealed b1 b2 f b3 : allowed b1 -> touched b1 b2 -> coherent b2 ->
  (if acl_changed b2 then seal_acl dn (data_changed (okb_of b2)) else mret (editor b2, None)) b2
    = (Ok f, b3) ->
  good b3 f /\ data_changed (okb_of b3) = data_changed (okb_of b2) /\
  (acl_changed b2 = false -> b3 = b2).
Proof.
  intros A1 T C2 E. destruct (acl_changed b2) eqn:AC2.
  - destruct (seal_acl_spec _ _ _ _ E) as (p & Op & -> & Kp & AC & DC & O).
    assert (allowed b2) as A2.
    { destruct T as [->|[_ I]]; [done|].
      unfold allowed in *. rewrite Op. rewrite <- I, Op in A1. congruence. }
    assert (public p = owner_key (okb_of b2)) as Pk by (unfold allowed in A2; by rewrite Op in A2).
    split; [|done]. split; [done|]. split; [by apply O; [apply C2|]|].
    split; [by eapply allowed_kept|]. eapply signer_kept; [done|]. right; left. done.
  - injection E as <- <-. split; [|done]. split; [done|]. split; [by apply C2|].
    split; [|done]. destruct T as [->|[? _]]; [done|congruence].
Qed.

Lemma data_is_sealed env secret c b f g b' : good b f -> data_changed (okb_of b) = c ->
  (if c then seal_data dn env secret f else mret f) b = (Ok g, b') ->
  good b' g /\ data_changed (okb_of b') = false /\ (c = false -> b' = b).
Proof.
  intros (AC & O & A & S) <- E. destruct (data_changed (okb_of b)) eqn:DC.
  - destruct (seal_data_spec env secret f b) as (b1 & E1 & Kp & V & Sg & AC' & DC').
    rewrite E1 in E. injection E as <- <-. split; [|done].
    split; [congruence|]. split; [by eapply kept_owner|]. split; [by eapply allowed_kept|].
    eapply signer_kept; [done|]. by apply signer_world, first_signer.
  - by injection E as <- <-.
Qed.

Lemma signed_data_is_sealed (v : option Z) b f b' : good b f -> data_changed (okb_of b) = false ->
  ((match v with Some n => modify (set_data_version n) | None => mret tt end);;
    sign_data dn f) b = (Ok tt, b') -> sealed b'.
Proof.
  intros (AC & O & A & S) DC E. apply bind_Ok_inv in E as ([] & b1 & E1 & E).
  assert (b1 = b \/ exists n, b1 = set_data_version n b) as B1.
  { destruct v; injection E1 as <-; [right; by eexists|by left]. }
  destruct (sign_data_spec _ _ _ E) as (Kp & OK & AC' & Au).
  assert (owner_ok b1 /\ allowed b1 /\ signer b1 f /\ acl_changed b1 = false /\
    data_changed (okb_of b1) = false) as (O' & A' & S' & AC1 & D')
    by (by destruct B1 as [->|[n ->]]).
  unfold sealed. rewrite OK, AC'. repeat (split; [done|]). split; [|by apply Au].
  eapply kept_owner; [done|by rewrite OK..|done].
Qed.

Lemma seal_sealed env v secret b b' : coherent b -> allowed b ->
  seal dn env v secret b = (Ok tt, b') -> sealed b'.
Proof.
  intros C A E. unfold seal in E.
  destruct (asked_version_spec v b) as (v' & b1 & E1 & B1).
  rewrite (bind_Ok _ _ _ _ _ E1) in E. clear E1.
  assert (coherent b1 /\ allowed b1) as [C1 A1] by (by destruct B1 as [->| ->]).
  bind_inv E. destruct a as []. pose proof (enforce_touched _ _ H) as T.
  pose proof (touched_coherent _ _ C1 T) as C2. rewrite bind_read in H0.
  bind_inv H0. destruct (list_is_sealed _ _ _ _ A1 T C2 H1) as (G3 & D3 & S3).
  bind_inv H2. destruct (data_is_sealed _ _ _ _ _ _ _ G3 D3 H0) as (G4 & D4 & S4).
  bind_inv H3. destruct a1 as [].
  assert (sealed s2) as (AC & DC & O & Au).
  { destruct (acl_changed s || data_changed (okb_of s) || bool_decide (is_Some v')) eqn:W.
    - by eapply signed_data_is_sealed.
    - injection H2 as <-. apply orb_false_iff in W as [W _]. apply orb_false_iff in W as [WA WD].
      rewrite (S4 WD), (S3 WA). repeat split; try done; by apply C2. }
  destruct (restart_spec _ _ O Au H4) as (O6 & Au6 & AC6 & D6 & _).
  unfold sealed. by rewrite AC6, D6.
Qed.
(** *** What an owner does *)

Lemma permission_key k b : is_Some (permission k b) <-> k ∈ keys_of (acl_entries b).
Proof.
  unfold permission. rewrite fmap_is_Some. pose proof (find_entry_None k (acl_entries b)).
  destruct (find_entry k (acl_entries b)); [|by naive_solver].
  split; [|by eexists]. intros _. destruct (decide (k ∈ keys_of (acl_entries b))); naive_solver.
Qed.

(** A lawful block: its lists have each key once, and what is needed of its
    owner is here. *)
Definition tidy b : Prop := NoDup (keys_of (acl_entries b)) /\ owned b.

Lemma set_permissions_owned k r w b : tidy b -> k <> owner_key (okb_of b) ->
  exists b', set_permissions k r w b = (Ok tt, b') /\ tidy b' /\ touched b b' /\
    (forall k', permission k' b' =
       if decide (k' = k) then if r || w then Some (r, w) else None else permission k' b) /\
    (forall k', permission k' b' <> permission k' b -> acl_changed b' = true) /\
    acl_group_entries b' = acl_group_entries b /\ group_version b' = group_version b /\
    world_readable b' = world_readable b /\ world_writable b' = world_writable b.
Proof.
  intros [ND Ow] Nk. destruct (set_permissions_cases k r w b Ow Nk) as (t & b' & E & L & B & Ch).
  exists b'. split; [done|]. split; [split|].
  - rewrite L. destruct (find_entry k _) eqn:F, (r || w); rewrite ?edit_entry_keys; try done.
    + by apply erase_nodup.
    + rewrite fmap_app. cbn. apply NoDup_app. split; [done|]. split; [|by apply NoDup_singleton].
      intros x Ix ->%list_elem_of_singleton. by apply find_entry_None in F.
  - unfold owned. rewrite B. exact Ow.
  - split; [by eapply set_permissions_touched|].
    assert (forall k', permission k' b' =
       if decide (k' = k) then if r || w then Some (r, w) else None else permission k' b) as Pm.
    { intros k'. unfold permission. rewrite L. destruct (find_entry k _) eqn:F, (r || w) eqn:RW.
      - rewrite find_edit, F. by case_decide.
      - rewrite find_erase by done. by case_decide.
      - rewrite find_entry_app, find_entry_cons. cbn [key].
        destruct (decide (k' = k)) as [->|]; [by rewrite F, decide_True|].
        rewrite decide_False by done. by destruct (find_entry k' _).
      - destruct (decide (k' = k)) as [->|]; [by rewrite F|done]. }
    split; [done|]. rewrite B. cbn. split; [|done].
    intros k'. destruct Ch as [[_ Eq]|]; [|done]. rewrite B in Pm |- *.
    unfold permission in *. cbn. by rewrite Eq.
Qed.
Definition others b b' : Prop :=
  acl_group_entries b' = acl_group_entries b /\ group_version b' = group_version b /\
  world_readable b' = world_readable b /\ world_writable b' = world_writable b.

Lemma others_trans b1 b2 b3 : others b1 b2 -> others b2 b3 -> others b1 b3.
Proof. unfold others. intuition congruence. Qed.

Lemma touched_okb b b' : touched b b' -> okb_of b' = okb_of b.
Proof. by intros [->|[_ ?]]. Qed.

Lemma each_enforced w (l : list K) b : tidy b -> exists b',
  each (unless_owner (fun k => set_permissions k true w)) l b = (Ok tt, b') /\
  tidy b' /\ touched b b' /\ others b b' /\
  forall k, permission k b' =
    if decide (k ∈ l /\ k <> owner_key (okb_of b)) then Some (true, w) else permission k b.
Proof.
  revert b. induction l as [|k l IH]; intros b T.
  - exists b. split; [done|]. split; [done|]. split; [by left|]. split; [done|].
    intros k. rewrite decide_False; [done|]. by intros [?%not_elem_of_nil _].
  - cbn [each].
    assert (exists b1, unless_owner (fun k => set_permissions k true w) k b = (Ok tt, b1) /\
      tidy b1 /\ touched b b1 /\ others b b1 /\ forall k', permission k' b1 =
        if decide (k' = k /\ k <> owner_key (okb_of b)) then Some (true, w) else permission k' b)
      as (b1 & E1 & T1 & To1 & O1 & P1).
    { unfold unless_owner. rewrite bind_read. case_decide as Ow.
      - exists b. split; [done|]. split; [done|]. split; [by left|]. split; [done|].
        intros k'. rewrite decide_False; [done|]. naive_solver.
      - destruct (set_permissions_owned k true w b T Ow) as (b1 & E & T1 & To & Pm & _ & O).
        exists b1. split; [done|]. split; [done|]. split; [done|]. split; [done|].
        intros k'. rewrite Pm. cbn. by repeat case_decide; naive_solver. }
    destruct (IH b1 T1) as (b2 & E2 & T2 & To2 & O2 & P2).
    exists b2. split; [by rewrite (bind_Ok _ _ _ _ _ E1)|]. split; [done|].
    split; [by eapply touched_trans|]. split; [by eapply others_trans|].
    intros k'. rewrite P2, P1, (touched_okb _ _ To1).
    set (o := owner_key _).
    destruct (decide (k' ∈ l /\ k' <> o)), (decide (k' ∈ k :: l /\ k' <> o)),
      (decide (k' = k /\ k <> o)); set_solver.
Qed.

(** A group whose block can be fetched, and has a key. *)
Definition resolves (k : K) : Prop :=
  exists g gk, group dn k = Some g /\ last (group_public_keys g) = Some gk.
Definition group_permission (k : K) b : option (bool * bool) :=
  (fun e => (can_read e, can_write e)) <$> find_entry k (acl_group_entries b).

Lemma group_token k b g gk : owned b -> group dn k = Some g -> last (group_public_keys g) = Some gk ->
  exists t, (match owner_token b with
             | [] => mret []
             | _ =>
                 match owner_private_key (okb_of b) with
                 | None => throw NullPointer
                 | Some p =>
                     match decrypt (use_encrypt b) p (owner_token b) with
                     | None => throw GroupUnavailable
                     | Some secret =>
                         match group dn k ≫= (fun g => last (group_public_keys g)) with
                         | None => throw GroupUnavailable
                         | Some gk => mret (encrypt (use_encrypt b) gk secret)
                         end
                     end
                 end
             end : method (acb K P) error bytes) b = (Ok t, b).
Proof.
  intros [Ow|(p & s & Op & Ds)] G Lk; [rewrite Ow; by eexists|].
  rewrite Op, Ds, G. cbn. rewrite Lk. destruct (owner_token b); by eexists.
Qed.

Lemma set_group_permissions_owned k w b : tidy b -> resolves k -> exists b',
  set_group_permissions dn k true w b = (Ok tt, b') /\ tidy b' /\ acl_entries b' = acl_entries b /\
  forall k', group_permission k' b' =
    if decide (k' = k) then Some (true, w) else group_permission k' b.
Proof.
  intros [ND Ow] (g & gk & G & Lk). unfold set_group_permissions, group_permission. rewrite bind_read.
  destruct (find_entry k (acl_group_entries b)) as [e|] eqn:F; cbn [negb andb].
  - destruct (bool_decide (can_read e = true) && bool_decide (can_write e = w)) eqn:D.
    + apply andb_prop in D as [R%bool_decide_eq_true W%bool_decide_eq_true].
      exists b. split_and!; [done..|]. intros k'. case_decide as Ek; [|done]. subst k'.
      rewrite F. cbn. by rewrite R, W.
    + eexists. split; [done|]. split; [done|]. split; [done|]. intros k'. cbn.
      rewrite find_edit, F. by destruct (decide (k' = k)).
  - destruct (group_token k b g gk Ow G Lk) as [t Et]. rewrite (bind_Ok _ _ _ _ _ Et).
    unfold modify, mbind, method_bind. rewrite G. eexists. split; [done|].
    split; [done|]. split; [done|]. intros k'. cbn. rewrite find_entry_app, find_entry_cons. cbn [key].
    destruct (decide (k' = k)) as [->|]; [by rewrite F, decide_True|].
    rewrite decide_False by done. by destruct (find_entry k' _).
Qed.

Lemma each_group_enforced w (l : list K) b : tidy b ->
  (forall k, k ∈ l -> k <> owner_key (okb_of b) -> resolves k) -> exists b',
  each (unless_owner (fun k => set_group_permissions dn k true w)) l b = (Ok tt, b') /\
  tidy b' /\ okb_of b' = okb_of b /\ acl_entries b' = acl_entries b /\
  forall k, group_permission k b' =
    if decide (k ∈ l /\ k <> owner_key (okb_of b)) then Some (true, w) else group_permission k b.
Proof.
  revert b. induction l as [|k l IH]; intros b T Rs.
  - exists b. split_and!; [done..|]. intros k. rewrite decide_False; [done|].
    by intros [?%not_elem_of_nil _].
  - cbn [each].
    assert (exists b1, unless_owner (fun k => set_group_permissions dn k true w) k b = (Ok tt, b1) /\
      tidy b1 /\ okb_of b1 = okb_of b /\ acl_entries b1 = acl_entries b /\
      forall k', group_permission k' b1 =
        if decide (k' = k /\ k <> owner_key (okb_of b)) then Some (true, w) else group_permission k' b)
      as (b1 & E1 & T1 & O1 & L1 & P1).
    { unfold unless_owner. rewrite bind_read. case_decide as Ow.
      - exists b. split_and!; [done..|]. intros k'. rewrite decide_False; [done|]. naive_solver.
      - destruct (set_group_permissions_owned k w b T) as (b1 & E & T1 & L1 & Pm);
          [apply Rs; [by left|done]|].
        pose proof (touched_okb _ _ (set_group_permissions_touched _ _ _ _ _ E)) as O1.
        exists b1. split_and!; [done..|].
        intros k'. rewrite Pm. by repeat case_decide; naive_solver. }
    destruct (IH b1 T1) as (b2 & E2 & T2 & O2 & L2 & P2).
    { intros j J N. rewrite O1 in N. apply Rs; [by right|done]. }
    exists b2. split; [by rewrite (bind_Ok _ _ _ _ _ E1)|]. split_and!; [done|congruence..|].
    intros k'. rewrite P2, P1, O1. set (o := owner_key _).
    destruct (decide (k' ∈ l /\ k' <> o)), (decide (k' ∈ k :: l /\ k' <> o)),
      (decide (k' = k /\ k <> o)); set_solver.
Qed.

(** The groups of administrators that can be fetched. *)
Definition admins_resolve b : Prop :=
  forall k, k ∈ admin_group_r dn ++ admin_group_w dn -> k <> owner_key (okb_of b) -> resolves k.

Lemma enforce_owned b : admins_resolve b -> tidy b -> exists b',
  enforce_admin_keys dn b = (Ok tt, b') /\ tidy b' /\
  (forall k, permission k b' =
    if decide (k ∈ admin_w dn /\ k <> owner_key (okb_of b)) then Some (true, true)
    else if decide (k ∈ admin_r dn /\ k <> owner_key (okb_of b)) then Some (true, false)
    else permission k b) /\
  forall k, group_permission k b' =
    if decide (k ∈ admin_group_w dn /\ k <> owner_key (okb_of b)) then Some (true, true)
    else if decide (k ∈ admin_group_r dn /\ k <> owner_key (okb_of b)) then Some (true, false)
    else group_permission k b.
Proof.
  intros Rs T. unfold enforce_admin_keys.
  destruct (each_enforced false (admin_r dn) b T) as (b1 & E1 & T1 & To1 & [G1 _] & P1).
  destruct (each_enforced true (admin_w dn) b1 T1) as (b2 & E2 & T2 & To2 & [G2 _] & P2).
  pose proof (touched_okb _ _ (touched_trans _ _ _ To1 To2)) as O2.
  destruct (each_group_enforced false (admin_group_r dn) b2 T2) as (b3 & E3 & T3 & O3 & L3 & P3).
  { intros k I. rewrite O2. apply Rs. apply elem_of_app. by left. }
  destruct (each_group_enforced true (admin_group_w dn) b3 T3) as (b4 & E4 & T4 & O4 & L4 & P4).
  { intros k I. rewrite O3, O2. apply Rs. apply elem_of_app. by right. }
  exists b4. rewrite (bind_Ok _ _ _ _ _ E1), (bind_Ok _ _ _ _ _ E2), (bind_Ok _ _ _ _ _ E3).
  split; [done|]. split; [done|]. split; intros k.
  - unfold permission at 1. rewrite L4, L3. fold (permission k b2).
    by rewrite P2, P1, (touched_okb _ _ To1).
  - rewrite P4, P3, O3, O2. unfold group_permission at 1. by rewrite G2, G1.
Qed.

Lemma permission_has_key k r w w' (l : list (ACLEntry K)) :
  (fun e => (can_read e, can_write e)) <$> find_entry k l = Some (r, w) -> r = true ->
  (w' = true -> w = true) -> has_key k l w' = true.
Proof.
  unfold has_key. destruct (find_entry k l) as [e|] eqn:F; [|done].
  intros [= R W] -> I. apply find_entry_key in F as [Ke [i L]%list_elem_of_lookup].
  apply existsb_exists. exists e. split; [by eapply list_elem_of_In, list_elem_of_lookup_2|].
  rewrite Ke, bool_decide_true, R by done. cbn. subst w. destruct w'; [by rewrite I|]. by destruct (can_write e).
Qed.

Lemma has_key_right k w (l l' : list (ACLEntry K)) : right <$> l' = right <$> l ->
  has_key k l' w = has_key k l w.
Proof.
  unfold has_key. revert l'. induction l as [|e l IH]; intros [|e' l'] E; try done.
  cbn in *. unfold right in E at 1 3. injection E as E1 E2 E3 E. by rewrite E1, E2, E3, (IH _ E).
Qed.

Definition admins_ok b : Prop := forall k, k <> owner_key (okb_of b) ->
  (k ∈ admin_r dn -> has_key k (acl_entries b) false = true) /\
  (k ∈ admin_w dn -> has_key k (acl_entries b) true = true) /\
  (k ∈ admin_group_r dn -> has_key k (acl_group_entries b) false = true) /\
  (k ∈ admin_group_w dn -> has_key k (acl_group_entries b) true = true).

Lemma admins_ok_validate b : admins_ok b -> validate_admin_keys dn b = Success.
Proof.
  intros A. unfold validate_admin_keys.
  assert (forall (es : list (ACLEntry K)) w (l : list K),
    (forall k, k ∈ l -> k <> owner_key (okb_of b) -> has_key k es w = true) ->
    forallb (fun k => bool_decide (k = owner_key (okb_of b)) || has_key k es w) l = true) as F.
  { intros es w l Hl. apply forallb_forall. intros k I%list_elem_of_In.
    case_bool_decide; [done|]. by apply Hl. }
  rewrite !F; [done|..]; intros k I N; by apply A.
Qed.
Lemma sign_data_found f p b : f.2 = Some p -> exists s,
  sign_data dn f b = (Ok tt, set_sign_key (Some p) (set_data_signature s (set_editor f.1 b))) /\
  (validate_signatures dn = true -> s <> []).
Proof.
  intros F. unfold sign_data. rewrite bind_read.
  assert (forall g, unless_found f g = f) as U by (intros g; unfold unless_found; by rewrite F).
  rewrite !U. assert (world_signs dn b f = f) as -> by (unfold world_signs; by rewrite F).
  rewrite F. unfold modify, Prelude.read, mbind, method_bind, when, mret, method_ret.
  destruct (validate_signatures dn).
  - eexists. split; [done|]. intros _ E. cbn in E.
    pose proof (verify_sign p (data_payload dn (set_editor f.1 b))) as V.
    rewrite E, verify_nothing in V. done.
  - by eexists.
Qed.

Lemma restart_total b : owner_ok b ->
  (validate_signatures dn = true -> data_signature b <> []) ->
  restart_signatures dn b = (Ok tt, b).
Proof.
  intros O D. unfold owner_ok in O. rewrite validate_owner_iff in O. destruct O as [_ O].
  unfold restart_signatures. rewrite bind_read.
  destruct (validate_signatures dn); [|done]. specialize (D eq_refl). specialize (O eq_refl).
  rewrite bool_decide_false by done. cbn. rewrite bind_ret_l, bind_read.
  rewrite bool_decide_false; [done|]. intros S. by rewrite S, verify_nothing in O.
Qed.

(** An owner's seal, part by part. *)
Lemma owner_list p b : owner_private_key (okb_of b) = Some p -> exists f b',
  (if acl_changed b then seal_acl dn (data_changed (okb_of b)) else mret (editor b, None)) b
    = (Ok f, b') /\ kept b b' /\ (acl_changed b = true -> f = (-1, Some p)).
Proof.
  intros Op. destruct (acl_changed b); [|by exists (editor b, None), b].
  assert (exists f b', seal_acl dn (data_changed (okb_of b)) b = (Ok f, b')) as (f & b' & E).
  { unfold seal_acl, seal_owner, seal_okb, owner_signs, on_okb. rewrite bind_read.
    unfold mbind, method_bind, modify, when, Prelude.read, mret, method_ret. cbn. rewrite Op. cbn.
    by destruct (validate_signatures dn), (negb _); do 2 eexists. }
  exists f, b'. split; [done|].
  destruct (seal_acl_spec _ _ _ _ E) as (p' & Op' & -> & Kp & _). split; [done|congruence].
Qed.

Lemma owner_data env secret p c f b : owner_private_key (okb_of b) = Some p ->
  c = true \/ f = (-1, Some p) -> exists b',
  (if c then seal_data dn env secret f else mret f) b = (Ok (-1, Some p), b') /\ kept b b'.
Proof.
  intros Op Cf. destruct c; [|destruct Cf as [| ->]; [done|by exists b]].
  destruct (seal_data_spec env secret f b) as (b' & E & Kp & _).
  exists b'. split; [|done]. rewrite E. do 2 f_equal. unfold owner_signs. rewrite Op.
  by rewrite (first_user_found _ _ (-1, Some p) p), (first_group_found _ _ (-1, Some p) p).
Qed.

Lemma owner_signature (v : option Z) p b : owner_ok b -> exists b',
  (((match v with Some n => modify (set_data_version n) | None => mret tt end);;
     sign_data dn (-1, Some p));; restart_signatures dn) b = (Ok tt, b') /\ kept b b'.
Proof.
  intros O. set (b1 := match v with Some n => set_data_version n b | None => b end).
  assert ((match v with Some n => modify (set_data_version n) | None => mret tt end
    : method (acb K P) error unit) b = (Ok tt, b1)) as E1 by (by destruct v).
  destruct (sign_data_found (-1, Some p) p b1 eq_refl) as (s & E2 & S).
  eexists. rewrite bind_assoc, (bind_Ok _ _ _ _ _ E1), (bind_Ok _ _ _ _ _ E2).
  rewrite restart_total; [split; [done|by unfold kept, b1; destruct v]| |done].
  eapply (kept_owner b); [by unfold kept, b1; destruct v|by unfold b1; destruct v..|done].
Qed.

(** An owner's seal cannot fail once the keys of the administrators are
    enforced. *)
Lemma owner_seals env v secret b b1 p : coherent b -> allowed b ->
  owner_private_key (okb_of b) = Some p -> next_seal_version (okb_of b) = None ->
  enforce_admin_keys dn b = (Ok tt, b1) ->
  acl_changed b1 || data_changed (okb_of b1) = true ->
  exists b', seal dn env v secret b = (Ok tt, b') /\ kept b1 b'.
Proof.
  intros C A Op Nx En Ch. pose proof (enforce_touched _ _ En) as T.
  pose proof (touched_coherent _ _ C T) as C1. rewrite <- (touched_okb _ _ T) in Op.
  unfold seal. assert (asked_version v b = (Ok v, b)) as Av
    by (unfold asked_version; rewrite bind_read, Nx; by destruct v).
  rewrite (bind_Ok _ _ _ _ _ Av), (bind_Ok _ _ _ _ _ En), bind_read, Ch.
  destruct (owner_list p b1 Op) as (f & b2 & E2 & K2 & F2).
  destruct (list_is_sealed _ _ _ _ A T C1 E2) as (G2 & D2 & _).
  rewrite (bind_Ok _ _ _ _ _ E2).
  assert (owner_private_key (okb_of b2) = Some p) as Op2.
  { destruct K2 as [I _]. unfold identity in I. by injection I as _ _ _ -> _. }
  destruct (owner_data env secret p (data_changed (okb_of b1)) f b2 Op2) as (b3 & E3 & K3).
  { destruct (data_changed (okb_of b1)); [by left|right]. apply F2. by rewrite orb_false_r in Ch. }
  destruct (data_is_sealed _ _ _ _ _ _ _ G2 D2 E3) as ((_ & O3 & _) & _).
  rewrite (bind_Ok _ _ _ _ _ E3).
  destruct (owner_signature v p b3 O3) as (b' & E & K4).
  exists b'. split; [exact E|]. eapply kept_trans; [|exact K4]. by eapply kept_trans.
Qed.

Lemma kept_admins b b' : kept b b' -> admins_ok b -> admins_ok b'.
Proof.
  intros [I L] A k N. unfold lists in L. injection L as L1 L2 _ _ _.
  rewrite !(has_key_right _ _ _ _ L1), !(has_key_right _ _ _ _ L2). apply A.
  unfold identity in I. by injection I as _ _ <- _.
Qed.

Lemma owned_seal_is_valid env v secret b p : coherent b -> allowed b -> tidy b ->
  admins_resolve b ->
  owner_private_key (okb_of b) = Some p -> next_seal_version (okb_of b) = None ->
  acl_changed b || data_changed (okb_of b) = true ->
  exists b', seal dn env v secret b = (Ok tt, b') /\ validate_acb dn b' true = Success /\
    acl_changed b' = false /\ data_changed (okb_of b') = false /\ admins_ok b'.
Proof.
  intros C A T Rs Op Nx Ch.
  destruct (enforce_owned b Rs T) as (b1 & En & T1 & Pm & Gm).
  pose proof (enforce_touched _ _ En) as To.
  assert (acl_changed b1 || data_changed (okb_of b1) = true) as Ch1.
  { destruct To as [->|[-> _]]; done. }
  destruct (owner_seals env v secret b b1 p C A Op Nx En Ch1) as (b' & E & Kp).
  exists b'. split; [done|]. destruct (seal_sealed _ _ _ _ _ C A E) as (Ac & Dc & Ow & Au).
  assert (admins_ok b') as Ad.
  { apply (kept_admins _ _ Kp). intros k Nk. rewrite (touched_okb _ _ To) in Nk.
    pose proof (Pm k) as Pk. pose proof (Gm k) as Gk.
    split_and!; intros I; repeat case_decide; try tauto; by eapply permission_has_key. }
  split; [|done]. apply validate_acb_iff. split; [done|]. split; [done|]. intros _ _.
  by apply admins_ok_validate.
Qed.
(** *** The data, and who can read it *)

(** What the data is, and what it can be read with. *)
Definition content b :=
  (acl_entries b, owner_token b, seal_version b, data (okb_of b), owner_key (okb_of b),
   world_readable b, acl_group_entries b, group_version b).

Definition opens (secret d : bytes) b : Prop :=
  (forall e, e ∈ acl_entries b -> can_read e = true ->
     token e = encrypt (use_encrypt b) (key e) secret) /\
  owner_token b = encrypt (use_encrypt b) (owner_key (okb_of b)) secret /\
  data (okb_of b) = if world_readable b then d else encipher secret d.

Lemma opens_content secret d b b' : content b' = content b -> opens secret d b -> opens secret d b'.
Proof.
  unfold content. intros [= E1 E2 E3 E4 E5 E6 E7 E8]. unfold opens, use_encrypt.
  by rewrite E1, E2, E3, E4, E5, E6.
Qed.

Lemma seal_data_opens env secret f b g b' : seal_data dn env secret f b = (Ok g, b') ->
  opens secret (data_plain (okb_of b)) b'.
Proof.
  unfold seal_data, modify, Prelude.read, mbind, method_bind, mret, method_ret. cbn.
  set (enc := Version.geb _ _).
  destruct (group_tokens _ _ _ _ _) as [gs vs]. cbn. intros [= _ <-].
  split; [|done]. intros e. cbn. unfold user_tokens.
  intros (e' & -> & I)%list_elem_of_fmap. by destruct (can_read e') eqn:R; cbn; rewrite ?R.
Qed.

Lemma sign_data_content f b b' : sign_data dn f b = (Ok tt, b') -> content b' = content b.
Proof.
  unfold sign_data. rewrite bind_read.
  change (world_signs dn b _) with (found_signer b f). generalize (found_signer b f) as g. intros g.
  unfold modify, Prelude.read, mbind, method_bind, throw, when, mret, method_ret.
  destruct (g.2); [|done]. by destruct (validate_signatures dn); intros [= <-].
Qed.

Lemma restart_content b b' : restart_signatures dn b = (Ok tt, b') -> content b' = content b.
Proof.
  unfold restart_signatures, seal_owner, seal_okb, on_okb. rewrite bind_read. intros E.
  apply bind_Ok_inv in E as ([] & b1 & E1 & E2). rewrite bind_read in E2.
  assert (content b1 = content b) as <-.
  { unfold modify, throw, mret, method_ret in E1.
    destruct (validate_signatures dn && bool_decide (data_signature b = [])); [|by simplify_eq/=].
    by destruct (sign_key b); simplify_eq/=. }
  unfold when, modify, Prelude.read, mbind, method_bind, throw, mret, method_ret in E2.
  destruct (validate_signatures dn && bool_decide (signature (okb_of b1) = []));
    [|by simplify_eq/=]. cbn in E2.
  destruct (owner_private_key _); [|done]. cbn in E2.
  by destruct (validate_signatures dn); simplify_eq/=.
Qed.

Definition no_admins : Prop :=
  admin_r dn = [] /\ admin_w dn = [] /\ admin_group_r dn = [] /\ admin_group_w dn = [].

Lemma nothing_enforced b : no_admins -> enforce_admin_keys dn b = (Ok tt, b).
Proof. intros (A1 & A2 & A3 & A4). unfold enforce_admin_keys. by rewrite A1, A2, A3, A4. Qed.

Lemma seal_acl_content c f b b' : seal_acl dn c b = (Ok f, b') -> content b' = content b.
Proof.
  unfold seal_acl, seal_owner, seal_okb, owner_signs, on_okb. rewrite bind_read.
  unfold mbind, method_bind, modify, when, Prelude.read, throw, mret, method_ret. cbn.
  destruct (owner_private_key (okb_of b)) as [p|]; cbn; [|done].
  by destruct (validate_signatures dn), c; cbn; intros [= <- <-].
Qed.

(** A seal of the data, around it. *)
Lemma seal_around env v secret b b' : data_changed (okb_of b) = true ->
  seal dn env v secret b = (Ok tt, b') -> exists f g b1 b2,
    seal_data dn env secret f b1 = (Ok g, b2) /\ content b' = content b2 /\
    data_plain (okb_of b1) = data_plain (okb_of b) /\ (no_admins -> content b1 = content b).
Proof.
  intros D E. unfold seal in E. destruct (asked_version_spec v b) as (v' & b1 & E1 & B1).
  rewrite (bind_Ok _ _ _ _ _ E1) in E. clear E1.
  assert (okb_of b1 = okb_of b \/ okb_of b1 = set_next None (okb_of b)) as O1
    by (by destruct B1 as [->| ->]; [left|right]).
  assert (content b1 = content b) as C1 by (by destruct B1 as [->| ->]).
  bind_inv E. destruct a as []. pose proof (touched_okb _ _ (enforce_touched _ _ H)) as To.
  assert (no_admins -> content s = content b) as Cs.
  { intros NA. rewrite (nothing_enforced b1 NA) in H. by injection H as <-. }
  rewrite bind_read in H0.
  assert (data_changed (okb_of s) = true /\ data_plain (okb_of s) = data_plain (okb_of b))
    as [Ds Ps] by (by rewrite To; destruct O1 as [->| ->]).
  rewrite Ds in H0. bind_inv H0. rename s0 into b2.
  assert (data_plain (okb_of b2) = data_plain (okb_of b) /\ content b2 = content s) as [P2 C2].
  { rewrite <- Ps. destruct (acl_changed s); [|by injection H1 as _ <-].
    destruct (seal_acl_spec _ _ _ _ H1) as (p & _ & _ & [I _] & _).
    unfold identity in I. split; [by injection I|by eapply seal_acl_content]. }
  bind_inv H2. exists a, a0, b2, s0. split; [done|].
  rewrite orb_true_r in H3. bind_inv H3. destruct a1 as [].
  split; [|split; [done|intros NA; by rewrite C2, Cs]].
  rewrite (restart_content _ _ H4). apply bind_Ok_inv in H2 as ([] & b3 & E3 & H2).
  rewrite (sign_data_content _ _ _ H2). by destruct v'; injection E3 as <-.
Qed.

Lemma seal_opens env v secret b b' : data_changed (okb_of b) = true ->
  seal dn env v secret b = (Ok tt, b') -> opens secret (data_plain (okb_of b)) b'.
Proof.
  intros D (f & g & b1 & b2 & E & C & <- & _)%seal_around; [|done].
  eapply opens_content; [done|]. by eapply seal_data_opens.
Qed.

(** The tokens of the groups. *)
Lemma seal_shares env v secret b b' : no_admins -> data_changed (okb_of b) = true ->
  seal dn env v secret b = (Ok tt, b') ->
  group_tokens dn (use_encrypt b') secret (acl_group_entries b) (group_version b) =
    (acl_group_entries b', group_version b').
Proof.
  intros NA D (f & g & b1 & b2 & E & C & _ & B)%seal_around; [|done]. specialize (B NA).
  unfold content in C, B. injection C as _ _ Sv _ _ _ -> ->. injection B as _ _ _ _ _ _ <- <-.
  unfold use_encrypt. rewrite Sv. revert E.
  unfold seal_data, modify, Prelude.read, mbind, method_bind, mret, method_ret. cbn.
  destruct (group_tokens _ _ _ _ _) as [gs vs] eqn:G. intros [= _ <-]. cbn. by rewrite <- G.
Qed.

(** A seal that has no data to seal changes no token. *)
Lemma seal_content env v secret b b' : no_admins -> data_changed (okb_of b) = false ->
  seal dn env v secret b = (Ok tt, b') -> content b' = content b.
Proof.
  intros NA D E. unfold seal in E. destruct (asked_version_spec v b) as (v' & b1 & E1 & B1).
  rewrite (bind_Ok _ _ _ _ _ E1), (bind_Ok _ _ _ _ _ (nothing_enforced b1 NA)), bind_read in E.
  assert (content b1 = content b /\ data_changed (okb_of b1) = false) as [<- D1]
    by (by destruct B1 as [->| ->]).
  rewrite D1 in E. bind_inv E.
  assert (content s = content b1) as <-.
  { destruct (acl_changed b1); [by eapply seal_acl_content|by injection H as _ <-]. }
  rewrite bind_ret_l in H0. bind_inv H0. destruct a0 as [].
  rewrite (restart_content _ _ H2).
  destruct (acl_changed b1 || false || bool_decide (is_Some v')); [|by injection H1 as <-].
  apply bind_Ok_inv in H1 as ([] & b3 & E3 & H1). rewrite (sign_data_content _ _ _ H1).
  by destruct v'; injection E3 as <-.
Qed.
(** *** Writers *)

(** Who may write a block. *)
Inductive writer b : K -> Prop :=
  | owner_writes : writer b (owner_key (okb_of b))
  | user_writes e : e ∈ acl_entries b -> can_write e = true -> writer b (key e)
  | group_writes e info k : e ∈ acl_group_entries b -> can_write e = true ->
      group dn (key e) = Some info -> k ∈ group_public_keys info -> writer b k.

Lemma author_writes b a k : author_of b = Some a -> author_key dn b a = Some k -> writer b k.
Proof.
  unfold author_of. destruct (editor b =? -1).
  { intros [= <-] [= <-]. apply owner_writes. }
  destruct (editor b <? 0); [done|].
  destruct (acl_entries b !! _) as [e|] eqn:L.
  { destruct (can_write e) eqn:W; [|done]. intros [= <-] [= <-].
    apply user_writes; [by eapply list_elem_of_lookup_2|done]. }
  destruct (acl_group_entries b !! _) as [e|] eqn:L'; [|done].
  destruct (can_write e) eqn:W; [|done]. intros [= <-]. cbn.
  destruct (group dn (key e)) as [info|] eqn:G; [|done].
  destruct (group_version b !! _) as [v|]; [|done]. destruct (v <? 0); [done|].
  intros I. eapply group_writes; [by eapply list_elem_of_lookup_2|done..|by eapply list_elem_of_lookup_2].
Qed.

End Properties.
