(* ===== verification/BlockTheorems.v ===== *)
(** The theorems on mutable blocks: what they keep coherent, who can write one
    and who can read one. *)

From stdpp Require Import base tactics option list countable relations.
From Stdlib Require Import ZArith Lia.
From S2P Require Import Prelude Versions Buffers Streams Addresses Nodes Signatures Blocks BlockProperties.
Import Signatures Blocks.
Open Scope Z_scope.

Section Theorems.
Context {K P : Type} `{EqDecision K} `{EqDecision P} `{!Crypto K P} `{!LawfulCrypto K P}.
Context (dn : doughnut K P).

Implicit Types (b : acb K P) (e : ACLEntry K) (l : list (ACLEntry K)).

(** A block that was made, or that came and is valid. *)
Definition start b : Prop :=
  (exists d salt p, b = make_acb dn d salt p) \/
  acl_changed b = false /\ data_changed (okb_of b) = false /\
    exists w, validate_acb dn b w = Success.

(** What is done with a block. A seal is that of its owner, or of a user whose
    entry says it writes. *)
Inductive operation b : acb K P -> Prop :=
  | Permissions k r w x b' : set_permissions k r w b = (x, b') -> operation b b'
  | GroupPermissions k r w b' : set_group_permissions dn k r w b = (Ok tt, b') -> operation b b'
  | UserPermissions k name r w b' :
      set_user_permissions dn k name r w b = (Ok tt, b') -> operation b b'
  | WorldPermissions r w : operation b (set_world_permissions r w b)
  | Data d : operation b (upd_okb (okb_set_data d) b)
  | Seal env v secret b' : allowed dn b -> seal dn env v secret b = (Ok tt, b') -> operation b b'.

Lemma validate_address_refl (o : okb K P) :
  address o = hash_address (owner_key o) (salt o) (dn_version dn) ->
  validate_address dn o = Success.
Proof.
  unfold validate_address. intros ->. unfold Address.equal_unflagged.
  by rewrite memcmp_refl.
Qed.

Lemma start_coherent b : start b -> coherent dn b.
Proof.
  intros [(d & salt & p & ->)|(A & D & w & V)].
  - split; [by apply validate_address_refl|]. by split.
  - apply validate_acb_iff in V as (O & Au & _). split; [|done].
    unfold owner_ok in O. rewrite validate_owner_iff in O. apply O.
Qed.

Lemma user_permissions_touched k name r w b b' :
  set_user_permissions dn k name r w b = (Ok tt, b') -> touched b b'.
Proof.
  unfold set_user_permissions. destruct (admin_user dn k || admin_group dn k); [done|].
  intros E. bind_inv E. destruct a.
  assert (touched b s) as T1.
  { destruct name; [|injection H as <-; by left..]. bind_inv H. destruct a.
    eapply touched_trans; [|by eapply set_permissions_touched].
    destruct (negb r && negb w); [by eapply set_group_permissions_touched|].
    injection H1 as <-. by left. }
  eapply touched_trans; [exact T1|].
  destruct name; (by eapply set_permissions_touched) || (by eapply set_group_permissions_touched).
Qed.

Lemma operation_coherent b b' : coherent dn b -> operation b b' -> coherent dn b'.
Proof.
  intros C O. destruct O as [k r w x b' E|k r w b' E|k n r w b' E|r w|d|env v s b' A E].
  - eapply touched_coherent; [done|]. by eapply set_permissions_touched.
  - eapply touched_coherent; [done|]. by eapply set_group_permissions_touched.
  - eapply touched_coherent; [done|]. by eapply user_permissions_touched.
  - unfold set_world_permissions. destruct (_ && _); [done|]. split; [apply C|]. done.
  - destruct C as (C1 & C2 & _). split; [exact C1|]. split; [exact C2|]. done.
  - destruct (seal_sealed _ _ _ _ _ _ C A E) as (Ac & D & O & Au). split; [|done].
    unfold owner_ok in O. rewrite validate_owner_iff in O. apply O.
Qed.

(** C5. Take a block that was made, or that came and validates, and change the
    permissions of users, groups and the world, and the data, and seal it, in any order,
    each seal succeeding and being that of the owner, or of a user whose entries all say
    it writes, of a block without groups. What the block then says, and does not mark as
    changed, is signed: with nothing marked, it validates. The conditions are needed: a
    seal that fails breaks it ([failed_seal_is_forgotten]). *)
Theorem operations_keep_coherence b b' : start b -> rtc operation b b' ->
  coherent dn b' /\
  (acl_changed b' = false -> data_changed (okb_of b') = false ->
   validate_acb dn b' false = Success).
Proof.
  intros S%start_coherent R.
  assert (coherent dn b') as C.
  { revert S. induction R; [done|]. intros S. eauto using operation_coherent. }
  split; [done|]. intros A D. apply validate_acb_iff. destruct C as (_ & O & Au).
  split; [by apply O|]. split; [by apply Au|]. done.
Qed.
(** C6. An owner's seal makes a block that is accepted: the keys of the network's
    administrators, users and groups, are in its lists with their rights, and what
    changed is signed. The block lists each user once and the owner can open its token,
    no version is kept for the next seal, the list or the data is marked as changed, and
    the groups of administrators can be fetched and have a key. *)
Theorem owner_seal_is_accepted env v secret b p : coherent dn b -> tidy b ->
  admins_resolve dn b ->
  owner_private_key (okb_of b) = Some p -> public p = owner_key (okb_of b) ->
  next_seal_version (okb_of b) = None -> acl_changed b || data_changed (okb_of b) = true ->
  exists b', seal dn env v secret b = (Ok tt, b') /\ validate_acb dn b' true = Success /\
    acl_changed b' = false /\ data_changed (okb_of b') = false /\
    forall k, k <> owner_key (okb_of b') ->
      (k ∈ admin_r dn -> has_key k (acl_entries b') false = true) /\
      (k ∈ admin_w dn -> has_key k (acl_entries b') true = true) /\
      (k ∈ admin_group_r dn -> has_key k (acl_group_entries b') false = true) /\
      (k ∈ admin_group_w dn -> has_key k (acl_group_entries b') true = true).
Proof.
  intros C T Rs Op Pk Nx Ch. eapply owned_seal_is_valid; try done. unfold allowed. by rewrite Op.
Qed.

(** C4. When only the private key signs, a block that validates and that not
    everybody may write has its list signed by its owner, and its data, with
    the tokens, by one who may write it. *)
Theorem valid_is_authorised `{!Unforgeable K P} b w : validate_signatures dn = true ->
  world_writable b = false -> validate_acb dn b w = Success ->
  (exists p, public p = owner_key (okb_of b) /\ signature (okb_of b) = sign p (acl_payload dn b)) /\
  exists p, writer dn b (public p) /\ data_signature b = sign p (data_payload dn b).
Proof.
  intros VS W (O & Au & _)%validate_acb_iff.
  unfold owner_ok in O. rewrite validate_owner_iff in O. destruct O as [_ O].
  split; [by apply verify_signed, O|].
  destruct Au as [|(a & Ea & Au)]; [congruence|]. destruct (Au VS) as (k & Ek & V).
  apply verify_signed in V as (p & <- & E). exists p. split; [|done]. by eapply author_writes.
Qed.

(** What a user makes of an old block in which it could write. *)
Definition forge (old : acb K P) (v : Z) (i : nat) (p : P) (d : bytes) : acb K P :=
  let f := set_editor (Z.of_nat i) (set_data_version v (upd_okb (set_okb_data d) old)) in
  set_data_signature (sign p (data_payload dn f)) f.

Lemma forged_is_valid old v i e p d : validate_acb dn old true = Success ->
  acl_entries old !! i = Some e -> can_write e = true -> key e = public p ->
  validate_acb dn (forge old v i p d) true = Success.
Proof.
  intros V L W Ke. apply validate_acb_iff in V as (O & _ & Adm).
  apply validate_acb_iff. split; [exact O|]. split; [|by intros _; apply Adm].
  right. exists (User e). split.
  - unfold author_of. cbn. destruct (Z.eqb_spec (Z.of_nat i) (-1)); [lia|].
    destruct (Z.ltb_spec (Z.of_nat i) 0); [lia|]. by rewrite Nat2Z.id, L, W.
  - intros _. exists (key e). split; [done|]. rewrite Ke. apply verify_sign.
Qed.

Lemma forged_is_next cur old v i p d : acl_group_entries old = [] -> group_version old = [] ->
  Address.eqb (address (okb_of cur)) (address (okb_of old)) = true ->
  validate_next cur (forge old v i p d) = Success.
Proof.
  intros Gs Vs Ad. unfold validate_next. cbn. rewrite Ad, Gs, Vs. cbn.
  assert (forall l vs, downgraded l vs (forge old v i p d) = false) as ->; [|done].
  intros l vs. revert vs. induction l as [|e' l IH]; intros [|v' vs]; try done. cbn.
  by rewrite Gs, IH.
Qed.

(** The version of the list is not compared: with an old block in which it
    was allowed to write, a user who no longer is makes one that validates and
    that replaces the current one, whose list is the old one. *)
Theorem revoked_writer_returns old cur i e p d :
  validate_acb dn old true = Success -> acl_group_entries old = [] -> group_version old = [] ->
  acl_entries old !! i = Some e -> can_write e = true -> key e = public p ->
  Address.eqb (address (okb_of cur)) (address (okb_of old)) = true ->
  exists forged, validate_acb dn forged true = Success /\ validate_next cur forged = Success /\
    data_version cur < data_version forged /\ data (okb_of forged) = d /\
    acl_payload dn forged = acl_payload dn old.
Proof.
  intros V Gs Vs L W Ke Ad. exists (forge old (data_version cur + 1) i p d).
  split; [by eapply forged_is_valid|]. split; [by apply forged_is_next|].
  split; [cbn; lia|done].
Qed.

(** What a user finds in the list. *)
Lemma user_secret_none (dn' : doughnut K P) enc l s : ~ K_ dn' ∈ (key <$> l) ->
  user_secret dn' enc l s = Some s.
Proof.
  induction l as [|e l IH]; [done|]. rewrite fmap_cons, elem_of_cons. cbn. intros N.
  rewrite decide_False by naive_solver. apply IH. naive_solver.
Qed.

Lemma user_secret_some (dn' : doughnut K P) enc l e s t : NoDup (key <$> l) -> e ∈ l ->
  key e = K_ dn' -> decrypt enc (keys dn') (token e) = Some t -> user_secret dn' enc l s = Some t.
Proof.
  intros ND I Ke D. induction l as [|e' l IH]; [by apply not_elem_of_nil in I|].
  rewrite fmap_cons in ND. apply NoDup_cons in ND as [N ND]. cbn.
  apply elem_of_cons in I as [<-|I].
  - rewrite decide_True by done. rewrite D. apply user_secret_none. by rewrite <- Ke.
  - rewrite decide_False; [by apply IH|]. intros E. apply N. rewrite E, <- Ke.
    by apply list_elem_of_fmap_2.
Qed.

Lemma decrypt_with (dn' : doughnut K P) v b secret d : Version.geb v v_0_7 = true -> secret <> [] ->
  opens secret d b ->
  match owner_private_key (okb_of (received dn' v b)) with
  | Some p => decrypt (use_encrypt b) p (owner_token b)
  | None => user_secret dn' (use_encrypt b) (acl_entries b) []
  end = Some secret ->
  decrypt_acb dn' (received dn' v b) = Ok d.
Proof.
  intros Ve Ns (_ & _ & Dt) Se. unfold decrypt_acb.
  cbn [received okb_of received_okb world_readable data acl_entries owner_token] in *.
  assert (use_encrypt (received dn' v b) = use_encrypt b) as ->
    by (unfold use_encrypt, received; cbn; by rewrite Ve).
  destruct (world_readable b); [by rewrite Dt|]. rewrite Se, bool_decide_false by done.
  destruct secret as [|x secret]; [done|]. by rewrite Dt, decipher_encipher.
Qed.

Lemma no_group_secret (dn' : doughnut K P) enc l vs secret :
  (forall e g, e ∈ l -> group dn' (key e) = Some g -> group_keys g = None) ->
  group_secret dn' enc l vs secret = secret.
Proof.
  revert vs secret. induction l as [|e l IH]; intros vs secret N; [done|]. destruct vs as [|v vs]; [done|].
  cbn [group_secret]. rewrite IH by (intros e' g I; apply N; by right).
  destruct (group dn' (key e)) as [g|] eqn:G; [|done].
  pose proof (N e g ltac:(by left) G) as Gk. destruct g. cbn in Gk. by subst.
Qed.

(** C7. When data that changed is sealed, in a list that has each user once, the owner
    and each user whose entry then says it reads, decrypt that data from the block they
    receive, in the format of 0.7.0 or more; and whoever is neither the owner nor in the
    list, and has the keys of none of the groups of the block, is told it may not read,
    unless the block is readable by everyone. Members of groups are
    [shared_with_a_group_is_read]. That the data changed is needed: a right to read given
    later gives nothing to read with ([granted_right_cannot_read]). *)
Theorem readers_read (dn' : doughnut K P) env v secret b b' v' :
  data_changed (okb_of b) = true -> seal dn env v secret b = (Ok tt, b') ->
  secret <> [] -> NoDup (key <$> acl_entries b') -> Version.geb v' v_0_7 = true ->
  (K_ dn' = owner_key (okb_of b') \/
     (exists e, e ∈ acl_entries b' /\ can_read e = true /\ key e = K_ dn') ->
   decrypt_acb dn' (received dn' v' b') = Ok (data_plain (okb_of b))) /\
  (K_ dn' <> owner_key (okb_of b') -> ~ K_ dn' ∈ (key <$> acl_entries b') ->
   (forall e g, e ∈ acl_group_entries b' -> group dn' (key e) = Some g -> group_keys g = None) ->
   world_readable b' = false ->
   decrypt_acb dn' (received dn' v' b') = Throw NotReadable).
Proof.
  intros D E Ns ND Ve. pose proof (seal_opens dn _ _ _ _ _ D E) as Op. split.
  - intros R. apply (decrypt_with _ _ _ secret); [done..|].
    cbn [received okb_of received_okb owner_private_key].
    destruct Op as (Te & To & _). case_decide as Ow.
    + rewrite To, Ow. apply decrypt_encrypt.
    + destruct R as [|(e & I & R & Ke)]; [congruence|].
      eapply user_secret_some; [done..|]. rewrite (Te _ I R), Ke. apply decrypt_encrypt.
  - intros No Nu Ng Nw. unfold decrypt_acb.
    cbn [received okb_of received_okb owner_private_key world_readable acl_entries
      acl_group_entries group_version].
    by rewrite Nw, decide_False, user_secret_none, no_group_secret.
Qed.

(** A right to read that is given without changing the data gives nothing
    to read with: the entry of a user who could only write keeps the token it
    had, here none, and reading fails. *)
Theorem granted_right_cannot_read (dn' : doughnut K P) env secret b e b1 b2 v' :
  no_admins dn -> (forall enc, decrypt enc (keys dn') [] = None) ->
  acl_entries b = [e] -> can_read e = false -> can_write e = true -> token e = [] ->
  key e = K_ dn' -> K_ dn' <> owner_key (okb_of b) -> world_readable b = false ->
  data_changed (okb_of b) = false ->
  set_permissions (K_ dn') true true b = (Ok tt, b1) -> seal dn env None secret b1 = (Ok tt, b2) ->
  permission (K_ dn') b2 = Some (true, true) /\
  decrypt_acb dn' (received dn' v' b2) = Throw CryptoError.
Proof.
  intros NA Nd L R W T Ke Nk Wr D E1 E2.
  assert (content b1 = ([mkEntry _ (K_ dn') true true []], owner_token b, seal_version b,
    data (okb_of b), owner_key (okb_of b), false, acl_group_entries b, group_version b) /\ okb_of b1 = okb_of b) as [C1 O1].
  { unfold set_permissions in E1. rewrite bind_read, decide_False in E1 by done.
    unfold find_entry in E1. rewrite L, filter_cons_True in E1 by done. cbn in E1.
    rewrite R, W in E1. injection E1 as <-. split; [|done]. unfold content. cbn.
    by rewrite L, Wr; cbn; rewrite decide_True, T, Ke by done. }
  rewrite <- (seal_content _ _ _ _ _ _ NA (eq_trans (f_equal data_changed O1) D) E2) in C1.
  unfold content in C1. injection C1 as L2 _ _ _ K2 W2 _ _. split.
  - unfold permission, find_entry. by rewrite L2, filter_cons_True.
  - unfold decrypt_acb.
    cbn [received okb_of received_okb owner_private_key world_readable acl_entries].
    rewrite W2, K2, L2, decide_False by done. cbn [user_secret key token].
    by rewrite decide_True, Nd.
Qed.

(** C38. A seal that fails is forgotten: when a user who is not the owner
    changes the list, the seal fails, but the next one does nothing, succeeds,
    and leaves a block that does not validate. *)
Theorem failed_seal_is_forgotten `{!Unforgeable K P} env secret b b1 k r w :
  no_admins dn -> validate_signatures dn = true -> sealed dn b -> data_signature b <> [] ->
  owner_private_key (okb_of b) = None -> next_seal_version (okb_of b) = None ->
  set_permissions k r w b = (Ok tt, b1) -> b1 <> b ->
  exists b2, seal dn env None secret b1 = (Throw Unowned, b2) /\
    seal dn env None secret b2 = (Ok tt, b2) /\ validate_acb dn b2 false = Failure.
Proof.
  intros NA VS (_ & D & O & _) Sg Op Nx [?|[l ->]]%set_permissions_entries N; [done|]. clear N.
  unfold owner_ok in O. apply validate_owner_iff in O as [Ad O]. specialize (O VS).
  set (b1 := set_acl_changed true (set_entries l b)).
  set (b2 := upd_okb (fun _ => set_version (version (okb_of b) + 1) (okb_of b))
    (set_editor (editor b) (set_acl_changed false b1))).
  assert (forall b0, next_seal_version (okb_of b0) = None ->
    asked_version None b0 = (Ok None, b0)) as Av.
  { intros b0 N0. unfold asked_version. by rewrite bind_read, N0. }
  exists b2. split; [|split].
  - unfold seal. rewrite (bind_Ok _ _ _ _ _ (Av b1 Nx)), (bind_Ok _ _ _ _ _ (nothing_enforced dn b1 NA)).
    rewrite bind_read. cbn [b1 acl_changed set_acl_changed].
    apply bind_Throw. unfold seal_acl, owner_signs. rewrite bind_read.
    cbn [okb_of b1 set_acl_changed set_entries]. rewrite Op.
    unfold seal_owner, on_okb, seal_okb, modify, Prelude.read, mbind, method_bind, throw. cbn.
    by rewrite Op.
  - unfold seal. rewrite (bind_Ok _ _ _ _ _ (Av b2 Nx)), (bind_Ok _ _ _ _ _ (nothing_enforced dn b2 NA)).
    rewrite bind_read. change (acl_changed b2) with false.
    change (data_changed (okb_of b2)) with (data_changed (okb_of b)). rewrite D.
    cbn [orb]. rewrite !bind_ret_l, bool_decide_false by (by intros [? [=]]).
    rewrite bind_ret_l. unfold restart_signatures. rewrite bind_read, VS.
    change (data_signature b2) with (data_signature b). rewrite bool_decide_false by done.
    cbn [andb]. rewrite bind_ret_l, bind_read.
    rewrite bool_decide_false; [done|]. change (signature (okb_of b2)) with (signature (okb_of b)).
    intros S. by rewrite S, verify_nothing in O.
  - unfold validate_acb, validate_owner. rewrite (identity_address dn (okb_of b) (okb_of b2)) by done.
    rewrite Ad, VS. cbn [negb].
    destruct (verify _ _ (acl_payload dn b2)) eqn:V; [|done]. exfalso.
    pose proof (sign_binds _ _ _ _ O V) as E. unfold acl_payload in E. cbn in E.
    injection E as E _. lia.
Qed.
(** The permissions of one user are set, and nobody else's. *)
Theorem permissions_are_set k r w b : tidy b -> k <> owner_key (okb_of b) ->
  exists b', set_permissions k r w b = (Ok tt, b') /\ tidy b' /\ okb_of b' = okb_of b /\
    (forall k', permission k' b' =
       if decide (k' = k) then if r || w then Some (r, w) else None else permission k' b) /\
    (acl_changed b' = false -> forall k', permission k' b' = permission k' b).
Proof.
  intros T N. destruct (set_permissions_owned k r w b T N) as (b' & E & T' & To & Pm & Ch & _).
  exists b'. split; [done|]. split; [done|]. split; [by apply touched_okb|]. split; [done|].
  intros A k'. destruct (decide (permission k' b' = permission k' b)) as [|D]; [done|].
  apply Ch in D. congruence.
Qed.
End Theorems.

(** *** The theorems on a concrete block *)

Section Witnesses.
Definition node (k : Z) : doughnut Z Z :=
  mkDoughnut _ _ k (Version.make 0 8 0) true [] [] [] [] (fun _ => None).
Definition made : acb Z Z := make_acb (node 1) [7] [5] 1.
Definition shared : acb Z Z := (set_permissions 2 true true made).2.
Definition sealed_once : acb Z Z := (seal (node 1) true None [9] shared).2.
Definition revoked : acb Z Z :=
  (seal (node 1) true None [9] (set_permissions 2 false false sealed_once).2).2.
Definition write_only : acb Z Z :=
  (seal (node 1) true None [9] (set_permissions 2 false true made).2).2.
Definition granted : acb Z Z := (set_permissions 2 true true write_only).2.
Definition stale : acb Z Z := (seal (node 1) true None [9] granted).2.
Definition at_user : acb Z Z := received (node 2) (Version.make 0 8 0) sealed_once.

Lemma shared_coherent : coherent (node 1) shared.
Proof.
  apply (operation_coherent (node 1) made); [|by eapply (Permissions _ _ 2 true true)].
  apply start_coherent. left. by exists [7], [5], 1.
Qed.

Lemma operations_keep_coherence_witness : validate_acb (node 1) sealed_once false = Success.
Proof.
  apply (operations_keep_coherence (node 1) made sealed_once); [| |vm_compute; reflexivity..].
  - left. by exists [7], [5], 1.
  - eapply rtc_l; [by eapply (Permissions _ _ 2 true true)|]. eapply rtc_l; [|apply rtc_refl].
    eapply (Seal _ _ true None [9]); [reflexivity|vm_compute; reflexivity].
Defined.

(** A network with a user and a group of administrators, whose key is not in
    the block. *)
Definition governed : doughnut Z Z :=
  mkDoughnut _ _ 1 (Version.make 0 8 0) true [] [4] [] [6]
    (fun k => if decide (k = 6) then Some (mkGroup _ _ [61; 62] None) else None).

Lemma owner_seal_is_accepted_witness : exists b',
  seal governed true None [9] shared = (Ok tt, b') /\ validate_acb governed b' true = Success /\
  has_key 4 (acl_entries b') true = true /\ has_key 6 (acl_group_entries b') true = true.
Proof.
  destruct (owner_seal_is_accepted governed true None [9] shared 1) as (b' & E & V & _ & _ & A);
    try reflexivity.
  - apply (operation_coherent governed made); [|by eapply (Permissions _ _ 2 true true)].
    apply start_coherent. left. by exists [7], [5], 1.
  - split; [apply NoDup_singleton|by left].
  - intros k I _. cbn in I. apply list_elem_of_singleton in I as ->.
    by exists (mkGroup _ _ [61; 62] None), 62.
  - exists b'. split; [exact E|]. split; [exact V|].
    assert (owner_key (okb_of b') = 1) as O.
    { vm_compute in E. injection E as <-. reflexivity. }
    rewrite O in A. split; [apply A; [done|by left]|apply A; [done|by left]].
Defined.

Lemma valid_is_authorised_witness :
  (exists p : Z, public p = owner_key (okb_of sealed_once) /\
     signature (okb_of sealed_once) = sign p (acl_payload (node 1) sealed_once)) /\
  exists p : Z, writer (node 1) sealed_once (public p) /\
    data_signature sealed_once = sign p (data_payload (node 1) sealed_once).
Proof.
  apply (valid_is_authorised (node 1) sealed_once true); vm_compute; reflexivity.
Defined.

Lemma revoked_writer_returns_witness :
  permission 2 revoked = None /\
  exists forged, validate_acb (node 1) forged true = Success /\
    validate_next revoked forged = Success /\ data_version revoked < data_version forged /\
    data (okb_of forged) = [66] /\
    acl_payload (node 1) forged = acl_payload (node 1) sealed_once.
Proof.
  split; [vm_compute; reflexivity|].
  apply (revoked_writer_returns (node 1) sealed_once revoked 0 (mkEntry _ 2 true true [2; 9]) 2 [66]);
    vm_compute; reflexivity.
Defined.

Lemma readers_read_witness :
  decrypt_acb (node 2) (received (node 2) (Version.make 0 8 0) sealed_once) = Ok [7] /\
  decrypt_acb (node 3) (received (node 3) (Version.make 0 8 0) sealed_once) = Throw NotReadable.
Proof.
  split.
  - apply (readers_read (node 1) (node 2) true None [9] shared sealed_once (Version.make 0 8 0));
      try (vm_compute; reflexivity); try done; [apply NoDup_singleton|].
    right. exists (mkEntry _ 2 true true [2; 9]). split; [apply list_elem_of_here|done].
  - apply (readers_read (node 1) (node 3) true None [9] shared sealed_once (Version.make 0 8 0));
      try (vm_compute; reflexivity); try done; [apply NoDup_singleton|].
    intros I. by apply list_elem_of_singleton in I.
Defined.

Lemma granted_right_cannot_read_witness :
  permission (K_ (node 2)) stale = Some (true, true) /\
  decrypt_acb (node 2) (received (node 2) (Version.make 0 8 0) stale) = Throw CryptoError.
Proof.
  apply (granted_right_cannot_read (node 1) (node 2) true [9] write_only (mkEntry _ 2 false true [])
    granted stale (Version.make 0 8 0)); try (vm_compute; reflexivity); try done.
Defined.

Lemma failed_seal_is_forgotten_witness : exists b2,
  seal (node 2) true None [9] (set_permissions 2 true false at_user).2 = (Throw Unowned, b2) /\
  seal (node 2) true None [9] b2 = (Ok tt, b2) /\ validate_acb (node 2) b2 false = Failure.
Proof.
  apply (failed_seal_is_forgotten (node 2) true [9] at_user (set_permissions 2 true false at_user).2
    2 true false);
    try (vm_compute; reflexivity); try done.
  unfold sealed. split; [reflexivity|]. split; [reflexivity|].
  assert (validate_acb (node 2) at_user false = Success) as V by (vm_compute; reflexivity).
  apply validate_acb_iff in V as (V1 & V2 & _). by split.
Defined.

Lemma permissions_are_set_witness : exists b',
  set_permissions 3 true false sealed_once = (Ok tt, b') /\ tidy b' /\
  okb_of b' = okb_of sealed_once /\
  (forall k', permission k' b' =
     if decide (k' = 3) then Some (true, false) else permission k' sealed_once) /\
  (acl_changed b' = false -> forall k', permission k' b' = permission k' sealed_once).
Proof.
  apply (permissions_are_set 3 true false sealed_once); [|discriminate].
  split; [apply NoDup_singleton|]. right. exists 1, [9]. by split.
Defined.
End Witnesses.
