(* ===== verification/ContentBlocks.v ===== *)
(** Immutable blocks, and blocks of any type: memo/model/doughnut/CHB.cc, NB.cc
    and UB.cc, and the virtual methods of memo/model/blocks/Block.cc.

    The address of a CHB is the hash of its content; a NB has the address of
    its owner and its name; a UB gives the key of a user's name, or the name of
    a key. [fetch] is Model::fetch, which throws, or gives a block or none. *)

From stdpp Require Import base tactics option list.
From Stdlib Require Import ZArith Lia.
From S2P Require Import Prelude Versions Buffers Streams Addresses Nodes Signatures Blocks.
Open Scope Z_scope.

Module ContentBlocks.

Import Signatures Blocks.

Inductive error :=
  | Unfetched              (* what a fetch throws *)
  | GroupError             (* the block of a group cannot be fetched *)
  | NotOwner               (* Only block owner and network owner can delete UB *)
  | AssertError.

Record chb := mkCHB {
  c_address : Address.t;
  c_data : bytes;
  c_owner : Address.t;
  c_salt : bytes;
  c_validated : bool
}.

(** The owner of a NB is a shared pointer, [n_pointer], to a key. *)
Record nb {K : Type} := mkNB {
  n_address : Address.t;
  n_data : bytes;
  n_owner : K;
  n_pointer : nat;
  n_name : bytes;
  n_signature : bytes;
  n_validated : bool
}.
Arguments nb K : clear implicits.

Record ub {K : Type} := mkUB {
  u_address : Address.t;
  u_name : bytes;
  u_key : K;
  u_reverse : bool;
  u_passport : option (passport K);
  u_validated : bool
}.
Arguments ub K : clear implicits.

Inductive block {K P : Type} :=
  | OKB (o : okb K P)
  | ACB (b : acb K P)
  | CHB (c : chb)
  | NB (n : nb K)
  | UB (u : ub K).
Arguments block K P : clear implicits.

(** blocks::RemoveSignature. *)
Record remove_signature {K P : Type} := mkRemove {
  rs_block : option (block K P);
  signature_key : option K;
  rs_signature : option bytes;
  group_key : option K;
  group_index : option Z
}.
Arguments remove_signature K P : clear implicits.

Section Content.
Context {K P : Type} `{EqDecision K} `{EqDecision P} `{Crypto K P}.
Context (dn : doughnut K P) (dht_owner : K) (fetch : Address.t -> result error (option (block K P))).

Definition immutable_address (hash : bytes) (v : Version.t) : Address.t :=
  Address.with_flags hash Address.flag_immutable (Version.geb v v_0_5).

Definition no_signature : remove_signature K P := mkRemove _ _ None None None None None.

(** *** CHB *)

Definition owner_of (v : Version.t) (owner : Address.t) : Address.t :=
  if Version.geb v v_0_4 then owner else Address.null.
Definition hash_content (content : bytes) (owner : Address.t) (salt : bytes) (v : Version.t) :
    Address.t :=
  let owner := owner_of v owner in
  let saltowner := if Address.is_set owner then salt ++ Address.value owner else salt in
  immutable_address (sha256 (saltowner ++ content)) v.
Definition make_chb (d salt : bytes) (owner : Address.t) : chb :=
  mkCHB (hash_content d owner salt (dn_version dn)) d (owner_of (dn_version dn) owner) salt false.

Definition validate_chb (c : chb) : validation :=
  if Address.equal_unflagged (c_address c)
       (hash_content (c_data c) (c_owner c) (c_salt c) (dn_version dn))
  then Success else Failure.

(** The first group we are a member of signs. *)
Fixpoint group_signature (a : Address.t) (l : list (ACLEntry K)) : option (remove_signature K P) :=
  match l with
  | [] => None
  | e :: l' =>
      match current_key dn (key e), group dn (key e) with
      | Some p, Some g =>
          Some (mkRemove _ _ None (Some (public p)) (Some (sign p (Buffer (Address.value a))))
            (Some (key e)) (Some (Z.of_nat (length (group_public_keys g)) - 1)))
      | _, _ => group_signature a l'
      end
  end.
Definition sign_remove_chb (c : chb) : result error (remove_signature K P) :=
  if negb (Address.is_set (c_owner c)) then Ok no_signature
  else
    let ours := mkRemove _ _ None (Some (K_ dn))
                  (Some (sign (keys dn) (Buffer (Address.value (c_address c))))) None None in
    match fetch (c_owner c) with
    | Throw e => Throw e
    | Ok (Some (ACB b)) =>
        if decide (owner_key (okb_of b) = K_ dn) then Ok ours
        else
          match find_entry (K_ dn) (acl_entries b) with
          | Some e =>
              Ok (if can_write e then ours
                  else default ours (group_signature (c_address c) (acl_group_entries b)))
          | None => Ok (default ours (group_signature (c_address c) (acl_group_entries b)))
          end
    | Ok _ => Ok ours
    end.

(** Whether the key is that of a group which may write; an index that is not
    there, or negative, is out of the bounds of a vector. *)
Definition group_may_remove (b : acb K P) (k gk : K) (i : option Z) : result error validation :=
  match find_entry gk (acl_group_entries b) with
  | Some e =>
      if can_write e then
        match group dn gk with
        | None => Throw GroupError
        | Some g =>
            match i with
            | Some i =>
                if 0 <=? i then
                  match group_public_keys g !! Z.to_nat i with
                  | Some k' => Ok (if decide (k' = k) then Success else Failure)
                  | None => Ok Failure
                  end
                else Throw AssertError
            | None => Throw AssertError
            end
        end
      else Ok Failure
  | None => Ok Failure
  end.
Definition validate_remove_chb (c : chb) (rs : remove_signature K P) : result error validation :=
  if negb (Address.is_set (c_owner c)) then Ok Success
  else
    match signature_key rs, rs_signature rs with
    | Some k, Some s =>
        if negb (verify k s (Buffer (Address.value (c_address c)))) then Ok Failure
        else
          match fetch (c_owner c) with
          | Throw e => Throw e
          | Ok (Some (ACB b)) =>
              if world_writable b then Ok Success
              else if decide (owner_key (okb_of b) = k) then Ok Success
              else
                match group_key rs with
                | None =>
                    match find_entry k (acl_entries b) with
                    | Some e => Ok (if can_write e then Success else Failure)
                    | None => Ok Failure
                    end
                | Some gk => group_may_remove b k gk (group_index rs)
                end
          | Ok _ => Ok Success
          end
    | _, _ => Ok Failure
    end.

(** *** NB *)

Definition slash : Z := 47.
Definition nb_address (owner : K) (name : bytes) (v : Version.t) : Address.t :=
  immutable_address (sha256 ([78; 66; slash] ++ key_der owner ++ slash :: name)) v.
Definition make_nb (owner : K) (pointer : nat) (name d signature : bytes) : nb K :=
  mkNB _ (nb_address owner name (dn_version dn)) d owner pointer name signature false.
Definition nb_payload (n : nb K) : payload K :=
  NamedData (negb (Version.geb (dn_version dn) v_0_4)) (n_name n) (n_data n).
Definition seal_nb (n : nb K) : result error (nb K) :=
  if negb (bool_decide (n_signature n = [])) then Ok n
  else if decide (K_ dn = n_owner n)
  then Ok (mkNB _ (n_address n) (n_data n) (n_owner n) (n_pointer n) (n_name n)
             (sign (keys dn) (nb_payload n)) (n_validated n))
  else Throw AssertError.
Definition validate_nb (n : nb K) : validation :=
  if Address.equal_unflagged (n_address n) (nb_address (n_owner n) (n_name n) (dn_version dn)) &&
     verify (n_owner n) (n_signature n) (nb_payload n)
  then Success else Failure.
Definition validate_over_nb (n : nb K) (new : block K P) : validation :=
  match new with
  | NB n' =>
      if bool_decide (n_name n = n_name n') && Nat.eqb (n_pointer n) (n_pointer n') &&
         bool_decide (n_data n = n_data n')
      then Success else Failure
  | _ => Failure
  end.

(** The buffer of 14 bytes that is made of a string of 12: [beyond] are the two
    bytes that come after it in memory. *)
Definition marker (beyond : bytes) : bytes :=
  [77; 69; 77; 79; 95; 82; 69; 77; 79; 86; 69; 0] ++ beyond.
Definition sign_remove_nb (beyond : bytes) (pointer : nat) (n : nb K) :
    result error (remove_signature K P) :=
  n' ← seal_nb (make_nb (K_ dn) pointer (n_name n) (marker beyond) []);
  Ok (mkRemove _ _ (Some (NB n')) None None None None).
Definition validate_remove_nb (beyond : bytes) (n : nb K) (rs : remove_signature K P) : validation :=
  match rs_block rs with
  | Some (NB n') =>
      match (if n_validated n' then Success else validate_nb n') with
      | Success =>
          if negb (Address.eqb (n_address n') (n_address n)) then Failure
          else if bool_decide (n_owner n' = n_owner n) && bool_decide (n_data n' = marker beyond)
          then Success else Failure
      | r => r
      end
  | _ => Failure
  end.

(** *** UB *)

Definition ub_address (name : bytes) : Address.t :=
  immutable_address (sha256 ([85; 66; slash] ++ name)) (dn_version dn).
Definition rub_address (k : K) : Address.t :=
  immutable_address (sha256 ([82; 85; 66; slash] ++ key_der k)) (dn_version dn).
Definition make_ub (name : bytes) (k : K) (reverse : bool) (p : option (passport K)) : ub K :=
  mkUB _ (if reverse then rub_address k else ub_address name) name k reverse p false.
Definition validate_ub (u : ub K) : validation :=
  if Address.equal_unflagged (u_address u)
       (if u_reverse u then rub_address (u_key u) else ub_address (u_name u)) &&
     match u_passport u with Some p => bool_decide (user p = u_key u) | None => true end
  then Success else Failure.
Definition ub_payload (u : ub K) : payload K :=
  UserBlock (u_address u) (u_name u) (u_key u) (u_reverse u) (u_passport u).
Definition sign_remove_ub (u : ub K) : result error (remove_signature K P) :=
  if bool_decide (K_ dn = u_key u) || bool_decide (K_ dn = dht_owner)
  then Ok (mkRemove _ _ None (Some (K_ dn)) (Some (sign (keys dn) (ub_payload u))) None None)
  else Throw NotOwner.
Definition validate_remove_ub (u : ub K) (rs : remove_signature K P) : validation :=
  match signature_key rs, rs_signature rs with
  | Some k, Some s =>
      if verify k s (ub_payload u) && (bool_decide (k = dht_owner) || bool_decide (k = u_key u))
      then Success else Failure
  | _, _ => Failure
  end.
Definition validate_over_ub (u : ub K) (new : block K P) : validation :=
  match new with
  | UB u' =>
      if bool_decide (u_name u = u_name u') && bool_decide (u_key u = u_key u') &&
         Bool.eqb (u_reverse u) (u_reverse u')
      then Success else Failure
  | _ => Failure
  end.

(** *** Any block *)

Definition block_address (b : block K P) : Address.t :=
  match b with
  | OKB o => address o
  | ACB b => address (okb_of b)
  | CHB c => c_address c
  | NB n => n_address n
  | UB u => u_address u
  end.

(** MutableBlock::version, of those that are. *)
Definition block_version (b : block K P) : option Z :=
  match b with OKB o => Some (version o) | ACB b => Some (data_version b) | _ => None end.

(** Block::validate, which remembers a success. *)
Definition block_validated (b : block K P) : bool :=
  match b with
  | OKB o => validated o
  | ACB b => validated (okb_of b)
  | CHB c => c_validated c
  | NB n => n_validated n
  | UB u => u_validated u
  end.
Definition validate_block (b : block K P) (writing : bool) : validation :=
  if block_validated b then Success
  else
    match b with
    | OKB o => validate_owner dn owner_payload o
    | ACB b => validate_acb dn b writing
    | CHB c => validate_chb c
    | NB n => validate_nb n
    | UB u => validate_ub u
    end.

(** Block::validate of a new block, over this one. *)
Definition same_address (b b' : block K P) : validation :=
  if Address.eqb (block_address b) (block_address b') then Success else Failure.
Definition validate_over (b b' : block K P) : validation :=
  match b with
  | ACB old =>
      match same_address b b', b' with
      | Success, ACB new => validate_next old new
      | _, _ => Failure
      end
  | NB n => validate_over_nb n b'
  | UB u => validate_over_ub u b'
  | _ => same_address b b'
  end.

(** Block::validate_remove. *)
Definition validate_remove (beyond : bytes) (b : block K P) (rs : remove_signature K P) :
    result error validation :=
  match b with
  | OKB _ => Ok Success
  | ACB b =>
      Ok (validate_acb_remove dn b
            (match rs_block rs with Some (ACB m) => Some m | _ => None end))
  | CHB c => validate_remove_chb c rs
  | NB n => Ok (validate_remove_nb beyond n rs)
  | UB u => Ok (validate_remove_ub u rs)
  end.

(** A block that is deserialized. *)
Definition deserialized (v : Version.t) (pointer : nat) (b : block K P) : block K P :=
  match b with
  | OKB o => OKB (received_okb dn v o)
  | ACB b => ACB (received dn v b)
  | CHB c => CHB (mkCHB (c_address c) (c_data c) (c_owner c) (c_salt c) false)
  | NB n => NB (mkNB _ (n_address n) (n_data n) (n_owner n) pointer (n_name n) (n_signature n) false)
  | UB u => UB (mkUB _ (u_address u) (u_name u) (u_key u) (u_reverse u) (u_passport u) false)
  end.
End Content.
End ContentBlocks.
