(* ===== verification/ContentTheorems.v ===== *)
(** The theorems on immutable blocks: their addresses, and who removes them. *)

From stdpp Require Import base tactics option list.
From Stdlib Require Import ZArith Lia.
From S2P Require Import Prelude Versions Buffers Streams Addresses Nodes Signatures Blocks BlockProperties ContentBlocks.
Import Signatures Blocks ContentBlocks.
Open Scope Z_scope.

Lemma equal_unflagged_refl a : Address.equal_unflagged a a = true.
Proof. unfold Address.equal_unflagged. by rewrite memcmp_refl. Qed.

Lemma eqb_refl a : Address.eqb a a = true.
Proof. unfold Address.eqb, Address.cmp. by rewrite memcmp_refl. Qed.

Section Theorems.
Context {K P : Type} `{EqDecision K} `{EqDecision P} `{!Crypto K P}.
Context (dn : doughnut K P) (fetch : Address.t -> result error (option (block K P))).

Implicit Types (c : chb) (b : acb K P) (rs : remove_signature K P).

Lemma null_not_set : Address.is_set Address.null = false.
Proof. unfold Address.is_set. by rewrite eqb_refl. Qed.

Lemma owner_of_twice v a : owner_of v (owner_of v a) = owner_of v a.
Proof. unfold owner_of. by destruct (Version.geb v v_0_4). Qed.

Lemma made_chb_is_valid d salt a : validate_chb dn (make_chb dn d salt a) = Success.
Proof.
  unfold validate_chb, make_chb, hash_content. cbn [c_address c_data c_owner c_salt].
  by rewrite owner_of_twice, equal_unflagged_refl.
Qed.

(** The same content, with nothing between the salt and the data. *)
Definition split_again c (salt d : bytes) : chb := mkCHB (c_address c) d Address.null salt false.

Lemma split_again_is_valid c salt d :
  validate_chb dn c = Success ->
  salt ++ d = (if Address.is_set (owner_of (dn_version dn) (c_owner c))
               then c_salt c ++ Address.value (owner_of (dn_version dn) (c_owner c))
               else c_salt c) ++ c_data c ->
  validate_chb dn (split_again c salt d) = Success.
Proof.
  unfold validate_chb, hash_content, split_again. cbn [c_address c_data c_owner c_salt].
  set (o := owner_of _ (c_owner c)).
  assert (owner_of (dn_version dn) Address.null = Address.null) as ->
    by (unfold owner_of; by destruct (Version.geb _ _)).
  rewrite null_not_set. by intros V ->.
Qed.

(** The address of a CHB does not tell the salt, the owner and the data
    apart: for any other way to cut what is hashed there is a valid block with
    the same address and no owner, which may replace the first one, and which
    anybody may then remove. *)
Theorem chb_is_malleable c salt d :
  validate_chb dn c = Success ->
  salt ++ d = (if Address.is_set (owner_of (dn_version dn) (c_owner c))
               then c_salt c ++ Address.value (owner_of (dn_version dn) (c_owner c))
               else c_salt c) ++ c_data c ->
  exists c', c_address c' = c_address c /\ c_data c' = d /\ validate_chb dn c' = Success /\
    validate_over (CHB (K := K) (P := P) c) (CHB c') = Success /\
    validate_remove_chb dn fetch c' no_signature = Ok Success.
Proof.
  intros V E. exists (split_again c salt d).
  split; [done|]. split; [done|]. split; [by apply split_again_is_valid|]. split.
  - unfold validate_over, same_address. cbn. by rewrite eqb_refl.
  - unfold validate_remove_chb. cbn [split_again c_owner]. by rewrite null_not_set.
Qed.

(** The owner of the ACB that owns a CHB, and each of its writers, signs a
    removal that is accepted. *)
Theorem writers_remove_chb `{!LawfulCrypto K P} c b :
  (Address.is_set (c_owner c) = true -> fetch (c_owner c) = Ok (Some (ACB b))) ->
  owner_key (okb_of b) = K_ dn \/
    (exists e, find_entry (K_ dn) (acl_entries b) = Some e /\ can_write e = true) ->
  exists rs, sign_remove_chb dn fetch c = Ok rs /\
    validate_remove_chb dn fetch c rs = Ok Success.
Proof.
  intros F W. unfold sign_remove_chb, validate_remove_chb.
  destruct (Address.is_set (c_owner c)); [|by eexists].
  cbn [negb]. rewrite F by done.
  set (ours := mkRemove _ _ _ _ _ _ _). exists ours. split.
  - destruct (decide (owner_key (okb_of b) = K_ dn)) as [|N]; [done|].
    destruct W as [|(e & -> & W)]; [done|]. by rewrite W.
  - cbn. change (K_ dn) with (public (keys dn)) in *. rewrite verify_sign. cbn.
    destruct (world_writable b); [done|].
    destruct (decide (owner_key (okb_of b) = public (keys dn))) as [|N]; [done|].
    destruct W as [|(e & -> & W)]; [done|]. by rewrite W.
Qed.

(** A removal that is accepted, of a CHB whose owner is an ACB that not
    everybody may write, is signed by one who may write it. *)
Theorem chb_removal_is_authorised `{!LawfulCrypto K P} `{!Unforgeable K P} c b rs :
  Address.is_set (c_owner c) = true -> fetch (c_owner c) = Ok (Some (ACB b)) ->
  world_writable b = false -> validate_remove_chb dn fetch c rs = Ok Success ->
  exists p, writer dn b (public p) /\
    rs_signature rs = Some (sign p (Buffer (Address.value (c_address c)))).
Proof.
  intros Os F W V. unfold validate_remove_chb in V. rewrite Os, F, W in V. cbn in V.
  destruct (signature_key rs) as [k|]; [|done]. destruct (rs_signature rs) as [s|]; [|done].
  destruct (verify k s _) eqn:Ve; [|done]. cbn in V.
  apply verify_signed in Ve as (p & <- & ->). exists p. split; [|done].
  destruct (decide (owner_key (okb_of b) = public p)) as [<-|]; [apply owner_writes|].
  destruct (group_key rs) as [gk|].
  - unfold group_may_remove in V. destruct (find_entry gk _) as [e|] eqn:Fe; [|done].
    apply find_entry_key in Fe as [Ke I]. destruct (can_write e) eqn:We; [|done].
    destruct (group dn gk) as [g|] eqn:G; [|done].
    destruct (group_index rs) as [i|]; [|done]. destruct (0 <=? i); [|done].
    destruct (group_public_keys g !! Z.to_nat i) as [k'|] eqn:L; [|done].
    destruct (decide (k' = public p)) as [->|]; [|done].
    eapply group_writes; [done..|by rewrite Ke|by eapply list_elem_of_lookup_2].
  - destruct (find_entry (public p) _) as [e|] eqn:Fe; [|done].
    apply find_entry_key in Fe as [Ke I]. destruct (can_write e) eqn:We; [|done].
    rewrite <- Ke. by apply user_writes.
Qed.

(** The removal of a NB that its owner signs is accepted by a node that has
    the same bytes after the string in its memory, and by no other. *)
Theorem nb_removal_needs_same_memory `{!LawfulCrypto K P} beyond beyond' pointer (n : nb K) :
  n_owner n = K_ dn -> n_address n = nb_address (K_ dn) (n_name n) (dn_version dn) ->
  exists rs, sign_remove_nb dn beyond pointer n = Ok rs /\
    (validate_remove_nb dn beyond' n rs = Success <-> beyond = beyond').
Proof.
  intros O A. unfold sign_remove_nb, seal_nb, make_nb. cbn [n_signature n_owner].
  rewrite bool_decide_true by done. cbn [negb]. rewrite decide_True by done. cbn.
  eexists. split; [done|]. unfold validate_remove_nb. cbn [rs_block n_validated].
  unfold validate_nb. cbn.
  rewrite equal_unflagged_refl. cbn [andb].
  assert (forall m, verify (K_ dn) (sign (keys dn) m) m = true) as Vs
    by (intros m; apply verify_sign).
  unfold nb_payload. cbn. rewrite Vs, A, eqb_refl. cbn. rewrite O, bool_decide_true by done. cbn.
  case_bool_decide as M; split; try done; intros; simplify_eq; done.
Qed.
End Theorems.

(** *** The theorems on concrete blocks *)

Section Witnesses.
Definition here (k : Z) : doughnut Z Z :=
  mkDoughnut _ _ k (Version.make 0 8 0) true [] [] [] [] (fun _ => None).
Definition directory : acb Z Z :=
  set_entries [mkEntry _ 2 true true []] (make_acb (here 1) [7] [5] 1).
Definition directories (a : Address.t) : result error (option (block Z Z)) :=
  Ok (Some (ACB directory)).
Definition file : chb := make_chb (here 2) [1; 2; 3] [9] (address (okb_of directory)).
Definition name_block : nb Z := make_nb (here 1) 1 0 [110] [7] [].

Lemma chb_is_malleable_witness : exists c',
  c_address c' = c_address file /\ c_data c' = [3] /\ validate_chb (here 2) c' = Success /\
  validate_over (CHB (K := Z) (P := Z) file) (CHB c') = Success /\
  validate_remove_chb (here 2) directories c' no_signature = Ok Success.
Proof.
  apply (chb_is_malleable (here 2) directories file
    ([9] ++ Address.value (address (okb_of directory)) ++ [1; 2]) [3]); vm_compute; reflexivity.
Defined.

Lemma writers_remove_chb_witness : exists rs,
  sign_remove_chb (here 2) directories file = Ok rs /\
  validate_remove_chb (here 2) directories file rs = Ok Success.
Proof.
  apply (writers_remove_chb (here 2) directories file directory); [done|].
  right. exists (mkEntry _ 2 true true []). by split.
Defined.

Lemma chb_removal_is_authorised_witness :
  exists p : Z, writer (here 2) directory (public p) /\
    Some (sign 2 (Buffer (Address.value (c_address file)))) =
    Some (sign p (Buffer (Address.value (c_address file)))).
Proof.
  apply (chb_removal_is_authorised (here 2) directories file directory
    (mkRemove _ _ None (Some 2) (Some (sign 2 (Buffer (Address.value (c_address file))))) None None));
    vm_compute; reflexivity.
Defined.

Lemma nb_removal_needs_same_memory_witness : exists rs,
  sign_remove_nb (here 1) [1; 1] 1 name_block = Ok rs /\
  (validate_remove_nb (here 1) [2; 2] name_block rs = Success <-> [1; 1] = [2; 2]).
Proof.
  apply (nb_removal_needs_same_memory (here 1) [1; 1] [2; 2] 1 name_block); reflexivity.
Defined.
End Witnesses.
