(* ===== verification/LocalStore.v ===== *)
(** The blocks a node stores: the storage of memo/model/doughnut/Local.cc.

    A block is stored serialized in a silo; [Local::store] validates it, and
    against the block it replaces, [Local::remove] validates the signature of
    the removal. The state is the silo, and the blocks and addresses the
    signals gave. *)

From stdpp Require Import base tactics option list gmap.
From Stdlib Require Import ZArith Lia.
From S2P Require Import Prelude Versions Buffers Streams Addresses Nodes Silos Signatures Blocks ContentBlocks.
Open Scope Z_scope.

Module LocalStore.

Import Signatures Blocks ContentBlocks.

Inductive mode := STORE_INSERT | STORE_UPDATE.

Inductive store_error {B : Type} :=
  | ValidationFailed
  | Conflict (current : B)
  | MissingBlock (a : Address.t)
  | SiloFailed (e : silo_error)
  | RemovalFailed (e : ContentBlocks.error).
Arguments store_error B : clear implicits.

(** [pointer] is what the next object that is allocated is. *)
Record state {S B : Type} := mkState {
  storage : S;
  pointer : nat;
  on_store : list B;
  on_remove : list Address.t
}.
Arguments state S B : clear implicits.

Section LocalStore.
Context {K P S : Type} `{EqDecision K} `{EqDecision P} `{Crypto K P}.
Context `{SiloImpl (block K P) S}.
Context (dn : doughnut K P) (dht_owner : K)
  (fetched : Address.t -> result ContentBlocks.error (option (block K P)))
  (beyond : bytes) (serialization : Version.t).

Abbreviation B := (block K P).
Abbreviation M := (method (state S B) (store_error B)).

Definition set_storage (st : S) (s : state S B) : state S B :=
  mkState _ _ st (pointer s) (on_store s) (on_remove s).
Definition allocate (s : state S B) : state S B :=
  mkState _ _ (storage s) (pointer s + 1) (on_store s) (on_remove s).
Definition signal_store (b : B) (s : state S B) : state S B :=
  mkState _ _ (storage s) (pointer s) (on_store s ++ [b]) (on_remove s).
Definition signal_remove (a : Address.t) (s : state S B) : state S B :=
  mkState _ _ (storage s) (pointer s) (on_store s) (on_remove s ++ [a]).

Definition on_silo {A} (m : method S silo_error A) : M A :=
  fun s =>
    match m (storage s) with
    | (Ok a, st) => (Ok a, set_storage st s)
    | (Throw e, st) => (Throw (SiloFailed e), set_storage st s)
    end.
(** [catch (silo::MissingKey const&)]. *)
Definition missing {A} (h : M A) (e : store_error B) : option (M A) :=
  match e with SiloFailed (MissingKey _) => Some h | _ => None end.

(** The block of an address, deserialized. *)
Definition get (a : Address.t) : M B :=
  b ← on_silo (Silo.get a);
  s ← Prelude.read;
  modify allocate;;
  mret (deserialized dn serialization (pointer s) b).

Definition accept (previous : B) (v : validation) : M unit :=
  match v with
  | Success => mret tt
  | Conflicting => throw (Conflict previous)
  | Failure => throw ValidationFailed
  end.

(** What is checked against the block that is there. *)
Definition check_previous (b : B) : M unit :=
  previous ← get (block_address b);
  (match block_version b with
   | Some v =>
       match block_version previous with
       | None => throw ValidationFailed
       | Some v' => if v <=? v' then throw (Conflict previous) else mret tt
       end
   | None => mret tt
   end);;
  accept previous (validate_over previous b).

Definition is_insert (m : mode) : bool := match m with STORE_INSERT => true | _ => false end.
Definition is_update (m : mode) : bool := match m with STORE_UPDATE => true | _ => false end.

Definition store (b : B) (m : mode) : M unit :=
  match validate_block dn b true with
  | Success =>
      try_catch (check_previous b) (missing (mret tt));;
      try_catch (on_silo (Silo.set (block_address b) b (is_insert m) (is_update m));; mret tt)
        (missing (throw (MissingBlock (block_address b))));;
      modify (signal_store b)
  | _ => throw ValidationFailed
  end.

Definition fetch (a : Address.t) : M B :=
  try_catch (get a) (missing (throw (MissingBlock a))).

Definition remove (a : Address.t) (rs : remove_signature K P) : M unit :=
  try_catch
    ((if Version.geb (dn_version dn) v_0_4 then
        previous ← get a;
        match validate_remove dn dht_owner fetched beyond previous rs with
        | Ok v => accept previous v
        | Throw e => throw (RemovalFailed e)
        end
      else mret tt);;
     on_silo (Silo.erase a);; mret tt)
    (missing (throw (MissingBlock a)));;
  modify (signal_remove a).
End LocalStore.
End LocalStore.
