(* ===== verification/StoreTheorems.v ===== *)
(** The theorems on the blocks a node stores: what a store that succeeds
    checked, and what the checks let through. *)

From stdpp Require Import base tactics option list gmap relations.
From Stdlib Require Import ZArith Lia.
From S2P Require Import Prelude Versions Buffers Streams Addresses Nodes Silos SiloAdapters Signatures Blocks BlockProperties BlockTheorems ContentBlocks ContentTheorems LocalStore.
Import Signatures Blocks ContentBlocks LocalStore.
Open Scope Z_scope.

Section Theorems.
Context {K P S : Type} `{EqDecision K} `{EqDecision P} `{!Crypto K P}.
Context `{SiloSpec (block K P) S}.
Context (dn : doughnut K P) (dht_owner : K)
  (fetched : Address.t -> result ContentBlocks.error (option (block K P)))
  (beyond : bytes) (serialization : Version.t).

Abbreviation B := (block K P).
Implicit Types (s : state S B) (b : B) (a : Address.t).

Definition holds s : Address.t -> option B := contents (storage s).
Definition sound s : Prop := silo_ok (storage s).

Abbreviation load := (deserialized dn serialization).

Lemma get_block a s : sound s -> Address.wf a -> exists s',
  get dn serialization a s =
    (match holds s a with
     | Some b => Ok (load (pointer s) b)
     | None => Throw (SiloFailed (MissingKey a))
     end, s') /\ sound s' /\ same (holds s) (holds s') /\ on_store s' = on_store s.
Proof.
  intros O W. unfold get, on_silo, mbind, method_bind, Prelude.read, modify, mret, method_ret.
  destruct (Silo.get a (storage s)) as [r st] eqn:E.
  destruct (silo_get_spec _ _ _ _ O W E) as (O' & Sm & R). unfold holds.
  destruct (contents (storage s) a) as [b|]; subst r; by eexists.
Qed.

(** A block that may take the place of another. *)
Definition replaces (p : nat) (previous b : B) : Prop :=
  validate_over (load p previous) b = Success /\
  forall v, block_version b = Some v ->
    exists v', block_version previous = Some v' /\ v' < v.

Lemma loaded_version p b : block_version (load p b) = block_version b.
Proof. by destruct b. Qed.

Lemma check_previous_spec b s : sound s -> Address.wf (block_address b) -> exists s' r,
  check_previous dn serialization b s = (r, s') /\
  sound s' /\ same (holds s) (holds s') /\ on_store s' = on_store s /\
  match holds s (block_address b) with
  | None => r = Throw (SiloFailed (MissingKey (block_address b)))
  | Some previous =>
      (r = Ok tt /\ replaces (pointer s) previous b) \/
      (exists e, r = Throw e /\ missing (mret tt : method (state S B) _ unit) e = None)
  end.
Proof.
  intros O W. destruct (get_block _ _ O W) as (s1 & G & O1 & Sm & Os).
  unfold check_previous. exists s1.
  destruct (holds s (block_address b)) as [previous|].
  - rewrite (bind_Ok _ _ _ _ _ G). rewrite loaded_version. unfold replaces.
    unfold accept, mbind, method_bind, throw, mret, method_ret.
    destruct (block_version b) as [v|].
    + destruct (block_version previous) as [v'|]; [destruct (Z.leb_spec v v')|];
        [..|destruct (validate_over _ _)|]; eexists; (split; [done|]);
        repeat (split; [done|]); try (by right; eexists).
      left. split; [done|]. split; [done|]. intros ? [= <-]. by exists v'.
    + destruct (validate_over _ _); eexists; (split; [done|]);
        repeat (split; [done|]); try (by right; eexists). by left.
  - rewrite (bind_Throw _ _ _ _ _ G). by eexists.
Qed.

Lemma samev_trans (f g h : Address.t -> option B) : same f g -> same g h -> same f h.
Proof. intros E1 E2 k W. by rewrite E2, E1. Qed.

(** The outcome of a store. *)
Lemma store_outcome b m s r s' : sound s -> Address.wf (block_address b) ->
  store dn serialization b m s = (r, s') ->
  sound s' /\
  match r with
  | Ok _ => validate_block dn b true = Success /\
      stored (block_address b) b (holds s) (holds s') /\ on_store s' = on_store s ++ [b] /\
      match holds s (block_address b) with
      | None => m = STORE_INSERT
      | Some previous => m = STORE_UPDATE /\ replaces (pointer s) previous b
      end
  | Throw _ => same (holds s) (holds s') /\ on_store s' = on_store s
  end.
Proof.
  intros O W E. unfold store in E.
  destruct (validate_block dn b true); [|by injection E as <- <-..].
  destruct (check_previous_spec b s O W) as (s1 & r1 & C & O1 & Sm & Os & R).
  assert ((exists e, r1 = Throw e /\ missing (mret tt : method (state S B) _ unit) e = None) \/
    try_catch (check_previous dn serialization b) (missing (mret tt)) s = (Ok tt, s1) /\
    match holds s (block_address b) with
    | None => True | Some previous => replaces (pointer s) previous b end) as [(e & -> & M)|[C1 Rp]].
  { unfold try_catch. rewrite C.
    destruct (holds s (block_address b)); [|subst r1; by right].
    destruct R as [[-> R]|R]; [by right|by left]. }
  { rewrite (bind_Throw _ _ s e s1) in E; [by injection E as <- <-|].
    unfold try_catch. by rewrite C, M. }
  rewrite (bind_Ok _ _ _ _ _ C1) in E.
  destruct (Silo.set (block_address b) b (is_insert m) (is_update m) (storage s1)) as [r2 st] eqn:Se.
  pose proof (silo_set_spec _ _ _ _ _ _ _ O1 W Se) as X.
  replace (is_insert m || is_update m) with true in X by (by destruct m).
  destruct X as [O2 X]. unfold set_outcome in X.
  unfold on_silo, modify, mbind, method_bind, try_catch, throw, mret, method_ret in E.
  rewrite Se in E. destruct r2 as [d|e].
  - destruct X as [X1 X2]. injection E as <- <-. split; [done|]. split; [done|].
    split; [intros k Wk; cbn; unfold holds; cbn; rewrite X2 by done; case_decide; [done|by apply Sm]|].
    split; [cbn; by rewrite Os|]. unfold holds in *. rewrite (Sm _ W) in X1.
    destruct (contents (storage s) (block_address b)); cbn in X1; by destruct m.
  - destruct X as [X _].
    assert (same (holds s) (contents st)) as Sm' by (by eapply samev_trans).
    destruct e; injection E as <- <-; by split.
Qed.
Lemma fetch_outcome a s : sound s -> Address.wf a -> exists s',
  fetch dn serialization a s =
    (match holds s a with
     | Some b => Ok (load (pointer s) b)
     | None => Throw (MissingBlock a)
     end, s') /\ sound s' /\ same (holds s) (holds s').
Proof.
  intros O W. destruct (get_block a s O W) as (s' & G & O' & Sm & _). exists s'.
  unfold fetch, try_catch. rewrite G. by destruct (holds s a).
Qed.

(** What is stored is what is fetched, and the rest is as it was. *)
Theorem stored_is_fetched b m s s' : sound s -> Address.wf (block_address b) ->
  store dn serialization b m s = (Ok tt, s') ->
  (fetch dn serialization (block_address b) s').1 = Ok (load (pointer s') b) /\
  (forall a, Address.wf a -> a <> block_address b ->
     is_ok (fetch dn serialization a s').1 = is_ok (fetch dn serialization a s).1 /\
     holds s' a = holds s a).
Proof.
  intros O W E. destruct (store_outcome _ _ _ _ _ O W E) as (O' & _ & St & _ & _). split.
  - destruct (fetch_outcome _ _ O' W) as (? & -> & _). cbn. by rewrite (St _ W), decide_True.
  - intros a Wa N. destruct (fetch_outcome _ _ O' Wa) as (? & -> & _).
    destruct (fetch_outcome _ _ O Wa) as (? & -> & _). cbn.
    rewrite (St _ Wa), decide_False by done. by destruct (holds s a).
Qed.

(** A removal that succeeds takes the block away, and one that fails nothing. *)
Lemma remove_outcome a rs s r s' : sound s -> Address.wf a ->
  remove dn dht_owner fetched beyond serialization a rs s = (r, s') ->
  sound s' /\ forall k, Address.wf k -> holds s' k =
    if is_ok r then if decide (k = a) then None else holds s k else holds s k.
Proof.
  intros O W E.
  assert (exists (r1 : result _ unit) s1, ((if Version.geb (dn_version dn) v_0_4 then
        previous ← get dn serialization a;
        match ContentBlocks.validate_remove dn dht_owner fetched beyond previous rs with
        | Ok v => accept previous v
        | Throw e => throw (RemovalFailed e)
        end
      else mret tt) : method (state S B) _ unit) s = (r1, s1) /\ sound s1 /\
      same (holds s) (holds s1)) as (r1 & s1 & E1 & O1 & Sm).
  { destruct (Version.geb _ _); [|by exists (Ok tt), s].
    destruct (get_block _ _ O W) as (s1 & G & O1 & Sm & _).
    unfold mbind, method_bind. rewrite G.
    destruct (holds s a); [|by eexists _, s1].
    destruct (ContentBlocks.validate_remove _ _ _ _ _ _) as [v|]; [|by eexists _, s1].
    unfold accept. destruct v; by eexists _, s1. }
  unfold remove, try_catch in E. unfold mbind, method_bind in E, E1. rewrite E1 in E.
  destruct r1 as [[]|e1].
  - unfold on_silo in E. destruct (Silo.erase a (storage s1)) as [r2 st] eqn:Er.
    destruct (silo_erase_spec _ _ _ _ O1 W Er) as [O2 X]. unfold erase_outcome in X.
    destruct r2 as [d|e]; cbn in E.
    + injection E as <- <-. split; [done|]. intros k Wk. unfold holds in *. cbn.
      destruct X as [_ X]. rewrite (X _ Wk). case_decide; [done|]. by apply Sm.
    + destruct X as [X _]. destruct e; cbn in E; injection E as <- <-; (split; [done|]);
        intros ? ?; unfold holds in *; cbn; rewrite X by done; by apply Sm.
  - assert (is_ok r = false /\ s' = s1) as [Ir ->].
    { revert E. destruct e1 as [| | |[]|]; cbn; by intros [= <- <-]. }
    rewrite Ir. split; [done|]. intros k Wk. by apply Sm.
Qed.

(** What nodes ask of the storage, where the block at [at_] is not removed. *)
Inductive request (at_ : Address.t) s : state S B -> Prop :=
  | Store b m r s' : Address.wf (block_address b) ->
      store dn serialization b m s = (r, s') -> request at_ s s'
  | Fetch a r s' : Address.wf a -> fetch dn serialization a s = (r, s') -> request at_ s s'
  | Remove a rs r s' : Address.wf a ->
      remove dn dht_owner fetched beyond serialization a rs s = (r, s') ->
      (a = at_ -> is_ok r = false) -> request at_ s s'.

Lemma request_acb s s' a (b : acb K P) : sound s -> request a s s' -> Address.wf a ->
  holds s a = Some (ACB b) ->
  sound s' /\ exists b' : acb K P, holds s' a = Some (ACB b') /\ (b' = b \/ data_version b < data_version b').
Proof.
  intros O R W Ha. destruct R as [nb m r s' Wn E|a' r s' Wn E|a' rs r s' Wn E Rf].
  - destruct (store_outcome _ _ _ _ _ O Wn E) as [O' X]. split; [done|].
    destruct r as [[]|e].
    + destruct X as (_ & St & _ & Rp). rewrite (St _ W).
      destruct (decide (a = block_address nb)) as [->|]; [|exists b; by split; [|left]].
      rewrite Ha in Rp. destruct Rp as (_ & Vo & Ve). cbn in Vo.
      destruct (same_address _ _); try done. destruct nb as [|b'| | |]; try done.
      exists b'. split; [done|]. right. destruct (Ve _ eq_refl) as (v' & [= <-] & L). done.
    + destruct X as [Sm _]. rewrite (Sm _ W). exists b. by split; [|left].
  - destruct (fetch_outcome _ _ O Wn) as (s1 & E1 & O1 & Sm). rewrite E1 in E.
    injection E as _ <-. split; [done|]. rewrite (Sm _ W). exists b. by split; [|left].
  - destruct (remove_outcome _ _ _ _ _ O Wn E) as [O' Sm]. split; [done|].
    exists b. split; [|by left]. rewrite (Sm _ W).
    destruct (decide (a = a')) as [->|]; [by rewrite (Rf eq_refl)|by destruct (is_ok r)].
Qed.

(** C31. As long as it is not removed, the version of the data of an ACB never goes back:
    whatever nodes store and fetch, whatever they remove elsewhere, and whatever removals
    of it are refused, a block that is stored stays until one with a greater version
    takes its place. *)
Theorem versions_never_go_back s s' a (b : acb K P) : sound s -> rtc (request a) s s' ->
  Address.wf a -> holds s a = Some (ACB b) ->
  exists b' : acb K P, holds s' a = Some (ACB b') /\ (b' = b \/ data_version b < data_version b').
Proof.
  intros O R W. revert b. induction R as [|s s1 s' R1 R IH]; intros b Ha; [by exists b; auto|].
  destruct (request_acb _ _ _ _ O R1 W Ha) as (O1 & b1 & H1 & L1).
  destruct (IH O1 _ H1) as (b' & H' & L'). exists b'. split; [done|].
  destruct L1 as [->|L1], L' as [->|L']; (by left) || (right; lia).
Qed.

Lemma update_succeeds `{!Unrefusing (block K P) S} previous b s : sound s -> Address.wf (block_address b) ->
  holds s (block_address b) = Some previous -> validate_block dn b true = Success ->
  replaces (pointer s) previous b ->
  exists s', store dn serialization b STORE_UPDATE s = (Ok tt, s') /\ sound s' /\
    stored (block_address b) b (holds s) (holds s').
Proof.
  intros O W Ha V [Vo Ve].
  destruct (store dn serialization b STORE_UPDATE s) as [r s'] eqn:E.
  pose proof (store_outcome _ _ _ _ _ O W E) as [O' X].
  destruct r as [[]|e]; [exists s'; split; [done|]; split; [done|]; apply X|]. exfalso.
  unfold store in E. rewrite V in E. destruct (get_block _ _ O W) as (s1 & G & O1 & Sm & _).
  rewrite Ha in G.
  assert (try_catch (check_previous dn serialization b) (missing (mret tt)) s = (Ok tt, s1)) as C.
  { unfold try_catch, check_previous. rewrite (bind_Ok _ _ _ _ _ G). rewrite loaded_version.
    rewrite Vo. unfold accept, mbind, method_bind, mret, method_ret.
    destruct (block_version b) as [v|]; [|done].
    destruct (Ve v eq_refl) as (v' & -> & L). by destruct (Z.leb_spec v v'); [lia|]. }
  rewrite (bind_Ok _ _ _ _ _ C) in E. cbn [is_insert is_update] in E.
  destruct (Silo.set (block_address b) b false true (storage s1)) as [r2 st] eqn:Se.
  pose proof (silo_set_spec _ _ _ _ _ _ _ O1 W Se) as [_ Y].
  unfold on_silo, modify, mbind, method_bind, try_catch, throw, mret, method_ret in E.
  rewrite Se in E. destruct r2 as [d|e2]; [done|].
  destruct Y as [_ [Y|Y]].
  - unfold holds in *. rewrite (Sm _ W), Ha in Y. done.
  - by eapply (never_refuses _ _ _ _ _ _ _ O1 W Se).
Qed.
(** C12. With a block in which it was allowed to write, that may be older than
    the one that is stored, a user stores any data over it, and its old list
    with it, whatever the current list says. *)
Theorem revoked_writer_overwrites `{!LawfulCrypto K P} `{!Unrefusing (block K P) S}
    s old cur i e p d : sound s -> Address.wf (address (okb_of old)) ->
  holds s (address (okb_of old)) = Some (ACB cur) ->
  address (okb_of cur) = address (okb_of old) ->
  validate_acb dn old true = Success -> acl_group_entries old = [] -> group_version old = [] ->
  acl_entries old !! i = Some e -> can_write e = true -> key e = public p ->
  exists forged s', store dn serialization (ACB forged) STORE_UPDATE s = (Ok tt, s') /\
    holds s' (address (okb_of old)) = Some (ACB forged) /\
    data (okb_of forged) = d /\ acl_entries forged = acl_entries old.
Proof.
  intros O W Ha Ad V Gs Vs L Wr Ke.
  set (forged := forge dn old (data_version cur + 1) i p d).
  assert (block_address (ACB forged) = address (okb_of old)) as Af by done.
  destruct (update_succeeds (ACB cur) (ACB forged) s) as (s' & E & _ & St); rewrite ?Af; try done.
  - unfold validate_block. destruct (block_validated _); [done|]. by eapply forged_is_valid.
  - split.
    + cbn [deserialized]. unfold validate_over, same_address.
      cbn [block_address received received_okb okb_of address]. rewrite Ad, eqb_refl.
      apply forged_is_next; [done..|]. cbn. by rewrite Ad, eqb_refl.
    + intros v. cbn. intros [= <-]. eexists. split; [done|]. lia.
  - exists forged, s'. split; [done|]. split; [|done]. rewrite Af in St.
    by rewrite (St _ W), decide_True.
Qed.

(** A NB is never written again, not even the same one: the owner of the
    block that is read is another pointer than that of the block to write. *)
Theorem nb_is_never_written_again s (n n' : nb K) m : sound s -> Address.wf (n_address n') ->
  holds s (n_address n') = Some (NB n) -> (n_pointer n' < pointer s)%nat ->
  exists s', store dn serialization (NB n') m s = (Throw ValidationFailed, s') /\
    same (holds s) (holds s').
Proof.
  intros O W Ha Np. unfold store. destruct (validate_block dn (NB n') true);
    [|exists s; by split..].
  destruct (get_block _ _ O W) as (s1 & G & O1 & Sm & _). rewrite Ha in G. exists s1.
  split; [|done]. apply bind_Throw. unfold try_catch, check_previous.
  cbn [block_address]. rewrite (bind_Ok _ _ _ _ _ G). cbn [block_version deserialized].
  rewrite bind_ret_l. cbn [validate_over]. unfold validate_over_nb. cbn [n_pointer n_name n_data].
  destruct (Nat.eqb_spec (pointer s) (n_pointer n')); [lia|].
  by rewrite andb_false_r.
Qed.
Lemma removal_succeeds rs a b s : sound s -> Address.wf a -> holds s a = Some b ->
  (forall p, ContentBlocks.validate_remove dn dht_owner fetched beyond (load p b) rs = Ok Success) ->
  exists s', remove dn dht_owner fetched beyond serialization a rs s = (Ok tt, s') /\
    holds s' a = None.
Proof.
  intros O W Ha V.
  assert (exists s1, ((if Version.geb (dn_version dn) v_0_4 then
        previous ← get dn serialization a;
        match ContentBlocks.validate_remove dn dht_owner fetched beyond previous rs with
        | Ok v => accept previous v
        | Throw e => throw (RemovalFailed e)
        end
      else mret tt) : method (state S B) _ unit) s = (Ok tt, s1) /\ sound s1 /\
      same (holds s) (holds s1)) as (s1 & E1 & O1 & Sm).
  { destruct (Version.geb _ _); [|by exists s].
    destruct (get_block _ _ O W) as (s1 & G & O1 & Sm & _). rewrite Ha in G. exists s1.
    split; [|done]. by rewrite (bind_Ok _ _ _ _ _ G), V. }
  destruct (Silo.erase a (storage s1)) as [r st] eqn:E.
  destruct (silo_erase_spec _ _ _ _ O1 W E) as [O2 X]. unfold erase_outcome in X.
  unfold remove, try_catch. unfold mbind, method_bind. unfold mbind, method_bind in E1.
  rewrite E1. unfold on_silo. rewrite E. destruct r as [d|e].
  - eexists. split; [done|]. destruct X as [_ X]. unfold holds. cbn.
    by rewrite (X _ W), decide_True.
  - destruct X as (_ & N & _). unfold holds in *. by rewrite (Sm _ W), Ha in N.
Qed.

(** Anybody removes any CHB, whoever owns it: over the block, it stores one
    that has its address and no owner, and a removal without a signature is
    then accepted. *)
Theorem anybody_removes_a_chb `{!Unrefusing (block K P) S} s c : sound s ->
  Address.wf (c_address c) -> holds s (c_address c) = Some (CHB c) ->
  validate_chb dn c = Success ->
  exists c' s1 s2, c_data c' = c_data c /\
    store dn serialization (CHB c') STORE_UPDATE s = (Ok tt, s1) /\
    remove dn dht_owner fetched beyond serialization (c_address c) no_signature s1 = (Ok tt, s2) /\
    holds s2 (c_address c) = None.
Proof.
  intros O W Ha V.
  set (o := owner_of (dn_version dn) (c_owner c)).
  set (c' := split_again c (if Address.is_set o then c_salt c ++ Address.value o else c_salt c)
               (c_data c)).
  assert (validate_chb dn c' = Success) as V' by (by apply split_again_is_valid).
  destruct (update_succeeds (CHB c) (CHB c') s) as (s1 & E & O1 & St); try done.
  - split; [|done]. cbn [deserialized]. unfold validate_over, same_address. cbn.
    by rewrite eqb_refl.
  - assert (holds s1 (c_address c) = Some (CHB c')) as H1.
    { rewrite (St _ W). by rewrite decide_True. }
    destruct (removal_succeeds no_signature (c_address c) (CHB c') s1) as (s2 & E2 & H2); try done.
    by exists c', s1, s2.
Qed.
End Theorems.

(** *** The theorems on a concrete silo *)

Section Witnesses.
#[local] Instance sized_block : Sized (block Z Z).
Proof. by refine {| vsize := fun _ => 1 |}. Defined.

Abbreviation silo := (Memory.t (block Z Z)).
Definition empty : state silo (block Z Z) := mkState _ _ Memory.create 1 [] [].
Definition current : Version.t := Version.make 0 8 0.
Definition stored_once : state silo (block Z Z) :=
  (store (node 1) current (ACB sealed_once) STORE_INSERT empty).2.
Definition stored_revoked : state silo (block Z Z) :=
  (store (node 1) current (ACB revoked) STORE_UPDATE stored_once).2.
Definition a_chb : chb := make_chb (node 1) [7] [5] (address (okb_of sealed_once)).
Definition stored_chb : state silo (block Z Z) :=
  (store (node 1) current (CHB a_chb) STORE_INSERT stored_once).2.
Definition a_nb : nb Z :=
  default (make_nb (node 1) 1 0 [110] [7] [])
    (match seal_nb (node 1) (make_nb (node 1) 1 0 [110] [7] []) with Ok n => Some n | _ => None end).
Definition stored_nb : state silo (block Z Z) :=
  (store (node 1) current (NB a_nb) STORE_INSERT empty).2.

Lemma address_wf (a : Address.t) : bool_decide (Address.wf a) = true -> Address.wf a.
Proof. apply bool_decide_eq_true. Qed.

Lemma stored_is_fetched_witness :
  (fetch (node 1) current (address (okb_of sealed_once)) stored_once).1 =
    Ok (deserialized (node 1) current 1 (ACB sealed_once)).
Proof.
  apply (stored_is_fetched (node 1) current (ACB sealed_once) STORE_INSERT empty stored_once);
    [done|apply address_wf; vm_compute; reflexivity|vm_compute; reflexivity].
Defined.
Lemma versions_never_go_back_witness : exists b' : acb Z Z,
  holds stored_revoked (address (okb_of sealed_once)) = Some (ACB b') /\
  (b' = sealed_once \/ data_version sealed_once < data_version b').
Proof.
  apply (versions_never_go_back (node 1) 1 (fun _ => Throw Unfetched) [] current stored_once stored_revoked
    (address (okb_of sealed_once)) sealed_once);
    [done| |apply address_wf; vm_compute; reflexivity|vm_compute; reflexivity].
  eapply rtc_l; [|apply rtc_refl].
  eapply (Store _ _ _ _ _ _ _ (ACB revoked) STORE_UPDATE (Ok tt)); [apply address_wf|]; vm_compute; reflexivity.
Defined.

Lemma revoked_writer_overwrites_witness :
  permission 2 revoked = None /\
  exists forged s', store (node 1) current (ACB forged) STORE_UPDATE stored_revoked = (Ok tt, s') /\
    holds s' (address (okb_of sealed_once)) = Some (ACB forged) /\
    data (okb_of forged) = [66] /\ acl_entries forged = acl_entries sealed_once.
Proof.
  split; [vm_compute; reflexivity|].
  apply (revoked_writer_overwrites (node 1) current stored_revoked sealed_once revoked 0
    (mkEntry _ 2 true true [2; 9]) 2 [66]);
    [done|apply address_wf; vm_compute; reflexivity|vm_compute; reflexivity..].
Defined.

Lemma nb_is_never_written_again_witness : exists s',
  store (node 1) current (NB a_nb) STORE_UPDATE stored_nb = (Throw ValidationFailed, s') /\
  same (holds stored_nb) (holds s').
Proof.
  apply (nb_is_never_written_again (node 1) current stored_nb a_nb a_nb STORE_UPDATE);
    [done|apply address_wf; vm_compute; reflexivity|vm_compute; reflexivity|].
  vm_compute. lia.
Defined.

Lemma anybody_removes_a_chb_witness : exists c' s1 s2,
  c_data c' = [7] /\ store (node 1) current (CHB c') STORE_UPDATE stored_chb = (Ok tt, s1) /\
  remove (node 1) 1 (fun _ => Throw Unfetched) [] current (c_address a_chb) no_signature s1
    = (Ok tt, s2) /\
  holds s2 (c_address a_chb) = None.
Proof.
  apply (anybody_removes_a_chb (node 1) 1 (fun _ => Throw Unfetched) [] current stored_chb a_chb);
    [done|apply address_wf; vm_compute; reflexivity|vm_compute; reflexivity..].
Defined.
End Witnesses.
