(* ===== verification/Passports.v ===== *)
(** Who a node talks to: passports and the authentication of connections.

    memo/model/doughnut/Passport.cc, Doughnut::verify, what Local.cc registers
    on a connection, and Dock::Connection::_key_exchange in Dock.cc. A passport
    is a signed pair of a user and a network, by the owner of the network or
    by a certifier, whose own passport is in the block of its key. *)

From stdpp Require Import base tactics option list.
From Stdlib Require Import ZArith Lia.
From S2P Require Import Prelude Versions Buffers Streams Addresses Nodes Signatures Blocks ContentBlocks.
Open Scope Z_scope.

Module Passports.

Import Signatures Blocks ContentBlocks.

Section Passports.
Context {K P : Type} `{EqDecision K} `{EqDecision P} `{Crypto K P}.

(** The constructor, and [verify] with and without the rights. *)
Definition fingerprint (p : passport K) (with_rights : bool) : payload K :=
  Fingerprint (user p) (network p)
    (if with_rights then Some (allow_write p, allow_storage p, allow_sign p) else None).
Definition make_passport (u : K) (network : bytes) (owner : P)
    (store_certifier write storage sign_others : bool) : passport K :=
  mkPassport _ u network
    (sign owner (Fingerprint u network (Some (write, storage, sign_others))))
    (if store_certifier then Some (public owner) else None) write storage sign_others.
Definition verify_passport (p : passport K) (owner : K) : bool :=
  if negb (match certifier p with Some c => bool_decide (c = owner) | None => true end) then false
  else if verify owner (passport_signature p) (fingerprint p true) then true
  else if verify owner (passport_signature p) (fingerprint p false) then negb (allow_sign p)
  else false.

(** A passport read by a node: before 0.5.0 the rights are not sent. *)
Definition received_passport (v : Version.t) (p : passport K) : passport K :=
  if Version.geb v v_0_5 then p
  else mkPassport _ (user p) (network p) (passport_signature p) None true true false.

Context (dn : doughnut K P) (dht_owner : K)
  (fetch : Address.t -> result ContentBlocks.error (option (block K P))).

(** Doughnut::verify; [None] when the fuel, the length of the chain of
    certifiers, ran out. *)
Fixpoint dht_verify (fuel : nat) (p : passport K)
    (require_write require_storage require_sign : bool) : option bool :=
  match fuel with
  | O => None
  | S fuel =>
      if (require_write && negb (allow_write p)) || (require_storage && negb (allow_storage p)) ||
         (require_sign && negb (allow_sign p))
      then Some false
      else
        match certifier p with
        | None => Some (verify_passport p dht_owner)
        | Some c =>
            if decide (c = dht_owner) then Some (verify_passport p dht_owner)
            else if negb (verify_passport p c) then Some false
            else
              match fetch (rub_address dn c) with
              | Ok (Some (UB u)) =>
                  match u_passport u with
                  | None => Some false
                  | Some q => dht_verify fuel q false false true
                  end
              | _ => Some false
              end
        end
  end.

(** *** The server's side of a connection *)

Inductive rpc_error :=
  | PassportFailed           (* Passport validation failed *)
  | SameId                   (* incoming peer has same id as us *)
  | InvalidVersion
  | SynFirst                 (* auth_syn must be called before auth_ack *)
  | ChallengeFailed
  | KeyFailed                (* the key of the session cannot be opened *)
  | OutOfRange               (* a passport that is not there *)
  | AuthenticationRequired
  | WriteDenied
  | IdMismatch
  | StorageDisallowed.

(** [stored_challenge], the entry of [_passports], the key of the RPCs, the id
    of the connection, and whether it is [ready], which makes it a peer. *)
Record session := mkSession {
  challenge : bytes;
  session_passport : option (passport K);
  rpc_key : option bytes;
  connection_id : option Address.t;
  ready : bool
}.
Definition new_session (encrypt_rpc : bool) : session :=
  mkSession [] None None None (negb encrypt_rpc).

Abbreviation M := (method session rpc_error).

(** [c] is the challenge that is generated. The passport is inserted in a map:
    the first one stays. *)
Definition auth_syn (fuel : nat) (c : bytes) (p : passport K) : M bytes :=
  match dht_verify fuel p false false false with
  | Some true =>
      modify (fun s => mkSession c
        (match session_passport s with Some q => Some q | None => Some p end)
        (rpc_key s) (connection_id s) (ready s));;
      mret c
  | _ => throw PassportFailed
  end.

(** As it is since 0.7.0 and since 0.4.0. *)
Definition auth_syn_0_4 (fuel : nat) (c : bytes) (p : passport K) (v : Version.t) : M bytes :=
  if negb ((Version.major v =? Version.major (dn_version dn)) &&
           (Version.minor v =? Version.minor (dn_version dn)))
  then throw InvalidVersion else auth_syn fuel c p.
Definition auth_syn_0_7 (our_id : Address.t) (fuel : nat) (c : bytes) (id : Address.t)
    (p : passport K) (v : Version.t) : M bytes :=
  modify (fun s => mkSession (challenge s) (session_passport s) (rpc_key s) (Some id) (ready s));;
  if Address.eqb our_id id then throw SameId else auth_syn_0_4 fuel c p v.

Definition auth_ack (encrypt_rpc : bool) (enc_key signed_challenge : bytes) : M bool :=
  s ← Prelude.read;
  match challenge s with
  | [] => throw SynFirst
  | c =>
      match session_passport s with
      | None => throw OutOfRange
      | Some p =>
          if negb (verify (user p) signed_challenge (Buffer c)) then throw ChallengeFailed
          else
            match decrypt false (keys dn) enc_key with
            | None => throw KeyFailed
            | Some password =>
                modify (fun s => mkSession (challenge s) (session_passport s)
                  (if encrypt_rpc then Some password else rpc_key s) (connection_id s) true);;
                mret true
            end
      end
  end.

Definition require_auth (encrypt_rpc write_op : bool) : M unit :=
  if negb encrypt_rpc then mret tt
  else
    s ← Prelude.read;
    match rpc_key s with
    | None => throw AuthenticationRequired
    | Some _ =>
        if write_op then
          match session_passport s with
          | None => throw OutOfRange
          | Some p => if allow_write p then mret tt else throw WriteDenied
          end
        else mret tt
    end.

(** *** The client's side *)

(** [_auth_0_7]: the id of the peer is checked against the one we expect. *)
Definition check_id (our_id : Address.t) (expected : Address.t) (id : Address.t) :
    result rpc_error Address.t :=
  if Address.eqb id our_id then Throw SameId
  else if Address.is_set expected && negb (Address.eqb expected id) then Throw IdMismatch
  else Ok (if Address.is_set expected then expected else id).

(** [_key_exchange], with what the peer answered to auth_syn: the key, sealed,
    and the challenge, signed, for auth_ack. [key] is generated. *)
Definition key_exchange (fuel : nat) (peer_passport : passport K) (c key : bytes) :
    result rpc_error (bytes * bytes) :=
  match dht_verify fuel peer_passport false false false with
  | Some true =>
      if negb (allow_storage peer_passport) then Throw StorageDisallowed
      else Ok (encrypt false (user peer_passport) key, sign (keys dn) (Buffer c))
  | _ => Throw PassportFailed
  end.
End Passports.
Arguments session K : clear implicits.
End Passports.
