(* ===== verification/PassportTheorems.v ===== *)
(** The theorems on passports and connections. *)

From stdpp Require Import base tactics option list.
From Stdlib Require Import ZArith Lia.
From S2P Require Import Prelude Versions Buffers Streams Addresses Nodes Signatures Blocks BlockProperties ContentBlocks ContentTheorems Passports.
Import Signatures Blocks ContentBlocks Passports.
Open Scope Z_scope.

Section Theorems.
Context {K P : Type} `{EqDecision K} `{EqDecision P} `{!Crypto K P}.
Context (dn : doughnut K P) (dht_owner : K)
  (fetch : Address.t -> result ContentBlocks.error (option (block K P))).

Implicit Types (p q : passport K) (s : session K).

Abbreviation chain := (dht_verify dn dht_owner fetch).

(** A passport that the holder of a key signed: with its rights, or without
    them when it cannot sign. *)
Definition signed_by (o : P) p : Prop :=
  (certifier p = None \/ certifier p = Some (public o)) /\
  (passport_signature p = sign o (fingerprint p true) \/
   passport_signature p = sign o (fingerprint p false) /\ allow_sign p = false).

Lemma verify_passport_signed `{!Unforgeable K P} p k : verify_passport p k = true ->
  exists o, public o = k /\ signed_by o p.
Proof.
  unfold verify_passport, signed_by. intros V.
  assert (certifier p = None \/ certifier p = Some k) as C.
  { destruct (certifier p) as [c|]; [right|by left]. case_bool_decide; [by subst|done]. }
  destruct (negb _); [done|].
  destruct (verify k _ (fingerprint p true)) eqn:V1.
  - apply verify_signed in V1 as (o & <- & E). exists o. split; [done|]. split; [done|by left].
  - destruct (verify k _ (fingerprint p false)) eqn:V2; [|done].
    apply verify_signed in V2 as (o & <- & E). exists o. split; [done|]. split; [done|].
    right. split; [done|]. by destruct (allow_sign p).
Qed.

Lemma signed_verify_passport `{!LawfulCrypto K P} `{!Unforgeable K P} p o :
  signed_by o p -> verify_passport p (public o) = true.
Proof.
  intros [C Sg]. unfold verify_passport.
  replace (match certifier p with Some c => bool_decide (c = public o) | None => true end) with true
    by (destruct C as [->| ->]; [done|by rewrite bool_decide_true]).
  cbn [negb]. destruct Sg as [->|[-> A]].
  - by rewrite verify_sign.
  - destruct (verify _ _ (fingerprint p true)) eqn:V; [done|]. by rewrite verify_sign, A.
Qed.

(** A chain of certifiers, which ends at the owner of the network. *)
Inductive certified : passport K -> Prop :=
  | by_owner p o : public o = dht_owner -> signed_by o p -> certified p
  | by_certifier p o u q : public o <> dht_owner -> certifier p = Some (public o) ->
      signed_by o p -> fetch (rub_address dn (public o)) = Ok (Some (UB u)) ->
      u_passport u = Some q -> allow_sign q = true -> certified q -> certified p.

Definition rights p (w st sg : bool) : Prop :=
  (w = true -> allow_write p = true) /\ (st = true -> allow_storage p = true) /\
  (sg = true -> allow_sign p = true).

Lemma verified_chain `{!LawfulCrypto K P} `{!Unforgeable K P} p w st sg :
  (exists fuel, chain fuel p w st sg = Some true) <-> certified p /\ rights p w st sg.
Proof.
  unfold rights.
  split.
  - intros [fuel V]. revert p w st sg V. induction fuel as [|fuel IH]; [done|].
    intros p w st sg. cbn [dht_verify]. destruct (_ || _ || _) eqn:R; [done|].
    apply orb_false_iff in R as [R R3]. apply orb_false_iff in R as [R1 R2].
    intros V. split; [|by destruct w, st, sg, (allow_write p), (allow_storage p), (allow_sign p)].
    destruct (certifier p) as [c|] eqn:C; [|].
    + destruct (decide (c = dht_owner)) as [->|N].
      { injection V as V. apply verify_passport_signed in V as (o & Eo & Sg). by eapply by_owner. }
      destruct (verify_passport p c) eqn:Vc; [|done]. cbn [negb] in V.
      apply verify_passport_signed in Vc as (o & <- & Sg).
      destruct (fetch _) as [[[| | | |u]|]|] eqn:F; try done.
      destruct (u_passport u) as [q|] eqn:Up; [|done].
      destruct (IH _ _ _ _ V) as (Cq & _ & _ & A). eapply by_certifier; try done. by apply A.
    + injection V as V. apply verify_passport_signed in V as (o & Eo & Sg). by eapply by_owner.
  - intros (C & W & St & Sn). revert w st sg W St Sn.
    induction C as [p o Eo Sg|p o u q N Ce Sg F Up A C IH]; intros w st sg W St Sn.
    + exists 1%nat. cbn [dht_verify].
      assert ((w && negb (allow_write p)) || (st && negb (allow_storage p)) ||
        (sg && negb (allow_sign p)) = false) as ->.
      { destruct w, st, sg; rewrite ?W, ?St, ?Sn by done; done. }
      pose proof (signed_verify_passport _ _ Sg) as V. rewrite Eo in V. rewrite V.
      destruct Sg as [[->| ->] _]; [done|]. by rewrite Eo, decide_True.
    + destruct (IH false false true) as [fuel V]; try done. exists (Datatypes.S fuel).
      cbn [dht_verify].
      assert ((w && negb (allow_write p)) || (st && negb (allow_storage p)) ||
        (sg && negb (allow_sign p)) = false) as ->.
      { destruct w, st, sg; rewrite ?W, ?St, ?Sn by done; done. }
      rewrite Ce, decide_False by done. rewrite signed_verify_passport by done. cbn [negb].
      by rewrite F, Up.
Qed.

(** The same chain, of users that were each given the right to sign. *)
Inductive delegated : passport K -> Prop :=
  | given_by_owner p o : public o = dht_owner -> signed_by o p -> delegated p
  | given_by_user p o q : public o <> dht_owner -> certifier p = Some (public o) ->
      signed_by o p -> user q = public o -> allow_sign q = true -> delegated q -> delegated p.

(** The block of each user, if it has a passport, has that user's. *)
Definition own_passports : Prop := forall k u q,
  fetch (rub_address dn k) = Ok (Some (UB u)) -> u_passport u = Some q -> user q = k.

Lemma certified_delegated p : own_passports -> certified p -> delegated p.
Proof.
  intros Own. induction 1 as [p o Eo Sg|p o u q N Ce Sg F Up A _ IH].
  - by eapply given_by_owner.
  - eapply given_by_user; try done. by eapply Own.
Qed.

(** C15. A passport is verified exactly when it has the rights that are asked and the
    owner of the network signed it, or a chain of certifiers leads to the owner: each
    signed the passport before, and the passport found in the block at its address may
    sign, and is verified in turn. The user of the passport found there is not compared
    with the certifier ([certifier_is_not_compared]); when the block of each user has
    its own passport, whoever signs was itself given the right to, up to the owner. *)
Theorem verified_is_certified `{!LawfulCrypto K P} `{!Unforgeable K P} p w st sg :
  ((exists fuel, chain fuel p w st sg = Some true) <->
   certified p /\ (w = true -> allow_write p = true) /\ (st = true -> allow_storage p = true) /\
   (sg = true -> allow_sign p = true)) /\
  (own_passports -> (exists fuel, chain fuel p w st sg = Some true) -> delegated p).
Proof.
  split; [apply verified_chain|]. intros Own [C _]%verified_chain. by apply certified_delegated.
Qed.

(** A passport that its own user certifies, in the block of its key, is
    never accepted nor refused: the verification does not end. *)
Theorem self_certified_never_ends p c u : certifier p = Some c -> c <> dht_owner ->
  verify_passport p c = true -> allow_sign p = true ->
  fetch (rub_address dn c) = Ok (Some (UB u)) -> u_passport u = Some p ->
  forall fuel, chain fuel p false false true = None /\ chain fuel p false false false = None.
Proof.
  intros C N V A F Up fuel.
  assert (forall sg, (false && negb (allow_write p)) || (false && negb (allow_storage p)) ||
    (sg && negb (allow_sign p)) = false) as R by (intros sg; rewrite A; by destruct sg).
  assert (chain fuel p false false true = None) as Loop.
  { induction fuel as [|fuel IH]; [done|]. cbn [dht_verify].
    by rewrite R, C, decide_False, V, F, Up. }
  split; [done|]. destruct fuel as [|fuel]; [done|]. cbn [dht_verify] in *.
  by rewrite R, C, decide_False, V, F, Up in *.
Qed.

(** The passport in the block of the certifier need not be that of the
    certifier: with any passport that can sign there, whoever it belongs to,
    the certifier makes passports with the rights it wants. *)
Theorem certifier_is_not_compared `{!LawfulCrypto K P} o u q fuel subject net w st sg :
  public o <> dht_owner -> fetch (rub_address dn (public o)) = Ok (Some (UB u)) ->
  u_passport u = Some q -> chain fuel q false false true = Some true ->
  chain (Datatypes.S fuel) (make_passport subject net o true w st sg) w st sg = Some true.
Proof.
  intros N F Up V. cbn [dht_verify make_passport allow_write allow_storage allow_sign certifier].
  replace (_ || _ || _) with false by (by destruct w, st, sg).
  rewrite decide_False by done.
  assert (verify_passport (make_passport subject net o true w st sg) (public o) = true) as ->.
  { unfold verify_passport. cbn. rewrite bool_decide_true by done. cbn.
    unfold fingerprint. cbn. by rewrite verify_sign. }
  cbn [negb]. by rewrite F, Up.
Qed.
(** *** Connections *)

(** What a server received, with the challenges it gave. *)
Inductive event :=
  | Syn (c : bytes)
  | Ack (signed : bytes).

Inductive served (encrypt_rpc : bool) : list event -> session K -> Prop :=
  | served_new : served encrypt_rpc [] (new_session encrypt_rpc)
  | served_syn tr s our_id fuel c id p v r s' : served encrypt_rpc tr s ->
      auth_syn_0_7 dn dht_owner fetch our_id fuel c id p v s = (r, s') ->
      served encrypt_rpc (tr ++ [Syn c]) s'
  | served_ack tr s enc_key signed r s' : served encrypt_rpc tr s ->
      auth_ack dn encrypt_rpc enc_key signed s = (r, s') ->
      served encrypt_rpc (tr ++ [Ack signed]) s'.

(** What a passport proved in a connection. *)
Definition proved (tr : list event) p : Prop :=
  exists o c, public o = user p /\ Syn c ∈ tr /\ Ack (sign o (Buffer c)) ∈ tr.

Definition kept_session (tr : list event) s : Prop :=
  (challenge s <> [] -> Syn (challenge s) ∈ tr) /\
  (forall p, session_passport s = Some p ->
     exists fuel, chain fuel p false false false = Some true) /\
  (is_Some (rpc_key s) -> exists p, session_passport s = Some p /\ proved tr p).

Lemma proved_more tr e p : proved tr p -> proved (tr ++ [e]) p.
Proof.
  intros (o & c & Eo & I1 & I2). exists o, c. split; [done|].
  split; apply elem_of_app; by left.
Qed.

Lemma syn_keeps tr s our_id fuel c id p v r s' : kept_session tr s ->
  auth_syn_0_7 dn dht_owner fetch our_id fuel c id p v s = (r, s') ->
  kept_session (tr ++ [Syn c]) s'.
Proof.
  intros (C & Ps & R) E.
  unfold auth_syn_0_7, auth_syn_0_4, auth_syn, modify, mbind, method_bind, throw, mret, method_ret in E.
  assert (kept_session (tr ++ [Syn c])
    (mkSession (challenge s) (session_passport s) (rpc_key s) (Some id) (ready s))) as Base.
  { split; [intros N; apply elem_of_app; left; by apply C|]. split; [done|].
    intros I. destruct (R I) as (q & Q & Pr). exists q. split; [done|by apply proved_more]. }
  destruct (Address.eqb our_id id); [by injection E as _ <-|].
  destruct (negb _); [by injection E as _ <-|].
  destruct (chain fuel p false false false) as [[|]|] eqn:V; [|by injection E as _ <-..].
  injection E as _ <-. cbn. destruct Base as (_ & _ & R'). split; [|split].
  - intros _. cbn. apply elem_of_app. right. by apply list_elem_of_singleton.
  - cbn. intros q. destruct (session_passport s) as [q'|] eqn:Q; intros [= <-]; [by apply Ps|].
    by exists fuel.
  - cbn. intros I. destruct (R' I) as (q & Q & Pr). cbn in Q. exists q. by rewrite Q.
Qed.

Lemma ack_keeps `{!Unforgeable K P} enc tr s enc_key signed r s' : kept_session tr s ->
  auth_ack dn enc enc_key signed s = (r, s') -> kept_session (tr ++ [Ack signed]) s'.
Proof.
  intros (C & Ps & R) E.
  assert (kept_session (tr ++ [Ack signed]) s) as Base.
  { split; [intros N; apply elem_of_app; left; by apply C|]. split; [done|].
    intros I. destruct (R I) as (q & Q & Pr). exists q. split; [done|by apply proved_more]. }
  unfold auth_ack in E. rewrite bind_read in E.
  destruct (challenge s) as [|x c] eqn:Ch; [by injection E as _ <-|].
  destruct (session_passport s) as [p|] eqn:Q; [|by injection E as _ <-].
  destruct (verify _ _ _) eqn:V; [|by injection E as _ <-]. cbn [negb] in E.
  destruct (decrypt _ _ _) as [pw|]; [|by injection E as _ <-].
  injection E as _ <-. destruct Base as (C' & Ps' & R').
  split; [exact C'|]. split; [exact Ps'|]. intros _. exists p. split; [exact Q|].
  apply verify_signed in V as (o & Eo & ->). exists o, (x :: c). split; [done|].
  split; apply elem_of_app; [left; by apply C|].
  right. by apply list_elem_of_singleton.
Qed.

Lemma served_keeps `{!Unforgeable K P} enc tr s : served enc tr s -> kept_session tr s.
Proof.
  induction 1; [|by eapply syn_keeps|by eapply ack_keeps].
  split; [done|]. split; [done|]. by intros [? [=]].
Qed.


(** A client and a server that verify each other's passports end with the
    same key, and the connection is then a peer's. *)
Theorem handshake_agrees `{!LawfulCrypto K P} (server client : doughnut K P) our_id id
    fuel c key p_server p_client v :
  user p_server = public (keys server) -> user p_client = public (keys client) ->
  c <> [] -> Address.eqb our_id id = false ->
  Version.major v = Version.major (dn_version server) ->
  Version.minor v = Version.minor (dn_version server) ->
  dht_verify server dht_owner fetch fuel p_client false false false = Some true ->
  dht_verify client dht_owner fetch fuel p_server false false false = Some true ->
  allow_storage p_server = true ->
  exists s2 enc signed s3,
    auth_syn_0_7 server dht_owner fetch our_id fuel c id p_client v (new_session true) = (Ok c, s2) /\
    key_exchange client dht_owner fetch fuel p_server c key = Ok (enc, signed) /\
    auth_ack server true enc signed s2 = (Ok true, s3) /\
    rpc_key s3 = Some key /\ ready s3 = true /\ session_passport s3 = Some p_client /\
    connection_id s3 = Some id.
Proof.
  intros Us Uc Nc Ni Ma Mi Vc Vs St.
  do 4 eexists. split; [|split; [|split]].
  - unfold auth_syn_0_7, auth_syn_0_4, auth_syn, modify, mbind, method_bind, mret, method_ret.
    rewrite Ni, Ma, Mi, !Z.eqb_refl, Vc. cbn. reflexivity.
  - unfold key_exchange. rewrite Vs, St. reflexivity.
  - unfold auth_ack. rewrite bind_read. cbn [challenge]. destruct c as [|x c]; [done|].
    cbn [session_passport]. rewrite Uc, verify_sign, Us, decrypt_encrypt. reflexivity.
  - done.
Qed.

(** A client signs whatever challenge its peer gives: if it may write the
    ACB that owns a CHB, a peer that gives the address of the CHB as the
    challenge gets the removal of the CHB. *)
Theorem challenge_signs_a_removal `{!LawfulCrypto K P} fuel peer key (a : chb) b e :
  chain fuel peer false false false = Some true -> allow_storage peer = true ->
  Address.is_set (c_owner a) = true -> fetch (c_owner a) = Ok (Some (ACB b)) ->
  find_entry (K_ dn) (acl_entries b) = Some e -> can_write e = true ->
  exists enc signed,
    key_exchange dn dht_owner fetch fuel peer (Address.value (c_address a)) key = Ok (enc, signed) /\
    validate_remove_chb dn fetch a (mkRemove _ _ None (Some (K_ dn)) (Some signed) None None)
      = Ok Success.
Proof.
  intros V St Os F Fe We. do 2 eexists. unfold key_exchange. rewrite V, St. split; [done|].
  unfold validate_remove_chb. rewrite Os, F. cbn. change (K_ dn) with (public (keys dn)) in *.
  rewrite verify_sign. cbn. destruct (world_writable b); [done|].
  case_decide; [done|]. by rewrite Fe, We.
Qed.
End Theorems.

(** *** The theorems on a network of four users *)

Section Witnesses.
Definition at_node (k : Z) : doughnut Z Z :=
  mkDoughnut _ _ k (Version.make 0 8 0) true [] [] [] [] (fun _ => None).

(** 1 is the owner of the network; it lets 2 sign; 2 signs for 4. 3 signs for
    itself. The block of the key of 5 holds the passport of 2. *)
Definition passport_2 : passport Z := make_passport 2 [110] (1 : Z) false true true true.
Definition passport_4 : passport Z := make_passport 4 [110] (2 : Z) true true true false.
Definition passport_3 : passport Z := make_passport 3 [110] (3 : Z) true true true true.
Definition keyed (k : Z) (p : passport Z) : block Z Z := UB (make_ub (at_node 1) [] k true (Some p)).
Definition blocks_of (a : Address.t) : result ContentBlocks.error (option (block Z Z)) :=
  if decide (a = rub_address (at_node 1) 2) then Ok (Some (keyed 2 passport_2))
  else if decide (a = rub_address (at_node 1) 3) then Ok (Some (keyed 3 passport_3))
  else if decide (a = rub_address (at_node 1) 5) then Ok (Some (keyed 5 passport_2))
  else Throw Unfetched.
Definition nowhere : Address.t := rub_address (at_node 1) 9.
Definition elsewhere : Address.t := rub_address (at_node 1) 8.
Definition greeted : session Z :=
  (auth_syn_0_7 (at_node 1) 1 blocks_of nowhere 3 [8; 8] elsewhere passport_4
    (Version.make 0 8 0) (new_session true)).2.
Definition acknowledged : session Z :=
  (auth_ack (at_node 1) true [1; 77] (sign 4 (Buffer [8; 8])) greeted).2.
Definition owned_directory : acb Z Z :=
  set_entries [mkEntry _ 4 true true []] (make_acb (at_node 1) [7] [5] 1).
Definition owned_file : chb :=
  make_chb (at_node 1) [1; 2] [9] (address (okb_of owned_directory)).
Definition blocks_and_directory (a : Address.t) :
    result ContentBlocks.error (option (block Z Z)) :=
  if decide (a = address (okb_of owned_directory)) then Ok (Some (ACB owned_directory))
  else blocks_of a.

(** The same network, where only 2 has a block. *)
Definition own_blocks (a : Address.t) : result ContentBlocks.error (option (block Z Z)) :=
  if decide (a = rub_address (at_node 1) 2) then Ok (Some (keyed 2 passport_2)) else Throw Unfetched.

Lemma own_blocks_own : own_passports (at_node 1) own_blocks.
Proof.
  intros k u q. unfold own_blocks. destruct (decide _) as [E|]; [|done].
  intros [= <-] [= <-]. vm_compute in E. by injection E as ->.
Qed.

Lemma verified_is_certified_witness :
  certified (at_node 1) 1 own_blocks passport_4 /\ allow_write passport_4 = true /\
  delegated 1 passport_4.
Proof.
  assert (exists fuel, dht_verify (at_node 1) 1 own_blocks fuel passport_4 true false false = Some true)
    as V by (exists 3%nat; vm_compute; reflexivity).
  destruct (verified_is_certified (at_node 1) 1 own_blocks passport_4 true false false) as [[A _] B].
  destruct (A V) as (C & W & _). split; [exact C|]. split; [by apply W|].
  apply B; [exact own_blocks_own|exact V].
Defined.

Lemma self_certified_never_ends_witness :
  dht_verify (at_node 1) 1 blocks_of 100 passport_3 false false true = None /\
  dht_verify (at_node 1) 1 blocks_of 100 passport_3 false false false = None.
Proof.
  apply (self_certified_never_ends (at_node 1) 1 blocks_of passport_3 3
    (make_ub (at_node 1) [] 3 true (Some passport_3))); [reflexivity|discriminate|..].
  - vm_compute. reflexivity.
  - vm_compute. reflexivity.
  - vm_compute. reflexivity.
  - vm_compute. reflexivity.
Defined.

Lemma certifier_is_not_compared_witness : user passport_2 <> 5 /\
  dht_verify (at_node 1) 1 blocks_of 2 (make_passport 6 [110] (5 : Z) true true true true)
    true true true = Some true.
Proof.
  split; [discriminate|].
  apply (certifier_is_not_compared (at_node 1) 1 blocks_of 5
    (make_ub (at_node 1) [] 5 true (Some passport_2)) passport_2 1 6 [110] true true true);
    (vm_compute; reflexivity) || discriminate.
Defined.


Lemma handshake_agrees_witness : exists s2 enc signed s3,
  auth_syn_0_7 (at_node 2) 1 blocks_of nowhere 3 [8; 8] elsewhere passport_4 (Version.make 0 8 1)
    (new_session true) = (Ok [8; 8], s2) /\
  key_exchange (at_node 4) 1 blocks_of 3 passport_2 [8; 8] [77] = Ok (enc, signed) /\
  auth_ack (at_node 2) true enc signed s2 = (Ok true, s3) /\
  rpc_key s3 = Some [77] /\ ready s3 = true /\ session_passport s3 = Some passport_4 /\
  connection_id s3 = Some elsewhere.
Proof.
  apply (handshake_agrees 1 blocks_of (at_node 2) (at_node 4) nowhere elsewhere 3 [8; 8] [77]
    passport_2 passport_4 (Version.make 0 8 1)); (vm_compute; reflexivity) || discriminate.
Defined.

Lemma challenge_signs_a_removal_witness : exists enc signed,
  key_exchange (at_node 4) 1 blocks_and_directory 3 passport_2
    (Address.value (c_address owned_file)) [77] = Ok (enc, signed) /\
  validate_remove_chb (at_node 4) blocks_and_directory owned_file
    (mkRemove _ _ None (Some (K_ (at_node 4))) (Some signed) None None) = Ok Success.
Proof.
  apply (challenge_signs_a_removal (at_node 4) 1 blocks_and_directory 3 passport_2 [77] owned_file
    owned_directory (mkEntry _ 4 true true [])); vm_compute; reflexivity.
Defined.
End Witnesses.
