(* ===== verification/KeyHashes.v ===== *)
(** Keys sent as numbers: memo/model/doughnut/KeyCache.hh, Doughnut::ensure_key
    and resolve_key, Local::_resolve_keys, Remote::_resolve_keys, and
    serialize_key_hash and deserialize_key_hash of OKB.cc.

    A node numbers the keys of the blocks it sends; its clients ask for those
    they do not know, remember them, and may then send the numbers back. *)

From stdpp Require Import base tactics option list.
From Stdlib Require Import ZArith Lia.
From S2P Require Import Prelude Versions Buffers Streams Addresses Nodes Signatures Blocks ContentBlocks.
Open Scope Z_scope.

Module KeyHashes.

Import Signatures Blocks ContentBlocks.

Inductive error :=
  | Unresolved (h : Z)         (* failed to resolve key hash locally *)
  | WrongReplies               (* resolve_keys gave another number of replies *)
  | RPCError
  | HashBlockError             (* Failed to retreive key hash block *)
  | AssertError.

Section KeyHashes.
Context {K P : Type} `{EqDecision K} `{EqDecision P} `{Crypto K P}.

(** KeyCache: a container with two unique indices, the number and the key. *)
Abbreviation cache := (list (Z * K)).
Definition find_key (k : K) (c : cache) : option Z :=
  fst <$> head (filter (fun x => x.2 = k) c).
Definition find_hash (h : Z) (c : cache) : option K :=
  snd <$> head (filter (fun x => x.1 = h) c).
Definition emplace (h : Z) (k : K) (c : cache) : cache :=
  match find_key k c, find_hash h c with None, None => c ++ [(h, k)] | _, _ => c end.

(** Doughnut::ensure_key and Doughnut::resolve_key. *)
Definition ensure_key (k : K) (c : cache) : Z * cache :=
  match find_key k c with
  | Some h => (h, c)
  | None => let index := Z.of_nat (length c) in (index, emplace index k c)
  end.
Definition resolve_key (c : cache) (h : Z) : result error K :=
  match find_hash h c with Some k => Ok k | None => Throw (Unresolved h) end.

(** Local::_resolve_keys and Local::_resolve_all_keys. *)
Fixpoint resolve_keys (c : cache) (ids : list Z) : result error (list K) :=
  match ids with
  | [] => Ok []
  | h :: ids => k ← resolve_key c h; ks ← resolve_keys c ids; Ok (k :: ks)
  end.
Definition resolve_all_keys (c : cache) : cache := c.

(** Remote::_resolve_keys, whose state is the cache of the connection; [rpc] is
    what the peer answers. *)
Section Remote.
Context (rpc : list Z -> result error (list K)) (rpc_all : result error cache).

Fixpoint emplace_all (ids : list Z) (ks : list K) (c : cache) : cache :=
  match ids, ks with
  | h :: ids, k :: ks => emplace_all ids ks (emplace h k c)
  | _, _ => c
  end.
Fixpoint lookup_all (ids : list Z) (c : cache) : result error (list K) :=
  match ids with
  | [] => Ok []
  | h :: ids =>
      match find_hash h c with
      | Some k => ks ← lookup_all ids c; Ok (k :: ks)
      | None => Throw AssertError
      end
  end.
Definition remote_resolve_keys (ids : list Z) : method cache error (list K) :=
  c ← Prelude.read;
  let missing := filter (fun h => find_hash h c = None) ids in
  (match missing with
   | [] => mret tt
   | _ =>
       ks ← lift (rpc missing);
       if negb (Nat.eqb (length ks) (length missing)) then throw WrongReplies
       else modify (emplace_all missing ks)
   end);;
  c ← Prelude.read;
  lift (lookup_all ids c).

(** Remote::_resolve_all_keys. *)
Definition remote_resolve_all_keys : method cache error cache :=
  res ← lift rpc_all;
  modify (fun c => foldl (fun c x =>
    match find_hash x.1 c with Some _ => c | None => emplace x.1 x.2 c end) c res);;
  mret res.
(** Peer::resolve_key. *)
Definition remote_resolve_key (h : Z) : method cache error K :=
  ks ← remote_resolve_keys [h];
  match ks with k :: _ => mret k | [] => throw AssertError end.
End Remote.

(** What a key is sent as: KeyOrHash, since 0.7.0. *)
Inductive sent :=
  | Plain (k : K)
  | OrKey (k : K)
  | OrHash (b : bytes)
  | OrIndex (i : Z).

(** What the serializer knows: it writes for the clients of a local peer, or to
    a remote one. [hash_enabled] is KEY_HASH. *)
Inductive peer := AtLocal | ToRemote | Nobody.
Definition since_0_7 (v : Version.t) : bool := Version.geb v v_0_7.
(** The state is the cache of the node when it is local, of the connection when
    it is remote. *)
Definition serialize_key_hash (hash_enabled : bool) (v : Version.t) (p : peer) (k : K) :
    method cache error sent :=
  if negb (since_0_7 v) then mret (Plain k)
  else
    match p, hash_enabled with
    | AtLocal, true =>
        c ← Prelude.read;
        let '(h, c') := ensure_key k c in
        write c';;
        mret (OrIndex h)
    | ToRemote, true =>
        c ← Prelude.read;
        mret (match find_key k c with Some h => OrIndex h | None => OrKey k end)
    | _, _ => mret (OrKey k)
    end.

(** [fetch] gives the block of the hash of a key. *)
Definition deserialize_key_hash (dn : doughnut K P)
    (fetch : Address.t -> result ContentBlocks.error (option (block K P)))
    (rpc : list Z -> result error (list K)) (p : peer) (d : sent) : method cache error K :=
  match d with
  | Plain k => mret k
  | OrKey k => mret k
  | OrHash b =>
      match fetch (ub_address dn (58 :: b)) with
      | Ok (Some (UB u)) => mret (u_key u)
      | _ => throw HashBlockError
      end
  | OrIndex i =>
      match p with
      | ToRemote => remote_resolve_key rpc i
      | AtLocal => c ← Prelude.read; lift (resolve_key c i)
      | Nobody => throw AssertError
      end
  end.
End KeyHashes.

(** *** The numbers of a node *)

Section Properties.
Context {K P : Type} `{EqDecision K} `{EqDecision P} `{!Crypto K P}.
Abbreviation cache := (list (Z * K)).
Implicit Types (c r : cache) (k : K).
#[local] Arguments find_hash : simpl never.
#[local] Arguments find_key : simpl never.

(** The keys are numbered in order. *)
Definition numbered c : Prop :=
  (forall i h k, c !! i = Some (h, k) -> h = Z.of_nat i) /\ NoDup (snd <$> c).

(** What a client knows, a node knows. *)
Definition knows c r : Prop := forall h k, find_hash h r = Some k -> find_hash h c = Some k.

Lemma find_hash_app h c c' :
  find_hash h (c ++ c') = match find_hash h c with Some k => Some k | None => find_hash h c' end.
Proof.
  unfold find_hash. rewrite filter_app. by destruct (filter (fun x => x.1 = h) c).
Qed.

Lemma find_key_app k c c' :
  find_key k (c ++ c') = match find_key k c with Some h => Some h | None => find_key k c' end.
Proof.
  unfold find_key. rewrite filter_app. by destruct (filter (fun x => x.2 = k) c).
Qed.

Lemma find_key_elem k c h : find_key k c = Some h -> (h, k) ∈ c.
Proof.
  unfold find_key. destruct (filter (fun x => x.2 = k) c) as [|[h' k'] l] eqn:F; [done|].
  intros [= <-]. assert ((h', k') ∈ filter (fun x : Z * K => x.2 = k) c) as I
    by (rewrite F; apply list_elem_of_here).
  apply list_elem_of_filter in I as [E I]. cbn in E. by subst.
Qed.

Lemma find_key_None k c : find_key k c = None -> ~ k ∈ (snd <$> c).
Proof.
  unfold find_key. intros F ([h k'] & -> & I)%list_elem_of_fmap.
  destruct (filter (fun x => x.2 = (h, k').2) c) as [|x l] eqn:E; [|done].
  assert ((h, k') ∈ filter (fun x : Z * K => x.2 = (h, k').2) c) as N
    by (by apply list_elem_of_filter).
  rewrite E in N. by apply not_elem_of_nil in N.
Qed.

Lemma numbered_find c h k : numbered c -> (h, k) ∈ c -> find_hash h c = Some k.
Proof.
  intros [N _] [i L]%list_elem_of_lookup. pose proof (N _ _ _ L) as ->.
  unfold find_hash. destruct (filter (fun x => x.1 = Z.of_nat i) c) as [|[h' k'] l] eqn:F.
  - assert ((Z.of_nat i, k) ∈ filter (fun x : Z * K => x.1 = Z.of_nat i) c) as I
      by (apply list_elem_of_filter; split; [done|by eapply list_elem_of_lookup_2]).
    rewrite F in I. by apply not_elem_of_nil in I.
  - assert ((h', k') ∈ filter (fun x : Z * K => x.1 = Z.of_nat i) c) as I
      by (rewrite F; apply list_elem_of_here).
    apply list_elem_of_filter in I as [E [j L']%list_elem_of_lookup]. cbn in E. subst h'.
    pose proof (N _ _ _ L') as E. assert (i = j) as <- by lia. rewrite L in L'.
    by injection L' as <-.
Qed.

Lemma numbered_range c h k : numbered c -> find_hash h c = Some k -> h < Z.of_nat (length c).
Proof.
  intros [N _]. unfold find_hash.
  destruct (filter (fun x => x.1 = h) c) as [|[h' k'] l] eqn:F; [done|].
  assert ((h', k') ∈ filter (fun x : Z * K => x.1 = h) c) as I
    by (rewrite F; apply list_elem_of_here).
  apply list_elem_of_filter in I as [E [j L]%list_elem_of_lookup]. cbn in E. subst h'.
  rewrite (N _ _ _ L). apply lookup_lt_Some in L. lia.
Qed.

Lemma ensure_key_spec k c h c' : numbered c -> ensure_key k c = (h, c') ->
  numbered c' /\ knows c' c /\ find_hash h c' = Some k.
Proof.
  intros N. unfold ensure_key. destruct (find_key k c) as [h0|] eqn:F.
  - intros [= <- <-]. split; [done|]. split; [by intros ?|].
    apply numbered_find; [done|]. by apply find_key_elem.
  - unfold emplace. rewrite F. set (n := Z.of_nat (length c)).
    assert (find_hash n c = None) as Fn.
    { destruct (find_hash n c) eqn:E; [|done]. apply numbered_range in E; [|done]. lia. }
    rewrite Fn. intros [= <- <-]. split; [|split].
    + destruct N as [N ND]. split.
      * intros i h0 k0 L. destruct (decide (i < length c)%nat) as [Lt|Ge].
        { rewrite lookup_app_l in L by done. by apply (N _ _ _ L). }
        rewrite lookup_app_r in L by lia.
        assert (i - length c = 0)%nat as E.
        { destruct (i - length c)%nat; [done|]. by rewrite lookup_cons, lookup_nil in L. }
        rewrite E in L. injection L as <- _. lia.
      * rewrite fmap_app. cbn. apply NoDup_app. split; [done|]. split; [|apply NoDup_singleton].
        intros x I ->%list_elem_of_singleton. by apply (find_key_None _ _ F).
    + intros h0 k0 E. by rewrite find_hash_app, E.
    + rewrite find_hash_app, Fn. unfold find_hash. rewrite filter_cons_True by done. done.
Qed.
(** A connection: each number once, and no number its node does not have. *)
Definition connected c r : Prop := numbered c /\ knows c r /\ NoDup (fst <$> r).

Lemma unique_find r h k : NoDup (fst <$> r) -> (h, k) ∈ r -> find_hash h r = Some k.
Proof.
  intros ND [i L]%list_elem_of_lookup. unfold find_hash.
  assert (forall x : Z * K, x ∈ filter (fun x : Z * K => x.1 = h) r -> x = (h, k)) as A.
  { intros [h' k'] [E [j L']%list_elem_of_lookup]%list_elem_of_filter. cbn in E. subst h'.
    assert (i = j) as <- by (eapply (NoDup_lookup _ i j h ND); by rewrite list_lookup_fmap, ?L, ?L').
    rewrite L in L'. congruence. }
  destruct (filter (fun x : Z * K => x.1 = h) r) as [|x l] eqn:F.
  - assert ((h, k) ∈ filter (fun x : Z * K => x.1 = h) r) as I
      by (apply list_elem_of_filter; split; [done|by eapply list_elem_of_lookup_2]).
    rewrite F in I. by apply not_elem_of_nil in I.
  - cbn. by rewrite (A x (list_elem_of_here _ _)).
Qed.

Lemma numbered_injective c h h' k : numbered c -> find_hash h c = Some k ->
  find_hash h' c = Some k -> h = h'.
Proof.
  assert (forall h0, numbered c -> find_hash h0 c = Some k -> exists i, c !! i = Some (h0, k)) as A.
  { intros h0 N. unfold find_hash.
    destruct (filter (fun x : Z * K => x.1 = h0) c) as [|[h1 k1] l] eqn:F; [done|]. cbn. intros [= ->].
    assert ((h1, k) ∈ filter (fun x : Z * K => x.1 = h0) c) as I
      by (rewrite F; apply list_elem_of_here).
    apply list_elem_of_filter in I as [E I]. cbn in E. subst. by apply list_elem_of_lookup. }
  intros N F1 F2. destruct (A _ N F1) as [i L], (A _ N F2) as [j L'].
  assert (i = j) as <-; [|congruence]. destruct N as [_ ND].
  eapply (NoDup_lookup _ i j k ND); by rewrite list_lookup_fmap, ?L, ?L'.
Qed.

Lemma find_hash_notin r h : find_hash h r = None -> ~ h ∈ (fst <$> r).
Proof.
  unfold find_hash. intros F ([h' k] & -> & I)%list_elem_of_fmap.
  destruct (filter (fun x : Z * K => x.1 = (h', k).1) r) as [|x l] eqn:E; [|done].
  assert ((h', k) ∈ filter (fun x : Z * K => x.1 = (h', k).1) r) as N
    by (by apply list_elem_of_filter).
  rewrite E in N. by apply not_elem_of_nil in N.
Qed.

(** A number that a node gave is resolved by its client. *)
Lemma remote_resolves c r h k : connected c r -> find_hash h c = Some k ->
  exists r', remote_resolve_key (resolve_keys c) h r = (Ok k, r') /\ connected c r'.
Proof.
  intros (N & Kn & U) F. unfold remote_resolve_key, remote_resolve_keys.
  rewrite bind_assoc, bind_read. destruct (find_hash h r) as [k'|] eqn:Fr.
  - assert (k' = k) as -> by (pose proof (Kn _ _ Fr); congruence).
    rewrite filter_cons_False by (by rewrite Fr).
    unfold mbind, method_bind, lift, mret, method_ret. cbn. rewrite Fr.
    exists r. by split.
  - rewrite filter_cons_True by done. rewrite filter_nil.
    unfold mbind, method_bind, lift, mret, method_ret, modify. cbn. unfold resolve_key. rewrite F. cbn.
    assert (find_key k r = None) as Fk.
    { destruct (find_key k r) as [h'|] eqn:E; [|done]. apply find_key_elem in E.
      apply (unique_find _ _ _ U) in E. assert (h = h') as -> by (by eapply numbered_injective; eauto).
      congruence. }
    unfold emplace. rewrite Fk, Fr.
    assert (find_hash h (r ++ [(h, k)]) = Some k) as Fh.
    { rewrite find_hash_app, Fr. unfold find_hash. by rewrite filter_cons_True. }
    rewrite Fh. cbn. eexists. split; [done|]. split; [done|]. split.
    + intros h0 k0. rewrite find_hash_app. destruct (find_hash h0 r) as [k1|] eqn:E.
      * intros [= <-]. by apply Kn.
      * unfold find_hash. destruct (decide (h = h0)) as [->|].
        { rewrite filter_cons_True by done. cbn. by intros [= <-]. }
        by rewrite filter_cons_False.
    + rewrite fmap_app. apply NoDup_app. split; [done|]. split; [|apply NoDup_singleton].
      intros x I ->%list_elem_of_singleton. by apply (find_hash_notin _ _ Fr).
Qed.

Context {dn : doughnut K P} {fetch : Address.t -> result ContentBlocks.error (option (block K P))}.

(** C35. A key that a node writes for a client is the key the client reads,
    whatever the version, and whatever keys the node numbers in between. *)
Theorem written_key_is_read hash_enabled v k c d c' c2 r : connected c r ->
  serialize_key_hash hash_enabled v AtLocal k c = (Ok d, c') ->
  numbered c2 -> knows c2 c' ->
  exists r', deserialize_key_hash dn fetch (resolve_keys c2) ToRemote d r = (Ok k, r') /\
    connected c2 r' /\ numbered c' /\ knows c' c.
Proof.
  intros (N & Kn & U) E N2 K2. unfold serialize_key_hash in E.
  assert (c' = c -> connected c2 r) as Same.
  { intros ->. split; [done|]. split; [|done]. intros h x F. by apply K2, Kn. }
  destruct (negb (since_0_7 v)).
  { injection E as <- <-. exists r. split; [done|]. split; [by apply Same|]. split; [done|by intros ?]. }
  destruct hash_enabled.
  2:{ injection E as <- <-. exists r. split; [done|]. split; [by apply Same|]. split; [done|by intros ?]. }
  rewrite bind_read in E. destruct (ensure_key k c) as [h c1] eqn:En.
  injection E as <- <-. destruct (ensure_key_spec _ _ _ _ N En) as (N1 & K1 & F1).
  destruct (remote_resolves c2 r h k) as (r' & E' & C'); [|by apply K2|].
  - split; [done|]. split; [|done]. intros h0 x F. by apply K2, K1, Kn.
  - exists r'. done.
Qed.

(** A key that a client writes back is the key the node reads. *)
Theorem returned_key_is_read hash_enabled v k c r d r' rpc : connected c r ->
  serialize_key_hash hash_enabled v ToRemote k r = (Ok d, r') ->
  r' = r /\ deserialize_key_hash dn fetch rpc AtLocal d c = (Ok k, c).
Proof.
  intros (N & Kn & U) E. unfold serialize_key_hash in E.
  destruct (negb (since_0_7 v)); [by injection E as <- <-|].
  destruct hash_enabled; [|by injection E as <- <-].
  rewrite bind_read in E. destruct (find_key k r) as [h|] eqn:F; injection E as <- <-; [|done].
  split; [done|]. cbn. rewrite bind_read. unfold lift, resolve_key.
  apply find_key_elem, (unique_find _ _ _ U), Kn in F. by rewrite F.
Qed.
End Properties.
End KeyHashes.

(** *** On a concrete connection *)

Section Witnesses.
Import Signatures Blocks ContentBlocks KeyHashes.
Definition any_node : doughnut Z Z :=
  mkDoughnut _ _ 1 (Version.make 0 8 0) true [] [] [] [] (fun _ => None).
Definition no_block (a : Address.t) : result ContentBlocks.error (option (block Z Z)) :=
  Throw Unfetched.

Lemma first_connection : connected (K := Z) [] [].
Proof. split; [split; [done|constructor]|]. split; [done|constructor]. Qed.

Lemma one_numbered : numbered (K := Z) [(0, 50)].
Proof.
  split; [|apply NoDup_singleton]. intros [|[|i]] h k; cbn; [by intros [= <- <-]|done..].
Qed.

Lemma one_connected : connected (K := Z) [(0, 50)] [(0, 50)].
Proof. split; [apply one_numbered|]. split; [by intros ?|apply NoDup_singleton]. Qed.

Lemma written_key_is_read_witness : exists r',
  deserialize_key_hash any_node no_block (resolve_keys [(0, 50)]) ToRemote (OrIndex 0) []
    = (Ok 50, r') /\
  connected [(0, 50)] r' /\ numbered (K := Z) [(0, 50)] /\ knows (K := Z) [(0, 50)] [].
Proof.
  apply (written_key_is_read true (Version.make 0 8 0) 50 [] (OrIndex 0) [(0, 50)] [(0, 50)] []);
    [apply first_connection|reflexivity|apply one_numbered|by intros ?].
Defined.

Lemma returned_key_is_read_witness :
  [(0, 50)] = [(0, 50)] /\
  deserialize_key_hash any_node no_block (fun _ => Throw RPCError) AtLocal (OrIndex 0) [(0, 50)]
    = (Ok 50, [(0, 50)]).
Proof.
  apply (returned_key_is_read true (Version.make 0 8 0) 50 [(0, 50)] [(0, 50)] (OrIndex 0) [(0, 50)]
    (fun _ => Throw RPCError)); [apply one_connected|reflexivity].
Defined.
End Witnesses.
