(* ===== verification/Picks.v ===== *)
(** Random choices: elle/random.hh, pick_n, which selects the nodes that will
    keep a new block. *)

From stdpp Require Import base tactics option sorting numbers list.
From Stdlib Require Import ZArith Lia.
From S2P Require Import Prelude.
Open Scope Z_scope.

Module Random.

Section Picks.
(** [uniform i hi] is what std::uniform_int_distribution<>(0, hi) draws the
    [i]th time. *)
Context (uniform : nat -> Z -> Z).

(** [for (auto r: res) if (v >= r) ++v;] *)
Definition skip (res : list Z) (v : Z) : Z :=
  fold_left (fun v r => if r <=? v then v + 1 else v) res v.

Fixpoint pick_loop (todo : nat) (size : Z) (res : list Z) : list Z :=
  match todo with
  | O => res
  | S todo =>
      let v := uniform (length res) (size - 1 - Z.of_nat (length res)) in
      pick_loop todo size (merge_sort Z.le (res ++ [skip res v]))
  end.

(** The count is compared as an unsigned int. *)
Definition pick_n (count size : Z) : list Z :=
  if count <? size then pick_loop (Z.to_nat (wrap_u 32 count)) size []
  else seqZ 0 size.
End Picks.

(** *** Lemmas *)

Lemma skip_id res v : Forall (fun r => v < r) res -> skip res v = v.
Proof.
  unfold skip. induction 1 as [|r res L _ IH]; [done|]. cbn.
  destruct (r <=? v) eqn:E; to_prop; [lia|done].
Qed.

Lemma skip_spec res v : StronglySorted Z.lt res ->
  v <= skip res v <= v + Z.of_nat (length res) /\ skip res v ∉ res.
Proof.
  intros St. revert v. induction St as [|r res St IH F]; intros v.
  - cbn. split; [lia|]. apply not_elem_of_nil.
  - change (skip (r :: res) v) with (skip res (if r <=? v then v + 1 else v)).
    cbn [length]. rewrite not_elem_of_cons. destruct (r <=? v) eqn:E; to_prop.
    + destruct (IH (v + 1)) as [B N]. split; [lia|]. split; [lia|done].
    + rewrite Forall_forall in F.
      rewrite skip_id by (rewrite Forall_forall; intros x I; specialize (F x I); lia).
      split; [lia|]. split; [lia|]. intros I. specialize (F v I). lia.
Qed.

(** A sorted list of different numbers below [size]. *)
Definition chosen (size : Z) (l : list Z) : Prop :=
  StronglySorted Z.lt l /\ Forall (fun x => 0 <= x < size) l.

Lemma sorted_lt l : StronglySorted Z.le l -> NoDup l -> StronglySorted Z.lt l.
Proof.
  induction 1 as [|x l St IH F]; intros N; [constructor|]. inversion N as [|? ? NI N']; subst.
  constructor; [by apply IH|]. rewrite Forall_forall in *. intros y I.
  specialize (F y I). assert (x <> y) by (by intros ->). lia.
Qed.

Lemma lt_nodup l : StronglySorted Z.lt l -> NoDup l.
Proof.
  induction 1 as [|x l St IH F]; constructor; [|done]. rewrite Forall_forall in F.
  intros I. specialize (F x I). lia.
Qed.

Lemma chosen_pick size res x : chosen size res -> 0 <= x < size -> x ∉ res ->
  chosen size (merge_sort Z.le (res ++ [x])) /\
  length (merge_sort Z.le (res ++ [x])) = S (length res).
Proof.
  intros [St F] Bx N. pose proof (merge_sort_Permutation Z.le (res ++ [x])) as P.
  split; [split|].
  - apply sorted_lt; [apply StronglySorted_merge_sort; [apply _|intros ?; lia..]|].
    rewrite P. apply NoDup_app. split; [by apply lt_nodup|]. split; [|apply NoDup_singleton].
    intros y I. rewrite list_elem_of_singleton. by intros ->.
  - rewrite P. apply Forall_app. split; [done|]. by apply Forall_singleton.
  - rewrite P, length_app. cbn. lia.
Qed.

Lemma pick_loop_spec uniform size todo : (forall i hi, 0 <= hi -> 0 <= uniform i hi <= hi) ->
  forall res, chosen size res -> Z.of_nat (length res + todo) <= size ->
  chosen size (pick_loop uniform todo size res) /\
  length (pick_loop uniform todo size res) = (length res + todo)%nat.
Proof.
  intros U. induction todo as [|todo IH]; intros res C L; cbn [pick_loop].
  { split; [done|lia]. }
  assert (0 <= size - 1 - Z.of_nat (length res)) as Hi by lia.
  pose proof (U (length res) _ Hi) as Bv.
  destruct (skip_spec res (uniform (length res) (size - 1 - Z.of_nat (length res))) (proj1 C)) as [B N].
  set (x := skip res _) in *. assert (0 <= x < size) as Bx by lia.
  destruct (chosen_pick size res x C Bx N) as [C' L'].
  destruct (IH _ C') as [C'' L'']; [rewrite L'; lia|]. split; [done|]. rewrite L'', L'. lia.
Qed.

Lemma pick_n_spec uniform count size :
  (forall i hi, 0 <= hi -> 0 <= uniform i hi <= hi) -> 0 <= count <= size -> size < 2 ^ 31 ->
  chosen size (pick_n uniform count size) /\
  Z.of_nat (length (pick_n uniform count size)) = count.
Proof.
  intros U B Sz. unfold pick_n. destruct (count <? size) eqn:E; to_prop.
  - rewrite wrap_u_id by lia.
    destruct (pick_loop_spec uniform size (Z.to_nat count) U []) as [C L].
    + split; constructor.
    + cbn. lia.
    + split; [done|]. rewrite L. cbn. lia.
  - split; [|rewrite length_seqZ; lia]. split.
    + clear. remember 0 as k eqn:Ek. clear Ek.
      assert (forall n m, StronglySorted Z.lt (seqZ m (Z.of_nat n))) as H.
      { induction n as [|n IH]; intros m; [constructor|].
        rewrite seqZ_cons by lia. replace (Z.pred (Z.of_nat (S n))) with (Z.of_nat n) by lia.
        constructor; [apply IH|]. rewrite Forall_forall. intros x I. apply elem_of_seqZ in I. lia. }
      destruct (decide (0 <= size)); [specialize (H (Z.to_nat size) k); by rewrite Z2Nat.id in H|].
      rewrite seqZ_nil by lia. constructor.
    + rewrite Forall_forall. intros x I. apply elem_of_seqZ in I. lia.
Qed.

End Random.
