(* ===== verification/Kouncil.v ===== *)
(** The overlay that knows every node: memo/overlay/kouncil/Kouncil.cc, with the
    ages and endpoints it exchanges (elle/athena/LamportAge.hh,
    memo/model/Endpoints.cc) and the part of memo/overlay/Overlay.cc over it.

    A node has the peers it is connected to, what it heard of others, those it
    tries to reach again, and the blocks each of its peers holds. The calls of a
    peer are in pieces, as other coroutines run while it waits for an answer;
    what the node asks of its connections, of its observers and of the timers
    is the list [out]. *)

From stdpp Require Import base tactics option sorting gmap list.
From Stdlib Require Import ZArith Lia.
From S2P Require Import Prelude Versions Buffers Streams Addresses Nodes Picks.
Open Scope Z_scope.

(** ** Ages *)

Module LamportAge.
(** A date, in nanoseconds; 0 is the epoch of the clock. What is sent is the
    age, and what is kept is the date. *)
Definition t : Type := Z.
Definition second : Z := 1000000000.
Definition null : t := 0.
Definition start (now : Z) : t := now.
Definition age (now : Z) (a : t) : Z := if a =? 0 then 0 else Z.max second (now - a).
Definition write (now : Z) (a : t) : Z := age now a.
Definition read (now : Z) (age : Z) : t := if age =? 0 then 0 else now - age.
End LamportAge.

(** ** Endpoints *)

Module Endpoints.
(** An address of IP, as its bytes, and a port. *)
Record Endpoint := mkEndpoint { address : list Z; port : Z }.

#[export] Instance endpoint_eq_dec : EqDecision Endpoint.
Proof. solve_decision. Defined.
#[export] Program Instance endpoint_countable : Countable Endpoint :=
  inj_countable' (fun e => (address e, port e)) (fun x => mkEndpoint x.1 x.2) _.
Next Obligation. by intros []. Qed.

Definition t : Type := gset Endpoint.
(** Whether any endpoint was added, and the result. *)
Definition merge (eps from : t) : bool * t :=
  (negb (bool_decide (from ⊆ eps)), eps ∪ from).
End Endpoints.
#[export] Existing Instances Endpoints.endpoint_eq_dec Endpoints.endpoint_countable.

Module Kouncil.

Record NodeLocation := mkLocation { loc_id : Addr; loc_endpoints : Endpoints.t }.

Record PeerInfo := mkInfo {
  id : Addr;
  endpoints : Endpoints.t;
  stamp : Z;
  disappearance : LamportAge.t;
  storing : option bool
}.

Definition set_info_endpoints (e : Endpoints.t) (s : Z) (p : PeerInfo) : PeerInfo :=
  mkInfo (id p) e s (disappearance p) (storing p).
Definition set_disappearance (d : LamportAge.t) (p : PeerInfo) : PeerInfo :=
  mkInfo (id p) (endpoints p) (stamp p) d (storing p).
Definition set_info_storing (b : option bool) (p : PeerInfo) : PeerInfo :=
  mkInfo (id p) (endpoints p) (stamp p) (disappearance p) b.

Definition location (p : PeerInfo) : NodeLocation := mkLocation (id p) (endpoints p).
(** PeerInfo(NodeLocation). *)
Definition of_location (l : NodeLocation) : PeerInfo :=
  mkInfo (loc_id l) (loc_endpoints l) (-1) LamportAge.null None.

Definition merge (p from : PeerInfo) : bool * PeerInfo :=
  if ((stamp p <? stamp from) || (stamp from =? -1)) &&
     negb (bool_decide (endpoints p = endpoints from))
  then (true, set_info_endpoints (endpoints from) (stamp from) p)
  else (false, p).

(** What is sent of a PeerInfo, and what is made of it. *)
Definition wire : Type := Addr * Endpoints.t * Z * Z.
Definition sent (now : Z) (p : PeerInfo) : wire :=
  (id p, endpoints p, stamp p, LamportAge.write now (disappearance p)).
Definition received (now : Z) (w : wire) : PeerInfo :=
  let '(i, e, s, a) := w in mkInfo i e s (LamportAge.read now a) None.

(** A PeerInfos keeps the first of each identifier. *)
Fixpoint unique_infos (l : list PeerInfo) : list PeerInfo :=
  match l with
  | [] => []
  | p :: l' => p :: filter (fun q => id q <> id p) (unique_infos l')
  end.

(** [slot]: whether the end of a connection calls [failed]; the timers are the
    delays they were given. *)
Record StaleEndpoint := mkStale {
  stale_endpoints : Endpoints.t;
  slot : bool;
  retry_timer : option Z;
  retry_counter : Z;
  evict_timer : option Z
}.
Definition new_stale (e : Endpoints.t) : StaleEndpoint := mkStale e false None 0 None.

(** What happens outside. Before 0.8.0 only the locations of the infos are
    sent. *)
Inductive action :=
  | Connect (l : NodeLocation)                       (* Dock::connect *)
  | Advertise (peer : Addr) (infos : list PeerInfo)  (* the calls to a peer *)
  | FetchEntries (peer : Addr)
  | NotifyObservers (p : PeerInfo)                   (* to the nodes that are served *)
  | ChangeEntries (changes : gmap Addr bool)
  | AddEntries (blocks : gset Addr)
  | Configure (storing : bool)
  | UpdateReachable                                  (* signals *)
  | OnDiscovery (l : NodeLocation)
  | OnDisappearance (i : Addr)
  | OnEviction (i : Addr).

Inductive error := AssertError | NullPointer | NodeNotFound (i : Addr).

Record t := mkKouncil {
  self : Addr;
  dn_version : Version.t;
  has_local : bool;
  eviction_delay : Z;
  overlay_storing : bool;
  cleaning : bool;
  address_book : gset (Addr * Addr);      (* nodes and blocks *)
  peers : list Addr;
  infos : gmap Addr PeerInfo;
  stale : gmap Addr StaleEndpoint;
  new_entries : list (Addr * bool);
  out : list action
}.

Definition set_storing (b : bool) (s : t) : t :=
  mkKouncil (self s) (dn_version s) (has_local s) (eviction_delay s) b (cleaning s)
    (address_book s) (peers s) (infos s) (stale s) (new_entries s) (out s).
Definition set_cleaning (b : bool) (s : t) : t :=
  mkKouncil (self s) (dn_version s) (has_local s) (eviction_delay s) (overlay_storing s) b
    (address_book s) (peers s) (infos s) (stale s) (new_entries s) (out s).
Definition set_book (b : gset (Addr * Addr)) (s : t) : t :=
  mkKouncil (self s) (dn_version s) (has_local s) (eviction_delay s) (overlay_storing s)
    (cleaning s) b (peers s) (infos s) (stale s) (new_entries s) (out s).
Definition set_peers (l : list Addr) (s : t) : t :=
  mkKouncil (self s) (dn_version s) (has_local s) (eviction_delay s) (overlay_storing s)
    (cleaning s) (address_book s) l (infos s) (stale s) (new_entries s) (out s).
Definition set_infos (m : gmap Addr PeerInfo) (s : t) : t :=
  mkKouncil (self s) (dn_version s) (has_local s) (eviction_delay s) (overlay_storing s)
    (cleaning s) (address_book s) (peers s) m (stale s) (new_entries s) (out s).
Definition set_stale (m : gmap Addr StaleEndpoint) (s : t) : t :=
  mkKouncil (self s) (dn_version s) (has_local s) (eviction_delay s) (overlay_storing s)
    (cleaning s) (address_book s) (peers s) (infos s) m (new_entries s) (out s).
Definition set_new (l : list (Addr * bool)) (s : t) : t :=
  mkKouncil (self s) (dn_version s) (has_local s) (eviction_delay s) (overlay_storing s)
    (cleaning s) (address_book s) (peers s) (infos s) (stale s) l (out s).
Definition emit_on (a : action) (s : t) : t :=
  mkKouncil (self s) (dn_version s) (has_local s) (eviction_delay s) (overlay_storing s)
    (cleaning s) (address_book s) (peers s) (infos s) (stale s) (new_entries s) (out s ++ [a]).

Abbreviation M := (method t error).

Definition emit (a : action) : M unit := modify (emit_on a).
Definition since_0_8 (s : t) : bool := Version.geb (dn_version s) (Version.make 0 8 0).

(** ELLE_ENFORCE of a pointer that was looked for. *)
Definition enforce {X} (o : option X) : M X :=
  match o with Some x => mret x | None => throw AssertError end.

(** *** Blocks the nodes hold *)

Definition erase_node (i : Addr) (b : gset (Addr * Addr)) : gset (Addr * Addr) :=
  filter (fun e => e.1 <> i) b.

(** The handlers of Local::on_store and Local::on_remove. *)
Definition on_store (b : Addr) : M unit :=
  modify (fun s => set_book ({[(self s, b)]} ∪ address_book s) s);;
  modify (fun s => set_new (new_entries s ++ [(b, true)]) s);;
  emit UpdateReachable.
Definition on_remove (b : Addr) : M unit :=
  s ← Prelude.read;
  (if decide ((self s, b) ∈ address_book s)
   then modify (set_book (address_book s ∖ {[(self s, b)]}))
   else throw AssertError);;
  modify (fun s => set_new (new_entries s ++ [(b, false)]) s);;
  emit UpdateReachable.

(** A turn of [_broadcast]: all there is in the queue, which is not empty, in a
    map that keeps the first change of a block. *)
Definition batch (l : list (Addr * bool)) : gmap Addr bool :=
  fold_left (fun m c => match m !! c.1 with Some _ => m | None => <[c.1 := c.2]> m end) l ∅.
Definition broadcast : M unit :=
  s ← Prelude.read;
  modify (set_new []);;
  emit (if since_0_8 s then ChangeEntries (batch (new_entries s))
        else AddEntries (list_to_set (fst <$> filter (fun c => c.2 = true) (new_entries s)))).

(** The calls kouncil_change_entries and kouncil_add_entries of the peer [r]. *)
Definition change (r b : Addr) (inserted : bool) (book : gset (Addr * Addr)) : gset (Addr * Addr) :=
  if inserted then {[(r, b)]} ∪ book else book ∖ {[(r, b)]}.
Definition change_entries (r : Addr) (changes : gmap Addr bool) : M unit :=
  modify (fun s => set_book (map_fold (change r) (address_book s) changes) s);;
  emit UpdateReachable.
Definition add_entries (r : Addr) (blocks : gset Addr) : M unit :=
  modify (fun s => set_book (set_map (fun b => (r, b)) blocks ∪ address_book s) s);;
  emit UpdateReachable.

(** kouncil_fetch_entries and kouncil_lookup. *)
Definition blocks_of (i : Addr) (book : gset (Addr * Addr)) : gset Addr :=
  set_map snd (filter (fun e => e.1 = i) book).
Definition owners_of (b : Addr) (book : gset (Addr * Addr)) : gset Addr :=
  set_map fst (filter (fun e => e.2 = b) book).
Definition serve_entries : M (gset Addr) := reads (fun s => blocks_of (self s) (address_book s)).
Definition serve_lookup (b : Addr) : M (gset Addr) := reads (fun s => owners_of b (address_book s)).

(** *** Peers *)

Definition discovered (i : Addr) (s : t) : bool := bool_decide (i ∈ peers s).

Definition remember_stale (l : NodeLocation) : M unit :=
  modify (fun s =>
    set_stale
      (<[loc_id l := match stale s !! loc_id l with
                     | Some e => mkStale (Endpoints.merge (stale_endpoints e) (loc_endpoints l)).2
                                   (slot e) (retry_timer e) (retry_counter e) (evict_timer e)
                     | None => new_stale (loc_endpoints l)
                     end]> (stale s)) s).

(** [_discover(NodeLocations)], and Overlay::discover. *)
Fixpoint discover_locations (l : list NodeLocation) : M unit :=
  match l with
  | [] => mret tt
  | peer :: l =>
      s ← Prelude.read;
      when (negb (discovered (loc_id peer) s)) (emit (Connect peer));;
      when (negb (bool_decide (loc_id peer = null_addr))) (remember_stale peer);;
      discover_locations l
  end.
Definition overlay_discover (l : list NodeLocation) : M unit :=
  s ← Prelude.read;
  discover_locations (filter (fun p => loc_id p <> self s) l).

Definition update_stale (i : Addr) (f : StaleEndpoint -> StaleEndpoint) : M unit :=
  modify (fun s => set_stale (alter f i (stale s)) s).
Definition set_slot (b : bool) (e : StaleEndpoint) : StaleEndpoint :=
  mkStale (stale_endpoints e) b (retry_timer e) (retry_counter e) (evict_timer e).

Definition notify_observers (p : PeerInfo) : M unit :=
  s ← Prelude.read;
  when (has_local s) (emit (NotifyObservers p)).

Definition discover_info (p : PeerInfo) : M unit :=
  if decide (id p = null_addr) then throw AssertError
  else
    s ← Prelude.read;
    let '(changed, q) :=
      match infos s !! id p with Some q => merge q p | None => (true, p) end in
    modify (set_infos (<[id p := q]> (infos s)));;
    when changed
      (remember_stale (location p);;
       s ← Prelude.read;
       when (negb (discovered (id p) s))
         (emit (Connect (location p));; update_stale (id p) (set_slot true));;
       notify_observers p).
Fixpoint discover_infos (l : list PeerInfo) : M unit :=
  match l with
  | [] => mret tt
  | p :: l =>
      s ← Prelude.read;
      when (negb (bool_decide (id p = self s))) (discover_info p);;
      discover_infos l
  end.

(** kouncil_discover: locations before 0.8.0, and then PeerInfos. *)
Definition kouncil_discover_locations (l : list NodeLocation) : M unit :=
  discover_infos (unique_infos (of_location <$> l)).
Definition kouncil_discover (now : Z) (l : list wire) : M unit :=
  discover_infos (received now <$> l).

(** kouncil_advertise, before and after 0.8.0. *)
Definition infos_list (s : t) : list PeerInfo := snd <$> map_to_list (infos s).
Definition serve_advertise_locations (l : list NodeLocation) : M (list NodeLocation) :=
  discover_locations l;; reads (fun s => location <$> infos_list s).
Definition serve_advertise (now : Z) (l : list wire) : M (list PeerInfo * bool) :=
  discover_infos (received now <$> l);;
  reads (fun s => (infos_list s, overlay_storing s)).

(** kouncil_configure, of the peer [r]. *)
Definition configure (r : Addr) (b : bool) : M unit :=
  s ← Prelude.read;
  p ← enforce (infos s !! r);
  modify (set_infos (<[r := set_info_storing (Some b) p]> (infos s))).

(** Overlay::storing, and [_store]. *)
Definition store_ (b : bool) : M unit :=
  s ← Prelude.read;
  if has_local s then emit (Configure b) else throw NullPointer.
Definition set_overlay_storing (b : bool) : M unit :=
  s ← Prelude.read;
  when (negb (Bool.eqb b (overlay_storing s))) (modify (set_storing b);; store_ b).

(** *** Connections *)

Definition clear (e : StaleEndpoint) : StaleEndpoint :=
  mkStale (stale_endpoints e) false None 0 None.

(** StaleEndpoint::connect and StaleEndpoint::failed. *)
Definition connect (i : Addr) : M unit :=
  s ← Prelude.read;
  match stale s !! i with
  | None => throw NullPointer
  | Some e =>
      emit (Connect (mkLocation i (stale_endpoints e)));;
      modify (set_stale (<[i := mkStale (stale_endpoints e) true (retry_timer e)
                                  (retry_counter e + 1) (evict_timer e)]> (stale s)))
  end.
Definition failed (i : Addr) : M unit :=
  update_stale i (fun e =>
    mkStale (stale_endpoints e) (slot e)
      (Some (Z.shiftl 1 (Z.min 10 (retry_counter e)) * LamportAge.second))
      (retry_counter e) (evict_timer e)).

(** StaleEndpoint::reconnect. [garbage] is what a Duration that is not
    initialised holds. *)
Definition reconnect (now garbage : Z) (i : Addr) : M unit :=
  s ← Prelude.read;
  let age := match infos s !! i with
             | Some p => LamportAge.age now (disappearance p)
             | None => garbage
             end in
  update_stale i (fun e =>
    mkStale (stale_endpoints e) (slot e) (retry_timer e) (retry_counter e)
      (Some (eviction_delay s - age)));;
  connect i.

(** [_advertise], until the peer answers. *)
Definition advertise (i : Addr) : M unit :=
  s ← Prelude.read;
  emit (Advertise i (if has_local s then infos_list s else [])).

(** [_peer_connected], until its first call. *)
Definition emplace_peer (i : Addr) (l : list Addr) : list Addr :=
  if decide (i ∈ l) then l else l ++ [i].
Definition peer_connected (l : NodeLocation) : M unit :=
  let i := loc_id l in
  if decide (i = null_addr) then throw AssertError
  else
    modify (fun s => set_peers (emplace_peer i (peers s)) s);;
    s ← Prelude.read;
    match stale s !! i with
    | Some _ => update_stale i clear
    | None =>
        when (negb (cleaning s))
          (modify (set_stale (<[i := new_stale (loc_endpoints l)]> (stale s))))
    end;;
    modify (fun s => set_infos (alter (set_info_storing (Some true)) i (infos s)) s);;
    advertise i.

(** [_advertise] when the peer answered: locations before 0.8.0, PeerInfos and
    its configuration since; and what follows in [_peer_connected]. When the
    call fails only the first part is skipped. *)
Definition fetch_entries (i : Addr) : M unit := emit (FetchEntries i).
Definition advertised_locations (i : Addr) (l : list NodeLocation) : M unit :=
  discover_infos (unique_infos (of_location <$> l));; fetch_entries i.
Definition advertised (now : Z) (i : Addr) (l : list wire) (b : bool) : M unit :=
  discover_infos (received now <$> l);; configure i b;; fetch_entries i.
Definition advertise_failed (i : Addr) : M unit := fetch_entries i.

(** [_fetch_entries] when the peer answered, and the end of
    [_peer_connected]. *)
Definition fetched (l : NodeLocation) (blocks : gset Addr) : M unit :=
  add_entries (loc_id l) blocks;; emit (OnDiscovery l).

Definition peer_disconnected (now garbage : Z) (i : Addr) : M unit :=
  modify (fun s =>
    set_infos (alter (fun p => set_info_storing None (set_disappearance (LamportAge.start now) p)) i
                 (infos s)) s);;
  modify (fun s => set_peers (filter (fun j => j <> i) (peers s)) s);;
  modify (fun s => set_book (erase_node i (address_book s)) s);;
  emit UpdateReachable;;
  s ← Prelude.read;
  when (negb (cleaning s)) (enforce (stale s !! i);; reconnect now garbage i);;
  emit (OnDisappearance i).

Definition peer_evicted (i : Addr) : M unit :=
  s ← Prelude.read;
  if discovered i s then throw AssertError
  else
    modify (fun s => set_infos (delete i (infos s)) s);;
    modify (fun s => set_book (erase_node i (address_book s)) s);;
    emit UpdateReachable;;
    modify (fun s => set_stale (delete i (stale s)) s);;
    emit (OnEviction i).

Definition cleanup : M unit :=
  modify (set_cleaning true);; modify (set_stale ∅).

(** *** Construction *)

Definition create (i : Addr) (v : Version.t) (delay : option Z) : t :=
  mkKouncil i v false (default (200 * 60 * LamportAge.second) delay) true false ∅ [] ∅ ∅ [] [].
(** [_register_local], with the endpoints and the blocks of the server. *)
Definition register_local (now : Z) (e : Endpoints.t) (blocks : list Addr) (s : t) : t :=
  emit_on UpdateReachable
    (mkKouncil (self s) (dn_version s) true (eviction_delay s) (overlay_storing s) (cleaning s)
       (list_to_set ((fun b => (self s, b)) <$> blocks) ∪ address_book s)
       (emplace_peer (self s) (peers s))
       (match infos s !! self s with
        | Some _ => infos s
        | None => <[self s := mkInfo (self s) e (now / 1000000) LamportAge.null
                                (Some (overlay_storing s))]> (infos s)
        end)
       (stale s) (new_entries s) (out s)).

(** *** Lookup *)

Definition lookup_node (i : Addr) (s : t) : result error Addr :=
  if discovered i s then Ok i else Throw (NodeNotFound i).

(** The members that are yielded until there are [n], the count being tested
    after each. [count] are those yielded already. *)
Fixpoint yield_until (n count : Z) (s : t) (l : list Addr) : list Addr :=
  match l with
  | [] => []
  | i :: l =>
      if discovered i s
      then i :: (if n <=? count + 1 then [] else yield_until n (count + 1) s l)
      else yield_until n count s l
  end.

(** [rpc] is what kouncil_lookup answers on each peer, [None] for an error of
    the network. *)
Fixpoint ask_peers (rpc : Addr -> Addr -> option (list Addr)) (n : Z) (s : t) (b : Addr)
    (l : list Addr) : list Addr :=
  match l with
  | [] => []
  | p :: l =>
      if decide (p = self s) then ask_peers rpc n s b l
      else
        match rpc p b with
        | None => ask_peers rpc n s b l
        | Some nodes =>
            match yield_until n 0 s nodes with
            | [] => ask_peers rpc n s b l
            | r => r
            end
        end
  end.
Definition lookup (rpc : Addr -> Addr -> option (list Addr)) (b : Addr) (n : Z) (s : t) : list Addr :=
  match yield_until n 0 s (elements (owners_of b (address_book s))) with
  | [] => ask_peers rpc n s b (peers s)
  | r => r
  end.

(** [_allocate]: some of the peers, or of those that are known to store. *)
Definition select {X} (l : list X) (idx : list Z) : list X :=
  omap (fun i => l !! Z.to_nat i) idx.
Definition storing_infos (s : t) : list PeerInfo :=
  filter (fun p => storing p = Some true) (infos_list s).
Fixpoint members (l : list PeerInfo) (s : t) : result error (list Addr) :=
  match l with
  | [] => Ok []
  | p :: l =>
      if discovered (id p) s then r ← members l s; Ok (id p :: r) else Throw AssertError
  end.
Definition allocate (uniform : nat -> Z -> Z) (n : Z) (s : t) : result error (list Addr) :=
  if negb (since_0_8 s) then
    let size := Z.of_nat (length (peers s)) in
    Ok (select (peers s) (Random.pick_n uniform (Z.min n size) size))
  else
    let range := storing_infos s in
    let size := Z.of_nat (length range) in
    members (select range (Random.pick_n uniform (Z.min n size) size)) s.

(** *** Reachable blocks *)

Record ReachableBlocks := mkReachable {
  total_blocks : Z;
  mutable_blocks : Z;
  immutable_blocks : Z;
  underreplicated_immutable_blocks : Z;
  overreplicated_immutable_blocks : Z;
  underreplicated_mutable_blocks : Z;
  under_quorum_mutable_blocks : Z;
  sample_underreplicated : list Addr
}.

(** [ids_mutable] or [ids_immutable]. *)
Definition count_ids (mutable : bool) (book : gset (Addr * Addr)) : gmap Addr Z :=
  set_fold (fun e m =>
    if Bool.eqb (Address.mutable_block (key_of e.2)) mutable
    then <[e.2 := default 0 (m !! e.2) + 1]> m else m) ∅ book.

Definition sample (b : Addr) (r : ReachableBlocks) : list Addr :=
  if (length (sample_underreplicated r) <? 10)%nat
  then sample_underreplicated r ++ [b] else sample_underreplicated r.
Definition count_immutable (rf : Z) (r : ReachableBlocks) (c : Addr * Z) : ReachableBlocks :=
  if rf <? c.2 then
    mkReachable (total_blocks r) (mutable_blocks r) (immutable_blocks r)
      (underreplicated_immutable_blocks r) (overreplicated_immutable_blocks r + 1)
      (underreplicated_mutable_blocks r) (under_quorum_mutable_blocks r) (sample_underreplicated r)
  else if c.2 <? rf then
    mkReachable (total_blocks r) (mutable_blocks r) (immutable_blocks r)
      (underreplicated_immutable_blocks r + 1) (overreplicated_immutable_blocks r)
      (underreplicated_mutable_blocks r) (under_quorum_mutable_blocks r) (sample c.1 r)
  else r.
Definition count_mutable (rf : Z) (r : ReachableBlocks) (c : Addr * Z) : ReachableBlocks :=
  let r :=
    if c.2 <? rf then
      mkReachable (total_blocks r) (mutable_blocks r) (immutable_blocks r)
        (underreplicated_immutable_blocks r) (overreplicated_immutable_blocks r)
        (underreplicated_mutable_blocks r + 1) (under_quorum_mutable_blocks r) (sample c.1 r)
    else r in
  if c.2 <? rf / 2 + 1 then
    mkReachable (total_blocks r) (mutable_blocks r) (immutable_blocks r)
      (underreplicated_immutable_blocks r) (overreplicated_immutable_blocks r)
      (underreplicated_mutable_blocks r) (under_quorum_mutable_blocks r + 1)
      (sample_underreplicated r)
  else r.
Definition compute_reachable_blocks (rf : Z) (book : gset (Addr * Addr)) : ReachableBlocks :=
  let mutables := map_to_list (count_ids true book) in
  let immutables := map_to_list (count_ids false book) in
  let m := Z.of_nat (length mutables) in
  let i := Z.of_nat (length immutables) in
  fold_left (count_mutable rf) mutables
    (fold_left (count_immutable rf) immutables (mkReachable (m + i) m i 0 0 0 0 [])).

End Kouncil.
