(* ===== verification/KouncilProperties.v ===== *)
(** The states of Kouncil.v: what can happen to a node, what holds whatever
    happens, and how the node agrees with what is around it. *)

From stdpp Require Import base tactics option gmap list.
From Stdlib Require Import ZArith Lia.
From S2P Require Import Prelude Versions Buffers Streams Addresses Nodes Picks Kouncil.
Open Scope Z_scope.
Import Kouncil.

(** ** Events *)

(** What happens to a node of version 0.8.0 or more; the first arguments of
    those that look at the clock are the time, and what an uninitialised
    duration holds. *)
Inductive event :=
  | Store (b : Addr)
  | Remove (b : Addr)
  | Broadcast
  | Connected (l : NodeLocation)
  | Advertised (now : Z) (i : Addr) (l : list wire) (b : bool)
  | AdvertiseFailed (i : Addr)
  | Fetched (l : NodeLocation) (blocks : gset Addr)
  | Disconnected (now garbage : Z) (i : Addr)
  | AttemptFailed (i : Addr)
  | RetryFires (i : Addr)
  | EvictFires (i : Addr)
  | Changed (r : Addr) (changes : gmap Addr bool)
  | Configured (r : Addr) (b : bool)
  | Heard (now : Z) (l : list wire)
  | Asked (now : Z) (l : list wire)
  | Located (l : list NodeLocation)
  | Storing (b : bool)
  | Cleanup.

(** The timers and the connections that have ended are forgotten before what
    they call is run. *)
Definition forget_slot (i : Addr) : M unit := update_stale i (set_slot false).
Definition forget_retry (i : Addr) : M unit :=
  update_stale i (fun e => mkStale (stale_endpoints e) (slot e) None (retry_counter e) (evict_timer e)).
Definition forget_evict (i : Addr) : M unit :=
  update_stale i (fun e => mkStale (stale_endpoints e) (slot e) (retry_timer e) (retry_counter e) None).

Definition happen (e : event) : M unit :=
  match e with
  | Store b => on_store b
  | Remove b => on_remove b
  | Broadcast => broadcast
  | Connected l => peer_connected l
  | Advertised now i l b => advertised now i l b
  | AdvertiseFailed i => advertise_failed i
  | Fetched l blocks => fetched l blocks
  | Disconnected now garbage i => peer_disconnected now garbage i
  | AttemptFailed i => forget_slot i;; failed i
  | RetryFires i => forget_retry i;; connect i
  | EvictFires i => forget_evict i;; peer_evicted i
  | Changed r changes => change_entries r changes
  | Configured r b => configure r b
  | Heard now l => kouncil_discover now l
  | Asked now l => serve_advertise now l;; mret tt
  | Located l => overlay_discover l
  | Storing b => set_overlay_storing b
  | Cleanup => cleanup
  end.

Fixpoint run (l : list event) : M unit :=
  match l with [] => mret tt | e :: l => happen e;; run l end.

(** When they can: calls are served, and answered, for connected peers; a
    server advertises itself; messages are about nodes that have an
    identifier. *)
Definition wire_id (w : wire) : Addr := w.1.1.1.
Definition on_stale (i : Addr) (s : t) (f : StaleEndpoint -> bool) : Prop :=
  exists e, stale s !! i = Some e /\ f e = true.
Definition is_set {X} (o : option X) : bool := match o with Some _ => true | None => false end.
Definition named (l : list wire) : Prop := Forall (fun w => wire_id w <> null_addr) l.
Definition enabled (s : t) (e : event) : Prop :=
  match e with
  | Store _ => has_local s = true
  | Remove b => has_local s = true /\ (self s, b) ∈ address_book s
  | Broadcast => has_local s = true /\ new_entries s <> []
  | Connected l => loc_id l <> null_addr /\ loc_id l <> self s
  | Advertised _ i l _ => i ∈ peers s /\ i <> self s /\ i ∈ (wire_id <$> l) /\ named l
  | AdvertiseFailed i => i ∈ peers s
  | Fetched l _ => loc_id l ∈ peers s
  | Disconnected _ _ i => i ∈ peers s /\ i <> self s
  | AttemptFailed i => on_stale i s slot
  | RetryFires i => on_stale i s (fun e => is_set (retry_timer e))
  | EvictFires i => on_stale i s (fun e => is_set (evict_timer e))
  | Changed r _ => r ∈ peers s
  | Configured r _ => r ∈ peers s /\ is_Some (infos s !! r)
  | Heard _ l => named l
  | Asked _ l => has_local s = true /\ named l
  | Located _ => True
  | Storing _ => has_local s = true
  | Cleanup => True
  end.

Inductive reachable : t -> Prop :=
  | reach_client i v delay : Version.geb v (Version.make 0 8 0) = true ->
      reachable (create i v delay)
  | reach_server i v delay now e blocks : Version.geb v (Version.make 0 8 0) = true ->
      reachable (register_local now e blocks (create i v delay))
  | reach_step s e s' : reachable s -> enabled s e -> happen e s = (Ok tt, s') -> reachable s'.

(** ** Invariants *)

(** Whether a node is being reached again, or waited for. *)
Definition retried (e : StaleEndpoint) : bool := slot e || is_set (retry_timer e).
Definition active (e : StaleEndpoint) : bool := retried e || is_set (evict_timer e).

Record inv (s : t) : Prop := {
  inv_nodup : NoDup (peers s);
  inv_self : has_local s = true -> self s ∈ peers s;
  inv_book : forall i b, (i, b) ∈ address_book s -> i ∈ peers s;
  inv_ids : forall i p, infos s !! i = Some p -> id p = i;
  inv_storing : forall i p, infos s !! i = Some p -> is_Some (storing p) -> i ∈ peers s;
  inv_known : cleaning s = false -> forall i, i ∈ peers s -> i <> self s -> is_Some (stale s !! i);
  inv_idle : forall i e, stale s !! i = Some e -> active e = true -> i ∉ peers s;
  inv_watched : cleaning s = false -> forall i p, infos s !! i = Some p -> i <> self s ->
    i ∉ peers s -> on_stale i s retried
}.

(** What hearing about nodes leaves as it is. *)
Definition keeps (s s' : t) : Prop :=
  self s' = self s /\ has_local s' = has_local s /\ cleaning s' = cleaning s /\
  peers s' = peers s /\ address_book s' = address_book s /\ dn_version s' = dn_version s /\
  overlay_storing s' = overlay_storing s /\ new_entries s' = new_entries s /\
  forall i, is_Some (infos s !! i) -> is_Some (infos s' !! i).

Lemma keeps_refl s : keeps s s.
Proof. by repeat split. Qed.
Lemma keeps_trans s s' s'' : keeps s s' -> keeps s' s'' -> keeps s s''.
Proof.
  intros (A1&A2&A3&A4&A5&A6&A7&A8&A9) (B1&B2&B3&B4&B5&B6&B7&B8&B9).
  repeat split; try congruence. intros i H. by apply B9, A9.
Qed.

(** The invariant does not depend on what is sent. *)
Lemma inv_same s s' : inv s -> self s' = self s -> has_local s' = has_local s ->
  cleaning s' = cleaning s -> peers s' = peers s -> address_book s' = address_book s ->
  infos s' = infos s -> stale s' = stale s -> inv s'.
Proof.
  intros [I1 I2 I3 I4 I5 I6 I7 I8] E1 E2 E3 E4 E5 E6 E7.
  split; unfold on_stale in *; rewrite ?E1, ?E2, ?E3, ?E4, ?E5, ?E6, ?E7; done.
Qed.

(** Entries are remembered with what they wait for. *)
Definition remembered (l : NodeLocation) (m : gmap Addr StaleEndpoint) : gmap Addr StaleEndpoint :=
  <[loc_id l := match m !! loc_id l with
                | Some e => mkStale (Endpoints.merge (stale_endpoints e) (loc_endpoints l)).2
                              (slot e) (retry_timer e) (retry_counter e) (evict_timer e)
                | None => new_stale (loc_endpoints l)
                end]> m.

Lemma remembered_flags l m i e : remembered l m !! i = Some e ->
  active e = false \/ exists e', m !! i = Some e' /\ active e' = active e /\ retried e' = retried e.
Proof.
  unfold remembered. destruct (decide (i = loc_id l)) as [->|N].
  - rewrite lookup_insert_eq. intros [= <-]. destruct (m !! loc_id l) as [e'|]; [|by left].
    right. by exists e'.
  - rewrite lookup_insert_ne by done. intros E. right. by exists e.
Qed.
Lemma remembered_dom l m i : is_Some (m !! i) -> is_Some (remembered l m !! i).
Proof.
  unfold remembered. destruct (decide (i = loc_id l)) as [->|N];
    [by rewrite lookup_insert_eq|by rewrite lookup_insert_ne].
Qed.
Lemma remembered_retried l m i e : m !! i = Some e -> retried e = true ->
  exists e', remembered l m !! i = Some e' /\ retried e' = true.
Proof.
  unfold remembered. intros E R. destruct (decide (i = loc_id l)) as [->|N].
  - rewrite lookup_insert_eq, E. by eexists.
  - rewrite lookup_insert_ne by done. by exists e.
Qed.

Lemma inv_remember l s : inv s -> inv (set_stale (remembered l (stale s)) s).
Proof.
  intros [I1 I2 I3 I4 I5 I6 I7 I8]. split; cbn; try done.
  - intros C i P N. by apply remembered_dom, I6.
  - intros i e E A. destruct (remembered_flags _ _ _ _ E) as [X|(e' & E' & Ea & _)]; [congruence|].
    apply (I7 i e'); [done|congruence].
  - intros C i p E N P. destruct (I8 C i p E N P) as (e & Es & R).
    by apply (remembered_retried l (stale s) i e).
Qed.

(** A node that is not connected may be waited for. *)
Lemma inv_arm i f s : inv s -> i ∉ peers s -> (forall e, retried e = true -> retried (f e) = true) ->
  inv (set_stale (alter f i (stale s)) s).
Proof.
  intros [I1 I2 I3 I4 I5 I6 I7 I8] N F. split; cbn; try done.
  - intros C j P Nj. rewrite lookup_alter_ne by (intros ->; done). by apply I6.
  - intros j e E A. destruct (decide (j = i)) as [->|Nj]; [done|].
    rewrite lookup_alter_ne in E by done. by apply (I7 j e).
  - intros C j p E Ns P. destruct (I8 C j p E Ns P) as (e & Es & R). unfold on_stale. cbn.
    destruct (decide (j = i)) as [->|Nj].
    + rewrite lookup_alter_eq, Es. exists (f e). split; [done|]. by apply F.
    + rewrite lookup_alter_ne by done. by exists e.
Qed.

Lemma discover_info_eq p s : id p <> null_addr ->
  let '(changed, q) := match infos s !! id p with Some q => merge q p | None => (true, p) end in
  let s1 := set_infos (<[id p := q]> (infos s)) s in
  let s2 := if changed then set_stale (remembered (location p) (stale s)) s1 else s1 in
  let s3 := if changed && negb (discovered (id p) s)
            then set_stale (alter (set_slot true) (id p) (stale s2)) (emit_on (Connect (location p)) s2)
            else s2 in
  discover_info p s =
    (Ok tt, if changed && has_local s then emit_on (NotifyObservers p) s3 else s3).
Proof.
  intros N. unfold discover_info. rewrite decide_False by done. rewrite bind_read.
  destruct (match infos s !! id p with Some q => merge q p | None => (true, p) end)
    as [changed q] eqn:E.
  destruct changed; [|done]. cbn [andb].
  unfold notify_observers, update_stale, remember_stale. monad_unfold. cbn.
  unfold discovered. cbn. destruct (bool_decide (id p ∈ peers s)); cbn; by destruct (has_local s).
Qed.

Lemma inv_hear i q s : inv s -> id q = i -> (is_Some (storing q) -> i ∈ peers s) ->
  (cleaning s = false -> i <> self s -> i ∉ peers s -> on_stale i s retried) ->
  inv (set_infos (<[i := q]> (infos s)) s).
Proof.
  intros [I1 I2 I3 I4 I5 I6 I7 I8] Eq Sq W. split; cbn; try done.
  - intros j p E. destruct (decide (j = i)) as [->|N].
    + rewrite lookup_insert_eq in E. congruence.
    + rewrite lookup_insert_ne in E by done. by apply I4.
  - intros j p E. destruct (decide (j = i)) as [->|N].
    + rewrite lookup_insert_eq in E. injection E as <-. done.
    + rewrite lookup_insert_ne in E by done. by apply (I5 j p).
  - intros C j p E Ns P. destruct (decide (j = i)) as [->|N]; [by apply W|].
    rewrite lookup_insert_ne in E by done. by apply (I8 C j p).
Qed.

Lemma merge_spec p from : let '(changed, q) := merge p from in
  id q = id p /\ storing q = storing p /\ disappearance q = disappearance p /\
  (if changed then endpoints q = endpoints from /\ endpoints p <> endpoints from /\
                   stamp q = stamp from /\ (stamp p < stamp from \/ stamp from = -1)
   else q = p /\ (endpoints p = endpoints from \/ stamp from <= stamp p)).
Proof.
  unfold merge. destruct (_ && _)%bool eqn:E; to_prop; cbn.
  - repeat split; try done. destruct H as [H|H]; to_prop; [by left|by right].
  - repeat split; try done. destruct E as [E|E]; to_prop; [lia|by left].
Qed.

Lemma discover_info_inv p s : inv s -> id p <> null_addr -> id p <> self s -> storing p = None ->
  exists s', discover_info p s = (Ok tt, s') /\ inv s' /\ keeps s s' /\ is_Some (infos s' !! id p).
Proof.
  intros I N Ns Sp. pose proof (discover_info_eq p s N) as E.
  destruct (match infos s !! id p with Some q => merge q p | None => (true, p) end)
    as [changed q] eqn:Em.
  assert (id q = id p /\ (is_Some (storing q) -> id p ∈ peers s) /\
          (changed = false -> infos s !! id p = Some q)) as (Iq & Sq & Nc).
  { destruct (infos s !! id p) as [q0|] eqn:E0.
    - pose proof (merge_spec q0 p) as M. rewrite Em in M. destruct M as (-> & -> & _ & R).
      split; [by eapply inv_ids|]. split; [by eapply inv_storing|].
      intros ->. destruct R as [-> _]. done.
    - injection Em as <- <-. split; [done|]. split; [|done]. rewrite Sp. by intros [? [=]]. }
  set (s2 := if changed then set_stale (remembered (location p) (stale s)) s else s).
  set (s3 := if changed && negb (discovered (id p) s)
             then set_stale (alter (set_slot true) (id p) (stale s2)) s2 else s2).
  assert (inv s2) as I2 by (subst s2; destruct changed; [by apply inv_remember|done]).
  assert (inv s3 /\ self s3 = self s /\ peers s3 = peers s /\ cleaning s3 = cleaning s /\
          infos s3 = infos s /\ (changed = true -> id p ∉ peers s -> on_stale (id p) s3 retried))
    as (I3 & E1 & E2 & E3 & E4 & W).
  { subst s3. unfold discovered. destruct changed; cbn [andb].
    - destruct (bool_decide (id p ∈ peers s)) eqn:B; cbn [negb]; to_prop.
      + split; [done|]. subst s2. by split_and!.
      + split; [|subst s2; split_and!; try done].
        * apply inv_arm; [done|by subst s2|]. intros [] R. exact (orb_true_l _).
        * intros _ _. unfold on_stale. cbn. rewrite lookup_alter_eq.
          unfold remembered. cbn. rewrite lookup_insert_eq. by eexists.
    - split; [done|]. subst s2. by split_and!. }
  assert (inv (set_infos (<[id p := q]> (infos s3)) s3)) as I4.
  { apply inv_hear; [done|done|rewrite E2; done|]. rewrite E1, E2, E3. intros C Nself Np.
    destruct changed; [by apply W|]. subst s3 s2. cbn.
    apply (inv_watched _ I C (id p) q); [by apply Nc|done|done]. }
  eexists. split; [exact E|].
  subst s3 s2. split; [|split].
  - eapply inv_same; [exact I4|..]; destruct changed, (has_local s), (negb (discovered (id p) s)); done.
  - unfold keeps. destruct changed, (has_local s) eqn:HL, (negb (discovered (id p) s)); cbn; rewrite ?HL;
      (split_and!; try done; intros i H; destruct (decide (i = id p)) as [->|];
        [rewrite lookup_insert_eq; by eexists|by rewrite lookup_insert_ne]).
  - destruct changed, (has_local s), (negb (discovered (id p) s)); cbn; rewrite lookup_insert_eq; by eexists.
Qed.

Lemma discover_infos_inv l : forall s, inv s -> Forall (fun p => id p <> null_addr /\ storing p = None) l ->
  exists s', discover_infos l s = (Ok tt, s') /\ inv s' /\ keeps s s' /\
    forall p, p ∈ l -> id p <> self s -> is_Some (infos s' !! id p).
Proof.
  induction l as [|p l IH]; intros s I F; cbn [discover_infos].
  { exists s. split; [done|]. split; [done|]. split; [apply keeps_refl|]. set_solver. }
  apply Forall_cons in F as [[N Sp] F]. rewrite bind_read.
  destruct (bool_decide (id p = self s)) eqn:B; to_prop; cbn [negb when].
  - destruct (IH s I F) as (s' & E & I' & K & D). exists s'. split; [done|].
    split; [done|]. split; [done|]. intros q [->|Q]%elem_of_cons; [done|by apply D].
  - destruct (discover_info_inv p s I N B Sp) as (s1 & E1 & I1 & K1 & D1).
    destruct (IH s1 I1 F) as (s' & E & I' & K & D). exists s'.
    rewrite (bind_Ok _ _ _ _ _ E1). split; [done|]. split; [done|].
    split; [by eapply keeps_trans|]. destruct K1 as (Es & _). destruct K as (_&_&_&_&_&_&_&_&K).
    intros q [->|Q]%elem_of_cons Nq; [by apply K|]. apply D; [done|congruence].
Qed.

Lemma received_ok now l : named l ->
  Forall (fun p => id p <> null_addr /\ storing p = None) (received now <$> l).
Proof.
  unfold named. intros F. apply Forall_fmap. eapply Forall_impl; [exact F|].
  intros [[[i e] st] a] N. done.
Qed.

(** *** Each event *)

Lemma update_stale_eq i f s : update_stale i f s = (Ok tt, set_stale (alter f i (stale s)) s).
Proof. done. Qed.

Lemma inv_book_at s book : inv s -> (forall i b, (i, b) ∈ book -> i ∈ peers s) -> inv (set_book book s).
Proof. intros [I1 I2 I3 I4 I5 I6 I7 I8] B. by split. Qed.

Lemma inv_emit a s : inv s -> inv (emit_on a s).
Proof. intros I. by eapply inv_same. Qed.

Lemma change_book r changes s : inv s -> r ∈ peers s ->
  forall i b, (i, b) ∈ map_fold (change r) (address_book s) changes -> i ∈ peers s.
Proof.
  intros I R. apply (map_fold_weak_ind (fun book _ => forall i b, (i, b) ∈ book -> i ∈ peers s)).
  - apply (inv_book _ I).
  - intros a [] m book _ IH i b; cbn; [|set_solver].
    rewrite elem_of_union, elem_of_singleton. intros [[= -> ->]|E]; [done|by eapply IH].
Qed.

Lemma add_entries_inv i blocks s : inv s -> i ∈ peers s ->
  exists s', add_entries i blocks s = (Ok tt, s') /\ inv s'.
Proof.
  intros I P. eexists. split; [reflexivity|]. apply inv_emit, inv_book_at; [done|].
  intros j b. rewrite elem_of_union, elem_of_map. intros [(b' & [= -> _] & _)|E]; [done|].
  by eapply inv_book.
Qed.

Lemma configure_inv r b s : inv s -> r ∈ peers s -> is_Some (infos s !! r) ->
  exists s', configure r b s = (Ok tt, s') /\ inv s'.
Proof.
  intros I P [p E]. unfold configure. rewrite bind_read, E. eexists. split; [reflexivity|].
  apply inv_hear; [done| |done|by intros _ _ []]. by apply (inv_ids _ I r p).
Qed.

Lemma set_info_storing_id b p : id (set_info_storing b p) = id p.
Proof. done. Qed.

Lemma peer_connected_inv l s : inv s -> loc_id l <> null_addr -> loc_id l <> self s ->
  exists s', peer_connected l s = (Ok tt, s') /\ inv s'.
Proof.
  intros I N Ns. unfold peer_connected. rewrite decide_False by done.
  assert (forall j, j ∈ emplace_peer (loc_id l) (peers s) <-> j = loc_id l \/ j ∈ peers s) as Em.
  { intros j. unfold emplace_peer. destruct (decide _); set_solver. }
  set (st := match stale s !! loc_id l with
             | Some e => alter clear (loc_id l) (stale s)
             | None => if cleaning s then stale s
                       else <[loc_id l := new_stale (loc_endpoints l)]> (stale s)
             end).
  assert (forall j, j <> loc_id l -> st !! j = stale s !! j) as Other.
  { intros j Nj. subst st. destruct (stale s !! loc_id l); [by rewrite lookup_alter_ne|].
    destruct (cleaning s); [done|]. by rewrite lookup_insert_ne. }
  assert (forall e, st !! loc_id l = Some e -> active e = false) as Idle.
  { intros e. subst st. destruct (stale s !! loc_id l) eqn:E; [rewrite lookup_alter_eq, E; by intros [= <-]|].
    destruct (cleaning s); [congruence|]. rewrite lookup_insert_eq. by intros [= <-]. }
  assert (cleaning s = false -> is_Some (st !! loc_id l)) as Known.
  { intros C. subst st. destruct (stale s !! loc_id l) eqn:E; [rewrite lookup_alter_eq, E; by eexists|].
    rewrite C, lookup_insert_eq. by eexists. }
  set (s1 := set_infos (alter (set_info_storing (Some true)) (loc_id l) (infos s))
               (set_stale st (set_peers (emplace_peer (loc_id l) (peers s)) s))).
  assert (inv s1) as I1.
  { destruct I as [I1 I2 I3 I4 I5 I6 I7 I8]. subst s1. split; cbn.
    - unfold emplace_peer. destruct (decide _); [done|]. apply NoDup_app.
      split; [done|]. split; [set_solver|apply NoDup_singleton].
    - intros L. apply Em. right. by apply I2.
    - intros i b E. apply Em. right. by eapply I3.
    - intros i p E. destruct (decide (i = loc_id l)) as [->|Ni].
      + rewrite lookup_alter_eq in E. destruct (infos s !! loc_id l) eqn:E'; [|done].
        injection E as <-. rewrite set_info_storing_id. by apply I4.
      + rewrite lookup_alter_ne in E by done. by apply I4.
    - intros i p E. destruct (decide (i = loc_id l)) as [->|Ni]; [intros _; apply Em; by left|].
      rewrite lookup_alter_ne in E by done. intros Sp. apply Em. right. by apply (I5 i p).
    - intros C i P Ni. destruct (decide (i = loc_id l)) as [->|Nl]; [by apply Known|].
      rewrite Other by done. apply I6; [done| |done]. apply Em in P. by destruct P.
    - intros i e E A P. destruct (decide (i = loc_id l)) as [->|Nl].
      + rewrite (Idle e E) in A. done.
      + rewrite Other in E by done. apply Em in P as [?|P]; [done|]. by apply (I7 i e E A).
    - intros C i p E Ni P. assert (i <> loc_id l) as Nl by (intros ->; apply P, Em; by left).
      rewrite lookup_alter_ne in E by done. unfold on_stale. cbn. rewrite Other by done.
      apply (I8 C i p); [done|done|]. intros X. apply P, Em. by right. }
  eexists. split; [|apply inv_emit, I1].
  subst s1 st. unfold advertise, update_stale. monad_unfold. cbn.
  destruct (stale s !! loc_id l); [done|]. by destruct (cleaning s).
Qed.

Lemma connect_inv i s : inv s -> i ∉ peers s -> is_Some (stale s !! i) ->
  exists s', connect i s = (Ok tt, s') /\ inv s' /\ on_stale i s' slot /\ infos s' = infos s.
Proof.
  intros I P [e E]. unfold connect. rewrite bind_read, E. eexists. split; [reflexivity|].
  split; [|split; [|done]].
  - eapply inv_same; [apply (inv_arm i (fun e => mkStale (stale_endpoints e) true (retry_timer e)
      (retry_counter e + 1) (evict_timer e)) s I P); done|done..|].
    cbn. apply map_eq. intros j. destruct (decide (j = i)) as [->|N].
    + by rewrite lookup_insert_eq, lookup_alter_eq, E.
    + by rewrite lookup_insert_ne, lookup_alter_ne.
  - exists (mkStale (stale_endpoints e) true (retry_timer e) (retry_counter e + 1) (evict_timer e)).
    split; [|done]. cbn. by rewrite lookup_insert_eq.
Qed.

(** Forgetting what a node waits for: it is then reached again, or dropped. *)
Definition inv_but (i : Addr) (s : t) : Prop :=
  inv (set_infos (delete i (infos s)) s).

Lemma inv_but_done i s : inv_but i s -> (forall p, infos s !! i = Some p -> id p = i /\ (is_Some (storing p) -> i ∈ peers s)) ->
  (cleaning s = false -> i <> self s -> i ∉ peers s -> is_Some (infos s !! i) -> on_stale i s retried) -> inv s.
Proof.
  intros [I1 I2 I3 I4 I5 I6 I7 I8] P W. cbn in *. split; try done.
  - intros j p E. destruct (decide (j = i)) as [->|N]; [by apply P|].
    apply I4. by rewrite lookup_delete_ne.
  - intros j p E. destruct (decide (j = i)) as [->|N]; [by apply P|].
    apply (I5 j p). by rewrite lookup_delete_ne.
  - intros C j p E Ns Np. destruct (decide (j = i)) as [->|N]; [by eapply W|].
    apply (I8 C j p); [by rewrite lookup_delete_ne|done|done].
Qed.

Lemma inv_weaken i s : inv s -> inv_but i s.
Proof.
  intros [I1 I2 I3 I4 I5 I6 I7 I8]. unfold inv_but.
  assert (forall j p, delete i (infos s) !! j = Some p -> infos s !! j = Some p) as D.
  { intros j p E. by apply lookup_delete_Some in E as [? ?]. }
  split; cbn; eauto.
Qed.

Lemma inv_but_update i f s : inv_but i s -> i ∉ peers s -> inv_but i (set_stale (alter f i (stale s)) s).
Proof.
  intros [I1 I2 I3 I4 I5 I6 I7 I8] Np. unfold inv_but in *. cbn in *. split; cbn; try done.
  - intros C j P Ns. rewrite lookup_alter_ne by (intros ->; done). by apply I6.
  - intros j e E A. destruct (decide (j = i)) as [->|N]; [done|].
    rewrite lookup_alter_ne in E by done. by apply (I7 j e).
  - intros C j p Ep Ns P. pose proof Ep as Ep'. apply lookup_delete_Some in Ep' as [N E].
    unfold on_stale. cbn. rewrite lookup_alter_ne by done. by apply (I8 C j p).
Qed.

Lemma connect_but i s : inv_but i s -> i ∉ peers s -> is_Some (stale s !! i) ->
  (forall p, infos s !! i = Some p -> id p = i /\ (is_Some (storing p) -> i ∈ peers s)) ->
  exists s', connect i s = (Ok tt, s') /\ inv s'.
Proof.
  intros B Np K P. destruct (connect_inv i _ B) as (s2 & E2 & I2 & Sl & Ei); [done..|].
  destruct K as [e E]. unfold connect in *. rewrite bind_read in *. cbn in E2. rewrite E in *.
  injection E2 as <-. eexists. split; [reflexivity|].
  apply (inv_but_done i); [exact I2|done|].
  intros _ _ _ _. destruct Sl as (e' & Ee & Se). exists e'. split; [done|]. unfold retried. by rewrite Se.
Qed.

Lemma attempt_failed_inv i s : inv s -> on_stale i s slot ->
  exists s', (forget_slot i;; failed i) s = (Ok tt, s') /\ inv s'.
Proof.
  intros I (e & E & Sl). assert (i ∉ peers s) as Np.
  { apply (inv_idle _ I i e E). unfold active, retried. by rewrite Sl. }
  eexists. split; [reflexivity|]. cbn.
  eapply (inv_same (set_stale (alter (fun e => mkStale (stale_endpoints e) false
    (Some (Z.shiftl 1 (Z.min 10 (retry_counter e)) * LamportAge.second)) (retry_counter e)
    (evict_timer e)) i (stale s)) s)); [apply inv_arm; [done..|]|done..|].
  - intros e' _. done.
  - cbn. by rewrite alter_alter_eq.
Qed.

Lemma retry_inv i s : inv s -> on_stale i s (fun e => is_set (retry_timer e)) ->
  exists s', (forget_retry i;; connect i) s = (Ok tt, s') /\ inv s'.
Proof.
  intros I (e & E & R). assert (i ∉ peers s) as Np.
  { apply (inv_idle _ I i e E). unfold active, retried. by rewrite R, orb_true_r. }
  set (f := fun e => mkStale (stale_endpoints e) (slot e) None (retry_counter e) (evict_timer e)).
  set (s1 := set_stale (alter f i (stale s)) s).
  assert (inv_but i s1) as B by (by apply inv_but_update, Np; apply inv_weaken).
  rewrite (bind_Ok (forget_retry i) _ s tt s1 eq_refl).
  apply connect_but; [done|done|subst s1; cbn; rewrite lookup_alter_eq, E; by eexists|].
  intros p Ep. cbn. split; [by apply (inv_ids _ I)|by apply (inv_storing _ I i p)].
Qed.

Lemma evict_inv i s : inv s -> on_stale i s (fun e => is_set (evict_timer e)) ->
  exists s', (forget_evict i;; peer_evicted i) s = (Ok tt, s') /\ inv s'.
Proof.
  intros I (e & E & R). assert (i ∉ peers s) as Np.
  { apply (inv_idle _ I i e E). unfold active. by rewrite R, orb_true_r. }
  set (f := fun e => mkStale (stale_endpoints e) (slot e) (retry_timer e) (retry_counter e) None).
  set (s1 := set_stale (alter f i (stale s)) s).
  rewrite (bind_Ok (forget_evict i) _ s tt s1 eq_refl).
  assert (inv_but i s1) as [I1 I2 I3 I4 I5 I6 I7 I8]
    by (by apply inv_but_update, Np; apply inv_weaken).
  unfold peer_evicted. rewrite bind_read. unfold discovered. rewrite bool_decide_eq_false_2 by done.
  eexists. split; [reflexivity|]. cbn in *. split; cbn; try done.
  - intros j b. unfold erase_node. rewrite elem_of_filter. intros [_ X]. by eapply I3.
  - intros C j P N. rewrite lookup_delete_ne by (intros ->; done). by apply I6.
  - intros j e' Ee A. apply lookup_delete_Some in Ee as [? Ee]. by apply (I7 j e').
  - intros C j p Ep Ns P. pose proof Ep as Ep'. apply lookup_delete_Some in Ep' as [N _].
    unfold on_stale. cbn. rewrite lookup_delete_ne by done. by apply (I8 C j p).
Qed.

Lemma disconnected_inv now garbage i s : inv s -> i ∈ peers s -> i <> self s ->
  exists s', peer_disconnected now garbage i s = (Ok tt, s') /\ inv s'.
Proof.
  intros I Pi Ns.
  set (f := fun p => set_info_storing None (set_disappearance (LamportAge.start now) p)).
  set (s1 := emit_on UpdateReachable (set_book (erase_node i (address_book s))
               (set_peers (filter (fun j => j <> i) (peers s))
                  (set_infos (alter f i (infos s)) s)))).
  assert (i ∉ peers s1) as Np by (cbn; rewrite list_elem_of_filter; naive_solver).
  assert (inv_but i s1) as B.
  { destruct I as [I1 I2 I3 I4 I5 I6 I7 I8].
    assert (forall j p, delete i (alter f i (infos s)) !! j = Some p -> j <> i /\ infos s !! j = Some p) as D.
    { intros j p E. apply lookup_delete_Some in E as [N E]. by rewrite lookup_alter_ne in E. }
    unfold inv_but, s1. split; cbn.
    - by apply NoDup_filter.
    - intros L. apply list_elem_of_filter. split; [done|by apply I2].
    - intros j b. unfold erase_node. rewrite elem_of_filter, list_elem_of_filter. intros [N E].
      split; [done|by eapply I3].
    - intros j p [N E]%D. by apply I4.
    - intros j p [N E]%D Sp. apply list_elem_of_filter. split; [done|by apply (I5 j p)].
    - intros C j [N P]%list_elem_of_filter. by apply I6.
    - intros j e E A [_ P]%list_elem_of_filter. by apply (I7 j e E A).
    - intros C j p [N E]%D Nj P. apply (I8 C j p E Nj). intros X. apply P.
      by apply list_elem_of_filter. }
  assert (forall p, infos s1 !! i = Some p -> id p = i /\ (is_Some (storing p) -> i ∈ peers s1)) as Ip.
  { cbn. rewrite lookup_alter_eq. intros p. destruct (infos s !! i) as [q|] eqn:E; [|done].
    intros [= <-]. cbn. split; [by apply (inv_ids _ I)|by intros []]. }
  assert (exists s', (s ← Prelude.read;
      when (negb (cleaning s)) (enforce (stale s !! i);; reconnect now garbage i)) s1 = (Ok tt, s')
      /\ inv s') as (s' & E & I').
  { rewrite bind_read. change (cleaning s1) with (cleaning s). destruct (cleaning s) eqn:C; cbn [negb when].
    - eexists. split; [reflexivity|]. apply (inv_but_done i); [done|done|].
      change (cleaning s1) with (cleaning s). congruence.
    - destruct (inv_known _ I C i Pi Ns) as [e E]. change (stale s1) with (stale s). rewrite E.
      unfold reconnect, enforce. rewrite bind_ret_l, bind_read.
      lazymatch goal with |- exists s', mbind ?k (update_stale i ?g) s1 = _ /\ _ =>
        rewrite (bind_Ok (update_stale i g) k s1 tt _ (update_stale_eq i g s1));
        apply connect_but; [by apply inv_but_update|done|cbn; rewrite lookup_alter_eq, E; by eexists|done]
      end. }
  exists (emit_on (OnDisappearance i) s'). split; [|by apply inv_emit].
  unfold peer_disconnected.
  transitivity ((((s ← Prelude.read;
      when (negb (cleaning s)) (enforce (stale s !! i);; reconnect now garbage i)));;
      emit (OnDisappearance i)) s1).
  - rewrite bind_assoc. reflexivity.
  - by rewrite (bind_Ok _ _ _ _ _ E).
Qed.

Lemma discover_locations_inv l : forall s, inv s ->
  exists s', discover_locations l s = (Ok tt, s') /\ inv s'.
Proof.
  induction l as [|p l IH]; intros s I; cbn [discover_locations]; [by exists s|].
  rewrite bind_read.
  set (s1 := if discovered (loc_id p) s then s else emit_on (Connect p) s).
  set (s2 := if bool_decide (loc_id p = null_addr) then s1
             else set_stale (remembered p (stale s1)) s1).
  assert (inv s2) as I2.
  { assert (inv s1) as I1 by (subst s1; destruct (discovered _ _); [done|by apply inv_emit]).
    subst s2. destruct (bool_decide _); [done|by apply inv_remember]. }
  destruct (IH s2 I2) as (s' & E & I'). exists s'. split; [|done]. rewrite <- E.
  subst s2 s1. monad_unfold. destruct (discovered _ _), (bool_decide _); done.
Qed.

Lemma happen_inv s e : inv s -> enabled s e -> exists s', happen e s = (Ok tt, s') /\ inv s'.
Proof.
  intros I En. destruct e; cbn [enabled happen] in *.
  - eexists. split; [reflexivity|]. apply inv_emit. eapply inv_same;
      [apply (inv_book_at s ({[(self s, b)]} ∪ address_book s) I)|done..].
    intros i b'. rewrite elem_of_union, elem_of_singleton. intros [[= -> _]|E].
    + by apply (inv_self _ I).
    + by eapply inv_book.
  - destruct En as [L E]. unfold on_remove. rewrite bind_read, decide_True by done.
    eexists. split; [reflexivity|]. apply inv_emit. eapply inv_same;
      [apply (inv_book_at s (address_book s ∖ {[(self s, b)]}) I)|done..].
    intros i b'. rewrite elem_of_difference. intros [E' _]. by eapply inv_book.
  - eexists. split; [reflexivity|]. apply inv_emit. by eapply inv_same.
  - destruct En. by apply peer_connected_inv.
  - destruct En as (P & Ns & Own & Nm). unfold advertised.
    destruct (discover_infos_inv (received now <$> l) s I) as (s1 & E1 & I1 & K & D); [by apply received_ok|].
    rewrite (bind_Ok _ _ _ _ _ E1). destruct K as (Es & _ & _ & Ep & _).
    destruct (configure_inv i b s1 I1) as (s2 & E2 & I2).
    + by rewrite Ep.
    + apply list_elem_of_fmap in Own as (w & -> & W).
      assert (wire_id w = id (received now w)) as Ew by (by destruct w as [[[? ?] ?] ?]).
      rewrite Ew. apply D; [|congruence]. by apply list_elem_of_fmap_2.
    + rewrite (bind_Ok _ _ _ _ _ E2). eexists. split; [reflexivity|]. by apply inv_emit.
  - eexists. split; [reflexivity|]. by apply inv_emit.
  - unfold fetched. destruct (add_entries_inv (loc_id l) blocks s I En) as (s1 & E1 & I1).
    rewrite (bind_Ok _ _ _ _ _ E1). eexists. split; [reflexivity|]. by apply inv_emit.
  - destruct En. by apply disconnected_inv.
  - by apply attempt_failed_inv.
  - by apply retry_inv.
  - by apply evict_inv.
  - eexists. split; [reflexivity|]. apply inv_emit, inv_book_at; [done|].
    by apply change_book.
  - destruct En. by apply configure_inv.
  - destruct (discover_infos_inv (received now <$> l) s I) as (s1 & E1 & I1 & _); [by apply received_ok|].
    by exists s1.
  - destruct En as [_ Nm].
    destruct (discover_infos_inv (received now <$> l) s I) as (s1 & E1 & I1 & _); [by apply received_ok|].
    exists s1. split; [|done]. unfold serve_advertise. rewrite bind_assoc.
    by rewrite (bind_Ok _ _ _ _ _ E1).
  - unfold overlay_discover. rewrite bind_read. by apply discover_locations_inv.
  - unfold set_overlay_storing. rewrite bind_read. destruct (Bool.eqb _ _); [by exists s|].
    cbn [negb when]. unfold store_. monad_unfold. cbn. rewrite En.
    eexists. split; [reflexivity|]. apply inv_emit. by eapply inv_same.
  - eexists. split; [reflexivity|]. destruct I as [I1 I2 I3 I4 I5 I6 I7 I8]. by split.
Qed.

Lemma create_inv i v delay : inv (create i v delay).
Proof. split; cbn; try done; try set_solver. constructor. Qed.

Lemma register_inv now e blocks i v delay : inv (register_local now e blocks (create i v delay)).
Proof.
  apply inv_emit. split; cbn.
  - apply NoDup_singleton.
  - intros _. by apply list_elem_of_singleton.
  - intros j b. rewrite elem_of_union, elem_of_list_to_set, list_elem_of_fmap.
    intros [(? & [= -> _] & _)|E]; [by apply list_elem_of_singleton|set_solver].
  - rewrite lookup_empty. intros j p E. apply lookup_insert_Some in E as [[<- <-]|[_ E]]; [done|].
    by rewrite lookup_empty in E.
  - rewrite lookup_empty. intros j p E _. apply list_elem_of_singleton.
    apply lookup_insert_Some in E as [[<- <-]|[_ E]]; [done|]. by rewrite lookup_empty in E.
  - intros _ j P%list_elem_of_singleton. done.
  - intros j x E. by rewrite lookup_empty in E.
  - rewrite lookup_empty. intros _ j p E Ns. apply lookup_insert_Some in E as [[<- _]|[_ E]]; [done|].
    by rewrite lookup_empty in E.
Qed.

Lemma reachable_inv s : reachable s -> inv s.
Proof.
  induction 1 as [i v delay|i v delay now e blocks|s e s' R I En E].
  - apply create_inv.
  - apply register_inv.
  - destruct (happen_inv s e I En) as (s1 & E1 & I1). congruence.
Qed.

(** ** What surrounds a node *)

(** The nodes it is told about. *)
Definition hears (e : event) : list Addr :=
  match e with
  | Advertised _ _ l _ | Heard _ l | Asked _ l => wire_id <$> l
  | _ => []
  end.

(** The connections and the blocks an event makes and ends. *)
Definition joins (e : event) (j : Addr) (was : Prop) : Prop :=
  match e with
  | Connected l => j = loc_id l \/ was
  | Disconnected _ _ i => j <> i /\ was
  | _ => was
  end.
Definition stores (e : event) (b : Addr) (was : Prop) : Prop :=
  match e with
  | Store b' => b = b' \/ was
  | Remove b' => b <> b' /\ was
  | _ => was
  end.

(** What a node believes of whether another stores. *)
Definition storing_of (s : t) (j : Addr) : option bool := infos s !! j ≫= storing.
Definition says_of (e : event) (j : Addr) (known : bool) (was : option bool) : option bool :=
  match e with
  | Connected l => if decide (j = loc_id l) then if known then Some true else None else was
  | Advertised _ i _ b => if decide (j = i) then Some b else was
  | Configured r b => if decide (j = r) then Some b else was
  | Disconnected _ _ i | EvictFires i => if decide (j = i) then None else was
  | _ => was
  end.

(** What an event does, seen from outside: to the nodes that are connected, to the
    blocks of the node, and to the nodes it heard of. *)
Record effect (e : event) (s s' : t) : Prop := {
  ef_self : self s' = self s;
  ef_version : dn_version s' = dn_version s;
  ef_local : has_local s' = has_local s;
  ef_peers j : j ∈ peers s' <-> joins e j (j ∈ peers s);
  ef_book b : (self s, b) ∈ address_book s' <-> stores e b ((self s, b) ∈ address_book s);
  ef_infos j : is_Some (infos s !! j) -> e <> EvictFires j -> is_Some (infos s' !! j);
  ef_hears j : j ∈ hears e -> j <> self s -> is_Some (infos s' !! j);
  ef_storing j : storing_of s' j = says_of e j (is_set (infos s !! j)) (storing_of s j)
}.

Definition plain (e : event) : bool :=
  match e with Connected _ | Disconnected _ _ _ | Store _ | Remove _ => false | _ => true end.

Lemma effect_keeps e s s' : keeps s s' -> plain e = true ->
  (forall j, j ∈ hears e -> j <> self s -> is_Some (infos s' !! j)) ->
  (forall j, storing_of s' j = says_of e j (is_set (infos s !! j)) (storing_of s j)) -> effect e s s'.
Proof.
  intros (A1&A2&A3&A4&A5&A6&A7&A8&A9) P H St.
  split; try done; rewrite ?A4, ?A5; auto; intros ?; by destruct e.
Qed.

Lemma keeps_emit a s s' : keeps s s' -> keeps s (emit_on a s').
Proof. done. Qed.

Lemma discover_locations_keeps l : forall s,
  exists s', discover_locations l s = (Ok tt, s') /\ keeps s s' /\ infos s' = infos s.
Proof.
  induction l as [|p l IH]; intros s; cbn [discover_locations].
  { exists s. split; [done|]. split; [apply keeps_refl|done]. }
  rewrite bind_read.
  set (s1 := if discovered (loc_id p) s then s else emit_on (Connect p) s).
  set (s2 := if bool_decide (loc_id p = null_addr) then s1
             else set_stale (remembered p (stale s1)) s1).
  assert (keeps s s2 /\ infos s2 = infos s) as [K2 E2].
  { subst s2 s1. destruct (discovered _ _), (bool_decide _); by split_and!. }
  destruct (IH s2) as (s' & E & K & Ei). exists s'. split; [|split; [by eapply keeps_trans|congruence]].
  rewrite <- E. subst s2 s1. monad_unfold. destruct (discovered _ _), (bool_decide _); done.
Qed.

(** Hearing of nodes says nothing of whether they store. *)
Lemma discover_info_storing p s s' : id p <> null_addr -> storing p = None ->
  discover_info p s = (Ok tt, s') -> forall j, storing_of s' j = storing_of s j.
Proof.
  intros N Sp E. pose proof (discover_info_eq p s N) as Eq.
  destruct (match infos s !! id p with Some q => merge q p | None => (true, p) end)
    as [changed q] eqn:Em.
  assert (storing q = storing_of s (id p)) as Sq.
  { unfold storing_of. destruct (infos s !! id p) as [q0|]; cbn.
    - pose proof (merge_spec q0 p) as M. rewrite Em in M. by destruct M as (_ & -> & _).
    - injection Em as _ <-. done. }
  assert (infos s' = <[id p := q]> (infos s)) as Ei.
  { rewrite E in Eq. injection Eq as ->.
    by destruct changed, (has_local s), (negb (discovered (id p) s)). }
  intros j. unfold storing_of. rewrite Ei. destruct (decide (j = id p)) as [->|Nj].
  - rewrite lookup_insert_eq. exact Sq.
  - by rewrite lookup_insert_ne.
Qed.

Lemma discover_infos_storing l : forall s s', inv s ->
  Forall (fun p => id p <> null_addr /\ storing p = None) l ->
  discover_infos l s = (Ok tt, s') -> forall j, storing_of s' j = storing_of s j.
Proof.
  induction l as [|p l IH]; intros s s' I F E j; cbn [discover_infos] in E; [by injection E as <-|].
  apply Forall_cons in F as [[N Sp] F]. rewrite bind_read in E.
  destruct (bool_decide (id p = self s)) eqn:B; to_prop; cbn [negb when] in E; [by apply (IH s s')|].
  destruct (discover_info_inv p s I N B Sp) as (s1 & E1 & I1 & _).
  rewrite (bind_Ok _ _ _ _ _ E1) in E. rewrite (IH s1 s' I1 F E).
  by apply (discover_info_storing p).
Qed.

Lemma told_effect e l now s s' : inv s -> named l -> hears e = wire_id <$> l -> plain e = true ->
  (forall j k was, says_of e j k was = was) ->
  discover_infos (received now <$> l) s = (Ok tt, s') -> effect e s s'.
Proof.
  intros I Nm Eh N1 Sy E1.
  pose proof (discover_infos_storing _ _ _ I (received_ok now l Nm) E1) as St.
  destruct (discover_infos_inv (received now <$> l) s I) as (s2 & E2 & I2 & K & D); [by apply received_ok|].
  rewrite E1 in E2. injection E2 as <-.
  apply effect_keeps; [done|done| |intros j; by rewrite Sy]. rewrite Eh.
  intros j (w & -> & W)%list_elem_of_fmap Nj.
  assert (wire_id w = id (received now w)) as Ew by (by destruct w as [[[? ?] ?] ?]).
  rewrite Ew. apply D; [|congruence]. by apply list_elem_of_fmap_2.
Qed.

Lemma configure_keeps r b s s' : configure r b s = (Ok tt, s') -> keeps s s'.
Proof.
  unfold configure. rewrite bind_read. destruct (infos s !! r) as [p|] eqn:E; [|done].
  intros [= <-]. split_and!; try done. intros j [q Q]. cbn. destruct (decide (j = r)) as [->|N].
  - by rewrite lookup_insert_eq.
  - by rewrite lookup_insert_ne.
Qed.


Lemma configure_storing r b s s' : configure r b s = (Ok tt, s') ->
  forall j, storing_of s' j = if decide (j = r) then Some b else storing_of s j.
Proof.
  unfold configure. rewrite bind_read. destruct (infos s !! r) as [p|] eqn:E; [|done].
  intros [= <-] j. unfold storing_of. cbn. destruct (decide (j = r)) as [->|N].
  - by rewrite lookup_insert_eq.
  - by rewrite lookup_insert_ne.
Qed.

Ltac hears_none := let X := fresh in intros ? X; cbn in X; by apply not_elem_of_nil in X.
Ltac plain_effect := split; cbn; try done; hears_none.

Lemma connected_effect l s s' : loc_id l <> null_addr -> peer_connected l s = (Ok tt, s') ->
  effect (Connected l) s s'.
Proof.
  intros N E. unfold peer_connected in E. rewrite decide_False in E by done.
  assert (forall j, j ∈ emplace_peer (loc_id l) (peers s) <-> j = loc_id l \/ j ∈ peers s) as Em.
  { intros j. unfold emplace_peer. destruct (decide _); set_solver. }
  set (st := match stale s !! loc_id l with
             | Some e => alter clear (loc_id l) (stale s)
             | None => if cleaning s then stale s
                       else <[loc_id l := new_stale (loc_endpoints l)]> (stale s)
             end).
  assert (exists o, s' = emit_on o (set_infos (alter (set_info_storing (Some true)) (loc_id l) (infos s))
            (set_stale st (set_peers (emplace_peer (loc_id l) (peers s)) s)))) as [o ->].
  { subst st. revert E. unfold advertise, update_stale. monad_unfold. cbn.
    destruct (stale s !! loc_id l); [intros [= <-]; by eexists|].
    destruct (cleaning s); intros [= <-]; by eexists. }
  split; cbn; try done.
  - intros j [p P] _. destruct (decide (j = loc_id l)) as [->|Nj].
    + rewrite lookup_alter_eq, P. by eexists.
    + rewrite lookup_alter_ne by done. by eexists.
  - hears_none.
  - intros j. unfold storing_of. cbn. destruct (decide (j = loc_id l)) as [->|N'].
    + rewrite lookup_alter_eq. by destruct (infos s !! loc_id l).
    + by rewrite lookup_alter_ne.
Qed.

Lemma connect_keeps i s s' : connect i s = (Ok tt, s') -> keeps s s' /\ infos s' = infos s.
Proof.
  unfold connect. rewrite bind_read. destruct (stale s !! i); [|done]. monad_unfold.
  intros [= <-]. by split_and!.
Qed.

Lemma disconnected_effect now garbage i s s' : i <> self s ->
  peer_disconnected now garbage i s = (Ok tt, s') -> effect (Disconnected now garbage i) s s'.
Proof.
  intros Ns E. unfold peer_disconnected in E.
  set (f := fun p => set_info_storing None (set_disappearance (LamportAge.start now) p)) in E.
  set (s1 := emit_on UpdateReachable (set_book (erase_node i (address_book s))
               (set_peers (filter (fun j => j <> i) (peers s))
                  (set_infos (alter f i (infos s)) s)))).
  assert (keeps s1 s' /\ infos s' = infos s1) as [K Ei].
  { change ((s ← Prelude.read; when (negb (cleaning s)) (enforce (stale s !! i);; reconnect now garbage i);;
      emit (OnDisappearance i)) s1 = (Ok tt, s')) in E.
    rewrite bind_read in E. apply bind_Ok_inv in E as ([] & s2 & E & O). injection O as <-.
    enough (keeps s1 s2 /\ infos s2 = infos s1) as [K2 E2].
    { split; [|done]. eapply keeps_trans; [exact K2|by split_and!]. }
    destruct (negb (cleaning s1)); cbn [when] in E; [|injection E as <-; split; [apply keeps_refl|done]].
    apply bind_Ok_inv in E as (e & w & En & Re).
    destruct (stale s1 !! i); [|done]. injection En as _ <-.
    unfold reconnect in Re. rewrite bind_read in Re.
    apply bind_Ok_inv in Re as (z & y & Up & Re).
    rewrite update_stale_eq in Up. injection Up as _ <-.
    apply connect_keeps in Re as [Re Ei]. split; [|by rewrite Ei].
    eapply keeps_trans; [|exact Re]. by split_and!. }
  destruct K as (A1&A2&A3&A4&A5&A6&A7&A8&A9).
  split; rewrite ?A4, ?A5; try done.
  - intros j. cbn. by rewrite list_elem_of_filter.
  - intros b. cbn. unfold erase_node. rewrite elem_of_filter. cbn. naive_solver.
  - intros j [p P] _. apply A9. cbn. destruct (decide (j = i)) as [->|Nj].
    + rewrite lookup_alter_eq, P. by eexists.
    + rewrite lookup_alter_ne by done. by eexists.
  - hears_none.
  - intros j. unfold storing_of. rewrite Ei. cbn. destruct (decide (j = i)) as [->|N'].
    + rewrite lookup_alter_eq. by destruct (infos s !! i).
    + by rewrite lookup_alter_ne.
Qed.

Lemma evicted_effect i s s' : inv s -> enabled s (EvictFires i) ->
  happen (EvictFires i) s = (Ok tt, s') -> effect (EvictFires i) s s'.
Proof.
  intros I (e & E & R) H. assert (i ∉ peers s) as Np.
  { apply (inv_idle _ I i e E). unfold active. by rewrite R, orb_true_r. }
  cbn [happen] in H. unfold peer_evicted, forget_evict in H. revert H. monad_unfold. cbn.
  unfold discovered. cbn. rewrite bool_decide_eq_false_2 by done. intros [= <-].
  split; cbn; try done.
  - intros b. unfold erase_node. rewrite elem_of_filter. cbn. split; [by intros []|].
    intros B. split; [|done]. intros <-. by apply Np, (inv_book _ I _ b).
  - intros j J N. rewrite lookup_delete_ne; [done|congruence].
  - hears_none.
  - intros j. unfold storing_of. cbn. destruct (decide (j = i)) as [->|N'].
    + by rewrite lookup_delete_eq.
    + by rewrite lookup_delete_ne.
Qed.

Lemma change_others r m i b book : i <> r ->
  (i, b) ∈ map_fold (change r) book m <-> (i, b) ∈ book.
Proof.
  intros N. apply (map_fold_weak_ind (fun x _ => (i, b) ∈ x <-> (i, b) ∈ book)); [done|].
  intros a [] m' x _ <-; cbn; [rewrite elem_of_union, elem_of_singleton|]; set_solver.
Qed.

Lemma happen_effect e s s' : inv s -> enabled s e -> happen e s = (Ok tt, s') ->
  (forall r m, e = Changed r m -> r <> self s) -> (forall l b, e = Fetched l b -> loc_id l <> self s) ->
  effect e s s'.
Proof.
  intros I En E Nc Nf.
  destruct e as [b|b| |l|now i l b|i|l bs|now g i|i|i|i|r m|r b|now l|now l|l|b|].
  8: { destruct En. by eapply disconnected_effect. }
  10: { by eapply evicted_effect. }
  all: cbn [enabled happen] in *.
  - injection E as <-. split; cbn; try done; [set_solver|hears_none].
  - destruct En as [L B]. unfold on_remove in E. rewrite bind_read, decide_True in E by done.
    injection E as <-. split; cbn; try done; [set_solver|hears_none].
  - injection E as <-. plain_effect.
  - destruct En. by eapply connected_effect.
  - destruct En as (P & Ns & Own & Nm). unfold advertised in E.
    apply bind_Ok_inv in E as ([] & s1 & E1 & E).
    apply bind_Ok_inv in E as ([] & s2 & E2 & E). injection E as <-.
    pose proof (configure_storing _ _ _ _ E2) as St. apply configure_keeps in E2.
    eapply (told_effect (Heard now l)) in E1; [|done..].
    destruct E1 as [F1 F0 F2 F3 F4 F5 F6 F7]. destruct E2 as (A1&A2&A3&A4&A5&A6&A7&A8&A9).
    split; cbn; rewrite ?A4, ?A5; try done; [congruence..|by auto|by auto|].
    intros j. change (storing_of (emit_on (FetchEntries i) s2) j) with (storing_of s2 j).
    rewrite St. destruct (decide (j = i)); [done|]. apply (F7 j).
  - injection E as <-. plain_effect.
  - specialize (Nf l bs eq_refl). injection E as <-. split; cbn; try done; [|hears_none].
    intros b. rewrite elem_of_union, elem_of_map. naive_solver.
  - injection E as <-. plain_effect.
  - apply bind_Ok_inv in E as ([] & s1 & E1 & E). injection E1 as <-.
    apply connect_keeps in E as [E Ei]. apply effect_keeps; [|done|hears_none|].
    + eapply keeps_trans; [|exact E]. by split_and!.
    + intros j. unfold storing_of. by rewrite Ei.
  - specialize (Nc r m eq_refl). injection E as <-. split; cbn; try done; [|hears_none].
    intros b. by apply change_others.
  - pose proof (configure_storing _ _ _ _ E). apply configure_keeps in E.
    by apply effect_keeps; [..|hears_none|].
  - by eapply told_effect.
  - destruct En. apply bind_Ok_inv in E as (x & s1 & E1 & E). injection E as <-.
    unfold serve_advertise in E1. apply bind_Ok_inv in E1 as ([] & s2 & E1 & E). injection E as _ <-.
    by eapply told_effect.
  - unfold overlay_discover in E. rewrite bind_read in E.
    destruct (discover_locations_keeps (filter (fun p => loc_id p <> self s) l) s) as (s1 & E1 & K & Ei).
    rewrite E in E1. injection E1 as <-. apply effect_keeps; [done|done|hears_none|].
    intros j. unfold storing_of. by rewrite Ei.
  - unfold set_overlay_storing in E. rewrite bind_read in E.
    destruct (Bool.eqb _ _); cbn [negb when] in E; [injection E as <-; plain_effect|].
    unfold store_ in E. revert E. monad_unfold. cbn. rewrite En. intros [= <-]. plain_effect.
  - injection E as <-. plain_effect.
Qed.

(** A node, and what there is around it: the nodes it has a connection to, the
    blocks its own storage keeps, the nodes named to it since it last dropped
    them, and what those it is connected to said of whether they store. *)
Record world := mkWorld {
  node : t;
  links : gset Addr;
  kept : gset Addr;
  named_to : gset Addr;
  says : gmap Addr bool
}.
Definition new_client (i : Addr) (v : Version.t) (delay : option Z) : world :=
  mkWorld (create i v delay) ∅ ∅ ∅ ∅.
Definition new_server (now : Z) (e : Endpoints.t) (blocks : list Addr) (i : Addr) (v : Version.t)
    (delay : option Z) : world :=
  mkWorld (register_local now e blocks (create i v delay)) ∅ (list_to_set blocks) ∅ ∅.
Definition after (e : event) (w : world) : world :=
  mkWorld (happen e (node w)).2
    (match e with
     | Connected l => {[loc_id l]} ∪ links w
     | Disconnected _ _ i => links w ∖ {[i]}
     | _ => links w
     end)
    (match e with
     | Store b => {[b]} ∪ kept w
     | Remove b => kept w ∖ {[b]}
     | _ => kept w
     end)
    (match e with
     | EvictFires i => named_to w ∖ {[i]}
     | _ => list_to_set (hears e) ∪ named_to w
     end)
    (match e with
     | Connected l => delete (loc_id l) (says w)
     | Disconnected _ _ i => delete i (says w)
     | Advertised _ i _ b => <[i := b]> (says w)
     | Configured r b => <[r := b]> (says w)
     | _ => says w
     end).

(** What can happen, by what is around: calls, answers and ends are those of
    connections; a peer answers an advertisement with itself among others, and
    tells whether it stores once it was named; the storage removes blocks it
    has. *)
Definition possible (w : world) (e : event) : Prop :=
  match e with
  | Store _ => has_local (node w) = true
  | Remove b => b ∈ kept w
  | Broadcast => has_local (node w) = true /\ new_entries (node w) <> []
  | Connected l => loc_id l <> null_addr /\ loc_id l <> self (node w)
  | Advertised _ i l _ => i ∈ links w /\ i ∈ (wire_id <$> l) /\ named l
  | AdvertiseFailed i => i ∈ links w
  | Fetched l _ => loc_id l ∈ links w
  | Disconnected _ _ i => i ∈ links w
  | AttemptFailed i => on_stale i (node w) slot
  | RetryFires i => on_stale i (node w) (fun e => is_set (retry_timer e))
  | EvictFires i => on_stale i (node w) (fun e => is_set (evict_timer e))
  | Changed r _ => r ∈ links w
  | Configured r _ => r ∈ links w /\ r ∈ named_to w
  | Heard _ l => named l
  | Asked _ l => has_local (node w) = true /\ named l
  | Located _ => True
  | Storing _ => has_local (node w) = true
  | Cleanup => True
  end.

(** The lives of a node, whatever its operations return. *)
Inductive lives : world -> Prop :=
  | lives_client i v delay : Version.geb v (Version.make 0 8 0) = true ->
      lives (new_client i v delay)
  | lives_server now e blocks i v delay : Version.geb v (Version.make 0 8 0) = true ->
      lives (new_server now e blocks i v delay)
  | lives_on w e : lives w -> possible w e -> lives (after e w).

(** The node agrees with what is around it. *)
Record agrees (w : world) : Prop := {
  ag_reach : reachable (node w);
  ag_version : since_0_8 (node w) = true;
  ag_self : self (node w) ∉ links w;
  ag_peers j : j ∈ peers (node w) <-> j ∈ links w \/ (has_local (node w) = true /\ j = self (node w));
  ag_book b : (self (node w), b) ∈ address_book (node w) <-> b ∈ kept w;
  ag_kept b : b ∈ kept w -> has_local (node w) = true;
  ag_named j : j ∈ named_to w -> j <> self (node w) -> is_Some (infos (node w) !! j);
  ag_says j b : says w !! j = Some b -> j ∈ links w /\ storing_of (node w) j = Some b;
  ag_silent j : j ∈ links w -> says w !! j = None -> storing_of (node w) j <> Some false
}.

Lemma possible_enabled w e : agrees w -> possible w e -> enabled (node w) e.
Proof.
  intros A P.
  assert (forall i, i ∈ links w -> i ∈ peers (node w) /\ i <> self (node w)) as L.
  { intros i H. split; [apply (ag_peers _ A); by left|]. intros ->. by apply (ag_self _ A). }
  destruct e; cbn [possible enabled] in *; try done.
  - split; [by eapply ag_kept|]. by apply (ag_book _ A).
  - destruct P as (P & O & N). apply L in P as []. by split_and!.
  - by apply L.
  - by apply L.
  - by apply L.
  - by apply L.
  - destruct P as [P N]. apply L in P as []. split; [done|]. by apply (ag_named _ A).
Qed.

Lemma agrees_client i v delay : Version.geb v (Version.make 0 8 0) = true -> agrees (new_client i v delay).
Proof.
  intros V. split; cbn; try set_solver; by constructor.
Qed.

Lemma agrees_server now e blocks i v delay : Version.geb v (Version.make 0 8 0) = true ->
  agrees (new_server now e blocks i v delay).
Proof.
  intros V. split; cbn; try set_solver; by constructor.
Qed.

Lemma dropped_unlinked w i : agrees w -> possible w (EvictFires i) -> i ∉ links w.
Proof.
  intros A (e & E & R) L. apply (inv_idle _ (reachable_inv _ (ag_reach _ A)) i e E).
  - unfold active. by rewrite R, orb_true_r.
  - apply (ag_peers _ A). by left.
Qed.

Lemma says_after e w j b k : agrees w -> possible w e -> says (after e w) !! j = Some b ->
  j ∈ links (after e w) /\ says_of e j k (storing_of (node w) j) = Some b.
Proof.
  intros A P S. pose proof (ag_says _ A j) as H. pose proof (dropped_unlinked w j A) as D.
  destruct e; cbn [after says links says_of possible] in *; try (by apply H);
    repeat match goal with
    | S : delete _ _ !! _ = Some _ |- _ => apply lookup_delete_Some in S as [? S]
    | S : <[_ := _]> _ !! _ = Some _ |- _ => apply lookup_insert_Some in S as [[<- <-]|[? S]]
    | H : forall b, says ?w !! ?j = Some b -> _, S : says ?w !! ?j = Some _ |- _ =>
        apply H in S as [? ?]
    | |- context [decide ?X] => destruct (decide X) as [->|?]
    end; (split; [set_solver|]); rewrite ?decide_True by done; try done; naive_solver.
Qed.

Lemma silent_after e w j k : agrees w -> possible w e -> says (after e w) !! j = None ->
  j ∈ links (after e w) -> says_of e j k (storing_of (node w) j) <> Some false.
Proof.
  intros A P S L. pose proof (ag_silent _ A j) as H.
  destruct e; cbn [after says links says_of possible] in *; try (by apply H);
    repeat match goal with
    | S : <[_ := _]> _ !! _ = None |- _ => apply lookup_insert_None in S as [S ?]
    | |- context [decide ?X] => destruct (decide X) as [->|?]
    end; try done.
  all: try (by destruct k).
  all: try (apply H; set_solver).
  all: try (apply H; [set_solver|]; rewrite lookup_delete_ne in S; done).
Qed.

Lemma agrees_after e w : agrees w -> possible w e -> agrees (after e w).
Proof.
  intros A P. pose proof (possible_enabled w e A P) as En. pose proof (ag_reach _ A) as R.
  destruct (happen_inv (node w) e (reachable_inv _ R) En) as (s' & E & _).
  assert (effect e (node w) s') as [F1 F0 F2 F3 F4 F5 F6 F7].
  { apply happen_effect; [by apply reachable_inv|done|done| |].
    - intros r m -> ->. by apply (ag_self _ A).
    - intros l b -> Es. apply (ag_self _ A). by rewrite <- Es. }
  pose proof (ag_self _ A) as A2. pose proof (ag_peers _ A) as A3. pose proof (ag_book _ A) as A4.
  pose proof (ag_says _ A) as A7. pose proof (ag_silent _ A) as A8.
  pose proof (ag_kept _ A) as A5. pose proof (ag_named _ A) as A6.
  unfold after. rewrite E. split; cbn [node links kept named_to says snd]; rewrite ?F1, ?F2.
  - by eapply reach_step.
  - unfold since_0_8. rewrite F0. apply (ag_version _ A).
  - destruct e; cbn [possible] in P; try done; set_solver.
  - intros j. rewrite F3. destruct e; cbn [joins possible] in *; try apply A3; rewrite A3; [set_solver|].
    clear -A2 P. set_solver.
  - intros b. rewrite F4. destruct e; cbn [stores]; rewrite A4; set_solver.
  - intros b. destruct e; cbn [possible] in P; set_solver.
  - intros j H N. assert (e <> EvictFires j /\ (j ∈ hears e \/ j ∈ named_to w)) as [Ne [J|J]].
    + destruct e; (split; [intros [=]; subst; set_solver|]); set_solver.
    + by apply F6.
    + by apply F5; [apply A6|].
  - intros j b S. rewrite F7. by apply says_after.
  - intros j L S. rewrite F7. by apply silent_after.
Qed.

Lemma lives_agrees w : lives w -> agrees w.
Proof.
  induction 1; [by apply agrees_client|by apply agrees_server|by apply agrees_after].
Qed.

(** ** Examples *)

Definition an_address (k : Z) : Address.t := Address.make (k :: replicate 31 0).
Definition port_of (k : Z) : Endpoints.t := {[Endpoints.mkEndpoint [127; 0; 0; 1] k]}.
Definition alice : Addr := an_address 1 ↾ I.
Definition bob : Addr := an_address 2 ↾ I.
Definition carol : Addr := an_address 3 ↾ I.
Definition file : Addr := an_address 4 ↾ I.

Definition server (v : Version.t) (i : Addr) : t :=
  register_local 1 (port_of 1) [file] (create i v None).
Definition v_0_8 : Version.t := Version.make 0 8 0.
Definition v_0_7 : Version.t := Version.make 0 7 0.
Lemma key_ne (a b : Addr) : bool_decide (key_of a = key_of b) = false -> a <> b.
Proof. intros N%bool_decide_eq_false E. congruence. Qed.
Lemma port_of_inj k k' : port_of k = port_of k' -> k = k'.
Proof. unfold port_of. intros E%singleton_inj. congruence. Qed.
