(* ===== verification/KouncilTheorems.v ===== *)
(** What Kouncil.v promises: no node is forgotten, lookups and allocations are
    among the nodes that are connected, counts are right, and what the nodes
    tell each other spreads and settles, or not. *)

From stdpp Require Import base tactics option sorting gmap list.
From Stdlib Require Import ZArith Lia.
From S2P Require Import Prelude Versions Buffers Streams Addresses Nodes Picks Kouncil KouncilProperties.
Open Scope Z_scope.
Import Kouncil.

(** ** Nodes *)

(** C24. A node of 0.8.0 or more, server or client, makes connections and loses them,
    stores and removes blocks, hears of nodes, asks them and is asked, retries and drops
    them, in any order. Then its peers are exactly the nodes it has a connection to, and
    itself if it is a server; the blocks it knows it has are exactly those its storage
    keeps, and those of others are of nodes it is connected to; every node named to it
    and not dropped since is recorded, and, until it cleans up, every node recorded is
    connected or being reached again; and nothing that can happen next fails an
    assertion. What can happen is said by what is around the node: calls and answers come
    from nodes it is connected to, with identifiers that are not null; a peer that
    advertises itself is among the nodes it names, as servers are; the node does not
    connect to itself; and a peer tells
    whether it stores only once it was named ([configured_too_soon]). *)
Theorem kouncil_keeps_track w : lives w ->
  (forall i, discovered i (node w) = true <->
    i ∈ links w \/ (has_local (node w) = true /\ i = self (node w))) /\
  (forall b, (self (node w), b) ∈ address_book (node w) <-> b ∈ kept w) /\
  (forall i b, (i, b) ∈ address_book (node w) -> i <> self (node w) -> i ∈ links w) /\
  (forall i, i ∈ named_to w -> i <> self (node w) -> is_Some (infos (node w) !! i)) /\
  (cleaning (node w) = false -> forall i p, infos (node w) !! i = Some p -> i <> self (node w) ->
    i ∈ links w \/ on_stale i (node w) retried) /\
  (forall e, possible w e -> exists s', happen e (node w) = (Ok tt, s')).
Proof.
  intros A%lives_agrees. pose proof (reachable_inv _ (ag_reach _ A)) as R.
  pose proof (ag_peers _ A) as P. split_and!.
  - intros i. unfold discovered. by rewrite bool_decide_eq_true.
  - apply (ag_book _ A).
  - intros i b B%(inv_book _ R) N. apply P in B as [B|[_ B]]; [done|by destruct N].
  - apply (ag_named _ A).
  - intros C i p E Ns. destruct (decide (i ∈ links w)) as [L|L]; [by left|]. right.
    eapply inv_watched; [done|done|exact E|done|]. rewrite P. naive_solver.
  - intros e En%possible_enabled; [|done]. destruct (happen_inv (node w) e R En) as (s' & E & _).
    by exists s'.
Qed.

(** ** Choosing nodes *)

Lemma select_length {X} (l : list X) idx :
  Forall (fun x => 0 <= x < Z.of_nat (length l)) idx -> length (select l idx) = length idx.
Proof.
  unfold select. induction 1 as [|x idx B _ IH]; [done|]. cbn.
  destruct (lookup_lt_is_Some_2 l (Z.to_nat x)) as [y ->]; [lia|]. cbn. by rewrite IH.
Qed.

Lemma select_elem {X} (l : list X) idx y : y ∈ select l idx ->
  exists x, x ∈ idx /\ l !! Z.to_nat x = Some y.
Proof. unfold select. rewrite list_elem_of_omap. intros (x & I & E). by exists x. Qed.

Lemma select_nodup {X} (l : list X) idx : NoDup l -> NoDup idx ->
  Forall (fun x => 0 <= x < Z.of_nat (length l)) idx -> NoDup (select l idx).
Proof.
  intros Nl Ni F. induction Ni as [|x idx Nx Ni IH]; [constructor|].
  apply Forall_cons in F as [B F]. unfold select. cbn.
  destruct (lookup_lt_is_Some_2 l (Z.to_nat x)) as [y Ey]; [lia|]. rewrite Ey. cbn.
  apply NoDup_cons. split; [|by apply IH]. intros Iy.
  apply (select_elem l idx y) in Iy as (x' & Ix & Ex).
  pose proof (NoDup_lookup l _ _ _ Nl Ey Ex). rewrite Forall_forall in F.
  specialize (F x' Ix). assert (x = x') as -> by lia. done.
Qed.

Lemma select_all {X} (l : list X) : select l (seqZ 0 (Z.of_nat (length l))) = l.
Proof.
  assert (forall pre, select (pre ++ l) (seqZ (Z.of_nat (length pre)) (Z.of_nat (length l))) = l) as H;
    [|exact (H [])].
  unfold select. induction l as [|x l IH]; intros pre; [by rewrite seqZ_nil|].
  rewrite seqZ_cons by (cbn; lia). cbn [omap list_omap].
  rewrite Nat2Z.id, list_lookup_middle by done. f_equal.
  specialize (IH (pre ++ [x])). rewrite length_app, <- app_assoc in IH. cbn in IH.
  rewrite <- IH at 2. f_equal. f_equal; cbn; lia.
Qed.

Lemma storing_infos_elem s p : inv s -> p ∈ storing_infos s ->
  infos s !! id p = Some p /\ storing p = Some true /\ id p ∈ peers s.
Proof.
  intros I. unfold storing_infos, infos_list. rewrite list_elem_of_filter, list_elem_of_fmap.
  intros (St & [j q] & E & M). cbn in E. subst q. apply elem_of_map_to_list in M.
  pose proof (inv_ids _ I j p M) as <-. split; [done|]. split; [done|].
  apply (inv_storing _ I _ p M). by rewrite St.
Qed.

Lemma storing_infos_iff s i p : infos s !! i = Some p -> storing p = Some true ->
  p ∈ storing_infos s.
Proof.
  intros E Sp. unfold storing_infos. apply list_elem_of_filter. split; [done|]. unfold infos_list.
  apply list_elem_of_fmap. exists (i, p). split; [done|]. by apply elem_of_map_to_list.
Qed.

Lemma storing_infos_nodup s : inv s -> NoDup (id <$> storing_infos s).
Proof.
  intros I. unfold storing_infos, infos_list.
  assert (forall l : list (Addr * PeerInfo), NoDup l.*1 -> Forall (fun x => id x.2 = x.1) l ->
    NoDup (id <$> filter (fun p => storing p = Some true) l.*2)) as H.
  { induction l as [|[j p] l IH]; [constructor|]. rewrite !fmap_cons.
    intros [Nj N]%NoDup_cons [Ej F]%Forall_cons. rewrite filter_cons. destruct (decide _); [|by apply IH]. rewrite fmap_cons. apply NoDup_cons.
    split; [|by apply IH]. cbn in Ej. cbn [snd fst] in *. rewrite Ej. intros Ij. apply Nj.
    apply list_elem_of_fmap in Ij as (q & Eq & [_ Iq]%list_elem_of_filter).
    apply list_elem_of_fmap in Iq as ([k q'] & Eq' & M). cbn in Eq'. subst q'.
    rewrite Forall_forall in F. specialize (F (k, q) M). cbn in F.
    apply list_elem_of_fmap. exists (k, q). split; [|done]. cbn. congruence. }
  apply H; [apply NoDup_fst_map_to_list|]. rewrite Forall_forall. intros [j p] M.
  apply elem_of_map_to_list in M. by apply (inv_ids _ I).
Qed.

Lemma members_spec s l : Forall (fun p => id p ∈ peers s) l -> members l s = Ok (id <$> l).
Proof.
  induction 1 as [|p l P _ IH]; [done|]. cbn. unfold discovered.
  by rewrite bool_decide_eq_true_2, IH by done.
Qed.

Lemma allocate_spec uniform n s : inv s -> since_0_8 s = true ->
  (forall i hi, 0 <= hi -> 0 <= uniform i hi <= hi) -> 0 <= n ->
  Z.of_nat (length (storing_infos s)) < 2 ^ 31 ->
  exists l, allocate uniform n s = Ok l /\ NoDup l /\
    Z.of_nat (length l) = Z.min n (Z.of_nat (length (storing_infos s))) /\
    forall i, i ∈ l -> i ∈ (id <$> storing_infos s).
Proof.
  intros I V U Bn Bs. unfold allocate. rewrite V. cbn [negb].
  set (range := storing_infos s) in *. set (size := Z.of_nat (length range)) in *.
  destruct (Random.pick_n_spec uniform (Z.min n size) size U ltac:(lia) Bs) as [[St F] L].
  set (idx := Random.pick_n _ _ _) in *.
  assert (Forall (fun p => id p ∈ peers s) (select range idx)) as Fp.
  { rewrite Forall_forall. intros p (x & _ & E)%select_elem.
    apply list_elem_of_lookup_2 in E. by apply storing_infos_elem in E as (_ & _ & ?). }
  exists (id <$> select range idx). split; [by apply members_spec|]. split; [|split].
  - replace (id <$> select range idx) with (select (id <$> range) idx).
    + apply select_nodup; [by apply storing_infos_nodup|by apply Random.lt_nodup|].
      by rewrite length_fmap.
    + unfold select. clear. induction idx as [|x idx IH]; [done|]. cbn.
      rewrite list_lookup_fmap. destruct (range !! Z.to_nat x); cbn; by rewrite IH.
  - by rewrite length_fmap, select_length.
  - intros i (p & -> & (x & _ & E)%select_elem)%list_elem_of_fmap.
    apply list_elem_of_lookup_2 in E. by apply list_elem_of_fmap_2.
Qed.

(** C32. Since 0.8.0, whatever the random numbers, a new block is given to different nodes,
    as many as asked or as there are to choose from; and looking for their
    connections never fails. The nodes to choose from are nodes connected, except those
    that said since their connection, in their last answer or call, that they do not
    store; and the node itself if it is a server. Those whose last word is that they
    store are all among them. What a node said of itself is not followed: one that
    stopped storing still chooses itself ([stopped_node_is_chosen]). *)
Theorem allocate_chooses uniform n w : lives w ->
  (forall i hi, 0 <= hi -> 0 <= uniform i hi <= hi) -> 0 <= n ->
  Z.of_nat (length (storing_infos (node w))) < 2 ^ 31 ->
  let candidates := id <$> storing_infos (node w) in
  (forall i, i ∈ candidates ->
     i ∈ links w /\ says w !! i <> Some false \/ has_local (node w) = true /\ i = self (node w)) /\
  (forall i, says w !! i = Some true -> i ∈ candidates) /\
  exists l, allocate uniform n (node w) = Ok l /\ NoDup l /\
    Z.of_nat (length l) = Z.min n (Z.of_nat (length candidates)) /\
    forall i, i ∈ l -> i ∈ candidates.
Proof.
  intros A%lives_agrees U Bn Bs. pose proof (reachable_inv _ (ag_reach _ A)) as I. cbn zeta.
  split; [|split].
  - intros i (p & -> & (E & Sp & P)%storing_infos_elem)%list_elem_of_fmap; [|done].
    apply (ag_peers _ A) in P as [P|P]; [left|by right]. split; [done|].
    intros [_ S]%(ag_says _ A). unfold storing_of in S. rewrite E in S. cbn in S. congruence.
  - intros i [_ S]%(ag_says _ A). unfold storing_of in S.
    destruct (infos (node w) !! i) as [p|] eqn:E; [|done]. cbn in S.
    apply list_elem_of_fmap. exists p. split; [symmetry; by apply (inv_ids _ I)|].
    by eapply storing_infos_iff.
  - rewrite length_fmap. by apply (allocate_spec uniform n _ I (ag_version _ A)).
Qed.

(** *** Lookup *)

Lemma yield_until_sound n s l : forall c i, i ∈ yield_until n c s l -> i ∈ l /\ discovered i s = true.
Proof.
  induction l as [|j l IH]; intros c i; cbn [yield_until]; [set_solver|].
  destruct (discovered j s) eqn:D.
  - rewrite elem_of_cons. intros [->|E]; [split; [by left|done]|].
    destruct (n <=? c + 1); [set_solver|]. destruct (IH _ _ E). split; [by right|done].
  - intros E. destruct (IH _ _ E). split; [by right|done].
Qed.

Lemma yield_until_all n s l : forall c, Forall (fun i => discovered i s = true) l ->
  yield_until n c s l = take (Z.to_nat (Z.max 1 (n - c))) l.
Proof.
  induction l as [|j l IH]; intros c F; cbn [yield_until]; [by rewrite take_nil|].
  apply Forall_cons in F as [-> F].
  destruct (n <=? c + 1) eqn:L; to_prop.
  - replace (Z.to_nat (Z.max 1 (n - c))) with 1%nat by lia. done.
  - rewrite IH by done. replace (Z.to_nat (Z.max 1 (n - c))) with
      (S (Z.to_nat (Z.max 1 (n - (c + 1))))) by lia. done.
Qed.

Lemma ask_peers_sound rpc n s b l i : i ∈ ask_peers rpc n s b l ->
  discovered i s = true /\ exists p nodes, p ∈ l /\ p <> self s /\ rpc p b = Some nodes /\ i ∈ nodes.
Proof.
  induction l as [|p l IH]; cbn [ask_peers]; [set_solver|].
  assert (i ∈ ask_peers rpc n s b l -> discovered i s = true /\ exists q nodes, q ∈ p :: l /\
    q <> self s /\ rpc q b = Some nodes /\ i ∈ nodes) as Later.
  { intros E. destruct (IH E) as (D & q & nodes & Q & R). split; [done|]. exists q, nodes.
    split; [by right|done]. }
  destruct (decide _); [done|]. destruct (rpc p b) as [nodes|] eqn:Er; [|done].
  destruct (yield_until n 0 s nodes) as [|j r] eqn:Ey; [done|]. intros E.
  rewrite <- Ey in E. apply yield_until_sound in E as [In D]. split; [done|].
  exists p, nodes. split; [by left|done].
Qed.

(** A lookup finds the owners the node knows of, all of them connected, up to
    the number that is asked; when it knows of none it believes another node,
    but only of nodes it is connected to itself. *)
Theorem lookup_finds rpc b n s : reachable s -> 1 <= n ->
  let owners := elements (owners_of b (address_book s)) in
  (owners <> [] -> lookup rpc b n s = take (Z.to_nat n) owners) /\
  (owners = [] -> lookup rpc b n s = ask_peers rpc n s b (peers s)) /\
  forall i, i ∈ lookup rpc b n s -> discovered i s = true /\
    (i ∈ owners \/ exists p nodes, discovered p s = true /\ p <> self s /\
       rpc p b = Some nodes /\ i ∈ nodes).
Proof.
  intros I%reachable_inv Bn owners. subst owners.
  assert (Forall (fun i => discovered i s = true) (elements (owners_of b (address_book s)))) as F.
  { rewrite Forall_forall. intros i. rewrite elem_of_elements. unfold owners_of.
    rewrite elem_of_map. intros ([j b'] & -> & [_ E]%elem_of_filter). apply bool_decide_eq_true.
    by eapply inv_book. }
  unfold lookup. rewrite (yield_until_all n s _ 0 F). replace (Z.max 1 (n - 0)) with n by lia.
  destruct (elements (owners_of b (address_book s))) as [|i0 owners] eqn:E.
  - rewrite take_nil. split; [done|]. split; [done|]. intros i Hi.
    apply ask_peers_sound in Hi as (D & p & nodes & P & Ns & R & In). split; [done|]. right.
    exists p, nodes. split; [by apply bool_decide_eq_true|done].
  - destruct (Z.to_nat n) as [|m] eqn:En; [lia|]. cbn [take]. split; [done|]. split; [done|].
    intros i Hi. assert (i ∈ i0 :: owners) as Hi'.
    { rewrite elem_of_cons in *. destruct Hi as [->|Hi]; [by left|right].
      apply list_elem_of_lookup in Hi as [k Hk]. apply lookup_take_Some in Hk as [Hk _].
      by eapply list_elem_of_lookup_2. }
    rewrite Forall_forall in F. split; [by apply F|by left].
Qed.

(** ** Counting blocks *)

Definition is_mutable (b : Addr) : bool := Address.mutable_block (key_of b).
(** The blocks of a kind that some node holds, and the number of its copies. *)
Definition known (mutable : bool) (book : gset (Addr * Addr)) : gset Addr :=
  filter (fun b => is_mutable b = mutable) (set_map snd book).
Definition copies (book : gset (Addr * Addr)) (b : Addr) : Z := Z.of_nat (size (owners_of b book)).
Definition lacking (mutable : bool) (limit : Z) (book : gset (Addr * Addr)) : gset Addr :=
  filter (fun b => copies book b < limit) (known mutable book).

Lemma owners_insert e book b : owners_of b ({[e]} ∪ book) =
  if decide (e.2 = b) then {[e.1]} ∪ owners_of b book else owners_of b book.
Proof.
  unfold owners_of. apply set_eq. intros i. destruct (decide (e.2 = b)) as [E|N].
  - rewrite elem_of_union, elem_of_singleton, !elem_of_map. setoid_rewrite elem_of_filter. split.
    + intros (x & -> & Ex & [->%elem_of_singleton|H]%elem_of_union); [by left|right]. by exists x.
    + intros [->|(x & -> & Ex & H)]; [exists e|exists x]; set_solver.
  - rewrite !elem_of_map. setoid_rewrite elem_of_filter. split.
    + intros (x & -> & Ex & [->%elem_of_singleton|H]%elem_of_union); [done|]. by exists x.
    + intros (x & -> & Ex & H). exists x. set_solver.
Qed.

Lemma owners_fresh e book : e ∉ book -> e.1 ∉ owners_of e.2 book.
Proof.
  intros N. unfold owners_of. rewrite elem_of_map. intros ([i b] & E & [E' M]%elem_of_filter).
  cbn in *. destruct e as [i' b']. cbn in *. subst. done.
Qed.

Definition counted (m : bool) (acc : gmap Addr Z) (X : gset (Addr * Addr)) : Prop :=
  forall b, acc !! b = if decide (b ∈ known m X) then Some (copies X b) else None.

Lemma count_ids_spec m book b :
  count_ids m book !! b = if decide (b ∈ known m book) then Some (copies book b) else None.
Proof.
  revert b. change (counted m (count_ids m book) book). unfold count_ids.
  apply (set_fold_ind_L (counted m)); unfold counted.
  - intros b. rewrite lookup_empty, decide_False by (unfold known; set_solver). done.
  - intros e X acc N IH b.
    assert (b ∈ known m ({[e]} ∪ X) <-> (b = e.2 /\ is_mutable b = m) \/ b ∈ known m X) as K.
    { unfold known. rewrite !elem_of_filter, !elem_of_map.
      setoid_rewrite elem_of_union. setoid_rewrite elem_of_singleton. naive_solver. }
    assert (copies ({[e]} ∪ X) b = copies X b + if decide (e.2 = b) then 1 else 0) as C.
    { unfold copies. rewrite owners_insert. destruct (decide (e.2 = b)) as [<-|]; [|lia].
      rewrite size_union, size_singleton; [lia|]. pose proof (owners_fresh e X N). set_solver. }
    assert (b ∉ known m X -> is_mutable b = m -> copies X b = 0) as Z0.
    { intros Nk Mb. unfold copies. replace (owners_of b X) with (∅ : gset Addr); [by rewrite size_empty|].
      symmetry. apply elem_of_equiv_empty_L. unfold owners_of. intros i. rewrite elem_of_map.
      intros (x & -> & [Ex Hx]%elem_of_filter). apply Nk. unfold known.
      rewrite elem_of_filter, elem_of_map. split; [done|]. by exists x. }
    change (Address.mutable_block (key_of e.2)) with (is_mutable e.2).
    destruct (Bool.eqb (is_mutable e.2) m) eqn:B.
    + apply eqb_prop in B. destruct (decide (b = e.2)) as [->|Nb].
      * rewrite lookup_insert_eq, IH. rewrite (decide_True (P := e.2 ∈ known m ({[e]} ∪ X))) by (apply K; by left).
        rewrite C. destruct (decide (e.2 = e.2)); [|done].
        destruct (decide (e.2 ∈ known m X)) as [Y|Y]; cbn [default]; [done|].
        by rewrite Z0 by done.
      * rewrite lookup_insert_ne, IH, C by done. rewrite (decide_False (P := e.2 = b)) by done.
        rewrite Z.add_0_r. destruct (decide (b ∈ known m X)) as [Y|Y].
        -- rewrite decide_True; [done|]. apply K. by right.
        -- rewrite decide_False; [done|]. rewrite K. naive_solver.
    + apply eqb_false_iff in B. rewrite IH, C. destruct (decide (b ∈ known m X)) as [Y|Y].
      * rewrite decide_True by (apply K; by right).
        rewrite (decide_False (P := e.2 = b)), Z.add_0_r; [done|].
        intros <-. apply B. unfold known in Y. by apply elem_of_filter in Y as [? _].
      * rewrite decide_False; [done|]. rewrite K. naive_solver.
Qed.

Lemma count_ids_list m book :
  NoDup (map_to_list (count_ids m book)).*1 /\
  (forall c, c ∈ map_to_list (count_ids m book) <-> c.1 ∈ known m book /\ c.2 = copies book c.1).
Proof.
  split; [apply NoDup_fst_map_to_list|]. intros [b n]. rewrite elem_of_map_to_list, count_ids_spec.
  cbn. destruct (decide _); split; [intros [= <-]|intros [_ ->]| |intros [? _]]; done.
Qed.

(** Counting the pairs that satisfy a test counts blocks. *)
Lemma count_filter m book (P : Addr * Z -> Prop) `{!forall x, Decision (P x)} (Q : Addr -> Prop)
    `{!forall x, Decision (Q x)} : (forall b, Q b <-> P (b, copies book b)) ->
  length (filter P (map_to_list (count_ids m book))) = size (filter Q (known m book)).
Proof.
  intros PQ. destruct (count_ids_list m book) as [N E]. set (l := map_to_list _) in *.
  rewrite <- (length_fmap fst). rewrite <- (size_list_to_set (C := gset Addr)).
  - f_equal. apply set_eq. intros b.
    rewrite elem_of_list_to_set, list_elem_of_fmap, elem_of_filter. split.
    + intros ([b' n] & -> & [Px M]%list_elem_of_filter). apply E in M as [K En]. cbn in *.
      subst n. split; [by apply PQ|done].
    + intros [Qb K]. exists (b, copies book b). split; [done|]. apply list_elem_of_filter.
      split; [by apply PQ|]. by apply E.
  - clear E PQ. induction l as [|[b n] l IH]; [constructor|]. rewrite fmap_cons in N.
    apply NoDup_cons in N as [Nb N]. rewrite filter_cons. destruct (decide _); [|by apply IH].
    rewrite fmap_cons. apply NoDup_cons. split; [|by apply IH]. intros I. apply Nb.
    apply list_elem_of_fmap in I as (x & -> & [_ M]%list_elem_of_filter).
    by apply list_elem_of_fmap_2.
Qed.

(** What a loop over the blocks of a kind adds to the counts, and to the sample,
    where the first ten are kept. *)
Definition below (rf : Z) (c : Addr * Z) : Prop := c.2 < rf.
#[local] Instance below_dec rf c : Decision (below rf c) := ltac:(unfold below; apply _).
Definition above (rf : Z) (c : Addr * Z) : Prop := rf < c.2.
#[local] Instance above_dec rf c : Decision (above rf c) := ltac:(unfold above; apply _).

Lemma sample_more (b : Addr) r rest : take 10 (sample_underreplicated r) = sample_underreplicated r ->
  take 10 (sample b r) = sample b r /\
  take 10 (sample b r ++ rest) = take 10 (sample_underreplicated r ++ b :: rest).
Proof.
  intros T. unfold sample. assert (length (sample_underreplicated r) <= 10)%nat as L.
  { rewrite <- T, length_take. lia. }
  destruct (length _ <? 10)%nat eqn:B.
  - apply Nat.ltb_lt in B. split; [apply take_ge; rewrite length_app; cbn; lia|].
    by rewrite <- app_assoc.
  - apply Nat.ltb_ge in B. split; [done|]. rewrite !take_app_le by lia. done.
Qed.

Lemma immutable_fold rf l : forall r, take 10 (sample_underreplicated r) = sample_underreplicated r ->
  fold_left (count_immutable rf) l r =
  mkReachable (total_blocks r) (mutable_blocks r) (immutable_blocks r)
    (underreplicated_immutable_blocks r + Z.of_nat (length (filter (below rf) l)))
    (overreplicated_immutable_blocks r + Z.of_nat (length (filter (above rf) l)))
    (underreplicated_mutable_blocks r) (under_quorum_mutable_blocks r)
    (take 10 (sample_underreplicated r ++ (filter (below rf) l).*1)).
Proof.
  induction l as [|c l IH]; intros r T.
  { cbn. rewrite app_nil_r, T, !Z.add_0_r. by destruct r. }
  cbn [fold_left]. rewrite !filter_cons. unfold count_immutable at 2.
  destruct (sample_more c.1 r (filter (below rf) l).*1 T) as [T' E].
  destruct (decide (below rf c)) as [X|X], (decide (above rf c)) as [Y|Y]; unfold below, above in X, Y;
    destruct (rf <? c.2) eqn:A, (c.2 <? rf) eqn:B; to_prop; try lia;
    rewrite IH by done; cbn [total_blocks mutable_blocks immutable_blocks
      underreplicated_immutable_blocks overreplicated_immutable_blocks
      underreplicated_mutable_blocks under_quorum_mutable_blocks sample_underreplicated length fmap];
    f_equal; rewrite ?E; try lia; done.
Qed.

Lemma mutable_fold rf l : forall r, take 10 (sample_underreplicated r) = sample_underreplicated r ->
  fold_left (count_mutable rf) l r =
  mkReachable (total_blocks r) (mutable_blocks r) (immutable_blocks r)
    (underreplicated_immutable_blocks r) (overreplicated_immutable_blocks r)
    (underreplicated_mutable_blocks r + Z.of_nat (length (filter (below rf) l)))
    (under_quorum_mutable_blocks r + Z.of_nat (length (filter (below (rf / 2 + 1)) l)))
    (take 10 (sample_underreplicated r ++ (filter (below rf) l).*1)).
Proof.
  induction l as [|c l IH]; intros r T.
  { cbn. rewrite app_nil_r, T, !Z.add_0_r. by destruct r. }
  cbn [fold_left]. rewrite !filter_cons. unfold count_mutable at 2.
  destruct (sample_more c.1 r (filter (below rf) l).*1 T) as [T' E].
  destruct (decide (below rf c)) as [X|X], (decide (below (rf / 2 + 1) c)) as [Y|Y];
    unfold below in X, Y; destruct (c.2 <? rf) eqn:A, (c.2 <? rf / 2 + 1) eqn:B; to_prop; try lia;
    rewrite IH by done; cbn [total_blocks mutable_blocks immutable_blocks
      underreplicated_immutable_blocks overreplicated_immutable_blocks
      underreplicated_mutable_blocks under_quorum_mutable_blocks sample_underreplicated length fmap];
    f_equal; rewrite ?E; try lia; done.
Qed.

Lemma lacking_count m limit book :
  length (filter (below limit) (map_to_list (count_ids m book))) = size (lacking m limit book).
Proof. unfold lacking. by apply count_filter. Qed.

Lemma lacking_sample m limit book b :
  b ∈ (filter (below limit) (map_to_list (count_ids m book))).*1 -> b ∈ lacking m limit book.
Proof.
  intros ([b' n] & -> & [Bl M]%list_elem_of_filter)%list_elem_of_fmap.
  apply count_ids_list in M as [K En]. cbn in *. unfold below in Bl. cbn in Bl. subst n.
  by apply elem_of_filter.
Qed.

Lemma count_all m book : length (map_to_list (count_ids m book)) = size (known m book).
Proof.
  destruct (count_ids_list m book) as [N E].
  rewrite <- (length_fmap fst), <- (size_list_to_set (C := gset Addr)) by done.
  f_equal. apply set_eq. intros b. rewrite elem_of_list_to_set, list_elem_of_fmap. split.
  - by intros (x & -> & [K _]%E).
  - intros K. exists (b, copies book b). split; [done|]. by apply E.
Qed.

(** C33. The counts of the reachable blocks are those of the address book: blocks
    with fewer or more copies than there should be, mutable blocks without a
    majority, and a sample of at most ten of those that lack copies. *)
Theorem reachable_blocks_are_counted rf book :
  let r := compute_reachable_blocks rf book in
  total_blocks r = Z.of_nat (size (known true book)) + Z.of_nat (size (known false book)) /\
  mutable_blocks r = Z.of_nat (size (known true book)) /\
  immutable_blocks r = Z.of_nat (size (known false book)) /\
  underreplicated_immutable_blocks r = Z.of_nat (size (lacking false rf book)) /\
  overreplicated_immutable_blocks r =
    Z.of_nat (size (filter (fun b => rf < copies book b) (known false book))) /\
  underreplicated_mutable_blocks r = Z.of_nat (size (lacking true rf book)) /\
  under_quorum_mutable_blocks r = Z.of_nat (size (lacking true (rf / 2 + 1) book)) /\
  (forall b, b ∈ sample_underreplicated r -> b ∈ lacking true rf book ∪ lacking false rf book) /\
  length (sample_underreplicated r) =
    Nat.min 10 (size (lacking true rf book) + size (lacking false rf book)).
Proof.
  unfold compute_reachable_blocks. cbn zeta.
  rewrite immutable_fold by done. rewrite mutable_fold by (cbn [sample_underreplicated]; rewrite take_take; done).
  cbn [total_blocks mutable_blocks immutable_blocks
      underreplicated_immutable_blocks overreplicated_immutable_blocks
      underreplicated_mutable_blocks under_quorum_mutable_blocks sample_underreplicated app].
  rewrite !lacking_count. rewrite (count_filter false book (above rf) (fun b => rf < copies book b)) by done.
  rewrite !count_all. split_and!; try lia.
  - intros b H. assert (b ∈ (filter (below rf) (map_to_list (count_ids false book))).*1 ++
      (filter (below rf) (map_to_list (count_ids true book))).*1) as H'.
    { apply list_elem_of_lookup in H as [k [H _]%lookup_take_Some].
      apply list_elem_of_lookup_2 in H. rewrite elem_of_app in *. destruct H as [H|H]; [left|by right].
      apply list_elem_of_lookup in H as [k' [H _]%lookup_take_Some].
      by eapply list_elem_of_lookup_2. }
    apply elem_of_union. apply elem_of_app in H' as [H'%lacking_sample|H'%lacking_sample]; auto.
  - rewrite length_take, length_app, length_take, !length_fmap, !lacking_count. lia.
Qed.

(** ** What nodes tell of their blocks *)

(** What a change, or several, does to a block being in a set. *)
Definition after_change (b : Addr) (was : bool) (c : Addr * bool) : bool :=
  if decide (c.1 = b) then c.2 else was.
Definition after_changes (l : list (Addr * bool)) (b : Addr) (was : bool) : bool :=
  fold_left (after_change b) l was.
Definition after_batch (m : gmap Addr bool) (b : Addr) (was : bool) : bool := default was (m !! b).
Definition holds (s : t) (i b : Addr) : bool := bool_decide ((i, b) ∈ address_book s).

(** A batch is settled when the changes of each block end as they start. *)
Definition first_change (b : Addr) (l : list (Addr * bool)) : option bool :=
  snd <$> head (filter (fun c => c.1 = b) l).
Definition last_change (b : Addr) (l : list (Addr * bool)) : option bool :=
  snd <$> last (filter (fun c => c.1 = b) l).
Definition settled (l : list (Addr * bool)) : Prop := forall b, first_change b l = last_change b l.

Lemma batch_fold l b : forall m : gmap Addr bool,
  fold_left (fun m c => match m !! c.1 with Some _ => m | None => <[c.1 := c.2]> m end) l m !! b =
  match m !! b with Some i => Some i | None => first_change b l end.
Proof.
  unfold first_change. induction l as [|[b' i] l IH]; intros m; cbn [fold_left].
  { cbn. by destruct (m !! b). }
  rewrite IH, filter_cons. cbn [fst snd]. destruct (decide (b' = b)) as [->|N].
  - destruct (m !! b) eqn:E; [by rewrite E|]. by rewrite lookup_insert_eq.
  - destruct (m !! b'); [done|]. by rewrite lookup_insert_ne.
Qed.

(** A batch has the first change of each block. *)
Lemma batch_first l b : batch l !! b = first_change b l.
Proof. unfold batch. by rewrite batch_fold, lookup_empty. Qed.

Lemma after_last l b was : after_changes l b was = default was (last_change b l).
Proof.
  unfold after_changes, last_change. induction l as [|c l IH] using rev_ind; [done|].
  rewrite fold_left_app, filter_app. cbn [fold_left]. unfold after_change at 1.
  rewrite filter_cons, filter_nil. destruct (decide (c.1 = b)); [by rewrite last_snoc|].
  by rewrite app_nil_r.
Qed.

Lemma batch_settled l b was : settled l -> after_batch (batch l) b was = after_changes l b was.
Proof. intros S. unfold after_batch. by rewrite batch_first, S, after_last. Qed.

Definition changed_by (r : Addr) (book book' : gset (Addr * Addr)) (m : gmap Addr bool) : Prop :=
  forall i b, bool_decide ((i, b) ∈ book') =
    if decide (i = r) then default (bool_decide ((i, b) ∈ book)) (m !! b)
    else bool_decide ((i, b) ∈ book).

Lemma change_holds r m book i b :
  bool_decide ((i, b) ∈ map_fold (change r) book m) =
  if decide (i = r) then after_batch m b (bool_decide ((i, b) ∈ book))
  else bool_decide ((i, b) ∈ book).
Proof.
  unfold after_batch. revert i b. change (changed_by r book (map_fold (change r) book m) m).
  apply (map_fold_weak_ind (changed_by r book)); unfold changed_by.
  - intros i b. rewrite lookup_empty. by destruct (decide _).
  - intros a v m' book' Na IH i b. specialize (IH i b).
    destruct (decide (i = r)) as [->|Ni], (decide (b = a)) as [->|Nb].
    + rewrite lookup_insert_eq. unfold change. destruct v; cbn.
      * apply bool_decide_eq_true. set_solver.
      * apply bool_decide_eq_false. set_solver.
    + rewrite lookup_insert_ne by done. rewrite <- IH. apply bool_decide_ext.
      unfold change. destruct v; set_solver.
    + rewrite <- IH. apply bool_decide_ext. unfold change. destruct v; set_solver.
    + rewrite <- IH. apply bool_decide_ext. unfold change. destruct v; set_solver.
Qed.

(** A server, and a node it is connected to, with what was sent to it. *)
Record pair := mkPair { owner : t; follower : t; flight : list (gmap Addr bool) }.
Inductive pair_step : pair -> pair -> Prop :=
  | pair_changes w e s' : (exists b, e = Store b \/ e = Remove b) -> enabled (owner w) e ->
      happen e (owner w) = (Ok tt, s') -> pair_step w (mkPair s' (follower w) (flight w))
  | pair_broadcasts w s' m : enabled (owner w) Broadcast -> settled (new_entries (owner w)) ->
      happen Broadcast (owner w) = (Ok tt, s') -> out s' = out (owner w) ++ [ChangeEntries m] ->
      pair_step w (mkPair s' (follower w) (flight w ++ [m]))
  | pair_delivers w m l f' : flight w = m :: l ->
      happen (Changed (self (owner w)) m) (follower w) = (Ok tt, f') ->
      pair_step w (mkPair (owner w) f' l).

Definition pair_inv (i : Addr) (w : pair) : Prop :=
  self (owner w) = i /\ since_0_8 (owner w) = true /\
  forall b, holds (owner w) i b =
    after_changes (new_entries (owner w)) b
      (fold_left (fun was m => after_batch m b was) (flight w) (holds (follower w) i b)).

Lemma pair_step_inv i w w' : pair_inv i w -> pair_step w w' -> pair_inv i w'.
Proof.
  intros (Ei & V & H) St. destruct St as [w e s' (b0 & Ee) En E|w s' m En S E Eo|w m l f' Ef E].
  - destruct Ee as [-> | ->]; cbn [happen] in E.
    + unfold on_store in E. monad_unfold. injection E as <-. split; [done|]. split; [done|].
      intros b. cbn. rewrite Ei. unfold after_changes. rewrite fold_left_app. cbn.
      unfold after_change at 1. cbn. unfold holds. cbn.
      destruct (decide (b0 = b)) as [->|N]; [apply bool_decide_eq_true; set_solver|].
      etransitivity; [|exact (H b)]. apply bool_decide_ext. set_solver.
    + destruct En as [_ En]. unfold on_remove in E. rewrite bind_read, decide_True in E by done.
      monad_unfold. injection E as <-. split; [done|]. split; [done|].
      intros b. cbn. rewrite Ei. unfold after_changes. rewrite fold_left_app. cbn.
      unfold after_change at 1. cbn. unfold holds. cbn.
      destruct (decide (b0 = b)) as [->|N]; [apply bool_decide_eq_false; set_solver|].
      etransitivity; [|exact (H b)]. apply bool_decide_ext. set_solver.
  - cbn [happen] in E. unfold broadcast in E. rewrite bind_read, V in E. monad_unfold.
    injection E as <-. cbn in Eo. apply app_inv_head in Eo. injection Eo as <-.
    split; [done|]. split; [done|]. intros b. cbn. rewrite fold_left_app. cbn.
    rewrite batch_settled by done. exact (H b).
  - cbn [happen] in E. unfold change_entries in E. monad_unfold. injection E as <-.
    split; [done|]. split; [done|]. intros b. cbn. rewrite (H b), Ef. cbn [fold_left].
    unfold holds at 2. cbn. by rewrite change_holds, Ei, decide_True by done.
Qed.

(** C25. A node that starts with the blocks of a server knows them exactly whenever
    everything was told and heard, as long as the changes of each block that are
    sent together end as they start. *)
Theorem book_follows_owner w w' :
  (forall b, holds (owner w) (self (owner w)) b = holds (follower w) (self (owner w)) b) ->
  since_0_8 (owner w) = true -> new_entries (owner w) = [] -> flight w = [] ->
  rtc pair_step w w' -> new_entries (owner w') = [] -> flight w' = [] ->
  forall b, holds (follower w') (self (owner w)) b = holds (owner w') (self (owner w)) b.
Proof.
  intros Eq V Nn Nf R Nn' Nf' b.
  assert (pair_inv (self (owner w)) w) as I.
  { split; [done|]. split; [done|]. intros b'. rewrite Nn, Nf. apply Eq. }
  assert (pair_inv (self (owner w)) w') as (_ & _ & H).
  { clear - R I. revert I. generalize (self (owner w)). intros i I.
    induction R as [|w1 w2 w3 St _ IH]; [done|]. apply IH. by eapply pair_step_inv. }
  by rewrite (H b), Nn', Nf'.
Qed.

#[local] Arguments batch : simpl never.

(** A block that a server gets and loses before it tells is told as a block it
    has: whoever hears it believes so from then on. *)
Theorem removed_block_is_announced s b : has_local s = true -> since_0_8 s = true ->
  new_entries s = [] ->
  exists s' m, run [Store b; Remove b; Broadcast] s = (Ok tt, s') /\
    ~ (self s, b) ∈ address_book s' /\ new_entries s' = [] /\
    last (out s') = Some (ChangeEntries m) /\
    forall f, exists f', happen (Changed (self s) m) f = (Ok tt, f') /\ (self s, b) ∈ address_book f'.
Proof.
  intros L V Nn. cbn [run happen]. unfold on_store, on_remove, broadcast.
  monad_unfold. cbn. rewrite decide_True by set_solver. cbn.
  change (since_0_8 _) with (since_0_8 s). rewrite V, Nn.
  eexists _, _. split; [reflexivity|]. cbn. split; [set_solver|]. split; [done|].
  rewrite last_snoc. split; [reflexivity|]. intros f. eexists. split; [reflexivity|]. cbn.
  apply (bool_decide_eq_true ((self s, b) ∈ _)). rewrite change_holds, decide_True by done.
  unfold after_batch. rewrite batch_first. unfold first_change. cbn. by rewrite decide_True.
Qed.

(** A server that stops accepting blocks tells others, but still counts itself
    among those it chooses from, and takes itself when it chooses them all. *)
Theorem stopped_node_is_chosen uniform n s p : reachable s -> since_0_8 s = true ->
  has_local s = true -> infos s !! self s = Some p -> storing p = Some true ->
  Z.of_nat (length (storing_infos s)) <= n ->
  exists s', happen (Storing false) s = (Ok tt, s') /\ overlay_storing s' = false /\
    exists l, allocate uniform n s' = Ok l /\ self s ∈ l.
Proof.
  intros I%reachable_inv V L Ep Sp B. cbn [happen]. unfold set_overlay_storing. rewrite bind_read.
  set (s' := if Bool.eqb false (overlay_storing s) then s
             else emit_on (Configure false) (set_storing false s)).
  exists s'. split; [subst s'; destruct (overlay_storing s); cbn [Bool.eqb negb when]; [|done];
    unfold store_; monad_unfold; cbn; by rewrite L|].
  split; [subst s'; by destruct (overlay_storing s) eqn:E|].
  assert (since_0_8 s' = true /\ storing_infos s' = storing_infos s /\ peers s' = peers s) as (V' & Es & Ps).
  { subst s'. destruct (overlay_storing s); by split_and!. }
  exists (id <$> storing_infos s). split.
  - unfold allocate. rewrite V', Es. cbn [negb]. unfold Random.pick_n.
    rewrite Z.min_r, Z.ltb_irrefl by lia.
    replace (select (storing_infos s) (seqZ 0 (Z.of_nat (length (storing_infos s)))))
      with (storing_infos s).
    + apply members_spec. rewrite Forall_forall. intros q Q. rewrite Ps.
      by apply storing_infos_elem in Q as (_ & _ & ?).
    + by rewrite (select_all (storing_infos s)).
  - apply list_elem_of_fmap. exists p. split; [symmetry; by apply (inv_ids _ I)|].
    by eapply storing_infos_iff.
Qed.

(** ** Witnesses *)

Lemma reach_by s e : reachable s -> enabled s e -> (happen e s).1 = Ok tt -> reachable (happen e s).2.
Proof.
  intros R En E. eapply reach_step; [exact R|exact En|]. destruct (happen e s). cbn in *. by subst.
Qed.

(** Alice meets bob, who has the same file. *)
Definition at_bob : NodeLocation := mkLocation bob (port_of 2).
Definition connecting : t := (happen (Connected at_bob) (server v_0_8 alice)).2.
Definition advertising : t := (happen (Advertised 2 bob [(bob, port_of 2, 5, 0)] true) connecting).2.
Definition met : t := (happen (Fetched at_bob {[file]}) advertising).2.

Ltac by_decision := apply (bool_decide_unpack _); by vm_compute.

Lemma advertising_reachable : reachable advertising.
Proof.
  apply reach_by; [apply reach_by| |].
  - by apply reach_server.
  - split; by apply key_ne; vm_compute.
  - by vm_compute.
  - split; [by_decision|]. split; [by apply key_ne; vm_compute|]. split; [by left|].
    apply Forall_singleton. by apply key_ne; vm_compute.
  - by vm_compute.
Qed.
Lemma met_reachable : reachable met.
Proof.
  apply reach_by; [apply advertising_reachable|cbn [enabled]; by_decision|by vm_compute].
Qed.

(** The same, seen from around, then bob tells that it does not store, and
    goes. *)
Definition around : world :=
  after (Fetched at_bob {[file]})
    (after (Advertised 2 bob [(bob, port_of 2, 5, 0)] true)
       (after (Connected at_bob) (new_server 1 (port_of 1) [file] alice v_0_8 None))).

Lemma around_lives : lives around.
Proof.
  unfold around. apply lives_on; [apply lives_on; [apply lives_on; [by apply lives_server|]|]|].
  - split; by apply key_ne; vm_compute.
  - split; [by_decision|]. split; [by left|]. apply Forall_singleton. by apply key_ne; vm_compute.
  - cbn [possible]. by_decision.
Qed.

Lemma kouncil_keeps_track_witness :
  lives around /\ discovered bob (node around) = true /\
  is_Some (infos (node around) !! bob) /\
  (exists s', happen (Configured bob false) (node around) = (Ok tt, s')) /\
  exists s', happen (Disconnected 9 0 bob) (node around) = (Ok tt, s').
Proof.
  destruct (kouncil_keeps_track around around_lives) as (B & _ & _ & F & _ & E).
  split; [exact around_lives|]. split; [apply (B bob); left; by_decision|].
  split; [apply F; [by_decision|by apply key_ne; vm_compute]|].
  split; [apply (E (Configured bob false)); split; by_decision|].
  apply (E (Disconnected 9 0 bob)). cbn [possible]. by_decision.
Defined.

(** A peer that tells whether it stores before it answered, and before any other named
    it, stops the node on an assertion. *)
Lemma configured_too_soon :
  let w := after (Connected at_bob) (new_server 1 (port_of 1) [file] alice v_0_8 None) in
  lives w /\ bob ∈ links w /\ (happen (Configured bob false) (node w)).1 = Throw AssertError.
Proof.
  intros w. split; [|split; [subst w; by_decision|]].
  - apply lives_on; [by apply lives_server|]. split; by apply key_ne; vm_compute.
  - by vm_compute.
Qed.

Definition lowest (i : nat) (hi : Z) : Z := 0.
Lemma lowest_ok i hi : 0 <= hi -> 0 <= lowest i hi <= hi.
Proof. unfold lowest. lia. Qed.

Lemma allocate_chooses_witness :
  exists l, allocate lowest 1 (node around) = Ok l /\ length l = 1%nat /\
    bob ∈ (id <$> storing_infos (node around)).
Proof.
  destruct (allocate_chooses lowest 1 around around_lives) as (_ & C & l & E & _ & L & _).
  - exact lowest_ok.
  - lia.
  - by vm_compute.
  - exists l. split; [exact E|]. split; [|apply C; by vm_compute].
    assert (Z.of_nat (length (id <$> storing_infos (node around))) = 2) as N by by_decision.
    rewrite N in L. lia.
Defined.

Lemma lookup_finds_witness :
  length (lookup (fun _ _ => None) file 5 met) = 2%nat.
Proof.
  destruct (lookup_finds (fun _ _ => None) file 5 met met_reachable) as (F & _ & _); [lia|].
  rewrite F; [by vm_compute|]. intros E. apply (f_equal length) in E. revert E. by vm_compute.
Defined.

Lemma stopped_node_is_chosen_witness :
  exists s', happen (Storing false) met = (Ok tt, s') /\ overlay_storing s' = false /\
    exists l, allocate lowest 2 s' = Ok l /\ alice ∈ l.
Proof.
  apply (stopped_node_is_chosen lowest 2 met
    (mkInfo alice (port_of 1) 0 LamportAge.null (Some true)) met_reachable).
  - by vm_compute.
  - by vm_compute.
  - vm_compute; reflexivity.
  - done.
  - by vm_compute.
Defined.


Lemma removed_block_is_announced_witness :
  exists s' m, run [Store carol; Remove carol; Broadcast] (server v_0_8 alice) = (Ok tt, s') /\
    ~ (alice, carol) ∈ address_book s' /\ last (out s') = Some (ChangeEntries m) /\
    exists f', happen (Changed alice m) (server v_0_8 bob) = (Ok tt, f') /\ (alice, carol) ∈ address_book f'.
Proof.
  destruct (removed_block_is_announced (server v_0_8 alice) carol) as (s' & m & E & N & _ & Eo & A).
  - by vm_compute.
  - by vm_compute.
  - by vm_compute.
  - exists s', m. split; [exact E|]. split; [exact N|]. split; [exact Eo|].
    exact (A (server v_0_8 bob)).
Defined.

Lemma happened e s : (happen e s).1 = Ok tt -> happen e s = (Ok tt, (happen e s).2).
Proof. destruct (happen e s). cbn. by intros ->. Qed.
Lemma settled_one b i : settled [(b, i)].
Proof.
  intros b'. unfold first_change, last_change. rewrite filter_cons. by destruct (decide _).
Qed.

(** Bob knows that alice, who has nothing, gets a block. *)
Definition nothing_yet (i : Addr) : t := register_local 1 (port_of 1) [] (create i v_0_8 None).
Definition one_block : t := (happen (Store carol) (nothing_yet alice)).2.
Definition one_told : t := (happen Broadcast one_block).2.
Definition one_heard : t := (happen (Changed alice (batch [(carol, true)])) (nothing_yet bob)).2.

Lemma book_follows_owner_witness : holds one_told alice carol = true /\
  forall b, holds one_heard alice b = holds one_told alice b.
Proof.
  split; [by vm_compute|]. intros b. apply (book_follows_owner (mkPair (nothing_yet alice) (nothing_yet bob) [])
    (mkPair one_told one_heard [])).
  - intros b'. unfold holds. rewrite !bool_decide_eq_false_2; [done|..]; cbn [follower owner nothing_yet
      register_local address_book emit_on fmap list_fmap list_to_set create]; set_solver.
  - by vm_compute.
  - done.
  - done.
  - apply (rtc_l _ _ (mkPair one_block (nothing_yet bob) [])).
    { apply (pair_changes (mkPair (nothing_yet alice) (nothing_yet bob) []) (Store carol));
        [exists carol; by left|by vm_compute|apply happened; by vm_compute]. }
    apply (rtc_l _ _ (mkPair one_told (nothing_yet bob) [batch [(carol, true)]])).
    { apply (pair_broadcasts (mkPair one_block (nothing_yet bob) []) one_told).
      - by split; [vm_compute|].
      - apply settled_one.
      - apply happened. by vm_compute.
      - reflexivity. }
    apply rtc_once.
    apply (pair_delivers (mkPair one_told (nothing_yet bob) [batch [(carol, true)]]) (batch [(carol, true)]) []).
    + done.
    + apply happened. by vm_compute.
  - done.
  - done.
Defined.
