(* ===== verification/KouncilGossip.v ===== *)
(** Telling each other of nodes (Kouncil.v, [_discover] and
    [_notify_observers]): nodes that learn something tell those they serve, who
    may learn it and tell theirs, and so on. *)

From stdpp Require Import base tactics option relations gmap list.
From Stdlib Require Import ZArith Lia.
From S2P Require Import Prelude Versions Buffers Streams Addresses Nodes Picks Kouncil KouncilProperties.
Open Scope Z_scope.
Import Kouncil.

(** ** Nodes that talk *)

(** What a node hears when another tells it of [p]: before 0.8.0 only where it
    is. [now] and [now'] are the clocks of both. *)
Definition told (s : t) (now now' : Z) (p : PeerInfo) : PeerInfo :=
  if since_0_8 s then received now' (sent now p) else of_location (location p).
Definition news_of (l : list action) : list PeerInfo :=
  omap (fun a => match a with NotifyObservers p => Some p | _ => None end) l.
Definition news (s s' : t) : list PeerInfo := news_of (drop (length (out s)) (out s')).

Record network := mkNetwork { node : Addr -> t; mail : list (Addr * list PeerInfo) }.
Definition set_node (d : Addr) (s : t) (f : Addr -> t) : Addr -> t :=
  fun i => if decide (i = d) then s else f i.

(** A message arrives, in any order, and what is learnt is told to every node
    that is served. *)
Inductive gossip_step (observers : Addr -> list Addr) : network -> network -> Prop :=
  gossip_hears f l1 d ps l2 s' now now' :
    discover_infos ps (f d) = (Ok tt, s') ->
    gossip_step observers (mkNetwork f (l1 ++ (d, ps) :: l2))
      (mkNetwork (set_node d s' f)
         (l1 ++ l2 ++ (p ← news (f d) s'; (fun o => (o, [told (f d) now now' p])) <$> observers d))).

(** ** What is left to learn *)

(** The stamps a node may still see for a node: all of them, or the newer
    ones. *)
Definition newer (stamps : list Z) (a : Z) : nat := length (filter (fun x => a < x) stamps).
Definition rank (stamps : list Z) (o : option PeerInfo) : nat :=
  match o with
  | None => S (length stamps)
  | Some p => newer stamps (stamp p)
  end.
Definition to_learn (stamps : list Z) (ids : list Addr) (s : t) : nat :=
  sum_list_with (fun i => rank stamps (infos s !! i)) ids.
Definition all_to_learn (stamps : list Z) (ids nodes : list Addr) (w : network) : nat :=
  sum_list_with (fun d => to_learn stamps ids (node w d)) nodes.

Lemma sum_le {X} (f g : X -> nat) l : (forall x, x ∈ l -> (f x <= g x)%nat) ->
  (sum_list_with f l <= sum_list_with g l)%nat.
Proof.
  induction l as [|x l IH]; intros H; [done|]. cbn.
  pose proof (H x ltac:(by left)). assert (sum_list_with f l <= sum_list_with g l)%nat.
  { apply IH. intros y Hy. apply H. by right. } lia.
Qed.

Lemma sum_drop {X} (f g : X -> nat) l x k : (forall y, y ∈ l -> (f y <= g y)%nat) -> x ∈ l ->
  (f x + k <= g x)%nat -> (sum_list_with f l + k <= sum_list_with g l)%nat.
Proof.
  induction l as [|y l IH]; intros H I K; [set_solver|]. cbn.
  assert (forall z, z ∈ l -> (f z <= g z)%nat) as H' by (intros z Hz; apply H; by right).
  apply elem_of_cons in I as [<-|I].
  - pose proof (sum_le f g l H'). lia.
  - pose proof (IH H' I K). pose proof (H y ltac:(by left)). lia.
Qed.

Lemma filter_lt (stamps : list Z) a b : a < b -> b ∈ stamps ->
  (S (newer stamps b) <= newer stamps a)%nat.
Proof.
  unfold newer. intros L. induction stamps as [|x l IH]; intros I; [set_solver|]. rewrite !filter_cons.
  assert (newer l b <= newer l a)%nat as M.
  { unfold newer. clear IH I. induction l as [|y l IH]; [done|]. rewrite !filter_cons.
    destruct (decide (b < y)), (decide (a < y)); cbn; lia. }
  unfold newer in M.
  apply elem_of_cons in I as [<-|I].
  - rewrite decide_False by lia. rewrite decide_True by lia. cbn. lia.
  - specialize (IH I). destruct (decide (b < x)), (decide (a < x)); cbn; lia.
Qed.

(** *** Hearing *)

Definition heard_ok (stamps : list Z) (ids : list Addr) (p : PeerInfo) : Prop :=
  id p <> null_addr /\ id p ∈ ids /\ stamp p ∈ stamps /\ stamp p <> -1.

Lemma discover_info_learns stamps ids p s : heard_ok stamps ids p ->
  exists s' l, discover_info p s = (Ok tt, s') /\ out s' = out s ++ l /\
    self s' = self s /\ dn_version s' = dn_version s /\ Forall (fun q => q = p) (news_of l) /\
    (to_learn stamps ids s' + length (news_of l) <= to_learn stamps ids s)%nat.
Proof.
  intros (N & Ii & Is & Nm). pose proof (discover_info_eq p s N) as E.
  destruct (match infos s !! id p with Some q => merge q p | None => (true, p) end)
    as [changed q] eqn:Em.
  assert (changed = true -> (rank stamps (Some q) + 1 <= rank stamps (infos s !! id p))%nat) as Less.
  { intros ->. destruct (infos s !! id p) as [q0|] eqn:E0.
    - pose proof (merge_spec q0 p) as M. rewrite Em in M. destruct M as (_ & _ & _ & _ & _ & Eq & L).
      cbn [rank]. rewrite Eq. destruct L as [L|L]; [|done]. pose proof (filter_lt stamps _ _ L Is). lia.
    - injection Em as <-. cbn [rank]. unfold newer.
      pose proof (length_filter (fun x => stamp p < x) stamps). lia. }
  assert (changed = false -> infos s !! id p = Some q) as Same.
  { intros ->. destruct (infos s !! id p) as [q0|] eqn:E0; [|done].
    pose proof (merge_spec q0 p) as M. rewrite Em in M. by destruct M as (_ & _ & _ & -> & _). }
  eexists. exists (if changed then (if negb (discovered (id p) s) then [Connect (location p)] else []) ++
     (if has_local s then [NotifyObservers p] else []) else []).
  split; [exact E|].
  assert (forall m, infos m = <[id p := q]> (infos s) -> forall k : nat, (k <= if changed then 1 else 0)%nat ->
    (to_learn stamps ids m + k <= to_learn stamps ids s)%nat) as Drop.
  { intros m Ei k Bk. unfold to_learn. rewrite Ei. apply (sum_drop _ _ _ (id p)); [|done|].
    - intros i _. destruct (decide (i = id p)) as [->|Ni]; [|by rewrite lookup_insert_ne].
      rewrite lookup_insert_eq. destruct changed; [specialize (Less eq_refl); lia|].
      by rewrite Same.
    - rewrite lookup_insert_eq. destruct changed; [specialize (Less eq_refl); lia|].
      rewrite Same by done. lia. }
  destruct changed; cbn [andb].
  - split; [destruct (has_local s), (discovered (id p) s); cbn; by rewrite <- ?app_assoc, ?app_nil_r|].
    split; [by destruct (has_local s), (discovered (id p) s)|].
    split; [by destruct (has_local s), (discovered (id p) s)|].
    split; [destruct (has_local s), (discovered (id p) s); repeat constructor|].
    apply Drop; [by destruct (has_local s), (discovered (id p) s)|].
    destruct (has_local s), (discovered (id p) s); cbn; lia.
  - split; [by rewrite app_nil_r|]. split; [done|]. split; [done|]. split; [constructor|].
    by apply Drop.
Qed.

Lemma news_app l l' : news_of (l ++ l') = news_of l ++ news_of l'.
Proof. apply omap_app. Qed.

Lemma discover_infos_learns stamps ids ps : forall s, Forall (heard_ok stamps ids) ps ->
  exists s' l, discover_infos ps s = (Ok tt, s') /\ out s' = out s ++ l /\
    dn_version s' = dn_version s /\ Forall (fun q => q ∈ ps) (news_of l) /\
    (to_learn stamps ids s' + length (news_of l) <= to_learn stamps ids s)%nat.
Proof.
  induction ps as [|p ps IH]; intros s F; cbn [discover_infos].
  { exists s, []. rewrite app_nil_r. cbn. split_and!; [done..|constructor|lia]. }
  apply Forall_cons in F as [Fp F]. rewrite bind_read.
  destruct (bool_decide (id p = self s)); cbn [negb when].
  - destruct (IH s F) as (s' & l & E & Eo & Ev & Fn & L). exists s', l.
    split; [done|]. split; [done|]. split; [done|]. split; [|done].
    eapply Forall_impl; [exact Fn|]. intros q Q. by right.
  - destruct (discover_info_learns stamps ids p s Fp) as (s1 & l1 & E1 & Eo1 & _ & Ev1 & Fn1 & L1).
    destruct (IH s1 F) as (s' & l & E & Eo & Ev & Fn & L). exists s', (l1 ++ l).
    rewrite (bind_Ok _ _ _ _ _ E1). split; [done|]. split; [by rewrite Eo, Eo1, app_assoc|].
    split; [congruence|]. rewrite news_app, length_app. split; [|lia]. apply Forall_app. split.
    + eapply Forall_impl; [exact Fn1|]. intros q ->. by left.
    + eapply Forall_impl; [exact Fn|]. intros q Q. by right.
Qed.

Lemma news_spec s s' l : out s' = out s ++ l -> news s s' = news_of l.
Proof. intros E. unfold news. by rewrite E, drop_app_length. Qed.

Lemma told_ok stamps ids s now now' p : since_0_8 s = true -> heard_ok stamps ids p ->
  heard_ok stamps ids (told s now now' p).
Proof. unfold told. by intros ->. Qed.

(** *** Networks *)

Section Gossip.
Variables (stamps : list Z) (ids nodes : list Addr) (observers : Addr -> list Addr) (most : nat).
Hypothesis served : forall d, d ∈ nodes -> (length (observers d) <= most)%nat /\ Forall (fun o => o ∈ nodes) (observers d).

(** Messages are to the nodes, about nodes, with the stamps they gave. *)
Definition network_ok (w : network) : Prop :=
  Forall (fun m => m.1 ∈ nodes /\ Forall (heard_ok stamps ids) m.2) (mail w) /\
  forall d, since_0_8 (node w d) = true.

Definition left (w : network) : nat :=
  (all_to_learn stamps ids nodes w * (most + 1) + length (mail w))%nat.

Lemma tell_length {X} (l : list PeerInfo) (os : list Addr) (f : PeerInfo -> X) :
  (length os <= most)%nat ->
  (length (p ← l; (fun o => (o, [f p])) <$> os) <= length l * most)%nat.
Proof.
  intros L. unfold mbind. induction l as [|p l IH]; [done|]. cbn.
  rewrite length_app, length_fmap. lia.
Qed.

Lemma gossip_step_left w w' : network_ok w -> gossip_step observers w w' ->
  network_ok w' /\ (left w' < left w)%nat.
Proof.
  intros [Fm V] St. destruct St as [f l1 d ps l2 s' now now' E]. cbn [node mail] in *.
  apply Forall_app in Fm as [F1 [[Hd Fp] F2]%Forall_cons]. cbn in Hd, Fp.
  destruct (discover_infos_learns stamps ids ps (f d) Fp) as (s1 & l & E1 & Eo & Ev & Fn & L).
  rewrite E in E1. injection E1 as <-. rewrite (news_spec _ _ _ Eo).
  destruct (served d Hd) as [Lo Fo]. split; [split|].
  - cbn. apply Forall_app. split; [done|]. apply Forall_app. split; [done|].
    rewrite Forall_forall in Fo. rewrite Forall_forall in Fp. rewrite Forall_forall in Fn.
    rewrite Forall_forall. intros [o qs]. rewrite list_elem_of_bind.
    intros (p & (o' & [= -> ->] & Io)%list_elem_of_fmap & Ip). cbn.
    split; [by apply Fo|]. apply Forall_singleton. apply told_ok; [apply V|].
    by apply Fp, Fn.
  - intros i. cbn. unfold set_node. destruct (decide (i = d)) as [->|]; [|apply V].
    unfold since_0_8. rewrite Ev. apply V.
  - unfold left, all_to_learn. cbn [node mail]. rewrite !length_app. cbn [length].
    pose proof (tell_length (news_of l) (observers d) (told (f d) now now') Lo).
    assert (sum_list_with (fun i => to_learn stamps ids (set_node d s' f i)) nodes + length (news_of l)
            <= sum_list_with (fun i => to_learn stamps ids (f i)) nodes)%nat as D.
    { apply (sum_drop _ _ _ d); [|done|].
      - intros i _. unfold set_node. destruct (decide (i = d)) as [->|]; lia.
      - unfold set_node. rewrite decide_True by done. done. }
    nia.
Qed.
End Gossip.

(** C26. Talking ends: when the stamps are those nodes gave when they started, a
    network whose nodes serve at most [most] others, and hear of nothing else,
    goes quiet after a bounded number of messages, whatever the order in which
    they arrive; and until then every message can be heard. *)
Theorem gossip_ends stamps ids nodes observers most n w w' :
  (forall d, d ∈ nodes -> (length (observers d) <= most)%nat /\ Forall (fun o => o ∈ nodes) (observers d)) ->
  network_ok stamps ids nodes w -> nsteps (gossip_step observers) n w w' ->
  (n <= all_to_learn stamps ids nodes w * (most + 1) + length (mail w))%nat /\
  (mail w' <> [] -> exists w'', gossip_step observers w' w'').
Proof.
  intros Sv O R. assert (network_ok stamps ids nodes w' /\
    (n + left stamps ids nodes most w' <= left stamps ids nodes most w)%nat) as [O' L].
  { induction R as [w|n w1 w2 w3 St R IH]; [split; [done|lia]|].
    destruct (gossip_step_left stamps ids nodes observers most Sv w1 w2 O St) as [O2 L2].
    destruct (IH O2) as [O3 L3]. split; [done|lia]. }
  split; [unfold left in L; lia|]. destruct w' as [f ml]. destruct O' as [F V]. cbn in *.
  destruct ml as [|[d ps] ml]; [done|]. intros _. apply Forall_cons in F as [[_ Fp] _].
  destruct (discover_infos_learns stamps ids ps (f d) Fp) as (s' & l & E & _).
  eexists. by apply (gossip_hears observers f [] d ps ml s' 0 0).
Qed.

(** ** Before 0.8.0 *)

Definition rumour (i : Addr) (e : Endpoints.t) : PeerInfo := of_location (mkLocation i e).

(** A server that believes a node elsewhere. *)
Definition believes (s : t) (a i : Addr) (e : Endpoints.t) : Prop :=
  self s = a /\ has_local s = true /\ since_0_8 s = false /\
  exists p, infos s !! i = Some p /\ endpoints p = e.

Lemma rumour_spreads s a i e e' : believes s a i e -> e <> e' -> i <> null_addr -> i <> a ->
  exists s', discover_infos [rumour i e'] s = (Ok tt, s') /\ believes s' a i e' /\
    news s s' = [rumour i e'].
Proof.
  intros (Es & L & V & p & Ep & Ee) Ne Nn Na. cbn [discover_infos].
  rewrite bind_read, bool_decide_eq_false_2 by (cbn; congruence). cbn [negb when].
  assert (merge p (rumour i e') = (true, set_info_endpoints e' (-1) p)) as Mg.
  { unfold merge. cbn. by rewrite orb_true_r, bool_decide_eq_false_2 by congruence. }
  pose proof (discover_info_eq (rumour i e') s Nn) as E. change (id (rumour i e')) with i in E.
  rewrite Ep, Mg, L in E. cbn [andb] in E. rewrite (bind_Ok _ _ _ _ _ E). eexists. split; [reflexivity|]. split.
  - split; [by destruct (discovered i s)|]. split; [by destruct (discovered i s)|].
    split; [by destruct (discovered i s)|]. exists (set_info_endpoints e' (-1) p).
    split; [|done]. destruct (discovered i s); cbn; by rewrite lookup_insert_eq.
  - destruct (discovered i s); cbn [negb];
      [apply (news_spec _ _ [NotifyObservers (rumour i e')])|
       apply (news_spec _ _ [Connect (location (rumour i e')); NotifyObservers (rumour i e')])];
      cbn; by rewrite <- ?app_assoc.
Qed.

(** Before 0.8.0 nothing tells which of two locations is the newest, and each
    node believes the last it heard. Two servers that tell each other the
    location the other one has exchange them, and tell each other again, for
    ever. *)
Theorem gossip_livelock observers i n : forall f a b ea eb,
  a <> b -> i <> null_addr -> i <> a -> i <> b -> ea <> eb ->
  believes (f a) a i ea -> believes (f b) b i eb -> observers a = [b] -> observers b = [a] ->
  exists w, nsteps (gossip_step observers) n
    (mkNetwork f [(a, [rumour i eb]); (b, [rumour i ea])]) w /\ mail w <> [].
Proof.
  induction n as [n IH] using lt_wf_ind. intros f a b ea eb Nab Nn Na Nb Ne Ba Bb Oa Ob.
  destruct n as [|n]; [by eexists; split; [constructor|]|].
  destruct (rumour_spreads (f a) a i ea eb Ba Ne Nn Na) as (sa & Ea & Ba' & Wa).
  pose proof (gossip_hears observers f [] a [rumour i eb] [(b, [rumour i ea])] sa 0 0 Ea) as S1.
  rewrite Wa, Oa in S1. cbn in S1. unfold told in S1. destruct Ba as (Es & L & V & R).
  rewrite V in S1. set (f1 := set_node a sa f) in *.
  assert (believes (f1 b) b i eb) as Bb1 by (unfold f1, set_node; by rewrite decide_False).
  destruct n as [|n]; [eexists; split; [econstructor; [exact S1|constructor]|done]|].
  destruct (rumour_spreads (f1 b) b i eb ea Bb1 ltac:(congruence) Nn Nb) as (sb & Eb & Bb' & Wb).
  pose proof (gossip_hears observers f1 [] b [rumour i ea] [(b, [rumour i eb])] sb 0 0 Eb) as S2.
  rewrite Wb, Ob in S2. cbn in S2. unfold told in S2. destruct Bb1 as (Es1 & L1 & V1 & R1).
  rewrite V1 in S2. set (f2 := set_node b sb f1) in *.
  destruct (IH n ltac:(lia) f2 b a ea eb) as (w & Sn & M); try done.
  - unfold f2, set_node. by rewrite decide_True.
  - unfold f2, f1, set_node. by rewrite decide_False, decide_True.
  - exists w. split; [|done]. econstructor; [exact S1|]. econstructor; [exact S2|]. exact Sn.
Qed.

(** ** Stamps *)

(** A node that gives the same location again, later, is not given the new
    stamp: if news of another location, of between the two, comes last, it is
    believed, and if it comes first it is not. *)
Theorem newest_location_is_lost s i p e' s1 s2 : i <> null_addr -> i <> self s ->
  infos s !! i = Some p -> e' <> endpoints p -> 0 <= stamp p < s1 -> s1 < s2 ->
  let newest := mkInfo i (endpoints p) s2 LamportAge.null None in
  let between := mkInfo i e' s1 LamportAge.null None in
  (exists s' q, discover_infos [newest; between] s = (Ok tt, s') /\
     infos s' !! i = Some q /\ endpoints q = e') /\
  (exists s' q, discover_infos [between; newest] s = (Ok tt, s') /\
     infos s' !! i = Some q /\ endpoints q = endpoints p).
Proof.
  intros Nn Ns Ep Ne B1 B2 newest between.
  assert (forall q st, id q = i -> self st = self s -> forall r, infos st !! i = Some r ->
    exists st', (st0 ← Prelude.read; when (negb (bool_decide (id q = self st0))) (discover_info q)) st
      = (Ok tt, st') /\ self st' = self s /\ infos st' !! i = Some (merge r q).2) as Hear.
  { intros q st Iq Es r Er. rewrite bind_read, bool_decide_eq_false_2 by congruence. cbn [negb when].
    pose proof (discover_info_eq q st ltac:(congruence)) as E. rewrite Iq, Er in E.
    destruct (merge r q) as [changed x]. eexists. split; [exact E|]. split.
    - destruct changed, (has_local st), (discovered i st); done.
    - destruct changed, (has_local st), (discovered i st); cbn; by rewrite lookup_insert_eq. }
  assert (forall q q', id q = i -> id q' = i -> exists st', discover_infos [q; q'] s = (Ok tt, st') /\
    infos st' !! i = Some (merge (merge p q).2 q').2) as Both.
  { intros q q' Iq Iq'. destruct (Hear q s Iq eq_refl p Ep) as (st1 & E1 & S1 & I1).
    destruct (Hear q' st1 Iq' S1 _ I1) as (st2 & E2 & S2 & I2). exists st2. split; [|done].
    cbn [discover_infos]. rewrite <- bind_assoc, (bind_Ok _ _ _ _ _ E1).
    by rewrite <- bind_assoc, (bind_Ok _ _ _ _ _ E2). }
  assert (merge p newest = (false, p)) as M1.
  { unfold merge. cbn. by rewrite (bool_decide_eq_true_2 (endpoints p = endpoints p)), andb_false_r. }
  assert (merge p between = (true, set_info_endpoints e' s1 p)) as M2.
  { unfold merge. cbn. rewrite bool_decide_eq_false_2 by congruence.
    by rewrite (proj2 (Z.ltb_lt _ _)) by lia. }
  assert (merge (set_info_endpoints e' s1 p) newest =
    (true, set_info_endpoints (endpoints p) s2 (set_info_endpoints e' s1 p))) as M3.
  { unfold merge. cbn. rewrite bool_decide_eq_false_2 by congruence.
    by rewrite (proj2 (Z.ltb_lt _ _)) by lia. }
  split.
  - destruct (Both newest between eq_refl eq_refl) as (s' & E & I). exists s'.
    rewrite M1 in I. cbn [snd] in I. rewrite M2 in I. by eexists.
  - destruct (Both between newest eq_refl eq_refl) as (s' & E & I). exists s'.
    rewrite M2 in I. cbn [snd] in I. rewrite M3 in I. by eexists.
Qed.

(** ** Witnesses *)

(** Servers that know carol. *)
Definition knowing (v : Version.t) (i : Addr) (st : Z) (k : Z) : t :=
  set_infos (<[carol := mkInfo carol (port_of k) st LamportAge.null None]> (infos (server v i)))
    (server v i).
Definition each_other (i : Addr) : list Addr :=
  if decide (i = alice) then [bob] else if decide (i = bob) then [alice] else [].

(** Alice hears of carol and tells bob. *)
Definition two_nodes (i : Addr) : t := server v_0_8 i.
Definition carol_speaks : network :=
  mkNetwork two_nodes [(alice, [mkInfo carol (port_of 3) 5 LamportAge.null None])].

Lemma gossip_ends_witness :
  network_ok [5] [alice; bob; carol] [alice; bob] carol_speaks /\
  forall n w', nsteps (gossip_step each_other) n carol_speaks w' -> (n <= 21)%nat.
Proof.
  assert (network_ok [5] [alice; bob; carol] [alice; bob] carol_speaks) as O.
  { split; [|done]. apply Forall_singleton. split; [left|]. apply Forall_singleton.
    split; [done|]. split; [right; right; left|]. by split; [left|]. }
  split; [exact O|]. intros n w' R.
  destruct (gossip_ends [5] [alice; bob; carol] [alice; bob] each_other 1 n carol_speaks w') as [L _];
    [|exact O|exact R|].
  - intros d [->|[->|[]%not_elem_of_nil]%elem_of_cons]%elem_of_cons; (split; [apply le_n|]);
      apply Forall_singleton; [right; left|left].
  - vm_compute in L. vm_compute. exact L.
Defined.

(** Before 0.8.0, alice and bob disagree on carol. *)
Definition disagreeing (i : Addr) : t := knowing v_0_7 i (-1) (if decide (i = alice) then 3 else 4).

Lemma gossip_livelock_witness :
  forall n, exists w, nsteps (gossip_step each_other) n
    (mkNetwork disagreeing [(alice, [rumour carol (port_of 4)]); (bob, [rumour carol (port_of 3)])]) w /\
    mail w <> [].
Proof.
  intros n. apply (gossip_livelock each_other carol n disagreeing alice bob (port_of 3) (port_of 4)).
  1, 2, 3, 4: by apply key_ne; vm_compute.
  - by intros E%port_of_inj.
  - split; [done|]. split; [done|]. split; [done|].
    exists (mkInfo carol (port_of 3) (-1) LamportAge.null None). split; [|done].
    by apply lookup_insert_eq.
  - split; [done|]. split; [done|]. split; [done|].
    exists (mkInfo carol (port_of 4) (-1) LamportAge.null None). split; [|done].
    unfold disagreeing, knowing. cbn [infos set_infos]. rewrite lookup_insert_eq. by vm_compute.
  - by vm_compute.
  - by vm_compute.
Defined.

Lemma newest_location_is_lost_witness :
  (exists s' q, discover_infos [mkInfo carol (port_of 3) 10 LamportAge.null None;
       mkInfo carol (port_of 4) 7 LamportAge.null None] (knowing v_0_8 alice 5 3) = (Ok tt, s') /\
     infos s' !! carol = Some q /\ endpoints q = port_of 4).
Proof.
  apply (newest_location_is_lost (knowing v_0_8 alice 5 3) carol
    (mkInfo carol (port_of 3) 5 LamportAge.null None) (port_of 4) 7 10).
  - by apply key_ne; vm_compute.
  - by apply key_ne; vm_compute.
  - by apply lookup_insert_eq.
  - by intros E%port_of_inj.
  - cbn. lia.
  - lia.
Defined.
