(* ===== verification/Groups.v ===== *)
(** Groups: memo/model/doughnut/GB.cc, and the part of Group.cc that edits the
    block of a group.

    The block of a group is an ACB. Its data are the keys of the group, which
    its members read; a member who leaves makes a new key, and the old ones
    stay, for what was shared with the group before. An administrator is given
    the key of the owner of the block, which edits it. *)

From stdpp Require Import base tactics option list.
From Stdlib Require Import ZArith Lia.
From S2P Require Import Prelude Versions Buffers Streams Addresses Binary Nodes Signatures Blocks.
Open Scope Z_scope.

Module Groups.

Import Signatures Blocks.

Inductive error :=
  | OfBlock (e : Blocks.error)
  | Unreadable (e : Binary.error)    (* of what is deserialized *)
  | NoSuchAdmin
  | NoDescription                    (* before 0.8.0 *)
  | NotAdmin                         (* You are not a group admin *)
  | MissingBlock
  | NullPointer
  | AssertError.

(** GB: [_public_keys], [_admin_keys] and [_description] are the [part] of the
    ACB; [_keys] are the keys of the group, when they were decrypted. *)
Record gb {K P : Type} := mkGB {
  acb_of : acb K P;
  keys_ : list P
}.
Arguments gb K P : clear implicits.

(** GroupConflictResolver: a user is a key, and its name of which the first
    character counts. *)
Inductive action := add_member | remove_member | add_admin | remove_admin | set_description.
Record resolver {K : Type} := mkResolver {
  action_ : action;
  key_ : option K;
  name_ : option initial;
  description_ : option bytes
}.
Arguments resolver K : clear implicits.

Section Groups.
Context {K P : Type} `{EqDecision K} `{EqDecision P} `{Crypto K P}.
(** How KeyPair and PrivateKey are serialized, and how a map orders keys. *)
Context (pair_format private_format : Binary.format P) (before : K -> K -> bool).
Context (dn : doughnut K P).

Implicit Types (g : gb K P).

Definition group_block_key : bytes := [103; 114; 111; 117; 112].    (* "group" *)

(** binary::serialize and binary::deserialize, of the keys and of a key. *)
Definition serialize_keys (ks : list P) : bytes :=
  Binary.write_magic ++ Binary.put (Binary.vector pair_format) ks.
Definition deserialize_keys (d : bytes) : result Binary.error (list P) :=
  ((Binary.check_magic;; Binary.get (Binary.vector pair_format) []) d).1.
Definition serialize_private (p : P) : bytes :=
  Binary.write_magic ++ Binary.put private_format p.
Definition deserialize_private (d : bytes) : result Binary.error P :=
  ((Binary.check_magic;; Binary.get private_format []) d).1.

(** *** Fields *)

Definition part_of g : group_part K := default (mkPart _ [] [] None) (part (acb_of g)).
Definition set_keys (ks : list P) g : gb K P := mkGB _ _ (acb_of g) ks.
Definition upd_acb (f : acb K P -> acb K P) g : gb K P := mkGB _ _ (f (acb_of g)) (keys_ g).
Definition upd_part (f : group_part K -> group_part K) g : gb K P :=
  upd_acb (set_part (Some (f (part_of g)))) g.
Definition set_public (l : list K) (pt : group_part K) : group_part K :=
  mkPart _ l (admin_keys pt) (description pt).
Definition set_admins (l : list (K * bytes)) (pt : group_part K) : group_part K :=
  mkPart _ (public_keys pt) l (description pt).
Definition describe (d : option bytes) (pt : group_part K) : group_part K :=
  mkPart _ (public_keys pt) (admin_keys pt) d.
Definition set_owner_private (p : P) (o : okb K P) : okb K P :=
  mkOKB _ _ (address o) (data o) (validated o) (data_changed o) (salt o) (owner_key o) (version o)
    (signature o) (Some p) (data_plain o) (data_decrypted o) (next_seal_version o).

Abbreviation gb_method := (method (gb K P) error).

Definition on_acb {X} (m : method (acb K P) Blocks.error X) : gb_method X :=
  fun g => let '(r, b) := m (acb_of g) in
           (match r with Ok x => Ok x | Throw e => Throw (OfBlock e) end, upd_acb (fun _ => b) g).

(** The data of the block, as they are read and changed. *)
Definition data : gb_method bytes :=
  on_acb (fun b => on_okb (okb_data (fun o => decrypt_acb dn (upd_okb (fun _ => o) b))) b).
Definition set_data (d : bytes) : gb_method unit := modify (upd_acb (upd_okb (okb_set_data d))).
Definition mark_acl : gb_method unit := modify (upd_acb (set_acl_changed true)).

(** *** Administrators, in the order of the map *)

Definition find_admin (k : K) (l : list (K * bytes)) : option bytes :=
  snd <$> head (filter (fun a => a.1 = k) l).
Fixpoint emplace_admin (k : K) (t : bytes) (l : list (K * bytes)) : list (K * bytes) :=
  match l with
  | [] => [(k, t)]
  | a :: l' => if before k a.1 then (k, t) :: l else a :: emplace_admin k t l'
  end.
Definition erase_admin (k : K) (l : list (K * bytes)) : list (K * bytes) :=
  filter (fun a => a.1 <> k) l.

(** *** Construction *)

(** The constructor, with the key of the owner and the first key of the group,
    which are generated. *)
Definition make_gb (master first : P) : result error unit * gb K P :=
  (set_data (serialize_keys [first]);;
   mark_acl;;
   on_acb (set_permissions (K_ dn) true false))
    (mkGB _ _
       (set_part (Some (mkPart _ [public first]
            [(K_ dn, encrypt false (K_ dn) (serialize_private master))] None))
          (make_acb dn [] group_block_key master))
       [first]).

(** The constructor from a serialization of version [v]: an administrator
    finds the key of the owner. *)
Definition received_gb (v : Version.t) g : result error (gb K P) :=
  let b := received dn v (acb_of g) in
  match find_admin (K_ dn) (admin_keys (part_of g)) with
  | None => Ok (mkGB _ _ b [])
  | Some t =>
      match decrypt false (keys dn) t with
      | None => Throw (OfBlock CryptoError)
      | Some d =>
          match deserialize_private d with
          | Throw e => Throw (Unreadable e)
          | Ok p => Ok (mkGB _ _ (upd_okb (set_owner_private p) b) [])
          end
      end
  end.

Definition clone g : gb K P := mkGB _ _ (Blocks.clone (acb_of g)) [].

(** *** Keys *)

Definition extract_keys : gb_method unit :=
  d ← data;
  match deserialize_keys d with
  | Ok ks => modify (set_keys ks)
  | Throw e => throw (Unreadable e)
  end.
Definition all_keys : gb_method (list P) :=
  g ← Prelude.read;
  when (bool_decide (keys_ g = [])) extract_keys;;
  reads keys_.
(** The last of no key is not defined. *)
Definition current_key : gb_method P :=
  ks ← all_keys;
  match last ks with Some p => mret p | None => throw NullPointer end.
Definition all_public_keys g : list K := public_keys (part_of g).
Definition current_public_key g : option K := last (all_public_keys g).
Definition group_version g : Z := wrap_s 32 (Z.of_nat (length (all_public_keys g))).

(** What an ACB asks of a group that it is shared with. *)
Definition info g : group_info K P :=
  mkGroup _ _ (all_public_keys g)
    (match (all_keys g).1 with Ok ks => Some ks | Throw _ => None end).

(** *** Members and administrators *)

Definition add_member_ (k : K) (name : initial) : gb_method unit :=
  on_acb (set_user_permissions dn k name true false);;
  mark_acl.

(** [new] is the key that is generated. *)
Definition remove_member_ (new : P) (k : K) (name : initial) : gb_method unit :=
  on_acb (set_user_permissions dn k name false false);;
  mark_acl;;
  extract_keys;;
  modify (fun g => upd_part (set_public (all_public_keys g ++ [public new])) g);;
  modify (fun g => set_keys (keys_ g ++ [new]) g);;
  g ← Prelude.read;
  set_data (serialize_keys (keys_ g)).

Definition add_admin_ (k : K) : gb_method unit :=
  g ← Prelude.read;
  match find_admin k (admin_keys (part_of g)) with
  | Some _ => mret tt
  | None =>
      match owner_private_key (okb_of (acb_of g)) with
      | None => throw NullPointer
      | Some p =>
          modify (fun g => upd_part (set_admins
            (emplace_admin k (encrypt false k (serialize_private p)) (admin_keys (part_of g)))) g);;
          mark_acl
      end
  end.

Definition remove_admin_ (k : K) : gb_method unit :=
  g ← Prelude.read;
  match find_admin k (admin_keys (part_of g)) with
  | None => throw NoSuchAdmin
  | Some _ =>
      modify (fun g => upd_part (set_admins (erase_admin k (admin_keys (part_of g)))) g);;
      mark_acl
  end.

Definition list_admins g : list K := (admin_keys (part_of g)).*1.

Definition control_key g : option P := owner_private_key (okb_of (acb_of g)).

Definition get_description g : result error (option bytes) :=
  if Version.ltb (dn_version dn) v_0_8 then Throw NoDescription
  else Ok (description (part_of g)).
Definition set_description_ (d : option bytes) : gb_method unit :=
  if Version.ltb (dn_version dn) v_0_8 then throw NoDescription
  else modify (upd_part (describe d));; mark_acl.

(** *** Group *)

Definition seal_gb (env : bool) (secret : bytes) : gb_method unit :=
  on_acb (seal dn env None secret).

(** The switch of GroupConflictResolver::operator (), on the copy. *)
Definition perform (new : P) (r : resolver K) : gb_method unit :=
  user ← (match name_ r, key_ r with
          | None, _ => mret None
          | Some n, Some k => mret (Some (k, n))
          | Some _, None => throw NullPointer
          end);
  match action_ r, user with
  | set_description, None => set_description_ (description_ r)
  | set_description, Some _ => throw AssertError
  | _, None => throw AssertError
  | add_member, Some (k, n) => add_member_ k n
  | remove_member, Some (k, n) => remove_member_ new k n
  | add_admin, Some (k, _) => add_admin_ k
  | remove_admin, Some (k, _) => remove_admin_ k
  end.
Definition replay (new : P) (r : resolver K) (current : gb K P) : result error unit * gb K P :=
  perform new r (clone current).

(** The constructors of a resolver, of a user and of a description. *)
Definition of_user (a : action) (k : K) (n : initial) : result error (resolver K) :=
  match a with
  | set_description => Throw AssertError
  | _ => Ok (mkResolver _ a (Some k) (Some n) None)
  end.
Definition of_description (a : action) (d : option bytes) : result error (resolver K) :=
  match a with
  | set_description => Ok (mkResolver _ a None None d)
  | _ => Throw AssertError
  end.

(** Group::add_member and the like: the block is edited and sealed, and a copy
    of it is stored with the resolver. *)
Definition edit_user (a : action) (env : bool) (secret : bytes) (new : P) (k : K) (n : initial) :
    gb_method (gb K P * resolver K) :=
  match a with
  | add_member => add_member_ k n
  | remove_member => remove_member_ new k n
  | add_admin => add_admin_ k
  | remove_admin => remove_admin_ k
  | set_description => throw AssertError
  end;;
  r ← lift (of_user a k n);
  seal_gb env secret;;
  g ← Prelude.read;
  mret (clone g, r).
Definition edit_description (env : bool) (secret : bytes) (d : option bytes) :
    gb_method (gb K P * resolver K) :=
  set_description_ d;;
  r ← lift (of_description set_description d);
  seal_gb env secret;;
  g ← Prelude.read;
  mret (clone g, r).

(** Group::block: the block is where its version, or one before 0.5.0, puts it.
    [fetch] is the Doughnut's. *)
Definition block (fetch : Address.t -> result error (gb K P)) (k : K) : result error (gb K P) :=
  match fetch (hash_address k group_block_key (dn_version dn)) with
  | Throw MissingBlock =>
      match fetch (hash_address k group_block_key v_0_4) with
      | Throw MissingBlock => Throw MissingBlock
      | r => r
      end
  | r => r
  end.

(** What an ACB sees of the group [k]. *)
Definition fetch_group (fetch : Address.t -> result error (gb K P)) (k : K) :
    option (group_info K P) :=
  match block fetch k with Ok g => Some (info g) | Throw _ => None end.

Definition _control_key (g : gb K P) : result error P :=
  match control_key g with Some p => Ok p | None => Throw NotAdmin end.
End Groups.
End Groups.
