(* ===== verification/GroupProperties.v ===== *)
(** What the operations of a group keep: who may read the keys of the group can,
    and who is its administrator has the key of its owner. *)

From stdpp Require Import base tactics option list relations.
From Stdlib Require Import ZArith Lia.
From S2P Require Import Prelude Versions Buffers Streams Addresses Binary Nodes Signatures Blocks BlockProperties Groups.
Import Signatures Blocks Groups.
Open Scope Z_scope.

(** *** What a seal leaves as it is *)

Section Frame.
Context {K P : Type} `{EqDecision K} `{EqDecision P} `{!Crypto K P} `{!LawfulCrypto K P}.
Context (dn : doughnut K P).
Implicit Types (b : acb K P).

Definition frame b := (lists b, identity (okb_of b), data_decrypted (okb_of b)).

Lemma seal_acl_frame c f b b' : seal_acl dn c b = (Ok f, b') -> frame b' = frame b /\
  acl_changed b' = false /\ data_changed (okb_of b') = data_changed (okb_of b).
Proof.
  unfold seal_acl, seal_owner, seal_okb, owner_signs, on_okb. rewrite bind_read.
  unfold mbind, method_bind, modify, when, Prelude.read, throw, mret, method_ret. cbn.
  destruct (owner_private_key (okb_of b)) as [p|]; cbn; [|done].
  by destruct (validate_signatures dn), c; cbn; intros [= <- <-].
Qed.

Lemma seal_data_frame env secret f b g b' : seal_data dn env secret f b = (Ok g, b') ->
  frame b' = frame b /\ acl_changed b' = acl_changed b /\ data_changed (okb_of b') = false.
Proof.
  intros E. destruct (seal_data_spec dn env secret f b) as (b1 & E1 & Kp & _ & _ & A & D).
  rewrite E1 in E. assert (b1 = b') as -> by congruence. clear E. split; [|done].
  destruct Kp as [I L]. unfold frame. rewrite I, L. f_equal.
  revert E1. unfold seal_data, modify, Prelude.read, mbind, method_bind, mret, method_ret. cbn.
  destruct (group_tokens _ _ _ _ _). by intros [= <-].
Qed.

Lemma sign_data_frame f b b' : sign_data dn f b = (Ok tt, b') ->
  frame b' = frame b /\ acl_changed b' = acl_changed b /\ okb_of b' = okb_of b.
Proof.
  intros E. destruct (sign_data_spec _ _ _ _ E) as (Kp & O & A & _).
  destruct Kp as [_ L]. unfold frame. by rewrite L, O.
Qed.

Lemma restart_frame b b' : restart_signatures dn b = (Ok tt, b') -> frame b' = frame b /\
  acl_changed b' = acl_changed b /\ data_changed (okb_of b') = data_changed (okb_of b).
Proof.
  unfold restart_signatures, seal_owner, seal_okb, on_okb. rewrite bind_read. intros E.
  apply bind_Ok_inv in E as ([] & b1 & E1 & E2). rewrite bind_read in E2.
  assert (frame b1 = frame b /\ acl_changed b1 = acl_changed b /\
    data_changed (okb_of b1) = data_changed (okb_of b)) as (<- & <- & <-).
  { unfold modify, throw, mret, method_ret in E1.
    destruct (validate_signatures dn && bool_decide (data_signature b = [])); [|by simplify_eq/=].
    by destruct (sign_key b); simplify_eq/=. }
  unfold when, modify, Prelude.read, mbind, method_bind, throw, mret, method_ret in E2.
  destruct (validate_signatures dn && bool_decide (signature (okb_of b1) = []));
    [|by simplify_eq/=]. cbn in E2.
  destruct (owner_private_key _); [|done]. cbn in E2.
  by destruct (validate_signatures dn); simplify_eq/=.
Qed.

Lemma seal_frame env v secret b b' : no_admins dn -> seal dn env v secret b = (Ok tt, b') ->
  frame b' = frame b /\ acl_changed b' = false /\ data_changed (okb_of b') = false.
Proof.
  intros NA E. unfold seal in E. destruct (asked_version_spec v b) as (v' & b1 & E1 & B1).
  rewrite (bind_Ok _ _ _ _ _ E1), (bind_Ok _ _ _ _ _ (nothing_enforced dn b1 NA)), bind_read in E.
  assert (frame b1 = frame b) as <- by (by destruct B1 as [->| ->]). clear E1 B1.
  bind_inv E. rename s into b2. bind_inv H0. rename s into b3.
  assert (frame b2 = frame b1 /\ acl_changed b2 = false /\
    data_changed (okb_of b2) = data_changed (okb_of b1)) as (F2 & A2 & D2).
  { destruct (acl_changed b1) eqn:A; [by eapply seal_acl_frame|by injection H as _ <-]. }
  assert (frame b3 = frame b1 /\ acl_changed b3 = false /\ data_changed (okb_of b3) = false)
    as (F3 & A3 & D3).
  { destruct (data_changed (okb_of b1)).
    - apply seal_data_frame in H1 as (-> & -> & ->). done.
    - injection H1 as _ <-. done. }
  bind_inv H2. destruct a1 as []. destruct (restart_frame _ _ H3) as (-> & -> & ->).
  destruct (acl_changed b1 || data_changed (okb_of b1) || bool_decide (is_Some v')).
  - apply bind_Ok_inv in H0 as ([] & b4 & E4 & H0).
    assert (frame b4 = frame b3 /\ acl_changed b4 = acl_changed b3 /\ okb_of b4 = okb_of b3)
      as (F4 & A4 & O4) by (by destruct v'; injection E4 as <-).
    destruct (sign_data_frame _ _ _ H0) as (-> & -> & ->). rewrite F4, A4, O4. done.
  - injection H0 as <-. done.
Qed.
End Frame.

(** *** The keys of a group *)

Section Held.
Context {K P : Type} `{EqDecision K} `{EqDecision P} `{!Crypto K P} `{!LawfulCrypto K P}.
Context (pair_format private_format : Binary.format P) (before : K -> K -> bool).

(** What is encrypted is not empty. *)
Hypothesis encrypt_something : forall enc (k : K) s, encrypt (P := P) enc k s <> [].
Hypothesis encipher_something : forall s d, s <> [] -> encipher (K := K) (P := P) s d <> [].

Implicit Types (b : acb K P) (g : gb K P) (dn : doughnut K P) (ks : list P).

Abbreviation ser := (serialize_keys pair_format).
Abbreviation fits_keys := (Binary.fits (Binary.vector pair_format)).

Lemma keys_round_trip ks : fits_keys ks -> deserialize_keys pair_format (ser ks) = Ok ks.
Proof.
  intros F. unfold deserialize_keys, serialize_keys.
  assert (Binary.check_magic (Binary.write_magic ++ Binary.put (Binary.vector pair_format) ks) =
    (Ok tt, Binary.put (Binary.vector pair_format) ks)) as E by done.
  rewrite (bind_Ok _ _ _ _ _ E), <- (app_nil_r (Binary.put _ _)).
  by rewrite (Binary.get_put (Binary.vector pair_format) [] ks [] F).
Qed.

Lemma private_round_trip p : Binary.fits private_format p ->
  deserialize_private private_format (serialize_private private_format p) = Ok p.
Proof.
  intros F. unfold deserialize_private, serialize_private.
  assert (Binary.check_magic (Binary.write_magic ++ Binary.put private_format p) =
    (Ok tt, Binary.put private_format p)) as E by done.
  rewrite (bind_Ok _ _ _ _ _ E), <- (app_nil_r (Binary.put _ _)).
  by rewrite (Binary.get_put private_format [] p [] F).
Qed.

(** [m] is the public key of the owner, and [ks] the keys of the group. *)
Definition owner_pair (m : K) (p : P) : Prop := public p = m /\ Binary.fits private_format p.
Definition admin_holds (m : K) (a : K * bytes) : Prop :=
  exists p, owner_pair m p /\ a.2 = encrypt false a.1 (serialize_private private_format p).

(** All but who may read. *)
Record fields (m : K) (ks : list P) g : Prop := {
  held_owner : owner_key (okb_of (acb_of g)) = m;
  held_fits : fits_keys ks;
  held_keys : ks <> [];
  held_part : is_Some (part (acb_of g));
  held_public : public_keys (part_of g) = public <$> ks;
  held_admins : Forall (admin_holds m) (admin_keys (part_of g));
  held_world : world_readable (acb_of g) = false;
  held_control p : control_key g = Some p -> owner_pair m p;
  held_plain : data_decrypted (okb_of (acb_of g)) = true -> data_plain (okb_of (acb_of g)) = ser ks;
  held_changed : data_changed (okb_of (acb_of g)) = true ->
    data_decrypted (okb_of (acb_of g)) = true;
  held_cache : keys_ g = [] \/ keys_ g = ks
}.
(** Every user in the list may read, and, once sealed, can. *)
Definition readers ks b : Prop :=
  (forall e, e ∈ acl_entries b -> can_read e = true) /\ NoDup (key <$> acl_entries b) /\
  (data_changed (okb_of b) = false -> exists s, s <> [] /\ opens s (ser ks) b).
Definition held m ks g : Prop := fields m ks g /\ readers ks (acb_of g).

(** *** Reading *)

Lemma opens_with dn b s d : s <> [] -> opens s d b -> world_readable b = false ->
  match owner_private_key (okb_of b) with
  | Some p => public p = owner_key (okb_of b)
  | None => user_secret dn (use_encrypt b) (acl_entries b) [] = Some s
  end -> decrypt_acb dn b = Ok d.
Proof.
  intros Ns (_ & To & Dt) W. unfold decrypt_acb. rewrite W in *. rewrite Dt, To.
  destruct (owner_private_key (okb_of b)) as [p|]; intros S.
  - rewrite <- S, decrypt_encrypt, bool_decide_false by done.
    destruct s; [done|]. by rewrite decipher_encipher.
  - rewrite S, bool_decide_false by done. destruct s; [done|]. by rewrite decipher_encipher.
Qed.

Lemma data_reads dn g d : decrypt_acb dn (acb_of g) = Ok d ->
  data_decrypted (okb_of (acb_of g)) = false ->
  data dn g = (Ok d, upd_acb (upd_okb (fun o =>
    set_flags (validated o) (data_changed o) true (set_plain d o))) g).
Proof.
  intros E D. unfold data, on_acb, on_okb, okb_data. rewrite bind_read, D.
  assert (upd_okb (fun _ => okb_of (acb_of g)) (acb_of g) = acb_of g) as -> by (by destruct g as [[]]).
  by rewrite E.
Qed.

Lemma extract_spec dn m ks g : held m ks g ->
  data_decrypted (okb_of (acb_of g)) = true \/ decrypt_acb dn (acb_of g) = Ok (ser ks) ->
  exists g', extract_keys pair_format dn g = (Ok tt, g') /\ held m ks g' /\ keys_ g' = ks /\
    control_key g' = control_key g /\ part_of g' = part_of g /\
    acl_entries (acb_of g') = acl_entries (acb_of g) /\
    acl_group_entries (acb_of g') = acl_group_entries (acb_of g).
Proof.
  intros [F R] D. unfold extract_keys.
  destruct (data_decrypted (okb_of (acb_of g))) eqn:Dd.
  - assert (data dn g = (Ok (ser ks), g)) as E.
    { unfold data, on_acb, on_okb, okb_data. rewrite bind_read, Dd. cbn.
      rewrite (held_plain _ _ _ F Dd). by destruct g as [[]]. }
    rewrite (bind_Ok _ _ _ _ _ E), (keys_round_trip ks (held_fits _ _ _ F)).
    exists (set_keys ks g). split; [done|]. split; [|done].
    split; [|exact R]. destruct F. split; try done. by right.
  - destruct D as [?|D]; [done|].
    rewrite (bind_Ok _ _ _ _ _ (data_reads _ _ _ D Dd)), (keys_round_trip ks (held_fits _ _ _ F)).
    eexists. split; [done|]. split; [|done].
    split; [|exact R]. destruct F. split; try done. by right.
Qed.

Lemma controller_reads dn m ks g : held m ks g -> is_Some (control_key g) ->
  data_decrypted (okb_of (acb_of g)) = true \/ decrypt_acb dn (acb_of g) = Ok (ser ks).
Proof.
  intros [F R] [p C]. destruct (data_decrypted (okb_of (acb_of g))) eqn:D; [by left|right].
  destruct (data_changed (okb_of (acb_of g))) eqn:Ch.
  { by rewrite (held_changed _ _ _ F Ch) in D. }
  destruct R as (_ & _ & R). destruct (R Ch) as (s & Ns & O).
  eapply opens_with; [done..|apply F|].
  change (owner_private_key _) with (control_key g). rewrite C, (held_owner _ _ _ F).
  by apply (held_control _ _ _ F).
Qed.

(** *** Permissions *)

Lemma edited_elem k r w l (e : ACLEntry K) : e ∈ edit_entry k r w l ->
  exists e0, e0 ∈ l /\ key e = key e0 /\ token e = token e0 /\
    (can_read e = can_read e0 \/ can_read e = r).
Proof.
  induction l as [|e0 l IH]; cbn; [by intros ?%not_elem_of_nil|]. case_decide.
  - intros [->|I]%elem_of_cons; [exists e0|exists e]; (split; [by left || by right|]); cbn; auto.
  - intros [->|I]%elem_of_cons; [exists e0; split; [by left|]; auto|].
    destruct (IH I) as (e1 & I1 & Q). exists e1. split; [by right|done].
Qed.

Lemma erased_elem k l (e : ACLEntry K) : e ∈ erase_entry k l -> e ∈ l.
Proof.
  induction l as [|e0 l IH]; [done|]. cbn. case_decide; [by right|].
  intros [->|I]%elem_of_cons; [by left|right; auto].
Qed.

(** What a change of the list asks of the new list. *)
Lemma readers_change ks b l :
  readers ks b -> (forall e, e ∈ l -> can_read e = true /\
    (e ∈ acl_entries b \/ (exists e0, e0 ∈ acl_entries b /\ key e = key e0 /\ token e = token e0) \/
     (data_changed (okb_of b) = false -> forall s, s <> [] -> opens s (ser ks) b ->
        token e = encrypt (use_encrypt b) (key e) s))) ->
  NoDup (key <$> l) -> readers ks (set_acl_changed true (set_entries l b)).
Proof.
  intros (R & ND & O) L NL. split; [|split; [exact NL|]].
  - intros e I. by apply L.
  - intros D. destruct (O D) as (s & Ns & Op). exists s. split; [done|]. destruct (Op) as (T & To & Dt).
    split; [|split; [exact To|exact Dt]]. intros e I _. cbn in I.
    destruct (L e I) as (_ & [I0|[(e0 & I0 & -> & ->)|N]]).
    + apply T; [done|by apply R].
    + apply T; [done|by apply R].
    + by apply N.
Qed.

Lemma set_permissions_held m ks g k r b' : held m ks g ->
  set_permissions k r false (acb_of g) = (Ok tt, b') ->
  readers ks b' /\ exists c l, b' = set_acl_changed c (set_entries l (acb_of g)).
Proof.
  intros [F R] E. set (b := acb_of g) in *.
  assert (b = set_acl_changed (acl_changed b) (set_entries (acl_entries b) b)) as Same by (by destruct b).
  unfold set_permissions in E. rewrite bind_read in E. case_decide as Ow; [done|].
  pose proof R as (Rd & ND & O).
  destruct (find_entry k (acl_entries b)) as [e|] eqn:Fe.
  - apply find_entry_key in Fe as [Ke Ie]. destruct (negb r && negb false) eqn:Rm.
    + injection E as <-. split; [|by do 2 eexists]. apply readers_change; [done| |by apply erase_nodup].
      intros e' I%erased_elem. split; [by apply Rd|by left].
    + destruct r; [|done]. destruct (bool_decide _ && bool_decide _).
      { injection E as <-. split; [done|]. by do 2 eexists. }
      injection E as <-. split; [|by do 2 eexists]. apply readers_change; [done| |].
      * intros e' I. apply edited_elem in I as (e0 & I0 & K0 & T0 & C0).
        split; [destruct C0 as [->| ->]; [by apply Rd|done]|]. right; left. by exists e0.
      * by rewrite edit_entry_keys.
  - destruct r; [|injection E as <-; split; [done|]; by do 2 eexists].
    cbn [negb andb] in E. apply bind_Ok_inv in E as (a & s & E1 & E2). injection E2 as <-.
    assert (s = b /\ (data_changed (okb_of b) = false -> forall sec, sec <> [] -> opens sec (ser ks) b ->
      a = encrypt (use_encrypt b) k sec)) as [-> Ta].
    { destruct (owner_token b) eqn:To.
      - injection E1 as <- <-. split; [done|]. intros D sec _ (_ & T & _).
        rewrite To in T. symmetry in T. by apply encrypt_something in T.
      - destruct (owner_private_key (okb_of b)) as [p|] eqn:Op; [|done].
        destruct (decrypt _ _ _) as [sec|] eqn:D; [|done]. injection E1 as <- <-. split; [done|].
        intros _ sec' _ (_ & T & _). destruct (held_control _ _ _ F p Op) as [Pk _].
        rewrite <- To, T in D. fold b in D. pose proof (held_owner _ _ _ F) as Ho. fold b in Ho.
        rewrite Ho, <- Pk, decrypt_encrypt in D. by injection D as ->. }
    split; [|by do 2 eexists]. apply readers_change; [done| |].
    + intros e [I|I]%elem_of_app; [split; [by apply Rd|by left]|].
      apply list_elem_of_singleton in I as ->. split; [done|]. right; right. exact Ta.
    + rewrite fmap_app. apply NoDup_app. split; [done|]. split; [|apply NoDup_singleton].
      intros k' I [= ->]%list_elem_of_singleton. by apply find_entry_None in Fe.
Qed.

Lemma group_permissions_change dn k r w b x b' : set_group_permissions dn k r w b = (x, b') ->
  exists c l vs, b' = set_acl_changed c (set_groups l vs b).
Proof.
  assert (forall l vs, set_groups l vs b = set_acl_changed (acl_changed b) (set_groups l vs b))
    as Same by (by intros; destruct b).
  assert (b = set_groups (acl_group_entries b) (Blocks.group_version b) b) as Same' by (by destruct b).
  unfold set_group_permissions. rewrite bind_read. intros E.
  destruct (find_entry _ _); [|destruct (negb r && negb w)];
    by_cases; simplify_eq; do 3 eexists; try reflexivity; rewrite <- Same; try reflexivity; exact Same'.
Qed.

(** Only the lists differ. *)
Definition relisted b b' : Prop :=
  okb_of b' = okb_of b /\ part b' = part b /\ world_readable b' = world_readable b.

Lemma fields_relisted m ks g b' : fields m ks g -> relisted (acb_of g) b' ->
  fields m ks (upd_acb (fun _ => b') g).
Proof.
  intros F (O & Pt & W). destruct F.
  split; unfold part_of, control_key in *; cbn; rewrite ?O, ?Pt, ?W; done.
Qed.

Lemma user_permissions_held dn m ks g k n r b' : held m ks g ->
  set_user_permissions dn k n r false (acb_of g) = (Ok tt, b') ->
  held m ks (upd_acb (fun _ => b') g) /\ relisted (acb_of g) b'.
Proof.
  intros Hd E. unfold set_user_permissions in E.
  destruct (admin_user dn k || admin_group dn k); [done|].
  assert (forall g b, held m ks g -> set_permissions k r false (acb_of g) = (Ok tt, b) ->
    held m ks (upd_acb (fun _ => b) g) /\ relisted (acb_of g) b) as User.
  { intros g0 b Hg Ep. pose proof (set_permissions_held _ _ _ _ _ _ Hg Ep) as (R & c & l & Eb).
    assert (relisted (acb_of g0) b) as Re by (by rewrite Eb).
    split; [|done]. split; [|done]. apply fields_relisted; [apply Hg|done]. }
  assert (forall g x b, held m ks g -> set_group_permissions dn k r false (acb_of g) = (x, b) ->
    held m ks (upd_acb (fun _ => b) g) /\ relisted (acb_of g) b) as Group.
  { intros g0 x b [Fg Rg] Ep. apply group_permissions_change in Ep as (c & l & vs & ->).
    split; [|done]. split; [|done]. by apply fields_relisted. }
  assert (forall g b, relisted (acb_of g) b -> upd_acb (fun _ => b) g = mkGB _ _ b (keys_ g)) as U by done.
  destruct n.
  - apply bind_Ok_inv in E as ([] & b1 & E1 & E2). apply bind_Ok_inv in E1 as ([] & b0 & E0 & E1).
    assert (held m ks (upd_acb (fun _ => b0) g) /\ relisted (acb_of g) b0) as [H0 R0].
    { destruct (negb r && negb false); [by eapply Group|]. injection E0 as <-.
      split; [by destruct g|done]. }
    destruct (User (upd_acb (fun _ => b0) g) b1 H0 E1) as [H1 R1].
    destruct (User (upd_acb (fun _ => b1) g) b' H1 E2) as [H2 R2].
    split; [exact H2|]. unfold relisted in *. cbn in *. intuition congruence.
  - rewrite bind_ret_l in E. by eapply Group.
  - rewrite bind_ret_l in E. by eapply User.
Qed.

Lemma on_acb_Ok {X} (f : method (acb K P) Blocks.error X) g x g' : on_acb f g = (Ok x, g') ->
  exists b', f (acb_of g) = (Ok x, b') /\ g' = upd_acb (fun _ => b') g.
Proof.
  unfold on_acb. destruct (f (acb_of g)) as [[y|e] b]; [|done]. intros [= -> <-]. by exists b.
Qed.

Lemma marked_held m ks g : held m ks g -> held m ks (upd_acb (set_acl_changed true) g).
Proof. intros [F R]. split; [|exact R]. by apply (fields_relisted _ _ g _ F). Qed.

(** *** Operations *)

(** An operation of an administrator, which gives the group its keys [ks']. *)
Definition keeps (m : K) (ks' : list P) g g' : Prop :=
  held m ks' g' /\ control_key g' = control_key g.

Lemma add_member_held dn m ks g k n g' : held m ks g -> add_member_ dn k n g = (Ok tt, g') ->
  keeps m ks g g'.
Proof.
  intros Hd E. apply bind_Ok_inv in E as ([] & g1 & E1 & E2). injection E2 as <-.
  apply on_acb_Ok in E1 as (b & E1 & ->).
  destruct (user_permissions_held _ _ _ _ _ _ _ _ Hd E1) as [H1 (O & _)].
  split; [exact (marked_held _ _ _ H1)|]. unfold control_key. cbn. by rewrite O.
Qed.

Lemma remove_member_held dn m ks g new k n g' : held m ks g -> is_Some (control_key g) ->
  fits_keys (ks ++ [new]) ->
  remove_member_ pair_format dn new k n g = (Ok tt, g') -> keeps m (ks ++ [new]) g g'.
Proof.
  intros Hd C Fn E. apply bind_Ok_inv in E as ([] & g1 & E1 & E2). apply on_acb_Ok in E1 as (b & E1 & ->).
  destruct (user_permissions_held _ _ _ _ _ _ _ _ Hd E1) as [H1 (O & _)].
  apply bind_Ok_inv in E2 as ([] & g2 & E2 & E3). injection E2 as <-.
  set (g2 := upd_acb (set_acl_changed true) (upd_acb (fun _ => b) g)) in *.
  assert (held m ks g2) as H2 by exact (marked_held _ _ _ H1).
  assert (control_key g2 = control_key g) as C2 by (unfold control_key; cbn; by rewrite O).
  destruct (extract_spec dn m ks g2 H2) as (g3 & E4 & [F R] & Ks & C3 & Pt & _).
  { apply (controller_reads dn m); [done|by rewrite C2]. }
  rewrite (bind_Ok _ _ _ _ _ E4) in E3. injection E3 as <-.
  assert (all_public_keys g3 = public <$> ks) as Pu by apply F.
  split; [|by rewrite <- C2, <- C3]. split.
  - destruct F. split; try done; cbn; rewrite ?Ks; try done.
    + by destruct ks.
    + by rewrite Pu, fmap_app.
    + by right.
  - destruct R as (R1 & R2 & _). split; [done|]. split; [done|]. by intros ?.
Qed.

Lemma emplaced_elem k t l a : a ∈ emplace_admin before k t l -> a = (k, t) \/ a ∈ l.
Proof.
  induction l as [|a0 l IH]; cbn; [by intros ->%list_elem_of_singleton; left|].
  destruct (before k a0.1); intros [->|I]%elem_of_cons; auto.
  - right. by left.
  - destruct (IH I) as [->|]; [by left|right; by right].
Qed.

Lemma admins_held m ks g l : held m ks g -> Forall (admin_holds m) l ->
  held m ks (upd_acb (set_acl_changed true) (upd_part (set_admins l) g)).
Proof. intros [F R] A. split; [|exact R]. destruct F. by split. Qed.

Lemma add_admin_held m ks g k g' : held m ks g ->
  add_admin_ private_format before k g = (Ok tt, g') -> keeps m ks g g'.
Proof.
  intros Hd E. unfold add_admin_ in E. rewrite bind_read in E.
  destruct (find_admin _ _); [by injection E as <-|].
  destruct (owner_private_key (okb_of (acb_of g))) as [p|] eqn:Op; [|done]. injection E as <-.
  split; [|done]. apply admins_held; [done|]. apply Forall_forall. intros a [->|I]%emplaced_elem.
  - exists p. split; [by apply (held_control _ _ _ (proj1 Hd))|done].
  - pose proof (held_admins _ _ _ (proj1 Hd)) as A. rewrite Forall_forall in A. auto.
Qed.

Lemma remove_admin_held m ks g k g' : held m ks g ->
  remove_admin_ k g = (Ok tt, g') -> keeps m ks g g'.
Proof.
  intros Hd E. unfold remove_admin_ in E. rewrite bind_read in E.
  destruct (find_admin _ _); [|done]. injection E as <-.
  split; [|done]. apply admins_held; [done|]. apply Forall_forall. intros a [_ I]%list_elem_of_filter.
  pose proof (held_admins _ _ _ (proj1 Hd)) as A. rewrite Forall_forall in A. auto.
Qed.

Lemma description_held dn m ks g d g' : held m ks g ->
  set_description_ dn d g = (Ok tt, g') -> keeps m ks g g'.
Proof.
  intros [F R] E. unfold set_description_ in E. destruct (Version.ltb _ _); [done|].
  injection E as <-. split; [|done]. split; [|exact R]. destruct F. by split.
Qed.

(** The keys of the group after an action. *)
Definition next_keys (new : P) (r : resolver K) ks : list P :=
  match action_ r with remove_member => ks ++ [new] | _ => ks end.

Lemma perform_held dn new r m ks g g' : held m ks g -> is_Some (control_key g) ->
  fits_keys (next_keys new r ks) ->
  perform pair_format private_format before dn new r g = (Ok tt, g') ->
  keeps m (next_keys new r ks) g g'.
Proof.
  intros Hd C F E. unfold perform in E. apply bind_Ok_inv in E as (u & g1 & E1 & E2).
  assert (g1 = g) as ->.
  { destruct (name_ r), (key_ r); try done; by injection E1. }
  unfold next_keys in *.
  destruct (action_ r), u as [[k n]|]; try done.
  - by eapply add_member_held.
  - by eapply remove_member_held.
  - by eapply add_admin_held.
  - by eapply remove_admin_held.
  - by eapply description_held.
Qed.

(** *** Sealing, copying and receiving *)

Lemma rights_keys (l l' : list (ACLEntry K)) : right <$> l' = right <$> l ->
  key <$> l' = key <$> l /\ can_read <$> l' = can_read <$> l.
Proof.
  revert l'. induction l as [|e l IH]; intros [|e' l'] E; try done.
  rewrite !fmap_cons in E. assert (right e' = right e) as E1 by congruence.
  destruct (IH l') as [IH1 IH2]; [congruence|]. unfold right in E1.
  rewrite !fmap_cons. split; congruence.
Qed.

Lemma seal_held dn env secret m ks g g' : no_admins dn -> secret <> [] -> held m ks g ->
  seal_gb dn env secret g = (Ok tt, g') ->
  keeps m ks g g' /\ data_changed (okb_of (acb_of g')) = false /\
  part_of g' = part_of g /\ (key <$> acl_entries (acb_of g')) = (key <$> acl_entries (acb_of g)) /\
  right <$> acl_group_entries (acb_of g') = right <$> acl_group_entries (acb_of g).
Proof.
  intros NA Ns [F R] E. apply on_acb_Ok in E as (b & E & ->).
  destruct (seal_frame _ _ _ _ _ _ NA E) as (Fr & A & D). unfold frame, lists, identity in Fr.
  injection Fr as Le Lg Wr Ww Pt Ad Sa Ok_ Op Dp Dd.
  destruct (rights_keys _ _ Le) as [Ke Re].
  assert (exists s, s <> [] /\ opens s (ser ks) b) as O.
  { destruct R as (_ & _ & O). destruct (data_changed (okb_of (acb_of g))) eqn:Ch.
    - exists secret. split; [done|]. pose proof (seal_opens _ _ _ _ _ _ Ch E) as O'.
      rewrite (held_plain _ _ _ F) in O'; [done|]. by apply F.
    - destruct (O eq_refl) as (s & Hs & Os). exists s. split; [done|].
      eapply opens_content; [exact (seal_content _ _ _ _ _ _ NA Ch E)|exact Os]. }
  split; [|split; [exact D|]; split; [unfold part_of; cbn; by rewrite Pt|]; by split].
  split; [|unfold control_key; cbn; by rewrite Op]. split.
  - destruct F. split; unfold part_of, control_key in *; cbn; rewrite ?Ok_, ?Pt, ?Wr, ?Op, ?Dp, ?Dd, ?D; try done.
  - destruct R as (R1 & R2 & _). split; [|split; [cbn; by rewrite Ke|done]].
    intros e I. apply list_elem_of_lookup in I as [i I].
    pose proof (f_equal (fun l => l !! i) Re) as Ri. rewrite !list_lookup_fmap in Ri.
    cbn in I. rewrite I in Ri. cbn in Ri.
    destruct (acl_entries (acb_of g) !! i) as [e0|] eqn:I0; [|done].
    injection Ri as ->. apply R1. by eapply list_elem_of_lookup_2.
Qed.

Lemma clone_held m ks g : held m ks g -> held m ks (clone g).
Proof. intros [F R]. split; [|exact R]. destruct F. split; try done. by left. Qed.

Lemma found_admin (k : K) (l : list (K * bytes)) t : find_admin k l = Some t -> (k, t) ∈ l.
Proof.
  unfold find_admin. destruct (filter _ l) as [|[k' t'] l'] eqn:E; [done|]. intros [= <-].
  assert ((k', t') ∈ filter (fun a : K * bytes => a.1 = k) l) as I by (rewrite E; by left).
  apply list_elem_of_filter in I as [Ek I]. cbn in Ek. by subst.
Qed.

Lemma find_admin_Some (k : K) (l : list (K * bytes)) : k ∈ l.*1 -> is_Some (find_admin k l).
Proof.
  intros ([k' t] & -> & I)%list_elem_of_fmap. unfold find_admin.
  destruct (filter _ l) as [|a l'] eqn:E; [|by eexists].
  assert ((k', t) ∈ filter (fun a : K * bytes => a.1 = k') l) as I'
    by (apply list_elem_of_filter; done).
  cbn in I'. cbn in E. rewrite E in I'. by apply not_elem_of_nil in I'.
Qed.

Definition since_0_8_ (v : Version.t) : Prop := Version.geb v v_0_8 = true.

Lemma since_0_7_ v : since_0_8_ v -> Version.geb v v_0_7 = true.
Proof. intros V. by apply (Version.geb_trans v v_0_8). Qed.

(** What a node is given when it receives the block. *)
Lemma received_opens dn v b s d : since_0_8_ v -> opens s d b -> opens s d (received dn v b).
Proof.
  intros V O. destruct O as (T & To & Dt). unfold opens.
  assert (use_encrypt (received dn v b) = use_encrypt b) as ->
    by (unfold use_encrypt, received; cbn; by rewrite (since_0_7_ v V)).
  by split.
Qed.

Lemma received_part dn v g : since_0_8_ v ->
  default (mkPart K [] [] None) (part (received dn v (acb_of g))) = part_of g.
Proof.
  intros V. unfold part_of, received. cbn [part]. destruct (part (acb_of g)) as [pt|]; [|done].
  cbn. unfold since_0_8_ in V. rewrite V. by destruct pt.
Qed.

Lemma received_at_rest dn v m ks g : since_0_8_ v -> held m ks g ->
  data_changed (okb_of (acb_of g)) = false ->
  data_changed (okb_of (received dn v (acb_of g))) = false.
Proof.
  intros V [F (_ & _ & O)] D. destruct (O D) as (s & Ns & _ & _ & Dt).
  cbn [received okb_of received_okb data_changed].
  unfold since_0_8_, v_0_8 in V. rewrite V, Dt, (held_world _ _ _ F). cbn [andb].
  apply bool_decide_eq_false. by apply encipher_something.
Qed.

(** A node that was made an administrator has the key of the owner. *)
Lemma received_control dn v m ks g : held m ks g -> K_ dn ∈ list_admins g ->
  exists p, owner_pair m p /\
    received_gb private_format dn v g =
      Ok (mkGB _ _ (upd_okb (set_owner_private p) (received dn v (acb_of g))) []).
Proof.
  intros [F _] I. apply find_admin_Some in I as [t Ft]. unfold received_gb. rewrite Ft.
  apply found_admin in Ft. pose proof (held_admins _ _ _ F) as A. rewrite Forall_forall in A.
  destruct (A _ Ft) as (p & Op & E). cbn [fst snd] in E. exists p. split; [done|].
  rewrite E. unfold K_. rewrite decrypt_encrypt. cbv beta iota.
  by rewrite private_round_trip by apply Op.
Qed.

Lemma received_other dn v g : ~ K_ dn ∈ list_admins g ->
  received_gb private_format dn v g = Ok (mkGB _ _ (received dn v (acb_of g)) []).
Proof.
  intros N. unfold received_gb. destruct (find_admin _ _) as [t|] eqn:E; [|done].
  apply found_admin in E. destruct N. unfold list_admins.
  change (K_ dn) with ((K_ dn, t).1). by apply list_elem_of_fmap_2.
Qed.

Lemma received_held dn v m ks g g' : since_0_8_ v -> Binary.fits private_format (keys dn) ->
  held m ks g -> data_changed (okb_of (acb_of g)) = false ->
  received_gb private_format dn v g = Ok g' -> held m ks g'.
Proof.
  intros V Fk Hd D E.
  pose proof (received_at_rest dn v m ks g V Hd D) as Rest.
  assert (forall b, (forall p, owner_private_key (okb_of b) = Some p -> owner_pair m p) ->
    (exists f, b = upd_okb f (received dn v (acb_of g)) /\
      forall o, let o' := f o in owner_key o' = owner_key o /\ Blocks.data o' = Blocks.data o /\
        data_changed o' = data_changed o /\ data_decrypted o' = data_decrypted o) ->
    held m ks (mkGB _ _ b [])) as Any.
  { intros b C (f & -> & Ff). destruct (Ff (okb_of (received dn v (acb_of g)))) as (F1 & F2 & F3 & F4).
    destruct Hd as [F (R1 & R2 & O)]. split.
    - destruct F. split; unfold part_of, control_key in *; cbn -[received] in *;
        rewrite ?F1, ?F3, ?F4, ?Rest; try done.
      + cbn. destruct (part (acb_of g)); [by eexists|by destruct held_part0].
      + by rewrite received_part.
      + by rewrite received_part.
      + by left.
    - split; [done|]. split; [done|]. intros _. destruct (O D) as (s & Ns & Os). exists s.
      split; [done|]. apply (received_opens dn v) in Os; [|done].
      destruct Os as (T & To & Dt). unfold opens. cbn -[received] in *. rewrite F1, F2.
      split; [exact T|]. by split. }
  destruct (decide (K_ dn ∈ list_admins g)) as [I|N].
  - destruct (received_control dn v m ks g Hd I) as (p & Op & Er). rewrite Er in E.
    injection E as <-. apply Any; [by intros ? [= <-]|]. by exists (set_owner_private p).
  - rewrite received_other in E by done. injection E as <-. apply Any.
    + cbn. intros p. case_decide as Ow; [|done]. intros [= <-]. split; [|done].
      rewrite <- (held_owner _ _ _ (proj1 Hd)), Ow. done.
    + exists id. split; [|done]. by destruct (acb_of g) as [].
Qed.
End Held.
