(* ===== verification/GroupTheorems.v ===== *)
(** The theorems on groups: who has the keys of a group, what a member who
    leaves can no longer read, and what is shared with a group. *)

From stdpp Require Import base tactics option list relations.
From Stdlib Require Import ZArith Lia.
From S2P Require Import Prelude Versions Buffers Streams Addresses Binary Nodes Signatures Blocks BlockProperties BlockTheorems ContentBlocks ContentTheorems Groups GroupProperties.
Import Signatures Blocks Groups.
Open Scope Z_scope.

(** A user is removed. *)
Abbreviation removal k := (mkResolver _ remove_member (Some k) (Some other) None).

Section Theorems.
Context {K P : Type} `{EqDecision K} `{EqDecision P} `{!Crypto K P} `{!LawfulCrypto K P}.
Context (pair_format private_format : Binary.format P) (before : K -> K -> bool).

(** What is encrypted is not empty. *)
Definition something : Prop :=
  (forall enc (k : K) s, encrypt (P := P) enc k s <> []) /\
  (forall s d, s <> [] -> encipher (K := K) (P := P) s d <> []).

Implicit Types (b : acb K P) (g : gb K P) (dn : doughnut K P) (ks : list P).

Abbreviation fits_keys := (Binary.fits (Binary.vector pair_format)).
Abbreviation held := (held pair_format private_format).

(** What becomes of a group, with its keys: the block is read, edited and sealed
    by who has the key of the owner, on any node, and goes from node to node
    once it is sealed. *)
Inductive step : list P * gb K P -> list P * gb K P -> Prop :=
  | Edited dn new r ks g g' : is_Some (control_key g) -> fits_keys (next_keys new r ks) ->
      perform pair_format private_format before dn new r g = (Ok tt, g') ->
      step (ks, g) (next_keys new r ks, g')
  | Sealed dn env secret ks g g' : no_admins dn -> secret <> [] ->
      seal_gb dn env secret g = (Ok tt, g') -> step (ks, g) (ks, g')
  | KeysRead dn ks g g' x : is_Some (control_key g) ->
      all_keys pair_format dn g = (x, g') -> step (ks, g) (ks, g')
  | Copied ks g : step (ks, g) (ks, clone g)
  | Received dn v ks g g' : data_changed (okb_of (acb_of g)) = false -> since_0_8_ v ->
      Binary.fits private_format (keys dn) -> received_gb private_format dn v g = Ok g' ->
      step (ks, g) (ks, g').

(** A group made on [dn] that became [g], with its keys. *)
Definition group_became (master : P) ks g : Prop := exists dn first g0,
  Binary.fits private_format master /\ fits_keys [first] /\
  make_gb pair_format private_format dn master first = (Ok tt, g0) /\
  rtc step ([first], g0) (ks, g).

Hypothesis Some_ : something.

Lemma made_held dn master first g : Binary.fits private_format master -> fits_keys [first] ->
  make_gb pair_format private_format dn master first = (Ok tt, g) ->
  held (public master) [first] g.
Proof.
  intros Fm Ff E. unfold make_gb in E.
  set (d := serialize_keys pair_format [first]) in E.
  set (g0 := mkGB _ _ _ _) in E.
  set (g1 := upd_acb (set_acl_changed true) (upd_acb (upd_okb (okb_set_data d)) g0)).
  assert (held (public master) [first] g1) as H1.
  { split.
    - split; try done; cbn; try (by eexists); try by right.
      + apply Forall_singleton. by exists master.
      + unfold control_key. cbn. by intros p [= <-].
    - split; [by intros e ?%not_elem_of_nil|]. split; [apply NoDup_nil_2|done]. }
  change (on_acb (set_permissions (K_ dn) true false) g1 = (Ok tt, g)) in E.
  apply on_acb_Ok in E as (b & E & ->).
  destruct (set_permissions_held _ _ (proj1 Some_) _ _ _ _ _ _ H1 E) as (R & c & l & Eb).
  split; [|exact R]. apply fields_relisted; [apply H1|]. by rewrite Eb.
Qed.

Lemma all_keys_held dn m ks g x g' : held m ks g -> is_Some (control_key g) ->
  all_keys pair_format dn g = (x, g') -> x = Ok ks /\ held m ks g'.
Proof.
  intros Hd C E. unfold all_keys in E. rewrite bind_read in E. case_bool_decide as Kn.
  - destruct (extract_spec pair_format private_format dn m ks g Hd) as (g1 & E1 & H1 & K1 & _).
    { by apply (controller_reads pair_format private_format dn m). }
    unfold when in E. rewrite (bind_Ok _ _ _ _ _ E1) in E. injection E as <- <-.
    split; [by rewrite K1|done].
  - injection E as <- <-. split; [|done]. by destruct (held_cache _ _ _ _ _ (proj1 Hd)) as [?|<-].
Qed.

Lemma step_held m x y : step x y -> held m x.1 x.2 -> held m y.1 y.2.
Proof.
  destruct 1; cbn [fst snd]; intros Hd.
  - by eapply (perform_held _ _ _ (proj1 Some_)).
  - by eapply seal_held.
  - by eapply all_keys_held.
  - by apply clone_held.
  - by eapply (received_held _ _ (proj2 Some_)).
Qed.

Lemma group_held master ks g : group_became master ks g -> held (public master) ks g.
Proof.
  intros (dn & first & g0 & Fm & Ff & E & R).
  assert (forall x y, rtc step x y -> held (public master) x.1 x.2 -> held (public master) y.1 y.2) as Steps.
  { induction 1; [done|]. intros Hx. eauto using step_held. }
  apply (Steps _ _ R). by eapply made_held.
Qed.

(** *** Who reads *)

Lemma all_keys_reads dn ks g : fits_keys ks -> keys_ g = [] ->
  data_decrypted (okb_of (acb_of g)) = false ->
  decrypt_acb dn (acb_of g) = Ok (serialize_keys pair_format ks) ->
  (all_keys pair_format dn g).1 = Ok ks.
Proof.
  intros F Kn Dd D. unfold all_keys. rewrite bind_read, Kn, bool_decide_true by done.
  unfold when, extract_keys.
  assert (forall X (k : unit -> method (gb K P) error X) g1,
    (d ← data dn; match deserialize_keys pair_format d with
                  | Ok ks => modify (set_keys ks)
                  | Throw e => throw (Unreadable e)
                  end) g = (Ok tt, g1) ->
    ((d ← data dn; match deserialize_keys pair_format d with
                  | Ok ks => modify (set_keys ks)
                  | Throw e => throw (Unreadable e)
                  end) ≫= k) g = k tt g1) as Bind by (intros; by apply bind_Ok).
  rewrite (Bind _ _ (set_keys ks (data dn g).2)); [done|].
  rewrite (bind_Ok _ _ _ _ _ (data_reads _ _ _ D Dd)), keys_round_trip by done.
  by rewrite (data_reads _ _ _ D Dd).
Qed.

Lemma all_keys_refused dn e g : keys_ g = [] -> data_decrypted (okb_of (acb_of g)) = false ->
  decrypt_acb dn (acb_of g) = Throw e -> (all_keys pair_format dn g).1 = Throw (OfBlock e).
Proof.
  intros Kn Dd D. unfold all_keys. rewrite bind_read, Kn, bool_decide_true by done.
  unfold when, extract_keys, data, on_acb, on_okb, okb_data.
  unfold mbind, method_bind, lift, Prelude.read. cbn. rewrite Dd.
  assert (upd_okb (fun _ => okb_of (acb_of g)) (acb_of g) = acb_of g) as -> by (by destruct g as [[]]).
  by rewrite D.
Qed.

(** A node that owns the group, administers it, or is listed. *)
Definition entitled (m : K) dn g : Prop :=
  K_ dn = m \/ K_ dn ∈ list_admins g \/ K_ dn ∈ (key <$> acl_entries (acb_of g)).

Lemma entitled_reads m ks g dn v : held m ks g -> data_changed (okb_of (acb_of g)) = false ->
  since_0_8_ v -> entitled m dn g -> exists g', received_gb private_format dn v g = Ok g' /\
    all_public_keys g' = public <$> ks /\ (all_keys pair_format dn g').1 = Ok ks.
Proof.
  intros Hd D V En. destruct (Hd) as [F (R1 & R2 & O)]. destruct (O D) as (s & Ns & Os).
  pose proof (received_opens dn v _ _ _ V Os) as Or.
  assert (forall b, okb_of b = okb_of (received dn v (acb_of g)) \/ (exists p, owner_pair private_format m p /\
      okb_of b = set_owner_private p (okb_of (received dn v (acb_of g)))) ->
    use_encrypt b = use_encrypt (received dn v (acb_of g)) ->
    acl_entries b = acl_entries (acb_of g) -> owner_token b = owner_token (acb_of g) ->
    world_readable b = false -> opens s (serialize_keys pair_format ks) b) as Same.
  { intros b Ob Ub Eb Tb Wb. destruct Or as (T & To & Dt).
    cbn [received acl_entries owner_token] in T, To.
    unfold opens. rewrite Ub, Eb, Tb, Wb. split; [done|].
    rewrite (held_world _ _ _ _ _ F : world_readable (received dn v (acb_of g)) = false) in Dt.
    by destruct Ob as [->|(p & _ & ->)]. }
  destruct (decide (K_ dn ∈ list_admins g)) as [Ad|Na].
  - destruct (received_control _ _ dn v m ks g Hd Ad) as (p & Op & E). eexists. split; [exact E|].
    split; [unfold all_public_keys, part_of; cbn [acb_of]; change (part (upd_okb _ ?b)) with (part b);
      rewrite received_part by done; apply F|].
    apply all_keys_reads; [apply F|done|done|]. eapply opens_with; [exact Ns| |apply F|].
    + apply Same; try done; [right; by exists p|apply F].
    + cbn. rewrite (held_owner _ _ _ _ _ F). apply Op.
  - eexists. split; [by apply received_other|].
    split; [unfold all_public_keys, part_of; cbn [acb_of]; rewrite received_part by done; apply F|].
    apply all_keys_reads; [apply F|done|done|]. eapply opens_with; [exact Ns|exact Or|apply F|].
    cbn. case_decide as Ow; [by rewrite Ow|].
    destruct En as [En|[En|En]]; [by rewrite (held_owner _ _ _ _ _ F) in Ow|done|].
    apply list_elem_of_fmap in En as (e & Ke & I).
    eapply user_secret_some; [exact R2|exact I|done|].
    destruct Or as (T & _). rewrite (T e I (R1 e I)), <- Ke. apply decrypt_encrypt.
Qed.

Lemma stranger_is_refused m ks g dn v : held m ks g -> since_0_8_ v -> ~ entitled m dn g ->
  acl_group_entries (acb_of g) = [] -> exists g', received_gb private_format dn v g = Ok g' /\
    (all_keys pair_format dn g').1 = Throw (OfBlock NotReadable).
Proof.
  intros [F _] V N Gs. unfold entitled in N. eexists. split; [apply received_other; tauto|].
  apply all_keys_refused; [done|done|]. unfold decrypt_acb.
  cbn [acb_of received okb_of received_okb owner_private_key world_readable acl_entries acl_group_entries].
  rewrite (held_world _ _ _ _ _ F), Gs, (held_owner _ _ _ _ _ F), decide_False by naive_solver.
  rewrite user_secret_none by tauto. done.
Qed.


(** *** A member who leaves *)

Lemma erase_elem k k' (l : list (ACLEntry K)) : NoDup (key <$> l) ->
  k' ∈ (key <$> erase_entry k l) <-> k' <> k /\ k' ∈ (key <$> l).
Proof.
  intros ND. pose proof (find_erase k l k' ND) as Fe.
  pose proof (find_entry_None k' (erase_entry k l)) as N1. pose proof (find_entry_None k' l) as N2.
  rewrite Fe in N1. split.
  - intros I. case_decide as Kk; [by destruct N1 as [N1 _]; destruct (N1 eq_refl)|].
    split; [done|]. by eapply erase_incl.
  - intros [Nk I]. rewrite decide_False in N1 by done.
    destruct (decide (k' ∈ (key <$> erase_entry k l))) as [|N]; [done|].
    destruct (proj1 N2 (proj2 N1 N) I).
Qed.

Lemma removal_erases dn k b : no_admins dn -> k <> owner_key (okb_of b) -> NoDup (key <$> acl_entries b) ->
  exists b', set_user_permissions dn k other false false b = (Ok tt, b') /\
    (forall k', k' ∈ (key <$> acl_entries b') <-> k' <> k /\ k' ∈ (key <$> acl_entries b)) /\
    acl_group_entries b' = acl_group_entries b.
Proof.
  intros (A1 & A2 & A3 & A4) Nk ND. unfold set_user_permissions, admin_user, admin_group.
  rewrite A1, A2, A3, A4, !bool_decide_false by apply not_elem_of_nil. cbn [orb].
  rewrite bind_ret_l. unfold set_permissions. rewrite bind_read, decide_False by done.
  destruct (find_entry k (acl_entries b)) as [e|] eqn:Fe.
  - eexists. split; [done|]. split; [|done]. intros k'. by apply erase_elem.
  - eexists. split; [done|]. split; [|done]. apply find_entry_None in Fe. naive_solver.
Qed.

Lemma removal_runs m ks g dn new k : held m ks g -> no_admins dn ->
  is_Some (control_key g) -> k <> m ->
  exists g1, perform pair_format private_format before dn new (removal k) g = (Ok tt, g1) /\
    (forall k', k' ∈ (key <$> acl_entries (acb_of g1)) <->
       k' <> k /\ k' ∈ (key <$> acl_entries (acb_of g))) /\
    acl_group_entries (acb_of g1) = acl_group_entries (acb_of g) /\
    list_admins g1 = list_admins g.
Proof.
  intros Hd NA C Nk.
  assert (k <> owner_key (okb_of (acb_of g))) as Nk' by (by rewrite (held_owner _ _ _ _ _ (proj1 Hd))).
  destruct (removal_erases dn k (acb_of g) NA Nk' (proj1 (proj2 (proj2 Hd)))) as (b & Eb & Mem & Grp).
  destruct (user_permissions_held _ _ before (proj1 Some_) _ _ _ _ _ _ _ _ Hd Eb) as [H1 (O1 & P1 & _)].
  set (g0 := upd_acb (set_acl_changed true) (upd_acb (fun _ => b) g)).
  assert (held m ks g0) as H0 by exact (marked_held _ _ _ _ _ H1).
  assert (control_key g0 = control_key g) as C0 by (unfold control_key; cbn; by rewrite O1).
  destruct (extract_spec pair_format private_format dn _ _ g0 H0)
    as (g3 & E3 & H3 & K3 & C3 & Pt3 & L3 & G3).
  { apply (controller_reads pair_format private_format dn m); [done|by rewrite C0]. }
  eexists. split.
  - unfold perform. cbn [name_ key_ action_]. rewrite bind_ret_l. unfold remove_member_.
    assert (on_acb (set_user_permissions dn k other false false) g = (Ok tt, upd_acb (fun _ => b) g)) as Ea
      by (unfold on_acb; by rewrite Eb).
    rewrite (bind_Ok _ _ _ _ _ Ea).
    rewrite (bind_Ok _ _ _ tt g0) by done. by rewrite (bind_Ok _ _ _ _ _ E3).
  - cbn. rewrite L3, G3. split; [done|]. split; [done|]. unfold list_admins, part_of in *. cbn.
    unfold part_of in Pt3. rewrite Pt3. cbn. by rewrite P1.
Qed.

(** C9. In a network without administrators, an administrator of a group can remove any
    member but the owner. Once the block is sealed the group has one more key, the list
    is the same without that member, and those who are then entitled to the keys (the
    owner, the administrators of the group and its members) find the new key after the
    old ones in the block they receive, since 0.8.0. Who left does not, in a group without entries for other groups, unless it is
    also an administrator of the group: removed from the members, it still finds them
    all. *)
Theorem removal_makes_a_key master ks g dn new k : group_became master ks g -> no_admins dn ->
  is_Some (control_key g) -> k <> public master -> fits_keys (ks ++ [new]) ->
  exists g1, perform pair_format private_format before dn new (removal k) g = (Ok tt, g1) /\
  forall env secret g2, secret <> [] -> seal_gb dn env secret g1 = (Ok tt, g2) ->
    current_public_key g2 = Some (public new) /\
    (forall k', k' ∈ (key <$> acl_entries (acb_of g2)) <->
       k' <> k /\ k' ∈ (key <$> acl_entries (acb_of g))) /\
    forall dn' v, since_0_8_ v ->
      (entitled (public master) dn' g2 -> exists g', received_gb private_format dn' v g2 = Ok g' /\
         (all_keys pair_format dn' g').1 = Ok (ks ++ [new])) /\
      (K_ dn' = k -> ~ k ∈ list_admins g -> acl_group_entries (acb_of g) = [] ->
         exists g', received_gb private_format dn' v g2 = Ok g' /\
           (all_keys pair_format dn' g').1 = Throw (OfBlock NotReadable)).
Proof.
  intros Hd%group_held NA C Nk Fn.
  destruct (removal_runs _ _ _ _ new _ Hd NA C Nk) as (g1 & E1 & Mem & G1 & A1).
  exists g1. split; [exact E1|]. intros env secret g2 Ns E2.
  destruct (perform_held _ _ before (proj1 Some_) dn new (removal k) _ _ _ _ Hd C Fn E1) as [Hg1 _].
  destruct (seal_held _ _ _ _ _ _ _ _ _ NA Ns Hg1 E2) as ([Hg2 _] & D2 & Pt2 & Ke2 & Gr2).
  cbn [next_keys action_] in Hg2. split; [|split].
  - unfold current_public_key, all_public_keys. rewrite (held_public _ _ _ _ _ (proj1 Hg2)).
    rewrite fmap_app. apply last_snoc.
  - intros k'. rewrite Ke2. apply Mem.
  - intros dn' v V. split.
    + intros En. destruct (entitled_reads _ _ _ _ _ Hg2 D2 V En) as (g' & E & _ & Ks). by exists g'.
    + intros Kd Na Gs. eapply stranger_is_refused; [exact Hg2|done| |].
      * unfold entitled, list_admins. rewrite Pt2, Ke2. fold (list_admins g1). rewrite A1, Kd, Mem.
        naive_solver.
      * rewrite G1, Gs in Gr2. by destruct (acl_group_entries (acb_of g2)).
Qed.

(** *** What is shared with a group *)

Lemma steps_prefix x y : rtc step x y -> x.1 `prefix_of` y.1.
Proof.
  induction 1 as [|x y z St _ IH]; [done|]. etrans; [|exact IH].
  destruct St as [dn new r ks g g' _ _ _| | | |]; cbn; try done.
  unfold next_keys. destruct (action_ r); try done. by apply prefix_app_r.
Qed.

Lemma group_tokens_lookup dn enc s l vs i e info gk : l !! i = Some e -> length vs = length l ->
  can_read e = true -> group dn (key e) = Some info -> last (group_public_keys info) = Some gk ->
  (group_tokens dn enc s l vs).1 !! i = Some (token_of enc s gk e) /\
  (group_tokens dn enc s l vs).2 !! i = Some (Z.of_nat (length (group_public_keys info)) - 1).
Proof.
  revert vs i. induction l as [|e0 l IH]; intros [|v vs] i L Len R G Gk; try done.
  cbn [group_tokens tail]. destruct i as [|i]; cbn in L.
  - injection L as ->. destruct (group_tokens _ _ _ l vs) as [l' vs']. by rewrite G, R, Gk.
  - injection Len as Len. specialize (IH vs i L Len R G Gk).
    destruct (group_tokens _ _ _ l vs) as [l' vs']. cbn [fst snd] in IH.
    by destruct (group dn (key e0)) as [g0|]; [destruct (can_read e0), (last (group_public_keys g0))|].
Qed.

Lemma group_secret_found dn enc l vs i e n pk ks p s t : NoDup (key <$> l) ->
  l !! i = Some e -> vs !! i = Some (Z.of_nat n) -> group dn (key e) = Some (mkGroup _ _ pk (Some ks)) ->
  ks !! n = Some p -> decrypt enc p (token e) = Some t ->
  (forall k, k <> key e -> group dn k ≫= group_keys = None) -> group_secret dn enc l vs s = t.
Proof.
  revert vs i. induction l as [|e0 l IH]; intros [|v vs] i ND L V G Kn D No; try done; try by destruct i.
  rewrite fmap_cons in ND. apply NoDup_cons in ND as [NI ND]. cbn [group_secret].
  destruct i as [|i]; cbn in L, V.
  - injection L as ->. injection V as ->. rewrite G.
    destruct (Z.ltb_spec (Z.of_nat n) 0); [lia|]. rewrite Nat2Z.id, Kn, D. cbn.
    apply no_group_secret. intros e' g' I Gg. pose proof (No (key e')) as Nk. rewrite Gg in Nk.
    apply Nk. intros E. apply NI. rewrite <- E. by apply list_elem_of_fmap_2.
  - assert (key e0 <> key e) as Ne.
    { intros E. apply NI. rewrite E. apply list_elem_of_fmap_2. by eapply list_elem_of_lookup_2. }
    pose proof (No _ Ne) as N0. trans (group_secret dn enc l vs s); [|by eapply IH].
    by destruct (group dn (key e0)) as [[pk0 [ks0|]]|].
Qed.

(** The secret of a block that was shared with a group, for who has its keys. *)
Lemma shared_secret dn dn' env secret b b' e info pk ks more s : no_admins dn ->
  data_changed (okb_of b) = true -> seal dn env None secret b = (Ok tt, b') ->
  e ∈ acl_group_entries b -> can_read e = true -> NoDup (key <$> acl_group_entries b) ->
  length (Blocks.group_version b) = length (acl_group_entries b) ->
  group dn (key e) = Some info -> group_public_keys info = public <$> ks -> ks <> [] ->
  group dn' (key e) = Some (mkGroup _ _ pk (Some (ks ++ more))) ->
  (forall k, k <> key e -> group dn' k ≫= group_keys = None) ->
  group_secret dn' (use_encrypt b') (acl_group_entries b') (Blocks.group_version b') s = secret.
Proof.
  intros NA Ch Sl I R ND Len Gd Pg Nk Gd' No.
  destruct (last ks) as [p|] eqn:La; [|by apply last_None in La].
  apply list_elem_of_lookup in I as [i I]. pose proof (seal_shares _ _ _ _ _ _ NA Ch Sl) as Sh.
  destruct (group_tokens_lookup dn (use_encrypt b') secret _ _ i e info (public p) I Len R Gd)
    as [T1 T2]; [by rewrite Pg, fmap_last, La|].
  rewrite Sh in T1, T2. cbn [fst snd] in T1, T2.
  assert (length ks <> 0)%nat as Lk by (by destruct ks).
  apply (group_secret_found dn' _ _ _ i (token_of (use_encrypt b') secret (public p) e)
    (length ks - 1) pk (ks ++ more) p); try done.
  - assert (key <$> acl_group_entries b' = key <$> acl_group_entries b) as ->; [|done].
    apply rights_keys. pose proof (group_tokens_right dn (use_encrypt b') secret
      (acl_group_entries b) (Blocks.group_version b)) as G. by rewrite Sh in G.
  - rewrite T2, Pg, length_fmap. f_equal. lia.
  - apply lookup_app_l_Some. rewrite last_lookup in La.
    by replace (length ks - 1)%nat with (pred (length ks)) by lia.
  - apply decrypt_encrypt.
Qed.


(** *** An administrator who was removed *)

Lemma seal_content_groups dn env secret b b' : no_admins dn -> data_changed (okb_of b) = false ->
  seal dn env None secret b = (Ok tt, b') ->
  acl_group_entries b' = acl_group_entries b /\ Blocks.group_version b' = Blocks.group_version b.
Proof. intros NA D E. pose proof (seal_content _ _ _ _ _ _ NA D E) as C. by injection C. Qed.

Lemma emplaced k t (l : list (K * bytes)) : (k, t) ∈ emplace_admin before k t l.
Proof.
  induction l as [|a l IH]; cbn; [by left|]. destruct (before k a.1); [by left|by right].
Qed.

Lemma not_downgraded (b0 b : acb K P) l vs : acl_group_entries b = [] -> downgraded l vs b = false.
Proof.
  intros G. revert vs. induction l as [|e l IH]; intros [|v vs]; try done. cbn. by rewrite G, IH.
Qed.

(** C11. The key of the owner is not changed when an administrator is removed:
    one who kept it makes itself an administrator again, in a block that is
    valid and that replaces the other. *)
Theorem removed_admin_returns master ks g dn v p env secret : group_became master ks g ->
  no_admins dn -> validate_acb dn (acb_of g) true = Success ->
  acl_changed (acb_of g) = false -> data_changed (okb_of (acb_of g)) = false ->
  next_seal_version (okb_of (acb_of g)) = None -> since_0_8_ v ->
  acl_group_entries (acb_of g) = [] -> Blocks.group_version (acb_of g) = [] ->
  owner_pair private_format (public master) p -> ~ K_ dn ∈ list_admins g ->
  let g0 := mkGB _ _ (upd_okb (set_owner_private p) (received dn v (acb_of g))) [] in
  exists g1 g2, add_admin_ private_format before (K_ dn) g0 = (Ok tt, g1) /\
    seal_gb dn env secret g1 = (Ok tt, g2) /\ K_ dn ∈ list_admins g2 /\
    validate_acb dn (acb_of g2) true = Success /\ validate_next (acb_of g) (acb_of g2) = Success.
Proof.
  intros Hd%group_held NA Va Ac D Nx V Gs Vs Op Na g0.
  pose proof (received_at_rest _ _ (proj2 Some_) dn v _ _ g V Hd D) as Rest.
  assert (part_of g0 = part_of g) as P0 by by apply received_part.
  set (l := emplace_admin before (K_ dn)
    (encrypt false (K_ dn) (serialize_private private_format p)) (admin_keys (part_of g))).
  set (g1 := upd_acb (set_acl_changed true) (upd_part (set_admins l) g0)).
  assert (add_admin_ private_format before (K_ dn) g0 = (Ok tt, g1)) as E1.
  { unfold add_admin_. rewrite bind_read, P0.
    destruct (find_admin _ _) as [t|] eqn:Fa; [|unfold g1, l; by rewrite <- P0].
    apply found_admin in Fa. destruct Na. unfold list_admins.
    change (K_ dn) with ((K_ dn, t).1). by apply list_elem_of_fmap_2. }
  destruct (owned_seal_is_valid dn env None secret (acb_of g1) p) as (b & Es & Vb & _).
  { apply validate_acb_iff in Va as (O & _). unfold owner_ok in O. rewrite validate_owner_iff in O.
    split; [apply O|]. by split. }
  { change (public p = owner_key (okb_of (acb_of g))). rewrite (held_owner _ _ _ _ _ (proj1 Hd)). apply Op. }
  { destruct Hd as [F (R1 & R2 & O)]. split; [exact R2|]. right.
    destruct (O D) as (s & Ns & Os). apply (received_opens dn v) in Os; [|done].
    destruct Os as (_ & To & _). exists p, s. split; [done|].
    change (decrypt (use_encrypt (received dn v (acb_of g))) p (owner_token (received dn v (acb_of g))) = Some s).
    rewrite To. cbn [received okb_of received_okb owner_key].
    rewrite (held_owner _ _ _ _ _ F), <- (proj1 Op). apply decrypt_encrypt. }
  { intros k. destruct NA as (_ & _ & -> & ->). set_solver. }
  { done. }
  { cbn. rewrite Nx. by case_match. }
  { done. }
  exists g1, (upd_acb (fun _ => b) g1). split; [exact E1|].
  split; [unfold seal_gb, on_acb; by rewrite Es|].
  destruct (seal_frame _ _ _ _ _ _ NA Es) as (Fr & _). unfold frame, lists, identity in Fr.
  injection Fr as _ _ _ _ Pt Ad _ _ _ _ _.
  split; [|split; [exact Vb|]].
  - unfold list_admins, part_of. cbn [upd_acb acb_of]. rewrite Pt. cbn.
    change (K_ dn) with ((K_ dn, encrypt false (K_ dn) (serialize_private private_format p)).1).
    apply list_elem_of_fmap_2, emplaced.
  - destruct (seal_content_groups _ _ _ _ _ NA (Rest : data_changed (okb_of (acb_of g1)) = false) Es) as [G2 V2].
    change (acl_group_entries b = acl_group_entries (acb_of g)) in G2.
    change (Blocks.group_version b = Blocks.group_version (acb_of g)) in V2.
    unfold validate_next. cbn [upd_acb acb_of]. rewrite Ad.
    change (address (okb_of (acb_of g1))) with (address (okb_of (acb_of g))).
    rewrite eqb_refl, G2, V2, Gs, Vs. cbn [negb length Nat.eqb]. by rewrite not_downgraded by congruence.
Qed.
End Theorems.

(** *** The theorems on a concrete group *)

Section Witnesses.
Abbreviation F := Binary.int64.
Abbreviation become := (group_became F F Z.ltb).

Lemma toy_something : something (K := Z) (P := Z).
Proof. split; [done|]. intros s d Ns E. by apply app_eq_nil in E as [? _]. Qed.

Definition at_node (k : Z) (info : option (group_info Z Z)) : doughnut Z Z :=
  mkDoughnut _ _ k (Version.make 0 8 0) true [] [] [] []
    (fun g => if bool_decide (g = 10) then info else None).
Definition v8 : Version.t := Version.make 0 8 0.
Definition act (a : action) (k : Z) : resolver Z := mkResolver _ a (Some k) (Some other) None.
Definition do (r : resolver Z) (g : gb Z Z) : gb Z Z :=
  (perform F F Z.ltb (at_node 1 None) 30 r g).2.
Definition seal1 (g : gb Z Z) : gb Z Z := (seal_gb (at_node 1 None) true [9] g).2.

Definition made_group : gb Z Z := (make_gb F F (at_node 1 None) 10 20).2.
Definition two_members : gb Z Z := seal1 (do (act add_member 3) (do (act add_member 2) made_group)).
Definition one_left : gb Z Z := seal1 (do (act remove_member 3) two_members).
Definition admin_left : gb Z Z :=
  seal1 (do (act remove_admin 4) (seal1 (do (act add_admin 4) made_group))).

Lemma key_fits k : 0 <= k <= 100 -> Binary.fits F k.
Proof. cbn. unfold int64_range. lia. Qed.
Lemma keys_fit ks : (length ks <= 5)%nat -> Forall (fun k => 0 <= k <= 100) ks ->
  Binary.fits (Binary.vector F) ks.
Proof.
  intros L A. split; [unfold Binary.small; lia|]. eapply Forall_impl; [exact A|]. apply key_fits.
Qed.

Lemma does r ks g : control_key g = Some 10 -> Binary.fits (Binary.vector F) (next_keys 30 r ks) ->
  (perform F F Z.ltb (at_node 1 None) 30 r g).1 = Ok tt ->
  step F F Z.ltb (ks, g) (next_keys 30 r ks, do r g).
Proof.
  intros C Fi E. apply (Edited _ _ _ (at_node 1 None)); [by eexists|done|].
  unfold do. rewrite <- E. apply surjective_pairing.
Qed.
Lemma seals ks g : (seal_gb (at_node 1 None) true [9] g).1 = Ok tt ->
  step F F Z.ltb (ks, g) (ks, seal1 g).
Proof.
  intros E. apply (Sealed _ _ _ (at_node 1 None) true [9]); [done|done|].
  unfold seal1. rewrite <- E. apply surjective_pairing.
Qed.

Ltac few_keys := apply keys_fit; [cbn; lia|repeat constructor; lia].
Ltac do_step r :=
  eapply rtc_l; [apply (does r); [vm_compute; reflexivity|few_keys|vm_compute; reflexivity]|];
  cbn [next_keys action_ act app].
Ltac seal_step := eapply rtc_l; [apply seals; vm_compute; reflexivity|].

Lemma became_made ks g : rtc (step F F Z.ltb) ([20], made_group) (ks, g) -> become 10 ks g.
Proof.
  intros R. exists (at_node 1 None), 20, made_group. split; [by apply key_fits; lia|].
  split; [few_keys|]. split; [vm_compute; reflexivity|exact R].
Qed.
Lemma became_two : become 10 [20] two_members.
Proof.
  apply became_made. unfold two_members. do_step (act add_member 2). do_step (act add_member 3). seal_step.
  apply rtc_refl.
Qed.
Lemma then_one_left : rtc (step F F Z.ltb) ([20], two_members) ([20; 30], one_left).
Proof. unfold one_left. do_step (act remove_member 3). seal_step. apply rtc_refl. Qed.
Lemma became_admin_left : become 10 [20] admin_left.
Proof.
  apply became_made. unfold admin_left. do_step (act add_admin 4). seal_step. do_step (act remove_admin 4). seal_step.
  apply rtc_refl.
Qed.


Lemma removal_makes_a_key_witness :
  exists g1, perform F F Z.ltb (at_node 1 None) 30 (removal 3) two_members = (Ok tt, g1) /\
  forall env secret g2, secret <> [] -> seal_gb (at_node 1 None) env secret g1 = (Ok tt, g2) ->
    current_public_key g2 = Some 30 /\
    (forall k', k' ∈ (key <$> acl_entries (acb_of g2)) <->
       k' <> 3 /\ k' ∈ (key <$> acl_entries (acb_of two_members))) /\
    forall dn' v, since_0_8_ v ->
      (entitled 10 dn' g2 -> exists g', received_gb F dn' v g2 = Ok g' /\
         (all_keys F dn' g').1 = Ok [20; 30]) /\
      (K_ dn' = 3 -> ~ 3 ∈ list_admins two_members -> acl_group_entries (acb_of two_members) = [] ->
         exists g', received_gb F dn' v g2 = Ok g' /\
           (all_keys F dn' g').1 = Throw (OfBlock NotReadable)).
Proof.
  apply (removal_makes_a_key F F Z.ltb toy_something 10 [20] two_members (at_node 1 None) 30 3);
    [exact became_two|done|by eexists|done|few_keys].
Defined.

Definition author : doughnut Z Z := at_node 7 (Some (info F (at_node 7 None) two_members)).
Definition reader : doughnut Z Z := at_node 2 (Some (mkGroup _ _ [20; 30] (Some [20; 30]))).
Definition for_group : acb Z Z :=
  (set_group_permissions author 10 true false (make_acb author [42] [5] 7)).2.
Definition shared_block : acb Z Z := (seal author true None [9] for_group).2.
Definition group_at_reader : gb Z Z :=
  match received_gb F reader v8 one_left with Ok g => g | Throw _ => one_left end.


Lemma removed_admin_returns_witness :
  ~ 4 ∈ list_admins admin_left /\
  let g0 := mkGB _ _ (upd_okb (set_owner_private 10) (received (at_node 4 None) v8 (acb_of admin_left))) [] in
  exists g1 g2, add_admin_ F Z.ltb 4 g0 = (Ok tt, g1) /\
    seal_gb (at_node 4 None) true [9] g1 = (Ok tt, g2) /\ 4 ∈ list_admins g2 /\
    validate_acb (at_node 4 None) (acb_of g2) true = Success /\
    validate_next (acb_of admin_left) (acb_of g2) = Success.
Proof.
  split; [vm_compute; set_solver|].
  apply (removed_admin_returns F F Z.ltb toy_something 10 [20] admin_left (at_node 4 None) v8 10 true [9]);
    [exact became_admin_left|done|vm_compute; reflexivity..| |].
  - split; [done|apply key_fits; lia].
  - vm_compute. set_solver.
Defined.
End Witnesses.
