(* ===== verification/Rpc.v ===== *)
(** Calls between nodes: memo/RPC.hh, over the channels of Channels.v and the
    binary format of Binary.v.

    A call opens a channel, writes the name of a procedure and its arguments,
    and reads the answer from it. The server accepts one channel at a time (with
    RPC_SERVE_THREADS at one, as it is by default), runs the procedure and
    answers. Both ends may encipher what they write with a key. *)

From stdpp Require Import base tactics option gmap list.
From Stdlib Require Import ZArith Lia.
From S2P Require Import Prelude Versions Buffers Streams Addresses Binary Protocol Channels.
Open Scope Z_scope.

Module Rpc.

(** What a procedure does: it returns, throws an elle::Error, or throws
    something else. *)
Inductive outcome {X R : Type} :=
  | Returned (r : R)
  | Raised (x : X)
  | Escaped.
Arguments outcome : clear implicits.

(** The ends of a connection fail. *)
Inductive error :=
  | Undecipherable
  | Malformed (e : Binary.error)
  | Unregistered          (* an exception of a class that is not serialized *)
  | NoKey.
Inductive call_error {X : Type} :=
  | Remote (x : X)        (* the exception of the procedure *)
  | Unreadable (e : Binary.error)
  | BadAnswer.            (* cannot be deciphered *)
Arguments call_error : clear implicits.

(** ConcreteRPCHandler: the arguments are written one after the other, and so
    are one value, of type [args]. A procedure sees the key of the server and
    the state [S] of the program. *)
Record procedure {S X : Type} := mkProcedure {
  args : Type;
  ret : Type;
  args_format : Binary.format args;
  ret_format : Binary.format ret;
  function : args -> option bytes * S -> outcome X ret * (option bytes * S)
}.
Arguments procedure : clear implicits.

(** Nothing is written for the result of a procedure that has none. *)
Program Definition void : Binary.format unit := {|
  Binary.fits _ := True;
  Binary.put _ := [];
  Binary.get _ := mret tt
|}.
Next Obligation. by intros stack [] rest _. Qed.

(** RPCServer. *)
Record server {S X : Type} := mkServer {
  rpcs : bytes -> option (procedure S X);
  key : option bytes;
  state : S
}.
Arguments server : clear implicits.

Section Rpc.
Context {S X : Type}.
(** SecretKey, and what is written of an exception, for those whose class is
    registered; [unknown] is UnknownRPC. *)
Context (encipher : bytes -> bytes -> bytes) (decipher : bytes -> bytes -> option bytes).
Context (exception_format : Binary.format X) (registered : X -> bool) (unknown : bytes -> X).
(** What the variables that are read into held. *)
Context (stack : bytes).

Implicit Types (s : server S X) (h : procedure S X).

(** [add]: the last procedure of a name is the one that is called. *)
Definition add (name : bytes) (h : procedure S X) s : server S X :=
  mkServer _ _ (fun n => if bool_decide (n = name) then Some h else rpcs s n) (key s) (state s).
Definition set_state (x : option bytes * S) s : server S X := mkServer _ _ (rpcs s) x.1 x.2.

Definition enciphered (k : option bytes) (b : bytes) : bytes :=
  match k with Some k => encipher k b | None => b end.
Definition deciphered (k : option bytes) (b : bytes) : option bytes :=
  match k with Some k => decipher k b | None => Some b end.

(** *** The server *)

Abbreviation serving := (method (server S X) error).

(** The exception that is answered; one whose class is not registered is thrown
    again as another. *)
Definition put_exception (x : X) : result error bytes :=
  if registered x
  then Ok (Binary.put Binary.boolean false ++ Binary.put exception_format x)
  else Throw Unregistered.

(** [handle]: reading the arguments is not in the scope of the handler. *)
Definition handle (h : procedure S X) (input : bytes) : serving bytes :=
  match (Binary.get (args_format h) stack input).1 with
  | Throw e => throw (Malformed e)
  | Ok a =>
      s ← read;
      let '(o, x) := function h a (key s, state s) in
      write (set_state x s);;
      match o with
      | Returned r => mret (Binary.put Binary.boolean true ++ Binary.put (ret_format h) r)
      | Raised e => lift (put_exception e)
      | Escaped => mret (Binary.put Binary.boolean false)
      end
  end.

(** What is left of a stream is what the rest is read from. *)
Definition parse {A} (m : Binary.input A) (b : bytes) : result error (A * bytes) :=
  match m b with
  | (Ok a, b') => Ok (a, b')
  | (Throw e, _) => Throw (Malformed e)
  end.

(** [_serve] of a channel, between the request that is read and the answer that
    is written. The answer is enciphered if there was a key before. *)
Definition serve_request (request : bytes) : serving bytes :=
  s ← read;
  let had_key := key s in
  request ← match deciphered had_key request with
            | Some r => mret r
            | None => throw Undecipherable
            end;
  '(name, input) ← lift (parse (Binary.check_magic;; Binary.get Binary.buffer stack) request);
  response ← match rpcs s name with
             | None => lift (put_exception (unknown name))
             | Some h => handle h input
             end;
  s ← read;
  let response := Binary.write_magic ++ response in
  match had_key, key s with
  | None, _ => mret response
  | Some _, Some k => mret (encipher k response)
  | Some _, None => throw NoKey
  end.

(** *** The client *)

(** RPCCall::_call, before the channel is written and after it was read. *)
Definition request (k : option bytes) (name : bytes) (h : procedure S X) (a : args h) : bytes :=
  enciphered k (Binary.write_magic ++ Binary.put Binary.buffer name ++ Binary.put (args_format h) a).

Definition get_answer {R} (F : Binary.format R) : Binary.input (result X R) :=
  Binary.check_magic;;
  success ← Binary.get Binary.boolean stack;
  if (success : bool) then r ← Binary.get F stack; mret (Ok r)
  else x ← Binary.get exception_format stack; mret (Throw x).
Definition answer (k : option bytes) {R} (F : Binary.format R) (response : bytes) :
    result (call_error X) R :=
  match deciphered k response with
  | None => Throw BadAnswer
  | Some b =>
      match (get_answer F b).1 with
      | Ok (Ok r) => Ok r
      | Ok (Throw x) => Throw (Remote x)
      | Throw e => Throw (Unreadable e)
      end
  end.

(** *** A connection *)

(** The ends of the channels, the server while it serves, the requests that were
    written, by channel, and those that were answered, with what was. *)
Record net := mkNet {
  ends : Channels.world;
  serving_ : option (server S X);
  calls : list (Z * bytes);
  served : list (Z * bytes * bytes)
}.

(** [c] is the end of the client. *)
Context (v : Version.t) (c : bool).

Inductive event :=
  | Call (request : bytes)
  | Arrive (b : bool)
  | Serve
  | Return (id : Z).

Definition set_ends (w : Channels.world) (n : net) : net := mkNet w (serving_ n) (calls n) (served n).

(** A call, until it waits for its answer. *)
Definition start (r : bytes) (n : net) : net :=
  match (Channels.open (Channels.ends (ends n) c)).1 with
  | Ok id =>
      mkNet (Channels.run stack v [Channels.Open c; Channels.Write c id r] (ends n))
        (serving_ n) (calls n ++ [(id, r)]) (served n)
  | Throw _ => set_ends (Channels.happen stack v (Channels.Open c) (ends n)) n
  end.

(** A turn of [_serve]: it accepts a channel, which has a packet since it was
    opened by one, and serves it; an exception ends the loop. *)
Definition serve_next (n : net) : net :=
  match serving_ n, Channels.accept (Channels.ends (ends n) (negb c)) with
  | Some s, (Ok id, e) =>
      match Channels.get id e with
      | (Ok p, _) =>
          let w := Channels.run stack v [Channels.Accept (negb c); Channels.Get (negb c) id] (ends n) in
          match serve_request p s with
          | (Ok a, s') =>
              mkNet (Channels.happen stack v (Channels.Write (negb c) id a) w) (Some s') (calls n)
                (served n ++ [(id, p, a)])
          | (Throw _, _) => mkNet w None (calls n) (served n)
          end
      | _ => n
      end
  | _, _ => n
  end.

Definition happen (e : event) (n : net) : net :=
  match e with
  | Call r => start r n
  | Arrive b => set_ends (Channels.happen stack v (Channels.Arrive b) (ends n)) n
  | Serve => serve_next n
  | Return id => set_ends (Channels.happen stack v (Channels.Get c id) (ends n)) n
  end.

Definition run (es : list event) (n : net) : net := fold_left (fun n e => happen e n) es n.
Definition connected (s : server S X) : net := mkNet Channels.connected (Some s) [] [].

(** The server alone: it answers requests one after the other. *)
Fixpoint serve_all (requests : list bytes) (s : server S X) : option (list bytes * server S X) :=
  match requests with
  | [] => Some ([], s)
  | r :: requests =>
      match serve_request r s with
      | (Ok a, s') => '(l, s'') ← serve_all requests s'; Some (a :: l, s'')
      | (Throw _, _) => None
      end
  end.
End Rpc.
End Rpc.
