(* ===== verification/RpcTheorems.v ===== *)
(** The theorems on calls: a remote call does what the procedure does, and
    answers are those of the calls they are given to. *)

From stdpp Require Import base tactics option gmap list.
From Stdlib Require Import ZArith Lia.
From S2P Require Import Prelude Versions Buffers Streams Addresses Binary Protocol Channels Rpc.
Import Rpc.
Open Scope Z_scope.

Section Theorems.
Context {S X : Type}.
Context (encipher : bytes -> bytes -> bytes) (decipher : bytes -> bytes -> option bytes).
Context (exception_format : Binary.format X) (registered : X -> bool) (unknown : bytes -> X).
Context (stack : bytes).

Implicit Types (s : server S X) (h : procedure S X).

Abbreviation serve_request := (serve_request encipher decipher exception_format registered unknown stack).
Abbreviation enciphered := (enciphered encipher).
Abbreviation deciphered := (deciphered decipher).

(** *** One call *)

Lemma deciphered_enciphered k b : (forall k b, decipher k (encipher k b) = Some b) ->
  deciphered k (enciphered k b) = Some b.
Proof. intros D. by destruct k; cbn. Qed.

Lemma get_written {A} (F : Binary.format A) a rest : Binary.fits F a ->
  Binary.get F stack (Binary.put F a ++ rest) = (Ok a, rest).
Proof. apply Binary.get_put. Qed.

Lemma get_all {A} (F : Binary.format A) a : Binary.fits F a ->
  Binary.get F stack (Binary.put F a) = (Ok a, []).
Proof. intros W. rewrite <- (app_nil_r (Binary.put F a)). by apply Binary.get_put. Qed.

Lemma check_written b : Binary.check_magic (Binary.write_magic ++ b) = (Ok tt, b).
Proof. done. Qed.

Lemma parse_request name rest : Binary.fits Binary.buffer name ->
  parse (Binary.check_magic;; Binary.get Binary.buffer stack)
    (Binary.write_magic ++ Binary.put Binary.buffer name ++ rest) = Ok (name, rest).
Proof.
  intros W. unfold parse. by rewrite (bind_Ok _ _ _ _ _ (check_written _)), get_written.
Qed.

Lemma read_answer k {R} (F : Binary.format R) (b : bool) rest :
  (forall k b, decipher k (encipher k b) = Some b) ->
  answer decipher exception_format stack k F
    (enciphered k (Binary.write_magic ++ Binary.put Binary.boolean b ++ rest)) =
  if b then match (Binary.get F stack rest).1 with
            | Ok r => Ok r | Throw e => Throw (Unreadable e) end
  else match (Binary.get exception_format stack rest).1 with
       | Ok x => Throw (Remote x) | Throw e => Throw (Unreadable e) end.
Proof.
  intros D. unfold answer. rewrite deciphered_enciphered by done.
  unfold get_answer. rewrite (bind_Ok _ _ _ _ _ (check_written _)).
  rewrite (bind_Ok _ _ _ _ _ (get_written Binary.boolean b rest I)).
  unfold mbind, method_bind, mret, method_ret.
  destruct b; [destruct (Binary.get F stack rest) as [[]]|destruct (Binary.get exception_format stack rest) as [[]]];
    done.
Qed.

(** What the procedure gives can be written. *)
Definition writable {R} (F : Binary.format R) (o : outcome X R) : Prop :=
  match o with
  | Returned r => Binary.fits F r
  | Raised x => registered x = true /\ Binary.fits exception_format x
  | Escaped => True
  end.

(** What the caller gets; of an exception that is not an elle::Error, whatever is
    read when there is nothing to read. *)
Definition seen {R} (o : outcome X R) : result (call_error X) R :=
  match o with
  | Returned r => Ok r
  | Raised x => Throw (Remote x)
  | Escaped =>
      match (Binary.get exception_format stack []).1 with
      | Ok x => Throw (Remote x)
      | Throw e => Throw (Unreadable e)
      end
  end.

Lemma serve_deciphered k name rest s : (forall k b, decipher k (encipher k b) = Some b) ->
  key s = k -> Binary.fits Binary.buffer name ->
  serve_request (enciphered k (Binary.write_magic ++ Binary.put Binary.buffer name ++ rest)) s =
  (response ← match rpcs s name with
              | None => lift (put_exception exception_format registered (unknown name))
              | Some h => handle exception_format registered stack h rest
              end;
   s' ← Prelude.read;
   match k, key s' with
   | None, _ => mret (Binary.write_magic ++ response)
   | Some _, Some k' => mret (encipher k' (Binary.write_magic ++ response))
   | Some _, None => throw NoKey
   end) s.
Proof.
  intros D Ks Fn. unfold Rpc.serve_request. rewrite bind_read, Ks, deciphered_enciphered by done.
  rewrite bind_ret_l. by rewrite parse_request.
Qed.


(** A call to a procedure the server does not have throws UnknownRPC to its
    caller, and changes nothing. *)
Theorem unknown_call_throws s name h a :
  (forall k b, decipher k (encipher k b) = Some b) ->
  rpcs s name = None -> Binary.fits Binary.buffer name ->
  registered (unknown name) = true -> Binary.fits exception_format (unknown name) ->
  exists p, serve_request (request encipher (key s) name h a) s = (Ok p, s) /\
    answer decipher exception_format stack (key s) (ret_format h) p = Throw (Remote (unknown name)).
Proof.
  intros D Rp Fn Rg Fx. exists (enciphered (key s) (Binary.write_magic ++
    Binary.put Binary.boolean false ++ Binary.put exception_format (unknown name))). split.
  - unfold request. rewrite (serve_deciphered _ _ _ _ D eq_refl Fn), Rp.
    unfold put_exception. rewrite Rg. unfold mbind, method_bind, lift, Prelude.read.
    by destruct (key s).
  - rewrite read_answer by done. by rewrite get_all.
Qed.

(** *** Any number of calls *)

Context (v : Version.t) (c : bool).

Abbreviation happen := (happen encipher decipher exception_format registered unknown stack v c).
Abbreviation run := (run encipher decipher exception_format registered unknown stack v c).
Abbreviation serve_all := (serve_all encipher decipher exception_format registered unknown stack).
Abbreviation chans w b := (Channels.channels (Channels.ends w b)).

(** A channel that is open stays open. *)
Lemma kept_end b b' id e w : is_Some (chans w b' !! id) ->
  (is_Some (chans w b !! id) -> is_Some (Channels.channels e !! id)) ->
  is_Some (Channels.channels (Channels.upd (Channels.ends w) b e b') !! id).
Proof.
  intros I K. unfold Channels.upd. destruct (Bool.eqb b' b) eqn:E; [|done].
  apply Bool.eqb_prop in E as ->. auto.
Qed.

Lemma register_kept i ps e id : is_Some (Channels.channels e !! id) ->
  is_Some (Channels.channels (Channels.register i ps e).2 !! id).
Proof.
  intros I. unfold Channels.register. monad_unfold. cbn.
  destruct (bool_decide _); [done|]. destruct (Channels.failed e); [done|]. cbn.
  rewrite lookup_insert_is_Some. destruct (decide (i = id)); auto.
Qed.

Lemma channel_kept b id e w : is_Some (chans w b !! id) ->
  is_Some (chans (Channels.happen stack v e w) b !! id).
Proof.
  intros I. destruct e as [b'|b'|b' id' p|b'|b' id']; cbn [Channels.happen].
  - apply kept_end; [done|]. intros J. unfold Channels.open, Channels.id_generate. monad_unfold. cbn.
    pose proof (register_kept (Channels.id_current (Channels.ends w b')) []
      (Channels.set_id (Channels.next_id (Channels.master (Channels.ends w b'))
        (Channels.id_current (Channels.ends w b'))) (Channels.ends w b')) id J) as K.
    by destruct (Channels.register _ _ _) as [[] ?].
  - apply kept_end; [done|]. intros J. unfold Channels.accept. rewrite bind_read.
    destruct (Channels.failed _); [done|]. by destruct (Channels.channels_new _).
  - by case_decide.
  - destruct (Channels.wire w (negb b')); [done|]. apply kept_end; [done|]. intros J.
    unfold Channels.receive. destruct (Channels.uint32_get stack v l) as [[n|] q]; [|done].
    rewrite bind_read. destruct (Channels.channels (Channels.ends w b') !! wrap_s 32 n).
    + cbn. rewrite lookup_insert_is_Some. destruct (decide (wrap_s 32 n = id)); auto.
    + destruct (_ || _); [done|]. pose proof (register_kept (wrap_s 32 n) [q] _ id J) as K.
      monad_unfold. by destruct (Channels.register _ _ _) as [[] ?].
  - destruct (Channels.get_spec id' (Channels.ends w b')) as [(p & ps & C & ->)|(_ & e & ->)].
    + apply kept_end; [done|]. intros J. cbn. rewrite lookup_insert_is_Some.
      destruct (decide (id' = id)); auto.
    + by apply kept_end.
Qed.

(** The bytes of a channel. *)
Definition for_id {A} (id : Z) (l : list (Z * A)) : list A :=
  omap (fun x => if x.1 =? id then Some x.2 else None) l.
Definition requests_of (n : @net S X) : list (Z * bytes) := fst <$> served n.
Definition answers_of (n : @net S X) : list (Z * bytes) := (fun x => (x.1.1, x.2)) <$> served n.

Lemma for_id_snoc {A} id (l : list (Z * A)) i a :
  for_id id (l ++ [(i, a)]) = if id =? i then for_id id l ++ [a] else for_id id l.
Proof.
  unfold for_id. rewrite omap_app. cbn. rewrite (Z.eqb_sym i).
  destruct (id =? i); by rewrite ?app_nil_r.
Qed.

Lemma for_id_elem {A} id (l : list (Z * A)) a : a ∈ for_id id l <-> (id, a) ∈ l.
Proof.
  unfold for_id. rewrite list_elem_of_omap. split.
  - intros ([i b] & I & E). cbn in E. destruct (Z.eqb_spec i id) as [->|]; [|done].
    by injection E as ->.
  - intros I. exists (id, a). split; [done|]. cbn. by rewrite Z.eqb_refl.
Qed.

Record coupled s0 (n : @net S X) : Prop := {
  cp_linked : Channels.linked stack v (ends n);
  cp_unique : NoDup (calls n).*1;
  cp_open id r : (id, r) ∈ calls n -> is_Some (chans (ends n) c !! id);
  cp_called id : Channels.sent (ends n) c id = for_id id (calls n);
  cp_answered id : Channels.sent (ends n) (negb c) id = for_id id (answers_of n);
  cp_read id : for_id id (requests_of n) `prefix_of` Channels.got (ends n) (negb c) id;
  cp_alive s : serving_ n = Some s ->
    (forall id, Channels.got (ends n) (negb c) id = for_id id (requests_of n)) /\
    serve_all (requests_of n).*2 s0 = Some ((answers_of n).*2, s);
  cp_served : exists s, serve_all (requests_of n).*2 s0 = Some ((answers_of n).*2, s)
}.

Lemma serve_all_snoc l p a s s1 s2 out : serve_all l s = Some (out, s1) ->
  serve_request p s1 = (Ok a, s2) -> serve_all (l ++ [p]) s = Some (out ++ [a], s2).
Proof.
  revert s out. induction l as [|r l IH]; intros s out E1 E2; cbn in *.
  - injection E1 as <- <-. by rewrite E2.
  - destruct (serve_request r s) as [[a'|] s']; [|done].
    destruct (serve_all l s') as [[l' s'']|] eqn:E; [|done]. cbn in E1. injection E1 as <- <-.
    by rewrite (IH _ _ E E2).
Qed.

(** An event of the channels alone, that writes nothing and that the server does
    not read. *)
Lemma coupled_quiet s0 n e w : coupled s0 n -> w = Channels.happen stack v e (ends n) ->
  Channels.sent w = Channels.sent (ends n) ->
  Channels.got w (negb c) = Channels.got (ends n) (negb c) ->
  coupled s0 (mkNet w (serving_ n) (calls n) (served n)).
Proof.
  intros [] -> Se Go. split; cbn [ends calls served serving_]; rewrite ?Se, ?Go; try done.
  - by apply Channels.linked_happen.
  - intros id r I. eapply channel_kept; eauto.
Qed.

Lemma opened e id e' : Channels.open e = (Ok id, e') ->
  Channels.channels e !! id = None /\ Channels.channels e' = <[id := []]> (Channels.channels e).
Proof.
  unfold Channels.open, Channels.id_generate, Channels.register. monad_unfold. cbn.
  destruct (bool_decide _) eqn:D; [done|]. destruct (Channels.failed e); [done|].
  intros [= <- <-]. split; [|done]. apply bool_decide_eq_false in D. by apply eq_None_not_Some.
Qed.

Lemma coupled_call s0 n r : coupled s0 n -> coupled s0 (happen (Call r) n).
Proof.
  intros Cp. cbn [Rpc.happen]. unfold start.
  destruct (Channels.open (Channels.ends (ends n) c)) as [[id|er] e'] eqn:E; cbn [fst].
  2: { by eapply coupled_quiet. }
  destruct (opened _ _ _ E) as [Fr Ch].
  set (w1 := Channels.happen stack v (Channels.Open c) (ends n)).
  assert (Channels.ends w1 c = e') as E1.
  { unfold w1. cbn. by rewrite E, Channels.upd_same. }
  assert (is_Some (chans w1 c !! id)) as I1 by (rewrite E1, Ch, lookup_insert_eq; by eexists).
  pose proof (coupled_quiet s0 n (Channels.Open c) w1 Cp eq_refl eq_refl eq_refl) as C1.
  change (Channels.run stack v [Channels.Open c; Channels.Write c id r] (ends n)) with
    (Channels.happen stack v (Channels.Write c id r) w1).
  assert (~ id ∈ (calls n).*1) as New.
  { intros ([i r'] & Ei & I)%list_elem_of_fmap. cbn in Ei. subst i.
    destruct (cp_open _ _ Cp _ _ I) as [? J]. congruence. }
  assert (Channels.sent (Channels.happen stack v (Channels.Write c id r) w1) =
    Channels.log (Channels.sent w1) c id r /\
    Channels.got (Channels.happen stack v (Channels.Write c id r) w1) = Channels.got w1) as [Se Go]
    by (cbn [Channels.happen]; by rewrite decide_True).
  destruct C1. split; cbn [ends calls served serving_] in *; rewrite ?Se, ?Go; try done.
  - by apply Channels.linked_happen.
  - rewrite fmap_app. apply NoDup_app. split; [done|]. split; [|apply NoDup_singleton].
    intros i I ->%list_elem_of_singleton. done.
  - intros i r' [I|I]%elem_of_app; [eapply channel_kept; eauto|].
    apply list_elem_of_singleton in I as [= -> ->]. by apply channel_kept.
  - intros i. rewrite Channels.log_eq, Bool.eqb_reflx, for_id_snoc. cbn [andb].
    rewrite !cp_called0. by destruct (Z.eqb_spec i id) as [->|].
  - intros i. rewrite Channels.log_eq. replace (Bool.eqb (negb c) c) with false by (by destruct c).
    apply cp_answered0.
Qed.

(** The server took a channel and read it. *)
Lemma taken (n : @net S X) id e p e' : Channels.accept (Channels.ends (ends n) (negb c)) = (Ok id, e) ->
  Channels.get id e = (Ok p, e') ->
  let w := Channels.run stack v [Channels.Accept (negb c); Channels.Get (negb c) id] (ends n) in
  Channels.sent w = Channels.sent (ends n) /\
  Channels.got w = Channels.log (Channels.got (ends n)) (negb c) id p /\
  is_Some (chans w (negb c) !! id).
Proof.
  intros A G. unfold Channels.run, fold_left. cbn [Channels.happen]. rewrite A. cbn [snd].
  unfold Channels.set_end. cbn [Channels.ends]. rewrite Channels.upd_same, G.
  cbn [Channels.sent Channels.got Channels.ends]. split; [reflexivity|]. split; [reflexivity|].
  rewrite Channels.upd_same.
  destruct (Channels.get_spec id e) as [(q & ps & C & E)|(_ & er & E)]; rewrite E in G; [|done].
  injection G as <- <-. cbn. rewrite lookup_insert_eq. by eexists.
Qed.

Lemma coupled_taken s0 n id e p e' : coupled s0 n ->
  Channels.accept (Channels.ends (ends n) (negb c)) = (Ok id, e) ->
  Channels.get id e = (Ok p, e') -> is_Some (serving_ n) ->
  coupled s0 (mkNet (Channels.run stack v [Channels.Accept (negb c); Channels.Get (negb c) id] (ends n))
    None (calls n) (served n)).
Proof.
  intros [] A G [s Al]. destruct (taken n id e p e' A G) as (Se & Go & _).
  split; cbn [ends calls served serving_]; rewrite ?Se; try done.
  - by apply Channels.linked_run.
  - intros i r I. unfold Channels.run, fold_left. do 2 apply channel_kept. eauto.
  - intros i. rewrite Go, Channels.log_eq, Bool.eqb_reflx. cbn [andb].
    specialize (cp_read0 i). destruct (Z.eqb_spec i id) as [->|]; [|done].
    by apply prefix_app_r.
Qed.

Lemma coupled_serve s0 n : coupled s0 n -> coupled s0 (happen Serve n).
Proof.
  intros Cp. cbn [Rpc.happen]. unfold serve_next. destruct (serving_ n) as [s|] eqn:Al; [|done].
  destruct (Channels.accept _) as [[id|] e] eqn:A; [|done].
  destruct (Channels.get id e) as [[p|] e'] eqn:G; [|done].
  assert (is_Some (serving_ n)) as Al' by (by eexists).
  pose proof (coupled_taken s0 n id e p e' Cp A G Al') as Ct.
  destruct (Rpc.serve_request _ _ _ _ _ _ _ _) as [[a|] s'] eqn:Sv; [|exact Ct].
  destruct (taken n id e p e' A G) as (Se & Go & I).
  destruct (cp_alive _ _ Cp s Al) as [Gr Sa].
  set (w := Channels.run _ _ _ _) in *.
  assert (Channels.sent (Channels.happen stack v (Channels.Write (negb c) id a) w) =
    Channels.log (Channels.sent w) (negb c) id a /\
    Channels.got (Channels.happen stack v (Channels.Write (negb c) id a) w) = Channels.got w) as [Se' Go']
    by (cbn [Channels.happen]; by rewrite decide_True).
  assert (requests_of (mkNet w (Some s') (calls n) (served n ++ [(id, p, a)])) =
    requests_of n ++ [(id, p)]) as Rq by (unfold requests_of; cbn; by rewrite fmap_app).
  assert (answers_of (mkNet w (Some s') (calls n) (served n ++ [(id, p, a)])) =
    answers_of n ++ [(id, a)]) as An by (unfold answers_of; cbn; by rewrite fmap_app).
  assert (forall i, Channels.got w (negb c) i = for_id i (requests_of n ++ [(id, p)])) as Gw.
  { intros i. rewrite Go, Channels.log_eq, Bool.eqb_reflx, for_id_snoc. cbn [andb].
    rewrite !Gr. by destruct (Z.eqb_spec i id) as [->|]. }
  assert (serve_all (requests_of n ++ [(id, p)]).*2 s0 = Some ((answers_of n ++ [(id, a)]).*2, s')) as Sa'.
  { rewrite !fmap_app. by eapply serve_all_snoc. }
  destruct Ct. split; cbn [ends calls served serving_] in *; unfold requests_of, answers_of in *;
    cbn [served] in *; rewrite ?Se', ?Go', ?Rq, ?An; try done.
  - by apply Channels.linked_happen.
  - intros i r J. eapply channel_kept; eauto.
  - intros i. rewrite Channels.log_eq. replace (Bool.eqb c (negb c)) with false by (by destruct c).
    apply cp_called0.
  - intros i. rewrite Channels.log_eq, Bool.eqb_reflx, for_id_snoc. cbn [andb].
    rewrite !cp_answered0. by destruct (Z.eqb_spec i id) as [->|].
  - intros i. by rewrite Gw.
  - intros s1 [= <-]. split; [exact Gw|exact Sa'].
  - by exists s'.
Qed.

Lemma coupled_happen s0 n e : coupled s0 n -> coupled s0 (happen e n).
Proof.
  intros Cp. destruct e as [r|b| |id]; [by apply coupled_call| |by apply coupled_serve|].
  - cbn [Rpc.happen]. eapply coupled_quiet; [done|done|..];
      cbn [Channels.happen]; by destruct (Channels.wire _ _).
  - cbn [Rpc.happen]. eapply coupled_quiet; [done|done|..]; cbn [Channels.happen];
      destruct (Channels.get _ _) as [[]]; try done; cbn [Channels.got].
    unfold Channels.log. by rewrite Channels.upd_other.
Qed.

Lemma coupled_connected s : coupled s (connected s).
Proof.
  split; cbn; try done.
  - apply Channels.linked_connected.
  - constructor.
  - intros id r I. by apply not_elem_of_nil in I.
  - intros s1 [= <-]. done.
  - by eexists.
Qed.

Lemma coupled_run s0 es n : coupled s0 n -> coupled s0 (run es n).
Proof. revert n. induction es as [|e es IH]; intros n Cp; [done|]. by apply IH, coupled_happen. Qed.

Lemma NoDup_for_id {A} (l : list (Z * A)) :
  NoDup l.*1 <-> forall id, (length (for_id id l) <= 1)%nat.
Proof.
  induction l as [|[i a] l IH]; cbn.
  { split; [intros; lia|constructor]. }
  rewrite NoDup_cons, IH. split.
  - intros [N H] id. specialize (H id). destruct (Z.eqb_spec i id) as [->|]; [|done].
    cbn. fold (for_id id l). destruct (for_id id l) as [|a' l'] eqn:E; [cbn; lia|].
    destruct N. apply list_elem_of_fmap. exists (id, a'). split; [done|].
    apply for_id_elem. rewrite E. by left.
  - intros H. split.
    + intros ([j a'] & Ej & I)%list_elem_of_fmap. cbn in Ej. subst j.
      specialize (H i). rewrite Z.eqb_refl in H. cbn in H. fold (for_id i l) in H.
      apply for_id_elem in I. destruct (for_id i l); [by apply not_elem_of_nil in I|cbn in H; lia].
    + intros id. specialize (H id). fold (for_id id l) in *. destruct (i =? id); cbn in H; lia.
Qed.

Lemma length_answers n id : length (for_id id (answers_of n)) = length (for_id id (requests_of n)).
Proof.
  unfold answers_of, requests_of. induction (served n) as [|[[i r] a] l IH]; [done|].
  unfold for_id in *. cbn. destruct (i =? id); cbn; [by rewrite IH|done].
Qed.

(** C17. Whatever the order of calls, packets and the turns of the server: each call
    is served at most once, only calls are, and the server did the ones it answered
    one after the other; what the caller reads from the channel of a call is
    nothing yet, or the answer to that call. *)
Theorem answers_match_calls s0 es :
  let n := run es (connected s0) in
  (forall id, Channels.got (ends n) c id = [] \/
     exists r p, Channels.got (ends n) c id = [p] /\ (id, r) ∈ calls n /\ (id, r, p) ∈ served n) /\
  (NoDup (requests_of n).*1 /\ forall id r p, (id, r, p) ∈ served n -> (id, r) ∈ calls n) /\
  exists s, serve_all (requests_of n).*2 s0 = Some ((answers_of n).*2, s).
Proof.
  intros n. pose proof (coupled_run s0 es _ (coupled_connected s0)) as Cp.
  change (coupled s0 n) in Cp. destruct Cp.
  assert (forall id, for_id id (requests_of n) `prefix_of` for_id id (calls n)) as Pre.
  { intros id. rewrite <- cp_called0. pose proof (Channels.l_exact _ _ _ cp_linked0 (negb c) id) as Ex.
    rewrite negb_involutive in Ex. rewrite Ex. by apply prefix_app_r. }
  assert (forall id r p, (id, r, p) ∈ served n -> (id, r) ∈ calls n) as Sub.
  { intros id r p I. apply for_id_elem. destruct (Pre id) as [l ->]. apply elem_of_app. left.
    apply for_id_elem. apply list_elem_of_fmap. by exists (id, r, p). }
  assert (forall id, (length (for_id id (requests_of n)) <= 1)%nat) as One.
  { intros id. transitivity (length (for_id id (calls n))); [by apply prefix_length|].
    by apply NoDup_for_id. }
  split_and!; [|by apply NoDup_for_id|done|done].
  intros id. pose proof (Channels.l_exact _ _ _ cp_linked0 c id) as Ex.
  rewrite cp_answered0 in Ex. specialize (One id). rewrite <- length_answers, Ex, length_app in One.
  destruct (Channels.got (ends n) c id) as [|p [|q l]]; [by left| |cbn in One; lia].
  right. assert (p ∈ for_id id (answers_of n)) as I by (rewrite Ex; left).
  apply for_id_elem, list_elem_of_fmap in I as ([[i r] a] & E & I). cbn in E. injection E as -> ->.
  exists r, a. split_and!; [done|by eapply Sub|done].
Qed.
End Theorems.

(** *** On a counter *)

(** A cipher that puts the key before the message. *)
Definition stamp (k b : bytes) : bytes := k ++ b.
Definition unstamp (k b : bytes) : option bytes :=
  if decide (take (length k) b = k) then Some (drop (length k) b) else None.

Lemma unstamp_stamp k b : unstamp k (stamp k b) = Some b.
Proof. unfold unstamp, stamp. by rewrite decide_True, drop_app_length by apply take_app_length. Qed.

(** A procedure that adds to the state of the server, but nothing negative. *)
Definition increment : procedure Z bytes :=
  mkProcedure _ _ Z Z Binary.int64 Binary.int64 (fun a x =>
    if a <? 0 then (Raised [110; 111], x) else (Returned (x.2 + a), (x.1, x.2 + a))).
Definition counter (k : option bytes) : server Z bytes :=
  add [43] increment (mkServer _ _ (fun _ => None) k 10).
Definition all_registered (x : bytes) : bool := true.


Lemma unknown_call_throws_witness :
  exists p,
    serve_request stamp unstamp Binary.buffer all_registered (fun n => n) []
      (request stamp None [45] increment 5) (counter None) = (Ok p, counter None) /\
    answer unstamp Binary.buffer [] None Binary.int64 p = Throw (Remote [45]).
Proof.
  apply (unknown_call_throws stamp unstamp Binary.buffer all_registered (fun n => n) []
    (counter None) [45] increment 5).
  - apply unstamp_stamp.
  - reflexivity.
  - by vm_compute.
  - reflexivity.
  - by vm_compute.
Defined.

(** Two calls, served in the order in which they arrive. *)
Definition two_calls : list event :=
  let r := request stamp None [43] increment in
  [Call (r 5); Call (r 7); Arrive false; Arrive false; Serve; Serve; Arrive true; Arrive true;
   Return 2; Return 1].

Lemma two_calls_are_answered :
  let n := run stamp unstamp Binary.buffer all_registered (fun n => n) [] Protocol.v030 true two_calls
             (connected (counter None)) in
  (answer unstamp Binary.buffer [] None Binary.int64 <$> Channels.got (ends n) true 2) = [Ok 22] /\
  (answer unstamp Binary.buffer [] None Binary.int64 <$> Channels.got (ends n) true 1) = [Ok 15].
Proof. by vm_compute. Qed.
