(* ===== verification/Coroutines.v ===== *)
(** Coroutines and what they wait for: elle/reactor, Thread.cc, scheduler.cc,
    Waitable.cc, and the waitables Barrier.cc, MultiLockBarrier.cc, signal.cc,
    semaphore.cc, mutex.cc and rw-mutex.cc, with lockable.cc.

    A scheduler runs one coroutine at a time, until it waits, so that what lies
    between two waits is a method: a function on the state of the scheduler and
    of the objects that coroutines share. A call that waits is cut where it
    freezes; the machine at the end of the file puts the pieces together, for
    any number of coroutines that take and release locks, wait, signal and
    interrupt each other in any order. *)

From stdpp Require Import base tactics functions option list.
From Stdlib Require Import ZArith Lia.
From S2P Require Import Prelude.
Open Scope Z_scope.

Module Coroutines.

(** Waitable and the classes that inherit it; the virtual [_wait] is told from
    the constructor. [WriteMutex i] is the [write()] of [RWMutex i], and
    [Inverted i] the negation of [Barrier i]. *)
Inductive lockable :=
  | Semaphore (i : Z)
  | Mutex (i : Z)
  | RWMutex (i : Z)
  | WriteMutex (i : Z).
Inductive waitable :=
  | Lockable (l : lockable)
  | Barrier (i : Z)
  | Inverted (i : Z)
  | MultiLockBarrier (i : Z)
  | Signal (i : Z)
  | Thread (t : Z).

#[export] Instance lockable_eq_dec : EqDecision lockable.
Proof. solve_decision. Defined.
#[export] Instance waitable_eq_dec : EqDecision waitable.
Proof. solve_decision. Defined.

Inductive State := Running | Frozen | Done.
#[export] Instance State_eq_dec : EqDecision State.
Proof. solve_decision. Defined.

Section Scheduler.
Context {X : Type}.

Inductive exn :=
  | Terminate
  | Exception (x : X).
Inductive error :=
  | AssertError
  | Raised (e : exn).

(** A Thread. [exception] is raised when it resumes; [thrown] is what escaped
    from its action. *)
Record thread := mkThread {
  state : State;
  waited : list waitable;
  exception : option exn;
  timeout : bool;
  timer : bool;
  interruptible : bool;
  terminating : bool;
  managed : bool;
  thrown : option exn
}.
Definition new_thread (m : bool) : thread :=
  mkThread Running [] None false false true false m None.

(** What the waitables hold besides who waits for them. *)
Record objects := mkObjects {
  opened : Z -> bool;           (* Barrier *)
  locks : Z -> Z;               (* MultiLockBarrier *)
  count : Z -> Z;               (* Semaphore *)
  locked : Z -> bool;           (* Mutex *)
  readers : Z -> Z;             (* RWMutex *)
  writer : Z -> option Z;       (* WriteMutex::_locked *)
  recursive : Z -> Z            (* WriteMutex::_locked_recursive *)
}.

(** The scheduler: the coroutines that were not run yet, and those to run, in
    the order of its rounds; and, for each waitable, the ones that wait for it,
    in the order in which they came, and the exception it raises. *)
Record t := mkT {
  threads : Z -> thread;
  starting : list Z;
  ready : list Z;
  waiters : waitable -> list Z;
  raises : waitable -> option exn;
  objs : objects
}.

Abbreviation reactor := (method t error).

Definition set_thread (i : Z) (th : thread) (s : t) : t :=
  mkT (<[i := th]> (threads s)) (starting s) (ready s) (waiters s) (raises s) (objs s).
Definition set_starting (l : list Z) (s : t) : t :=
  mkT (threads s) l (ready s) (waiters s) (raises s) (objs s).
Definition set_ready (l : list Z) (s : t) : t :=
  mkT (threads s) (starting s) l (waiters s) (raises s) (objs s).
Definition set_waiters (w : waitable) (l : list Z) (s : t) : t :=
  mkT (threads s) (starting s) (ready s) (<[w := l]> (waiters s)) (raises s) (objs s).
Definition set_raises (w : waitable) (e : option exn) (s : t) : t :=
  mkT (threads s) (starting s) (ready s) (waiters s) (<[w := e]> (raises s)) (objs s).
Definition set_objs (o : objects) (s : t) : t :=
  mkT (threads s) (starting s) (ready s) (waiters s) (raises s) o.

Definition set_state (x : State) (th : thread) : thread :=
  mkThread x (waited th) (exception th) (timeout th) (timer th) (interruptible th)
    (terminating th) (managed th) (thrown th).
Definition set_waited (l : list waitable) (th : thread) : thread :=
  mkThread (state th) l (exception th) (timeout th) (timer th) (interruptible th)
    (terminating th) (managed th) (thrown th).
Definition set_exception (e : option exn) (th : thread) : thread :=
  mkThread (state th) (waited th) e (timeout th) (timer th) (interruptible th)
    (terminating th) (managed th) (thrown th).
Definition set_timer (out armed : bool) (th : thread) : thread :=
  mkThread (state th) (waited th) (exception th) out armed (interruptible th)
    (terminating th) (managed th) (thrown th).
Definition set_interruptible (b : bool) (th : thread) : thread :=
  mkThread (state th) (waited th) (exception th) (timeout th) (timer th) b
    (terminating th) (managed th) (thrown th).
Definition set_terminating (th : thread) : thread :=
  mkThread (state th) (waited th) (exception th) (timeout th) (timer th) (interruptible th)
    true (managed th) (thrown th).
Definition set_thrown (e : option exn) (th : thread) : thread :=
  mkThread (state th) (waited th) (exception th) (timeout th) (timer th) (interruptible th)
    (terminating th) (managed th) e.

Definition set_opened (i : Z) (b : bool) (o : objects) : objects :=
  mkObjects (<[i := b]> (opened o)) (locks o) (count o) (locked o) (readers o) (writer o) (recursive o).
Definition set_locks (i n : Z) (o : objects) : objects :=
  mkObjects (opened o) (<[i := n]> (locks o)) (count o) (locked o) (readers o) (writer o) (recursive o).
Definition set_count (i n : Z) (o : objects) : objects :=
  mkObjects (opened o) (locks o) (<[i := n]> (count o)) (locked o) (readers o) (writer o) (recursive o).
Definition set_locked (i : Z) (b : bool) (o : objects) : objects :=
  mkObjects (opened o) (locks o) (count o) (<[i := b]> (locked o)) (readers o) (writer o) (recursive o).
Definition set_readers (i n : Z) (o : objects) : objects :=
  mkObjects (opened o) (locks o) (count o) (locked o) (<[i := n]> (readers o)) (writer o) (recursive o).
Definition set_writer (i : Z) (w : option Z) (o : objects) : objects :=
  mkObjects (opened o) (locks o) (count o) (locked o) (readers o) (<[i := w]> (writer o)) (recursive o).
Definition set_recursive (i n : Z) (o : objects) : objects :=
  mkObjects (opened o) (locks o) (count o) (locked o) (readers o) (writer o) (<[i := n]> (recursive o)).

Definition on_thread (i : Z) (f : thread -> thread) : reactor unit :=
  modify (fun s => set_thread i (f (threads s i)) s).
Definition on_objs (f : objects -> objects) : reactor unit :=
  modify (fun s => set_objs (f (objs s)) s).
Definition assert (b : bool) : reactor unit := when (negb b) (throw AssertError).

Fixpoint each {A} (f : A -> reactor unit) (l : list A) : reactor unit :=
  match l with [] => mret tt | a :: l => f a;; each f l end.


(** *** Scheduler *)

(** [_unfreeze] and [_freeze]; frozen coroutines are those whose state says so. *)
Definition unfreeze (i : Z) : reactor unit :=
  s ← read;
  assert (bool_decide (state (threads s i) = Frozen));;
  write (set_ready (ready s ++ [i]) s).
Definition freeze_ (i : Z) : reactor unit :=
  s ← read;
  assert (bool_decide (state (threads s i) = Running));;
  assert (bool_decide (i ∈ ready s));;
  write (set_ready (without i (ready s)) s).

(** [_thread_register], and how a round begins. *)
Definition thread_register (i : Z) (m : bool) : reactor unit :=
  modify (fun s => set_starting (starting s ++ [i]) (set_thread i (new_thread m) s)).
Definition begin_round : reactor unit :=
  modify (fun s => set_starting [] (set_ready (ready s ++ starting s) s)).

(** *** Waitable *)

Definition raise_ (w : waitable) (e : option exn) : reactor unit := modify (set_raises w e).

(** [Thread::_wake]. *)
Definition wake (w : waitable) (i : Z) : reactor unit :=
  s ← read;
  match raises s w, exception (threads s i) with
  | Some e, None => on_thread i (set_exception (Some e))
  | _, _ => mret tt
  end;;
  on_thread i (fun th => set_waited (without w (waited th)) th);;
  s ← read;
  match waited (threads s i) with
  | [] => unfreeze i;; on_thread i (set_state Running)
  | _ => mret tt
  end.

Definition signal_ (w : waitable) : reactor unit :=
  s ← read;
  each (wake w) (waiters s w);;
  modify (set_waiters w []);;
  raise_ w None.

Definition signal_one (w : waitable) : reactor (option Z) :=
  s ← read;
  match waiters s w with
  | [] => raise_ w None;; mret None
  | i :: l => wake w i;; modify (set_waiters w l);; raise_ w None;; mret (Some i)
  end.

Definition wait_ (w : waitable) (i : Z) : reactor bool :=
  s ← read;
  assert (bool_decide (i ∉ waiters s w));;
  write (set_waiters w (waiters s w ++ [i]) s);;
  mret true.

Definition unwait (i : Z) (w : waitable) : reactor unit :=
  s ← read;
  assert (bool_decide (i ∈ waiters s w));;
  write (set_waiters w (without i (waiters s w)) s).

(** *** Barrier *)

Definition barrier_open (i : Z) : reactor unit :=
  s ← read;
  if opened (objs s) i then raise_ (Barrier i) None
  else on_objs (set_opened i true);; signal_ (Barrier i).

Definition barrier_close (i : Z) : reactor unit :=
  s ← read;
  when (opened (objs s) i)
    (raise_ (Barrier i) None;; on_objs (set_opened i false);; signal_ (Inverted i)).

Definition barrier_raise (i : Z) (e : exn) : reactor unit :=
  raise_ (Barrier i) (Some e);; barrier_open i;; raise_ (Barrier i) (Some e).

Definition barrier_wait (i j : Z) : reactor bool :=
  s ← read; if opened (objs s) i then mret false else wait_ (Barrier i) j.
Definition inverted_wait (i j : Z) : reactor bool :=
  s ← read; if opened (objs s) i then wait_ (Inverted i) j else mret false.

(** *** MultiLockBarrier *)

Definition multi_lock (i : Z) : reactor unit :=
  on_objs (fun o => set_locks i (locks o i + 1) o).
Definition multi_unlock (i : Z) : reactor unit :=
  s ← read;
  assert (0 <? locks (objs s) i);;
  on_objs (fun o => set_locks i (locks o i - 1) o);;
  s ← read;
  when (locks (objs s) i =? 0) (signal_ (MultiLockBarrier i)).
Definition multi_wait (i j : Z) : reactor bool :=
  s ← read; if locks (objs s) i =? 0 then mret false else wait_ (MultiLockBarrier i) j.

(** *** Semaphore *)

Definition semaphore_acquire (i : Z) : reactor bool :=
  s ← read;
  if 0 <? count (objs s) i
  then on_objs (fun o => set_count i (count o i - 1) o);; mret true
  else mret false.
Definition semaphore_release (i : Z) : reactor unit :=
  on_objs (fun o => set_count i (count o i + 1) o);; signal_ (Lockable (Semaphore i)).
Definition semaphore_wait (i j : Z) : reactor bool :=
  s ← read; if count (objs s) i <=? 0 then wait_ (Lockable (Semaphore i)) j else mret false.

(** *** Mutex *)

Definition mutex_acquire (i : Z) : reactor bool :=
  s ← read;
  if locked (objs s) i then mret false else on_objs (set_locked i true);; mret true.
Definition mutex_release (i : Z) : reactor unit :=
  s ← read;
  assert (locked (objs s) i);;
  on_objs (set_locked i false);;
  signal_ (Lockable (Mutex i)).
Definition mutex_wait (i j : Z) : reactor bool :=
  s ← read;
  if locked (objs s) i
  then wait_ (Lockable (Mutex i)) j;; on_objs (set_locked i true);; mret true
  else mret false.

(** *** RWMutex, by the coroutine [j] *)

Definition write_acquire (i j : Z) : reactor bool :=
  s ← read;
  if bool_decide (writer (objs s) i = Some j)
  then on_objs (fun o => set_recursive i (recursive o i + 1) o);; mret true
  else if (0 <? readers (objs s) i) || bool_decide (is_Some (writer (objs s) i)) then mret false
  else on_objs (set_writer i (Some j));; mret true.
Definition write_release (i : Z) : reactor unit :=
  s ← read;
  if negb (recursive (objs s) i =? 0)
  then on_objs (fun o => set_recursive i (recursive o i - 1) o)
  else
    assert (bool_decide (is_Some (writer (objs s) i)));;
    signal_ (Lockable (WriteMutex i));;
    signal_ (Lockable (RWMutex i));;
    on_objs (set_writer i None).
Definition write_wait (i j : Z) : reactor bool :=
  s ← read;
  if bool_decide (writer (objs s) i = Some j) then mret false
  else if (0 <? readers (objs s) i) || bool_decide (is_Some (writer (objs s) i))
  then wait_ (Lockable (WriteMutex i)) j
  else mret false.

Definition read_acquire (i j : Z) : reactor bool :=
  s ← read;
  match writer (objs s) i with
  | Some j' =>
      if j' =? j
      then on_objs (fun o => set_recursive i (recursive o i + 1) o);; mret true
      else mret false
  | None => on_objs (fun o => set_readers i (readers o i + 1) o);; mret true
  end.
Definition read_release (i : Z) : reactor unit :=
  s ← read;
  match writer (objs s) i with
  | Some _ =>
      assert (0 <? recursive (objs s) i);;
      on_objs (fun o => set_recursive i (recursive o i - 1) o)
  | None =>
      assert (0 <? readers (objs s) i);;
      on_objs (fun o => set_readers i (readers o i - 1) o);;
      s ← read;
      when (readers (objs s) i =? 0) (signal_ (Lockable (WriteMutex i)))
  end.
Definition read_wait (i j : Z) : reactor bool :=
  s ← read;
  match writer (objs s) i with
  | Some j' => if j' =? j then mret false else wait_ (Lockable (RWMutex i)) j
  | None => mret false
  end.

(** *** Lockable *)

Definition acquire (l : lockable) (j : Z) : reactor bool :=
  match l with
  | Semaphore i => semaphore_acquire i
  | Mutex i => mutex_acquire i
  | RWMutex i => read_acquire i j
  | WriteMutex i => write_acquire i j
  end.
Definition release (l : lockable) : reactor unit :=
  match l with
  | Semaphore i => semaphore_release i
  | Mutex i => mutex_release i
  | RWMutex i => read_release i
  | WriteMutex i => write_release i
  end.

(** *** Thread *)

(** [Thread::_wait]: the coroutine [i] is waited for by [j]. *)
Definition thread_wait (i j : Z) : reactor bool :=
  s ← read;
  let th := threads s i in
  if bool_decide (state th = Done) then
    match thrown th with
    | Some e => if managed th then throw (Raised e) else mret false
    | None => mret false
    end
  else wait_ (Thread i) j.

Definition wait_on (w : waitable) (j : Z) : reactor bool :=
  match w with
  | Lockable (Semaphore i) => semaphore_wait i j
  | Lockable (Mutex i) => mutex_wait i j
  | Lockable (RWMutex i) => read_wait i j
  | Lockable (WriteMutex i) => write_wait i j
  | Barrier i => barrier_wait i j
  | Inverted i => inverted_wait i j
  | MultiLockBarrier i => multi_wait i j
  | Signal i => wait_ (Signal i) j
  | Thread i => thread_wait i j
  end.

(** The loop of [Thread::wait]: whether the coroutine has to freeze. *)
Fixpoint wait_each (ws : list waitable) (j : Z) : reactor bool :=
  match ws with
  | [] => mret false
  | w :: ws =>
      b ← wait_on w j;
      if (b : bool) then
        on_thread j (fun th => set_waited (without w (waited th) ++ [w]) th);;
        wait_each ws j;;
        mret true
      else
        s ← read;
        match raises s w with
        | Some e =>
            each (unwait j) (waited (threads s j));;
            s ← read;
            assert (bool_decide (waited (threads s j) = []));;
            throw (Raised e)
        | None => wait_each ws j
        end
  end.

(** [Thread::wait], until the coroutine freezes, which it says. *)
Definition wait (ws : list waitable) (timed : bool) (j : Z) : reactor bool :=
  s ← read;
  assert (bool_decide (state (threads s j) = Running));;
  assert (bool_decide (waited (threads s j) = []));;
  b ← wait_each ws j;
  if (b : bool) then
    when timed (on_thread j (set_timer false true));;
    freeze_ j;;
    on_thread j (set_state Frozen);;
    mret true
  else mret false.

(** The end of [Thread::yield], when the coroutine is run again. *)
Definition yielded (j : Z) : reactor unit :=
  s ← read;
  match exception (threads s j) with
  | None => mret tt
  | Some Terminate =>
      when (interruptible (threads s j))
        (on_thread j (set_exception None);; throw (Raised Terminate))
  | Some e => on_thread j (set_exception None);; throw (Raised e)
  end.

(** The end of [Thread::wait]. *)
Definition resume (timed : bool) (j : Z) : reactor bool :=
  s ← read;
  when timed (on_thread j (fun th => set_timer (timeout th) false th));;
  yielded j;;
  mret (negb timed || negb (timeout (threads s j))).

Definition wait_abort (j : Z) : reactor unit :=
  s ← read;
  assert (bool_decide (state (threads s j) = Frozen));;
  each (unwait j) (waited (threads s j));;
  on_thread j (set_waited []);;
  on_thread j (fun th => set_timer (timeout th) false th);;
  unfreeze j;;
  on_thread j (set_state Running).

(** [_wait_timeout], which the timer calls unless it was cancelled. *)
Definition wait_timeout (j : Z) : reactor unit :=
  s ← read;
  when (timer (threads s j) && bool_decide (state (threads s j) = Frozen))
    (on_thread j (set_timer true true);; wait_abort j).

Definition raise (j : Z) (e : exn) : reactor unit := on_thread j (set_exception (Some e)).
Definition raise_and_wake (j : Z) (e : exn) : reactor unit :=
  raise j e;;
  s ← read;
  when (bool_decide (state (threads s j) = Frozen)) (wait_abort j).

(** [Scheduler::_terminate] of [j], by another coroutine than [j]. *)
Definition terminate (j : Z) : reactor unit :=
  s ← read;
  if bool_decide (j ∈ starting s) then
    write (set_starting (without j (starting s)) s);;
    on_thread j (set_state Done);;
    signal_ (Thread j)
  else if terminating (threads s j) then mret tt
  else
    on_thread j set_terminating;;
    raise j Terminate;;
    s ← read;
    when (bool_decide (state (threads s j) = Frozen) && interruptible (threads s j))
      (wait_abort j).

(** [Thread::interruptible]. *)
Definition interruptible_ (b raise : bool) (j : Z) : reactor unit :=
  on_thread j (set_interruptible b);;
  s ← read;
  match exception (threads s j) with
  | Some e =>
      when (b && raise) (on_thread j (set_exception None);; throw (Raised e))
  | None => mret tt
  end.

(** [_step] when the action of [j] ended, by an exception or not; one that is not
    managed only lets Terminate out, which [_action_wrapper] stops. *)
Definition finish (j : Z) (e : option exn) : reactor unit :=
  on_thread j (set_thrown e);;
  on_thread j (set_state Done);;
  s ← read;
  match thrown (threads s j) with
  | Some e => when (managed (threads s j)) (raise_ (Thread j) (Some e))
  | None => mret tt
  end;;
  signal_ (Thread j);;
  modify (fun s => set_ready (without j (ready s)) s).

(** *** Coroutines at work *)

(** One turn of the loop of [Lock::Lock]: whether the lock is taken. *)
Definition lock_turn (l : lockable) (j : Z) : reactor bool :=
  b ← acquire l j;
  if (b : bool) then mret true else wait [Lockable l] false j;; mret false.

(** The call a coroutine is in. *)
Inductive op :=
  | Idle
  | Locking (l : lockable)
  | Waiting (timed : bool).

(** For the record, the locks that coroutines have, the last taken first, and
    how many times each semaphore may be taken. An assertion that fails is an
    exception that nothing catches: it ends the program. *)
Record world := mkWorld {
  sched : t;
  doing : Z -> op;
  held : list (Z * lockable);
  budget : Z -> Z;
  created : list Z;
  failed : bool
}.

Definition set_sched (s : t) (w : world) : world :=
  mkWorld s (doing w) (held w) (budget w) (created w) (failed w).
Definition set_doing (j : Z) (o : op) (w : world) : world :=
  mkWorld (sched w) (<[j := o]> (doing w)) (held w) (budget w) (created w) (failed w).
Definition set_held (l : list (Z * lockable)) (w : world) : world :=
  mkWorld (sched w) (doing w) l (budget w) (created w) (failed w).
Definition set_budget (i n : Z) (w : world) : world :=
  mkWorld (sched w) (doing w) (held w) (<[i := n]> (budget w)) (created w) (failed w).
Definition set_created (l : list Z) (w : world) : world :=
  mkWorld (sched w) (doing w) (held w) (budget w) l (failed w).
Definition fail (w : world) : world :=
  mkWorld (sched w) (doing w) (held w) (budget w) (created w) true.

Definition perform {A} (m : reactor A) (k : A -> world -> world) (h : world -> world)
    (w : world) : world :=
  match m (sched w) with
  | (Ok a, s) => k a (set_sched s w)
  | (Throw (Raised _), s) => h (set_sched s w)
  | (Throw AssertError, s) => fail (set_sched s w)
  end.
Definition simply (m : reactor unit) : world -> world := perform m (fun _ w => w) (fun w => w).

(** The lock a coroutine took last, which it is the first to release: locks are
    released by the destructors of Lock. *)
Fixpoint latest (j : Z) (h : list (Z * lockable)) : option lockable :=
  match h with
  | [] => None
  | (k, l) :: h => if decide (k = j) then Some l else latest j h
  end.
Fixpoint drop_latest (j : Z) (h : list (Z * lockable)) : list (Z * lockable) :=
  match h with
  | [] => []
  | (k, l) :: h => if decide (k = j) then h else (k, l) :: drop_latest j h
  end.

(** Whether it is the turn of a coroutine, that is not in a call. *)
Definition acts (j : Z) (w : world) : bool :=
  bool_decide (j ∈ ready (sched w)) && match doing w j with Idle => true | _ => false end.

Inductive event :=
  | Spawn (j : Z) (m : bool)
  | Round
  | Take (j : Z) (l : lockable)
  | Leave (j : Z)
  | Wait (j : Z) (ws : list waitable) (timed : bool)
  | Resume (j : Z)
  | Yield (j : Z)
  | Post (i : Z)                     (* a semaphore *)
  | Open (i : Z)
  | Close (i : Z)
  | RaiseIn (i : Z) (e : exn)        (* a barrier *)
  | AddLock (i : Z)                  (* to a MultiLockBarrier *)
  | RemoveLock (i : Z)
  | Pulse (i : Z)
  | PulseOne (i : Z)
  | Elapse (j : Z)
  | Interrupt (j : Z) (e : exn)
  | Kill (j : Z)
  | SetInterruptible (j : Z) (b raise : bool)
  | Finish (j : Z) (e : option exn).

Definition locking (j : Z) (l : lockable) (b : bool) (w : world) : world :=
  if b then set_doing j Idle (set_held ((j, l) :: held w) w) else set_doing j (Locking l) w.

Definition happen (e : event) (w : world) : world :=
  match e with
  | Spawn j m =>
      if decide (j ∈ created w) then w
      else simply (thread_register j m) (set_created (j :: created w) w)
  | Round => simply begin_round w
  | Take j l => if acts j w then perform (lock_turn l j) (locking j l) (fun w => w) w else w
  | Leave j =>
      match latest j (held w) with
      | Some l =>
          if acts j w
          then perform (release l) (fun _ w => set_held (drop_latest j (held w)) w) (fun w => w) w
          else w
      | None => w
      end
  | Wait j ws timed =>
      if acts j w then
        perform (wait ws timed j)
          (fun b w => if (b : bool) then set_doing j (Waiting timed) w else w) (fun w => w) w
      else w
  | Resume j =>
      if decide (j ∈ ready (sched w)) then
        match doing w j with
        | Idle => w
        | Locking l => perform (resume false j;; lock_turn l j) (locking j l) (set_doing j Idle) w
        | Waiting timed => perform (resume timed j) (fun _ => set_doing j Idle) (set_doing j Idle) w
        end
      else w
  | Yield j => if acts j w then simply (yielded j) w else w
  | Post i => simply (semaphore_release i) (set_budget i (budget w i + 1) w)
  | Open i => simply (barrier_open i) w
  | Close i => simply (barrier_close i) w
  | RaiseIn i e => simply (barrier_raise i e) w
  | AddLock i => simply (multi_lock i) w
  | RemoveLock i => if 0 <? locks (objs (sched w)) i then simply (multi_unlock i) w else w
  | Pulse i => simply (signal_ (Signal i)) w
  | PulseOne i => perform (signal_one (Signal i)) (fun _ w => w) (fun w => w) w
  | Elapse j => simply (wait_timeout j) w
  | Interrupt j e => if decide (j ∈ created w) then simply (raise_and_wake j e) w else w
  | Kill j => if decide (j ∈ created w) then simply (terminate j) w else w
  | SetInterruptible j b raise => if acts j w then simply (interruptible_ b raise j) w else w
  | Finish j e =>
      match latest j (held w) with
      | None =>
          if acts j w && (managed (threads (sched w) j) || bool_decide (e = None))
          then simply (finish j e) w else w
      | Some _ => w
      end
  end.

(** A scheduler without coroutines, with semaphores and barriers of any kind. *)
Definition begins (c : Z -> Z) (o : Z -> bool) : world :=
  mkWorld (mkT (fun _ => new_thread false) [] [] (fun _ => []) (fun _ => None)
      (mkObjects o (fun _ => 0) c (fun _ => false) (fun _ => 0) (fun _ => None) (fun _ => 0)))
    (fun _ => Idle) [] c [] false.

(** Whether [wait_on] makes a coroutine wait. *)
Definition blocks (s : t) (w : waitable) (j : Z) : bool :=
  match w with
  | Lockable (Semaphore i) => count (objs s) i <=? 0
  | Lockable (Mutex i) => locked (objs s) i
  | Lockable (RWMutex i) =>
      match writer (objs s) i with Some j' => negb (j' =? j) | None => false end
  | Lockable (WriteMutex i) =>
      negb (bool_decide (writer (objs s) i = Some j)) &&
      ((0 <? readers (objs s) i) || bool_decide (is_Some (writer (objs s) i)))
  | Barrier i => negb (opened (objs s) i)
  | Inverted i => opened (objs s) i
  | MultiLockBarrier i => negb (locks (objs s) i =? 0)
  | Signal _ => true
  | Thread i => negb (bool_decide (state (threads s i) = Done))
  end.

(** Nothing is thrown by waiting for [w], which is not waited for or does not
    have an exception to raise. *)
Definition quiet (s : t) (j : Z) (w : waitable) : Prop :=
  blocks s w j = true \/
  raises s w = None /\ forall i, w = Thread i -> thrown (threads s i) = None.

(** Coroutines wait for one thing, or for several that do not throw. *)
Definition allowed (e : event) (w : world) : Prop :=
  match e with
  | Wait j ws _ =>
      NoDup ws /\ ((length ws <= 1)%nat \/ Forall (quiet (sched w) j) ws)
  | _ => True
  end.

Inductive step (w : world) : world -> Prop :=
  | Step e : allowed e w -> step w (happen e w).
End Scheduler.
Arguments exn : clear implicits.
Arguments error : clear implicits.
Arguments thread : clear implicits.
Arguments t : clear implicits.
Arguments world : clear implicits.
Arguments event : clear implicits.
End Coroutines.
