(* ===== verification/CoroutineProperties.v ===== *)
(** What the operations of Coroutines.v do to who waits for what, and the
    invariants of coroutines at work. *)

From stdpp Require Import base tactics functions option list.
From Stdlib Require Import ZArith Lia.
From S2P Require Import Prelude Coroutines.
Import Coroutines.
Open Scope Z_scope.

Section Properties.
Context {X : Type}.

Implicit Types (s : t X) (w v : waitable) (j k : Z) (th : thread X).

Lemma filter_in_ext {A} (P Q : A -> Prop) `{forall x, Decision (P x), forall x, Decision (Q x)} (l : list A) :
  (forall x, x ∈ l -> P x <-> Q x) -> filter P l = filter Q l.
Proof.
  induction l as [|x l IH]; intros E; [done|]. rewrite !filter_cons, IH by (intros; apply E; by right).
  by rewrite (decide_ext (P x) (Q x)) by (apply E; left).
Qed.

(** *** Steps of a method *)

Lemma bind_on_thread {A} j f (k : unit -> method (t X) (error X) A) s :
  (on_thread j f ≫= k) s = k tt (set_thread j (f (threads s j)) s).
Proof. done. Qed.
Lemma bind_on_objs {A} f (k : unit -> method (t X) (error X) A) s :
  (on_objs f ≫= k) s = k tt (set_objs (f (objs s)) s).
Proof. done. Qed.
Lemma bind_raise {A} w e (k : unit -> method (t X) (error X) A) s :
  (raise_ w e ≫= k) s = k tt (set_raises w e s).
Proof. done. Qed.
Lemma bind_assert {A} b (k : unit -> method (t X) (error X) A) s : b = true ->
  (assert b ≫= k) s = k tt s.
Proof. by intros ->. Qed.

(** *** Who waits for what *)

(** The two sides of waiting agree; a coroutine is frozen when it waits for
    something, and only then; those that run are in one queue, once. *)
Record graph s : Prop := {
  g_sides w j : w ∈ waited (threads s j) <-> j ∈ waiters s w;
  g_waiters w : NoDup (waiters s w);
  g_waited j : NoDup (waited (threads s j));
  g_frozen j : state (threads s j) = Frozen <-> waited (threads s j) <> [];
  g_ready j : j ∈ ready s -> state (threads s j) <> Frozen;
  g_starting j : j ∈ starting s -> state (threads s j) = Running /\ j ∉ ready s;
  g_once : NoDup (ready s) /\ NoDup (starting s)
}.

(** What a coroutine is once [w] is over. *)
Definition woken w (e : option (exn X)) th : thread X :=
  set_state (if decide (without w (waited th) = []) then Running else state th)
    (set_waited (without w (waited th))
      (match e, exception th with Some _, None => set_exception e th | _, _ => th end)).

Lemma waited_woken w e th : waited (woken w e th) = without w (waited th).
Proof. done. Qed.

Lemma wake_spec w j s : state (threads s j) = Frozen ->
  exists s', wake w j s = (Ok tt, s') /\
  (forall k, threads s' k =
     if decide (j = k) then woken w (raises s w) (threads s j) else threads s k) /\
  ready s' = (if decide (without w (waited (threads s j)) = []) then ready s ++ [j] else ready s) /\
  starting s' = starting s /\ waiters s' = waiters s /\ raises s' = raises s /\ objs s' = objs s.
Proof.
  intros Fr. unfold wake. rewrite bind_read.
  set (th1 := match raises s w, exception (threads s j) with
              | Some _, None => set_exception (raises s w) (threads s j)
              | _, _ => threads s j end).
  assert (exists s1, match raises s w, exception (threads s j) with
    | Some e, None => on_thread j (set_exception (Some e)) | _, _ => mret tt end s = (Ok tt, s1) /\
    (forall k, threads s1 k = if decide (j = k) then th1 else threads s k) /\
    ready s1 = ready s /\ starting s1 = starting s /\ waiters s1 = waiters s /\
    raises s1 = raises s /\ objs s1 = objs s) as (s1 & E1 & T1 & R1 & St1 & W1 & Ra1 & O1).
  { subst th1. destruct (raises s w) as [e|], (exception (threads s j)); eexists; split_and!;
      try reflexivity; intros k; cbn; rewrite ?fn_insert_eq; by destruct (decide (j = k)) as [->|]. }
  rewrite (bind_Ok _ _ _ _ _ E1).
  assert (waited th1 = waited (threads s j)) as Wa by (subst th1; by repeat case_match).
  assert (state th1 = Frozen) as St by (subst th1; by repeat case_match).
  rewrite bind_on_thread, bind_read. cbn [threads set_thread]. rewrite fn_lookup_insert.
  cbn [waited set_waited].
  rewrite T1, decide_True by done. rewrite Wa.
  assert (woken w (raises s w) (threads s j) =
    set_state (if decide (without w (waited (threads s j)) = []) then Running else Frozen)
      (set_waited (without w (waited th1)) th1)) as Wo.
  { unfold woken. rewrite Fr, Wa. subst th1. by repeat case_match. }
  destruct (without w (waited (threads s j))) as [|v l] eqn:E.
  - unfold unfreeze. rewrite bind_assoc, bind_read, bind_assoc, bind_assert.
    2: { cbn. rewrite fn_lookup_insert. cbn. by rewrite St. }
    rewrite bind_write. eexists. split; [reflexivity|]. cbn.
    split_and!; try done; [|by rewrite R1]. intros k. rewrite !fn_insert_eq.
    destruct (decide (j = k)) as [->|]; [|by rewrite T1, decide_False].
    rewrite decide_True by done. rewrite Wo, Wa. by rewrite E.
  - eexists. split; [reflexivity|]. cbn. split_and!; try done. intros k. rewrite fn_insert_eq.
    destruct (decide (j = k)) as [->|]; [|by rewrite T1, decide_False].
    rewrite Wo, Wa, E. destruct th1; cbn in *; by subst.
Qed.

(** All but the coroutines of [l] are as they were, and those no longer wait for
    [w]. *)
Record woke w (l : list Z) s s' : Prop := {
  wk_threads k : threads s' k =
    if decide (k ∈ l) then woken w (raises s w) (threads s k) else threads s k;
  wk_ready : ready s' = ready s ++ filter (fun k => without w (waited (threads s k)) = []) l;
  wk_starting : starting s' = starting s;
  wk_waiters : waiters s' = waiters s;
  wk_raises : raises s' = raises s;
  wk_objs : objs s' = objs s
}.

Lemma each_wake_spec w l s : NoDup l -> (forall k, k ∈ l -> state (threads s k) = Frozen) ->
  exists s', each (wake w) l s = (Ok tt, s') /\ woke w l s s'.
Proof.
  revert s. induction l as [|j l IH]; intros s N Fr; cbn [each].
  { exists s. split; [done|]. split; try done. by rewrite app_nil_r. }
  apply NoDup_cons in N as [Nj N].
  destruct (wake_spec w j s (Fr j ltac:(left))) as (s1 & E1 & T1 & R1 & St1 & W1 & Ra1 & O1).
  assert (forall k, k ∈ l -> threads s1 k = threads s k) as Same.
  { intros k I. rewrite T1, decide_False by (by intros ->). done. }
  destruct (IH s1 N) as (s2 & E2 & []).
  { intros k I. rewrite Same by done. apply Fr. by right. }
  exists s2. rewrite (bind_Ok _ _ _ _ _ E1). split; [done|]. split; try congruence.
  - intros k. rewrite wk_threads0, Ra1, T1. destruct (decide (j = k)) as [->|Nk].
    + rewrite decide_False by done. by rewrite decide_True by left.
    + by rewrite (decide_ext (k ∈ l) (k ∈ j :: l)) by (rewrite elem_of_cons; naive_solver).
  - rewrite wk_ready0, R1, filter_cons.
    rewrite (filter_in_ext _ (fun k => without w (waited (threads s k)) = []) l)
      by (intros k I; by rewrite Same).
    destruct (decide (without w (waited (threads s j)) = [])); [by rewrite <- app_assoc|done].
Qed.

Lemma signal_wakes w s : graph s -> exists s',
  signal_ w s = (Ok tt, set_raises w None (set_waiters w [] s')) /\ woke w (waiters s w) s s'.
Proof.
  intros []. unfold signal_. rewrite bind_read.
  destruct (each_wake_spec w (waiters s w) s (g_waiters0 w)) as (s' & E & Wk).
  { intros k I%g_sides0. apply g_frozen0. intros F. rewrite F in I. by apply not_elem_of_nil in I. }
  exists s'. rewrite (bind_Ok _ _ _ _ _ E). done.
Qed.

Lemma frozen_waits s w j : graph s -> j ∈ waiters s w -> state (threads s j) = Frozen.
Proof.
  intros G I%(g_sides _ G). apply (g_frozen _ G). intros E. rewrite E in I.
  by apply not_elem_of_nil in I.
Qed.
Lemma running_waits s j : graph s -> state (threads s j) <> Frozen -> waited (threads s j) = [].
Proof.
  intros G N. destruct (waited (threads s j)) eqn:E; [done|].
  destruct N. apply (g_frozen _ G). by rewrite E.
Qed.

(** Some waits end, those of [R], and coroutines that no longer wait for anything
    run. *)
Lemma graph_release (R : waitable -> Z -> Prop) s s' l : graph s ->
  (forall k, NoDup (waited (threads s' k)) /\
     forall w, w ∈ waited (threads s' k) <-> w ∈ waited (threads s k) /\ ~ R w k) ->
  (forall w, NoDup (waiters s' w) /\ forall k, k ∈ waiters s' w <-> k ∈ waiters s w /\ ~ R w k) ->
  (forall k, state (threads s' k) =
     if decide (state (threads s k) = Frozen /\ waited (threads s' k) = []) then Running
     else state (threads s k)) ->
  ready s' = ready s ++ l -> NoDup l ->
  (forall k, k ∈ l -> state (threads s k) = Frozen /\ waited (threads s' k) = []) ->
  starting s' = starting s -> graph s'.
Proof.
  intros G Wd Ws St Rd Nl L Sg. pose proof G as []. split.
  - intros w k. destruct (Wd k) as [_ ->], (Ws w) as [_ ->]. by rewrite g_sides0.
  - intros w. apply Ws.
  - intros k. apply Wd.
  - intros k. rewrite St. destruct (decide _) as [[F E]|N].
    + by rewrite E.
    + split; [intros F E; by destruct N|]. intros E. apply g_frozen0. intros E'. destruct E.
      destruct (waited (threads s' k)) as [|w l'] eqn:Q; [done|].
      destruct (Wd k) as [_ H]. destruct (H w) as [[I _] _]; [rewrite Q; left|].
      rewrite E' in I. by apply not_elem_of_nil in I.
  - intros k. rewrite Rd, elem_of_app, St. intros [I|I].
    + rewrite decide_False; [by apply g_ready0|]. intros [F _]. by apply g_ready0 in F.
    + by rewrite decide_True by (by apply L).
  - intros k. rewrite Sg, Rd, elem_of_app, St. intros I. destruct (g_starting0 k I) as [Rn N].
    split; [by rewrite decide_False by (intros [F _]; congruence)|].
    intros [J|J]; [done|]. apply L in J as [F _]. congruence.
  - rewrite Rd, Sg. split; [|apply g_once0]. apply NoDup_app. split_and!; [apply g_once0| |done].
    intros k I J. apply L in J as [F _]. by apply g_ready0 in F.
Qed.

Lemma graph_signal w s s' : graph s -> woke w (waiters s w) s s' ->
  graph (set_raises w None (set_waiters w [] s')).
Proof.
  intros G []. pose proof G as [].
  assert (forall k, waited (threads s' k) = without w (waited (threads s k))) as Wd.
  { intros k. rewrite wk_threads0. destruct (decide _) as [|N]; [done|].
    rewrite without_not_in; [done|]. by rewrite g_sides0. }
  eapply (graph_release (fun v _ => v = w) s); try done; cbn.
  - intros k. rewrite Wd. split; [by apply NoDup_without|]. intros v. rewrite elem_of_without. naive_solver.
  - intros v. rewrite fn_insert_eq, wk_waiters0. destruct (decide (w = v)) as [->|N].
    + split; [constructor|]. intros k. rewrite elem_of_nil. naive_solver.
    + split; [done|]. naive_solver.
  - intros k. rewrite wk_threads0. destruct (decide (k ∈ waiters s w)) as [I|N].
    + pose proof (frozen_waits _ _ _ G I) as F. cbn. rewrite F.
      destruct (decide (without w _ = [])), (decide (_ /\ _)); naive_solver.
    + rewrite decide_False; [done|]. intros [F E]. by apply g_frozen0 in F.
  - apply NoDup_filter, g_waiters0.
  - intros k [E I]%list_elem_of_filter. rewrite Wd. split; [by eapply frozen_waits|done].
Qed.

(** What the others see of a change to one coroutine. *)
Record touched j s s' : Prop := {
  to_others k : k <> j -> threads s' k = threads s k;
  to_starting : starting s' = starting s;
  to_raises : raises s' = raises s;
  to_objs : objs s' = objs s
}.

Lemma each_unwait_spec j l s : NoDup l -> (forall w, w ∈ l -> j ∈ waiters s w) ->
  exists s', each (unwait j) l s = (Ok tt, s') /\
  (forall w, waiters s' w = if decide (w ∈ l) then without j (waiters s w) else waiters s w) /\
  threads s' = threads s /\ ready s' = ready s /\ starting s' = starting s /\
  raises s' = raises s /\ objs s' = objs s.
Proof.
  revert s. induction l as [|w l IH]; intros s N I; cbn [each]; [by exists s|].
  apply NoDup_cons in N as [Nw N]. set (s1 := set_waiters w (without j (waiters s w)) s).
  assert (unwait j w s = (Ok tt, s1)) as E1.
  { unfold unwait. rewrite bind_read, bind_assert by (apply bool_decide_eq_true, I; left). done. }
  destruct (IH s1 N) as (s2 & E2 & W2 & Rest).
  { intros v J. subst s1. cbn. rewrite fn_insert_eq, decide_False by (intros ->; done).
    apply I. by right. }
  exists s2. rewrite (bind_Ok _ _ _ _ _ E1). split; [done|]. split; [|done].
  intros v. rewrite W2. subst s1. cbn. rewrite fn_insert_eq.
  destruct (decide (w = v)) as [->|Nv].
  - rewrite decide_False by done. by rewrite decide_True by left.
  - by rewrite (decide_ext (v ∈ l) (v ∈ w :: l)) by (rewrite elem_of_cons; naive_solver).
Qed.

(** A coroutine is taken out of what it waits for. *)
Record aborted j s s' : Prop := {
  ab_touched : touched j s s';
  ab_thread : threads s' j = set_state Running (set_timer (timeout (threads s j)) false
    (set_waited [] (threads s j)));
  ab_ready : ready s' = ready s ++ [j];
  ab_waiters w : waiters s' w = without j (waiters s w)
}.

Lemma wait_abort_spec j s : graph s -> state (threads s j) = Frozen ->
  exists s', wait_abort j s = (Ok tt, s') /\ aborted j s s'.
Proof.
  intros G F. unfold wait_abort. rewrite bind_read, bind_assert by by rewrite F.
  destruct (each_unwait_spec j (waited (threads s j)) s) as (s1 & E1 & W1 & T1 & R1 & S1 & Ra1 & O1).
  { apply (g_waited _ G). }
  { intros w I. by apply (g_sides _ G). }
  rewrite (bind_Ok _ _ _ _ _ E1), !bind_on_thread.
  unfold unfreeze. rewrite bind_assoc, bind_read, bind_assoc, bind_assert, bind_write.
  2: { cbn. rewrite fn_lookup_insert, fn_lookup_insert, T1. cbn. by rewrite F. }
  eexists. split; [reflexivity|]. split; cbn.
  - split; cbn; try done. intros k N. rewrite !fn_lookup_insert_ne by congruence. by rewrite T1.
  - by rewrite !fn_lookup_insert, T1.
  - by rewrite R1.
  - intros w. rewrite W1. destruct (decide _) as [|N]; [done|].
    symmetry. apply without_not_in. by rewrite <- (g_sides _ G).
Qed.

Lemma graph_aborted j s s' : graph s -> state (threads s j) = Frozen -> aborted j s s' -> graph s'.
Proof.
  intros G F [[] Th Rd Ws]. pose proof G as [].
  eapply (graph_release (fun _ k => k = j) s s' [j]); try done.
  - intros k. destruct (decide (k = j)) as [->|N].
    + rewrite Th. cbn. split; [constructor|]. intros w. rewrite elem_of_nil. naive_solver.
    + rewrite to_others0 by done. split; [done|]. naive_solver.
  - intros w. rewrite Ws. split; [by apply NoDup_without|]. intros k. rewrite elem_of_without. naive_solver.
  - intros k. destruct (decide (k = j)) as [->|N].
    + rewrite Th. cbn. by rewrite decide_True.
    + rewrite to_others0 by done. rewrite decide_False; [done|].
      intros [Fk E]. by apply g_frozen0 in Fk.
  - apply NoDup_singleton.
  - intros k ->%list_elem_of_singleton. split; [done|]. by rewrite Th.
Qed.

(** *** Waiting *)

Record same_objs (o o' : objects) : Prop := {
  so_opened : opened o' = opened o;
  so_locks : locks o' = locks o;
  so_count : count o' = count o;
  so_locked i : locked o' i = locked o i;
  so_readers : readers o' = readers o;
  so_writer : writer o' = writer o;
  so_recursive : recursive o' = recursive o
}.

Lemma same_refl o : same_objs o o.
Proof. by split. Qed.
Lemma same_objs_trans o o' o'' : same_objs o o' -> same_objs o' o'' -> same_objs o o''.
Proof. intros [] []. split; congruence. Qed.

Lemma blocks_same s s' w j : same_objs (objs s) (objs s') ->
  (forall k, state (threads s' k) = Done <-> state (threads s k) = Done) ->
  blocks s' w j = blocks s w j.
Proof.
  intros [] D. destruct w as [[i|i|i|i]|i|i|i|i|i]; cbn; rewrite ?so_opened0, ?so_locks0, ?so_count0,
    ?so_locked0, ?so_readers0, ?so_writer0; try done.
  by rewrite (bool_decide_ext (state (threads s' i) = Done) (state (threads s i) = Done)).
Qed.

(** [j] waits for [w]. *)
Record registered w j s s' : Prop := {
  rg_waiters v : waiters s' v = if decide (w = v) then waiters s v ++ [j] else waiters s v;
  rg_threads : threads s' = threads s;
  rg_ready : ready s' = ready s;
  rg_starting : starting s' = starting s;
  rg_raises : raises s' = raises s;
  rg_objs : same_objs (objs s) (objs s')
}.

Lemma wait_spec_ w j s : j ∉ waiters s w ->
  wait_ w j s = (Ok true, set_waiters w (waiters s w ++ [j]) s).
Proof. intros N. unfold wait_. by rewrite bind_read, bind_assert by by apply bool_decide_eq_true. Qed.

Lemma registered_now w j s : registered w j s (set_waiters w (waiters s w ++ [j]) s).
Proof.
  split; try done; cbn. intros v. rewrite fn_insert_eq.
  by destruct (decide (w = v)) as [->|].
Qed.

Lemma wait_on_blocked w j s : j ∉ waiters s w -> blocks s w j = true ->
  exists s', wait_on w j s = (Ok true, s') /\ registered w j s s'.
Proof.
  intros N B.
  assert (forall m, m s = wait_ w j s ->
    exists s', m s = (Ok true, s') /\ registered w j s s') as Plain.
  { intros m ->. eexists. split; [by apply wait_spec_|apply registered_now]. }
  destruct w as [[i|i|i|i]|i|i|i|i|i]; cbn [wait_on blocks] in *.
  - apply Plain. unfold semaphore_wait. by rewrite bind_read, B.
  - eexists. split.
    + unfold mutex_wait. rewrite bind_read, B, (bind_Ok _ _ _ _ _ (wait_spec_ _ _ _ N)). reflexivity.
    + destruct (registered_now (Lockable (Mutex i)) j s). split; try done. cbn in *.
      split; try done. cbn. intros k. rewrite fn_insert_eq. by destruct (decide (i = k)) as [->|].
  - apply Plain. unfold read_wait. rewrite bind_read. destruct (writer _ _); [|done].
    by destruct (_ =? _).
  - apply Plain. unfold write_wait. rewrite bind_read. destruct (bool_decide _); [done|].
    cbn in B. by rewrite B.
  - apply Plain. unfold barrier_wait. rewrite bind_read. by destruct (opened _ _).
  - apply Plain. unfold inverted_wait. by rewrite bind_read, B.
  - apply Plain. unfold multi_wait. rewrite bind_read. by destruct (_ =? _).
  - by apply Plain.
  - apply Plain. unfold thread_wait. rewrite bind_read. by destruct (bool_decide _).
Qed.

Lemma wait_on_free w j s : blocks s w j = false ->
  (wait_on w j s = (Ok false, s)) \/
  (exists i e, w = Thread i /\ thrown (threads s i) = Some e /\ wait_on w j s = (Throw (Raised e), s)).
Proof.
  intros B. destruct w as [[i|i|i|i]|i|i|i|i|i]; cbn [wait_on blocks] in *.
  - left. unfold semaphore_wait. by rewrite bind_read, B.
  - left. unfold mutex_wait. by rewrite bind_read, B.
  - left. unfold read_wait. rewrite bind_read. destruct (writer _ _); [|done]. by destruct (_ =? _).
  - left. unfold write_wait. rewrite bind_read. destruct (bool_decide _); [done|].
    cbn in B. by rewrite B.
  - left. unfold barrier_wait. rewrite bind_read. by destruct (opened _ _).
  - left. unfold inverted_wait. by rewrite bind_read, B.
  - left. unfold multi_wait. rewrite bind_read. by destruct (_ =? _).
  - done.
  - unfold thread_wait. rewrite bind_read. destruct (bool_decide _); [|done].
    destruct (thrown (threads s i)) as [e|] eqn:T; [|by left].
    destruct (managed _); [|by left]. right. by exists i, e.
Qed.

(** [j] waits for those of [ws] that block. *)
Definition blocking s j (ws : list waitable) : list waitable := filter (fun w => blocks s w j = true) ws.

Record enrolled (l : list waitable) j s s' : Prop := {
  en_touched : (forall k, k <> j -> threads s' k = threads s k) /\ starting s' = starting s /\
    raises s' = raises s /\ ready s' = ready s;
  en_objs : same_objs (objs s) (objs s');
  en_thread : threads s' j = set_waited (waited (threads s j) ++ l) (threads s j);
  en_waiters w : waiters s' w = if decide (w ∈ l) then waiters s w ++ [j] else waiters s w
}.

Lemma wait_each_spec ws j s : NoDup ws -> (forall w, w ∈ ws -> j ∉ waiters s w) ->
  (forall w, w ∈ ws -> w ∉ waited (threads s j)) -> Forall (quiet s j) ws ->
  exists s', wait_each ws j s = (Ok (bool_decide (blocking s j ws <> [])), s') /\
    enrolled (blocking s j ws) j s s' /\ (blocking s j ws = [] -> s' = s).
Proof.
  revert s. induction ws as [|w ws IH]; intros s N Nw Nd Q; cbn [wait_each].
  { exists s. split; [done|]. split; [|done]. split; try done.
    rewrite app_nil_r. by destruct (threads s j). }
  apply NoDup_cons in N as [N1 N]. apply Forall_cons in Q as [Q1 Q].
  unfold blocking. rewrite filter_cons. fold (blocking s j ws).
  destruct (blocks s w j) eqn:B.
  - rewrite decide_True by done.
    destruct (wait_on_blocked w j s) as (s1 & E1 & []); [apply Nw; left|done|].
    rewrite (bind_Ok _ _ _ _ _ E1), bind_on_thread.
    set (s2 := set_thread j _ s1).
    assert (threads s2 j = set_waited (waited (threads s j) ++ [w]) (threads s j)) as T2.
    { subst s2. cbn. rewrite fn_lookup_insert, rg_threads0.
      rewrite without_not_in by (apply Nd; left). done. }
    assert (forall k, k <> j -> threads s2 k = threads s k) as T2'.
    { intros k Nk. subst s2. cbn. rewrite fn_lookup_insert_ne by congruence. by rewrite rg_threads0. }
    assert (forall k, state (threads s2 k) = state (threads s k) /\
      thrown (threads s2 k) = thrown (threads s k)) as St2.
    { intros k. destruct (decide (k = j)) as [->|Nk]; [by rewrite T2|by rewrite T2']. }
    assert (forall v, blocks s2 v j = blocks s v j) as B2.
    { intros v. apply blocks_same; [done|]. intros k. by destruct (St2 k) as [-> _]. }
    assert (blocking s2 j ws = blocking s j ws) as Bl.
    { apply filter_in_ext. intros v _. by rewrite B2. }
    destruct (IH s2 N) as (s3 & E3 & [] & _).
    { intros v I. subst s2. cbn. rewrite rg_waiters0, decide_False by (intros ->; done).
      apply Nw. by right. }
    { intros v I. rewrite T2. cbn. rewrite elem_of_app, list_elem_of_singleton.
      intros [J|J]; [|by subst]. eapply Nd; [by right|done]. }
    { eapply Forall_impl; [exact Q|]. intros v [Y|[Y Z]]; [left; by rewrite B2|right].
      split; [subst s2; cbn; by rewrite rg_raises0|]. intros i Ei.
      destruct (St2 i) as [_ ->]. by apply Z. }
    rewrite Bl in *. rewrite (bind_Ok _ _ _ _ _ E3). exists s3. split; [done|]. split; [|done].
    destruct en_touched0 as (K & K1 & K2 & K3). split.
    + split_and!; [|subst s2; cbn in *; congruence..]. intros k Nk. rewrite K by done. by apply T2'.
    + by eapply same_objs_trans.
    + rewrite en_thread0, T2. cbn. by rewrite <- app_assoc.
    + intros v. rewrite en_waiters0. subst s2. cbn [waiters set_thread]. rewrite rg_waiters0.
      destruct (decide (w = v)) as [<-|Nv].
      * rewrite decide_False by (by intros [_ ?]%list_elem_of_filter). by rewrite decide_True by left.
      * by rewrite (decide_ext (v ∈ blocking s j ws) (v ∈ w :: blocking s j ws))
          by (rewrite elem_of_cons; naive_solver).
  - rewrite decide_False by congruence.
    destruct Q1 as [Y|[Y Z]]; [congruence|].
    destruct (wait_on_free w j s B) as [E1|(i & e & -> & T & _)].
    2: { by rewrite Z in T. }
    rewrite (bind_Ok _ _ _ _ _ E1), bind_read, Y.
    apply IH; [done| | |done]; intros v I; [apply Nw|apply Nd]; by right.
Qed.

(** What waiting for [l] does to a coroutine. *)
Record froze (l : list waitable) j s s' : Prop := {
  fz_others : (forall k, k <> j -> threads s' k = threads s k) /\ starting s' = starting s /\
    raises s' = raises s;
  fz_objs : same_objs (objs s) (objs s');
  fz_thread : state (threads s' j) = Frozen /\ waited (threads s' j) = l /\
    exception (threads s' j) = exception (threads s j) /\
    interruptible (threads s' j) = interruptible (threads s j);
  fz_ready : ready s' = without j (ready s);
  fz_waiters w : waiters s' w = if decide (w ∈ l) then waiters s w ++ [j] else waiters s w
}.

Lemma wait_spec ws timed j s : graph s -> j ∈ ready s -> state (threads s j) = Running -> NoDup ws -> Forall (quiet s j) ws ->
  if decide (blocking s j ws = []) then wait ws timed j s = (Ok false, s)
  else exists s', wait ws timed j s = (Ok true, s') /\ froze (blocking s j ws) j s s'.
Proof.
  intros G Rd Rn N Q.
  pose proof (running_waits s j G ltac:(congruence)) as W.
  destruct (wait_each_spec ws j s) as (s1 & E & En & Sm); try done.
  { intros w _ I%(g_sides _ G). rewrite W in I. by apply not_elem_of_nil in I. }
  { intros w _. rewrite W. apply not_elem_of_nil. }
  unfold wait. rewrite bind_read, !bind_assert, (bind_Ok _ _ _ _ _ E)
    by (by apply bool_decide_eq_true).
  destruct (decide (blocking s j ws = [])) as [B|B].
  { rewrite bool_decide_eq_false_2 by (by intros F). by rewrite Sm. }
  rewrite bool_decide_eq_true_2 by done.
  destruct En as [(K & K1 & K2 & K3) ? Th Wt]. rewrite W in Th. cbn in Th.
  set (s2 := if timed then set_thread j (set_timer false true (threads s1 j)) s1 else s1).
  assert (when timed (on_thread j (set_timer false true)) s1 = (Ok tt, s2)) as E2 by by destruct timed.
  rewrite (bind_Ok _ _ _ _ _ E2).
  assert (waiters s2 = waiters s1 /\ ready s2 = ready s1 /\ objs s2 = objs s1 /\
    starting s2 = starting s1 /\ raises s2 = raises s1 /\
    (forall k, k <> j -> threads s2 k = threads s1 k)) as (W2 & R2 & O2 & S2 & Ra2 & T2).
  { subst s2. destruct timed; [|done]. split_and!; try done. intros k Nk. cbn.
    by rewrite fn_lookup_insert_ne by congruence. }
  assert (state (threads s2 j) = Running /\ waited (threads s2 j) = blocking s j ws /\
    exception (threads s2 j) = exception (threads s j) /\
    interruptible (threads s2 j) = interruptible (threads s j)) as (St & Wd & Ex & In).
  { subst s2. destruct timed; cbn; rewrite ?fn_lookup_insert, Th; cbn; by rewrite Rn. }
  unfold freeze_. rewrite bind_assoc, bind_read, bind_assoc, bind_assert, bind_assoc, bind_assert, bind_write.
  2: { apply bool_decide_eq_true. by rewrite R2, K3. }
  2: { by apply bool_decide_eq_true. }
  rewrite bind_on_thread. eexists. split; [reflexivity|]. split; cbn.
  - split_and!; try congruence. intros k Nk. rewrite fn_lookup_insert_ne by congruence.
    by rewrite T2, K.
  - by rewrite O2.
  - by rewrite fn_lookup_insert.
  - by rewrite R2, K3.
  - intros w. by rewrite W2.
Qed.

(** Waiting for one thing freezes, or returns, or throws, and then does nothing
    else. *)
Lemma wait_one w timed j s : graph s -> j ∈ ready s -> state (threads s j) = Running ->
  if blocks s w j then exists s', wait [w] timed j s = (Ok true, s') /\ froze [w] j s s'
  else wait [w] timed j s = (Ok false, s) \/ exists e, wait [w] timed j s = (Throw (Raised e), s).
Proof.
  intros G Rd Rn. destruct (blocks s w j) eqn:B.
  - pose proof (wait_spec [w] timed j s G Rd Rn (NoDup_singleton w)) as H.
    unfold blocking in H. rewrite filter_cons_True, filter_nil, decide_False in H by done.
    apply H. apply Forall_singleton. by left.
  - pose proof (running_waits s j G ltac:(congruence)) as W.
    unfold wait. rewrite bind_read, !bind_assert by (by apply bool_decide_eq_true).
    cbn [wait_each]. rewrite bind_assoc.
    destruct (wait_on_free w j s B) as [E|(i & e & -> & T & E)].
    + rewrite (bind_Ok _ _ _ _ _ E), bind_assoc, bind_read.
      destruct (raises s w) as [e|]; [|by left]. right. exists e.
      rewrite W. cbn [each]. rewrite bind_assoc, bind_ret_l, bind_assoc, bind_read, bind_assoc.
      by rewrite bind_assert by by rewrite W.
    + right. exists e. by rewrite (bind_Throw _ _ _ _ _ E).
Qed.

Lemma graph_froze l j s s' : graph s -> j ∈ ready s -> NoDup l -> l <> [] -> froze l j s s' -> graph s'.
Proof.
  intros G Rd Nl L [(K & K1 & K2) _ (St & Wd & _) R Wt]. pose proof G as [].
  pose proof (running_waits s j G (g_ready0 _ Rd)) as W.
  assert (forall w, j ∉ waiters s w) as Nj.
  { intros w I%g_sides0. rewrite W in I. by apply not_elem_of_nil in I. }
  split.
  - intros w k. rewrite Wt. destruct (decide (k = j)) as [->|N].
    + rewrite Wd. destruct (decide (w ∈ l)); [|naive_solver].
      rewrite elem_of_app, list_elem_of_singleton. naive_solver.
    + rewrite K by done. destruct (decide (w ∈ l)); [|apply g_sides0].
      rewrite elem_of_app, list_elem_of_singleton, <- g_sides0. naive_solver.
  - intros w. rewrite Wt. destruct (decide (w ∈ l)); [|done].
    apply NoDup_app. split_and!; [done| |apply NoDup_singleton].
    intros k I ->%list_elem_of_singleton. by eapply Nj.
  - intros k. destruct (decide (k = j)) as [->|N]; [by rewrite Wd|]. by rewrite K.
  - intros k. destruct (decide (k = j)) as [->|N]; [by rewrite St, Wd|]. by rewrite K.
  - intros k. rewrite R, elem_of_without. intros [N I]. rewrite K by done. by apply g_ready0.
  - intros k. rewrite K1, R, elem_of_without. intros I. destruct (g_starting0 _ I) as [Sk Nk].
    rewrite K by (intros ->; done). naive_solver.
  - rewrite R, K1. split; [apply NoDup_without|]; apply g_once0.
Qed.

(** Nobody waits for what happened already. *)
Definition still s : Prop := forall w j, j ∈ waiters s w -> blocks s w j = true.

Lemma done_froze l j s s' : froze l j s s' -> state (threads s j) = Running ->
  forall k, state (threads s' k) = Done <-> state (threads s k) = Done.
Proof.
  intros [(K & _) _ (St & _) _ _] Rn k.
  destruct (decide (k = j)) as [->|N]; [by rewrite St, Rn|]. by rewrite K.
Qed.

Lemma still_froze l j s s' : still s -> state (threads s j) = Running ->
  (forall w, w ∈ l -> blocks s w j = true) -> froze l j s s' -> still s'.
Proof.
  intros S Rn L F w k. pose proof (done_froze l j s s' F Rn) as D. destruct F as [_ O _ _ Wt].
  rewrite (blocks_same s s' w k O D), Wt. destruct (decide (w ∈ l)); [|apply S].
  rewrite elem_of_app, list_elem_of_singleton. intros [I| ->]; [by apply S|by apply L].
Qed.

(** *** Signalling *)

(** No coroutine waits for more than it did. *)
Record calmer s s' : Prop := {
  cm_done k : state (threads s' k) = Done <-> state (threads s k) = Done;
  cm_frozen k : state (threads s' k) = Frozen -> state (threads s k) = Frozen;
  cm_waited w k : w ∈ waited (threads s' k) -> w ∈ waited (threads s k);
  cm_ready k : k ∈ ready s' -> k ∈ ready s \/ state (threads s k) = Frozen;
  cm_starting : starting s' = starting s
}.

Lemma calmer_refl s : calmer s s.
Proof. split; auto. Qed.
Lemma calmer_trans s1 s2 s3 : calmer s1 s2 -> calmer s2 s3 -> calmer s1 s3.
Proof.
  intros [] []. split; auto.
  - intros k. by rewrite cm_done1.
  - intros k I. apply cm_ready1 in I as [I|I]; auto.
  - congruence.
Qed.

Lemma graph_objs o s : graph s -> graph (set_objs o s).
Proof. by intros []. Qed.
Lemma graph_raises w e s : graph s -> graph (set_raises w e s).
Proof. by intros []. Qed.
Lemma still_raises w e s : still s -> still (set_raises w e s).
Proof. intros S v k I. specialize (S v k I). by destruct v. Qed.
Lemma calmer_objs o s : calmer s (set_objs o s).
Proof. split; auto. Qed.
Lemma calmer_raises w e s : calmer s (set_raises w e s).
Proof. split; auto. Qed.

Lemma calmer_woke w s s' : graph s -> woke w (waiters s w) s s' ->
  calmer s (set_raises w None (set_waiters w [] s')).
Proof.
  intros G []. split; cbn; try done.
  - intros k. rewrite wk_threads0. destruct (decide _) as [I|]; [|done].
    pose proof (frozen_waits _ _ _ G I) as F. cbn. rewrite F. by destruct (decide _).
  - intros k. rewrite wk_threads0. destruct (decide _) as [I|]; [|done].
    intros _. by eapply frozen_waits.
  - intros v k. rewrite wk_threads0. destruct (decide _); [|done]. cbn. rewrite elem_of_without. naive_solver.
  - intros k. rewrite wk_ready0, elem_of_app, list_elem_of_filter.
    intros [I|[_ I]]; [by left|right]. by eapply frozen_waits.
Qed.

Lemma signal_one_spec w s : graph s ->
  exists r s', signal_one w s = (Ok r, s') /\ graph s' /\
  (forall v, v <> w -> waiters s' v = waiters s v) /\
  (forall k, k ∈ waiters s' w -> k ∈ waiters s w) /\
  (forall v, v <> w -> raises s' v = raises s v) /\ raises s' w = None /\
  (forall k, k ∉ waiters s w -> threads s' k = threads s k) /\
  (forall k, state (threads s' k) = Done <-> state (threads s k) = Done) /\
  starting s' = starting s /\ objs s' = objs s /\ calmer s s'.
Proof.
  intros G. pose proof G as []. unfold signal_one. rewrite bind_read.
  destruct (waiters s w) as [|i l] eqn:W.
  { exists None, (set_raises w None s). split; [done|].
    split; [by destruct G; split|]. cbn. rewrite W. split_and!; try done.
    - intros v N. by rewrite fn_lookup_insert_ne.
    - by rewrite fn_lookup_insert.
    - apply calmer_raises. }
  pose proof (g_waiters0 w) as Nd. rewrite W in Nd. apply NoDup_cons in Nd as [Ni Nd].
  assert (state (threads s i) = Frozen) as F by (eapply frozen_waits; [done|]; rewrite W; left).
  destruct (wake_spec w i s F) as (s1 & E & T1 & R1 & St1 & W1 & Ra1 & O1).
  rewrite (bind_Ok _ _ _ _ _ E), bind_modify, bind_raise.
  eexists _, _. split; [reflexivity|].
  assert (forall v, v <> w -> v ∈ waited (threads s1 i) <-> v ∈ waited (threads s i)) as Wd.
  { intros v N. rewrite T1, decide_True by done. cbn. rewrite elem_of_without. naive_solver. }
  split; [eapply (graph_release (fun v k => v = w /\ k = i) s _
    (if decide (without w (waited (threads s i)) = []) then [i] else [])); try done; cbn|].
  - intros k. rewrite T1. destruct (decide (i = k)) as [->|N]; cbn.
    + split; [by apply NoDup_without|]. intros v. rewrite elem_of_without. naive_solver.
    + split; [done|]. naive_solver.
  - intros v. rewrite W1, fn_insert_eq. destruct (decide (w = v)) as [<-|N].
    + split; [done|]. intros k. rewrite W, elem_of_cons. split; [|naive_solver].
      intros I. split; [by right|]. intros [_ ->]. done.
    + split; [done|]. naive_solver.
  - intros k. rewrite T1. destruct (decide (i = k)) as [<-|N]; cbn.
    + rewrite F. destruct (decide (without w _ = [])), (decide (_ /\ _)); naive_solver.
    + rewrite decide_False; [done|]. intros [Fk E']. by apply g_frozen0 in Fk.
  - rewrite R1. destruct (decide _); [done|]. by rewrite app_nil_r.
  - destruct (decide _); [apply NoDup_singleton|constructor].
  - intros k. destruct (decide _) as [E'|]; [|intros I; by apply not_elem_of_nil in I].
    intros ->%list_elem_of_singleton. rewrite T1, decide_True by done. done.
  - cbn. rewrite W1, Ra1. split_and!; try done.
    + intros v N. by rewrite fn_lookup_insert_ne.
    + intros k. rewrite fn_lookup_insert. by right.
    + intros v N. by rewrite fn_lookup_insert_ne.
    + by rewrite fn_lookup_insert.
    + intros k [N _]%not_elem_of_cons. by rewrite T1, decide_False.
    + intros k. rewrite T1. destruct (decide (i = k)) as [<-|]; [|done]. cbn. rewrite F.
      by destruct (decide _).
    + split; cbn; try done.
      * intros k. rewrite T1. destruct (decide (i = k)) as [<-|]; [|done]. cbn. rewrite F.
        by destruct (decide _).
      * intros k. rewrite T1. by destruct (decide (i = k)) as [<-|].
      * intros v k. rewrite T1. destruct (decide (i = k)) as [<-|]; [|done]. cbn.
        rewrite elem_of_without. naive_solver.
      * intros k. rewrite R1. destruct (decide _); [|by left].
        rewrite elem_of_app, list_elem_of_singleton. naive_solver.
Qed.

(** What is signalled may no longer block. *)
Lemma signal_ok v s : graph s ->
  (forall w k, w <> v -> k ∈ waiters s w -> blocks s w k = true) ->
  exists s', signal_ v s = (Ok tt, s') /\ graph s' /\ still s' /\ calmer s s' /\ objs s' = objs s /\
    raises s' = <[v := None]> (raises s) /\
    (forall w, waiters s' w = if decide (w = v) then [] else waiters s w).
Proof.
  intros G S. destruct (signal_wakes v s G) as (s1 & E & Wk). eexists. split; [exact E|].
  split; [by apply (graph_signal v s)|]. pose proof (calmer_woke _ _ _ G Wk) as Cm.
  split; [|split; [done|]].
  - intros w k. cbn. rewrite fn_insert_eq, (wk_waiters _ _ _ _ Wk).
    destruct (decide (v = w)) as [->|N]; [intros I; by apply not_elem_of_nil in I|].
    intros I. transitivity (blocks s w k); [|apply S; congruence]. apply blocks_same.
    + cbn. rewrite (wk_objs _ _ _ _ Wk). apply same_refl.
    + apply Cm.
  - cbn. rewrite (wk_objs _ _ _ _ Wk), (wk_raises _ _ _ _ Wk). split_and!; try done.
    intros w. rewrite fn_insert_eq, (wk_waiters _ _ _ _ Wk).
    destruct (decide (v = w)) as [->|]; [by rewrite decide_True|by rewrite decide_False by congruence].
Qed.

(** A method that signals what it changed. *)
Definition settles (m : method (t X) (error X) unit) s (o : objects) : Prop :=
  exists s', m s = (Ok tt, s') /\ graph s' /\ still s' /\ calmer s s' /\ objs s' = o.

(** Changing objects, then signalling [v], which is all that the change may let
    go. *)
Lemma change_and_signal v s f : graph s -> still s ->
  (forall w k, w <> v -> blocks s w k = true -> blocks (set_objs (f (objs s)) s) w k = true) ->
  settles (on_objs f;; signal_ v) s (f (objs s)).
Proof.
  intros G S H. unfold settles. rewrite bind_on_objs.
  destruct (signal_ok v (set_objs (f (objs s)) s)) as (s' & E & G' & S' & C & O & _).
  { by apply graph_objs. }
  { intros w k N I. apply H; [done|]. by apply S. }
  exists s'. split_and!; try done. eapply calmer_trans; [apply calmer_objs|done].
Qed.

(** Changing objects in a way that lets nothing go. *)
Lemma change_quietly s f : graph s -> still s ->
  (forall w k, k ∈ waiters s w -> blocks s w k = true -> blocks (set_objs (f (objs s)) s) w k = true) ->
  settles (on_objs f) s (f (objs s)).
Proof.
  intros G S H. eexists. split; [reflexivity|]. split_and!; [by apply graph_objs| | |done].
  - intros w k I. apply H; [done|]. by apply S.
  - apply calmer_objs.
Qed.

(** Whether a change of objects keeps a waitable blocking. *)
Ltac keeps_blocking :=
  intros w k; destruct w as [[?i'|?i'|?i'|?i']|?i'|?i'|?i'|?i'|?i']; cbn; try done;
  rewrite ?fn_insert_eq;
  repeat match goal with
  | |- context [if decide (?a = ?b) then _ else _] => destruct (decide (a = b)); simplify_eq
  end; try done.

Lemma open_settles i s : graph s -> still s ->
  settles (barrier_open i) s (if opened (objs s) i then objs s else set_opened i true (objs s)).
Proof.
  intros G S. unfold barrier_open, settles. rewrite bind_read. destruct (opened (objs s) i) eqn:O.
  - eexists. split; [reflexivity|]. split_and!; [by apply graph_raises|by apply still_raises| |done].
    apply calmer_raises.
  - apply (change_and_signal (Barrier i) s (set_opened i true)); [done|done|].
    keeps_blocking.
Qed.

Lemma close_settles i s : graph s -> still s ->
  settles (barrier_close i) s (if opened (objs s) i then set_opened i false (objs s) else objs s).
Proof.
  intros G S. unfold barrier_close, settles. rewrite bind_read. destruct (opened (objs s) i) eqn:O.
  - cbn [when]. rewrite bind_raise.
    destruct (change_and_signal (Inverted i) (set_raises (Barrier i) None s) (set_opened i false))
      as (s' & E & G' & S' & C & O'); [by apply graph_raises|by apply still_raises|keeps_blocking|].
    exists s'. split_and!; try done. eapply calmer_trans; [apply calmer_raises|done].
  - exists s. split_and!; try done. apply calmer_refl.
Qed.

Lemma raise_settles i e s : graph s -> still s ->
  settles (barrier_raise i e) s (if opened (objs s) i then objs s else set_opened i true (objs s)).
Proof.
  intros G S. unfold barrier_raise, settles. rewrite bind_raise.
  destruct (open_settles i (set_raises (Barrier i) (Some e) s)) as (s' & E & G' & S' & C & O');
    [by apply graph_raises|by apply still_raises|].
  rewrite (bind_Ok _ _ _ _ _ E). eexists. split; [reflexivity|].
  split_and!; [by apply graph_raises|by apply still_raises| |done].
  eapply calmer_trans; [apply calmer_raises|]. eapply calmer_trans; [exact C|apply calmer_raises].
Qed.

Lemma multi_lock_settles i s : graph s -> still s -> 0 <= locks (objs s) i ->
  settles (multi_lock i) s (set_locks i (locks (objs s) i + 1) (objs s)).
Proof.
  intros G S P. apply (change_quietly s (fun o => set_locks i (locks o i + 1) o)); [done|done|].
  keeps_blocking. intros _ _. destruct (Z.eqb_spec (locks (objs s) i' + 1) 0); [lia|done].
Qed.

Lemma multi_unlock_settles i s : graph s -> still s -> 0 < locks (objs s) i ->
  settles (multi_unlock i) s (set_locks i (locks (objs s) i - 1) (objs s)).
Proof.
  intros G S P. unfold multi_unlock, settles. rewrite bind_read, bind_assert by lia.
  set (f := fun o => set_locks i (locks o i - 1) o).
  destruct (Z.eqb_spec (locks (objs s) i - 1) 0) as [Z|Z].
  - destruct (change_and_signal (MultiLockBarrier i) s f) as (s' & E & Rest); [done|done|keeps_blocking|].
    exists s'. rewrite <- E. split; [|done]. rewrite !bind_on_objs, bind_read. subst f. cbn.
    rewrite fn_lookup_insert, Z. reflexivity.
  - destruct (change_quietly s f) as (s' & E & Rest); [done|done| |].
    { keeps_blocking. intros _ _. cbn. by apply negb_true_iff, Z.eqb_neq. }
    exists s'. rewrite <- E. split; [|done]. rewrite !bind_on_objs, bind_read. subst f. cbn.
    rewrite fn_lookup_insert. apply Z.eqb_neq in Z. by rewrite Z.
Qed.

Lemma post_settles i s : graph s -> still s ->
  settles (semaphore_release i) s (set_count i (count (objs s) i + 1) (objs s)).
Proof.
  intros G S. apply (change_and_signal (Lockable (Semaphore i)) s (fun o => set_count i (count o i + 1) o));
    [done|done|keeps_blocking].
Qed.

Lemma mutex_release_settles i s : graph s -> still s -> locked (objs s) i = true ->
  settles (mutex_release i) s (set_locked i false (objs s)).
Proof.
  intros G S L. unfold mutex_release, settles. rewrite bind_read, bind_assert by done.
  apply (change_and_signal (Lockable (Mutex i)) s (set_locked i false)); [done|done|keeps_blocking].
Qed.

Lemma recursion_settles i n s : graph s -> still s ->
  settles (on_objs (fun o => set_recursive i (recursive o i + n) o)) s
    (set_recursive i (recursive (objs s) i + n) (objs s)).
Proof.
  intros G S. apply (change_quietly s (fun o => set_recursive i (recursive o i + n) o)); [done|done|].
  keeps_blocking.
Qed.

Lemma write_free_settles i s : graph s -> still s -> recursive (objs s) i = 0 ->
  is_Some (writer (objs s) i) -> settles (write_release i) s (set_writer i None (objs s)).
Proof.
  intros G S R W. unfold write_release, settles.
  rewrite bind_read, R. cbn [Z.eqb negb]. rewrite bind_assert by by apply bool_decide_eq_true.
  destruct (signal_ok (Lockable (WriteMutex i)) s) as (s1 & E1 & G1 & S1 & C1 & O1 & _ & W1); [done|by auto|].
  destruct (signal_ok (Lockable (RWMutex i)) s1) as (s2 & E2 & G2 & S2 & C2 & O2 & _ & W2); [done|by auto|].
  rewrite (bind_Ok _ _ _ _ _ E1), (bind_Ok _ _ _ _ _ E2).
  eexists. split; [reflexivity|]. split_and!; [by apply graph_objs| | |].
  - intros w k I. cbn in I. pose proof (S2 w k I) as B. rewrite W2, W1 in I. revert B I.
    revert w k. keeps_blocking; intros _ I; try by apply not_elem_of_nil in I.
  - eapply calmer_trans; [exact C1|]. eapply calmer_trans; [exact C2|apply calmer_objs].
  - cbn. by rewrite O2, O1.
Qed.

Lemma read_free_settles i s : graph s -> still s -> writer (objs s) i = None -> 0 < readers (objs s) i ->
  settles (read_release i) s (set_readers i (readers (objs s) i - 1) (objs s)).
Proof.
  intros G S W P. unfold read_release, settles. rewrite bind_read, W, bind_assert by lia.
  set (f := fun o => set_readers i (readers o i - 1) o).
  destruct (Z.eqb_spec (readers (objs s) i - 1) 0) as [Z|Z].
  - destruct (change_and_signal (Lockable (WriteMutex i)) s f) as (s' & E & Rest); [done|done|keeps_blocking|].
    exists s'. rewrite <- E. split; [|done]. rewrite !bind_on_objs, bind_read. subst f. cbn.
    rewrite fn_lookup_insert, Z. reflexivity.
  - destruct (change_quietly s f) as (s' & E & Rest); [done|done| |].
    { keeps_blocking. intros _ [B _]%andb_true_iff. rewrite B. cbn [andb].
      destruct (Z.ltb_spec 0 (readers (objs s) i' - 1)); [done|lia]. }
    exists s'. rewrite <- E. split; [|done]. rewrite !bind_on_objs, bind_read. subst f. cbn.
    rewrite fn_lookup_insert. apply Z.eqb_neq in Z. by rewrite Z.
Qed.

(** *** Locks *)

Definition taken_ (l : lockable) (h : list (Z * lockable)) : list (Z * lockable) :=
  filter (fun x => x.2 = l) h.
(** The locks on a RWMutex, for reading or writing. *)
Definition taken_rw (i : Z) (h : list (Z * lockable)) : list (Z * lockable) :=
  filter (fun x => x.2 = RWMutex i \/ x.2 = WriteMutex i) h.

(** What the locks say of who has them. A coroutine that writes took that lock
    first, and what it took since counts as taken again. *)
Record accounts (o : objects) (h : list (Z * lockable)) (b : Z -> Z) : Prop := {
  ac_mutex i : length (taken_ (Mutex i) h) = if locked o i then 1%nat else 0%nat;
  ac_semaphore i : count o i + Z.of_nat (length (taken_ (Semaphore i) h)) = b i /\
    (taken_ (Semaphore i) h <> [] -> 0 <= count o i);
  ac_rw i :
    match writer o i with
    | Some j => readers o i = 0 /\ exists l, taken_rw i h = l ++ [(j, WriteMutex i)] /\
        Z.of_nat (length l) = recursive o i /\ Forall (fun x => x.1 = j) l
    | None => recursive o i = 0 /\ Z.of_nat (length (taken_rw i h)) = readers o i /\
        Forall (fun x => x.2 = RWMutex i) (taken_rw i h)
    end
}.

Lemma filter_latest (P : Z * lockable -> Prop) `{forall x, Decision (P x)} j l h : latest j h = Some l ->
  filter P (drop_latest j h) =
    (if decide (P (j, l)) then drop_latest j (filter P h) else filter P h) /\
  (P (j, l) -> latest j (filter P h) = Some l).
Proof.
  induction h as [|[k m] h IH]; [done|]. cbn [latest drop_latest]. destruct (decide (k = j)) as [->|N].
  - intros [= ->]. rewrite filter_cons. destruct (decide (P (j, l))); [|by split].
    cbn. by rewrite !decide_True.
  - intros E. destruct (IH E) as [E1 E2]. rewrite !filter_cons.
    destruct (decide (P (k, m))); cbn; [|by split].
    rewrite !(decide_False (P := k = j)) by done. split; [|done].
    rewrite E1. by destruct (decide (P (j, l))).
Qed.

Lemma latest_hd j l h : latest j h = Some l -> Forall (fun x => x.1 = j) h ->
  exists h', h = (j, l) :: h' /\ drop_latest j h = h'.
Proof.
  intros E F. destruct h as [|[k m] h]; [done|]. apply Forall_cons in F as [F _]. cbn in F. subst k.
  cbn in *. destruct (decide (j = j)); [|done]. injection E as ->. by exists h.
Qed.

Lemma length_latest j l h : latest j h = Some l -> length h = Datatypes.S (length (drop_latest j h)).
Proof.
  induction h as [|[k m] h IH]; [done|]. cbn. destruct (decide (k = j)); [done|].
  intros E. cbn. by rewrite IH.
Qed.

Lemma Forall_drop_latest (P : Z * lockable -> Prop) j h : Forall P h -> Forall P (drop_latest j h).
Proof.
  induction h as [|[k m] h IH]; [done|]. intros [F1 F]%Forall_cons. cbn.
  destruct (decide (k = j)); [done|]. constructor; auto.
Qed.

Lemma taken_cons l j m h : taken_ l ((j, m) :: h) = if decide (m = l) then (j, m) :: taken_ l h else taken_ l h.
Proof. unfold taken_. by rewrite filter_cons. Qed.
Lemma taken_rw_cons i j m h : taken_rw i ((j, m) :: h) =
  if decide (m = RWMutex i \/ m = WriteMutex i) then (j, m) :: taken_rw i h else taken_rw i h.
Proof. unfold taken_rw. by rewrite filter_cons. Qed.

(** Taking, and releasing, another lock. *)
Ltac other_locks Ac := destruct Ac as [Mu Se Rw];
  split; intros i';
  [specialize (Mu i')|specialize (Se i')|specialize (Rw i')];
  rewrite ?taken_cons, ?taken_rw_cons;
  cbn [locked count readers writer recursive set_locked set_count set_readers set_writer set_recursive];
  rewrite ?fn_insert_eq; repeat case_decide; simplify_eq; try done;
  try (exfalso; clear Mu Se Rw; naive_solver).

Lemma accounts_mutex i j o h b : accounts o h b -> locked o i = false ->
  accounts (set_locked i true o) ((j, Mutex i) :: h) b.
Proof. intros Ac L. other_locks Ac. rewrite L in Mu. cbn. by rewrite Mu. Qed.
Lemma accounts_semaphore i j o h b : accounts o h b -> 0 < count o i ->
  accounts (set_count i (count o i - 1) o) ((j, Semaphore i) :: h) b.
Proof. intros Ac P. other_locks Ac. cbn. lia. Qed.

Lemma accounts_write i j o h b : accounts o h b -> writer o i = None -> readers o i <= 0 ->
  accounts (set_writer i (Some j) o) ((j, WriteMutex i) :: h) b.
Proof.
  intros Ac W R. other_locks Ac. rewrite W in Rw. destruct Rw as (R0 & L & F).
  destruct (taken_rw i' h); [|cbn in L; lia]. cbn in L. split; [lia|]. by exists [].
Qed.

Lemma accounts_again i j l o h b : accounts o h b -> l = RWMutex i \/ l = WriteMutex i ->
  writer o i = Some j ->
  accounts (set_recursive i (recursive o i + 1) o) ((j, l) :: h) b.
Proof.
  intros Ac Hl W. destruct Hl as [-> | ->]; other_locks Ac; rewrite W in *;
    destruct Rw as (R0 & l & E & N & F); (split; [done|]).
  - exists ((j, RWMutex i') :: l). rewrite E. split_and!; [done|cbn; lia|by constructor].
  - exists ((j, WriteMutex i') :: l). rewrite E. split_and!; [done|cbn; lia|by constructor].
Qed.

Lemma accounts_read i j o h b : accounts o h b -> writer o i = None ->
  accounts (set_readers i (readers o i + 1) o) ((j, RWMutex i) :: h) b.
Proof.
  intros Ac W. other_locks Ac; rewrite W in *. destruct Rw as (R0 & L & F).
  split_and!; [done|cbn; lia|by constructor].
Qed.

(** What is left when [j] releases its last lock. *)
Lemma taken_drop j l m h : latest j h = Some l ->
  taken_ m (drop_latest j h) = if decide (l = m) then drop_latest j (taken_ m h) else taken_ m h.
Proof. intros E. by destruct (filter_latest (fun x => x.2 = m) j l h E). Qed.
Lemma length_taken_drop j l h : latest j h = Some l ->
  length (taken_ l h) = Datatypes.S (length (taken_ l (drop_latest j h))).
Proof.
  intros E. rewrite (taken_drop _ _ _ _ E), decide_True by done.
  destruct (filter_latest (fun x => x.2 = l) j l h E) as [_ L]. by apply (length_latest j l), L.
Qed.
Lemma taken_rw_drop i j l h : latest j h = Some l ->
  taken_rw i (drop_latest j h) =
    (if decide (l = RWMutex i \/ l = WriteMutex i) then drop_latest j (taken_rw i h) else taken_rw i h) /\
  (l = RWMutex i \/ l = WriteMutex i -> latest j (taken_rw i h) = Some l).
Proof.
  intros E. destruct (filter_latest (fun x => x.2 = RWMutex i \/ x.2 = WriteMutex i) j l h E) as [E1 E2].
  split; [|exact E2]. unfold taken_rw. rewrite E1. by repeat case_decide.
Qed.

(** Releasing [l], which changes nothing for other locks. *)
Ltac release_locks Ac L := destruct Ac as [Mu Se Rw];
  split; intros i';
  [specialize (Mu i')|specialize (Se i')|specialize (Rw i')];
  rewrite ?(taken_drop _ _ _ _ L), ?(proj1 (taken_rw_drop i' _ _ _ L));
  cbn [locked count readers writer recursive set_locked set_count set_readers set_writer set_recursive];
  rewrite ?fn_insert_eq; repeat case_decide; simplify_eq; try done;
  try (exfalso; clear Mu Se Rw L; naive_solver).

Lemma accounts_mutex_free i j o h b : accounts o h b -> latest j h = Some (Mutex i) ->
  locked o i = true /\ accounts (set_locked i false o) (drop_latest j h) b.
Proof.
  intros Ac L. pose proof (length_taken_drop _ _ _ L) as Le.
  pose proof (ac_mutex _ _ _ Ac i) as M. rewrite Le in M.
  destruct (locked o i) eqn:Lk; [|done]. split; [done|]. injection M as M.
  rewrite (taken_drop _ _ _ _ L), decide_True in M by done.
  release_locks Ac L.
Qed.

Lemma accounts_semaphore_free i j o h b : accounts o h b -> latest j h = Some (Semaphore i) ->
  accounts (set_count i (count o i + 1) o) (drop_latest j h) b.
Proof.
  intros Ac L. pose proof (length_taken_drop _ _ _ L) as Le. pose proof Le as Le'.
  rewrite (taken_drop _ _ _ _ L), decide_True in Le by done.
  destruct (ac_semaphore _ _ _ Ac i) as [_ P].
  assert (0 <= count o i) as P' by (apply P; intros E; by rewrite E in Le').
  release_locks Ac L. lia.
Qed.

(** Releasing a lock on a RWMutex that is locked for writing. *)
Lemma accounts_writer_free i j k l o h b : accounts o h b -> latest j h = Some l ->
  l = RWMutex i \/ l = WriteMutex i -> writer o i = Some k ->
  k = j /\ 0 <= recursive o i /\
  (recursive o i = 0 -> l = WriteMutex i /\ accounts (set_writer i None o) (drop_latest j h) b) /\
  (recursive o i <> 0 -> accounts (set_recursive i (recursive o i - 1) o) (drop_latest j h) b).
Proof.
  intros Ac L Hl W. pose proof (ac_rw _ _ _ Ac i) as R. rewrite W in R.
  destruct R as (R0 & t & E & N & F). destruct (taken_rw_drop i j l h L) as [D La]. specialize (La Hl).
  assert (Forall (fun x : Z * lockable => x.1 = k) (taken_rw i h)) as F'.
  { rewrite E. apply Forall_app. split; [done|by apply Forall_singleton]. }
  assert (k = j) as ->.
  { clear -La F'. induction F' as [|[k' m] h' Ek F' IH]; [done|]. cbn in *.
    destruct (decide (k' = j)); [congruence|auto]. }
  destruct (latest_hd j l _ La F') as (h' & E1 & E2). rewrite E in E1, E2.
  split; [done|]. split; [lia|]. split; intros Z.
  - destruct t; [|cbn in N; lia]. cbn in E1. injection E1 as <- <-. split; [done|].
    release_locks Ac L. rewrite E, E2. split_and!; [done|by rewrite R0|constructor].
  - destruct t as [|x t]; [cbn in N; lia|]. cbn in E1. injection E1 as -> <-.
    release_locks Ac L; rewrite ?W; (split; [done|]); exists t; rewrite E, E2;
      split_and!; try done; try (cbn in N; lia); by apply Forall_cons in F as [_ ?].
Qed.

Lemma accounts_reader_free i j l o h b : accounts o h b -> latest j h = Some l ->
  l = RWMutex i \/ l = WriteMutex i -> writer o i = None ->
  l = RWMutex i /\ 0 < readers o i /\
  accounts (set_readers i (readers o i - 1) o) (drop_latest j h) b.
Proof.
  intros Ac L Hl W. pose proof (ac_rw _ _ _ Ac i) as R. rewrite W in R.
  destruct R as (R0 & N & F). destruct (taken_rw_drop i j l h L) as [D La]. specialize (La Hl).
  pose proof (length_latest _ _ _ La) as Le.
  assert (l = RWMutex i) as ->.
  { clear -La F. induction F as [|[k' m] h' Ek F' IH]; [done|]. cbn in *.
    destruct (decide (k' = j)); [congruence|auto]. }
  split; [done|]. split; [lia|]. release_locks Ac L. rewrite W.
  split_and!; [done|lia|by apply Forall_drop_latest].
Qed.

(** *** Taking and releasing locks *)

Lemma acquire_ok l j s h b : graph s -> still s -> accounts (objs s) h b ->
  (acquire l j s = (Ok false, s) /\ blocks s (Lockable l) j = true) \/
  exists s', acquire l j s = (Ok true, s') /\ graph s' /\ still s' /\ calmer s s' /\
    accounts (objs s') ((j, l) :: h) b /\ locks (objs s') = locks (objs s) /\
    threads s' = threads s /\ ready s' = ready s /\ waiters s' = waiters s.
Proof.
  intros G S Ac.
  assert (forall f, (forall w k, k ∈ waiters s w -> blocks s w k = true ->
      blocks (set_objs (f (objs s)) s) w k = true) -> accounts (f (objs s)) ((j, l) :: h) b ->
    locks (f (objs s)) = locks (objs s) ->
    exists s', (on_objs f;; mret true) s = (Ok true, s') /\ graph s' /\ still s' /\ calmer s s' /\
      accounts (objs s') ((j, l) :: h) b /\ locks (objs s') = locks (objs s) /\
      threads s' = threads s /\ ready s' = ready s /\ waiters s' = waiters s) as Change.
  { intros f B A Lk. destruct (change_quietly s f G S B) as (s' & E & G' & S' & C & O).
    injection E as <-. exists (set_objs (f (objs s)) s). by rewrite bind_on_objs. }
  destruct l as [i|i|i|i]; cbn [acquire blocks].
  - unfold semaphore_acquire. rewrite bind_read. destruct (Z.ltb_spec 0 (count (objs s) i)).
    + right. apply (Change (fun o => set_count i (count o i - 1) o)); [|by apply accounts_semaphore|done].
      keeps_blocking. rewrite !Z.leb_le. lia.
    + left. split; [done|]. by apply Z.leb_le.
  - unfold mutex_acquire. rewrite bind_read. destruct (locked (objs s) i) eqn:L; [by left|].
    right. apply (Change (set_locked i true)); [keeps_blocking|by apply accounts_mutex|done].
  - unfold read_acquire. rewrite bind_read. destruct (writer (objs s) i) as [k|] eqn:W.
    + destruct (Z.eqb_spec k j) as [->|N]; [|by left].
      right. apply (Change (fun o => set_recursive i (recursive o i + 1) o));
        [keeps_blocking|apply accounts_again; auto|done].
    + right. apply (Change (fun o => set_readers i (readers o i + 1) o));
        [|by apply accounts_read|done]. keeps_blocking.
      intros _ [B1 B2]%andb_true_iff. rewrite B1. cbn [andb].
      rewrite W in B2 |- *. rewrite bool_decide_eq_false_2, orb_false_r in B2 |- * by (by intros []).
      apply Z.ltb_lt in B2. apply Z.ltb_lt. lia.
  - unfold write_acquire. rewrite bind_read.
    destruct (decide (writer (objs s) i = Some j)) as [W|N].
    + rewrite bool_decide_eq_true_2 by done. right.
      apply (Change (fun o => set_recursive i (recursive o i + 1) o));
        [keeps_blocking|apply accounts_again; auto|done].
    + rewrite bool_decide_eq_false_2 by done. cbn [negb andb].
      destruct ((0 <? readers (objs s) i) || _) eqn:B; [by left|].
      apply orb_false_iff in B as [R W]. apply Z.ltb_ge in R. apply bool_decide_eq_false in W.
      apply eq_None_not_Some in W. right. apply (Change (set_writer i (Some j)));
        [|by apply accounts_write|done].
      keeps_blocking; rewrite W; try done.
      intros _ [_ B]%andb_true_iff. apply orb_true_iff in B as [B|B];
        [apply Z.ltb_lt in B; lia|by apply bool_decide_eq_true in B as []].
Qed.

Lemma release_ok l j s h b : graph s -> still s -> accounts (objs s) h b -> latest j h = Some l ->
  exists s', release l s = (Ok tt, s') /\ graph s' /\ still s' /\ calmer s s' /\
    accounts (objs s') (drop_latest j h) b /\ locks (objs s') = locks (objs s).
Proof.
  intros G S Ac L.
  assert (forall m o, settles m s o -> accounts o (drop_latest j h) b -> locks o = locks (objs s) ->
    exists s', m s = (Ok tt, s') /\ graph s' /\ still s' /\ calmer s s' /\
    accounts (objs s') (drop_latest j h) b /\ locks (objs s') = locks (objs s)) as Go.
  { intros m o (s' & E & G' & S' & C & <-) A Lk. by exists s'. }
  destruct l as [i|i|i|i]; cbn [release].
  - eapply Go; [by apply post_settles|by apply accounts_semaphore_free|done].
  - destruct (accounts_mutex_free _ _ _ _ _ Ac L) as [Lk A].
    eapply Go; [by apply mutex_release_settles|done|done].
  - destruct (writer (objs s) i) as [k|] eqn:W.
    + destruct (accounts_writer_free i j k _ _ _ _ Ac L (or_introl eq_refl) W) as (-> & P & Z & N).
      assert (recursive (objs s) i <> 0) as Nz by (intros E; by destruct (Z E)).
      eapply (Go _ (set_recursive i (recursive (objs s) i + -1) (objs s))); [|apply N, Nz|done].
      destruct (recursion_settles i (-1) s G S) as (s' & E & Rest). exists s'. split; [|exact Rest].
      rewrite <- E. unfold read_release. rewrite bind_read, W. by rewrite bind_assert by lia.
    + destruct (accounts_reader_free i j _ _ _ _ Ac L (or_introl eq_refl) W) as (_ & P & A).
      eapply Go; [by apply read_free_settles|done|done].
  - destruct (writer (objs s) i) as [k|] eqn:W.
    + destruct (accounts_writer_free i j k _ _ _ _ Ac L (or_intror eq_refl) W) as (-> & P & Z & N).
      destruct (Z.eqb_spec (recursive (objs s) i) 0) as [E|Nz].
      * eapply Go; [apply write_free_settles; eauto|by apply Z|done].
      * eapply (Go _ (set_recursive i (recursive (objs s) i + -1) (objs s))); [|apply N, Nz|done].
        destruct (recursion_settles i (-1) s G S) as (s' & E & Rest). exists s'. split; [|exact Rest].
        rewrite <- E. unfold write_release. rewrite bind_read. apply Z.eqb_neq in Nz. by rewrite Nz.
    + destruct (accounts_reader_free i j _ _ _ _ Ac L (or_intror eq_refl) W) as (? & _). done.
Qed.
End Properties.
