(* ===== verification/CoroutineTheorems.v ===== *)
(** The theorems on coroutines: nobody waits for what has happened, locks exclude
    each other, and where this ends. *)

From stdpp Require Import base tactics functions option relations list.
From Stdlib Require Import ZArith Lia.
From S2P Require Import Prelude Coroutines CoroutineProperties.
Import Coroutines.
Open Scope Z_scope.

Section Theorems.
Context {X : Type}.

Implicit Types (s : t X) (w : world X) (v : waitable) (j k : Z) (th : thread X).

(** *** Coroutines at work *)

Record ok w : Prop := {
  ok_failed : failed w = false;
  ok_graph : graph (sched w);
  ok_still : still (sched w);
  ok_accounts : accounts (objs (sched w)) (held w) (budget w);
  ok_multi i : 0 <= locks (objs (sched w)) i;
  ok_running j : j ∈ ready (sched w) -> state (threads (sched w) j) = Running;
  ok_idle j : state (threads (sched w) j) = Frozen -> doing w j <> Idle;
  ok_locking j l v : doing w j = Locking l -> v ∈ waited (threads (sched w) j) -> v = Lockable l;
  ok_created j : j ∉ created w ->
    state (threads (sched w) j) = Running /\ (j ∉ ready (sched w)) /\ (j ∉ starting (sched w))
}.

Lemma accounts_same o o' h b : same_objs o o' -> accounts o h b -> accounts o' h b.
Proof.
  intros [] [Mu Se Rw]. split; intros i; rewrite ?so_locked, ?so_count, ?so_readers, ?so_writer,
    ?so_recursive; auto; apply Rw.
Qed.

(** A change after which nobody waits for more. *)
Record good s s' : Prop := {
  gd_graph : graph s';
  gd_still : still s';
  gd_calmer : calmer s s'
}.

Lemma good_trans s1 s2 s3 : good s1 s2 -> good s2 s3 -> good s1 s3.
Proof. intros [] []. split; [done|done|]. by eapply calmer_trans. Qed.
Lemma good_refl s : graph s -> still s -> good s s.
Proof. split; [done|done|apply calmer_refl]. Qed.

Lemma ok_good w s' h b : ok w -> good (sched w) s' -> accounts (objs s') h b ->
  (forall i, 0 <= locks (objs s') i) -> ok (mkWorld s' (doing w) h b (created w) false).
Proof.
  intros [] [G S []] A M. split; cbn; try done.
  - intros k I. pose proof (g_ready _ G _ I) as F. apply cm_ready in I.
    destruct (state (threads s' k)) eqn:E; [done|done|]. apply cm_done in E.
    destruct I as [I|I]; [apply ok_running0 in I|]; congruence.
  - intros j F. by apply ok_idle0, cm_frozen.
  - intros j l v D I. eapply ok_locking0; [done|]. by apply cm_waited.
  - intros j N. destruct (ok_created0 j N) as (Rn & Nr & Ns). split_and!.
    + destruct (state (threads s' j)) eqn:E; [done|apply cm_frozen in E|apply cm_done in E]; congruence.
    + intros I. apply cm_ready in I as [I|I]; [done|congruence].
    + by rewrite cm_starting.
Qed.

(** Changes to a coroutine that leave what it waits for. *)
Lemma good_touch j th s : graph s -> still s -> state th = state (threads s j) ->
  waited th = waited (threads s j) -> good s (set_thread j th s).
Proof.
  intros G S St Wd.
  assert (forall k, state (threads (set_thread j th s) k) = state (threads s k) /\
    waited (threads (set_thread j th s) k) = waited (threads s k)) as E.
  { intros k. cbn. rewrite fn_insert_eq. by destruct (decide (j = k)) as [->|]. }
  split.
  - destruct G. split; try done; intros.
    + destruct (E j0) as [_ ->]. apply g_sides.
    + destruct (E j0) as [_ ->]. apply g_waited.
    + destruct (E j0) as [-> ->]. apply g_frozen.
    + destruct (E j0) as [-> _]. by apply g_ready.
    + destruct (E j0) as [-> _]. by apply g_starting.
  - intros v k I. rewrite <- (S v k I). apply blocks_same; [apply same_refl|].
    intros k'. by destruct (E k') as [-> _].
  - split; try done.
    + intros k. by destruct (E k) as [-> _].
    + intros k. by destruct (E k) as [-> _].
    + intros v k. by destruct (E k) as [_ ->].
    + auto.
Qed.

Lemma good_aborted j s s' : graph s -> still s -> state (threads s j) = Frozen -> aborted j s s' ->
  good s s'.
Proof.
  intros G S F Ab. split; [by eapply graph_aborted| |].
  - destruct Ab as [[] Th _ Wt]. intros v k. rewrite Wt, elem_of_without. intros [_ I].
    rewrite <- (S v k I). apply blocks_same; [rewrite to_objs; apply same_refl|].
    intros k'. destruct (decide (k' = j)) as [->|N]; [|by rewrite to_others].
    rewrite Th, F. done.
  - destruct Ab as [[] Th Rd Wt]. split.
    + intros k. destruct (decide (k = j)) as [->|N]; [|by rewrite to_others]. by rewrite Th, F.
    + intros k. destruct (decide (k = j)) as [->|N]; [|by rewrite to_others]. done.
    + intros v k. destruct (decide (k = j)) as [->|N]; [|by rewrite to_others].
      rewrite Th. cbn. intros I. by apply not_elem_of_nil in I.
    + intros k. rewrite Rd, elem_of_app, list_elem_of_singleton. intros [I| ->]; auto.
    + done.
Qed.

(** What a method of a coroutine that waits for nothing more does. *)
Definition tame {A} (m : method (t X) (error X) A) s s' : Prop :=
  exists r, m s = (r, s') /\ r <> Throw AssertError /\ good s s' /\ objs s' = objs s.

Lemma good_raises v e s : graph s -> still s -> good s (set_raises v e s).
Proof. intros G S. split; [by apply graph_raises|by apply still_raises|apply calmer_raises]. Qed.

Lemma tame_resume timed j s : graph s -> still s -> exists s', tame (resume timed j) s s' /\
  ready s' = ready s /\ forall k, state (threads s' k) = state (threads s k).
Proof.
  intros G S. unfold resume, tame.
  set (s1 := if timed then set_thread j (set_timer (timeout (threads s j)) false (threads s j)) s else s).
  assert (good s s1 /\ objs s1 = objs s) as [Gd O].
  { subst s1. destruct timed; [|by split; [apply good_refl|]].
    split; [by apply good_touch|done]. }
  assert (when timed (on_thread j (fun th => set_timer (timeout th) false th)) s = (Ok tt, s1)) as E1
    by by destruct timed.
  set (s2 := set_thread j (set_exception None (threads s1 j)) s1).
  assert (good s s2) as Gd2 by (eapply good_trans; [exact Gd|]; by apply good_touch; destruct Gd).
  assert (exists r s', yielded j s1 = (r, s') /\ r <> Throw AssertError /\ (s' = s1 \/ s' = s2))
    as (r & s' & E2 & R & Es).
  { unfold yielded. rewrite bind_read. destruct (exception (threads s1 j)) as [[|x]|].
    - destruct (interruptible _); eexists _, _; (split; [reflexivity|]); auto.
    - eexists _, _; (split; [reflexivity|]); auto.
    - eexists _, _; (split; [reflexivity|]); auto. }
  exists s'. split; [|assert (ready s1 = ready s /\ forall k, state (threads s1 k) = state (threads s k)) as [R1 S1];
    [|destruct Es as [-> | ->]; [done|]]].
  2: { subst s1. destruct timed; [|done]. split; [done|]. intros k. cbn. rewrite fn_insert_eq.
       by destruct (decide (j = k)) as [->|]. }
  2: { split; [done|]. intros k. subst s2. cbn. rewrite fn_insert_eq, <- S1.
       by destruct (decide (j = k)) as [->|]. }
  exists (match r with Ok _ => Ok (negb timed || negb (timeout (threads s j))) | Throw e => Throw e end).
  split; [|split; [by destruct r as [|[]]|by destruct Es as [-> | ->]]].
  rewrite bind_read, (bind_Ok _ _ _ _ _ E1). unfold mbind, method_bind. rewrite E2. by destruct r.
Qed.

Lemma tame_yielded j s : graph s -> still s -> exists s', tame (yielded j) s s'.
Proof.
  intros G S. set (s2 := set_thread j (set_exception None (threads s j)) s).
  assert (good s s2) as Gd by by apply good_touch.
  assert (good s s) as Gs by by apply good_refl.
  unfold yielded, tame. destruct (exception (threads s j)) as [[|x]|] eqn:E.
  - destruct (interruptible (threads s j)) eqn:I; [exists s2|exists s]; eexists;
      rewrite bind_read, E, I; split_and!; try reflexivity; done.
  - exists s2. eexists. rewrite bind_read, E. split_and!; try reflexivity; done.
  - exists s. eexists. rewrite bind_read, E. split_and!; try reflexivity; done.
Qed.

Lemma tame_abort j s : graph s -> still s ->
  exists s', tame (when (bool_decide (state (threads s j) = Frozen)) (wait_abort j)) s s'.
Proof.
  intros G S. unfold tame. destruct (decide (state (threads s j) = Frozen)) as [F|N].
  - rewrite bool_decide_eq_true_2 by done. destruct (wait_abort_spec j s G F) as (s' & E & Ab).
    exists s', (Ok tt). split_and!; try done; [by eapply good_aborted|by destruct Ab as [[]]].
  - rewrite bool_decide_eq_false_2 by done. exists s, (Ok tt). split_and!; try done. by apply good_refl.
Qed.

(** A change to a coroutine, then a method. *)
Lemma tame_then {A} j f (m : t X -> method (t X) (error X) A) s :
  graph s -> still s -> (forall th, state (f th) = state th /\ waited (f th) = waited th) ->
  (forall s1, graph s1 -> still s1 -> objs s1 = objs s ->
     (forall k, state (threads s1 k) = state (threads s k)) -> exists s', tame (m s1) s1 s') ->
  exists s', tame (on_thread j f;; s ← read; m s) s s'.
Proof.
  intros G S F M. destruct (F (threads s j)) as [F1 F2].
  pose proof (good_touch j (f (threads s j)) s G S F1 F2) as Gd. set (s1 := set_thread j _ s) in Gd.
  destruct (M s1) as (s' & r & E & R & Gd' & O); [by destruct Gd..|done| |].
  { intros k. subst s1. cbn. rewrite fn_insert_eq. by destruct (decide (j = k)) as [->|]. }
  exists s', r. rewrite bind_on_thread, bind_read. split_and!; try done. by eapply good_trans.
Qed.

Lemma tame_elapse j s : graph s -> still s -> exists s', tame (wait_timeout j) s s'.
Proof.
  intros G S. unfold wait_timeout. destruct (timer (threads s j) && bool_decide (state (threads s j) = Frozen)) eqn:B.
  - apply andb_true_iff in B as [B F].
    destruct (tame_then j (set_timer true true) (fun _ => wait_abort j) s G S) as (s' & r & E & Rest); [done| |].
    + intros s1 G1 S1 _ St. destruct (tame_abort j s1 G1 S1) as (s' & T). exists s'.
      by rewrite St, F in T.
    + exists s', r. split; [|done]. rewrite bind_read, B, F. exact E.
  - exists s, (Ok tt). rewrite bind_read, B. split_and!; try done. by apply good_refl.
Qed.

Lemma tame_interrupt j e s : graph s -> still s -> exists s', tame (raise_and_wake j e) s s'.
Proof.
  intros G S. unfold raise_and_wake, raise. apply tame_then; [done|done|done|].
  intros s1 G1 S1 _ _. by apply tame_abort.
Qed.

Lemma tame_interruptible b r j s : graph s -> still s -> exists s', tame (interruptible_ b r j) s s'.
Proof.
  intros G S. unfold interruptible_. apply tame_then; [done|done|done|].
  intros s1 G1 S1 _ _. destruct (exception (threads s1 j)) as [e|].
  - destruct (b && r); cbn [when].
    + eexists _, _. split; [reflexivity|]. split_and!; try done. by apply good_touch.
    + exists s1, (Ok tt). split_and!; try done. by apply good_refl.
  - exists s1, (Ok tt). split_and!; try done. by apply good_refl.
Qed.

Lemma tame_kill j s : graph s -> still s -> j ∉ starting s -> exists s', tame (terminate j) s s'.
Proof.
  intros G S N. unfold terminate, tame. rewrite bind_read, bool_decide_eq_false_2 by done.
  destruct (terminating (threads s j)).
  { exists s, (Ok tt). split_and!; try done. by apply good_refl. }
  unfold raise. rewrite !bind_on_thread. set (s1 := set_thread j _ s). set (s2 := set_thread j _ s1).
  rewrite bind_read.
  assert (good s s2) as Gd.
  { eapply good_trans; [by apply (good_touch j (set_terminating (threads s j)))|].
    apply good_touch; try done; by apply good_touch. }
  destruct (tame_abort j s2) as (s' & r & E & R & Gd' & O); [by destruct Gd..|].
  destruct (interruptible (threads s2 j)).
  - exists s', r. rewrite andb_true_r. split_and!; try done. by eapply good_trans.
  - exists s2, (Ok tt). by rewrite andb_false_r.
Qed.

(** A coroutine ends. *)
Lemma graph_done j th s : graph s -> state (threads s j) = Running -> j ∉ starting s ->
  state th = Done -> waited th = [] -> graph (set_thread j th s).
Proof.
  intros G Rn N D W. pose proof (running_waits s j G ltac:(congruence)) as W0. destruct G.
  assert (forall k, k <> j -> threads (set_thread j th s) k = threads s k) as E.
  { intros k Nk. cbn. by rewrite fn_lookup_insert_ne by congruence. }
  assert (threads (set_thread j th s) j = th) as Ej by (cbn; by rewrite fn_lookup_insert).
  split; try done.
  - intros v k. destruct (decide (k = j)) as [->|Nk]; [|by rewrite E]. rewrite Ej, W, <- W0. apply g_sides.
  - intros k. destruct (decide (k = j)) as [->|Nk]; [|by rewrite E]. rewrite Ej, W. constructor.
  - intros k. destruct (decide (k = j)) as [->|Nk]; [|by rewrite E]. by rewrite Ej, W, D.
  - intros k. destruct (decide (k = j)) as [->|Nk]; [|rewrite E by done; apply g_ready].
    by rewrite Ej, D.
  - intros k I. destruct (decide (k = j)) as [->|Nk]; [done|]. rewrite E by done. by apply g_starting.
Qed.

Lemma graph_unready j s : graph s -> graph (set_ready (without j (ready s)) s).
Proof.
  intros []. split; try done; cbn.
  - intros k [_ I]%elem_of_without. by apply g_ready.
  - intros k I. destruct (g_starting _ I). split; [done|]. by intros [_ ?]%elem_of_without.
  - split; [apply NoDup_without|]; apply g_once.
Qed.

(** The state of [j] is Done in [s1], and those that wait for it are woken in
    [s2]. *)
Lemma ok_ended w j s1 s2 : ok w -> j ∈ created w ->
  (forall k, k <> j -> threads s1 k = threads (sched w) k) ->
  state (threads s1 j) = Done -> waited (threads s1 j) = [] ->
  (forall k, k ∈ ready s1 -> k ∈ ready (sched w)) -> (forall k, k ∈ starting s1 -> k ∈ starting (sched w)) ->
  graph s2 -> still s2 -> calmer s1 s2 -> j ∉ ready s2 -> objs s2 = objs (sched w) ->
  ok (set_sched s2 w).
Proof.
  intros [] Cj E D W R St G S [] Nj O.
  assert (forall k, k <> j -> state (threads s1 k) = state (threads (sched w) k) /\
    waited (threads s1 k) = waited (threads (sched w) k)) as E'.
  { intros k N. by rewrite E. }
  split; cbn; rewrite ?O; try done.
  - intros k I. assert (k <> j) as N by (intros ->; done). destruct (E' k N) as [Es _].
    pose proof (g_ready _ G _ I) as F. apply cm_ready in I.
    destruct (state (threads s2 k)) eqn:Q; [done|done|]. apply cm_done in Q.
    destruct I as [I|I]; [apply R, ok_running0 in I|]; congruence.
  - intros k F. apply cm_frozen in F. destruct (decide (k = j)) as [->|N]; [congruence|].
    destruct (E' k N) as [Es _]. apply ok_idle0. congruence.
  - intros k l v Dk I. apply cm_waited in I. destruct (decide (k = j)) as [->|N].
    + rewrite W in I. by apply not_elem_of_nil in I.
    + destruct (E' k N) as [_ Ew]. rewrite Ew in I. by eapply ok_locking0.
  - intros k N. assert (k <> j) as Nk by (intros ->; done). destruct (E' k Nk) as [Es _].
    destruct (ok_created0 k N) as (Rn & Nr & Ns). split_and!.
    + destruct (state (threads s2 k)) eqn:Q; [done|apply cm_frozen in Q|apply cm_done in Q]; congruence.
    + intros I. apply cm_ready in I as [I|I]; [by apply Nr, R|congruence].
    + rewrite cm_starting. by intros I%St.
Qed.

(** *** Every event *)

Lemma ok_simply m w s' : ok w -> tame m (sched w) s' -> ok (simply m w).
Proof.
  intros Kw (r & E & R & Gd & O). unfold simply, perform. rewrite E.
  assert (ok (set_sched s' w)) as Ok'.
  { unfold set_sched. rewrite (ok_failed _ Kw). apply ok_good; [done|done| |]; rewrite O; apply Kw. }
  by destruct r as [[]|[]].
Qed.

Lemma ok_settles m w o b : ok w -> settles m (sched w) o -> accounts o (held w) b ->
  (forall i, 0 <= locks o i) -> ok (simply m (mkWorld (sched w) (doing w) (held w) b (created w) (failed w))).
Proof.
  intros Kw (s' & E & G & S & C & O) A M. unfold simply, perform. cbn [sched]. rewrite E.
  unfold set_sched. cbn. rewrite (ok_failed _ Kw). apply ok_good; rewrite ?O; try done.
Qed.

Lemma ok_settles' m w o : ok w -> settles m (sched w) o -> accounts o (held w) (budget w) ->
  (forall i, 0 <= locks o i) -> ok (simply m w).
Proof. intros Kw St A M. pose proof (ok_settles m w o (budget w) Kw St A M) as H. by destruct w. Qed.

Lemma accounts_opened i b o h c : accounts o h c -> accounts (set_opened i b o) h c.
Proof. intros []. by split. Qed.
Lemma accounts_locks i n o h c : accounts o h c -> accounts (set_locks i n o) h c.
Proof. intros []. by split. Qed.
Lemma accounts_post i o h c : accounts o h c ->
  accounts (set_count i (count o i + 1) o) h (<[i := c i + 1]> c).
Proof.
  intros [Mu Se Rw]. split; try done. intros k. cbn. rewrite !fn_insert_eq. specialize (Se k).
  destruct (decide (i = k)) as [->|]; [|done]. destruct Se as [S1 S2].
  split; [lia|]. intros N. specialize (S2 N). lia.
Qed.

Lemma ok_spawn j m w : ok w -> ok (happen (Spawn j m) w).
Proof.
  intros Kw. cbn. destruct (decide (j ∈ created w)) as [|N]; [done|]. pose proof Kw as [].
  destruct (ok_created0 j N) as (Rn & Nr & Ns). unfold simply, perform. cbn.
  set (th := new_thread m).
  destruct (good_touch j th (sched w)) as [G S C]; [done|done|by rewrite Rn| |].
  { symmetry. apply running_waits; [done|congruence]. }
  assert (forall k, state (<[j := th]> (threads (sched w)) k) = state (threads (sched w) k) /\
    waited (<[j := th]> (threads (sched w)) k) = waited (threads (sched w) k)) as E.
  { intros k. rewrite fn_insert_eq. destruct (decide (j = k)) as [<-|]; [|done].
    rewrite Rn, (running_waits (sched w) j); [done|done|congruence]. }
  split; cbn; try done.
  - destruct G. split; try done; cbn in *.
    + intros k. rewrite elem_of_app, list_elem_of_singleton. intros [I| ->]; [by apply g_starting|].
      destruct (E j) as [-> _]. done.
    + split; [apply g_once|]. apply NoDup_app. split_and!; [apply g_once| |apply NoDup_singleton].
      by intros k I ->%list_elem_of_singleton.
  - intros k I. destruct (E k) as [-> _]. by apply ok_running0.
  - intros k. destruct (E k) as [-> _]. apply ok_idle0.
  - intros k l v. destruct (E k) as [_ ->]. apply ok_locking0.
  - intros k [Nk Nc]%not_elem_of_cons. destruct (E k) as [-> _].
    destruct (ok_created0 k Nc) as (? & ? & ?). split_and!; try done.
    rewrite elem_of_app, list_elem_of_singleton. naive_solver.
Qed.

Lemma ok_round w : ok w -> ok (happen Round w).
Proof.
  intros Kw. cbn. unfold simply, perform. cbn. pose proof Kw as []. split; cbn; try done.
  - destruct ok_graph0. split; try done; cbn.
    + intros k [I|I]%elem_of_app; [by apply g_ready|]. destruct (g_starting _ I) as [-> _]. done.
    + intros k I. by apply not_elem_of_nil in I.
    + split; [|constructor]. apply NoDup_app. split_and!; [apply g_once| |apply g_once].
      intros k I J. by destruct (g_starting _ J).
  - intros k [I|I]%elem_of_app; [by apply ok_running0|]. by destruct (g_starting _ ok_graph0 k I).
  - intros k N. destruct (ok_created0 k N) as (? & ? & ?). split_and!; [done| |apply not_elem_of_nil].
    rewrite elem_of_app. naive_solver.
Qed.

Lemma ok_froze w l j s' o : ok w -> j ∈ ready (sched w) -> NoDup l -> l <> [] ->
  (forall v, v ∈ l -> blocks (sched w) v j = true) -> froze l j (sched w) s' -> o <> Idle ->
  (forall m, o = Locking m -> forall v, v ∈ l -> v = Lockable m) ->
  ok (set_doing j o (set_sched s' w)).
Proof.
  intros Kw Rd Nl L B F No Lo. pose proof Kw as []. pose proof (ok_running0 j Rd) as Rn.
  pose proof (graph_froze l j _ _ ok_graph0 Rd Nl L F) as G.
  pose proof (still_froze l j _ _ ok_still0 Rn B F) as S. destruct F as [(K & K1 & K2) O (St & Wd & _) R Wt].
  split; cbn; try done.
  - by eapply accounts_same.
  - intros i. by rewrite (so_locks _ _ O).
  - intros k. rewrite R, elem_of_without. intros [N I]. rewrite K by done. by apply ok_running0.
  - intros k. rewrite fn_insert_eq. destruct (decide (j = k)) as [<-|N]; [done|].
    rewrite K by congruence. apply ok_idle0.
  - intros k m v. rewrite fn_insert_eq. destruct (decide (j = k)) as [<-|N].
    + rewrite Wd. intros ->. by apply Lo.
    + rewrite K by congruence. apply ok_locking0.
  - intros k N. destruct (ok_created0 k N) as (? & ? & ?).
    assert (k <> j) as Nk by (intros ->; congruence). rewrite K, R, K1, elem_of_without by done. naive_solver.
Qed.

(** The call a coroutine that runs is in may end. *)
Lemma ok_doing w j o : ok w -> state (threads (sched w) j) = Running -> ok (set_doing j o w).
Proof.
  intros Kw Rn. pose proof Kw as []. split; cbn; try done.
  - intros k F. rewrite fn_insert_eq. destruct (decide (j = k)) as [<-|]; [congruence|by apply ok_idle0].
  - intros k l v. rewrite fn_insert_eq. destruct (decide (j = k)) as [<-|]; [|apply ok_locking0].
    rewrite running_waits by (try done; congruence). intros _ I. by apply not_elem_of_nil in I.
Qed.

Lemma ok_sched w s' : ok w -> good (sched w) s' -> objs s' = objs (sched w) -> ok (set_sched s' w).
Proof.
  intros Kw Gd O. unfold set_sched. rewrite (ok_failed _ Kw). apply ok_good; rewrite ?O; try done; apply Kw.
Qed.

Lemma acts_ready j w : acts j w = true -> j ∈ ready (sched w).
Proof. intros [A _]%andb_true_iff. by apply bool_decide_eq_true in A. Qed.

Lemma ok_lock_turn w j l h : ok w -> j ∈ ready (sched w) ->
  ok (perform (lock_turn l j) (locking j l) h w).
Proof.
  intros Kw Rd. pose proof Kw as []. pose proof (ok_running0 j Rd) as Rn.
  unfold perform, lock_turn.
  destruct (acquire_ok l j (sched w) (held w) (budget w)) as
    [[E B]|(s' & E & G & S & C & A & Lk & Th & Rs & Ws)]; [done..| |]; rewrite (bind_Ok _ _ _ _ _ E).
  - pose proof (wait_one (Lockable l) false j (sched w) ok_graph0 Rd Rn) as W. rewrite B in W.
    destruct W as (s' & E' & F). rewrite (bind_Ok _ _ _ _ _ E').
    apply (ok_froze w [Lockable l]); try done.
    + apply NoDup_singleton.
    + by intros v ->%list_elem_of_singleton.
    + intros m [= <-] v. apply list_elem_of_singleton.
  - cbn. apply ok_doing; [|cbn; by rewrite Th].
    unfold set_held, set_sched. cbn. rewrite ok_failed0. apply ok_good; [done|done|done|].
    by rewrite Lk.
Qed.

Lemma ok_resume w j : ok w -> ok (happen (Resume j) w).
Proof.
  intros Kw. cbn. destruct (decide _) as [Rd|]; [|done]. pose proof Kw as [].
  destruct (doing w j) as [|l|timed]; [done| |].
  - destruct (tame_resume false j (sched w)) as (s1 & (r & E & R & Gd & O) & Rs & St); [done..|].
    unfold perform, mbind, method_bind. rewrite E.
    pose proof (ok_sched w s1 Kw Gd O) as Kw1.
    destruct r as [b|[|e]]; [|done|].
    + apply (ok_lock_turn (set_sched s1 w) j l (set_doing j Idle) Kw1). cbn. by rewrite Rs.
    + apply ok_doing; [done|]. cbn. rewrite St. by apply ok_running0.
  - destruct (tame_resume timed j (sched w)) as (s1 & (r & E & R & Gd & O) & Rs & St); [done..|].
    unfold perform. rewrite E. pose proof (ok_sched w s1 Kw Gd O) as Kw1.
    destruct r as [b|[|e]]; [|done|];
      (apply ok_doing; [done|]; cbn; rewrite St; by apply ok_running0).
Qed.

Lemma ok_wait w j ws timed : ok w -> allowed (Wait j ws timed) w -> ok (happen (Wait j ws timed) w).
Proof.
  intros Kw [Nd Al]. cbn. destruct (acts j w) eqn:A; [|done]. apply acts_ready in A.
  pose proof Kw as []. pose proof (ok_running0 j A) as Rn. unfold perform.
  assert (ok (set_sched (sched w) w)) as Same by by destruct w.
  assert ((exists s', wait ws timed j (sched w) = (Ok true, s') /\
      froze (blocking (sched w) j ws) j (sched w) s' /\ blocking (sched w) j ws <> []) \/
    exists r, wait ws timed j (sched w) = (r, sched w) /\ r <> Ok true /\ r <> Throw AssertError) as D.
  { assert (forall F : Forall (quiet (sched w) j) ws, (exists s', wait ws timed j (sched w) = (Ok true, s') /\
      froze (blocking (sched w) j ws) j (sched w) s' /\ blocking (sched w) j ws <> []) \/
      exists r, wait ws timed j (sched w) = (r, sched w) /\ r <> Ok true /\ r <> Throw AssertError) as Q.
    { intros F. pose proof (wait_spec ws timed j (sched w) ok_graph0 A Rn Nd F) as W.
      destruct (decide _); [right|left]; [by eexists|]. destruct W as (s' & ? & ?). by exists s'. }
    destruct Al as [Le|F]; [|by apply Q]. destruct ws as [|v [|v' ws]]; [by apply Q| |cbn in Le; lia].
    pose proof (wait_one v timed j (sched w) ok_graph0 A Rn) as W.
    destruct (blocks (sched w) v j) eqn:B; [apply Q, Forall_singleton; by left|].
    right. destruct W as [E|[e E]]; by eexists. }
  destruct D as [(s' & E & F & Ne)|(r & E & N1 & N2)]; rewrite E.
  - apply (ok_froze w (blocking (sched w) j ws)); try done.
    + by apply NoDup_filter.
    + intros v I. by apply list_elem_of_filter in I as [I _].
  - by destruct r as [[]|[]].
Qed.

Lemma ok_leave w j : ok w -> ok (happen (Leave j) w).
Proof.
  intros Kw. cbn. destruct (latest j (held w)) as [l|] eqn:L; [|done].
  destruct (acts j w); [|done]. pose proof Kw as []. unfold perform.
  destruct (release_ok l j (sched w) (held w) (budget w)) as (s' & E & G & S & C & A & Lk); [done..|].
  rewrite E. unfold set_held, set_sched. cbn. rewrite ok_failed0. apply ok_good; try done. by rewrite Lk.
Qed.

Lemma ok_kill w j : ok w -> ok (happen (Kill j) w).
Proof.
  intros Kw. cbn. destruct (decide (j ∈ created w)) as [Cj|]; [|done]. pose proof Kw as [].
  destruct (decide (j ∈ starting (sched w))) as [St|N].
  2: { destruct (tame_kill j (sched w)) as (s' & T); [done..|]. by eapply ok_simply. }
  destruct (g_starting _ ok_graph0 j St) as [Rn Nr].
  set (s0 := set_starting (without j (starting (sched w))) (sched w)).
  assert (graph s0) as G0.
  { destruct ok_graph0. split; try done; cbn.
    - intros k [_ I]%elem_of_without. by apply g_starting.
    - split; [|apply NoDup_without]; apply g_once. }
  pose proof (running_waits (sched w) j ok_graph0 ltac:(congruence)) as Wd.
  set (s1 := set_thread j (set_state Done (threads s0 j)) s0).
  assert (graph s1) as G1.
  { apply graph_done; try done. by intros [? _]%elem_of_without. }
  destruct (signal_ok (Thread j) s1) as (s2 & E & G2 & S2 & C2 & O2 & _ & _); [done| |].
  { intros v k Nv I. rewrite <- (ok_still0 v k I). destruct v as [[]| | | | |i]; try done.
    cbn. rewrite fn_lookup_insert_ne by congruence. done. }
  unfold simply, perform, terminate. rewrite bind_read, bool_decide_eq_true_2 by done.
  rewrite bind_write, bind_on_thread. fold s0 s1. rewrite E.
  apply (ok_ended w j s1 s2 Kw Cj); try done.
  - intros k Nk. cbn. by rewrite fn_lookup_insert_ne by congruence.
  - cbn. by rewrite fn_lookup_insert.
  - cbn. by rewrite fn_lookup_insert.
  - cbn. by intros k [_ I]%elem_of_without.
  - intros I. apply (cm_ready _ _ C2) in I as [I|I]; [done|]. cbn in I. by rewrite fn_lookup_insert in I.
Qed.

Lemma ok_finish w j e : ok w -> ok (happen (Finish j e) w).
Proof.
  intros Kw. cbn. destruct (latest j (held w)); [done|]. destruct (acts j w && _) eqn:A; [|done].
  apply andb_true_iff in A as [A _]. pose proof Kw as [].
  apply acts_ready in A. pose proof (ok_running0 j A) as Rn.
  assert (j ∈ created w) as Cj.
  { destruct (decide (j ∈ created w)) as [|N]; [done|]. by destruct (ok_created0 j N) as (_ & ? & _). }
  assert (j ∉ starting (sched w)) as Ns by (intros I; by destruct (g_starting _ ok_graph0 j I)).
  pose proof (running_waits (sched w) j ok_graph0 ltac:(congruence)) as Wd.
  set (th := set_thrown e (threads (sched w) j)). set (s0 := set_thread j th (sched w)).
  destruct (good_touch j th (sched w)) as [G0 _ _]; [done..|]. fold s0 in G0.
  assert (threads s0 j = th) as Tj by (cbn; by rewrite fn_lookup_insert).
  set (sd := set_thread j (set_state Done th) s0).
  assert (graph sd) as Gd by (apply graph_done; try done; rewrite Tj; done).
  set (s1 := match e with
             | Some e' => if managed th then set_raises (Thread j) (Some e') sd else sd
             | None => sd end).
  assert (graph s1) as G1 by (subst s1; destruct e; [destruct (managed _)|]; by try apply graph_raises).
  assert (forall k, threads s1 k = if decide (j = k) then set_state Done th else threads (sched w) k) as T1.
  { intros k. transitivity (threads sd k); [by subst s1; destruct e; [destruct (managed _)|]|].
    cbn. rewrite !fn_insert_eq. by destruct (decide (j = k)). }
  assert (ready s1 = ready (sched w) /\ starting s1 = starting (sched w) /\ objs s1 = objs (sched w) /\
    waiters s1 = waiters (sched w)) as (R1 & St1 & O1 & W1)
    by (subst s1; destruct e; [destruct (managed _)|]; done).
  destruct (signal_ok (Thread j) s1) as (s2 & E & G2 & S2 & C2 & O2 & _ & _); [done| |].
  { intros v k Nv. rewrite W1. intros I. rewrite <- (ok_still0 v k I).
    destruct v as [[]| | | | |i]; cbn; rewrite ?O1; try done.
    by rewrite T1, decide_False by congruence. }
  assert (finish j e (sched w) = (Ok tt, set_ready (without j (ready s2)) s2)) as Fi.
  { unfold finish. rewrite bind_on_thread. fold th s0. rewrite bind_on_thread, Tj. fold sd.
    rewrite bind_read. assert (threads sd j = set_state Done th) as -> by (cbn; by rewrite fn_lookup_insert).
    cbn [thrown set_state managed].
    assert (match thrown th with
      | Some e' => when (managed th) (raise_ (Thread j) (Some e'))
      | None => mret tt end sd = (Ok tt, s1)) as E1.
    { subst s1. cbn. destruct e; [|done]. by destruct (managed (threads (sched w) j)). }
    by rewrite (bind_Ok _ _ _ _ _ E1), (bind_Ok _ _ _ _ _ E). }
  unfold simply, perform. rewrite Fi.
  apply (ok_ended w j s1 (set_ready (without j (ready s2)) s2) Kw Cj); try done.
  - intros k Nk. by rewrite T1, decide_False by congruence.
  - by rewrite T1, decide_True.
  - by rewrite T1, decide_True.
  - intros k. by rewrite R1.
  - intros k. by rewrite St1.
  - by apply graph_unready.
  - destruct C2. split; try done. cbn. intros k [_ I]%elem_of_without. auto.
  - cbn. by intros [? _]%elem_of_without.
  - cbn. by rewrite O2.
Qed.

(** Every event keeps the invariant, and no assertion fails. *)
Lemma ok_happen w e : ok w -> allowed e w -> ok (happen e w).
Proof.
  intros Kw Al. pose proof Kw as []. destruct e as [j m| |j l|j|j ws timed|j|j|i|i|i|i x|i|i|i|i|j|j x|j|j b r|j x];
    [by apply ok_spawn|by apply ok_round| |by apply ok_leave|by apply ok_wait|by apply ok_resume|..
    |by apply ok_finish]; cbn [happen].
  - destruct (acts j w) eqn:A; [|done]. apply ok_lock_turn; [done|by apply acts_ready].
  - destruct (acts j w); [|done].
    destruct (tame_yielded j (sched w)) as (s' & T); [done..|]. by eapply ok_simply.
  - apply (ok_settles _ _ (set_count i (count (objs (sched w)) i + 1) (objs (sched w))));
      [done|by apply post_settles|by apply accounts_post|done].
  - eapply ok_settles'; [done|by apply open_settles|..]; destruct (opened _ _); try done.
    by apply accounts_opened.
  - eapply ok_settles'; [done|by apply close_settles|..]; destruct (opened _ _); try done.
    by apply accounts_opened.
  - eapply ok_settles'; [done|by apply raise_settles|..]; destruct (opened _ _); try done.
    by apply accounts_opened.
  - eapply ok_settles'; [done|by apply multi_lock_settles|by apply accounts_locks|].
    intros k. cbn. rewrite fn_insert_eq. destruct (decide (i = k)) as [<-|]; [|done].
    specialize (ok_multi0 i). lia.
  - destruct (Z.ltb_spec 0 (locks (objs (sched w)) i)); [|done].
    eapply ok_settles'; [done|by apply multi_unlock_settles|by apply accounts_locks|].
    intros k. cbn. rewrite fn_insert_eq. destruct (decide (i = k)) as [<-|]; [lia|done].
  - destruct (signal_ok (Signal i) (sched w)) as (s' & E & G & S & C & O & _); [done|by auto|].
    eapply (ok_settles' _ _ (objs (sched w))); [done| |done|done]. by exists s'.
  - destruct (signal_one_spec (Signal i) (sched w)) as (r & s' & E & G & W1 & W2 & _ & _ & T & D & St & O & C);
      [done|].
    unfold perform. rewrite E. apply ok_sched; [done| |done]. split; [done| |done].
    intros v k I. assert (k ∈ waiters (sched w) v) as J.
    { destruct (decide (v = Signal i)) as [->|N]; [by apply W2|by rewrite <- W1]. }
    rewrite <- (ok_still0 v k J). apply blocks_same; [rewrite O; apply same_refl|done].
  - destruct (tame_elapse j (sched w)) as (s' & T); [done..|]. by eapply ok_simply.
  - destruct (decide _); [|done].
    destruct (tame_interrupt j x (sched w)) as (s' & T); [done..|]. by eapply ok_simply.
  - by apply ok_kill.
  - destruct (acts j w); [|done].
    destruct (tame_interruptible b r j (sched w)) as (s' & T); [done..|]. by eapply ok_simply.
Qed.

Lemma ok_begins c o : ok (begins c o).
Proof.
  assert (forall (A : Type) (a : A), a ∈ [] -> False) as No by (intros A a I; by apply not_elem_of_nil in I).
  split; cbn; try done.
  - split; cbn; try done; try (split; constructor); try constructor; try (by intros k I%No).
    all: first [done|by intros ?%No].
  - by intros v k I%No.
  - split; cbn; try done. intros i. split; [lia|done].
Qed.

Lemma ok_reached c o w : rtc step (begins c o) w -> ok w.
Proof.
  intros R. remember (begins c o) as w0. assert (ok w0) as K by (subst; apply ok_begins).
  clear Heqw0. induction R as [|w1 w2 w3 [e Al] R IH]; [done|]. by apply IH, ok_happen.
Qed.

(** *** What locks promise *)

(** Whether having [m] keeps others from taking [l]. *)
Definition excludes (m l : lockable) : Prop :=
  match l, m with
  | Mutex i, Mutex i' => i = i'
  | RWMutex i, WriteMutex i' => i = i'
  | WriteMutex i, RWMutex i' => i = i'
  | WriteMutex i, WriteMutex i' => i = i'
  | _, _ => False
  end.

Lemma elem_of_taken l j h : (j, l) ∈ h <-> (j, l) ∈ taken_ l h.
Proof. unfold taken_. rewrite list_elem_of_filter. naive_solver. Qed.
Lemma elem_of_taken_rw i x h :
  x ∈ taken_rw i h <-> (x.2 = RWMutex i \/ x.2 = WriteMutex i) /\ x ∈ h.
Proof. unfold taken_rw. by rewrite list_elem_of_filter. Qed.

(** C18. Take any coroutines and timers, in whatever order they run, wake, interrupt and kill
    each other, as long as a coroutine releases its locks in the reverse order and all of
    them before it ends, a MultiLockBarrier is not unlocked more than it was locked, and
    who waits for several things at once waits for different ones, none of which has an
    exception to throw ([waiting_for_two_breaks]). Then no assertion fails; a coroutine is
    frozen exactly when it waits for something; and whatever it waits for has not
    happened yet: for a lock, some coroutine has one that excludes it, or the semaphore
    is exhausted. No wake-up is lost. *)
Theorem nobody_waits_in_vain c o w j : rtc step (begins c o) w ->
  failed w = false /\
  (state (threads (sched w) j) = Frozen <-> waited (threads (sched w) j) <> []) /\
  forall v, v ∈ waited (threads (sched w) j) ->
    j ∈ waiters (sched w) v /\ blocks (sched w) v j = true /\
    match v with
    | Lockable (Semaphore i) => budget w i <= Z.of_nat (length (taken_ (Semaphore i) (held w)))
    | Lockable l => exists k m, (k, m) ∈ held w /\ excludes m l
    | _ => True
    end.
Proof.
  intros R. apply ok_reached in R as []. split; [done|]. split; [apply g_frozen; done|].
  intros v I. apply (g_sides _ ok_graph0) in I. split; [done|].
  pose proof (ok_still0 v j I) as B. split; [done|].
  destruct ok_accounts0 as [Mu Se Rw]. destruct v as [[i|i|i|i]| | | | |]; try done; cbn in B.
  - destruct (Se i) as [Se1 _]. apply Z.leb_le in B. lia.
  - specialize (Mu i). rewrite B in Mu.
    destruct (taken_ (Mutex i) (held w)) as [|[k l] t] eqn:E; [done|].
    assert ((k, l) ∈ taken_ (Mutex i) (held w)) as J by (rewrite E; left).
    apply list_elem_of_filter in J as [El J]. cbn in El. subst l. by exists k, (Mutex i).
  - specialize (Rw i). destruct (writer _ i) as [k|]; [|done]. destruct Rw as (_ & l & E & _).
    assert ((k, WriteMutex i) ∈ taken_rw i (held w)) as J by (rewrite E; set_solver).
    apply elem_of_taken_rw in J as [_ J]. by exists k, (WriteMutex i).
  - apply andb_true_iff in B as [_ B]. specialize (Rw i). destruct (writer _ i) as [k|].
    + destruct Rw as (_ & l & E & _).
      assert ((k, WriteMutex i) ∈ taken_rw i (held w)) as J by (rewrite E; set_solver).
      apply elem_of_taken_rw in J as [_ J]. by exists k, (WriteMutex i).
    + rewrite (bool_decide_eq_false_2 (is_Some None)), orb_false_r in B by (by intros []).
      apply Z.ltb_lt in B. destruct Rw as (_ & L & F).
      destruct (taken_rw i (held w)) as [|[k l] t] eqn:E; [cbn in L; lia|].
      apply Forall_cons in F as [F _]. cbn in F. subst l.
      assert ((k, RWMutex i) ∈ taken_rw i (held w)) as J by (rewrite E; left).
      apply elem_of_taken_rw in J as [_ J]. by exists k, (RWMutex i).
Qed.

(** C19. Locks exclude each other, in any such execution: a mutex has one owner, a
    semaphore at most as many as it was made for and posted, and who writes is
    alone to read or write. *)
Theorem locks_exclude c o w i : rtc step (begins c o) w ->
  (length (taken_ (Mutex i) (held w)) <= 1)%nat /\
  (taken_ (Semaphore i) (held w) <> [] ->
   Z.of_nat (length (taken_ (Semaphore i) (held w))) <= budget w i) /\
  (forall j k l, (j, WriteMutex i) ∈ held w -> (k, l) ∈ held w ->
   l = RWMutex i \/ l = WriteMutex i -> k = j).
Proof.
  intros R. apply ok_reached in R as []. destruct ok_accounts0 as [Mu Se Rw].
  specialize (Mu i). specialize (Se i). specialize (Rw i). split_and!.
  - rewrite Mu. destruct (locked _ i); lia.
  - intros N. destruct Se as [Se1 Se2]. specialize (Se2 N). lia.
  - intros j k l J K L.
    assert ((j, WriteMutex i) ∈ taken_rw i (held w)) as J' by (apply elem_of_taken_rw; cbn; auto).
    assert ((k, l) ∈ taken_rw i (held w)) as K' by (apply elem_of_taken_rw; cbn; auto).
    destruct (writer _ i) as [m|].
    + destruct Rw as (_ & t & E & _ & F).
      assert (Forall (fun x : Z * lockable => x.1 = m) (taken_rw i (held w))) as F'.
      { rewrite E. apply Forall_app. split; [done|by apply Forall_singleton]. }
      rewrite Forall_forall in F'. rewrite (F' _ J' : j = m), (F' _ K' : k = m). done.
    + destruct Rw as (_ & _ & F). rewrite Forall_forall in F. by specialize (F _ J').
Qed.

(** C20. A mutex that is released goes to who asks next: all that were waiting for
    it run again, and any of them, if it is the first and was not interrupted, has
    it after its turn. *)
Theorem released_mutex_is_taken c o w j k i : rtc step (begins c o) w ->
  latest j (held w) = Some (Mutex i) -> acts j w = true ->
  doing w k = Locking (Mutex i) -> state (threads (sched w) k) = Frozen ->
  let w1 := happen (Leave j) w in
  k ∈ ready (sched w1) /\
  (exception (threads (sched w1) k) = None -> (k, Mutex i) ∈ held (happen (Resume k) w1)).
Proof.
  intros R L A D F. apply ok_reached in R as Kw. pose proof Kw as [].
  cbn [happen]. rewrite L, A. unfold perform. cbn [release]. unfold mutex_release.
  destruct (accounts_mutex_free _ _ _ _ _ ok_accounts0 L) as [Lk _].
  rewrite bind_read, bind_assert, bind_on_objs by done.
  set (v := Lockable (Mutex i)). set (s0 := set_objs (set_locked i false (objs (sched w))) (sched w)).
  destruct (signal_wakes v s0) as (s1 & E & [T Rd _ _ _ O]); [by apply graph_objs|]. rewrite E.
  assert (waited (threads (sched w) k) = [v]) as Wd.
  { pose proof (g_waited _ ok_graph0 k) as Nd. apply (g_frozen _ ok_graph0) in F.
    pose proof (fun v => ok_locking0 k _ v D) as On.
    destruct (waited (threads (sched w) k)) as [|v1 [|v2 l]]; [done| |].
    - by rewrite (On v1) by left.
    - rewrite (On v1), (On v2) in Nd by (by left || by right; left).
      apply NoDup_cons in Nd as [N _]. destruct N. left. }
  assert (without v (waited (threads s0 k)) = []) as Er.
  { cbn. rewrite Wd. unfold without. by rewrite filter_cons_False by (intros N; by apply N). }
  assert (k ∈ waiters s0 v) as I by (apply (g_sides _ ok_graph0); rewrite Wd; left).
  cbn zeta. cbn [sched set_held set_sched]. cbn [ready set_raises set_waiters].
  assert (k ∈ ready s1) as Kr.
  { rewrite Rd. apply elem_of_app. right. by apply list_elem_of_filter. }
  split; [done|]. cbn [happen sched set_held set_sched threads ready set_raises set_waiters doing].
  intros Ex. rewrite decide_True by done. rewrite D. unfold perform. cbn [sched set_held set_sched].
  unfold resume, yielded. rewrite bind_assoc, bind_read, bind_assoc. cbn [when].
  rewrite bind_ret_l, bind_assoc, bind_assoc, bind_read.
  cbn [threads set_raises set_waiters]. rewrite Ex. rewrite bind_ret_l, bind_ret_l.
  unfold lock_turn. cbn [acquire]. unfold mutex_acquire. rewrite bind_assoc, bind_read.
  cbn [objs set_raises set_waiters]. rewrite O. cbn [s0 objs set_objs locked set_locked].
  rewrite fn_lookup_insert. rewrite bind_assoc, bind_on_objs, bind_ret_l. cbn. left.
Qed.

(** *** Where this ends *)

(** Locks have to be released in the reverse order: an assertion fails when a
    coroutine that writes, then reads, stops writing first. *)
Theorem write_lock_released_first s i j : writer (objs s) i = None -> readers (objs s) i = 0 ->
  recursive (objs s) i = 0 ->
  ((acquire (WriteMutex i) j;; acquire (RWMutex i) j;; release (WriteMutex i);; release (RWMutex i)) s).1 =
    Throw AssertError.
Proof.
  intros W R Rc. cbn [acquire release]. unfold write_acquire. rewrite bind_assoc, bind_read, W.
  rewrite bool_decide_eq_false_2, bool_decide_eq_false_2, R by (done || by intros []). cbn [Z.ltb Z.compare orb].
  rewrite bind_assoc, bind_on_objs, bind_ret_l. unfold read_acquire. rewrite bind_assoc, bind_read.
  cbn. rewrite !fn_lookup_insert, Z.eqb_refl, bind_assoc, bind_on_objs, bind_ret_l.
  unfold write_release. rewrite bind_assoc, bind_read. cbn. rewrite fn_lookup_insert, Rc.
  change (negb (0 + 1 =? 0)) with true. cbn iota. rewrite bind_on_objs. unfold read_release. rewrite bind_read. cbn. rewrite !fn_lookup_insert. cbn.
  done.
Qed.

(** An upgrade never ends on its own: a coroutine that reads, alone, and asks to
    write waits for itself. *)
Theorem upgrade_waits_for_itself c o w j i : rtc step (begins c o) w -> acts j w = true ->
  (j, RWMutex i) ∈ held w ->
  (forall k l, (k, l) ∈ held w -> l = RWMutex i \/ l = WriteMutex i -> k = j /\ l = RWMutex i) ->
  let w' := happen (Take j (WriteMutex i)) w in
  state (threads (sched w') j) = Frozen /\ waited (threads (sched w') j) = [Lockable (WriteMutex i)] /\
  held w' = held w /\ doing w' j = Locking (WriteMutex i).
Proof.
  intros R A I Al. apply ok_reached in R as []. apply acts_ready in A as Rd. cbn [happen]. rewrite A.
  pose proof (ok_running0 j Rd) as Rn. unfold perform, lock_turn.
  destruct ok_accounts0 as [_ _ Rw]. specialize (Rw i).
  assert (forall k l, (k, l) ∈ taken_rw i (held w) -> k = j /\ l = RWMutex i) as Only.
  { intros k l [E J]%elem_of_taken_rw. eapply Al; done. }
  destruct (writer (objs (sched w)) i) as [m|] eqn:W.
  { destruct Rw as (_ & t & E & _). destruct (Only m (WriteMutex i)); [rewrite E; set_solver|done]. }
  destruct Rw as (_ & L & _).
  assert (0 < readers (objs (sched w)) i) as P.
  { destruct (taken_rw i (held w)) eqn:E; [|cbn in L; lia].
    assert ((j, RWMutex i) ∈ taken_rw i (held w)) as J by (apply elem_of_taken_rw; cbn; auto).
    rewrite E in J. by apply not_elem_of_nil in J. }
  assert (acquire (WriteMutex i) j (sched w) = (Ok false, sched w)) as E.
  { cbn [acquire]. unfold write_acquire. rewrite bind_read, W.
    rewrite bool_decide_eq_false_2 by done. apply Z.ltb_lt in P. by rewrite P. }
  assert (blocks (sched w) (Lockable (WriteMutex i)) j = true) as B.
  { cbn. rewrite W. rewrite bool_decide_eq_false_2 by done. apply Z.ltb_lt in P. by rewrite P. }
  pose proof (wait_one (Lockable (WriteMutex i)) false j (sched w) ok_graph0 Rd Rn) as Wt. rewrite B in Wt.
  destruct Wt as (s' & E' & [_ _ (F1 & F2 & _) _ _]).
  rewrite (bind_Ok _ _ _ _ _ E), (bind_Ok _ _ _ _ _ E'). cbn. by rewrite fn_lookup_insert.
Qed.

Lemma each_app {A} (f : A -> method (t X) (error X) unit) l l' s s1 :
  each f l s = (Ok tt, s1) -> each f (l ++ l') s = each f l' s1.
Proof.
  revert s. induction l as [|a l IH]; intros s; cbn; [by intros [= ->]|].
  unfold mbind, method_bind. destruct (f a s) as [[[]|] s']; [apply IH|done].
Qed.

(** Waking a coroutine that is not frozen. *)
Lemma wake_running v j s : state (threads s j) <> Frozen -> waited (threads s j) = [v] ->
  (wake v j s).1 = Throw AssertError.
Proof.
  intros N W. unfold wake. rewrite bind_read.
  assert (exists s1, match raises s v, exception (threads s j) with
    | Some e, None => on_thread j (set_exception (Some e)) | _, _ => mret tt end s = (Ok tt, s1) /\
    state (threads s1 j) = state (threads s j) /\ waited (threads s1 j) = [v]) as (s1 & E & St & Wd).
  { destruct (raises s v), (exception (threads s j)); eexists; (split; [reflexivity|]);
      cbn; rewrite ?fn_lookup_insert; done. }
  rewrite (bind_Ok _ _ _ _ _ E), bind_on_thread, bind_read. cbn [threads set_thread].
  rewrite fn_lookup_insert. cbn [waited set_waited]. rewrite Wd.
  unfold without. rewrite filter_cons_False, filter_nil by (intros M; by apply M).
  unfold unfreeze, assert. rewrite bind_assoc, bind_read, bind_assoc. cbn [threads set_thread].
  rewrite fn_lookup_insert. cbn [state set_waited].
  rewrite bool_decide_eq_false_2 by congruence. done.
Qed.

(** Waiting for two things breaks when the second has an exception to raise.
    With a barrier, an assertion fails. With a coroutine that failed, the exception
    is thrown but the first thing still counts the coroutine as waiting, and fails
    an assertion when it happens. *)
Theorem waiting_for_two_breaks s v j timed : graph s -> j ∈ ready s -> state (threads s j) = Running ->
  blocks s v j = true ->
  (forall i e, opened (objs s) i = true -> raises s (Barrier i) = Some e ->
     (wait [v; Barrier i] timed j s).1 = Throw AssertError) /\
  (forall k e, state (threads s k) = Done -> managed (threads s k) = true -> thrown (threads s k) = Some e ->
     exists s', wait [v; Thread k] timed j s = (Throw (Raised e), s') /\
       state (threads s' j) = Running /\ j ∈ waiters s' v /\ (signal_ v s').1 = Throw AssertError).
Proof.
  intros G Rd Rn B. pose proof (running_waits s j G ltac:(congruence)) as W.
  assert (forall v, j ∉ waiters s v) as Nj.
  { intros v' I%(g_sides _ G). rewrite W in I. by apply not_elem_of_nil in I. }
  destruct (wait_on_blocked v j s (Nj v) B) as (s1 & E1 & [Ws Th _ _ Ra O]).
  set (s2 := set_thread j (set_waited [v] (threads s j)) s1).
  assert (forall vs e s', wait_each vs j s2 = (Throw e, s') -> wait (v :: vs) timed j s = (Throw e, s')) as St.
  { intros vs e s' E. unfold wait. rewrite bind_read, !bind_assert by (by apply bool_decide_eq_true).
    cbn [wait_each]. rewrite bind_assoc, (bind_Ok _ _ _ _ _ E1), bind_assoc, bind_on_thread, Th, W.
    unfold without. rewrite filter_nil. cbn [app]. fold s2. unfold mbind, method_bind. by rewrite E. }
  assert (threads s2 j = set_waited [v] (threads s j)) as Tj by (cbn; by rewrite fn_lookup_insert).
  assert (forall k, k <> j -> threads s2 k = threads s k) as Tk.
  { intros k N. cbn. rewrite fn_lookup_insert_ne by congruence. by rewrite Th. }
  assert (waiters s2 v = waiters s v ++ [j]) as Wv by (cbn; by rewrite Ws, decide_True).
  split.
  - intros i e Op Ex.
    assert (exists s', wait_each [Barrier i] j s2 = (Throw AssertError, s')) as [s' E].
    { cbn [wait_each wait_on]. unfold barrier_wait. rewrite bind_assoc, bind_read. cbn [objs s2 set_thread].
      rewrite (so_opened _ _ O), Op, bind_ret_l, bind_read. cbn [raises s2 set_thread]. rewrite Ra, Ex.
      fold s2. rewrite Tj. cbn [waited set_waited each]. unfold unwait.
      rewrite bind_assoc, bind_assoc, bind_read, bind_assoc, bind_assert.
      2: { apply bool_decide_eq_true. rewrite Wv. set_solver. }
      rewrite bind_write, bind_ret_l, bind_read. cbn [threads set_waiters].
      rewrite Tj, bool_decide_eq_false_2 by done. by eexists. }
    by rewrite (St _ _ _ E).
  - intros k e D M Tw. assert (k <> j) as N by (intros ->; congruence).
    exists s2. split; [|split; [by rewrite Tj|split; [rewrite Wv; set_solver|]]].
    + apply St. cbn [wait_each wait_on]. unfold thread_wait. rewrite bind_assoc, bind_read, (Tk k N), D, Tw, M.
      done.
    + unfold signal_. rewrite bind_read, Wv.
      destruct (each_wake_spec v (waiters s v) s2 (g_waiters _ G v)) as (s3 & E3 & Wk).
      { intros k' I. assert (k' <> j) as N' by (intros ->; by apply (Nj v)).
        rewrite Tk by done. by eapply frozen_waits. }
      assert (threads s3 j = threads s2 j) as T3 by (rewrite (wk_threads _ _ _ _ Wk), decide_False; done).
      pose proof (wake_running v j s3) as A. rewrite T3, Tj in A. cbn [state waited set_waited] in A.
      rewrite Rn in A. specialize (A ltac:(done) eq_refl).
      unfold mbind at 1, method_bind at 1. rewrite (each_app _ _ [j] _ _ E3). cbn [each].
      unfold mbind at 1, method_bind at 1. by destruct (wake v j s3) as [[]].
Qed.
End Theorems.

(** *** On concrete events *)

Ltac decided := lazymatch goal with |- ?P => exact (@bool_decide_eq_true_1 P _ eq_refl) end.

Definition run (es : list (event Z)) (w : world Z) : world Z := fold_left (fun w e => happen e w) es w.

Lemma run_reached es w0 w : rtc step w0 w -> Forall (fun e => forall w, allowed e w) es ->
  rtc step w0 (run es w).
Proof.
  intros R F. revert w R. induction F as [|e es Al F IH]; intros w R; [done|]. cbn.
  apply IH. eapply rtc_r; [exact R|]. by constructor.
Qed.

Definition no_semaphore : Z -> Z := fun _ => 0.
Definition all_closed : Z -> bool := fun _ => false.

(** The first of two coroutines has the mutex 7, that the second waits for. *)
Definition two_coroutines : list (event Z) :=
  [Spawn 1 false; Spawn 2 false; Round; Take 1 (Mutex 7); Take 2 (Mutex 7)].

Lemma two_coroutines_reached : rtc step (begins no_semaphore all_closed) (run two_coroutines (begins no_semaphore all_closed)).
Proof. apply run_reached; [done|]. unfold two_coroutines. repeat constructor. Qed.

Lemma nobody_waits_in_vain_witness :
  let w := run two_coroutines (begins no_semaphore all_closed) in
  state (threads (sched w) 2) = Frozen /\
  exists k m, (k, m) ∈ held w /\ excludes m (Mutex 7).
Proof.
  split; [reflexivity|].
  destruct (nobody_waits_in_vain no_semaphore all_closed _ 2 two_coroutines_reached) as (_ & _ & H).
  destruct (H (Lockable (Mutex 7))) as (_ & _ & H'); [|exact H'].
  decided.
Defined.

Lemma released_mutex_is_taken_witness :
  let w1 := happen (Leave 1) (run two_coroutines (begins no_semaphore all_closed)) in
  2 ∈ ready (sched w1) /\ (2, Mutex 7) ∈ held (happen (Resume 2) w1).
Proof.
  destruct (released_mutex_is_taken no_semaphore all_closed _ 1 2 7 two_coroutines_reached) as [H1 H2];
    [reflexivity..|]. split; [exact H1|]. apply H2. reflexivity.
Defined.

(** A coroutine that writes, and two that wait to read and to write. *)
Definition one_writer : list (event Z) :=
  [Spawn 1 false; Spawn 2 false; Spawn 3 false; Round;
   Take 1 (WriteMutex 5); Take 1 (RWMutex 5); Take 2 (RWMutex 5); Take 3 (WriteMutex 5)].

Lemma one_writer_reached : rtc step (begins no_semaphore all_closed) (run one_writer (begins no_semaphore all_closed)).
Proof. apply run_reached; [done|]. unfold one_writer. repeat constructor. Qed.

Lemma locks_exclude_witness :
  let w := run one_writer (begins no_semaphore all_closed) in
  held w = [(1, RWMutex 5); (1, WriteMutex 5)] /\
  forall k l, (k, l) ∈ held w -> l = RWMutex 5 \/ l = WriteMutex 5 -> k = 1.
Proof.
  split; [reflexivity|].
  destruct (locks_exclude no_semaphore all_closed _ 5 one_writer_reached) as (_ & _ & H).
  intros k l. apply (H 1 k l). decided.
Defined.

(** A coroutine that reads, alone. *)
Definition one_reader : list (event Z) := [Spawn 1 false; Round; Take 1 (RWMutex 5)].

Lemma one_reader_reached : rtc step (begins no_semaphore all_closed) (run one_reader (begins no_semaphore all_closed)).
Proof. apply run_reached; [done|]. unfold one_reader. repeat constructor. Qed.

Lemma upgrade_waits_for_itself_witness :
  let w := happen (Take 1 (WriteMutex 5)) (run one_reader (begins no_semaphore all_closed)) in
  state (threads (sched w) 1) = Frozen /\ held w = [(1, RWMutex 5)].
Proof.
  destruct (upgrade_waits_for_itself no_semaphore all_closed _ 1 5 one_reader_reached) as (H1 & _ & H3 & _).
  - reflexivity.
  - decided.
  - cbn. intros k l I. apply list_elem_of_singleton in I. intros _. by injection I as -> ->.
  - split; [exact H1|exact H3].
Defined.

(** A coroutine that was told of a failure through a barrier. *)
Definition raised_barrier : list (event Z) := [Spawn 1 false; Round; RaiseIn 2 (Exception 9)].

Lemma waiting_for_two_breaks_witness :
  let s := sched (run raised_barrier (begins no_semaphore all_closed)) in
  (wait [Signal 1; Barrier 2] false 1 s).1 = Throw AssertError.
Proof.
  assert (graph (sched (run raised_barrier (begins no_semaphore all_closed)))) as G.
  { eapply ok_graph, (ok_reached no_semaphore all_closed), run_reached; [done|].
    unfold raised_barrier. repeat constructor. }
  destruct (waiting_for_two_breaks _ (Signal 1) 1 false G) as [H _].
  - decided.
  - reflexivity.
  - reflexivity.
  - apply (H 2 (Exception 9)); reflexivity.
Defined.

Lemma write_lock_released_first_witness :
  let s := sched (begins (X := Z) no_semaphore all_closed) in
  ((acquire (WriteMutex 5) 1;; acquire (RWMutex 5) 1;; release (WriteMutex 5);; release (RWMutex 5)) s).1 =
    Throw AssertError.
Proof. apply (write_lock_released_first _ 5 1); reflexivity. Defined.
