(* ===== verification/Mailboxes.v ===== *)
(** Channels between coroutines: elle/reactor/Channel.hxx, a queue that readers
    and writers share, over the barriers of Coroutines.v.

    A call is cut where it waits, as in Coroutines.v; the loops around the waits
    are turns, and the machine at the end of the file lets any number of
    coroutines call the methods of a channel in any order. *)

From stdpp Require Import base tactics functions option list.
From Stdlib Require Import ZArith Lia.
From S2P Require Import Prelude Coroutines.
Import Coroutines.
Open Scope Z_scope.

Module Mailbox.
Section Mailbox.
Context {A X : Type}.

(** A Channel, whose barriers are those of the scheduler of these numbers. *)
Definition read_barrier : Z := 0.
Definition write_barrier : Z := 1.

Record t := mkT {
  scheduler : Coroutines.t X;
  queue : list A;
  opened_ : bool;
  max_size : Z;
  exception_ : option (exn X)
}.

Abbreviation channel := (method t (error X)).

Definition set_scheduler (s : Coroutines.t X) (c : t) : t :=
  mkT s (queue c) (opened_ c) (max_size c) (exception_ c).
Definition set_queue (q : list A) (c : t) : t :=
  mkT (scheduler c) q (opened_ c) (max_size c) (exception_ c).
Definition set_opened_ (b : bool) (c : t) : t :=
  mkT (scheduler c) (queue c) b (max_size c) (exception_ c).
Definition set_max (n : Z) (c : t) : t := mkT (scheduler c) (queue c) (opened_ c) n (exception_ c).
Definition set_exception_ (e : option (exn X)) (c : t) : t :=
  mkT (scheduler c) (queue c) (opened_ c) (max_size c) e.

Definition on {B} (m : method (Coroutines.t X) (error X) B) : channel B :=
  fun c => let '(r, s) := m (scheduler c) in (r, set_scheduler s c).
Definition check (b : bool) : channel unit := when (negb b) (throw AssertError).

Definition size (c : t) : Z := Z.of_nat (length (queue c)).
Definition readable (c : t) : bool := opened (objs (scheduler c)) read_barrier.

(** A turn of the loop of [put], which answers whether it put the data. *)
Definition put (data : A) (j : Z) : channel bool :=
  c ← read;
  if max_size c <=? size c then
    on (barrier_close write_barrier);;
    on (wait [Barrier write_barrier] false j);;
    mret false
  else
    modify (fun c => set_queue (queue c ++ [data]) c);;
    c ← read;
    when (opened_ c && negb (readable c)) (on (barrier_open read_barrier));;
    mret true.

Definition exhausted : channel unit :=
  c ← read;
  check (bool_decide (length (queue c) = 0%nat));;
  on (barrier_close read_barrier);;
  match exception_ c with
  | Some e => on (barrier_raise read_barrier e)
  | None => mret tt
  end.

(** A turn of [get], the first one or after a wait. *)
Definition get (first : bool) (j : Z) : channel (option A) :=
  c ← read;
  if readable c then
    match queue c, exception_ c with
    | [], Some e => when first (throw (Raised e))
    | _, _ => mret tt
    end;;
    match queue c with
    | [] => throw AssertError
    | res :: q =>
        modify (set_queue q);;
        when (bool_decide (length q = 0%nat)) exhausted;;
        c ← read;
        when (size c <? max_size c) (on (barrier_open write_barrier));;
        mret (Some res)
    end
  else on (wait [Barrier read_barrier] false j);; mret None.

(** A turn of [peek]. *)
Definition peek (j : Z) : channel (option A) :=
  c ← read;
  if readable c then
    match queue c with
    | [] => throw AssertError
    | res :: _ => mret (Some res)
    end
  else on (wait [Barrier read_barrier] false j);; mret None.

Definition raise (e : exn X) : channel unit :=
  modify (set_exception_ (Some e));;
  c ← read;
  when (bool_decide (length (queue c) = 0%nat)) (on (barrier_raise read_barrier e)).

Definition set_max_size (ms : Z) : channel unit :=
  modify (set_max ms);;
  c ← read;
  when (max_size c <? size c) (on (barrier_open write_barrier)).

Definition clear : channel unit :=
  modify (set_queue []);;
  c ← read;
  when (max_size c <? size c) (on (barrier_open write_barrier));;
  when (readable c) exhausted.

Definition open : channel unit :=
  c ← read;
  when (negb (opened_ c))
    (modify (set_opened_ true);;
     when (negb (bool_decide (length (queue c) = 0%nat))) (on (barrier_open read_barrier))).
Definition close : channel unit := modify (set_opened_ false).

(** *** Readers and writers *)

Inductive call :=
  | NoCall
  | Putting (data : A)
  | Getting
  | Peeking.

(** The channel, the call each coroutine is in and, for the record, what was put
    and what was got. *)
Record world := mkWorld {
  box : t;
  calling : Z -> call;
  sent : list A;
  received : list A;
  crashed : bool
}.

Definition set_box (c : t) (w : world) : world :=
  mkWorld c (calling w) (sent w) (received w) (crashed w).
Definition set_calling (j : Z) (x : call) (w : world) : world :=
  mkWorld (box w) (<[j := x]> (calling w)) (sent w) (received w) (crashed w).
Definition add_sent (a : A) (w : world) : world :=
  mkWorld (box w) (calling w) (sent w ++ [a]) (received w) (crashed w).
Definition add_received (a : A) (w : world) : world :=
  mkWorld (box w) (calling w) (sent w) (received w ++ [a]) (crashed w).
Definition crash (w : world) : world :=
  mkWorld (box w) (calling w) (sent w) (received w) true.

Definition perform {B} (m : channel B) (k : B -> world -> world) (h : world -> world) (w : world) : world :=
  match m (box w) with
  | (Ok b, c) => k b (set_box c w)
  | (Throw (Raised _), c) => h (set_box c w)
  | (Throw AssertError, c) => crash (set_box c w)
  end.

Definition turn (first : bool) (j : Z) (x : call) (w : world) : world :=
  match x with
  | NoCall => w
  | Putting a =>
      perform (put a j)
        (fun b w => if (b : bool) then set_calling j NoCall (add_sent a w) else set_calling j x w)
        (set_calling j NoCall) w
  | Getting =>
      perform (get first j)
        (fun r w => match r with
                    | Some a => set_calling j NoCall (add_received a w)
                    | None => set_calling j x w
                    end) (set_calling j NoCall) w
  | Peeking =>
      perform (peek j)
        (fun r w => set_calling j (match r with Some _ => NoCall | None => x end) w)
        (set_calling j NoCall) w
  end.

Inductive event :=
  | Call (j : Z) (x : call)
  | Resume (j : Z)
  | Interrupt (j : Z) (e : exn X)
  | Raise (e : exn X)
  | SetMaxSize (n : Z)
  | Clear
  | Open
  | Close.

Definition simply (m : channel unit) : world -> world := perform m (fun _ w => w) (fun w => w).

Definition happen (e : event) (w : world) : world :=
  match e with
  | Call j x =>
      if decide (j ∈ ready (scheduler (box w))) then
        match calling w j with NoCall => turn true j x w | _ => w end
      else w
  | Resume j =>
      if decide (j ∈ ready (scheduler (box w))) then
        match calling w j with
        | NoCall => w
        | x => perform (on (resume false j)) (fun _ => turn false j x) (set_calling j NoCall) w
        end
      else w
  | Interrupt j e => simply (on (raise_and_wake j e)) w
  | Raise e => simply (raise e) w
  | SetMaxSize n => simply (set_max_size n) w
  | Clear => simply clear w
  | Open => simply open w
  | Close => simply close w
  end.

Definition run (es : list event) (w : world) : world := fold_left (fun w e => happen e w) es w.

(** A new channel, and the coroutines [ts]. *)
Definition begins (ts : list Z) (n : Z) : world :=
  mkWorld (mkT (Coroutines.mkT (fun _ => new_thread false) [] ts (fun _ => []) (fun _ => None)
      (mkObjects (fun _ => false) (fun _ => 0) (fun _ => 0) (fun _ => false) (fun _ => 0) (fun _ => None)
        (fun _ => 0))) [] true n None)
    (fun _ => NoCall) [] [] false.

(** The calls of readers and writers, that are interrupted at times. *)
Definition plain (e : event) : Prop :=
  match e with Call _ _ | Resume _ | Interrupt _ _ => True | _ => False end.
End Mailbox.
Arguments t : clear implicits.
Arguments world : clear implicits.
Arguments event : clear implicits.
Arguments call : clear implicits.
End Mailbox.
