(* ===== verification/MailboxTheorems.v ===== *)
(** The theorems on channels between coroutines: they are bounded queues, and
    where this ends. *)

From stdpp Require Import base tactics functions option list.
From Stdlib Require Import ZArith Lia.
From S2P Require Import Prelude Coroutines CoroutineProperties CoroutineTheorems Mailboxes.
Import Coroutines.
Open Scope Z_scope.

Section Theorems.
Context {A X : Type}.

Implicit Types (s : t X) (c : Mailbox.t A X) (w : Mailbox.world A X) (v : waitable) (j k : Z).

(** *** Barriers *)

Lemma signal_ready v s s' k : graph s -> signal_ v s = (Ok tt, s') -> k ∈ ready s -> k ∈ ready s'.
Proof.
  intros G E I. destruct (signal_wakes v s G) as (s1 & E1 & Wk). rewrite E1 in E. injection E as <-.
  cbn. rewrite (wk_ready _ _ _ _ Wk), elem_of_app. by left.
Qed.

(** What opening and closing a barrier does. *)
Record moved (i : Z) (b : bool) s s' : Prop := {
  mv_good : good s s';
  mv_ready k : k ∈ ready s -> k ∈ ready s';
  mv_opened k : opened (objs s') k = if decide (i = k) then b else opened (objs s) k;
  mv_barrier k v : v = Barrier k -> waiters s' v = if b && bool_decide (i = k) then [] else waiters s v
}.

Lemma open_moves i s : graph s -> still s ->
  exists s', barrier_open i s = (Ok tt, s') /\ moved i true s s'.
Proof.
  intros G S. unfold barrier_open. rewrite bind_read. destruct (opened (objs s) i) eqn:O.
  - eexists. split; [reflexivity|]. split; cbn; try done.
    + by apply good_raises.
    + intros k. by destruct (decide (i = k)) as [<-|].
    + intros k v ->. destruct (decide (i = k)) as [<-|N].
      * rewrite bool_decide_eq_true_2 by done.
        destruct (waiters s (Barrier i)) as [|j l] eqn:W; [done|].
        specialize (S (Barrier i) j). rewrite W in S. specialize (S ltac:(left)). cbn in S. by rewrite O in S.
      * by rewrite bool_decide_eq_false_2.
  - rewrite bind_on_objs. set (s0 := set_objs _ s).
    destruct (signal_ok (Barrier i) s0) as (s' & E & G' & S' & C & Ob & _ & W); [by apply graph_objs| |].
    { intros v k N I. pose proof (S v k I) as B. revert B.
      destruct v as [[]|i'|i'| | |]; try done; cbn; rewrite fn_insert_eq; by destruct (decide (i = i')) as [->|]. }
    exists s'. split; [done|]. split.
    + split; [done|done|]. eapply calmer_trans; [apply calmer_objs|done].
    + intros k I. eapply signal_ready; [|exact E|done]. by apply graph_objs.
    + intros k. by rewrite Ob.
    + intros k v ->. rewrite W. destruct (decide (i = k)) as [->|N].
      * by rewrite decide_True, bool_decide_eq_true_2.
      * by rewrite decide_False, bool_decide_eq_false_2 by congruence.
Qed.

Lemma close_moves i s : graph s -> still s ->
  exists s', barrier_close i s = (Ok tt, s') /\ moved i false s s'.
Proof.
  intros G S. unfold barrier_close. rewrite bind_read. destruct (opened (objs s) i) eqn:O; cbn [when].
  - rewrite bind_raise, bind_on_objs. set (s0 := set_objs _ _).
    destruct (signal_ok (Inverted i) s0) as (s' & E & G' & S' & C & Ob & _ & W); [by apply graph_objs, graph_raises| |].
    { intros v k N I. pose proof (S v k I) as B. revert B.
      destruct v as [[]|i'|i'| | |]; try done; cbn; rewrite fn_insert_eq; by destruct (decide (i = i')) as [->|]. }
    exists s'. split; [done|]. split.
    + split; [done|done|]. eapply calmer_trans; [|done]. split; auto.
    + intros k I. eapply signal_ready; [|exact E|done]. by apply graph_objs, graph_raises.
    + intros k. by rewrite Ob.
    + intros k v ->. by rewrite W, decide_False.
  - exists s. split; [done|]. split; [by apply good_refl|done| |done].
    intros k. by destruct (decide (i = k)) as [<-|].
Qed.

Lemma good_running s s' : good s s' -> (forall k, k ∈ ready s -> state (threads s k) = Running) ->
  forall k, k ∈ ready s' -> state (threads s' k) = Running.
Proof.
  intros [G _ []] R k I. pose proof (g_ready _ G _ I) as F. apply cm_ready in I.
  destruct (state (threads s' k)) eqn:E; [done|done|]. apply cm_done in E.
  destruct I as [I|I]; [apply R in I|]; congruence.
Qed.

Lemma good_waiters s s' v k : graph s -> good s s' -> k ∈ waiters s' v -> k ∈ waiters s v.
Proof.
  intros G [G' _ []] I. apply (g_sides _ G), cm_waited. by apply (g_sides _ G').
Qed.

(** *** A bounded queue *)

(** What a coroutine that is in a call waits for. *)
Definition waits_on (x : Mailbox.call A) (v : waitable) : Prop :=
  match x with
  | Mailbox.NoCall => False
  | Mailbox.Putting _ => v = Barrier Mailbox.write_barrier
  | _ => v = Barrier Mailbox.read_barrier
  end.

Record fits (n : Z) w : Prop := {
  ft_crashed : Mailbox.crashed w = false;
  ft_graph : graph (Mailbox.scheduler (Mailbox.box w));
  ft_still : still (Mailbox.scheduler (Mailbox.box w));
  ft_running k : k ∈ ready (Mailbox.scheduler (Mailbox.box w)) ->
    state (threads (Mailbox.scheduler (Mailbox.box w)) k) = Running;
  ft_calls k v : v ∈ waited (threads (Mailbox.scheduler (Mailbox.box w)) k) ->
    waits_on (Mailbox.calling w k) v;
  ft_shape : Mailbox.max_size (Mailbox.box w) = n /\ Mailbox.opened_ (Mailbox.box w) = true /\
    Mailbox.exception_ (Mailbox.box w) = None;
  ft_read : Mailbox.readable (Mailbox.box w) =
    negb (bool_decide (length (Mailbox.queue (Mailbox.box w)) = 0%nat));
  ft_full k : k ∈ waiters (Mailbox.scheduler (Mailbox.box w)) (Barrier Mailbox.write_barrier) ->
    n <= Mailbox.size (Mailbox.box w);
  ft_size : Mailbox.size (Mailbox.box w) <= n;
  ft_log : Mailbox.sent w = Mailbox.received w ++ Mailbox.queue (Mailbox.box w)
}.

(** What is left to show when the scheduler, the queue and the logs change. *)
Lemma fits_good n w s' q sent received : fits n w ->
  good (Mailbox.scheduler (Mailbox.box w)) s' ->
  opened (objs s') Mailbox.read_barrier = negb (bool_decide (length q = 0%nat)) ->
  (forall k, k ∈ waiters s' (Barrier Mailbox.write_barrier) -> n <= Z.of_nat (length q)) ->
  Z.of_nat (length q) <= n -> sent = received ++ q ->
  fits n (Mailbox.mkWorld (Mailbox.set_scheduler s' (Mailbox.set_queue q (Mailbox.box w)))
    (Mailbox.calling w) sent received false).
Proof.
  intros [] Gd R F Sz L. pose proof Gd as [G S C]. split; cbn; try done.
  - by eapply good_running.
  - intros k v I. apply ft_calls0. by apply (cm_waited _ _ C).
Qed.

Lemma fits_calling n w j x : fits n w ->
  state (threads (Mailbox.scheduler (Mailbox.box w)) j) = Running -> fits n (Mailbox.set_calling j x w).
Proof.
  intros [] Rn. split; cbn; try done. intros k v. rewrite fn_insert_eq.
  destruct (decide (j = k)) as [<-|]; [|apply ft_calls0].
  rewrite running_waits by (try done; congruence). intros I. by apply not_elem_of_nil in I.
Qed.

(** A coroutine waits for the barrier of its call, which is closed. *)
Lemma fits_wait n w j x i s1 : fits n w -> good (Mailbox.scheduler (Mailbox.box w)) s1 ->
  (forall k, k ∈ ready (Mailbox.scheduler (Mailbox.box w)) -> k ∈ ready s1) ->
  opened (objs s1) Mailbox.read_barrier = Mailbox.readable (Mailbox.box w) ->
  opened (objs s1) i = false -> j ∈ ready (Mailbox.scheduler (Mailbox.box w)) ->
  waits_on x (Barrier i) -> (i = Mailbox.write_barrier -> n <= Mailbox.size (Mailbox.box w)) ->
  exists s2, wait [Barrier i] false j s1 = (Ok true, s2) /\
    fits n (Mailbox.set_calling j x (Mailbox.set_box (Mailbox.set_scheduler s2 (Mailbox.box w)) w)).
Proof.
  intros [] Gd Rd Op Cl J Wx Fu. pose proof Gd as [G S C].
  pose proof (good_running _ _ Gd ft_running0) as Rn. pose proof (Rd j J) as J1.
  pose proof (wait_one (Barrier i) false j s1 G J1 (Rn j J1)) as W. cbn [blocks] in W. rewrite Cl in W.
  destruct W as (s2 & E & F). exists s2. split; [done|].
  pose proof (graph_froze _ _ _ _ G J1 (NoDup_singleton _) ltac:(done) F) as G2.
  assert (forall v, v ∈ [Barrier i] -> blocks s1 v j = true) as B.
  { intros v ->%list_elem_of_singleton. cbn. by rewrite Cl. }
  pose proof (still_froze _ _ _ _ S (Rn j J1) B F) as S2.
  destruct F as [(K & _) O (St & Wd & _) R Wt]. split; cbn; try done.
  - intros k. rewrite R, elem_of_without. intros [N I]. rewrite K by done. by apply Rn.
  - intros k v. rewrite fn_insert_eq. destruct (decide (j = k)) as [<-|N].
    + rewrite Wd. by intros ->%list_elem_of_singleton.
    + rewrite K by congruence. intros I. apply ft_calls0. by apply (cm_waited _ _ C).
  - unfold Mailbox.readable. cbn. by rewrite (so_opened _ _ O), Op.
  - intros k. rewrite Wt. destruct (decide _) as [E1|E1].
    + intros _. apply Fu. apply list_elem_of_singleton in E1. congruence.
    + intros I. eapply ft_full0. by eapply good_waiters.
Qed.

Lemma bind_on {B C} (m : method (t X) (error X) B) (k : B -> method (Mailbox.t A X) (error X) C) c b s' :
  m (Mailbox.scheduler c) = (Ok b, s') -> (Mailbox.on m ≫= k) c = k b (Mailbox.set_scheduler s' c).
Proof. intros E. unfold Mailbox.on, mbind, method_bind. by rewrite E. Qed.

Lemma on_ok {B} (m : method (t X) (error X) B) c b s' :
  m (Mailbox.scheduler c) = (Ok b, s') -> Mailbox.on m c = (Ok b, Mailbox.set_scheduler s' c).
Proof. intros E. unfold Mailbox.on. by rewrite E. Qed.

(** Setting the box of a world to what it is but for the scheduler and the
    queue. *)
Lemma fits_put n w j a : fits n w -> j ∈ ready (Mailbox.scheduler (Mailbox.box w)) ->
  fits n (Mailbox.turn false j (Mailbox.Putting a) w).
Proof.
  intros Fw J. pose proof Fw as []. destruct ft_shape0 as (M & O & _). cbn [Mailbox.turn].
  pose proof (ft_running0 j J) as Rn.
  unfold Mailbox.perform, Mailbox.put. rewrite bind_read, M.
  destruct (Z.leb_spec n (Mailbox.size (Mailbox.box w))) as [Full|Room].
  - destruct (close_moves Mailbox.write_barrier _ ft_graph0 ft_still0) as (s1 & E1 & []).
    rewrite (bind_on _ _ _ _ _ E1).
    destruct (fits_wait n w j (Mailbox.Putting a) Mailbox.write_barrier s1) as (s2 & E2 & F2); try done; try by rewrite mv_opened0.
    rewrite (bind_on _ _ (Mailbox.set_scheduler s1 _) _ _ E2). exact F2.
  - rewrite bind_modify, bind_read. cbn [Mailbox.opened_ Mailbox.set_queue]. rewrite O. cbn [andb].
    change (Mailbox.readable (Mailbox.set_queue (Mailbox.queue (Mailbox.box w) ++ [a]) (Mailbox.box w)))
      with (Mailbox.readable (Mailbox.box w)).
    assert (forall k, k ∉ waiters (Mailbox.scheduler (Mailbox.box w)) (Barrier Mailbox.write_barrier)) as Nw.
    { intros k I. specialize (ft_full0 k I). lia. }
    assert (Z.of_nat (length (Mailbox.queue (Mailbox.box w) ++ [a])) <= n) as Sz.
    { rewrite length_app. unfold Mailbox.size in Room. cbn. lia. }
    assert (Mailbox.sent w ++ [a] = Mailbox.received w ++ Mailbox.queue (Mailbox.box w) ++ [a]) as L
      by (rewrite ft_log0; by rewrite <- app_assoc).
    assert (bool_decide (length (Mailbox.queue (Mailbox.box w) ++ [a]) = 0%nat) = false) as Ne.
    { apply bool_decide_eq_false. rewrite length_app. cbn. lia. }
    destruct (Mailbox.readable (Mailbox.box w)) eqn:Rd; cbn [negb when].
    + rewrite bind_ret_l. cbn [mret method_ret]. apply fits_calling; [|done].
      pose proof (fits_good n w (Mailbox.scheduler (Mailbox.box w)) (Mailbox.queue (Mailbox.box w) ++ [a])
        (Mailbox.sent w ++ [a]) (Mailbox.received w) Fw
        (good_refl _ ft_graph0 ft_still0)) as H. rewrite Ne in H. specialize (H Rd).
      unfold Mailbox.add_sent, Mailbox.set_box. cbn. rewrite ft_crashed0.
      apply H; [|done|done]. intros k I. by apply Nw in I.
    + destruct (open_moves Mailbox.read_barrier _ ft_graph0 ft_still0) as (s1 & E1 & []).
      rewrite (bind_on _ _ (Mailbox.set_queue _ _) _ _ E1). cbn [mret method_ret].
      apply fits_calling.
      * unfold Mailbox.add_sent, Mailbox.set_box. cbn. rewrite ft_crashed0.
        apply (fits_good n w s1 _ _ _ Fw mv_good0); try done.
        { rewrite Ne, mv_opened0. done. }
        intros k I. exfalso. apply (Nw k). by eapply good_waiters.
      * cbn. by apply (good_running _ _ mv_good0 ft_running0), mv_ready0.
Qed.

Lemma fits_get n w j first : fits n w -> j ∈ ready (Mailbox.scheduler (Mailbox.box w)) ->
  fits n (Mailbox.turn first j Mailbox.Getting w).
Proof.
  intros Fw J. pose proof Fw as []. destruct ft_shape0 as (M & O & Ex). cbn [Mailbox.turn].
  unfold Mailbox.perform, Mailbox.get. rewrite bind_read.
  destruct (Mailbox.readable (Mailbox.box w)) eqn:Rd.
  - rewrite Ex. destruct (Mailbox.queue (Mailbox.box w)) as [|a q] eqn:Q; [done|].
    rewrite bind_ret_l, bind_modify.
    set (c1 := Mailbox.set_queue q (Mailbox.box w)).
    assert (exists s2, when (bool_decide (length q = 0%nat)) Mailbox.exhausted c1 =
        (Ok tt, Mailbox.set_scheduler s2 c1) /\
      good (Mailbox.scheduler (Mailbox.box w)) s2 /\
      (forall k, k ∈ ready (Mailbox.scheduler (Mailbox.box w)) -> k ∈ ready s2) /\
      opened (objs s2) Mailbox.read_barrier = negb (bool_decide (length q = 0%nat))) as (s2 & E2 & G2 & R2 & O2).
    { destruct (bool_decide (length q = 0%nat)) eqn:Z; cbn [when negb].
      - destruct (close_moves Mailbox.read_barrier _ ft_graph0 ft_still0) as (s2 & E2 & []).
        exists s2. split_and!; [|done|done|by rewrite mv_opened0].
        unfold Mailbox.exhausted, Mailbox.check. rewrite bind_read. cbn [Mailbox.queue c1 Mailbox.set_queue].
        rewrite Z. cbn [negb when]. rewrite bind_ret_l, (bind_on _ _ c1 _ _ E2).
        cbn [Mailbox.exception_ c1 Mailbox.set_queue]. by rewrite Ex.
      - exists (Mailbox.scheduler (Mailbox.box w)). split_and!; [|by apply good_refl|done|done].
        by destruct (Mailbox.box w). }
    rewrite (bind_Ok _ _ _ _ _ E2), bind_read. cbn [Mailbox.max_size Mailbox.set_scheduler c1 Mailbox.set_queue].
    unfold Mailbox.size in ft_size0 |- *. rewrite Q in ft_size0. cbn in ft_size0.
    cbn [Mailbox.queue Mailbox.set_scheduler c1 Mailbox.set_queue]. rewrite M.
    assert ((Z.of_nat (length q) <? n) = true) as -> by (apply Z.ltb_lt; lia). cbn [when].
    destruct (open_moves Mailbox.write_barrier s2) as (s3 & E3 & []); [apply G2..|].
    rewrite (bind_on _ _ (Mailbox.set_scheduler s2 c1) _ _ E3). cbn [mret method_ret].
    pose proof (good_trans _ _ _ G2 mv_good0) as G3.
    apply fits_calling.
    + unfold Mailbox.add_received, Mailbox.set_box. cbn. rewrite ft_crashed0.
      apply (fits_good n w s3 q _ _ Fw G3); try lia.
      * by rewrite mv_opened0.
      * intros k. rewrite (mv_barrier0 Mailbox.write_barrier _ eq_refl). cbn. intros I.
        by apply not_elem_of_nil in I.
      * by rewrite <- app_assoc.
    + cbn. by apply (good_running _ _ G3 ft_running0), mv_ready0, R2.
  - destruct (fits_wait n w j Mailbox.Getting Mailbox.read_barrier (Mailbox.scheduler (Mailbox.box w)))
      as (s2 & E2 & F2); try done.
    { by apply good_refl. }
    rewrite (bind_on _ _ _ _ _ E2). exact F2.
Qed.

Lemma fits_peek n w j : fits n w -> j ∈ ready (Mailbox.scheduler (Mailbox.box w)) ->
  fits n (Mailbox.turn false j Mailbox.Peeking w).
Proof.
  intros Fw J. pose proof Fw as []. cbn [Mailbox.turn].
  unfold Mailbox.perform, Mailbox.peek. rewrite bind_read.
  destruct (Mailbox.readable (Mailbox.box w)) eqn:Rd.
  - destruct (Mailbox.queue (Mailbox.box w)) as [|a q] eqn:Q; [done|]. cbn [mret method_ret].
    apply (fits_calling n (Mailbox.set_box (Mailbox.box w) w)); [by destruct w|by apply ft_running0].
  - destruct (fits_wait n w j Mailbox.Peeking Mailbox.read_barrier (Mailbox.scheduler (Mailbox.box w)))
      as (s2 & E2 & F2); try done.
    { by apply good_refl. }
    rewrite (bind_on _ _ _ _ _ E2). exact F2.
Qed.

Lemma fits_turn n w j x first : fits n w -> j ∈ ready (Mailbox.scheduler (Mailbox.box w)) ->
  fits n (Mailbox.turn first j x w).
Proof.
  destruct x as [|a| |]; [done|apply (fits_put n w j a)|apply fits_get|apply (fits_peek n w j)].
Qed.

Lemma fits_objs n w s' : fits n w -> good (Mailbox.scheduler (Mailbox.box w)) s' ->
  objs s' = objs (Mailbox.scheduler (Mailbox.box w)) ->
  fits n (Mailbox.set_box (Mailbox.set_scheduler s' (Mailbox.box w)) w).
Proof.
  intros Fw Gd O. pose proof Fw as [].
  assert (fits n (Mailbox.mkWorld (Mailbox.set_scheduler s' (Mailbox.set_queue (Mailbox.queue (Mailbox.box w))
    (Mailbox.box w))) (Mailbox.calling w) (Mailbox.sent w) (Mailbox.received w) false)) as H.
  { apply fits_good; try done.
    - by rewrite O.
    - intros k I. eapply ft_full0. by eapply good_waiters. }
  unfold Mailbox.set_box. by rewrite ft_crashed0.
Qed.

Lemma fits_happen n w e : fits n w -> Mailbox.plain e -> fits n (Mailbox.happen e w).
Proof.
  intros Fw P. pose proof Fw as []. destruct e as [j x|j|j e| | | | |]; try done; cbn [Mailbox.happen].
  - destruct (decide _) as [J|]; [|done]. destruct (Mailbox.calling w j); try done. by apply fits_turn.
  - destruct (decide _) as [J|]; [|done].
    assert (forall x, fits n (Mailbox.perform (Mailbox.on (resume false j)) (fun _ => Mailbox.turn false j x)
      (Mailbox.set_calling j Mailbox.NoCall) w)) as T.
    { intros x. destruct (tame_resume false j _ ft_graph0 ft_still0) as (s1 & (r & E & R & Gd & O) & Rs & St).
      unfold Mailbox.perform, Mailbox.on. rewrite E. pose proof (fits_objs n w s1 Fw Gd O) as F1.
      destruct r as [b|[|e]]; [|done|].
      - apply fits_turn; [done|]. cbn. by rewrite Rs.
      - apply fits_calling; [done|]. cbn. rewrite St. by apply ft_running0. }
    destruct (Mailbox.calling w j); [done|apply T..].
  - destruct (tame_interrupt j e _ ft_graph0 ft_still0) as (s1 & r & E & R & Gd & O).
    unfold Mailbox.simply, Mailbox.perform, Mailbox.on. rewrite E.
    pose proof (fits_objs n w s1 Fw Gd O) as F1. by destruct r as [[]|[]].
Qed.

Lemma fits_begins ts n : NoDup ts -> 0 <= n -> fits n (Mailbox.begins ts n).
Proof.
  intros N P.
  assert (forall (B : Type) (b : B), b ∈ [] -> False) as No by (intros B b I; by apply not_elem_of_nil in I).
  split; cbn; try done; try (by intros k v I%No); try (by intros k I%No).
  split; cbn; try done; try (split; [done|constructor]); try constructor; try (by intros k I%No).
  all: first [done|by intros ?%No|by exfalso; eapply No].
Qed.

Lemma fits_run ts n (es : list (Mailbox.event A X)) : NoDup ts -> 0 <= n -> Forall Mailbox.plain es ->
  fits n (Mailbox.run es (Mailbox.begins ts n)).
Proof.
  intros N P F. assert (fits n (Mailbox.begins (A := A) (X := X) ts n)) as K by by apply fits_begins.
  revert K. generalize (Mailbox.begins (A := A) (X := X) ts n).
  induction F as [|e es Pe F IH]; intros w K; [done|]. by apply IH, fits_happen.
Qed.

(** C21. A channel is a bounded queue, however the calls of its readers and writers
    interleave and whoever is interrupted: what was put is what was got and what is
    left, in order; it never holds more than its maximum; no assertion fails; a
    reader is only stuck when it is empty, and a writer when it is full. *)
Theorem channel_is_a_bounded_queue ts n (es : list (Mailbox.event A X)) : NoDup ts -> 0 <= n -> Forall Mailbox.plain es ->
  let w := Mailbox.run es (Mailbox.begins ts n) in
  Mailbox.crashed w = false /\
  Mailbox.sent w = Mailbox.received w ++ Mailbox.queue (Mailbox.box w) /\
  Mailbox.size (Mailbox.box w) <= n /\
  forall j, state (threads (Mailbox.scheduler (Mailbox.box w)) j) = Frozen ->
    match Mailbox.calling w j with
    | Mailbox.NoCall => False
    | Mailbox.Putting _ => Mailbox.size (Mailbox.box w) = n
    | _ => Mailbox.queue (Mailbox.box w) = []
    end.
Proof.
  intros N P F w.
  destruct (fits_run ts n es N P F : fits n w).
  split_and!; try done. intros j Fr.
  apply (g_frozen _ ft_graph0) in Fr.
  destruct (waited (threads (Mailbox.scheduler (Mailbox.box w)) j)) as [|v l] eqn:W; [done|].
  assert (v ∈ waited (threads (Mailbox.scheduler (Mailbox.box w)) j)) as I by (rewrite W; left).
  pose proof (ft_calls0 j v I) as C. apply (g_sides _ ft_graph0) in I.
  assert (v = Barrier Mailbox.read_barrier -> Mailbox.queue (Mailbox.box w) = []) as Empty.
  { intros ->. pose proof (ft_still0 _ _ I) as B. cbn in B.
    change (negb (Mailbox.readable (Mailbox.box w)) = true) in B. rewrite ft_read0, negb_involutive in B.
    apply bool_decide_eq_true in B. by apply nil_length_inv. }
  destruct (Mailbox.calling w j); cbn in C; [done| |by apply Empty..].
  subst v. specialize (ft_full0 j I). lia.
Qed.

(** *** Where this ends *)

(** Emptying a channel, or letting it hold more, does not wake the writers that
    wait for room. *)
Theorem room_is_not_announced ts m (es : list (Mailbox.event A X)) j : NoDup ts -> 0 <= m ->
  Forall Mailbox.plain es ->
  let w := Mailbox.run es (Mailbox.begins ts m) in
  j ∈ waiters (Mailbox.scheduler (Mailbox.box w)) (Barrier Mailbox.write_barrier) ->
  (forall n, m <= n ->
     Mailbox.scheduler (Mailbox.box (Mailbox.happen (Mailbox.SetMaxSize n) w)) =
       Mailbox.scheduler (Mailbox.box w)) /\
  let w' := Mailbox.happen Mailbox.Clear w in
  Mailbox.queue (Mailbox.box w') = [] /\
  j ∈ waiters (Mailbox.scheduler (Mailbox.box w')) (Barrier Mailbox.write_barrier).
Proof.
  intros N P F w I. destruct (fits_run ts m es N P F : fits m w). destruct ft_shape0 as (M & O & Ex). split.
  - intros n L. cbn [Mailbox.happen]. unfold Mailbox.simply, Mailbox.perform, Mailbox.set_max_size.
    rewrite bind_modify, bind_read. cbn [Mailbox.max_size Mailbox.set_max].
    change (Mailbox.size (Mailbox.set_max n (Mailbox.box w))) with (Mailbox.size (Mailbox.box w)).
    assert ((n <? Mailbox.size (Mailbox.box w)) = false) as -> by (apply Z.ltb_ge; lia). done.
  - cbn [Mailbox.happen]. unfold Mailbox.simply, Mailbox.perform, Mailbox.clear.
    rewrite bind_modify, bind_read. cbn [Mailbox.max_size Mailbox.set_queue]. rewrite M.
    assert ((m <? Mailbox.size (Mailbox.set_queue [] (Mailbox.box w))) = false) as -> by (apply Z.ltb_ge; unfold Mailbox.size; cbn; lia).
    cbn [when]. rewrite bind_ret_l.
    change (Mailbox.readable (Mailbox.set_queue [] (Mailbox.box w))) with (Mailbox.readable (Mailbox.box w)).
    destruct (Mailbox.readable (Mailbox.box w)); cbn [when]; [|done].
    destruct (close_moves Mailbox.read_barrier _ ft_graph0 ft_still0) as (s1 & E & []).
    unfold Mailbox.exhausted, Mailbox.check. rewrite bind_read. cbn [Mailbox.queue Mailbox.set_queue].
    rewrite bool_decide_eq_true_2 by done. cbn [negb when].
    rewrite bind_ret_l, (bind_on _ _ (Mailbox.set_queue [] (Mailbox.box w)) _ _ E).
    cbn [Mailbox.exception_ Mailbox.set_queue]. rewrite Ex. cbn. split; [done|].
    rewrite (mv_barrier0 _ _ eq_refl). done.
Qed.
End Theorems.

(** *** On concrete events *)

(** Two readers wait; one is given the value, the other waits again. *)
Definition two_readers : list (Mailbox.event Z Z) :=
  [Mailbox.Call 1 Mailbox.Getting; Mailbox.Call 2 Mailbox.Getting; Mailbox.Call 3 (Mailbox.Putting 50);
   Mailbox.Resume 1; Mailbox.Resume 2].

Lemma channel_is_a_bounded_queue_witness :
  let w := Mailbox.run two_readers (Mailbox.begins [1; 2; 3] 4) in
  state (threads (Mailbox.scheduler (Mailbox.box w)) 2) = Frozen /\
  Mailbox.received w = [50] /\ Mailbox.queue (Mailbox.box w) = [].
Proof.
  split; [reflexivity|]. split; [reflexivity|].
  pose proof (channel_is_a_bounded_queue [1; 2; 3] 4 two_readers) as H.
  destruct H as (_ & _ & _ & H).
  - decided.
  - lia.
  - unfold two_readers. repeat constructor.
  - exact (H 2 eq_refl).
Defined.

(** A writer waits for room. *)
Definition full_channel : list (Mailbox.event Z Z) :=
  [Mailbox.Call 1 (Mailbox.Putting 70); Mailbox.Call 1 (Mailbox.Putting 71)].

Lemma room_is_not_announced_witness :
  let w := Mailbox.happen Mailbox.Clear (Mailbox.run full_channel (Mailbox.begins [1; 2] 1)) in
  Mailbox.queue (Mailbox.box w) = [] /\ Mailbox.calling w 1 = Mailbox.Putting 71 /\
  1 ∈ waiters (Mailbox.scheduler (Mailbox.box w)) (Barrier Mailbox.write_barrier).
Proof.
  pose proof (room_is_not_announced [1; 2] 1 full_channel 1) as H.
  destruct H as [_ [H1 H2]].
  - decided.
  - lia.
  - unfold full_channel. repeat constructor.
  - decided.
  - split; [exact H1|]. split; [reflexivity|exact H2].
Defined.

(** Then a reader waits too, for the writer that waits for it. *)
Lemma reader_and_writer_are_stuck :
  let w := Mailbox.run (full_channel ++ [Mailbox.Clear; Mailbox.Call 2 Mailbox.Getting])
    (Mailbox.begins [1; 2] 1) in
  state (threads (Mailbox.scheduler (Mailbox.box w)) 1) = Frozen /\
  state (threads (Mailbox.scheduler (Mailbox.box w)) 2) = Frozen /\
  ready (Mailbox.scheduler (Mailbox.box w)) = [].
Proof. by vm_compute. Qed.

(** When two readers wait for a value, and an exception follows it, the one that is
    late fails an assertion instead of throwing the exception. *)
Theorem late_reader_crashes :
  let w := Mailbox.run
    [Mailbox.Call 1 Mailbox.Getting; Mailbox.Call 2 Mailbox.Getting; Mailbox.Call 3 (Mailbox.Putting 50);
     Mailbox.Raise (Exception 9); Mailbox.Resume 1; Mailbox.Resume 2] (Mailbox.begins [1; 2; 3] 4) in
  Mailbox.received w = [50] /\ Mailbox.queue (Mailbox.box w) = [] /\
  Mailbox.exception_ (Mailbox.box w) = Some (Exception 9) /\ Mailbox.crashed w = true.
Proof. by vm_compute. Qed.
