(* ===== verification/Docks.v ===== *)
(** The connections of a node to the others: memo/model/doughnut/Dock.cc, and the
    peers at the other end of them, Remote.cc and Remote.hxx.

    A connection has a coroutine, which connects, tells who waits for it, serves
    calls and ends. What a coroutine does between two waits is a method, an event
    of [handle]: who connects and when, who answers or fails, and who calls which
    method, in any order. Connections and remotes are shared by pointers: they are
    numbered, and a connection is destroyed when nothing holds it.

    The version is at least 0.7.0, since which a node says its address when one
    connects to it. *)

From stdpp Require Import base tactics functions option gmap list.
From Stdlib Require Import ZArith Lia.
From S2P Require Import Prelude Addresses Nodes Kouncil.
Import Kouncil (NodeLocation, mkLocation, loc_id, loc_endpoints).
Open Scope Z_scope.

Module Dock.
(** The coroutine of a connection: not run yet, trying its endpoints, serving,
    over. *)
Inductive phase := Starting | Connecting | Serving | Stopped.
#[export] Instance phase_eq_dec : EqDecision phase.
Proof. solve_decision. Defined.

(** What is connected to the signal [on_connection]: a remote that will be open,
    and the slot of [Dock::connect], which holds the connection. *)
Inductive slot := Opens (r : Z) | Makes.
#[export] Instance slot_eq_dec : EqDecision slot.
Proof. solve_decision. Defined.

Section Dock.
Context {X : Type}.

Inductive exn :=
  | ConnectionRefused
  | ConnectionClosed
  | TimeOut
  | NetworkError (x : X).
Inductive error := AssertError.

(** Dock::Connection. [cleanup_on_disconnect] is set while the coroutine was not
    run. The remotes connected to [on_disconnection] are in [on_disconnection];
    the other slots are the observers of [out]. *)
Record connection := mkConnection {
  location : NodeLocation;
  thread : phase;
  connected : bool;
  disconnected : bool;
  disconnected_since : Z;
  disconnected_exception : option exn;
  on_connection : list slot;
  on_disconnection : list Z;
  alive : bool
}.

(** Remote. Its barrier is open or not, maybe with an exception. *)
Record remote := mkRemote {
  rid : Addr;
  its : Z;
  opened : bool;
  refused : option exn;
  connecting_since : Z;
  last_exception : option exn
}.

(** The signals that are sent. *)
Inductive action :=
  | OnConnection (c : Z)
  | OnDisconnection (c : Z)
  | OnPeer (r : Z)
  | PeerConnected (r : Z)
  | PeerDisconnected (r : Z).

(** [observed] tells whether something is connected to [on_peer]; [callers] are
    the connections that were asked for and kept. *)
Record t := mkDock {
  self : Addr;
  observed : bool;
  now : Z;
  conns : Z -> connection;
  next_conn : Z;
  connecting : list Z;
  connected_ : list Z;
  callers : list Z;
  remotes : Z -> remote;
  next_remote : Z;
  peer_cache : list Z;
  out : list action
}.

Abbreviation dock := (method t error).

Definition set_now (n : Z) (s : t) : t :=
  mkDock (self s) (observed s) n (conns s) (next_conn s) (connecting s) (connected_ s) (callers s)
    (remotes s) (next_remote s) (peer_cache s) (out s).
Definition set_conn (c : Z) (x : connection) (s : t) : t :=
  mkDock (self s) (observed s) (now s) (<[c := x]> (conns s)) (next_conn s) (connecting s)
    (connected_ s) (callers s) (remotes s) (next_remote s) (peer_cache s) (out s).
Definition set_next_conn (n : Z) (s : t) : t :=
  mkDock (self s) (observed s) (now s) (conns s) n (connecting s) (connected_ s) (callers s)
    (remotes s) (next_remote s) (peer_cache s) (out s).
Definition set_connecting (l : list Z) (s : t) : t :=
  mkDock (self s) (observed s) (now s) (conns s) (next_conn s) l (connected_ s) (callers s)
    (remotes s) (next_remote s) (peer_cache s) (out s).
Definition set_connected_ (l : list Z) (s : t) : t :=
  mkDock (self s) (observed s) (now s) (conns s) (next_conn s) (connecting s) l (callers s)
    (remotes s) (next_remote s) (peer_cache s) (out s).
Definition set_callers (l : list Z) (s : t) : t :=
  mkDock (self s) (observed s) (now s) (conns s) (next_conn s) (connecting s) (connected_ s) l
    (remotes s) (next_remote s) (peer_cache s) (out s).
Definition set_remote (r : Z) (p : remote) (s : t) : t :=
  mkDock (self s) (observed s) (now s) (conns s) (next_conn s) (connecting s) (connected_ s)
    (callers s) (<[r := p]> (remotes s)) (next_remote s) (peer_cache s) (out s).
Definition set_peer_cache (n : Z) (l : list Z) (s : t) : t :=
  mkDock (self s) (observed s) (now s) (conns s) (next_conn s) (connecting s) (connected_ s)
    (callers s) (remotes s) n l (out s).
Definition emit (a : action) (s : t) : t :=
  mkDock (self s) (observed s) (now s) (conns s) (next_conn s) (connecting s) (connected_ s)
    (callers s) (remotes s) (next_remote s) (peer_cache s) (out s ++ [a]).

Definition set_id (i : Addr) (x : connection) : connection :=
  mkConnection (mkLocation i (loc_endpoints (location x))) (thread x) (connected x) (disconnected x)
    (disconnected_since x) (disconnected_exception x) (on_connection x) (on_disconnection x) (alive x).
Definition set_thread (p : phase) (x : connection) : connection :=
  mkConnection (location x) p (connected x) (disconnected x) (disconnected_since x)
    (disconnected_exception x) (on_connection x) (on_disconnection x) (alive x).
Definition set_connected (x : connection) : connection :=
  mkConnection (location x) (thread x) true (disconnected x) (disconnected_since x)
    (disconnected_exception x) (on_connection x) (on_disconnection x) (alive x).
Definition set_disconnected (x : connection) : connection :=
  mkConnection (location x) (thread x) (connected x) true (disconnected_since x)
    (disconnected_exception x) (on_connection x) (on_disconnection x) (alive x).
Definition set_since (n : Z) (x : connection) : connection :=
  mkConnection (location x) (thread x) (connected x) (disconnected x) n
    (disconnected_exception x) (on_connection x) (on_disconnection x) (alive x).
Definition set_exception (e : option exn) (x : connection) : connection :=
  mkConnection (location x) (thread x) (connected x) (disconnected x) (disconnected_since x)
    e (on_connection x) (on_disconnection x) (alive x).
Definition set_slots (l : list slot) (x : connection) : connection :=
  mkConnection (location x) (thread x) (connected x) (disconnected x) (disconnected_since x)
    (disconnected_exception x) l (on_disconnection x) (alive x).
Definition set_ends (l : list Z) (x : connection) : connection :=
  mkConnection (location x) (thread x) (connected x) (disconnected x) (disconnected_since x)
    (disconnected_exception x) (on_connection x) l (alive x).
Definition bury (x : connection) : connection :=
  mkConnection (location x) (thread x) (connected x) (disconnected x) (disconnected_since x)
    (disconnected_exception x) (on_connection x) (on_disconnection x) false.

Definition set_its (c : Z) (p : remote) : remote :=
  mkRemote (rid p) c (opened p) (refused p) (connecting_since p) (last_exception p).
Definition set_barrier (b : bool) (e : option exn) (p : remote) : remote :=
  mkRemote (rid p) (its p) b e (connecting_since p) (last_exception p).
Definition set_last (e : option exn) (p : remote) : remote :=
  mkRemote (rid p) (its p) (opened p) (refused p) (connecting_since p) e.
Definition set_connecting_since (n : Z) (p : remote) : remote :=
  mkRemote (rid p) (its p) (opened p) (refused p) n (last_exception p).

Definition on_conn (c : Z) (f : connection -> connection) (s : t) : t := set_conn c (f (conns s c)) s.
Definition on_remote (r : Z) (f : remote -> remote) (s : t) : t := set_remote r (f (remotes s r)) s.
Definition assert (b : bool) : dock unit := when (negb b) (throw AssertError).

Definition id (x : connection) : Addr := loc_id (location x).
Definition endpoints (x : connection) : Endpoints.t := loc_endpoints (location x).
(** What [Remote] calls connected. *)
Definition live (x : connection) : bool := connected x && negb (disconnected x).

(** *** The barrier of a remote *)

(** Barrier::open, with the slot of [changed] that the constructor connects once
    it has a connection ([hooked]). *)
Definition open_ (hooked : bool) (r : Z) (s : t) : t :=
  let p := remotes s r in
  if opened p then on_remote r (set_barrier true None) s
  else
    let s := on_remote r (set_barrier true (refused p)) s in
    let s :=
      if hooked then
        let s := on_remote r (set_last None) s in
        match refused p with None => emit (PeerConnected r) s | Some _ => s end
      else s in
    on_remote r (set_barrier true None) s.
Definition close_ (hooked : bool) (r : Z) (s : t) : t :=
  if opened (remotes s r) then
    let s := on_remote r (set_barrier false None) s in
    if hooked then emit (PeerDisconnected r) s else s
  else s.
Definition raise_ (r : Z) (e : option exn) (s : t) : t :=
  let s := on_remote r (fun p => set_barrier (opened p) e p) s in
  let s := open_ true r s in
  on_remote r (set_barrier true e) s.
Definition clear_exception (r : Z) (s : t) : t :=
  match refused (remotes s r) with Some _ => close_ true r s | None => s end.

(** *** Connections *)

(** What a remote connects to [on_disconnection]. *)
Definition disconnection_slot (r : Z) (s : t) : t :=
  let x := conns s (its (remotes s r)) in
  if negb (connected x) then raise_ r (disconnected_exception x) s else close_ true r s.
Definition fire_disconnection (c : Z) (s : t) : t :=
  fold_left (fun s r => disconnection_slot r s) (on_disconnection (conns s c))
    (emit (OnDisconnection c) s).

(** The end of the coroutine of a connection that was connected ([cleanup]). *)
Definition cleanup (c : Z) (s : t) : t :=
  let s := set_connected_ (without c (connected_ s)) s in
  let s := on_conn c (fun x => set_thread Stopped (set_slots [] (set_since (now s) (set_disconnected x)))) s in
  let s := fire_disconnection c s in
  on_conn c (set_ends []) s.

(** The end of one that was not: it is no longer among those that connect. *)
Definition forget (c : Z) (s : t) : t :=
  on_conn c (fun x => set_thread Stopped (set_slots [] x)) (set_connecting (without c (connecting s)) s).

(** Whether something holds a connection: a caller, a remote, or the slot that is
    connected to it. *)
Definition held (c : Z) (s : t) : bool :=
  bool_decide (c ∈ callers s) ||
  bool_decide (c ∈ (fun r => its (remotes s r)) <$> peer_cache s) ||
  bool_decide (Makes ∈ on_connection (conns s c)).

(** [~Connection]; it is in the index of the dock while it serves, and a coroutine
    that was not run does not clean up. *)
Definition destroy (c : Z) (s : t) : t :=
  let s :=
    match thread (conns s c) with
    | Starting => on_conn c (set_thread Stopped) s
    | Connecting => forget c s
    | Serving => cleanup c s
    | Stopped => s
    end in
  on_conn c bury s.
Definition release (c : Z) (s : t) : t :=
  if alive (conns s c) && negb (held c s) then destroy c s else s.

(** [Connection::disconnect]. *)
Definition disconnect (c : Z) (s : t) : t :=
  if disconnected (conns s c) then s
  else
    match thread (conns s c) with
    | Starting | Connecting => forget c s
    | Serving => cleanup c s
    | Stopped => s
    end.

Definition find_connected (i : Addr) (s : t) : option Z :=
  list_find (fun c => id (conns s c) = i) (connected_ s) ≫= fun p => Some p.2.
(** The range of connections to these endpoints, of which none is dead. *)
Fixpoint find_connecting (l : NodeLocation) (cs : list Z) (s : t) : result error (option Z) :=
  match cs with
  | [] => Ok None
  | c :: cs =>
      let x := conns s c in
      if bool_decide (endpoints x = loc_endpoints l) then
        if negb (alive x) then Throw AssertError
        else if bool_decide (id x = loc_id l) then Ok (Some c)
        else find_connecting l cs s
      else find_connecting l cs s
  end.

(** [Connection::make] and [init]. *)
Definition new_connection (l : NodeLocation) (no_remote : bool) (s : t) : t :=
  let c := next_conn s in
  let x := mkConnection l Starting false false (now s) None (if no_remote then [] else [Makes]) [] true in
  set_connecting (connecting s ++ [c]) (set_conn c x (set_next_conn (c + 1) s)).

(** [Dock::connect]. *)
Definition connect (l : NodeLocation) (no_remote : bool) : dock Z :=
  s ← read;
  match (if bool_decide (loc_id l = null_addr) then None else find_connected (loc_id l) s) with
  | Some c => mret c
  | None =>
      o ← lift (find_connecting l (connecting s) s);
      match o with
      | Some c => mret c
      | None => modify (new_connection l no_remote);; mret (next_conn s)
      end
  end.

(** *** Remotes *)

Definition unhook (r c : Z) (s : t) : t :=
  on_conn c (fun x => set_slots (without (Opens r) (on_connection x)) (set_ends (without r (on_disconnection x)) x)) s.
Definition hook (hooked : bool) (r c : Z) (s : t) : t :=
  let s := on_conn c (fun x => set_slots (Opens r :: on_connection x) (set_ends (on_disconnection x ++ [r]) x)) s in
  if live (conns s c) then if opened (remotes s r) then s else open_ hooked r s
  else close_ hooked r s.
(** [Remote::connection]. *)
Definition attach (r c : Z) (s : t) : t :=
  let old := its (remotes s r) in
  let s := on_remote r (set_its c) s in
  let s := release old s in
  hook true r c (unhook r old s).

(** [Remote::Remote]. *)
Definition new_remote (c : Z) (s : t) : t :=
  let r := next_remote s in
  let s := set_remote r (mkRemote (id (conns s c)) c false None (now s) None) s in
  hook false r c s.

Definition find_peer (i : Addr) (s : t) : option Z :=
  list_find (fun r => rid (remotes s r) = i) (peer_cache s) ≫= fun p => Some p.2.

(** [Dock::make_peer] of a connection. *)
Definition make_peer (c : Z) (ignored_result : bool) : dock (option Z) :=
  s ← read;
  match find_peer (id (conns s c)) s with
  | Some r =>
      let x := conns s (its (remotes s r)) in
      when (negb (its (remotes s r) =? c) && (negb (connected x) || disconnected x))
        (modify (attach r c));;
      mret (Some r)
  | None =>
      if ignored_result && negb (observed s) then mret None
      else
        assert (negb (bool_decide (id (conns s c) = null_addr)));;
        let r := next_remote s in
        modify (new_remote c);;
        modify (fun s => set_peer_cache (r + 1) (peer_cache s ++ [r]) s);;
        modify (emit (OnPeer r));;
        mret (Some r)
  end.

(** [Dock::make_peer] of a location; [None] is the node itself. *)
Definition make_peer_at (l : NodeLocation) : dock (option Z) :=
  assert (negb (bool_decide (loc_id l = null_addr)));;
  s ← read;
  if bool_decide (loc_id l = self s) then mret None
  else
    match find_peer (loc_id l) s with
    | Some r => mret (Some r)
    | None => c ← connect l false; make_peer c false
    end.

Definition remote_connect (r : Z) : dock unit :=
  s ← read;
  when (negb (opened (remotes s r)))
    (let x := conns s (its (remotes s r)) in
     when (disconnected x) (c ← connect (location x) false; modify (attach r c))).

Definition reconnect (r : Z) : dock unit :=
  modify (clear_exception r);;
  s ← read;
  let c := its (remotes s r) in
  modify (disconnect c);;
  modify (fun s =>
    if connected (conns s c)
    then on_remote r (set_last (disconnected_exception (conns s c))) s else s);;
  modify (on_remote r (set_connecting_since (now s)));;
  s ← read;
  connect (location (conns s c)) false;;
  mret tt.

(** [~Remote], and the end of its members. *)
Definition destroy_remote (r : Z) (s : t) : t :=
  let c := its (remotes s r) in
  let s := set_peer_cache (next_remote s) (without r (peer_cache s)) s in
  release c (unhook r c (disconnect c s)).

(** *** The coroutine of a connection *)

Definition start (c : Z) (s : t) : t :=
  match thread (conns s c) with Starting => on_conn c (set_thread Connecting) s | _ => s end.

(** Every endpoint failed. *)
Definition failed (c : Z) (s : t) : t :=
  match thread (conns s c) with
  | Connecting =>
      let s := on_conn c (fun x =>
        set_exception (Some ConnectionRefused) (set_since (now s) (set_disconnected x))) s in
      release c (fire_disconnection c (forget c s))
  | _ => s
  end.

Definition call_slot (c : Z) (x : slot) : dock unit :=
  match x with
  | Opens r => modify (open_ true r)
  | Makes => make_peer c true;; mret tt
  end.
Fixpoint call_slots (c : Z) (l : list slot) : dock unit :=
  match l with
  | [] => mret tt
  | x :: l => call_slot c x;; call_slots c l
  end.

(** What follows the handshake: a duplicate is dropped, otherwise the connection is
    one, and serves if something holds it. *)
Definition drop_duplicate (c : Z) (s : t) : t :=
  release c (on_conn c (set_ends []) (forget c (on_conn c set_disconnected s))).
Definition established (c : Z) : dock unit :=
  s ← read;
  assert (negb (bool_decide (id (conns s c) = null_addr)));;
  match find_connected (id (conns s c)) s with
  | Some _ => modify (drop_duplicate c)
  | None =>
      modify (on_conn c (fun x => set_thread Serving (set_connected x)));;
      modify (fun s => set_connecting (without c (connecting s)) (set_connected_ (connected_ s ++ [c]) s));;
      modify (emit (OnConnection c));;
      call_slots c (on_connection (conns s c));;
      modify (on_conn c (set_slots []));;
      modify (fun s =>
        if held c s then s
        else on_conn c bury (on_conn c (set_thread Stopped) (set_connected_ (without c (connected_ s)) s)))
  end.

(** An endpoint answers that it is the node [i]: it is given up if it should not
    be. *)
Definition accepts (expected i : Addr) (s : t) : bool :=
  negb (bool_decide (i = self s)) &&
  (bool_decide (expected = null_addr) || bool_decide (expected = i)).
Definition handshaken (c : Z) (i : Addr) : dock unit :=
  s ← read;
  when (bool_decide (thread (conns s c) = Connecting) && accepts (id (conns s c)) i s)
    (when (bool_decide (id (conns s c) = null_addr)) (modify (on_conn c (set_id i)));; established c).

(** The connection fell, or ended. *)
Definition lost (c : Z) (e : exn) (s : t) : t :=
  match thread (conns s c) with
  | Serving => release c (cleanup c (on_conn c (set_exception (Some e)) s))
  | _ => s
  end.

(** [Dock::disconnect]. *)
Definition dock_disconnect (s : t) : t :=
  let s := fold_left (fun s c => release c (disconnect c s)) (connecting s ++ connected_ s) s in
  fold_left (fun s r => disconnect (its (remotes s r)) s) (peer_cache s) s.

(** *** Calls over a remote: [safe_perform] *)

Section Call.
Context {A : Type} (rpc_timeout soft_fail : Z).

(** How a wait for the remote ends, and a call. *)
Inductive waited := Opened | Raised | Elapsed.
Inductive outcome :=
  | Done (a : A)
  | NetworkFailure (timer : bool)    (* by the timer of the call, or not *)
  | Failure (x : X).
Inductive verdict :=
  | Returned (a : A)
  | Thrown (e : exn)
  | Failed (x : X)
  | Again.

Definition begin_call (r : Z) : dock unit :=
  s ← read;
  let x := conns s (its (remotes s r)) in
  when (disconnected x || negb (connected x) && (rpc_timeout <=? now s - disconnected_since x))
    (reconnect r).

(** What is left of the time of the call, and of the patience with the remote, when
    a turn of the loop begins. *)
Definition delays (rpc_start : Z) (r : Z) (s : t) : Z * Z :=
  (rpc_timeout - (now s - rpc_start), soft_fail - (now s - connecting_since (remotes s r))).

Definition retry (b : bool) (d : Z * Z) (r : Z) : dock verdict :=
  if b then reconnect r;; mret Again
  else if d.1 <? d.2 then mret (Thrown TimeOut)
  else
    s ← read;
    match last_exception (remotes s r) with
    | Some e => mret (Thrown e)
    | None => throw AssertError
    end.
Definition perform_turn (w : waited) (o : outcome) (d : Z * Z) (r : Z) : dock verdict :=
  match w with
  | Opened =>
      match o with
      | Done a => mret (Returned a)
      | Failure x => mret (Failed x)
      | NetworkFailure timer =>
          when timer (modify (on_remote r (set_last (Some TimeOut))));;
          retry (negb timer) d r
      end
  | Raised => retry true d r
  | Elapsed => retry false d r
  end.
End Call.

(** *** A dock at work *)

Inductive event :=
  | Connect (l : NodeLocation) (no_remote : bool)
  | Drop (c : Z)
  | MakePeer (l : NodeLocation)
  | Start (c : Z)
  | Handshaken (c : Z) (i : Addr)
  | Fail (c : Z)
  | Lose (c : Z) (e : exn)
  | RemoteConnect (r : Z)
  | Reconnect (r : Z)
  | RemoteDisconnect (r : Z)
  | DropRemote (r : Z)
  | Disconnect
  | Elapse (n : Z).

Fixpoint remove_one (c : Z) (l : list Z) : list Z :=
  match l with [] => [] | d :: l => if decide (d = c) then l else d :: remove_one c l end.

(** Methods are called on connections and remotes that exist. *)
Definition known (r : Z) (s : t) : bool := bool_decide (r ∈ peer_cache s).
Definition handle (e : event) : dock unit :=
  s ← read;
  match e with
  | Connect l n => c ← connect l n; modify (fun s => set_callers (callers s ++ [c]) s)
  | Drop c =>
      when (bool_decide (c ∈ callers s))
        (modify (fun s => release c (set_callers (remove_one c (callers s)) s)))
  | MakePeer l => make_peer_at l;; mret tt
  | Start c => when (alive (conns s c)) (modify (start c))
  | Handshaken c i => when (alive (conns s c)) (handshaken c i)
  | Fail c => when (alive (conns s c)) (modify (failed c))
  | Lose c e => when (alive (conns s c)) (modify (lost c e))
  | RemoteConnect r => when (known r s) (remote_connect r)
  | Reconnect r => when (known r s) (reconnect r)
  | RemoteDisconnect r => when (known r s) (modify (disconnect (its (remotes s r))))
  | DropRemote r => when (known r s) (modify (destroy_remote r))
  | Disconnect => modify dock_disconnect
  | Elapse n => modify (set_now (now s + Z.max 0 n))
  end.

(** Connections make a remote, and nodes and peers have an address. *)
Definition allowed (e : event) : Prop :=
  match e with
  | Connect _ no_remote => no_remote = false
  | Handshaken _ i => i <> null_addr
  | MakePeer l => loc_id l <> null_addr
  | _ => True
  end.

(** A dock without connections. *)
Definition begins (i : Addr) (o : bool) : t :=
  mkDock i o 0
    (fun _ => mkConnection (mkLocation null_addr ∅) Stopped false false 0 None [] [] false) 0 [] [] []
    (fun _ => mkRemote null_addr 0 false None 0 None) 0 [] [].

Definition run (es : list event) (s : t) : result error unit * t :=
  fold_left (fun rs e => match rs.1 with Ok _ => handle e rs.2 | Throw _ => rs end) es (Ok tt, s).
End Dock.
Arguments exn : clear implicits.
Arguments t : clear implicits.
Arguments connection : clear implicits.
Arguments remote : clear implicits.
Arguments event : clear implicits.
End Dock.
