(* ===== verification/DockProperties.v ===== *)
(** What the operations of Docks.v do, and the invariants of a dock: who is in its
    lists, who holds what, and what remotes believe. *)

From stdpp Require Import base tactics functions option gmap list.
From Stdlib Require Import ZArith Lia.
From S2P Require Import Prelude Addresses Nodes Kouncil Docks.
Import Kouncil (NodeLocation, mkLocation, loc_id, loc_endpoints).
Import Dock.
Open Scope Z_scope.

Section Properties.
Context {X : Type}.

Implicit Types (s : t X) (c r : Z) (x : connection X) (p : remote X) (e : option (exn X)).

(** *** Barriers *)

(** A change of the barriers of remotes, and of nothing that connections see. *)
Record calm s s' : Prop := {
  ca_self : self s' = self s;
  ca_observed : observed s' = observed s;
  ca_conns : conns s' = conns s;
  ca_next_conn : next_conn s' = next_conn s;
  ca_connecting : connecting s' = connecting s;
  ca_connected : connected_ s' = connected_ s;
  ca_callers : callers s' = callers s;
  ca_next_remote : next_remote s' = next_remote s;
  ca_cache : peer_cache s' = peer_cache s;
  ca_rid r : rid (remotes s' r) = rid (remotes s r);
  ca_its r : its (remotes s' r) = its (remotes s r)
}.

Lemma calm_refl s : calm s s.
Proof. by split. Qed.
Lemma calm_trans s1 s2 s3 : calm s1 s2 -> calm s2 s3 -> calm s1 s3.
Proof. intros [] []. split; intros; etrans; eauto. Qed.
Lemma calm_remote r f s : (forall p, rid (f p) = rid p /\ its (f p) = its p) ->
  calm s (on_remote r f s).
Proof.
  intros F. split; try done; intros r'; cbn; rewrite fn_insert_eq;
    destruct (decide (r = r')) as [->|]; try done; apply F.
Qed.
Lemma calm_emit a s : calm s (emit a s).
Proof. by split. Qed.

Definition barrier r s : bool * option (exn X) := (opened (remotes s r), refused (remotes s r)).

(** [s'] is [s] but for the barrier of [r], which is as [b] and [e] say. *)
Record sets r b e s s' : Prop := {
  se_calm : calm s s';
  se_barrier : barrier r s' = (b, e);
  se_others r' : r' <> r -> remotes s' r' = remotes s r'
}.

Lemma sets_remote r f s b e : (forall p, rid (f p) = rid p /\ its (f p) = its p) ->
  opened (f (remotes s r)) = b -> refused (f (remotes s r)) = e -> sets r b e s (on_remote r f s).
Proof.
  intros F <- <-. split; [by apply calm_remote|unfold barrier|]; cbn.
  - by rewrite fn_lookup_insert.
  - intros r' N. by rewrite fn_lookup_insert_ne.
Qed.
Lemma sets_trans r b1 e1 b2 e2 s1 s2 s3 : sets r b1 e1 s1 s2 -> sets r b2 e2 s2 s3 -> sets r b2 e2 s1 s3.
Proof.
  intros [] []. split; [by eapply calm_trans|done|]. intros r' N. by rewrite se_others1, se_others0.
Qed.
Lemma sets_emit r a s b e : barrier r s = (b, e) -> sets r b e s (emit a s).
Proof. by split. Qed.
Lemma sets_refl r s b e : barrier r s = (b, e) -> sets r b e s s.
Proof. split; [apply calm_refl|done|done]. Qed.

Lemma open_sets h r s : sets r true None s (open_ h r s).
Proof.
  unfold open_. destruct (opened (remotes s r)); [by apply sets_remote|].
  set (s1 := on_remote r _ s). assert (sets r true (refused (remotes s r)) s s1) as S1 by by apply sets_remote.
  eapply sets_trans; [|by apply sets_remote]. eapply sets_trans; [exact S1|].
  destruct h; [|by apply sets_refl, S1]. set (s2 := on_remote r (set_last None) s1).
  assert (sets r true (refused (remotes s r)) s1 s2) as S2.
  { destruct S1 as [_ [=] _]. by apply sets_remote. }
  destruct (refused (remotes s r)); [done|]. eapply sets_trans; [exact S2|]. apply sets_emit, S2.
Qed.

Lemma close_sets h r s : exists e, sets r false e s (close_ h r s).
Proof.
  unfold close_. destruct (opened (remotes s r)) eqn:O.
  - exists None. destruct h; [eapply sets_trans; [|by apply sets_emit; unfold barrier; cbn; rewrite fn_lookup_insert]|];
      by apply sets_remote.
  - exists (refused (remotes s r)). apply sets_refl. unfold barrier. by rewrite O.
Qed.

Lemma raise_sets r e s : sets r true e s (raise_ r e s).
Proof.
  unfold raise_. set (s1 := on_remote r _ s).
  assert (sets r (opened (remotes s r)) e s s1) as S1 by by apply sets_remote.
  eapply sets_trans; [exact S1|]. eapply sets_trans; [apply open_sets|]. by apply sets_remote.
Qed.

(** What the end of [c] does to the remotes that hear of it. *)
Lemma disconnection_sets r s : exists e,
  sets r (negb (connected (conns s (its (remotes s r))))) e s (disconnection_slot r s) /\
  (connected (conns s (its (remotes s r))) = false ->
   e = disconnected_exception (conns s (its (remotes s r)))).
Proof.
  unfold disconnection_slot. destruct (connected _); cbn [negb].
  - destruct (close_sets true r s) as [e S]. by exists e.
  - eexists. split; [apply raise_sets|done].
Qed.

(** Every remote of [l], whose connection is [c], is closed if it was connected, and
    refuses otherwise. *)
Lemma fire_spec l c s : (forall r, r ∈ l -> its (remotes s r) = c) ->
  let s' := fold_left (fun s r => disconnection_slot r s) l s in
  calm s s' /\ forall r,
    if decide (r ∈ l) then
      opened (remotes s' r) = negb (connected (conns s c)) /\
      (connected (conns s c) = false -> refused (remotes s' r) = disconnected_exception (conns s c))
    else barrier r s' = barrier r s.
Proof.
  revert s. induction l as [|r0 l IH]; intros s I; cbn.
  { split; [apply calm_refl|done]. }
  destruct (disconnection_sets r0 s) as (e & [C B O] & E). rewrite (I r0) in B, E by left.
  destruct (IH (disconnection_slot r0 s)) as [C' F].
  { intros r R. rewrite (ca_its _ _ C). apply I. by right. }
  split; [by eapply calm_trans|]. intros r. specialize (F r). rewrite (ca_conns _ _ C) in F.
  destruct (decide (r ∈ l)) as [R|R].
  - rewrite decide_True by by right. done.
  - destruct (decide (r = r0)) as [->|N].
    + rewrite decide_True by left. rewrite B in F. injection F as -> ->. split; [done|].
      intros K. by apply E.
    + rewrite decide_False by (rewrite elem_of_cons; naive_solver). rewrite F. unfold barrier. by rewrite O.
Qed.

(** *** The invariant *)

(** Connections that connect are in one list and those that serve in another, once;
    those that connect hold themselves. Serving is being connected, and not
    disconnected. A remote holds its connection, which is to the same node and
    tells it when it starts and ends; there is one remote for a node, and one
    connection that serves. *)
Record core s : Prop := {
  co_fresh c : alive (conns s c) = true -> c < next_conn s;
  co_dead c : alive (conns s c) = false -> thread (conns s c) = Stopped;
  co_connected c : c ∈ connected_ s <-> alive (conns s c) = true /\ thread (conns s c) = Serving;
  co_connecting c : c ∈ connecting s <->
    alive (conns s c) = true /\ (thread (conns s c) = Starting \/ thread (conns s c) = Connecting);
  co_once : NoDup (connected_ s) /\ NoDup (connecting s) /\ NoDup (peer_cache s);
  co_flags c : alive (conns s c) = true ->
    match thread (conns s c) with
    | Serving => connected (conns s c) = true /\ disconnected (conns s c) = false /\ id (conns s c) <> null_addr
    | Stopped => live (conns s c) = false
    | _ => connected (conns s c) = false /\ disconnected (conns s c) = false
    end;
  co_makes c : c ∈ connecting s -> Makes ∈ on_connection (conns s c);
  co_ids c c' : c ∈ connected_ s -> c' ∈ connected_ s -> id (conns s c) = id (conns s c') -> c = c';
  co_callers c : c ∈ callers s -> alive (conns s c) = true;
  co_remote r : r ∈ peer_cache s ->
    r < next_remote s /\ alive (conns s (its (remotes s r))) = true /\
    id (conns s (its (remotes s r))) = rid (remotes s r) /\ rid (remotes s r) <> null_addr;
  co_unique r r' : r ∈ peer_cache s -> r' ∈ peer_cache s -> rid (remotes s r) = rid (remotes s r') -> r = r';
  co_opens c r : alive (conns s c) = true -> Opens r ∈ on_connection (conns s c) ->
    r ∈ peer_cache s /\ its (remotes s r) = c;
  co_ends c r : alive (conns s c) = true -> r ∈ on_disconnection (conns s c) ->
    r ∈ peer_cache s /\ its (remotes s r) = c;
  co_hooked r : r ∈ peer_cache s -> thread (conns s (its (remotes s r))) <> Stopped ->
    r ∈ on_disconnection (conns s (its (remotes s r))) /\
    (its (remotes s r) ∈ connecting s -> Opens r ∈ on_connection (conns s (its (remotes s r))))
}.

(** The remote of a node has the connection that serves to it, but for [b]; there
    is one, if anything makes them. *)
Definition matched (b : option Z) s : Prop := forall r c, r ∈ peer_cache s -> c ∈ connected_ s ->
  Some c <> b -> id (conns s c) = rid (remotes s r) -> its (remotes s r) = c.
Definition peered (b : option Z) s : Prop := observed s = true -> forall c, c ∈ connected_ s ->
  Some c <> b -> exists r, r ∈ peer_cache s /\ its (remotes s r) = c.
(** A remote is open if its connection serves, and only then unless it refuses. *)
Definition faithful (b : option Z) s : Prop := forall r, r ∈ peer_cache s ->
  (opened (remotes s r) = true -> refused (remotes s r) = None -> its (remotes s r) ∈ connected_ s) /\
  (its (remotes s r) ∈ connected_ s -> Some (its (remotes s r)) <> b -> opened (remotes s r) = true).

Record inv (b : option Z) s : Prop := {
  in_core : core s;
  in_matched : matched b s;
  in_peered : peered b s;
  in_faithful : faithful b s
}.

Lemma core_calm s s' : core s -> calm s s' -> core s'.
Proof.
  intros [] []. split; intros; rewrite ?ca_conns0, ?ca_next_conn0, ?ca_connecting0, ?ca_connected0,
    ?ca_callers0, ?ca_next_remote0, ?ca_cache0, ?ca_rid0, ?ca_its0 in *; eauto.
  by apply co_flags0.
Qed.

Lemma inv_calm b s s' : inv b s -> calm s s' -> faithful b s' -> inv b s'.
Proof.
  intros [] Ca F. split; [by eapply core_calm| | |done].
  - intros r c. destruct Ca. rewrite ca_cache0, ca_connected0, ca_conns0, ca_rid0, ca_its0.
    apply in_matched0.
  - destruct Ca. intros O c. rewrite ca_connected0. rewrite ca_observed0 in O. intros I N.
    destruct (in_peered0 O c I N) as (r & J & E). exists r. by rewrite ca_cache0, ca_its0.
Qed.

(** Setting the barrier of a remote to what its connection is. *)
Lemma faithful_sets b o e r s s' : faithful b s -> sets r o e s s' ->
  (r ∈ peer_cache s -> its (remotes s r) ∉ connected_ s -> o = true -> e <> None) ->
  (r ∈ peer_cache s -> its (remotes s r) ∈ connected_ s -> Some (its (remotes s r)) <> b -> o = true) ->
  faithful b s'.
Proof.
  intros F [[] B O] H1 H2 r'. rewrite ca_cache0, ca_its0, ca_connected0. intros I.
  destruct (decide (r' = r)) as [->|N].
  - unfold barrier in B. injection B as -> ->. split; [|by apply H2].
    intros -> E. destruct (decide (its (remotes s r) ∈ connected_ s)) as [|M]; [done|].
    by destruct (H1 I M).
  - rewrite O by done. by apply F.
Qed.

Lemma inv_sets b o e r s s' : inv b s -> sets r o e s s' ->
  (r ∈ peer_cache s -> its (remotes s r) ∉ connected_ s -> o = true -> e <> None) ->
  (r ∈ peer_cache s -> its (remotes s r) ∈ connected_ s -> Some (its (remotes s r)) <> b -> o = true) ->
  inv b s'.
Proof.
  intros K S H1 H2. eapply inv_calm; [done|apply S|]. eapply faithful_sets; try done. apply K.
Qed.

(** Changes of what is not in the invariant. *)
Lemma inv_unchanged b s s' : inv b s -> calm s s' -> (forall r, barrier r s' = barrier r s) -> inv b s'.
Proof.
  intros K C B. eapply inv_calm; [done|done|]. intros r. specialize (B r). unfold barrier in B.
  injection B as -> ->. destruct C. rewrite ca_cache0, ca_its0, ca_connected0. apply K.
Qed.

(** *** The end of connections *)

(** [c] is over: it is [x], and in no list of those that are not. *)
Record stopped c x s s' : Prop := {
  st_self : self s' = self s;
  st_observed : observed s' = observed s;
  st_conn : conns s' c = x;
  st_conns c' : c' <> c -> conns s' c' = conns s c';
  st_next_conn : next_conn s' = next_conn s;
  st_connecting : connecting s' = without c (connecting s);
  st_connected : connected_ s' = without c (connected_ s);
  st_callers : callers s' = callers s;
  st_next_remote : next_remote s' = next_remote s;
  st_cache : peer_cache s' = peer_cache s;
  st_rid r : rid (remotes s' r) = rid (remotes s r);
  st_its r : its (remotes s' r) = its (remotes s r)
}.

Lemma core_stopped c x s s' : core s -> alive (conns s c) = true -> stopped c x s s' ->
  thread x = Stopped -> location x = location (conns s c) -> alive x = true -> live x = false ->
  (forall r, Opens r ∉ on_connection x) ->
  (forall r, r ∈ on_disconnection x -> r ∈ on_disconnection (conns s c)) -> core s'.
Proof.
  intros [] A [] T L Ax Lv Sl En.
  assert (forall c', c' = c \/ c' <> c /\ conns s' c' = conns s c') as Ca.
  { intros c'. destruct (decide (c' = c)); [by left|right; auto]. }
  assert (forall c', id (conns s' c') = id (conns s c')) as Id.
  { intros c'. destruct (Ca c') as [->|[_ ->]]; [|done]. by rewrite st_conn0; unfold id; rewrite L. }
  assert (forall c', alive (conns s' c') = alive (conns s c')) as Al.
  { intros c'. destruct (Ca c') as [->|[_ ->]]; [|done]. by rewrite st_conn0, Ax. }
  split; intros *; rewrite ?Id, ?Al, ?st_next_conn0, ?st_connecting0, ?st_connected0, ?st_callers0,
    ?st_next_remote0, ?st_cache0, ?st_rid0, ?st_its0, ?Id, ?Al; try by eauto.
  - intros N. destruct (Ca c0) as [->|[_ ->]]; [congruence|auto].
  - rewrite elem_of_without. destruct (Ca c0) as [->|[N ->]].
    + rewrite st_conn0, T. naive_solver.
    + rewrite co_connected0. naive_solver.
  - rewrite elem_of_without. destruct (Ca c0) as [->|[N ->]].
    + rewrite st_conn0, T. naive_solver.
    + rewrite co_connecting0. naive_solver.
  - destruct co_once0 as (? & ? & ?). split_and!; try done; by apply NoDup_without.
  - intros Ac. destruct (Ca c0) as [->|[N ->]]; [by rewrite st_conn0, T|by apply co_flags0].
  - rewrite elem_of_without. intros [N I]. destruct (Ca c0) as [->|[_ ->]]; [done|auto].
  - rewrite !elem_of_without. naive_solver.
  - intros Ac I. destruct (Ca c0) as [->|[N E]]; [by rewrite st_conn0 in I; apply Sl in I|].
    rewrite E in I. eauto.
  - intros Ac I. destruct (Ca c0) as [->|[N E]]; [rewrite st_conn0 in I; apply En in I|rewrite E in I]; eauto.
  - intros I. rewrite elem_of_without. destruct (Ca (its (remotes s r))) as [E|[N ->]].
    + rewrite E, st_conn0. by intros [].
    + intros Th. destruct (co_hooked0 r I Th). naive_solver.
Qed.

(** What is excepted is at most [c]. *)
Definition only (b : option Z) c : Prop := forall c', c' <> c -> Some c' <> b.
Lemma only_None c : only None c.
Proof. done. Qed.
Lemma only_Some c : only (Some c) c.
Proof. intros c' N. congruence. Qed.
Hint Resolve only_None only_Some : core.

Lemma inv_unserved b c s : inv b s -> only b c -> c ∉ connected_ s -> inv None s.
Proof.
  intros [Co M P F] Ob N. split; [done|..].
  - intros r c' I J _. apply M; [done|done|]. apply Ob. congruence.
  - intros O c' I _. apply P; [done|done|]. apply Ob. congruence.
  - intros r I. destruct (F r I) as [F1 F2]. split; [done|]. intros J _. apply F2; [done|]. apply Ob. congruence.
Qed.

Lemma inv_stopped b c x s s' : inv b s -> only b c -> alive (conns s c) = true -> stopped c x s s' ->
  thread x = Stopped -> location x = location (conns s c) -> alive x = true -> live x = false ->
  (forall r, Opens r ∉ on_connection x) ->
  (forall r, r ∈ on_disconnection x -> r ∈ on_disconnection (conns s c)) ->
  (forall r, r ∈ peer_cache s -> its (remotes s r) <> c -> barrier r s' = barrier r s) ->
  (forall r, r ∈ peer_cache s -> its (remotes s r) = c -> opened (remotes s' r) = true ->
     refused (remotes s' r) <> None) -> inv None s'.
Proof.
  intros [Co M P F] Ob A St T L Ax Lv Sl En B1 B2. split.
  - by eapply core_stopped.
  - destruct St. intros r c'. rewrite st_cache0, st_connected0, st_its0, st_rid0, elem_of_without.
    intros I [N J] _. rewrite st_conns0 by done. apply M; auto.
  - destruct St. intros O c'. rewrite st_connected0, elem_of_without. intros [N J] _.
    rewrite st_observed0 in O. destruct (P O c' J) as (r & I & E); [by apply Ob|]. exists r.
    by rewrite st_cache0, st_its0.
  - destruct St. intros r. rewrite st_cache0, st_its0, st_connected0, elem_of_without. intros I.
    destruct (decide (its (remotes s r) = c)) as [E|N].
    + split; [|by intros []]. intros O R. by destruct (B2 r I E O).
    + specialize (B1 r I N). unfold barrier in B1. injection B1 as -> ->. destruct (F r I) as [F1 F2].
      split; [split; auto|]. intros [_ J] _. apply F2; auto.
Qed.

Lemma stopped_on_conn c f x s s' : stopped c x (on_conn c f s) s' -> stopped c x s s'.
Proof.
  intros []. split; try done. intros c' N. rewrite st_conns0 by done. cbn. by rewrite fn_lookup_insert_ne.
Qed.
Lemma stopped_then c g x s s' : stopped c x s s' -> stopped c (g x) s (on_conn c g s').
Proof.
  intros []. split; try done; cbn.
  - by rewrite fn_lookup_insert, st_conn0.
  - intros c' N. rewrite fn_lookup_insert_ne by done. by apply st_conns0.
Qed.
Lemma stopped_calm c x s s1 s2 : stopped c x s s1 -> calm s1 s2 -> stopped c x s s2.
Proof.
  intros [] []. split; intros; rewrite ?ca_self0, ?ca_observed0, ?ca_conns0, ?ca_next_conn0,
    ?ca_connecting0, ?ca_connected0, ?ca_callers0, ?ca_next_remote0, ?ca_cache0, ?ca_rid0, ?ca_its0; auto.
Qed.

Lemma not_listed s c : core s -> thread (conns s c) = Stopped -> (c ∉ connected_ s) /\ (c ∉ connecting s).
Proof.
  intros K T. split.
  - intros [_ ?]%(co_connected _ K). congruence.
  - intros [_ [?|?]]%(co_connecting _ K); congruence.
Qed.

Lemma forget_stopped c s : c ∉ connected_ s ->
  stopped c (set_thread Stopped (set_slots [] (conns s c))) s (forget c s).
Proof.
  intros N. split; try done; cbn.
  - by rewrite fn_lookup_insert.
  - intros c' N'. by rewrite fn_lookup_insert_ne.
  - by rewrite without_not_in.
Qed.

(** The coroutine ends before it was connected: [y] is what is left. *)
Lemma inv_forgotten b c y s s' : inv b s -> only b c -> c ∈ connecting s -> stopped c y s s' ->
  thread y = Stopped -> location y = location (conns s c) -> alive y = true -> connected y = false ->
  (forall r, Opens r ∉ on_connection y) ->
  (forall r, r ∈ on_disconnection y -> r ∈ on_disconnection (conns s c)) ->
  (forall r, r ∈ peer_cache s -> its (remotes s r) <> c -> barrier r s' = barrier r s) ->
  (forall r, r ∈ peer_cache s -> its (remotes s r) = c ->
     barrier r s' = barrier r s \/ refused (remotes s' r) <> None) ->
  inv None s'.
Proof.
  intros K Ob I St T L A C Sl En B1 B2. pose proof (in_core _ _ K) as Co.
  pose proof I as [Al Th]%(co_connecting _ Co).
  eapply (inv_stopped b c y s); try done.
  - unfold live. by rewrite C.
  - intros r J E O R. destruct (B2 r J E) as [B|]; [|done]. unfold barrier in B. injection B as B B'.
    destruct (in_faithful _ _ K r J) as [F _]. rewrite E in F.
    assert (c ∈ connected_ s) as [_ ?]%(co_connected _ Co) by (apply F; congruence).
    destruct Th; congruence.
Qed.

Lemma connecting_not_connected c s : core s -> c ∈ connecting s ->
  (c ∉ connected_ s) /\ alive (conns s c) = true /\ connected (conns s c) = false /\
  disconnected (conns s c) = false.
Proof.
  intros Co I. pose proof I as [Al Th]%(co_connecting _ Co). split_and!; [|done|..].
  - intros [_ ?]%(co_connected _ Co). destruct Th; congruence.
  - pose proof (co_flags _ Co c Al) as F. destruct Th as [T|T]; rewrite T in F; apply F.
  - pose proof (co_flags _ Co c Al) as F. destruct Th as [T|T]; rewrite T in F; apply F.
Qed.

Lemma inv_forget b c s : inv b s -> only b c -> c ∈ connecting s -> inv None (forget c s).
Proof.
  intros K Ob I. pose proof (in_core _ _ K) as Co.
  destruct (connecting_not_connected c s Co I) as (N & A & C & _).
  eapply (inv_forgotten b c _ s); [done|done|done|by apply forget_stopped|done..| | | |]; cbn.
  - intros r. apply not_elem_of_nil.
  - done.
  - done.
  - by left.
Qed.

(** The coroutine ends after it was. *)
Definition cleaned (n : Z) x : connection X :=
  set_ends [] (set_thread Stopped (set_slots [] (set_since n (set_disconnected x)))).
Lemma inv_cleanup b c s : inv b s -> only b c -> c ∈ connected_ s ->
  inv None (cleanup c s) /\ stopped c (cleaned (now s) (conns s c)) s (cleanup c s) /\
  forall r, opened (remotes (cleanup c s) r) = true -> barrier r (cleanup c s) = barrier r s.
Proof.
  intros K Ob I. pose proof (in_core _ _ K) as Co.
  pose proof I as [Al T]%(co_connected _ Co). pose proof (co_flags _ Co c Al) as Fl. rewrite T in Fl.
  destruct Fl as (Fc & Fd & _).
  assert (c ∉ connecting s) as N by (intros [_ [?|?]]%(co_connecting _ Co); congruence).
  unfold cleanup, fire_disconnection. set (s1 := set_connected_ (without c (connected_ s)) s).
  set (g := fun x => set_thread Stopped (set_slots [] (set_since (now s1) (set_disconnected x)))).
  set (s2 := on_conn c g s1).
  assert (stopped c (g (conns s c)) s s2) as St.
  { split; try done; cbn; rewrite ?fn_lookup_insert; try done.
    - intros c' N'. by rewrite fn_lookup_insert_ne.
    - by rewrite without_not_in. }
  set (l := on_disconnection (conns s2 c)).
  assert (l = on_disconnection (conns s c)) as El by (subst l; rewrite (st_conn _ _ _ _ St); done).
  assert (forall r, r ∈ l -> r ∈ peer_cache s /\ its (remotes s r) = c) as In.
  { intros r. rewrite El. by apply (co_ends _ Co). }
  pose proof (fire_spec l c (emit (OnDisconnection c) s2)) as Fi. cbn zeta in Fi.
  destruct Fi as [C B]; [intros r R; by apply In|]. set (s3 := fold_left _ l _) in *.
  assert (connected (conns s2 c) = true) as C2 by by rewrite (st_conn _ _ _ _ St).
  cbn [conns emit] in B. rewrite C2 in B.
  assert (stopped c (set_ends [] (g (conns s c))) s (on_conn c (set_ends []) s3)) as S3.
  { apply stopped_then. eapply stopped_calm; [exact St|]. eapply calm_trans; [apply calm_emit|exact C]. }
  assert (forall r, opened (remotes s3 r) = true -> barrier r s3 = barrier r s) as Q.
  { intros r O. specialize (B r). destruct (decide (r ∈ l)); [|exact B]. destruct B as [B _]. cbn in B. congruence. }
  split; [|split; [exact S3|exact Q]].
  eapply (inv_stopped b c _ s); try done.
  - unfold live. cbn. by rewrite andb_false_r.
  - intros r. apply not_elem_of_nil.
  - intros r R. by apply not_elem_of_nil in R.
  - intros r J E. specialize (B r). rewrite decide_False in B; [exact B|]. intros R. by apply In in R as [_ ?].
  - intros r J E O R. specialize (B r). rewrite decide_True in B.
    + destruct B as [B _]. cbn in O, B. congruence.
    + rewrite El. rewrite <- E. apply (co_hooked _ Co r J). rewrite E, T. done.
Qed.

(** *** Connections that nothing holds *)

Lemma held_false c s : held c s = false ->
  (c ∉ callers s) /\ (forall r, r ∈ peer_cache s -> its (remotes s r) <> c) /\
  (Makes ∉ on_connection (conns s c)).
Proof.
  unfold held. rewrite !orb_false_iff, !bool_decide_eq_false. intros [[H1 H2] H3]. split_and!; try done.
  intros r I E. apply H2. apply list_elem_of_fmap. by exists r.
Qed.

Lemma inv_bury c s : inv None s -> thread (conns s c) = Stopped -> held c s = false ->
  inv None (on_conn c bury s).
Proof.
  intros [Co M P F] T (Nc & Nr & _)%held_false. pose proof (not_listed _ _ Co T) as [Ns Ng].
  assert (forall c', c' = c \/ c' <> c /\ conns (on_conn c bury s) c' = conns s c') as Ca.
  { intros c'. destruct (decide (c' = c)); [by left|right; cbn; by rewrite fn_lookup_insert_ne]. }
  assert (conns (on_conn c bury s) c = bury (conns s c)) as Ec by (cbn; by rewrite fn_lookup_insert).
  assert (forall c', alive (conns (on_conn c bury s) c') = true -> c' <> c /\ conns (on_conn c bury s) c' = conns s c') as Al.
  { intros c' A. destruct (Ca c') as [->|H]; [by rewrite Ec in A|done]. }
  assert (forall c', c' ∈ connected_ s \/ c' ∈ connecting s -> conns (on_conn c bury s) c' = conns s c') as Li.
  { intros c' I. destruct (Ca c') as [->|[_ ->]]; [naive_solver|done]. }
  assert (forall r, r ∈ peer_cache s -> conns (on_conn c bury s) (its (remotes s r)) = conns s (its (remotes s r))) as Ri.
  { intros r I. destruct (Ca (its (remotes s r))) as [E|[_ ->]]; [|done]. by destruct (Nr r I). }
  split.
  - destruct Co. split; try done; cbn [connected_ connecting peer_cache callers remotes next_conn next_remote on_conn set_conn].
    + intros c' A. pose proof (Al c' A) as [_ E]. rewrite E in A. by apply co_fresh0.
    + intros c'. destruct (Ca c') as [->|[_ ->]]; [rewrite Ec; done|apply co_dead0].
    + intros c'. destruct (Ca c') as [->|[_ ->]]; [rewrite Ec; cbn; naive_solver|apply co_connected0].
    + intros c'. destruct (Ca c') as [->|[_ ->]]; [rewrite Ec; cbn; naive_solver|apply co_connecting0].
    + intros c' A. pose proof (Al c' A) as [_ E]. rewrite E in *. by apply co_flags0.
    + intros c' I. rewrite Li by auto. by apply co_makes0.
    + intros c1 c2 I1 I2. rewrite !Li by auto. by apply co_ids0.
    + intros c' I. destruct (Ca c') as [->|[_ ->]]; [done|by apply co_callers0].
    + intros r I. rewrite Ri by done. by apply co_remote0.
    + intros c' r A. pose proof (Al c' A) as [_ E]. rewrite E in *. by apply co_opens0.
    + intros c' r A. pose proof (Al c' A) as [_ E]. rewrite E in *. by apply co_ends0.
    + intros r I. rewrite Ri by done. by apply co_hooked0.
  - intros r c' I J N. cbn [connected_ on_conn set_conn] in J. rewrite Li by auto. by apply M.
  - exact P.
  - exact F.
Qed.

Lemma inv_release c s : inv None s -> inv None (release c s).
Proof.
  intros K. unfold release. destruct (alive (conns s c)) eqn:A; [|done].
  destruct (held c s) eqn:H; [done|]. cbn [andb negb]. pose proof (in_core _ _ K) as Co.
  pose proof (held_false _ _ H) as (Nc & Nr & Nm). unfold destroy.
  destruct (thread (conns s c)) eqn:T.
  1, 2: destruct Nm; apply (co_makes _ Co), (co_connecting _ Co); rewrite T; auto.
  - assert (c ∈ connected_ s) as I by by apply (co_connected _ Co).
    destruct (inv_cleanup None c s K) as (K' & [] & _); [done|done|].
    apply inv_bury; [done|by rewrite st_conn0|]. unfold held.
    rewrite st_callers0, st_cache0, st_conn0, !orb_false_iff, !bool_decide_eq_false.
    split_and!; [done| |apply not_elem_of_nil]. intros (r & E & J)%list_elem_of_fmap.
    rewrite st_its0 in E. by destruct (Nr r J).
  - by apply inv_bury.
Qed.

(** Changes to a connection that are not in the invariant. *)
Lemma inv_touch b c f s : inv b s ->
  (forall x, location (f x) = location x /\ thread (f x) = thread x /\ connected (f x) = connected x /\
     disconnected (f x) = disconnected x /\ on_connection (f x) = on_connection x /\
     on_disconnection (f x) = on_disconnection x /\ alive (f x) = alive x) ->
  inv b (on_conn c f s).
Proof.
  intros [Co M P F] Ff.
  assert (forall c', let x := conns s c' in let x' := conns (on_conn c f s) c' in
    location x' = location x /\ thread x' = thread x /\ connected x' = connected x /\
    disconnected x' = disconnected x /\ on_connection x' = on_connection x /\
    on_disconnection x' = on_disconnection x /\ alive x' = alive x) as Eq.
  { intros c'. cbn. rewrite fn_insert_eq. destruct (decide (c = c')) as [->|]; [apply Ff|done]. }
  split; try done.
  - destruct Co. split; try done; cbn [connected_ connecting peer_cache callers remotes next_conn next_remote on_conn set_conn].
    all: change (<[c := f (conns s c)]> (conns s)) with (conns (on_conn c f s));
      revert Eq; generalize (conns (on_conn c f s)); intros g Eq; unfold id, live; intros *;
      repeat match goal with
      | |- context [g ?c'] =>
        let L := fresh in let T := fresh in let C := fresh in let D := fresh in let O := fresh in
        let E := fresh in let A := fresh in
        destruct (Eq c') as (L & T & C & D & O & E & A);
        rewrite ?L, ?T, ?C, ?D, ?O, ?E, ?A; clear L T C D O E A end.
    all: eauto. by apply co_flags0.
  - intros r c'. destruct (Eq c') as [L _]. unfold id. rewrite L. apply M.
Qed.

(** [Connection::disconnect]: whatever it was, it is over. *)
Definition over c s s' : Prop :=
  thread (conns s' c) = Stopped /\
  (forall r, opened (remotes s' r) = true -> barrier r s' = barrier r s) /\
  (s' = s \/ exists x, stopped c x s s' /\ location x = location (conns s c) /\
     alive x = alive (conns s c) /\ connected x = connected (conns s c)).

Lemma inv_disconnect b c s : inv b s -> only b c ->
  inv None (disconnect c s) /\ over c s (disconnect c s).
Proof.
  intros K Ob. pose proof (in_core _ _ K) as Co. unfold disconnect.
  assert (thread (conns s c) = Stopped -> inv None s /\ over c s s) as Over.
  { intros T. split; [|split; auto]. eapply inv_unserved; [done|done|]. by apply (not_listed _ _ Co). }
  assert (c ∈ connecting s -> inv None (forget c s) /\ over c s (forget c s)) as Fg.
  { intros I. destruct (connecting_not_connected c s Co I) as (Nc & _). pose proof (forget_stopped c s Nc) as St.
    split; [by eapply inv_forget|]. split; [by rewrite (st_conn _ _ _ _ St)|]. split; [done|].
    right. eexists. by split_and!. }
  destruct (alive (conns s c)) eqn:A.
  2: { apply (co_dead _ Co) in A as T. rewrite T. destruct (disconnected _); by apply Over. }
  pose proof (co_flags _ Co c A) as Fl.
  destruct (thread (conns s c)) eqn:T.
  - destruct Fl as [_ ->]. apply Fg, (co_connecting _ Co). auto.
  - destruct Fl as [_ ->]. apply Fg, (co_connecting _ Co). auto.
  - destruct Fl as (_ & -> & _). assert (c ∈ connected_ s) as I by by apply (co_connected _ Co).
    destruct (inv_cleanup b c s K Ob I) as (K' & St & Q). split; [done|]. split; [by rewrite (st_conn _ _ _ _ St)|].
    split; [done|]. right. eexists. by split_and!.
  - destruct (disconnected _); by apply Over.
Qed.

Lemma inv_failed c s : inv None s -> alive (conns s c) = true -> inv None (failed c s).
Proof.
  intros K A. pose proof (in_core _ _ K) as Co. unfold failed.
  destruct (thread (conns s c)) eqn:T; try done. apply inv_release.
  assert (c ∈ connecting s) as I by (apply (co_connecting _ Co); auto).
  destruct (connecting_not_connected c s Co I) as (N & _ & C & _).
  set (f := fun x => set_exception _ _). set (s1 := forget c (on_conn c f s)).
  assert (stopped c (set_thread Stopped (set_slots [] (f (conns s c)))) s s1) as St.
  { pose proof (forget_stopped c (on_conn c f s) N) as S. cbn in S. rewrite fn_lookup_insert in S.
    by apply stopped_on_conn in S. }
  unfold fire_disconnection.
  assert (conns s1 c = set_thread Stopped (set_slots [] (f (conns s c)))) as E1 by apply St.
  assert (on_disconnection (conns s1 c) = on_disconnection (conns s c)) as El by by rewrite E1.
  rewrite El. set (l := on_disconnection (conns s c)).
  assert (forall r, r ∈ l -> r ∈ peer_cache s /\ its (remotes s r) = c) as In.
  { intros r. by apply (co_ends _ Co). }
  pose proof (fire_spec l c (emit (OnDisconnection c) s1)) as Fi. cbn zeta in Fi.
  destruct Fi as [Ca B]; [intros r R; by apply In|].
  cbn [conns emit] in B. rewrite E1 in B.
  eapply (inv_forgotten None c (set_thread Stopped (set_slots [] (f (conns s c)))) s); try done.
  - eapply stopped_calm; [exact St|]. eapply calm_trans; [apply calm_emit|exact Ca].
  - intros r. apply not_elem_of_nil.
  - intros r J E. specialize (B r). rewrite decide_False in B; [exact B|]. intros R. by apply In in R as [_ ?].
  - intros r J E. right. specialize (B r). rewrite decide_True in B.
    + destruct B as [_ B]. cbn in B. by rewrite B.
    + subst l. rewrite <- E. apply (co_hooked _ Co r J). rewrite E, T. done.
Qed.

Lemma inv_lost c (e : exn X) s : inv None s -> alive (conns s c) = true -> inv None (lost c e s).
Proof.
  intros K A. unfold lost. destruct (thread (conns s c)) eqn:T; try done. apply inv_release.
  apply (inv_cleanup None); [by apply inv_touch|done|]. cbn. by apply (co_connected _ (in_core _ _ K)).
Qed.

Lemma inv_drop_duplicate c s : inv None s -> c ∈ connecting s -> inv None (drop_duplicate c s).
Proof.
  intros K I. pose proof (in_core _ _ K) as Co. apply inv_release.
  destruct (connecting_not_connected c s Co I) as (N & A & C & _).
  eapply (inv_forgotten None c (set_ends [] (set_thread Stopped (set_slots [] (set_disconnected (conns s c))))) s);
    try done.
  - apply stopped_then. apply (stopped_on_conn c set_disconnected).
    pose proof (forget_stopped c (on_conn c set_disconnected s) N) as S. cbn in S.
    by rewrite fn_lookup_insert in S.
  - intros r. apply not_elem_of_nil.
  - intros r R. by apply not_elem_of_nil in R.
  - by left.
Qed.

(** *** Connections that start *)

Lemma inv_start c s : inv None s -> alive (conns s c) = true -> inv None (start c s).
Proof.
  intros [Co M P F] A. unfold start. destruct (thread (conns s c)) eqn:T; try done.
  assert (forall c', c' = c \/ c' <> c /\ conns (on_conn c (set_thread Connecting) s) c' = conns s c') as Ca.
  { intros c'. destruct (decide (c' = c)); [by left|right; cbn; by rewrite fn_lookup_insert_ne]. }
  assert (conns (on_conn c (set_thread Connecting) s) c = set_thread Connecting (conns s c)) as Ec
    by (cbn; by rewrite fn_lookup_insert).
  revert Ca Ec. set (s' := on_conn c _ s). intros Ca Ec.
  assert (forall c', id (conns s' c') = id (conns s c') /\ alive (conns s' c') = alive (conns s c') /\
    on_connection (conns s' c') = on_connection (conns s c') /\
    on_disconnection (conns s' c') = on_disconnection (conns s c') /\
    (thread (conns s' c') = Stopped <-> thread (conns s c') = Stopped)) as Eq.
  { intros c'. destruct (Ca c') as [->|[_ ->]]; [|done]. rewrite Ec, T. by split_and!. }
  split; try done.
  - pose proof Co as []. split; try done; change (connected_ s') with (connected_ s);
      change (connecting s') with (connecting s); change (peer_cache s') with (peer_cache s);
      change (callers s') with (callers s); change (remotes s') with (remotes s);
      change (next_conn s') with (next_conn s); change (next_remote s') with (next_remote s).
    + intros c'. destruct (Eq c') as (_ & -> & _). auto.
    + intros c'. destruct (Eq c') as (_ & -> & _ & _ & ->). auto.
    + intros c'. destruct (Ca c') as [->|[_ ->]]; [rewrite Ec|done]. cbn. rewrite co_connected0. naive_solver congruence.
    + intros c'. destruct (Ca c') as [->|[_ ->]]; [rewrite Ec|done]. cbn. rewrite co_connecting0. naive_solver congruence.
    + intros c'. destruct (Ca c') as [->|[_ ->]]; [rewrite Ec|by apply co_flags0]. cbn. intros _.
      pose proof (co_flags0 c A) as Fl. by rewrite T in Fl.
    + intros c'. destruct (Eq c') as (_ & _ & -> & _). auto.
    + intros c1 c2. destruct (Eq c1) as [-> _], (Eq c2) as [-> _]. auto.
    + intros c'. destruct (Eq c') as (_ & -> & _). auto.
    + intros r. destruct (Eq (its (remotes s r))) as (-> & -> & _). auto.
    + intros c' r. destruct (Eq c') as (_ & -> & -> & _). auto.
    + intros c' r. destruct (Eq c') as (_ & -> & _ & -> & _). auto.
    + intros r. destruct (Eq (its (remotes s r))) as (_ & _ & -> & -> & ->). auto.
  - intros r c'. destruct (Eq c') as [-> _]. apply M.
Qed.

Lemma inv_callers l b s : inv b s -> (forall c, c ∈ l -> alive (conns s c) = true) ->
  inv b (set_callers l s).
Proof.
  intros [Co M P F] A. split; [|exact M|exact P|exact F]. destruct Co. by split.
Qed.

Lemma live_serves c s : core s -> alive (conns s c) = true -> live (conns s c) = true <-> c ∈ connected_ s.
Proof.
  intros Co A. rewrite (co_connected _ Co). pose proof (co_flags _ Co c A) as F. unfold live.
  destruct (thread (conns s c)) eqn:T.
  - destruct F as [-> _]. split; [done|by intros []].
  - destruct F as [-> _]. split; [done|by intros []].
  - destruct F as (-> & -> & _). done.
  - unfold live in F. rewrite F. split; [done|by intros []].
Qed.

Lemma find_connecting_spec l cs s : (forall c, c ∈ cs -> alive (conns s c) = true) ->
  exists o, find_connecting l cs s = Ok o /\ forall c, o = Some c -> c ∈ cs /\ id (conns s c) = loc_id l.
Proof.
  induction cs as [|c cs IH]; intros A; cbn; [by exists None|].
  destruct IH as (o & E & I); [intros c' J; apply A; by right|].
  assert (forall c', o = Some c' -> c' ∈ c :: cs /\ id (conns s c') = loc_id l) as I'.
  { intros c' Eo. destruct (I c' Eo). split; [by right|done]. }
  destruct (bool_decide (endpoints _ = _)); [|eauto]. rewrite (A c) by left. cbn.
  case_bool_decide as B; [|eauto]. exists (Some c). split; [done|]. intros c' [= <-]. split; [left|done].
Qed.

Lemma find_connected_Some i c s : find_connected i s = Some c -> c ∈ connected_ s /\ id (conns s c) = i.
Proof.
  unfold find_connected. intros ([k c'] & E & [= <-])%bind_Some.
  apply list_find_Some in E as (L & E & _). split; [|done]. by eapply list_elem_of_lookup_2.
Qed.
Lemma find_connected_None i s : find_connected i s = None ->
  forall c, c ∈ connected_ s -> id (conns s c) <> i.
Proof.
  unfold find_connected. intros [E|([] & _ & ?)]%bind_None c I; [|done].
  apply list_find_None in E. rewrite Forall_forall in E. by apply E.
Qed.
Lemma find_peer_Some i r s : find_peer i s = Some r -> r ∈ peer_cache s /\ rid (remotes s r) = i.
Proof.
  unfold find_peer. intros ([k r'] & E & [= <-])%bind_Some.
  apply list_find_Some in E as (L & E & _). split; [|done]. by eapply list_elem_of_lookup_2.
Qed.
Lemma find_peer_None i s : find_peer i s = None -> forall r, r ∈ peer_cache s -> rid (remotes s r) <> i.
Proof.
  unfold find_peer. intros [E|([] & _ & ?)]%bind_None r I; [|done].
  apply list_find_None in E. rewrite Forall_forall in E. by apply E.
Qed.

Lemma inv_new_connection l s : inv None s -> inv None (new_connection l false s).
Proof.
  intros [Co M P F]. set (s' := new_connection l false s). set (n := next_conn s).
  assert (alive (conns s n) = false) as An.
  { destruct (alive (conns s n)) eqn:A; [|done]. apply (co_fresh _ Co) in A. lia. }
  assert (thread (conns s n) = Stopped) as Tn by by apply (co_dead _ Co).
  pose proof (not_listed _ _ Co Tn) as [Nn Ng].
  assert (conns s' n = mkConnection l Starting false false (now s) None [Makes] [] true) as En
    by (cbn; by rewrite fn_lookup_insert).
  assert (forall c, c = n \/ c <> n /\ conns s' c = conns s c) as Ca.
  { intros c. destruct (decide (c = n)); [by left|right; cbn; by rewrite fn_lookup_insert_ne]. }
  assert (forall c, c ∈ connected_ s \/ c ∈ connecting s \/ alive (conns s c) = true ->
    c <> n /\ conns s' c = conns s c) as Li.
  { intros c I. destruct (Ca c) as [->|]; [|done]. naive_solver congruence. }
  assert (forall r, r ∈ peer_cache s -> conns s' (its (remotes s r)) = conns s (its (remotes s r)) /\
    its (remotes s r) <> n) as Ri.
  { intros r I. destruct (co_remote _ Co r I) as (_ & A & _). destruct (Li (its (remotes s r))); auto. }
  split.
  - destruct Co. split; change (connected_ s') with (connected_ s); change (peer_cache s') with (peer_cache s);
      change (callers s') with (callers s); change (remotes s') with (remotes s);
      change (next_conn s') with (n + 1); change (next_remote s') with (next_remote s);
      change (connecting s') with (connecting s ++ [n]).
    + intros c. destruct (Ca c) as [->|[_ ->]]; [lia|]. intros A%co_fresh0. lia.
    + intros c. destruct (Ca c) as [->|[_ ->]]; [by rewrite En|auto].
    + intros c. destruct (Ca c) as [->|[_ ->]]; [rewrite En; cbn; naive_solver|auto].
    + intros c. rewrite elem_of_app, list_elem_of_singleton.
      destruct (Ca c) as [->|[N ->]]; [rewrite En; cbn; naive_solver|rewrite co_connecting0; naive_solver].
    + destruct co_once0 as (? & ? & ?). split_and!; try done. apply NoDup_app. split_and!; try done.
      * intros c I ->%list_elem_of_singleton. done.
      * apply NoDup_singleton.
    + intros c. destruct (Ca c) as [->|[_ ->]]; [by rewrite En|]. by apply co_flags0.
    + intros c. rewrite elem_of_app, list_elem_of_singleton. destruct (Ca c) as [->|[N ->]].
      * rewrite En. cbn. set_solver.
      * intros [I|?]; [auto|done].
    + intros c1 c2 I1 I2. rewrite (proj2 (Li c1 (or_introl I1))), (proj2 (Li c2 (or_introl I2))). auto.
    + intros c I. apply co_callers0 in I. by rewrite (proj2 (Li c (or_intror (or_intror I)))).
    + intros r I. destruct (Ri r I) as [-> _]. auto.
    + auto.
    + intros c r. destruct (Ca c) as [->|[_ ->]]; [rewrite En; cbn; set_solver|auto].
    + intros c r. destruct (Ca c) as [->|[_ ->]]; [rewrite En; cbn; set_solver|auto].
    + intros r I. destruct (Ri r I) as [-> Ni]. intros T. destruct (co_hooked0 r I T) as [H1 H2].
      split; [done|]. rewrite elem_of_app, list_elem_of_singleton. naive_solver.
  - intros r c I J N. change (connected_ s') with (connected_ s) in J.
    rewrite (proj2 (Li c (or_introl J))). by apply M.
  - exact P.
  - exact F.
Qed.

(** What [connect] answers: a connection to the node that is not over, and the only
    one that serves if one does. *)
Lemma connect_spec l s : inv None s -> exists c s', connect l false s = (Ok c, s') /\ inv None s' /\
  alive (conns s' c) = true /\ thread (conns s' c) <> Stopped /\ id (conns s' c) = loc_id l /\
  (loc_id l <> null_addr -> forall c', c' ∈ connected_ s' -> id (conns s' c') = loc_id l -> c' = c) /\
  peer_cache s' = peer_cache s /\ remotes s' = remotes s /\ connected_ s' = connected_ s /\
  callers s' = callers s /\ observed s' = observed s /\
  (forall c', alive (conns s c') = true -> conns s' c' = conns s c') /\ self s' = self s.
Proof.
  intros K. pose proof (in_core _ _ K) as Co. unfold connect. rewrite bind_read.
  destruct (if bool_decide (loc_id l = null_addr) then None else find_connected (loc_id l) s) as [c|] eqn:E1.
  { exists c, s. case_bool_decide as B; [done|]. apply find_connected_Some in E1 as [I Ei].
    pose proof I as [A T]%(co_connected _ Co). split_and!; try done; [congruence|].
    intros _ c' I' Ei'. apply (co_ids _ Co); congruence. }
  assert (loc_id l <> null_addr -> forall c', c' ∈ connected_ s -> id (conns s c') <> loc_id l) as N.
  { intros B. rewrite bool_decide_eq_false_2 in E1 by done. by apply find_connected_None. }
  destruct (find_connecting_spec l (connecting s) s) as (o & E2 & I).
  { intros c J. by apply (co_connecting _ Co) in J as []. }
  rewrite (bind_Ok _ _ s o s) by (unfold lift; by rewrite E2).
  destruct o as [c|].
  - exists c, s. destruct (I c eq_refl) as [J Ei]. pose proof J as [A T]%(co_connecting _ Co).
    split_and!; try done; [naive_solver congruence|]. intros B c' I' Ei'. by destruct (N B c' I').
  - exists (next_conn s), (new_connection l false s). rewrite bind_modify.
    assert (forall c', alive (conns s c') = true -> conns (new_connection l false s) c' = conns s c') as Al.
    { intros c' A%(co_fresh _ Co). cbn. by rewrite fn_lookup_insert_ne by lia. }
    split_and!; try done.
    + by apply inv_new_connection.
    + cbn. by rewrite fn_lookup_insert.
    + cbn. by rewrite fn_lookup_insert.
    + cbn. by rewrite fn_lookup_insert.
    + intros B c' I'. change (connected_ (new_connection l false s)) with (connected_ s) in I'.
      rewrite Al by (by apply (co_connected _ Co) in I' as []). intros Ei. by destruct (N B c' I').
Qed.

(** *** Remotes that change their connection *)

Definition hooked r x : connection X :=
  set_slots (Opens r :: on_connection x) (set_ends (on_disconnection x ++ [r]) x).
Definition unhooked r x : connection X :=
  set_slots (without (Opens r) (on_connection x)) (set_ends (without r (on_disconnection x)) x).

(** [r] has the connection [c] instead of [old], which may be over for good. *)
Record attached r c old s s' : Prop := {
  at_self : self s' = self s;
  at_observed : observed s' = observed s;
  at_conn : conns s' c = hooked r (conns s c);
  at_old : conns s' old = unhooked r (conns s old) \/
    conns s' old = bury (unhooked r (conns s old)) /\ thread (conns s old) = Stopped /\
    (old ∉ callers s) /\ forall r', r' ∈ peer_cache s -> r' <> r -> its (remotes s r') <> old;
  at_conns c' : c' <> c -> c' <> old -> conns s' c' = conns s c';
  at_next_conn : next_conn s' = next_conn s;
  at_connecting : connecting s' = connecting s;
  at_connected : connected_ s' = connected_ s;
  at_callers : callers s' = callers s;
  at_next_remote : next_remote s' = next_remote s;
  at_cache : peer_cache s' = peer_cache s;
  at_rid r' : rid (remotes s' r') = rid (remotes s r');
  at_its r' : its (remotes s' r') = if decide (r = r') then c else its (remotes s r')
}.

Lemma core_attached r c s s' : core s -> r ∈ peer_cache s -> its (remotes s r) <> c ->
  attached r c (its (remotes s r)) s s' ->
  alive (conns s c) = true -> thread (conns s c) <> Stopped -> id (conns s c) = rid (remotes s r) -> core s'.
Proof.
  intros Co I N [] A T Ei. set (old := its (remotes s r)) in *.
  assert (forall c', c' = c \/ c' <> c /\ c' = old \/ c' <> c /\ c' <> old /\ conns s' c' = conns s c') as Ca.
  { intros c'. destruct (decide (c' = c)); [by left|]. destruct (decide (c' = old)); auto 6. }
  assert (forall c', location (conns s' c') = location (conns s c') /\ thread (conns s' c') = thread (conns s c') /\
    connected (conns s' c') = connected (conns s c') /\ disconnected (conns s' c') = disconnected (conns s c') /\
    (c' <> old -> alive (conns s' c') = alive (conns s c')) /\
    (alive (conns s' c') = true -> alive (conns s c') = true) /\
    (thread (conns s c') <> Stopped -> alive (conns s' c') = alive (conns s c'))) as Eq.
  { intros c'. destruct (Ca c') as [->|[[_ ->]|(_ & _ & ->)]]; [by rewrite at_conn0| |done].
    by destruct at_old0 as [E|(E & Ts & _)]; rewrite E. }
  assert (forall c', alive (conns s c') = true -> c' ∈ callers s \/
    (exists r', r' ∈ peer_cache s /\ r' <> r /\ its (remotes s r') = c') -> alive (conns s' c') = true) as Al.
  { intros c' A' H. destruct (Ca c') as [->|[[_ ->]|(_ & _ & ->)]]; [by rewrite at_conn0| |done].
    destruct at_old0 as [->|(_ & _ & Nc & Nr)]; [done|]. destruct H as [?|(r' & J & N' & E)]; [done|].
    by destruct (Nr r' J N'). }
  assert (forall c', id (conns s' c') = id (conns s c')) as Id.
  { intros c'. unfold id. by destruct (Eq c') as [-> _]. }
  assert (forall c' r', alive (conns s' c') = true ->
    (Opens r' ∈ on_connection (conns s' c') -> c' = c /\ r' = r \/ Opens r' ∈ on_connection (conns s c') /\ (c' = old -> r' <> r)) /\
    (r' ∈ on_disconnection (conns s' c') -> c' = c /\ r' = r \/ r' ∈ on_disconnection (conns s c') /\ (c' = old -> r' <> r))) as Sl.
  { intros c' r' A'. destruct (Ca c') as [->|[[Nc ->]|(_ & Nc & ->)]].
    - rewrite at_conn0. cbn. rewrite elem_of_cons, elem_of_app, list_elem_of_singleton. naive_solver.
    - destruct at_old0 as [E|(E & _)]; rewrite E; cbn; rewrite !elem_of_without; naive_solver.
    - naive_solver. }
  assert (forall c', c' ∈ connecting s -> forall sl, sl <> Opens r -> sl ∈ on_connection (conns s c') ->
    sl ∈ on_connection (conns s' c')) as Keep.
  { intros c' J sl Ns K. destruct (Ca c') as [->|[[Nc ->]|(_ & Nc & ->)]]; [| |done].
    - rewrite at_conn0. cbn. by right.
    - destruct at_old0 as [E|(E & _)]; rewrite E; cbn; rewrite elem_of_without; naive_solver. }
  pose proof Co as []. split; rewrite ?at_next_conn0, ?at_connecting0, ?at_connected0, ?at_callers0,
    ?at_next_remote0, ?at_cache0.
  - intros c' A'. apply co_fresh0. by apply (Eq c').
  - intros c' A'. destruct (Eq c') as (_ & -> & _). destruct (decide (thread (conns s c') = Stopped)) as [|Nt]; [done|].
    apply co_dead0. destruct (Eq c') as (_ & _ & _ & _ & _ & _ & E). by rewrite <- E.
  - intros c'. rewrite co_connected0. destruct (Eq c') as (_ & -> & _ & _ & _ & E1 & E2).
    split; [intros [A' Th]; rewrite E2 by congruence; done|naive_solver].
  - intros c'. rewrite co_connecting0. destruct (Eq c') as (_ & -> & _ & _ & _ & E1 & E2).
    split; [intros [A' Th]; rewrite E2 by (destruct Th; congruence); done|naive_solver].
  - done.
  - intros c' A'. unfold live. rewrite Id. destruct (Eq c') as (_ & -> & -> & -> & _ & E & _). by apply co_flags0, E.
  - intros c' J. apply Keep; [done|done|]. by apply co_makes0.
  - intros c1 c2. rewrite !Id. auto.
  - intros c' J. apply Al; auto.
  - intros r' J. rewrite at_rid0, at_its0, Id. destruct (decide (r = r')) as [<-|Nr].
    + destruct (co_remote0 r I) as (L & _ & _ & Nn). split_and!; try done.
      destruct (Eq c) as (_ & _ & _ & _ & E & _). by rewrite E.
    + destruct (co_remote0 r' J) as (L & A' & E & Nn). split_and!; try done. apply Al; eauto.
  - intros r1 r2. rewrite !at_rid0. auto.
  - intros c' r' A' J. destruct (Sl c' r' A') as [S _]. rewrite at_its0.
    destruct (S J) as [[-> ->]|[J' No]]; [by rewrite decide_True|].
    destruct (co_opens0 c' r') as [P E]; [by apply (Eq c')|done|]. split; [done|].
    rewrite decide_False; [done|]. intros <-. by apply No.
  - intros c' r' A' J. destruct (Sl c' r' A') as [_ S]. rewrite at_its0.
    destruct (S J) as [[-> ->]|[J' No]]; [by rewrite decide_True|].
    destruct (co_ends0 c' r') as [P E]; [by apply (Eq c')|done|]. split; [done|].
    rewrite decide_False; [done|]. intros <-. by apply No.
  - intros r' J. rewrite at_its0. destruct (decide (r = r')) as [<-|Nr].
    + rewrite at_conn0. cbn. intros _. split; [apply elem_of_app; right; apply list_elem_of_singleton; done|by left].
    + destruct (Eq (its (remotes s r'))) as (_ & -> & _). intros Th. destruct (co_hooked0 r' J Th) as [H1 H2].
      split; [|intros K; apply Keep; [done|congruence|by apply H2]].
      destruct (Ca (its (remotes s r'))) as [E|[[Nc E]|(_ & _ & ->)]]; [| |done].
      * rewrite E, at_conn0. cbn. rewrite E in H1. set_solver.
      * rewrite E. rewrite E in H1. destruct at_old0 as [Eo|(Eo & _)]; rewrite Eo; cbn; rewrite elem_of_without; auto.
Qed.

Lemma inv_attached b r c s s' : inv b s -> r ∈ peer_cache s -> its (remotes s r) <> c ->
  attached r c (its (remotes s r)) s s' ->
  alive (conns s c) = true -> thread (conns s c) <> Stopped -> id (conns s c) = rid (remotes s r) ->
  its (remotes s r) ∉ connected_ s ->
  (forall c', c' ∈ connected_ s -> id (conns s c') = id (conns s c) -> c' = c) ->
  (forall r', r' <> r -> barrier r' s' = barrier r' s) ->
  (opened (remotes s' r) = true -> refused (remotes s' r) = None -> c ∈ connected_ s) ->
  (c ∈ connected_ s -> opened (remotes s' r) = true) ->
  inv b s'.
Proof.
  intros [Co M P F] I N At A T Ei No Un B B1 B2. split; [by eapply core_attached|..]; pose proof At as [].
  - intros r' c' J K Nb. rewrite at_cache0 in J. rewrite at_connected0 in K. rewrite at_rid0, at_its0.
    assert (id (conns s' c') = id (conns s c')) as ->.
    { unfold id. destruct (decide (c' = c)) as [->|]; [by rewrite at_conn0|].
      destruct (decide (c' = its (remotes s r))) as [->|]; [done|by rewrite at_conns0]. }
    intros E. destruct (decide (r = r')) as [<-|Nr]; [|by apply M]. symmetry. apply Un; [done|congruence].
  - intros O c' K Nb. rewrite at_observed0 in O. rewrite at_connected0 in K.
    destruct (P O c' K Nb) as (r' & J & E). exists r'. rewrite at_cache0, at_its0.
    rewrite decide_False; [done|]. intros <-. congruence.
  - intros r' J. rewrite at_cache0 in J. rewrite at_its0, at_connected0.
    destruct (decide (r = r')) as [<-|Nr]; [auto|].
    specialize (B r' ltac:(congruence)). unfold barrier in B. injection B as -> ->. by apply F.
Qed.

(** What [Remote::connection] does. *)
Lemma attach_spec b r c s : inv b s -> r ∈ peer_cache s -> its (remotes s r) <> c ->
  alive (conns s c) = true -> thread (conns s c) <> Stopped -> id (conns s c) = rid (remotes s r) ->
  its (remotes s r) ∉ connected_ s ->
  (forall c', c' ∈ connected_ s -> id (conns s c') = id (conns s c) -> c' = c) ->
  let s' := attach r c s in
  inv b s' /\ attached r c (its (remotes s r)) s s' /\
  (forall r', r' <> r -> barrier r' s' = barrier r' s) /\
  (c ∈ connected_ s -> opened (remotes s' r) = true) /\
  (opened (remotes s r) = false -> c ∈ connected_ s -> barrier r s' = (true, None)).
Proof.
  intros K I N A T Ei No Un. pose proof (in_core _ _ K) as Co. unfold attach. set (old := its (remotes s r)) in *.
  set (s1 := on_remote r (set_its c) s).
  assert (forall r', its (remotes s1 r') = if decide (r = r') then c else its (remotes s r')) as Is1.
  { intros r'. cbn. rewrite fn_insert_eq. by destruct (decide (r = r')) as [->|]. }
  assert (forall r', rid (remotes s1 r') = rid (remotes s r') /\ barrier r' s1 = barrier r' s) as Rs1.
  { intros r'. unfold barrier. cbn. rewrite fn_insert_eq. by destruct (decide (r = r')) as [->|]. }
  assert (release old s1 = s1 \/ release old s1 = on_conn old bury s1 /\ thread (conns s old) = Stopped /\
    (old ∉ callers s) /\ forall r', r' ∈ peer_cache s -> r' <> r -> its (remotes s r') <> old) as Rl.
  { unfold release. change (conns s1) with (conns s). destruct (alive (conns s old)) eqn:Ao; [|by left].
    destruct (held old s1) eqn:H; [by left|]. apply held_false in H as (H1 & H2 & H3). cbn [andb negb].
    unfold destroy. change (conns s1) with (conns s) in *. destruct (thread (conns s old)) eqn:To.
    1, 2: destruct H3; apply (co_makes _ Co), (co_connecting _ Co); rewrite To; auto.
    - destruct No. by apply (co_connected _ Co).
    - right. split_and!; try done. intros r' J Nr E. apply (H2 r' J). by rewrite Is1, decide_False by congruence. }
  set (s2 := release old s1) in *. set (s3 := unhook r old s2).
  set (s4 := on_conn c (hooked r) s3).
  assert ((forall c', c' <> old -> conns s3 c' = conns s c') /\
    (conns s3 old = unhooked r (conns s old) \/
     conns s3 old = bury (unhooked r (conns s old)) /\ thread (conns s old) = Stopped /\
     (old ∉ callers s) /\ forall r', r' ∈ peer_cache s -> r' <> r -> its (remotes s r') <> old)) as [E3 Eo].
  { subst s3. destruct Rl as [->|(-> & Rl)]; cbn; rewrite !fn_lookup_insert; split; auto; intros c' N';
      by rewrite !fn_lookup_insert_ne by congruence. }
  assert (attached r c old s s4) as At.
  { assert (conns s4 c = hooked r (conns s c)) as E4.
    { transitivity (hooked r (conns s3 c)); [cbn; by rewrite fn_lookup_insert|by rewrite E3 by congruence]. }
    assert (forall c', c' <> c -> conns s4 c' = conns s3 c') as N4.
    { intros c' N'. cbn. by rewrite fn_lookup_insert_ne. }
    split; try done; try (by subst s4 s3; destruct Rl as [->|[-> _]]).
    - by rewrite N4.
    - intros c' N1 N2. rewrite N4 by done. by apply E3.
    - intros r'; subst s4 s3; destruct Rl as [->|[-> _]]; first [apply Rs1|apply Is1]. }
  assert (forall r', barrier r' s4 = barrier r' s) as B4.
  { intros r'. subst s4 s3. destruct Rl as [E|[E _]]; rewrite E; apply Rs1. }
  assert (live (conns s4 c) = true <-> c ∈ connected_ s) as Lv.
  { rewrite (at_conn _ _ _ _ _ At). by apply live_serves. }
  assert (exists o e, sets r o e s4 (hook true r c s3) /\
    (c ∈ connected_ s -> o = true) /\ (o = true -> c ∈ connected_ s) /\
    (opened (remotes s r) = false -> c ∈ connected_ s -> e = None)) as (o & e & Se & O1 & O2 & O3).
  { unfold hook. change (on_conn c _ s3) with s4.
    assert (opened (remotes s4 r) = opened (remotes s r)) as Bo by exact (f_equal fst (B4 r)).
    assert (refused (remotes s4 r) = refused (remotes s r)) as Be by exact (f_equal snd (B4 r)).
    destruct (live (conns s4 c)) eqn:L.
    - assert (c ∈ connected_ s) as Cs by by apply Lv. rewrite Bo. destruct (opened (remotes s r)) eqn:O.
      + exists true, (refused (remotes s r)). split_and!; try done. apply sets_refl. unfold barrier. by rewrite Bo, Be.
      + exists true, None. split_and!; try done. apply open_sets.
    - assert (c ∉ connected_ s) as Cs by (intros Cs; apply Lv in Cs; done).
      destruct (close_sets true r s4) as [e Se]. exists false, e. by split_and!. }
  cbn zeta. set (s' := hook true r c s3) in *. destruct Se as [Ca Bs Os]. unfold barrier in Bs. injection Bs as Bo Be.
  assert (attached r c old s s') as At'.
  { destruct At, Ca. split; intros; rewrite ?ca_self0, ?ca_observed0, ?ca_conns0, ?ca_next_conn0,
      ?ca_connecting0, ?ca_connected0, ?ca_callers0, ?ca_next_remote0, ?ca_cache0, ?ca_rid0, ?ca_its0; auto. }
  assert (forall r', r' <> r -> barrier r' s' = barrier r' s) as B'.
  { intros r' Nr. unfold barrier at 1. rewrite Os by done. apply B4. }
  split_and!; try done.
  - eapply (inv_attached b r c s); try done; rewrite Bo; auto.
  - intros Cs. rewrite Bo. auto.
  - intros Of Cs. unfold barrier. rewrite Bo, Be, O1, O3; done.
Qed.

(** *** Remotes that are made *)

Record made r c s s' : Prop := {
  ma_self : self s' = self s;
  ma_observed : observed s' = observed s;
  ma_conn : conns s' c = hooked r (conns s c);
  ma_conns c' : c' <> c -> conns s' c' = conns s c';
  ma_next_conn : next_conn s' = next_conn s;
  ma_connecting : connecting s' = connecting s;
  ma_connected : connected_ s' = connected_ s;
  ma_callers : callers s' = callers s;
  ma_next_remote : next_remote s' = r + 1;
  ma_cache : peer_cache s' = peer_cache s ++ [r];
  ma_rid : rid (remotes s' r) = id (conns s c);
  ma_its : its (remotes s' r) = c;
  ma_remotes r' : r' <> r -> remotes s' r' = remotes s r'
}.

Lemma core_made c s s' : core s -> made (next_remote s) c s s' -> alive (conns s c) = true ->
  thread (conns s c) <> Stopped -> id (conns s c) <> null_addr ->
  (forall r, r ∈ peer_cache s -> rid (remotes s r) <> id (conns s c)) -> core s'.
Proof.
  intros Co []. set (n := next_remote s) in *. intros A T Nn Np. pose proof Co as [].
  assert (forall c', c' = c \/ c' <> c /\ conns s' c' = conns s c') as Ca.
  { intros c'. destruct (decide (c' = c)); [by left|right; auto]. }
  assert (forall c', location (conns s' c') = location (conns s c') /\ thread (conns s' c') = thread (conns s c') /\
    connected (conns s' c') = connected (conns s c') /\ disconnected (conns s' c') = disconnected (conns s c') /\
    alive (conns s' c') = alive (conns s c')) as Eq.
  { intros c'. destruct (Ca c') as [->|[_ ->]]; [by rewrite ma_conn0|done]. }
  assert (forall c', id (conns s' c') = id (conns s c')) as Id.
  { intros c'. unfold id. by destruct (Eq c') as [-> _]. }
  assert (forall r, r ∈ peer_cache s -> r < n /\ remotes s' r = remotes s r) as Old.
  { intros r I. destruct (co_remote0 r I) as [L _]. split; [done|]. apply ma_remotes0. lia. }
  assert (n ∉ peer_cache s) as Nf by (intros [L _]%Old; lia).
  split; rewrite ?ma_next_conn0, ?ma_connecting0, ?ma_connected0, ?ma_callers0, ?ma_next_remote0, ?ma_cache0.
  - intros c'. destruct (Eq c') as (_ & _ & _ & _ & ->). auto.
  - intros c'. destruct (Eq c') as (_ & -> & _ & _ & ->). auto.
  - intros c'. destruct (Eq c') as (_ & -> & _ & _ & ->). auto.
  - intros c'. destruct (Eq c') as (_ & -> & _ & _ & ->). auto.
  - destruct co_once0 as (? & ? & ?). split_and!; try done. apply NoDup_app. split_and!; try done.
    + by intros r I ->%list_elem_of_singleton.
    + apply NoDup_singleton.
  - intros c'. unfold live. rewrite Id. destruct (Eq c') as (_ & -> & -> & -> & ->). apply co_flags0.
  - intros c' I. apply co_makes0 in I. destruct (Ca c') as [->|[_ ->]]; [|done]. rewrite ma_conn0. cbn. by right.
  - intros c1 c2. rewrite !Id. auto.
  - intros c'. destruct (Eq c') as (_ & _ & _ & _ & ->). auto.
  - intros r. rewrite elem_of_app, list_elem_of_singleton. intros [I| ->].
    + destruct (Old r I) as [L ->]. destruct (co_remote0 r I) as (_ & A' & E & ?).
      rewrite Id. destruct (Eq (its (remotes s r))) as (_ & _ & _ & _ & ->). split_and!; try done. lia.
    + rewrite ma_its0, ma_rid0, Id. destruct (Eq c) as (_ & _ & _ & _ & ->). split_and!; try done. lia.
  - intros r1 r2. rewrite !elem_of_app, !list_elem_of_singleton. intros [I1| ->] [I2| ->]; try done.
    + destruct (Old r1 I1) as [_ ->], (Old r2 I2) as [_ ->]. auto.
    + destruct (Old r1 I1) as [_ ->]. rewrite ma_rid0. intros E. by destruct (Np r1 I1).
    + destruct (Old r2 I2) as [_ ->]. rewrite ma_rid0. intros E. by destruct (Np r2 I2).
  - intros c' r. destruct (Eq c') as (_ & _ & _ & _ & ->). intros A' J. rewrite elem_of_app, list_elem_of_singleton.
    assert (c' = c /\ r = n \/ Opens r ∈ on_connection (conns s c')) as [[-> ->]|K].
    { destruct (Ca c') as [->|[_ E]]; [rewrite ma_conn0 in J|rewrite E in J; by right]. cbn in J.
      apply elem_of_cons in J as [[= ->]|J]; auto. }
    + auto.
    + destruct (co_opens0 c' r A' K) as [I E]. destruct (Old r I) as [_ ->]. auto.
  - intros c' r. destruct (Eq c') as (_ & _ & _ & _ & ->). intros A' J. rewrite elem_of_app, list_elem_of_singleton.
    assert (c' = c /\ r = n \/ r ∈ on_disconnection (conns s c')) as [[-> ->]|K].
    { destruct (Ca c') as [->|[_ E]]; [rewrite ma_conn0 in J|rewrite E in J; by right]. cbn in J.
      apply elem_of_app in J as [J| ->%list_elem_of_singleton]; auto. }
    + auto.
    + destruct (co_ends0 c' r A' K) as [I E]. destruct (Old r I) as [_ ->]. auto.
  - intros r. rewrite elem_of_app, list_elem_of_singleton. intros [I| ->].
    + destruct (Old r I) as [L ->]. destruct (Eq (its (remotes s r))) as (_ & -> & _). intros Th.
      destruct (co_hooked0 r I Th) as [H1 H2].
      destruct (Ca (its (remotes s r))) as [E|[_ ->]]; [|done]. rewrite E, ma_conn0. rewrite E in H1, H2.
      cbn. split; [apply elem_of_app; by left|]. intros K. right. by apply H2.
    + rewrite ma_its0, ma_conn0. cbn. intros _. split; [apply elem_of_app; right; by apply list_elem_of_singleton|by left].
Qed.

Lemma inv_made b c s s' : inv b s -> made (next_remote s) c s s' -> alive (conns s c) = true ->
  thread (conns s c) <> Stopped -> id (conns s c) <> null_addr ->
  (forall r, r ∈ peer_cache s -> rid (remotes s r) <> id (conns s c)) ->
  (forall c', c' ∈ connected_ s -> id (conns s c') = id (conns s c) -> c' = c) ->
  (opened (remotes s' (next_remote s)) = true <-> c ∈ connected_ s) -> inv b s'.
Proof.
  intros [Co M P F] Ma A T Nn Np Un B. split; [by eapply core_made|..]; destruct Ma; set (n := next_remote s) in *.
  all: assert (forall r, r ∈ peer_cache s -> remotes s' r = remotes s r) as Old
    by (intros r I; apply ma_remotes0; destruct (co_remote _ Co r I); lia).
  - intros r c'. rewrite ma_cache0, ma_connected0, elem_of_app, list_elem_of_singleton. intros I K Nb.
    assert (id (conns s' c') = id (conns s c')) as ->.
    { destruct (decide (c' = c)) as [->|]; [by rewrite ma_conn0|by rewrite ma_conns0]. }
    destruct I as [I| ->]; [rewrite Old by done; by apply M|]. rewrite ma_rid0, ma_its0. intros E. symmetry. by apply Un.
  - intros O c' K Nb. rewrite ma_observed0 in O. rewrite ma_connected0 in K.
    destruct (P O c' K Nb) as (r & I & E). exists r. rewrite ma_cache0, elem_of_app, Old by done. auto.
  - intros r. rewrite ma_cache0, ma_connected0, elem_of_app, list_elem_of_singleton.
    intros [I| ->]; [rewrite Old by done; by apply F|]. rewrite ma_its0. naive_solver.
Qed.

(** What [make_peer] does: the node of [c] has a remote, whose connection is [c] if
    [c] serves or nothing did; or nothing, when nothing asks for one. *)
Lemma make_peer_spec b ig c s : inv b s -> alive (conns s c) = true ->
  thread (conns s c) <> Stopped -> id (conns s c) <> null_addr ->
  (forall c', c' ∈ connected_ s -> id (conns s c') = id (conns s c) -> c' = c) ->
  exists o s', make_peer c ig s = (Ok o, s') /\ inv b s' /\
  connected_ s' = connected_ s /\ connecting s' = connecting s /\ callers s' = callers s /\ observed s' = observed s /\
  alive (conns s' c) = true /\ thread (conns s' c) = thread (conns s c) /\ id (conns s' c) = id (conns s c) /\
  (forall r, r ∈ peer_cache s -> r ∈ peer_cache s' /\ rid (remotes s' r) = rid (remotes s r) /\
     (its (remotes s r) = c -> its (remotes s' r) = c /\ barrier r s' = barrier r s)) /\
  (forall r, r ∈ peer_cache s' -> its (remotes s' r) = c -> c ∈ connected_ s ->
     opened (remotes s' r) = true \/ r ∈ peer_cache s /\ its (remotes s r) = c) /\
  match o with
  | Some r => r ∈ peer_cache s' /\ rid (remotes s' r) = id (conns s c) /\ (c ∈ connected_ s -> its (remotes s' r) = c) /\
      (r ∈ peer_cache s -> opened (remotes s r) = false -> its (remotes s r) <> c ->
       its (remotes s r) ∉ connected_ s -> c ∈ connected_ s -> barrier r s' = (true, None))
  | None => ig = true /\ observed s = false /\ forall r, r ∈ peer_cache s' -> rid (remotes s' r) <> id (conns s c)
  end.
Proof.
  intros K A T Nn Un. pose proof (in_core _ _ K) as Co. unfold make_peer. rewrite bind_read.
  destruct (find_peer (id (conns s c)) s) as [r|] eqn:Fp.
  - apply find_peer_Some in Fp as [I Ei]. destruct (co_remote _ Co r I) as (_ & Ao & Eo & _).
    set (old := its (remotes s r)) in *.
    assert (live (conns s old) = false <-> negb (connected (conns s old)) || disconnected (conns s old) = true) as Lv.
    { unfold live. destruct (connected _), (disconnected _); done. }
    pose proof (live_serves old s Co Ao) as Ls.
    destruct (decide (old = c)) as [E|N].
    { rewrite E, Z.eqb_refl. cbn [negb andb when]. rewrite bind_ret_l. exists (Some r), s.
      split_and!; try done; auto. }
    rewrite (proj2 (Z.eqb_neq old c) N). cbn [negb andb].
    destruct (live (conns s old)) eqn:L.
    { assert (old ∈ connected_ s) as J by by apply Ls. destruct N. apply Un; [done|congruence]. }
    rewrite (proj1 Lv) by done. cbn [when]. rewrite bind_modify.
    assert (old ∉ connected_ s) as No by (intros J; apply Ls in J; congruence).
    destruct (attach_spec b r c s K I N A T (eq_sym Ei) No Un) as (K' & At & B & O & O').
    exists (Some r), (attach r c s). split; [done|]. split; [done|]. destruct At.
    split_and!; try done; rewrite ?at_conn0; try done.
    + intros r' J. rewrite at_cache0, at_rid0. split_and!; try done. intros E.
      assert (r' <> r) as Nr by (intros ->; done). rewrite at_its0, decide_False by done. auto.
    + intros r' J E Cs. rewrite at_cache0 in J. rewrite at_its0 in E.
      destruct (decide (r = r')) as [<-|]; auto.
    + by rewrite at_cache0.
    + by rewrite at_rid0.
    + intros _. by rewrite at_its0, decide_True.
    + auto.
  - pose proof (find_peer_None _ _ Fp) as Np. destruct (ig && negb (observed s)) eqn:Ig.
    { apply andb_true_iff in Ig as [-> Io]. apply negb_true_iff in Io. exists None, s. split_and!; try done; auto. }
    unfold assert. rewrite bool_decide_eq_false_2 by done. cbn [negb when]. rewrite bind_ret_l, !bind_modify.
    set (n := next_remote s). eexists (Some n), _. split; [reflexivity|].
    set (s1 := set_remote n (mkRemote (id (conns s c)) c false None (now s) None) s).
    set (s2 := on_conn c (hooked n) s1).
    assert (live (conns s2 c) = live (conns s c)) as L2 by (cbn; by rewrite fn_lookup_insert).
    assert (exists o e, sets n o e s2 (new_remote c s) /\ (o = true <-> c ∈ connected_ s)) as (o & e & [Ca Bs Os] & Oo).
    { unfold new_remote. fold n. fold s1. unfold hook. change (on_conn c _ s1) with s2. rewrite L2.
      pose proof (live_serves c s Co A) as Ls. destruct (live (conns s c)).
      - assert (opened (remotes s2 n) = false) as -> by (cbn; by rewrite fn_lookup_insert).
        exists true, None. split; [apply open_sets|naive_solver].
      - destruct (close_sets false n s2) as [e Se]. exists false, e. split; [done|naive_solver]. }
    set (s3 := new_remote c s) in *. cbn zeta. set (s4 := set_peer_cache _ _ s3).
    assert (made n c s (emit (OnPeer n) s4)) as Ma.
    { destruct Ca. split; try done; cbn.
      - rewrite ca_conns0. cbn. by rewrite fn_lookup_insert.
      - intros c' N. rewrite ca_conns0. cbn. by rewrite fn_lookup_insert_ne.
      - by rewrite ca_cache0.
      - rewrite ca_rid0. cbn. by rewrite fn_lookup_insert.
      - rewrite ca_its0. cbn. by rewrite fn_lookup_insert.
      - intros r N. rewrite Os by done. cbn. by rewrite fn_lookup_insert_ne. }
    assert (opened (remotes (emit (OnPeer n) s4) n) = true <-> c ∈ connected_ s) as On.
    { cbn. unfold barrier in Bs. injection Bs as -> _. done. }
    pose proof (inv_made b c s _ K Ma A T Nn Np Un On) as K'.
    assert (forall r, r ∈ peer_cache s -> r <> n) as Old.
    { intros r I. destruct (co_remote _ Co r I) as [L _]. unfold n. lia. }
    destruct Ma. split_and!; try done; rewrite ?ma_conn0; try done.
    + intros r I. rewrite ma_cache0, ma_remotes0 by auto. split_and!; [apply elem_of_app; by left|done|].
      intros E. split; [done|]. unfold barrier. by rewrite ma_remotes0 by auto.
    + intros r. rewrite ma_cache0, elem_of_app, list_elem_of_singleton. intros [I| ->] E Cs.
      * rewrite ma_remotes0 in E by auto. auto.
      * left. by apply On.
    + rewrite ma_cache0. apply elem_of_app. right. by apply list_elem_of_singleton.
    + intros I. by apply Old in I.
Qed.

(** *** A connection is established *)

(** The remote has the connection [c], and is open. *)
Definition served c r s : Prop := its (remotes s r) = c /\ barrier r s = (true, None).

(** What the slots of [on_connection] leave as it is. *)
Record serving c s s' : Prop := {
  sv_connected : connected_ s' = connected_ s;
  sv_connecting : connecting s' = connecting s;
  sv_callers : callers s' = callers s;
  sv_observed : observed s' = observed s;
  sv_alive : alive (conns s' c) = alive (conns s c);
  sv_thread : thread (conns s' c) = thread (conns s c);
  sv_id : id (conns s' c) = id (conns s c);
  sv_kept r : r ∈ peer_cache s -> r ∈ peer_cache s' /\ rid (remotes s' r) = rid (remotes s r) /\
    (its (remotes s r) = c -> its (remotes s' r) = c) /\ (served c r s -> served c r s') /\
    (its (remotes s r) = c -> opened (remotes s r) = true -> opened (remotes s' r) = true);
  sv_new r : r ∈ peer_cache s' -> its (remotes s' r) = c ->
    opened (remotes s' r) = true \/ r ∈ peer_cache s /\ its (remotes s r) = c
}.
Lemma serving_trans c s1 s2 s3 : serving c s1 s2 -> serving c s2 s3 -> serving c s1 s3.
Proof.
  intros [] []. split; try congruence.
  - intros r I. destruct (sv_kept0 r I) as (I2 & E2 & K2 & S2 & O2).
    destruct (sv_kept1 r I2) as (I3 & E3 & K3 & S3 & O3). split_and!; auto. congruence.
  - intros r I E. destruct (sv_new1 r I E) as [O|[I2 E2]]; [by left|].
    destruct (sv_new0 r I2 E2) as [O2|]; [left|by right]. by apply (sv_kept1 r I2).
Qed.
Lemma serving_refl c s : serving c s s.
Proof. split; try done; auto. Qed.

Lemma connected_alone c s : core s -> c ∈ connected_ s ->
  forall c', c' ∈ connected_ s -> id (conns s c') = id (conns s c) -> c' = c.
Proof. intros Co I c' I' E. by apply (co_ids _ Co). Qed.

(** The remote of the node of [c], if any, has [c]. *)
Definition alone c s : Prop := forall r, r ∈ peer_cache s -> rid (remotes s r) = id (conns s c) ->
  its (remotes s r) = c.

Lemma call_slot_spec c (x : slot) s : inv (Some c) s -> c ∈ connected_ s ->
  (forall r, x = Opens r -> r ∈ peer_cache s /\ its (remotes s r) = c) ->
  exists s', call_slot c x s = (Ok tt, s') /\ inv (Some c) s' /\ serving c s s' /\
  (forall r, x = Opens r -> served c r s') /\
  (alone c s \/ x = Makes -> alone c s') /\
  (x = Makes -> (observed s = true -> exists r, r ∈ peer_cache s' /\ its (remotes s' r) = c)) /\
  (forall r, r ∈ peer_cache s -> rid (remotes s r) = id (conns s c) -> opened (remotes s r) = false ->
     its (remotes s r) <> c ->
     if decide (x = Makes) then served c r s' else opened (remotes s' r) = false /\ its (remotes s' r) <> c).
Proof.
  intros K I Op. pose proof (in_core _ _ K) as Co. pose proof I as [A T]%(co_connected _ Co).
  pose proof (co_flags _ Co c A) as Fl. rewrite T in Fl. destruct Fl as (_ & _ & Nn).
  pose proof (connected_alone c s Co I) as Al. destruct x as [r|]; cbn [call_slot].
  - destruct (Op r eq_refl) as [J E]. pose proof (open_sets true r s) as Se. exists (open_ true r s). split; [done|].
    split; [eapply inv_sets; try done; rewrite E; by auto|]. destruct Se as [Ca B O]. destruct Ca.
    assert (served c r (open_ true r s)) as Sr by (split; [by rewrite ca_its0|done]).
    split_and!; try done.
    + split; try done; try (by rewrite ?ca_conns0).
      * intros r' J'. rewrite ca_cache0, ca_rid0, ca_its0. destruct (decide (r' = r)) as [->|N].
        -- split_and!; try done. by intros _ _; apply (f_equal fst B).
        -- unfold served, barrier. rewrite O by done. done.
      * intros r' J' E'. right. by rewrite <- ca_cache0, <- ca_its0.
    + by intros r' [= <-].
    + intros [H|?]; [|done]. intros r' J' Er'. rewrite ca_cache0 in J'. rewrite ca_rid0, ca_conns0 in Er'.
      rewrite ca_its0. by apply H.
    + intros r' J' _ Of N. rewrite O; [by rewrite decide_False|]. intros ->. done.
  - destruct (make_peer_spec (Some c) true c s K A) as (o & s' & E & K' & E1 & E2 & E3 & E4 & A' & T' & I' & Kp & Nw & Os);
      [congruence|done|done|].
    exists s'. rewrite (bind_Ok _ _ _ _ _ E). split; [done|]. split; [done|].
    assert (serving c s s') as Sv.
    { split; try done; try congruence.
      - intros r J. destruct (Kp r J) as (J' & Er & Ke). split_and!; try done.
        + intros Ec. by apply Ke.
        + intros [Ec B]. destruct (Ke Ec). split; congruence.
        + intros Ec O. destruct (Ke Ec) as [_ B]. apply (f_equal fst) in B. cbn in B. congruence.
      - intros r J Er. by apply Nw. }
    pose proof (in_core _ _ K') as Co'. split_and!; try done.
    + intros _ r' J' Er'. rewrite I' in Er'. destruct o as [r|].
      * destruct Os as (J & Er & Ec & _). rewrite (co_unique _ Co' r' r J' J); [auto|congruence].
      * destruct Os as (_ & _ & N). by destruct (N r' J').
    + intros _ Ob. destruct o as [r|]; [exists r|]; [|destruct Os as (_ & Of & _); congruence].
      destruct Os as (J & _ & Ec & _). auto.
    + intros r J Er Of N. rewrite decide_True by done. destruct (Kp r J) as (J' & Er' & _). destruct o as [r'|].
      * destruct Os as (J2 & Er2 & Ec & B). assert (r' = r) as -> by (apply (co_unique _ Co'); congruence).
        split; [auto|]. apply B; try done. intros Io. apply N, Al; [done|].
        destruct (co_remote _ Co r J) as (_ & _ & -> & _). done.
      * destruct Os as (_ & _ & Np). destruct (Np r J'). congruence.
Qed.

Lemma call_slots_spec c l s : inv (Some c) s -> c ∈ connected_ s ->
  (forall r, Opens r ∈ l -> r ∈ peer_cache s /\ its (remotes s r) = c) ->
  exists s', call_slots c l s = (Ok tt, s') /\ inv (Some c) s' /\ serving c s s' /\
  (forall r, Opens r ∈ l -> served c r s') /\
  (alone c s \/ Makes ∈ l -> alone c s') /\
  (Makes ∈ l -> (observed s = true -> exists r, r ∈ peer_cache s' /\ its (remotes s' r) = c) /\
     forall r, r ∈ peer_cache s -> rid (remotes s r) = id (conns s c) -> opened (remotes s r) = false ->
       its (remotes s r) <> c -> served c r s').
Proof.
  revert s. induction l as [|x l IH]; intros s K I Op; cbn [call_slots].
  { exists s. split_and!; try done; [apply serving_refl|..].
    - by intros r ?%not_elem_of_nil.
    - by intros [|?%not_elem_of_nil].
    - by intros ?%not_elem_of_nil. }
  destruct (call_slot_spec c x s K I) as (s1 & E1 & K1 & S1 & O1 & A1 & M1 & R1).
  { intros r ->. apply Op. left. }
  destruct (IH s1) as (s2 & E2 & K2 & S2 & O2 & A2 & M2); [done|by rewrite (sv_connected _ _ _ S1)|..].
  { intros r J. destruct (Op r) as [J1 J2]; [by right|]. destruct (sv_kept _ _ _ S1 r J1) as (? & _ & ? & _). auto. }
  exists s2. rewrite (bind_Ok _ _ _ _ _ E1). split_and!; try done.
  - by eapply serving_trans.
  - intros r [E|J]%elem_of_cons; [|auto]. destruct (O1 r) as [H1 H2]; [done|]. destruct (Op r) as [J1 _]; [rewrite E; left|].
    destruct (sv_kept _ _ _ S1 r J1) as (J2 & _). by apply (sv_kept _ _ _ S2 r J2).
  - rewrite elem_of_cons. naive_solver.
  - rewrite (sv_id _ _ _ S1) in M2. rewrite (sv_observed _ _ _ S1) in M2.
    intros [E|J]%elem_of_cons.
    + subst x. specialize (M1 eq_refl). split.
      * intros Ob. destruct (M1 Ob) as (r & J & E). exists r.
        destruct (sv_kept _ _ _ S2 r J) as (? & _ & ? & _). auto.
      * intros r J Er Of N. specialize (R1 r J Er Of N). rewrite decide_True in R1 by done.
        destruct (sv_kept _ _ _ S1 r J) as (J1 & _). by apply (sv_kept _ _ _ S2 r J1).
    + destruct (M2 J) as (Mb & Mc). split_and!; try done.
      intros r Jr Er Of N. specialize (R1 r Jr Er Of N). destruct (sv_kept _ _ _ S1 r Jr) as (J1 & E3 & _).
      destruct (decide (x = Makes)); [by apply (sv_kept _ _ _ S2 r J1)|]. destruct R1. apply Mc; congruence.
Qed.

(** A connection that connects, and learns who it is to, or serves. *)
Lemma inv_set_id i c s : inv None s -> c ∈ connecting s -> id (conns s c) = null_addr ->
  inv None (on_conn c (set_id i) s).
Proof.
  intros [Co M P F] I Z. destruct (connecting_not_connected c s Co I) as (Nc & _).
  set (s' := on_conn c (set_id i) s).
  assert (forall c', let x := conns s c' in let x' := conns s' c' in (c' <> c -> id x' = id x) /\
    thread x' = thread x /\ connected x' = connected x /\ disconnected x' = disconnected x /\
    on_connection x' = on_connection x /\ on_disconnection x' = on_disconnection x /\ alive x' = alive x) as Eq.
  { intros c'. cbn. rewrite fn_insert_eq. by destruct (decide (c = c')) as [->|]. }
  assert (forall r, r ∈ peer_cache s -> its (remotes s r) <> c) as Nr.
  { intros r J E. destruct (co_remote _ Co r J) as (_ & _ & E' & N). rewrite E in E'. congruence. }
  split; [|intros r c' J K _|exact P|exact F].
  - destruct Co. split; change (connected_ s') with (connected_ s); change (connecting s') with (connecting s);
      change (peer_cache s') with (peer_cache s); change (callers s') with (callers s);
      change (remotes s') with (remotes s); change (next_conn s') with (next_conn s);
      change (next_remote s') with (next_remote s).
    + intros c'. destruct (Eq c') as (_ & _ & _ & _ & _ & _ & ->). auto.
    + intros c'. destruct (Eq c') as (_ & -> & _ & _ & _ & _ & ->). auto.
    + intros c'. destruct (Eq c') as (_ & -> & _ & _ & _ & _ & ->). auto.
    + intros c'. destruct (Eq c') as (_ & -> & _ & _ & _ & _ & ->). auto.
    + done.
    + intros c'. unfold live. destruct (Eq c') as (E & -> & -> & -> & _ & _ & ->). intros A.
      pose proof (co_flags0 c' A) as Fl. destruct (thread (conns s c')) eqn:T; try done.
      rewrite E; [done|]. intros ->. apply Nc, co_connected0. auto.
    + intros c'. destruct (Eq c') as (_ & _ & _ & _ & -> & _). auto.
    + intros c1 c2 I1 I2. rewrite (proj1 (Eq c1)), (proj1 (Eq c2)) by congruence. auto.
    + intros c'. destruct (Eq c') as (_ & _ & _ & _ & _ & _ & ->). auto.
    + intros r J. rewrite (proj1 (Eq (its (remotes s r)))) by auto.
      destruct (Eq (its (remotes s r))) as (_ & _ & _ & _ & _ & _ & ->). auto.
    + auto.
    + intros c' r. destruct (Eq c') as (_ & _ & _ & _ & -> & _ & ->). auto.
    + intros c' r. destruct (Eq c') as (_ & _ & _ & _ & _ & -> & ->). auto.
    + intros r J. destruct (Eq (its (remotes s r))) as (_ & -> & _ & _ & -> & -> & _). auto.
  - change (connected_ s') with (connected_ s) in K. rewrite (proj1 (Eq c')) by congruence. by apply M.
Qed.

Definition serve c s : t X :=
  let s := on_conn c (fun x => set_thread Serving (set_connected x)) s in
  emit (OnConnection c) (set_connecting (without c (connecting s)) (set_connected_ (connected_ s ++ [c]) s)).

Lemma inv_serve c s : inv None s -> c ∈ connecting s -> id (conns s c) <> null_addr ->
  (forall c', c' ∈ connected_ s -> id (conns s c') <> id (conns s c)) -> inv (Some c) (serve c s).
Proof.
  intros [Co M P F] I Nn Un. destruct (connecting_not_connected c s Co I) as (Nc & A & _ & D).
  set (s' := serve c s).
  assert (conns s' c = set_thread Serving (set_connected (conns s c))) as Ec by (cbn; by rewrite fn_lookup_insert).
  assert (forall c', c' = c \/ c' <> c /\ conns s' c' = conns s c') as Ca.
  { intros c'. destruct (decide (c' = c)); [by left|right; cbn; by rewrite fn_lookup_insert_ne]. }
  assert (forall c', let x := conns s c' in let x' := conns s' c' in id x' = id x /\
    on_connection x' = on_connection x /\ on_disconnection x' = on_disconnection x /\ alive x' = alive x /\
    (c' <> c -> thread x' = thread x) /\ (thread x' = Stopped -> thread x = Stopped)) as Eq.
  { intros c'. destruct (Ca c') as [->|[N ->]]; [|done]. rewrite Ec. by split_and!. }
  split.
  - destruct Co. split; change (connected_ s') with (connected_ s ++ [c]);
      change (connecting s') with (without c (connecting s));
      change (peer_cache s') with (peer_cache s); change (callers s') with (callers s);
      change (remotes s') with (remotes s); change (next_conn s') with (next_conn s);
      change (next_remote s') with (next_remote s).
    + intros c'. destruct (Eq c') as (_ & _ & _ & -> & _). auto.
    + intros c'. destruct (Ca c') as [->|[_ ->]]; [rewrite Ec; cbn; intros; congruence|auto].
    + intros c'. rewrite elem_of_app, list_elem_of_singleton. destruct (Ca c') as [->|[N ->]].
      * rewrite Ec. cbn. naive_solver.
      * rewrite co_connected0. naive_solver.
    + intros c'. rewrite elem_of_without. destruct (Ca c') as [->|[N ->]].
      * rewrite Ec. cbn. naive_solver.
      * rewrite co_connecting0. naive_solver.
    + destruct co_once0 as (? & ? & ?). split_and!; [|by apply NoDup_without|done]. apply NoDup_app. split_and!; try done.
      * by intros c' J ->%list_elem_of_singleton.
      * apply NoDup_singleton.
    + intros c'. destruct (Ca c') as [->|[N ->]]; [|apply co_flags0]. rewrite Ec. cbn. done.
    + intros c'. rewrite elem_of_without. destruct (Eq c') as (_ & -> & _). naive_solver.
    + intros c1 c2. destruct (Eq c1) as [-> _], (Eq c2) as [-> _]. rewrite !elem_of_app, !list_elem_of_singleton.
      intros [I1| ->] [I2| ->] E; try done; [auto|by destruct (Un c1 I1)|by destruct (Un c2 I2)].
    + intros c'. destruct (Eq c') as (_ & _ & _ & -> & _). auto.
    + intros r. destruct (Eq (its (remotes s r))) as (-> & _ & _ & -> & _). auto.
    + auto.
    + intros c' r. destruct (Eq c') as (_ & -> & _ & -> & _). auto.
    + intros c' r. destruct (Eq c') as (_ & _ & -> & -> & _). auto.
    + intros r J. destruct (Eq (its (remotes s r))) as (_ & -> & -> & _ & _ & Ts). intros T.
      destruct (co_hooked0 r J) as [H1 H2].
      { intros Ts'. destruct (decide (its (remotes s r) = c)) as [E|N].
        - apply (co_connecting0 c) in I as [_ [?|?]]; rewrite E in Ts'; congruence.
        - apply T. destruct (Eq (its (remotes s r))) as (_ & _ & _ & _ & -> & _); done. }
      split; [done|]. rewrite elem_of_without. intros [_ ?]. auto.
  - intros r c' J K N. change (connected_ s') with (connected_ s ++ [c]) in K.
    rewrite elem_of_app, list_elem_of_singleton in K. destruct (Eq c') as [-> _]. destruct K; [by apply M|congruence].
  - intros O c' K N. change (connected_ s') with (connected_ s ++ [c]) in K.
    rewrite elem_of_app, list_elem_of_singleton in K. destruct K; [by apply P|congruence].
  - intros r J. change (connected_ s') with (connected_ s ++ [c]). rewrite elem_of_app, list_elem_of_singleton.
    destruct (F r J) as [F1 F2]. split.
    + intros O R. left. by apply F1.
    + intros [K|E] N; [by apply F2|]. destruct N. by f_equal.
Qed.

(** Then everybody was told. *)
Lemma inv_settled c s : inv (Some c) s -> c ∈ connected_ s -> alone c s ->
  (observed s = true -> exists r, r ∈ peer_cache s /\ its (remotes s r) = c) ->
  (forall r, r ∈ peer_cache s -> its (remotes s r) = c -> opened (remotes s r) = true) ->
  inv None (on_conn c (set_slots []) s).
Proof.
  intros [Co M P F] I Al Pe Op. set (s' := on_conn c (set_slots []) s).
  assert (forall c', let x := conns s c' in let x' := conns s' c' in id x' = id x /\
    on_disconnection x' = on_disconnection x /\ alive x' = alive x /\ thread x' = thread x /\
    connected x' = connected x /\ disconnected x' = disconnected x /\
    (c' <> c -> on_connection x' = on_connection x) /\
    (forall sl, sl ∈ on_connection x' -> sl ∈ on_connection x)) as Eq.
  { intros c'. cbn. rewrite fn_insert_eq. destruct (decide (c = c')) as [->|]; [|by split_and!].
    split_and!; try done. by intros sl ?%not_elem_of_nil. }
  assert (forall c', c' ∈ connecting s -> c' <> c) as Nc.
  { intros c' [_ T]%(co_connecting _ Co) ->. apply (co_connected _ Co) in I as [_ ?]. destruct T; congruence. }
  split.
  - destruct Co. split; change (connected_ s') with (connected_ s); change (connecting s') with (connecting s);
      change (peer_cache s') with (peer_cache s); change (callers s') with (callers s);
      change (remotes s') with (remotes s); change (next_conn s') with (next_conn s);
      change (next_remote s') with (next_remote s).
    + intros c'. destruct (Eq c') as (_ & _ & -> & _). auto.
    + intros c'. destruct (Eq c') as (_ & _ & -> & -> & _). auto.
    + intros c'. destruct (Eq c') as (_ & _ & -> & -> & _). auto.
    + intros c'. destruct (Eq c') as (_ & _ & -> & -> & _). auto.
    + done.
    + intros c'. unfold live. destruct (Eq c') as (-> & _ & -> & -> & -> & -> & _). apply co_flags0.
    + intros c' J. destruct (Eq c') as (_ & _ & _ & _ & _ & _ & -> & _); auto.
    + intros c1 c2. destruct (Eq c1) as [-> _], (Eq c2) as [-> _]. auto.
    + intros c'. destruct (Eq c') as (_ & _ & -> & _). auto.
    + intros r. destruct (Eq (its (remotes s r))) as (-> & _ & -> & _). auto.
    + auto.
    + intros c' r. destruct (Eq c') as (_ & _ & -> & _ & _ & _ & _ & Sl). intros A J. apply co_opens0; auto.
    + intros c' r. destruct (Eq c') as (_ & -> & -> & _). auto.
    + intros r J. destruct (Eq (its (remotes s r))) as (_ & -> & _ & -> & _ & _ & Oc & _). intros T.
      destruct (co_hooked0 r J T) as [H1 H2]. split; [done|]. intros K. rewrite Oc by auto. auto.
  - intros r c' J K _. destruct (Eq c') as [-> _]. destruct (decide (c' = c)) as [->|N]; [|apply M; [done|done|congruence]].
    intros E. by apply Al.
  - intros O c' K _. destruct (decide (c' = c)) as [->|N]; [by apply Pe|apply P; [done|done|congruence]].
  - intros r J. destruct (F r J) as [F1 F2]. split; [done|]. intros K _.
    destruct (decide (its (remotes s r) = c)) as [E|N]; [by apply Op|apply F2; [done|congruence]].
Qed.

(** Nothing holds it: it is destroyed. *)
Lemma inv_killed c s : inv None s -> c ∈ connected_ s -> held c s = false ->
  inv None (on_conn c bury (on_conn c (set_thread Stopped) (set_connected_ (without c (connected_ s)) s))).
Proof.
  intros [Co M P F] I (Nc & Nr & _)%held_false. set (s' := on_conn c bury _).
  assert (conns s' c = bury (set_thread Stopped (conns s c))) as Ec by (cbn; by rewrite !fn_lookup_insert).
  assert (forall c', c' = c \/ c' <> c /\ conns s' c' = conns s c') as Ca.
  { intros c'. destruct (decide (c' = c)); [by left|right; cbn; by rewrite !fn_lookup_insert_ne]. }
  assert (forall c', alive (conns s' c') = true -> c' <> c /\ conns s' c' = conns s c') as Al.
  { intros c' A. destruct (Ca c') as [->|H]; [by rewrite Ec in A|done]. }
  assert (c ∉ connecting s) as Ng.
  { intros [_ T]%(co_connecting _ Co). apply (co_connected _ Co) in I as [_ ?]. destruct T; congruence. }
  assert (forall c', c' ∈ without c (connected_ s) \/ c' ∈ connecting s \/ c' ∈ callers s ->
    conns s' c' = conns s c') as Li.
  { intros c' J. destruct (Ca c') as [->|[_ ->]]; [|done]. rewrite elem_of_without in J. naive_solver. }
  assert (forall r, r ∈ peer_cache s -> conns s' (its (remotes s r)) = conns s (its (remotes s r))) as Ri.
  { intros r J. destruct (Ca (its (remotes s r))) as [E|[_ ->]]; [|done]. by destruct (Nr r J). }
  split.
  - destruct Co. split; change (connected_ s') with (without c (connected_ s));
      change (connecting s') with (connecting s); change (peer_cache s') with (peer_cache s);
      change (callers s') with (callers s); change (remotes s') with (remotes s);
      change (next_conn s') with (next_conn s); change (next_remote s') with (next_remote s).
    + intros c' A. pose proof (Al c' A) as [_ E]. rewrite E in A. by apply co_fresh0.
    + intros c'. destruct (Ca c') as [->|[_ ->]]; [by rewrite Ec|apply co_dead0].
    + intros c'. rewrite elem_of_without. destruct (Ca c') as [->|[N ->]]; [rewrite Ec; cbn; naive_solver|].
      rewrite co_connected0. naive_solver.
    + intros c'. destruct (Ca c') as [->|[N ->]]; [rewrite Ec; cbn; naive_solver|apply co_connecting0].
    + destruct co_once0 as (? & ? & ?). split_and!; try done. by apply NoDup_without.
    + intros c' A. pose proof (Al c' A) as [_ E]. rewrite E in *. by apply co_flags0.
    + intros c' J. rewrite Li by auto. auto.
    + intros c1 c2 I1 I2. rewrite !Li by auto. apply elem_of_without in I1 as [_ I1], I2 as [_ I2]. auto.
    + intros c' J. rewrite Li by auto. auto.
    + intros r J. rewrite Ri by done. auto.
    + auto.
    + intros c' r A. pose proof (Al c' A) as [_ E]. rewrite E in *. by apply co_opens0.
    + intros c' r A. pose proof (Al c' A) as [_ E]. rewrite E in *. by apply co_ends0.
    + intros r J. rewrite Ri by done. auto.
  - intros r c' J K _. change (connected_ s') with (without c (connected_ s)) in K. rewrite Li by auto.
    apply elem_of_without in K as [_ K]. by apply M.
  - intros O c' [_ K]%elem_of_without _. by apply P.
  - intros r J. destruct (F r J) as [F1 F2]. change (connected_ s') with (without c (connected_ s)).
    change (remotes s') with (remotes s). rewrite elem_of_without. split; [split; auto|naive_solver].
Qed.

Lemma established_spec c s : inv None s -> c ∈ connecting s -> id (conns s c) <> null_addr ->
  exists s', established c s = (Ok tt, s') /\ inv None s' /\
  forall r, r ∈ peer_cache s -> rid (remotes s r) = id (conns s c) -> opened (remotes s r) = false ->
    r ∈ peer_cache s' /\ rid (remotes s' r) = rid (remotes s r) /\ served c r s' /\ c ∈ connected_ s'.
Proof.
  intros K I Nn. pose proof (in_core _ _ K) as Co. pose proof I as [A T]%(co_connecting _ Co).
  unfold established, assert. rewrite bind_read, bool_decide_eq_false_2 by done. cbn [negb when]. rewrite bind_ret_l.
  destruct (find_connected (id (conns s c)) s) as [d|] eqn:Fc.
  { apply find_connected_Some in Fc as [J E]. eexists. split; [reflexivity|].
    split; [by apply inv_drop_duplicate|]. intros r Jr Er Of.
    assert (its (remotes s r) = d) as Ed by (apply (in_matched _ _ K); congruence).
    destruct (in_faithful _ _ K r Jr) as [_ F]. rewrite Ed in F. rewrite F in Of; done. }
  pose proof (find_connected_None _ _ Fc) as Un. rewrite !bind_modify.
  change (emit (OnConnection c) _) with (serve c s).
  pose proof (inv_serve c s K I Nn Un) as K1. set (s1 := serve c s) in *.
  assert (c ∈ connected_ s1) as I1 by (cbn; apply elem_of_app; right; by apply list_elem_of_singleton).
  assert (id (conns s1 c) = id (conns s c)) as Id1 by (cbn; by rewrite fn_lookup_insert).
  destruct (call_slots_spec c (on_connection (conns s c)) s1 K1 I1) as (s2 & E2 & K2 & S2 & O2 & A2 & M2).
  { intros r J. by apply (co_opens _ Co). }
  pose proof (co_makes _ Co c I) as Mk. rewrite (bind_Ok _ _ _ _ _ E2), bind_modify.
  specialize (A2 (or_intror Mk)). destruct (M2 Mk) as (Pe & Sv). rewrite Id1 in Sv.
  change (remotes s1) with (remotes s) in *. change (peer_cache s1) with (peer_cache s) in *.
  assert (c ∈ connected_ s2) as I2 by by rewrite (sv_connected _ _ _ S2).
  assert (forall r, r ∈ peer_cache s2 -> its (remotes s2 r) = c -> opened (remotes s2 r) = true) as Op.
  { intros r J E. destruct (sv_new _ _ _ S2 r J E) as [|[J' E']]; [done|].
    destruct (O2 r) as [_ B]; [|by apply (f_equal fst) in B].
    rewrite <- E'. apply (co_hooked _ Co r J'); change (remotes s1 r) with (remotes s r) in E'; rewrite E'; [|done].
    destruct T; congruence. }
  pose proof (inv_settled c s2 K2 I2 A2 ltac:(by rewrite (sv_observed _ _ _ S2)) Op) as K3.
  set (s3 := on_conn c (set_slots []) s2) in *.
  assert (forall r, r ∈ peer_cache s -> rid (remotes s r) = id (conns s c) -> opened (remotes s r) = false ->
    r ∈ peer_cache s3 /\ rid (remotes s3 r) = rid (remotes s r) /\ served c r s3) as Done.
  { intros r J E Of. destruct (sv_kept _ _ _ S2 r J) as (J2 & E3 & _). split_and!; try done.
    change (served c r s2). destruct (decide (its (remotes s r) = c)) as [Ei|Ni]; [|by apply Sv].
    apply O2. rewrite <- Ei. apply (co_hooked _ Co r J); rewrite Ei; [destruct T; congruence|done]. }
  unfold modify. destruct (held c s3) eqn:H.
  - eexists. split; [reflexivity|]. split; [done|]. intros r J E Of. destruct (Done r J E Of) as (? & ? & ?). done.
  - eexists. split; [reflexivity|]. pose proof (held_false _ _ H) as (H1 & H2 & H3). split.
    + by eapply (inv_killed c s3).
    + intros r J E Of. destruct (Done r J E Of) as (J3 & _ & [Ei _]). by destruct (H2 r J3).
Qed.

(** *** Methods of remotes *)

Lemma remote_facts r s : inv None s -> r ∈ peer_cache s ->
  let c := its (remotes s r) in alive (conns s c) = true /\ id (conns s c) = rid (remotes s r) /\
  rid (remotes s r) <> null_addr /\
  (disconnected (conns s c) = true -> thread (conns s c) = Stopped).
Proof.
  intros K I. pose proof (in_core _ _ K) as Co. destruct (co_remote _ Co r I) as (_ & A & E & N).
  split_and!; try done. intros D. pose proof (co_flags _ Co _ A) as Fl.
  destruct (thread _); try done; [destruct Fl|destruct Fl|destruct Fl as (_ & ? & _)]; congruence.
Qed.

Lemma inv_remote_connect r s : inv None s -> r ∈ peer_cache s ->
  exists s', remote_connect r s = (Ok tt, s') /\ inv None s'.
Proof.
  intros K I. pose proof (in_core _ _ K) as Co. destruct (remote_facts r s K I) as (A & E & N & D).
  unfold remote_connect. rewrite bind_read. set (c := its (remotes s r)) in *.
  destruct (opened (remotes s r)) eqn:O; cbn [negb when]; [by eexists|].
  destruct (disconnected (conns s c)) eqn:Ds; cbn [when]; [|by eexists].
  destruct (connect_spec (location (conns s c)) s K)
    as (d & s1 & E1 & K1 & A1 & T1 & I1 & U1 & Pc & Rm & Cn & _ & _ & Od & _).
  rewrite (bind_Ok _ _ _ _ _ E1). eexists. split; [reflexivity|].
  assert (conns s1 c = conns s c) as Ec by by apply Od.
  eapply (attach_spec None r d s1 K1); rewrite ?Pc, ?Rm, ?Cn; try done.
  - intros <-. change (its (remotes s r)) with c in T1. rewrite Ec, D in T1; done.
  - by rewrite I1.
  - intros [_ T]%(co_connected _ Co). specialize (D eq_refl). unfold c in D. congruence.
  - intros c' J Ei. apply U1; [|by rewrite Cn|congruence]. change (loc_id (location (conns s c))) with (id (conns s c)).
    congruence.
Qed.

Lemma inv_set_remote b r f s : inv b s -> (forall p, rid (f p) = rid p /\ its (f p) = its p /\
  opened (f p) = opened p /\ refused (f p) = refused p) -> inv b (on_remote r f s).
Proof.
  intros K F. eapply inv_unchanged; [done|apply calm_remote; intros p; destruct (F p) as (? & ? & _); done|].
  intros r'. unfold barrier. cbn. rewrite fn_insert_eq. destruct (decide (r = r')) as [->|]; [|done].
  by destruct (F (remotes s r')) as (_ & _ & -> & ->).
Qed.

Lemma inv_clear_exception r s : inv None s -> r ∈ peer_cache s ->
  inv (Some (its (remotes s r))) (clear_exception r s) /\ calm s (clear_exception r s) /\
  (refused (remotes s r) <> None -> opened (remotes (clear_exception r s) r) = false).
Proof.
  intros [Co M P F] I.
  assert (inv (Some (its (remotes s r))) s) as K.
  { split; [done|..].
    - intros r' c' J1 J2 _. by apply M.
    - intros O c' J _. by apply P.
    - intros r' J. destruct (F r' J) as [F1 F2]. split; [done|]. intros J' _. by apply F2. }
  unfold clear_exception. destruct (refused (remotes s r)) as [e|] eqn:R; [|split_and!; try done; apply calm_refl].
  destruct (close_sets true r s) as [e' Se]. split; [|split; [apply Se|]].
  - eapply inv_sets; [done|exact Se|done|]. intros _ _ N. by destruct N.
  - intros _. exact (f_equal fst (se_barrier _ _ _ _ _ Se)).
Qed.

(** [Remote::reconnect]: the connection is over and another is being made; the
    remote is closed unless it was never told. *)
Lemma reconnect_spec r s : inv None s -> r ∈ peer_cache s ->
  exists s', reconnect r s = (Ok tt, s') /\ inv None s' /\ peer_cache s' = peer_cache s /\
  rid (remotes s' r) = rid (remotes s r) /\ self s' = self s /\ opened (remotes s' r) = false /\
  exists c, c ∈ connecting s' /\ id (conns s' c) = rid (remotes s r).
Proof.
  intros K I. unfold reconnect. rewrite bind_modify, bind_read.
  destruct (inv_clear_exception r s K I) as (K1 & C1 & O1). set (s1 := clear_exception r s) in *.
  assert (its (remotes s1 r) = its (remotes s r)) as Ei by apply C1. rewrite Ei.
  set (c := its (remotes s r)) in *. rewrite bind_modify.
  destruct (inv_disconnect (Some c) c s1 K1) as [K2 (T2 & Q2 & Ov)]; [apply only_Some|].
  set (s2 := disconnect c s1) in *.
  assert (peer_cache s2 = peer_cache s1 /\ (forall r', rid (remotes s2 r') = rid (remotes s1 r')) /\
    (forall r', its (remotes s2 r') = its (remotes s1 r')) /\ self s2 = self s1 /\
    location (conns s2 c) = location (conns s1 c) /\ alive (conns s2 c) = alive (conns s1 c))
    as (P2 & R2 & I2 & F2 & L2 & A2).
  { destruct Ov as [->|(x & [] & L & A & _)]; [done|]. by rewrite st_conn0. }
  rewrite bind_modify. set (s3 := if connected (conns s2 c) then _ else s2).
  assert (inv None s3 /\ calm s2 s3 /\ opened (remotes s3 r) = opened (remotes s2 r)) as (K3 & C3 & O3).
  { subst s3. destruct (connected (conns s2 c)); [|split_and!; try done; apply calm_refl].
    split; [by apply inv_set_remote|]. split; [by apply calm_remote|]. cbn. by rewrite fn_lookup_insert. }
  rewrite bind_modify. set (s4 := on_remote r _ s3).
  assert (inv None s4) as K4 by by apply inv_set_remote.
  assert (calm s3 s4) as C4 by by apply calm_remote.
  rewrite bind_read.
  destruct (connect_spec (location (conns s4 c)) s4 K4)
    as (d & s5 & E5 & K5 & A5 & T5 & I5 & _ & Pc & Rm & Cn5 & _ & _ & Od & Sf).
  rewrite (bind_Ok _ _ _ _ _ E5). exists s5. split; [done|]. split; [done|]. rewrite Pc, Rm.
  assert (opened (remotes s4 r) = opened (remotes s2 r)) as O4.
  { subst s4. cbn. rewrite fn_lookup_insert. exact O3. }
  split_and!.
  - by rewrite (ca_cache _ _ C4), (ca_cache _ _ C3), P2, (ca_cache _ _ C1).
  - by rewrite (ca_rid _ _ C4), (ca_rid _ _ C3), R2, (ca_rid _ _ C1).
  - by rewrite Sf, (ca_self _ _ C4), (ca_self _ _ C3), F2, (ca_self _ _ C1).
  - rewrite O4. apply not_true_iff_false. intros O. pose proof (Q2 r O) as B.
    assert (refused (remotes s1 r) = None) as Re.
    { destruct (refused (remotes s r)) as [e|] eqn:R.
      - rewrite (f_equal fst B : opened (remotes s2 r) = opened (remotes s1 r)) in O. rewrite O1 in O; done.
      - unfold s1, clear_exception. by rewrite R. }
    assert (c ∈ connected_ s2) as J.
    { destruct (in_faithful _ _ K2 r) as [F _]; [by rewrite P2, (ca_cache _ _ C1)|].
      rewrite I2, Ei in F. apply F; [done|]. rewrite <- Re. exact (f_equal snd B). }
    apply (co_connected _ (in_core _ _ K2)) in J as [_ J]. congruence.
  - exists d. destruct (remote_facts r s K I) as (A & Eid & _). fold c in A, Eid.
    assert (conns s4 c = conns s2 c) as E4 by by rewrite (ca_conns _ _ C4), (ca_conns _ _ C3).
    assert (location (conns s4 c) = location (conns s c)) as L4 by by rewrite E4, L2, (ca_conns _ _ C1).
    assert (id (conns s5 d) = rid (remotes s r)) as Ed by (rewrite I5, L4; exact Eid).
    split; [|done]. apply (co_connecting _ (in_core _ _ K5)). split; [done|].
    destruct (thread (conns s5 d)) eqn:T; auto; [|done].
    assert (d ∈ connected_ s5) as J by by apply (co_connected _ (in_core _ _ K5)).
    assert (its (remotes s5 r) = d) as <-.
    { apply (in_matched _ _ K5); [|done|done|].
      - by rewrite Pc, (ca_cache _ _ C4), (ca_cache _ _ C3), P2, (ca_cache _ _ C1).
      - by rewrite Rm, (ca_rid _ _ C4), (ca_rid _ _ C3), R2, (ca_rid _ _ C1). }
    rewrite Rm, (ca_its _ _ C4), (ca_its _ _ C3), I2, Ei in T. fold c in T.
    rewrite Od in T by by rewrite E4, A2, (ca_conns _ _ C1). rewrite E4 in T. congruence.
Qed.

(** *** Remotes that end *)

Lemma inv_removed r s : inv None s -> r ∈ peer_cache s -> thread (conns s (its (remotes s r))) = Stopped ->
  inv None (unhook r (its (remotes s r)) (set_peer_cache (next_remote s) (without r (peer_cache s)) s)).
Proof.
  intros [Co M P F] I T. set (c := its (remotes s r)) in *. set (s' := unhook r c _).
  pose proof (not_listed _ _ Co T) as [Nc Ng].
  assert (forall c', let x := conns s c' in let x' := conns s' c' in id x' = id x /\ alive x' = alive x /\
    thread x' = thread x /\ connected x' = connected x /\ disconnected x' = disconnected x /\
    (c' <> c -> x' = x) /\
    (forall r', Opens r' ∈ on_connection x' -> Opens r' ∈ on_connection x /\ (c' = c -> r' <> r)) /\
    (forall r', r' ∈ on_disconnection x' -> r' ∈ on_disconnection x /\ (c' = c -> r' <> r)) /\
    (forall r', r' <> r -> r' ∈ on_disconnection x -> r' ∈ on_disconnection x')) as Eq.
  { intros c'. cbn. rewrite fn_insert_eq. destruct (decide (c = c')) as [<-|]; [|by split_and!; auto].
    split_and!; try done; cbn; intros r'; rewrite elem_of_without; naive_solver. }
  split.
  - destruct Co. split; change (connected_ s') with (connected_ s); change (connecting s') with (connecting s);
      change (peer_cache s') with (without r (peer_cache s)); change (callers s') with (callers s);
      change (remotes s') with (remotes s); change (next_conn s') with (next_conn s);
      change (next_remote s') with (next_remote s).
    + intros c'. destruct (Eq c') as (_ & -> & _). auto.
    + intros c'. destruct (Eq c') as (_ & -> & -> & _). auto.
    + intros c'. destruct (Eq c') as (_ & -> & -> & _). auto.
    + intros c'. destruct (Eq c') as (_ & -> & -> & _). auto.
    + destruct co_once0 as (? & ? & ?). split_and!; try done. by apply NoDup_without.
    + intros c'. unfold live. destruct (Eq c') as (-> & -> & -> & -> & -> & _). apply co_flags0.
    + intros c' J. destruct (Eq c') as (_ & _ & _ & _ & _ & -> & _); [auto|by intros ->].
    + intros c1 c2. destruct (Eq c1) as [-> _], (Eq c2) as [-> _]. auto.
    + intros c'. destruct (Eq c') as (_ & -> & _). auto.
    + intros r' [_ J]%elem_of_without. destruct (Eq (its (remotes s r'))) as (-> & -> & _). auto.
    + intros r1 r2 [_ J1]%elem_of_without [_ J2]%elem_of_without. auto.
    + intros c' r'. destruct (Eq c') as (_ & -> & _ & _ & _ & _ & So & _). intros A J.
      destruct (So r' J) as [J' N]. destruct (co_opens0 c' r' A J') as [J2 E]. rewrite elem_of_without.
      split; [split; [|done]|done]. intros ->. by apply N.
    + intros c' r'. destruct (Eq c') as (_ & -> & _ & _ & _ & _ & _ & Sd & _). intros A J.
      destruct (Sd r' J) as [J' N]. destruct (co_ends0 c' r' A J') as [J2 E]. rewrite elem_of_without.
      split; [split; [|done]|done]. intros ->. by apply N.
    + intros r' [N J]%elem_of_without. destruct (Eq (its (remotes s r'))) as (_ & _ & -> & _ & _ & Oc & _ & _ & Sd).
      intros Th. destruct (co_hooked0 r' J Th) as [H1 H2]. split; [by apply Sd|]. intros K.
      rewrite Oc by (intros E; rewrite E in Th; done). auto.
  - intros r' c' [_ J]%elem_of_without K _. destruct (Eq c') as [-> _]. by apply M.
  - intros O c' K _. destruct (P O c' K) as (r' & J & E); [done|]. exists r'. split; [|done].
    apply elem_of_without. split; [|done]. intros ->. apply Nc. unfold c. by rewrite E.
  - intros r' [_ J]%elem_of_without. by apply F.
Qed.

(** The slots do not look at the remotes of others. *)
Lemma slots_cache n l ts s :
  fold_left (fun s r => disconnection_slot r s) ts (set_peer_cache n l s) =
  set_peer_cache n l (fold_left (fun s r => disconnection_slot r s) ts s).
Proof.
  revert s. induction ts as [|r ts IH]; intros s; [done|]. cbn. rewrite <- IH. f_equal.
  unfold disconnection_slot. change (conns (set_peer_cache n l s)) with (conns s).
  change (remotes (set_peer_cache n l s)) with (remotes s). destruct (connected _); cbn [negb].
  - unfold close_. change (remotes (set_peer_cache n l s)) with (remotes s). by destruct (opened _).
  - unfold raise_, open_. cbn. rewrite !fn_lookup_insert. cbn. destruct (opened _); [done|]. by destruct (disconnected_exception _).
Qed.
Lemma disconnect_cache n l c s : disconnect c (set_peer_cache n l s) = set_peer_cache n l (disconnect c s).
Proof.
  unfold disconnect. change (conns (set_peer_cache n l s)) with (conns s). destruct (disconnected _); [done|].
  destruct (thread _); try done. unfold cleanup, fire_disconnection.
  set (s1 := on_conn c _ (set_connected_ _ (set_peer_cache n l s))). set (s2 := on_conn c _ (set_connected_ _ s)).
  change (emit (OnDisconnection c) s1) with (set_peer_cache n l (emit (OnDisconnection c) s2)).
  change (conns s1) with (conns s2). by rewrite slots_cache.
Qed.

Lemma inv_destroy_remote r s : inv None s -> r ∈ peer_cache s -> inv None (destroy_remote r s).
Proof.
  intros K I. unfold destroy_remote. rewrite disconnect_cache. set (c := its (remotes s r)).
  destruct (inv_disconnect None c s K) as [K' (T & _ & Ov)]; [done|]. apply inv_release.
  assert (next_remote (disconnect c s) = next_remote s /\ peer_cache (disconnect c s) = peer_cache s /\
    its (remotes (disconnect c s) r) = c) as (E1 & E2 & E3).
  { destruct Ov as [->|(x & [] & _)]; [done|]. by split_and!. }
  pose proof (inv_removed r (disconnect c s) K') as Q. rewrite E1, E2, E3 in Q. by apply Q.
Qed.

Lemma inv_fold_disconnect cs s : inv None s ->
  inv None (fold_left (fun s c => release c (disconnect c s)) cs s).
Proof.
  revert s. induction cs as [|c cs IH]; intros s K; [done|]. cbn. apply IH, inv_release.
  by apply (inv_disconnect None).
Qed.

Lemma inv_dock_disconnect s : inv None s -> inv None (dock_disconnect s).
Proof.
  intros K. unfold dock_disconnect. apply (inv_fold_disconnect (connecting s ++ connected_ s)) in K.
  revert K. set (s1 := fold_left _ _ s). clearbody s1. generalize (peer_cache s1). intros rs.
  revert s1. induction rs as [|r rs IH]; intros s1 K; [done|]. cbn. apply IH. by apply (inv_disconnect None).
Qed.
End Properties.
