(* ===== verification/DockTheorems.v ===== *)
(** The theorems on the connections of a node: what a dock and its remotes know of
    each other, how a lost peer comes back, and where this ends. *)

From stdpp Require Import base tactics functions option gmap list.
From Stdlib Require Import ZArith Lia.
From S2P Require Import Prelude Addresses Nodes Kouncil Docks DockProperties.
Import Kouncil (NodeLocation, mkLocation, loc_id, loc_endpoints).
Import Dock.
Open Scope Z_scope.

Section Theorems.
Context {X : Type}.

Implicit Types (s : t X) (c r : Z).

(** *** Every event *)

Lemma connecting_thread c s : core s -> alive (conns s c) = true -> thread (conns s c) = Connecting ->
  c ∈ connecting s.
Proof. intros Co A T. apply (co_connecting _ Co). auto. Qed.

Lemma handshaken_spec c i s : inv None s -> alive (conns s c) = true -> i <> null_addr ->
  exists s', handshaken c i s = (Ok tt, s') /\ inv None s' /\
  (thread (conns s c) = Connecting -> accepts (id (conns s c)) i s = true ->
   forall r, r ∈ peer_cache s -> rid (remotes s r) = i -> opened (remotes s r) = false ->
     r ∈ peer_cache s' /\ rid (remotes s' r) = i /\ served c r s' /\ c ∈ connected_ s').
Proof.
  intros K A N. pose proof (in_core _ _ K) as Co. unfold handshaken. rewrite bind_read.
  case_bool_decide as T; cbn [andb when]; [|exists s; by split_and!].
  destruct (accepts (id (conns s c)) i s) eqn:Ac; cbn [when]; [|exists s; by split_and!].
  pose proof (connecting_thread c s Co A T) as I. case_bool_decide as Z; cbn [when].
  - rewrite bind_modify. set (s1 := on_conn c (set_id i) s).
    assert (inv None s1) as K1 by by apply inv_set_id.
    assert (id (conns s1 c) = i) as E1 by (cbn; by rewrite fn_lookup_insert).
    destruct (established_spec c s1 K1 I) as (s' & E & K' & Sv); [congruence|].
    exists s'. split_and!; try done. intros _ _ r J Er Of. change (remotes s1) with (remotes s) in Sv.
    destruct (Sv r J) as (? & E' & ? & ?); [congruence|done|]. split_and!; congruence.
  - rewrite bind_ret_l. assert (id (conns s c) = i) as E1.
    { unfold accepts in Ac. rewrite (bool_decide_eq_false_2 _ Z) in Ac. cbn in Ac.
      apply andb_true_iff in Ac as [_ Ac]. by apply bool_decide_eq_true in Ac. }
    destruct (established_spec c s K I) as (s' & E & K' & Sv); [congruence|].
    exists s'. split_and!; try done. intros _ _ r J Er Of.
    destruct (Sv r J) as (? & E' & ? & ?); [congruence|done|]. split_and!; congruence.
Qed.

Lemma make_peer_at_ok l s : inv None s -> loc_id l <> null_addr ->
  exists o s', make_peer_at l s = (Ok o, s') /\ inv None s'.
Proof.
  intros K N. unfold make_peer_at, assert. rewrite bool_decide_eq_false_2 by done. cbn [negb when].
  rewrite bind_ret_l, bind_read. case_bool_decide; [by eexists _, _|].
  destruct (find_peer (loc_id l) s) as [r|]; [by eexists _, _|].
  destruct (connect_spec l s K) as (c & s1 & E & K1 & A & T & I & U & _).
  rewrite (bind_Ok _ _ _ _ _ E).
  destruct (make_peer_spec None false c s1 K1 A T) as (o & s' & E' & K' & _); [congruence| |eauto].
  intros c' J Ei. apply U; [done|done|congruence].
Qed.

Lemma inv_drop c l s : inv None s -> (forall d, d ∈ l -> d ∈ callers s) -> inv None (release c (set_callers l s)).
Proof.
  intros K I. apply inv_release, inv_callers; [done|]. intros d J. apply (co_callers _ (in_core _ _ K)). auto.
Qed.

Lemma elem_of_remove_one c d l : d ∈ remove_one c l -> d ∈ l.
Proof.
  induction l as [|b l IH]; cbn; [done|]. destruct (decide (b = c)); rewrite !elem_of_cons; naive_solver.
Qed.

Lemma handle_ok e s : inv None s -> allowed e ->
  exists s', handle e s = (Ok tt, s') /\ inv None s'.
Proof.
  intros K Al. pose proof (in_core _ _ K) as Co. unfold handle. rewrite bind_read.
  destruct e as [l n|c|l|c|c i|c|c e|r|r|r|r| |n]; cbn in Al.
  - subst n. destruct (connect_spec l s K) as (c & s1 & E & K1 & A & _ & _ & _ & _ & _ & _ & Ec & _ & Od & _).
    rewrite (bind_Ok _ _ _ _ _ E). eexists. split; [reflexivity|]. apply inv_callers; [done|].
    intros d. rewrite elem_of_app, list_elem_of_singleton. intros [J| ->]; [|done].
    by apply (co_callers _ (in_core _ _ K1)).
  - case_bool_decide; cbn [when]; [|by eexists]. eexists. split; [reflexivity|]. apply inv_drop; [done|].
    intros d. apply elem_of_remove_one.
  - destruct (make_peer_at_ok l s K Al) as (o & s' & E & K'). rewrite (bind_Ok _ _ _ _ _ E). by eexists.
  - destruct (alive (conns s c)) eqn:A; cbn [when]; [|by eexists]. eexists. split; [reflexivity|by apply inv_start].
  - destruct (alive (conns s c)) eqn:A; cbn [when]; [|by eexists].
    destruct (handshaken_spec c i s K A Al) as (s' & E & K' & _). eauto.
  - destruct (alive (conns s c)) eqn:A; cbn [when]; [|by eexists]. eexists. split; [reflexivity|by apply inv_failed].
  - destruct (alive (conns s c)) eqn:A; cbn [when]; [|by eexists]. eexists. split; [reflexivity|by apply inv_lost].
  - unfold known. case_bool_decide as I; cbn [when]; [|by eexists]. by apply inv_remote_connect.
  - unfold known. case_bool_decide as I; cbn [when]; [|by eexists].
    destruct (reconnect_spec r s K I) as (s' & E & K' & _). eauto.
  - unfold known. case_bool_decide as I; cbn [when]; [|by eexists]. eexists. split; [reflexivity|].
    by apply (inv_disconnect None).
  - unfold known. case_bool_decide as I; cbn [when]; [|by eexists]. eexists. split; [reflexivity|].
    by apply inv_destroy_remote.
  - eexists. split; [reflexivity|]. by apply inv_dock_disconnect.
  - eexists. split; [reflexivity|]. eapply inv_unchanged; [done|by split|done].
Qed.

Lemma inv_begins i o : inv None (begins (X := X) i o).
Proof.
  assert (forall x : Z, x ∈ [] -> False) as No by (intros x J; by apply not_elem_of_nil in J).
  split; [|intros r c J; by apply No in J|intros _ c J; by apply No in J|intros r J; by apply No in J].
  split; cbn; try done; try (intros; exfalso; by eapply No); try (split_and!; constructor).
  - intros c. split; [intros J; by apply No in J|by intros []].
  - intros c. split; [intros J; by apply No in J|by intros []].
Qed.

Lemma run_ok es s : inv None s -> Forall allowed es ->
  exists s', run es s = (Ok tt, s') /\ inv None s'.
Proof.
  intros K F. unfold run. revert s K. induction F as [|e es Al F IH]; intros s K; [by exists s|].
  destruct (handle_ok e s K Al) as (s1 & E & K1). cbn. rewrite E. by apply IH.
Qed.

Lemma reached_inv es i o s : Forall allowed es ->
  run es (begins i o) = (Ok tt, s) -> inv None s.
Proof. intros F E. destruct (run_ok es (begins i o)) as (s' & E' & K); [apply inv_begins|done|]. congruence. Qed.

(** C22. A dock keeps track of its connections, which are made to have a remote, whoever
    connects, answers with an address that is not null, fails, is lost, interrupted or
    destroyed, and whichever remotes connect, reconnect and disconnect, in any order: no
    assertion fails; at most one
    connection to a node serves, and there is at most one remote for a node; the
    connection of a remote exists and is to its node, it is the one that serves if
    one does, and there is a remote for every connection that serves if something
    asks for them; a remote whose connection serves is open, and one that is open
    and does not refuse has a connection that serves. A connection made without a remote
    does not keep to this ([dropped_connection_stays]); the calls over a remote are apart
    ([impatient_call_asserts]). *)
Theorem dock_keeps_track i o (es : list (event X)) : Forall allowed es ->
  exists s, run es (begins i o) = (Ok tt, s) /\
  (forall c c', c ∈ connected_ s -> c' ∈ connected_ s -> id (conns s c) = id (conns s c') -> c = c') /\
  (forall r r', r ∈ peer_cache s -> r' ∈ peer_cache s ->
     rid (remotes s r) = rid (remotes s r') -> r = r') /\
  (forall r c, r ∈ peer_cache s -> c ∈ connected_ s -> id (conns s c) = rid (remotes s r) ->
     its (remotes s r) = c) /\
  (observed s = true -> forall c, c ∈ connected_ s -> exists r, r ∈ peer_cache s /\ its (remotes s r) = c) /\
  (forall r, r ∈ peer_cache s -> let x := conns s (its (remotes s r)) in
     alive x = true /\ id x = rid (remotes s r) /\
     (live x = true <-> thread x = Serving) /\
     (live x = true -> opened (remotes s r) = true) /\
     (opened (remotes s r) = true -> refused (remotes s r) = None -> live x = true)).
Proof.
  intros F. destruct (run_ok es (begins i o)) as (s & E & K); [apply inv_begins|done|].
  exists s. split; [done|]. destruct K as [Co M P Fa]. split_and!.
  - apply (co_ids _ Co).
  - apply (co_unique _ Co).
  - intros r c I J. by apply M.
  - intros O c J. by apply P.
  - intros r I. destruct (co_remote _ Co r I) as (_ & A & Ei & _). destruct (Fa r I) as [F1 F2].
    pose proof (live_serves _ s Co A) as L. split_and!; try done.
    + rewrite L, (co_connected _ Co). naive_solver.
    + intros Lv. apply F2; [by apply L|done].
    + intros O R. apply L. by apply F1.
Qed.

(** C23. A peer comes back: a remote that reconnects is closed and has a connection that
    is being made to its node; once it answers, the remote has this connection and
    is open, as the calls that wait for it do not otherwise see. *)
Theorem reconnection_restores es i o s r : Forall allowed es ->
  run (X := X) es (begins i o) = (Ok tt, s) -> r ∈ peer_cache s -> rid (remotes s r) <> self s ->
  exists s1 c, reconnect r s = (Ok tt, s1) /\ opened (remotes s1 r) = false /\
  c ∈ connecting s1 /\ id (conns s1 c) = rid (remotes s r) /\
  exists s2, handshaken c (rid (remotes s r)) (start c s1) = (Ok tt, s2) /\
  its (remotes s2 r) = c /\ live (conns s2 c) = true /\
  opened (remotes s2 r) = true /\ refused (remotes s2 r) = None.
Proof.
  intros F E I Ns. pose proof (reached_inv _ _ _ _ F E) as K.
  destruct (remote_facts r s K I) as (_ & _ & Nn & _).
  destruct (reconnect_spec r s K I) as (s1 & E1 & K1 & Pc & Rd & Sf & Op & c & Jc & Ic).
  exists s1, c. split_and!; try done. pose proof (in_core _ _ K1) as Co1.
  pose proof Jc as [A T]%(co_connecting _ Co1). set (s1' := start c s1).
  assert (inv None s1') as K1' by by apply inv_start.
  assert (thread (conns s1' c) = Connecting /\ id (conns s1' c) = id (conns s1 c) /\ alive (conns s1' c) = true /\
    self s1' = self s1 /\ peer_cache s1' = peer_cache s1 /\ remotes s1' = remotes s1) as (T' & Id' & A' & Sf' & Pc' & Rm').
  { subst s1'. unfold start. destruct T as [T|T]; rewrite T; [|done]. cbn. by rewrite fn_lookup_insert. }
  destruct (handshaken_spec c (rid (remotes s r)) s1' K1' A' Nn) as (s2 & E2 & K2 & Sv).
  exists s2. split; [done|]. destruct (Sv T') with (r := r) as (J2 & _ & [Ei B] & Cn).
  - unfold accepts. rewrite Sf', Sf, Id', Ic.
    rewrite (bool_decide_eq_false_2 (rid (remotes s r) = self s)) by done.
    rewrite (bool_decide_eq_true_2 (rid (remotes s r) = rid (remotes s r))) by done. by rewrite orb_true_r.
  - by rewrite Pc', Pc.
  - by rewrite Rm', Rd.
  - by rewrite Rm', Op.
  - split_and!; [done| |exact (f_equal fst B)|exact (f_equal snd B)].
    apply live_serves; [apply K2| |done]. by apply (co_connected _ (in_core _ _ K2)) in Cn as [].
Qed.
End Theorems.

(** *** On concrete events *)

Definition here : Addr := Address.sample ↾ I.
Definition there : Addr := Address.make (replicate 32 1) ↾ I.
Definition nowhere : NodeLocation := mkLocation there ∅.
Definition somewhere : NodeLocation := mkLocation there {[Endpoints.mkEndpoint [127; 0; 0; 1] 80]}.

(** A peer is found, answers, and is lost. *)
Definition lost_peer : list (event Z) :=
  [MakePeer somewhere; Start 0; Handshaken 0 there; Lose 0 ConnectionClosed].

Lemma lost_peer_allowed : Forall allowed lost_peer.
Proof. unfold lost_peer. repeat constructor; cbn; by intros [=]. Qed.

Lemma dock_keeps_track_witness : exists s, run lost_peer (begins here true) = (Ok tt, s) /\
  peer_cache s = [0] /\ opened (remotes s 0) = false /\
  (0 ∈ peer_cache s -> live (conns s (its (remotes s 0))) = true -> opened (remotes s 0) = true).
Proof.
  destruct (dock_keeps_track here true lost_peer lost_peer_allowed) as (s & E & _ & _ & _ & _ & H).
  assert (s = (run lost_peer (begins here true)).2) as Es by by rewrite E.
  exists s. split; [exact E|]. split; [rewrite Es; by vm_compute|]. split; [rewrite Es; by vm_compute|].
  intros J L. exact (proj1 (proj2 (proj2 (proj2 (H 0 J)))) L).
Defined.

Lemma reconnection_restores_witness :
  let s := (run lost_peer (begins here true)).2 in
  exists s1 c, reconnect 0 s = (Ok tt, s1) /\ opened (remotes s1 0) = false /\
  exists s2, handshaken c there (start c s1) = (Ok tt, s2) /\ opened (remotes s2 0) = true.
Proof.
  pose proof (reconnection_restores lost_peer here true (run lost_peer (begins here true)).2 0
    lost_peer_allowed) as H.
  destruct H as (s1 & c & E & O & _ & _ & s2 & E2 & _ & _ & O2 & _).
  - by vm_compute.
  - vm_compute. left.
  - vm_compute. by intros [=].
  - exists s1, c. split; [exact E|]. split; [exact O|]. exists s2. split; [exact E2|exact O2].
Defined.

(** *** Where this ends *)

(** A remote whose connection failed keeps the exception when another connection
    serves: it is not told to be connected, and the next call reconnects, which ends
    the connection that works and tells that the peer was disconnected. *)
Definition failed_then_connected : list (event Z) :=
  [MakePeer nowhere; Start 0; Fail 0; Connect somewhere false; Start 1; Handshaken 1 there].

Theorem revived_remote_refuses :
  let s := (run failed_then_connected (begins here true)).2 in
  its (remotes s 0) = 1 /\ live (conns s 1) = true /\ opened (remotes s 0) = true /\
  refused (remotes s 0) = Some ConnectionRefused /\
  Forall (fun a => a <> PeerConnected 0) (out s) /\
  let s' := (perform_turn (A := unit) Raised (Done tt) (1, 1) 0 s).2 in
  live (conns s' 1) = false /\ out s' = out s ++ [PeerDisconnected 0; OnDisconnection 1].
Proof.
  cbn zeta. split; [by vm_compute|]. split; [by vm_compute|]. split; [by vm_compute|]. split; [by vm_compute|].
  split; [|split; by vm_compute]. vm_compute. repeat constructor; by intros [=].
Qed.

(** Connecting is interrupted: the connection never is, and is not disconnected
    either, so that [Remote::connect] does not start another and waits for ever. *)
Theorem interrupted_connection_is_never_over :
  let s := (run [MakePeer somewhere; Start 0; RemoteDisconnect 0] (begins (X := Z) here true)).2 in
  thread (conns s 0) = Stopped /\ disconnected (conns s 0) = false /\ connecting s = [] /\
  remote_connect 0 s = (Ok tt, s) /\ opened (remotes s 0) = false.
Proof. cbn zeta. split; [by vm_compute|]. split; [by vm_compute|]. split; [by vm_compute|]. by split; vm_compute. Qed.

(** A call to a peer that was never connected fails an assertion when the patience
    for the remote is shorter than the time of calls. *)
Theorem impatient_call_asserts :
  let s := (run [MakePeer somewhere; Start 0; Fail 0] (begins (X := Z) here true)).2 in
  let '(r, s1) := begin_call 5 0 s in
  r = Ok tt /\ opened (remotes s1 0) = false /\
  delays 5 1 (now s1) 0 s1 = (5, 1) /\
  (perform_turn (A := unit) Elapsed (Done tt) (delays 5 1 (now s1) 0 s1) 0 s1).1 = Throw AssertError.
Proof. by vm_compute. Qed.

(** A connection that is dropped before its coroutine runs stays in the dock, whose
    next connection to the same endpoints fails an assertion. *)
Theorem dropped_connection_stays :
  (run [Connect somewhere true; Drop 0; Connect somewhere true] (begins (X := Z) here true)).1 =
    Throw AssertError.
Proof. by vm_compute. Qed.
